(* ===== verification/_CoqProject ===== *)
-Q . S2P
Prelude.v
Backoff.v
Config.v
Flume.v
Quota.v
QuotaSteps.v
Actor.v
Mailbox.v
MailboxSpec.v
Tokio.v
Runtime.v
Supervision.v
RuntimeMoves.v
RuntimeTree.v
RuntimeWatch.v
RuntimeSystem.v
RuntimeTrace.v
RuntimeMailboxes.v
RuntimeProgress.v
RuntimeExample.v
PersistenceIds.v
Versioning.v
Store.v
InMemoryStore.v
Handlers.v
RuntimeThreads.v
RuntimeProtocols.v
RuntimeRounds.v
RuntimeScheduler.v
RuntimeRestarts.v
SupervisionExample.v
HelloExample.v
CounterExample.v
ScatterGather.v
Floats.v
DeviceManager.v
DeviceQueries.v
DeviceRuns.v
DeviceExample.v
WorkPulling.v
EventSourced.v
SpawnEventSourced.v
StoreRuns.v
EventSourcing.v
EventSourcedSystem.v
EventSourcedRequests.v
Testing.v
EventSourcedCounter.v
CounterSystem.v
EventSourcedSupervision.v
SupervisedLoader.v
Host.v
HostSpec.v
HostExample.v
Ask.v
Postgres.v
PostgresSpec.v
Text.v
Orderings.v
Report.v
ReportSpec.v
ReportExample.v
