(* ===== verification/Prelude.v ===== *)
(** * tellus: a verification of the actor library and its persistence

    tellus is an actor library on tokio: actors receive messages one at a time from mailboxes of their own, live
    in a tree in which parents supervise and outlive their children, and watch each other's termination.
    Event-sourced actors keep their state as the fold of an event stream in a store; hosts keep one actor per key;
    asks bridge to asynchronous code. This library models the program file by file, and proves what its
    documentation promises. Paths below are relative to [src/tellus/src] unless they name a crate.

    ** The parts, and where they are

    Foundations. This file: results, panics ([outcome]), the arithmetic of machine-width integers, lists.
    [Backoff] (backoff.rs), [Config] (actor_config.rs), [Actor] (actor.rs). [Flume] and [Tokio] are the
    interfaces of the channels of the crates flume and tokio: classes of operations with classes of laws, each with
    a reference instance, so that every theorem about the code holds for whatever keeps the laws.

    Mailboxes. [Quota] (quota.rs) is the capacity reservation, [QuotaSteps] its interleaving by any number of
    senders; [Mailbox] (mailbox.rs) the mailbox with its registry of watchers; [MailboxSpec] the abstract queue
    the mailbox refines.

    The runtime. [Runtime] (actor_context.rs, actor_ref.rs, actor_system.rs, sync.rs) has the state of a whole
    system as a [World]: per actor a cell with its mailbox, what its context watches, its restarts and its program
    counter ([Phase]), next to the stop channels that tie children to parents. A [Label] names who acts next;
    [step] performs one atomic action, and [exec] a run. The methods of an actor are a [Handler], a program whose
    nodes are the actions of the context (tell, spawn, watch, the clock, ...), so a handler interleaves with all other
    tasks. [Actor] of [Runtime] is the trait. [RuntimeMoves] decomposes steps into atomic moves, over which the
    invariants are proved: [RuntimeTree] (children before parents, the abstract tree refined by the
    runtime), [RuntimeWatch] (signals), [RuntimeSystem] (the system as its owner sees it), [RuntimeTrace] (what
    was enqueued and received, in which order). [Supervision] is about [next_restart]. [RuntimeExample] runs a system.
    [Handlers] composes handlers and relates them to what they do.

    Persistence. [PersistenceIds], [Versioning] (persistence_id.rs, seq_no.rs, schema_version.rs, codec.rs,
    versioned.rs), [Store] (store.rs: the traits with their documented contracts as laws), [InMemoryStore]
    (in_memory_store.rs), [Postgres] and [PostgresSpec] (the crate tellus-persistence-postgres), which both
    discharge the contracts. [EventSourced] (event_sourced.rs, effect.rs, persistence.rs) is the trait,
    [SpawnEventSourced] (spawn.rs) the task: an instance of the class [Actor] whose handlers await the stores, so the
    runtime's theorems apply to it. [StoreRuns] runs its programs against stores which other incarnations change
    between any two requests, and [EventSourcing] proves recovery and settlement against the laws of
    [Store]. [EventSourcedSystem] puts whole systems on shared stores, together with other processes: the theorems
    are proved against the interface [StoreClient], which event-sourced actors implement by themselves and next to plain ones.
    [EventSourcedRequests] is about what is asked of the stores: streams only hold what has been handled.
    [EventSourcedCounter] is the counter of the examples of tellus-persistence-postgres, [CounterSystem] a system of it.

    On top. [Host], [HostSpec], [HostExample] (host.rs), [Ask] (ask.rs and [ActorRef::ask]), [Testing]
    (testing.rs).

    Programs. [RuntimeMailboxes] accounts for every message (capacity, dead letters, drains), [RuntimeProgress] shows
    what is left when no task can take a step, and [RuntimeThreads] takes a run of a system apart into the threads of
    its actors: each runs its own code, on what it receives. [RuntimeProtocols] lifts what each thread does by itself,
    given that it only gets what the protocol of the program admits, to all runs; [RuntimeRounds] divides threads
    into rounds, one per incoming, types programs, and settles what has been received in worlds at rest;
    [RuntimeRestarts] shows why actors end, and [RuntimeScheduler] drives concrete runs.
    With these the examples of [src/tellus/examples] are verified: [ScatterGather] (scatter_gather.rs), [WorkPulling]
    (work_pulling.rs) and the device manager (device_manager.rs): [DeviceManager] is the program, [DeviceQueries] what
    each of its actors does by itself, [DeviceRuns] what it does as a whole, [DeviceExample] a run of it;
    [SupervisionExample] (supervision.rs) is about restarts; [HelloExample] (hello.rs) is the minimal program and
    [CounterExample] (counter.rs) the one which is told and asked.
    [EventSourcedSupervision] (event_sourced_supervision.rs) mixes a plain actor and an event-sourced one, whose count
    survives its restarts; [SupervisedLoader] is a run of it with two restarts.

    The comparison report. [Report] (tellus-comparison/src/bin/report.rs) collects the results of the benchmarks, sorts
    them and renders the page; [Floats], [Text] and [Orderings] are what it uses of the standard library (binary64 and its
    formatting, strings, sorting and grouping of slices). [ReportSpec] shows that every sample is found, that a benchmark
    has one section, that no text changes the markup of the page and that versions are read from a lock file as they
    are; [ReportExample] is a page.

    ** What the theorems show

    Runtime: the tasks below an actor have ended before anyone learns that it has terminated; mailboxes are FIFO; a
    terminated signal is the last thing from an actor; signals are neither lost nor repeated nor delivered after
    [unwatch]; an actor told to stop does at most the one thing it was about to do: it takes an incoming if it was between
    the two polls of its [select!], and stops its children for a restart if it was past the probe of [await_restart], but
    does not run [init] anew; one which polls for the stop receives nothing anymore; [terminated] resolves exactly when the system
    is gone; dropping a system stops nothing; no system deadlocks, typed programs stay typed, and actors end for a reason:
    told to, by themselves, or once their restarts are used up. They hold for every sequence of labels, that is in
    every interleaving of the tasks. Mailbox: refinement of the queue, exactness of the quota under concurrency,
    the race between watching and terminating. Event sourcing: live and recovered states are the fold of the stream;
    nothing acts outwardly before its events are durable; incarnations, systems and processes share the stores safely; of two racing incarnations one is fenced off; recovery
    comes to an end, succeeds exactly if the stores answer and what is there can be restored and replayed, and restores. Asks: an ask
    resolves to a reply it finds, and times out only if it found none when it last looked; a reply between this and its return
    is neither received nor a dead letter. Stores: appends are conditional, atomic and read back; the conditional INSERT is as good as
    atomic thanks to the primary key. Host: one incarnation per key, nothing lost in a passivation, whatever
    the host receives meanwhile. Values: round
    trips, bounds and saturation, errors. Programs: in every interleaving the total of scatter-gather is complete,
    work pulling never drops a job, though its mailboxes hold one message only, the averages of the device manager
    are exact and served without a timeout, and restarts lose nothing that is queued, nor what an event-sourced actor
    has counted.

    ** Bounds and fuel

    Integers are [N] or [Z] with the saturation, the checked operations and the ranges written out (u16, u32, u64,
    i64; usize has 64 bits); durations are nanoseconds. The only fuel is that of [SpawnEventSourced.replay], the
    number of pages read: [recovery_completes] shows that one more than the pages the stream fills is enough. All other
    recursions are structural or bounded by the length of a string ([Text.trim_start]), and runs of the system are over finite but arbitrary sequences of labels.

    ** What is not modelled

    Logging and tracing, which do not change the state; destructors of user values, which have no access to the
    context; how many handles to a mailbox are left once its actor has started (a task ends by its own decisions only,
    as it holds a handle to itself). Steps are as fine as the accesses to what is shared: the poll of the stop and the one of
    the mailbox in [next_incoming!], the probe of the stop and the restart, the polls and the return of an ask are steps of their
    own. What is one step nevertheless: [watch], [unwatch] and [stop_children], which besides their access to a registry or
    a channel only change what is private to the task, but for the signal [watch] sends to the task's own mailbox when the
    registry is closed; the poll of the stop and the one of a timer in [await_backoff], as whether a timer has fired is
    up to the environment; and a send or receive with the reservation of capacity it makes or releases, whose
    atomic steps [QuotaSteps] interleaves. The derived serde implementations, the
    formats (ciborium, serde_json) and sqlx are parameters. Deployment of the schema, the writing of
    the report, benchmarks and the setup of tracing in the examples are I/O. *)
From Stdlib Require Export ZArith NArith Lia.
From stdpp Require Export base tactics numbers list gmap strings option.
From stdpp Require Export fin_maps fin_sets.

(** ** Notations, result types and scopes *)

Declare Scope tellus_scope.
Delimit Scope tellus_scope with tellus.
#[global] Open Scope tellus_scope.

(** Rust's [Result<T, E>]. *)
Inductive result (T E : Type) : Type :=
  | Ok (t : T)
  | Err (e : E).
Arguments Ok {T E} t.
Arguments Err {T E} e.

Definition result_bind {T U E} (r : result T E) (f : T → result U E) : result U E :=
  match r with
  | Ok t => f t
  | Err e => Err e
  end.

Definition map_err {T E F} (f : E → F) (r : result T E) : result T F :=
  match r with
  | Ok t => Ok t
  | Err e => Err (f e)
  end.

Definition ok {T E} (r : result T E) : option T :=
  match r with
  | Ok t => Some t
  | Err _ => None
  end.

Definition is_ok {T E} (r : result T E) : bool :=
  match r with
  | Ok _ => true
  | Err _ => false
  end.

(** [r.unwrap_or(d)] *)
Definition unwrap_or {T E} (d : T) (r : result T E) : T :=
  match r with
  | Ok t => t
  | Err _ => d
  end.

(** [o.ok_or(e)] *)
Definition ok_or {T E} (e : E) (o : option T) : result T E :=
  match o with
  | Some t => Ok t
  | None => Err e
  end.

(** The [?] operator on a [Result]. *)
Notation "'let?' x := r 'in' k" := (result_bind r (λ x, k))
  (at level 10, x name, r at level 100, k at level 200,
   format "'let?'  x  :=  r  'in' '//' k") : tellus_scope.
Notation "'let?' ' p := r 'in' k" := (result_bind r (λ q, match q with p => k end))
  (at level 10, p pattern, r at level 100, k at level 200,
   format "'let?'  ' p  :=  r  'in' '//' k") : tellus_scope.

(** What a call of user code or of a foreign destructor comes back with: [catch_unwind] turns a
    panic into a value. *)
Inductive outcome (A : Type) : Type :=
  | Returned (a : A)
  | Panicked.
Arguments Returned {A} a.
Arguments Panicked {A}.

Definition outcome_bind {A B} (o : outcome A) (f : A → outcome B) : outcome B :=
  match o with
  | Returned a => f a
  | Panicked => Panicked
  end.

Definition outcome_map {A B} (f : A → B) (o : outcome A) : outcome B :=
  match o with
  | Returned a => Returned (f a)
  | Panicked => Panicked
  end.

(** The [?] operator in code which may also panic. *)
Definition try_bind {T U E} (o : outcome (result T E)) (f : T → outcome (result U E)) : outcome (result U E) :=
  match o with
  | Returned (Ok t) => f t
  | Returned (Err e) => Returned (Err e)
  | Panicked => Panicked
  end.

Notation "'try' x := o 'in' k" := (try_bind o (λ x, k))
  (at level 10, x name, o at level 100, k at level 200,
   format "'try'  x  :=  o  'in' '//' k") : tellus_scope.

Lemma try_bind_Ok {T U E} (o : outcome (result T E)) (f : T → outcome (result U E)) u :
  try_bind o f = Returned (Ok u) ↔ ∃ t, o = Returned (Ok t) ∧ f t = Returned (Ok u).
Proof. destruct o as [[t|e]|]; simpl; naive_solver. Qed.

#[export] Instance result_eq_dec {T E} `{EqDecision T, EqDecision E} :
  EqDecision (result T E).
Proof. solve_decision. Defined.
#[export] Instance outcome_eq_dec {A} `{EqDecision A} : EqDecision (outcome A).
Proof. solve_decision. Defined.

Lemma result_bind_Ok {T U E} (r : result T E) (f : T → result U E) u :
  result_bind r f = Ok u ↔ ∃ t, r = Ok t ∧ f t = Ok u.
Proof. destruct r; simpl; naive_solver. Qed.

Lemma is_ok_true {T E} (r : result T E) : is_ok r = true ↔ ∃ t, r = Ok t.
Proof. destruct r; simpl; naive_solver. Qed.

(** ** Machine integers

    Unsigned integers of width [w] are values of [N] below [2 ^ w]; the operations of the standard
    library the code uses are written out with their wrap-around or saturation. [usize] is the one
    of a 64-bit target. *)

Abbreviation U16_MAX := 65535%N.
Abbreviation U32_MAX := 4294967295%N.
Abbreviation U64_MAX := 18446744073709551615%N.
Abbreviation USIZE_MAX := U64_MAX.
Abbreviation I64_MAX := 9223372036854775807%N.

(** [AtomicUsize::fetch_add]/[fetch_sub] wrap around. *)
Definition usize_wrapping_add (a b : N) : N := ((a + b) mod (USIZE_MAX + 1))%N.
Definition usize_wrapping_sub (a b : N) : N := ((a + (USIZE_MAX + 1) - b) mod (USIZE_MAX + 1))%N.

Definition usize_saturating_add (a b : N) : N := N.min (a + b) USIZE_MAX.
Definition u64_saturating_add (a b : N) : N := N.min (a + b) U64_MAX.

(** [n as u64] of a [usize] and [n as usize] of a [u64] on a 64-bit target. *)
Definition usize_of_u64 (n : N) : N := n.
Definition u64_of_usize (n : N) : N := n.

(** [1u32.checked_shl(step)]: [None] once the shift reaches the width. *)
Definition u32_checked_shl (a step : N) : option N :=
  if decide (step < 32)%N then Some (N.land (N.shiftl a step) U32_MAX) else None.

Lemma usize_wrapping_add_small a b :
  (a + b ≤ USIZE_MAX)%N → usize_wrapping_add a b = (a + b)%N.
Proof. intros H. unfold usize_wrapping_add. apply N.mod_small. lia. Qed.

Lemma usize_wrapping_sub_small a b :
  (b ≤ a)%N → (a ≤ USIZE_MAX)%N → usize_wrapping_sub a b = (a - b)%N.
Proof.
  intros H1 H2. unfold usize_wrapping_sub.
  replace (a + (USIZE_MAX + 1) - b)%N with ((a - b) + 1 * (USIZE_MAX + 1))%N by lia.
  rewrite N.Div0.mod_add. apply N.mod_small. lia.
Qed.

Lemma u32_one_checked_shl step :
  (step < 32)%N → u32_checked_shl 1 step = Some (2 ^ step)%N.
Proof.
  intros H. unfold u32_checked_shl. rewrite decide_True by done. f_equal.
  rewrite N.shiftl_1_l. change U32_MAX with (N.ones 32). rewrite N.land_ones.
  apply N.mod_small, N.pow_lt_mono_r; lia.
Qed.

Lemma u32_checked_shl_overflow a step :
  (32 ≤ step)%N → u32_checked_shl a step = None.
Proof. intros H. unfold u32_checked_shl. rewrite decide_False by lia. done. Qed.

(** ** Durations and instants

    A [std::time::Duration] is a number of nanoseconds, at most [DURATION_MAX] (2^64 - 1 seconds
    and 999,999,999 nanoseconds); an [Instant] is the number of nanoseconds of a monotonic clock. *)

Definition Duration := N.
Definition Instant := N.
Bind Scope N_scope with Duration Instant.

Abbreviation DURATION_MAX := 18446744073709551615999999999%N.

Definition duration_from_millis (ms : N) : Duration := (ms * 1000000)%N.
Definition duration_from_secs (s : N) : Duration := (s * 1000000000)%N.
Definition duration_is_zero (d : Duration) : bool := (d =? 0)%N.

(** [Duration::saturating_mul] by a [u32]. *)
Definition duration_saturating_mul (d : Duration) (n : N) : Duration := N.min (d * n) DURATION_MAX.

(** [instant.elapsed()], given the reading [now] of the clock: saturates at zero. *)
Definition elapsed (now since : Instant) : Duration := (now - since)%N.

#[export] Instance Duration_eq_dec : EqDecision Duration := _.
#[export] Instance Instant_eq_dec : EqDecision Instant := _.

(** ** Identities

    [ActorId] wraps a [Uuid]; only its equality, its hash and its uniqueness are ever used. *)

(** An actor's identity: the number the UUID v7 is. *)
Record ActorId := mk_actor_id { uuid : N }.

#[export] Instance ActorId_eq_dec : EqDecision ActorId.
Proof. solve_decision. Defined.
#[export] Instance ActorId_countable : Countable ActorId.
Proof. apply (inj_countable' uuid mk_actor_id). by intros []. Defined.

(** ** Lists and maps shared by the components *)

Lemma app_snoc_assoc {A} (l1 l2 : list A) x : l1 ++ l2 ++ [x] = (l1 ++ l2) ++ [x].
Proof. by rewrite (assoc_L (++)). Qed.

Lemma foldl_snoc {A B} (f : A → B → A) (l : list B) a x :
  foldl f a (l ++ [x]) = f (foldl f a l) x.
Proof. by rewrite foldl_app. Qed.

(** The sum of a weight over the values of a finite map. *)
Definition mcount {K V} `{Countable K} (f : V → nat) (m : gmap K V) : nat :=
  map_fold (λ _ v n, f v + n)%nat 0%nat m.

Section Mcount.
Context {K V : Type} `{Countable K} (f : V → nat).
Implicit Types m : gmap K V.

Lemma mcount_empty : mcount f (∅ : gmap K V) = 0%nat.
Proof. reflexivity. Qed.

Lemma mcount_fresh m k v : m !! k = None → mcount f (<[k := v]> m) = (f v + mcount f m)%nat.
Proof. intros Hk. unfold mcount. apply (map_fold_insert_L (λ _ v n, (f v + n)%nat)); [lia|done]. Qed.

Lemma mcount_delete m k :
  mcount f m = (from_option f 0 (m !! k) + mcount f (delete k m))%nat.
Proof.
  destruct (m !! k) as [v|] eqn:Hk; simpl.
  - apply (map_fold_delete_L (λ _ v n, (f v + n)%nat)); [lia|done].
  - by rewrite delete_id.
Qed.

(** Replacing (or adding) one value changes the sum by the difference of its weights. *)
Lemma mcount_insert m k v :
  (mcount f (<[k := v]> m) + from_option f 0 (m !! k) = f v + mcount f m)%nat.
Proof.
  rewrite <-(insert_delete_eq m k v), mcount_fresh by apply lookup_delete_eq.
  rewrite (mcount_delete m k). lia.
Qed.

Lemma mcount_pos m k v : m !! k = Some v → (f v ≤ mcount f m)%nat.
Proof. intros Hk. rewrite (mcount_delete m k), Hk. simpl. lia. Qed.

Lemma mcount_zero m : mcount f m = 0%nat ↔ (∀ k v, m !! k = Some v → f v = 0%nat).
Proof.
  split.
  - intros Hz k v Hk. pose proof (mcount_pos m k v Hk). lia.
  - induction m as [|k v m Hk IH] using map_ind; intros Hz; [done|].
    rewrite mcount_fresh by done. rewrite (Hz k v) by by rewrite lookup_insert_eq.
    rewrite IH; [done|]. intros k' v' Hk'. apply (Hz k'). rewrite lookup_insert_ne; congruence.
Qed.

Lemma mcount_nonzero m : mcount f m ≠ 0%nat → ∃ k v, m !! k = Some v ∧ f v ≠ 0%nat.
Proof.
  induction m as [|k v m Hk IH] using map_ind; [by rewrite mcount_empty|]. rewrite mcount_fresh by done. intros Hz.
  destruct (decide (f v = 0%nat)) as [Hv|Hv]; [|exists k, v; by rewrite lookup_insert_eq].
  destruct IH as (k' & v' & Hk' & Hv'); [lia|]. exists k', v'. rewrite lookup_insert_ne by congruence. done.
Qed.
End Mcount.

(** Reflexive transitive reachability of a labelled step function, with the trace of its labels. *)
Section Runs.
Context {W L : Type} (step : L → W → option W).

Fixpoint run (ls : list L) (w : W) : option W :=
  match ls with
  | [] => Some w
  | l :: ls => step l w ≫= run ls
  end.

Lemma run_app ls1 ls2 w : run (ls1 ++ ls2) w = run ls1 w ≫= run ls2.
Proof. revert w. induction ls1 as [|l ls1 IH]; intros w; simpl; [done|]. destruct (step l w); simpl; auto. Qed.

Lemma run_snoc ls l w w' : run (ls ++ [l]) w = Some w' ↔ ∃ w0, run ls w = Some w0 ∧ step l w0 = Some w'.
Proof.
  rewrite run_app, bind_Some. simpl. setoid_rewrite bind_Some. naive_solver.
Qed.

(** An invariant of the steps holds after every run. *)
Lemma run_invariant (I : W → Prop) :
  (∀ l w w', I w → step l w = Some w' → I w') →
  ∀ ls w w', I w → run ls w = Some w' → I w'.
Proof.
  intros Hstep ls. induction ls as [|l ls IH]; simpl; intros w w' HI Hrun.
  - by simplify_eq.
  - apply bind_Some in Hrun as (w0 & Hs & Hr). eauto.
Qed.
End Runs.

(** How often [b] is in a list. *)
Section Times.
Context {A : Type} `{EqDecision A}.
Implicit Types (b x : A) (l k : list A).

Definition times b l : nat := length (filter (.= b) l).

Lemma times_nil b : times b [] = 0%nat.
Proof. done. Qed.
Lemma times_app b l k : times b (l ++ k) = (times b l + times b k)%nat.
Proof. unfold times. by rewrite filter_app, length_app. Qed.
Lemma times_cons b x l : times b (x :: l) = ((if decide (x = b) then 1 else 0) + times b l)%nat.
Proof. unfold times. rewrite filter_cons. by case_decide. Qed.

Lemma times_elem b l : (0 < times b l)%nat ↔ b ∈ l.
Proof.
  induction l as [|x l IH]; [rewrite times_nil; split; [lia|by intros ?%elem_of_nil]|]. rewrite times_cons, elem_of_cons, <-IH.
  case_decide; [split; [by left|lia]|]. split; [right; lia|intros [?|?]; [congruence|lia]].
Qed.

Lemma NoDup_times l : NoDup l ↔ ∀ b, (times b l ≤ 1)%nat.
Proof.
  induction l as [|x l IH]; [split; [intros _ b; rewrite times_nil; lia|constructor]|].
  rewrite NoDup_cons, IH. setoid_rewrite times_cons. rewrite <-times_elem. split.
  - intros [Hx Hl] b. specialize (Hl b). case_decide; [subst|]; lia.
  - intros Hall. split; [specialize (Hall x); rewrite decide_True in Hall by done; lia|intros b; specialize (Hall b); lia].
Qed.

Lemma times_sublist b l k : l `sublist_of` k → (times b l ≤ times b k)%nat.
Proof. induction 1; rewrite ?times_cons; lia. Qed.
End Times.

Lemma filter_all {X} (P : X → Prop) `{∀ x, Decision (P x)} (l : list X) : (∀ x, x ∈ l → P x) → filter P l = l.
Proof.
  induction l as [|x l IH]; intros Hl; [done|]. rewrite filter_cons, decide_True by (apply Hl; by left).
  f_equal. apply IH. intros y Hy. apply Hl. by right.
Qed.
Lemma sublist_filter_mono {A} (P : A → Prop) `{∀ x, Decision (P x)} (l k : list A) :
  l `sublist_of` k → filter P l `sublist_of` filter P k.
Proof. induction 1; rewrite ?filter_cons; [done|..]; case_decide; by try constructor. Qed.

(** A sublist which is as long is all. *)
Lemma sublist_same {A} (l k : list A) : l `sublist_of` k → (length k ≤ length l)%nat → l = k.
Proof.
  induction 1 as [|x l k _ IH|x l k Hs IH]; simpl; intros Hlen; [done|f_equal; apply IH; lia|].
  apply sublist_length in Hs. lia.
Qed.

Lemma length_omap_le {X Y} (f : X → option Y) (k : list X) : length (omap f k) ≤ length k.
Proof. induction k as [|x k IH]; [done|]. csimpl. destruct (f x); csimpl; lia. Qed.

(** ** Automation *)

Create HintDb tellus discriminated.
Create Rewrite HintDb tellus_rw.

(** Splits the case analyses a definition makes, one equation per branch. *)
Ltac case_all :=
  repeat (case_match || case_decide); simplify_eq; try done.

(** Opens nested existentials and conjunctions in the context. *)
Ltac open_all :=
  repeat match goal with
  | H : ∃ _, _ |- _ => destruct H
  | H : _ ∧ _ |- _ => destruct H
  end.
