(* ===== verification/Backoff.v ===== *)
(** Exponential backoff: [tellus/src/backoff.rs]. A [Backoff] holds two ordered bounds; the delay of
    a zero-based step doubles the minimum per step, saturating in the shift and in the
    multiplication, and is capped at the maximum. *)
From S2P Require Import Prelude.

(** The bounds; the fields are private, so every value comes from [new]. *)
Record Backoff := mk_backoff { min : Duration; max : Duration }.

Record InvalidBackoff := mk_invalid_backoff { invalid_min : Duration; invalid_max : Duration }.

Definition DEFAULT_MIN : Duration := duration_from_millis 250.
Definition DEFAULT_MAX : Duration := duration_from_secs 4.

Definition new (min max : Duration) : result Backoff InvalidBackoff :=
  if decide (max < min)%N then Err (mk_invalid_backoff min max) else Ok (mk_backoff min max).

(** The delay for the zero-based [step]. *)
Definition duration (b : Backoff) (step : N) : Duration :=
  let factor := default U32_MAX (u32_checked_shl 1 step) in
  N.min (duration_saturating_mul (min b) factor) (max b).

(** [Default::default]: the [expect] holds by [default_bounds_ordered]. *)
Definition default_backoff : Backoff :=
  match new DEFAULT_MIN DEFAULT_MAX with
  | Ok b => b
  | Err _ => mk_backoff DEFAULT_MIN DEFAULT_MAX
  end.

(** The deserialized form and its validation (feature [serde]). *)
Record UncheckedBackoff := mk_unchecked { unchecked_min : Duration; unchecked_max : Duration }.

Definition try_from (unchecked : UncheckedBackoff) : result Backoff InvalidBackoff :=
  new (unchecked_min unchecked) (unchecked_max unchecked).

(** A [Backoff] the public API can produce. *)
Definition valid (b : Backoff) : Prop := (min b ≤ max b)%N ∧ (max b ≤ DURATION_MAX)%N.

#[export] Instance Backoff_eq_dec : EqDecision Backoff.
Proof. solve_decision. Defined.

Lemma default_bounds_ordered : new DEFAULT_MIN DEFAULT_MAX = Ok default_backoff.
Proof. reflexivity. Qed.

Lemma new_ok mn mx b : new mn mx = Ok b ↔ (mn ≤ mx)%N ∧ b = mk_backoff mn mx.
Proof. unfold new. case_decide; split; intros; open_all; simplify_eq; try split; try done; lia. Qed.

Lemma new_err mn mx : (∃ e, new mn mx = Err e) ↔ (mx < mn)%N.
Proof. unfold new. case_decide; split; intros; open_all; simplify_eq; eauto. lia. Qed.

Lemma duration_small b step :
  valid b → (step < 32)%N → duration b step = N.min (min b * 2 ^ step) (max b).
Proof.
  intros [_ Hmax] Hs. unfold duration. rewrite u32_one_checked_shl by done. simpl.
  unfold duration_saturating_mul. lia.
Qed.

Lemma duration_large b step :
  valid b → (32 ≤ step)%N → duration b step = N.min (min b * U32_MAX) (max b).
Proof.
  intros [_ Hmax] Hs. unfold duration. rewrite u32_checked_shl_overflow by done. simpl.
  unfold duration_saturating_mul. lia.
Qed.

(** From step 32 on the factor is saturated at 2^32 - 1 rather than doubled further, so the delay
    is [min * (2^32 - 1)] capped at the maximum: with bounds more than 2^32 - 1 apart it stays
    strictly below the documented [min * 2^step] capped at the maximum. *)
Theorem backoff_saturates_below_the_documented_delay (mn mx : Duration) (b : Backoff) (step : N) :
  (mx ≤ DURATION_MAX)%N →
  new mn mx = Ok b →
  (32 ≤ step)%N →
  (0 < mn)%N →
  duration b step = N.min (mn * U32_MAX) mx ∧
  ((mn * U32_MAX < mx)%N → (duration b step < N.min (mn * 2 ^ step) mx)%N).
Proof.
  intros Hmx [Hle ->]%new_ok Hs Hmn.
  rewrite (duration_large (mk_backoff mn mx) _ ltac:(by split) Hs). simpl. split; [done|].
  intros Hlt. pose proof (N.pow_le_mono_r 2 32 step ltac:(lia) Hs) as Hp.
  change (2 ^ 32)%N with 4294967296%N in Hp. nia.
Qed.

Lemma backoff_saturates_below_the_documented_delay_witness :
  duration (mk_backoff 1 5000000000) 32 = N.min (1 * U32_MAX) 5000000000 ∧
  ((1 * U32_MAX < 5000000000)%N →
   (duration (mk_backoff 1 5000000000) 32 < N.min (1 * 2 ^ 32) 5000000000)%N).
Proof.
  apply (backoff_saturates_below_the_documented_delay 1 5000000000 (mk_backoff 1 5000000000) 32).
  - vm_compute. discriminate.
  - reflexivity.
  - vm_compute. discriminate.
  - vm_compute. reflexivity.
Defined.

(** C40. The delay of any step whatever stays between the bounds the backoff was built with and never
    decreases from one step to the next. Below step 32 it is exactly the minimum doubled per
    step and capped at the maximum: [min * 2^step] capped, with no wrap-around in the shift or in
    the multiplication. From step 32 on the factor is saturated at 2^32 - 1 instead, strictly below the documented
    [min * 2^step] where the bounds are further apart. *)
Theorem backoff_doubles_up_to_the_cap (mn mx : Duration) (b : Backoff) (step : N) :
  (mx ≤ DURATION_MAX)%N →
  new mn mx = Ok b →
  (mn ≤ duration b step ≤ mx)%N ∧
  (duration b step ≤ duration b (step + 1))%N ∧
  (step < 32 → duration b step = N.min (mn * 2 ^ step) mx)%N ∧
  (32 ≤ step → duration b step = N.min (mn * U32_MAX) mx ∧
     (0 < mn → mn * U32_MAX < mx → duration b step < N.min (mn * 2 ^ step) mx))%N.
Proof.
  intros Hmx Hnew. pose proof (backoff_saturates_below_the_documented_delay mn mx b step Hmx Hnew) as Hsat.
  apply new_ok in Hnew as [Hle ->]. assert (valid (mk_backoff mn mx)) as Hv by (by split).
  assert (∀ s, s < 32 → 1 ≤ 2 ^ s ≤ 2147483648)%N as Hpow.
  { intros s Hs. split.
    - apply (N.pow_le_mono_r 2 0 s); lia.
    - apply (N.pow_le_mono_r 2 s 31); lia. }
  destruct (decide (step < 32)%N) as [Hs|Hs].
  - rewrite (duration_small _ _ Hv Hs). simpl. pose proof (Hpow step Hs). split; [nia|]. split; [|split; [done|lia]].
    destruct (decide (step + 1 < 32)%N) as [Hs'|Hs'].
    + rewrite (duration_small _ _ Hv Hs'), N.pow_add_r. simpl. nia.
    + rewrite (duration_large _ _ Hv) by lia. simpl. nia.
  - assert (duration (mk_backoff mn mx) step = N.min (mn * U32_MAX) mx) as Heq by (apply duration_large; [done|lia]).
    split; [rewrite Heq; nia|]. split; [by rewrite !(duration_large _ _ Hv) by lia|]. split; [lia|].
    intros Hge. split; [done|]. intros Hpos Hlt. by apply (Hsat Hge Hpos).
Qed.

Lemma backoff_doubles_up_to_the_cap_witness :
  ∃ b, new DEFAULT_MIN DEFAULT_MAX = Ok b ∧
    (DEFAULT_MIN ≤ duration b 3 ≤ DEFAULT_MAX)%N ∧ (duration b 3 ≤ duration b (3 + 1))%N ∧
    duration b 3 = N.min (DEFAULT_MIN * 2 ^ 3) DEFAULT_MAX.
Proof.
  exists default_backoff. split; [reflexivity|].
  destruct (backoff_doubles_up_to_the_cap DEFAULT_MIN DEFAULT_MAX default_backoff 3) as (Hb & Hm & Hs & _).
  - vm_compute. discriminate.
  - reflexivity.
  - split; [exact Hb|]. split; [exact Hm|]. apply Hs. reflexivity.
Defined.

(** No [Backoff] contradicts itself: both ways to build one, [new] and deserialization, accept
    exactly the ordered bounds, keep them as they are, and reject the inverted ones naming both. *)
Theorem backoff_bounds_are_ordered (mn mx : Duration) :
  try_from (mk_unchecked mn mx) = new mn mx ∧
  (∀ b, new mn mx = Ok b → min b = mn ∧ max b = mx ∧ (min b ≤ max b)%N) ∧
  (∀ e, new mn mx = Err e → e = mk_invalid_backoff mn mx ∧ (mx < mn)%N) ∧
  (is_ok (new mn mx) = true ↔ (mn ≤ mx)%N).
Proof. unfold try_from, new; simpl. repeat split; case_decide; naive_solver lia. Qed.
