(* ===== verification/Config.v ===== *)
(** Configuration of an actor: [tellus/src/actor_config.rs]. *)
From S2P Require Import Prelude Backoff.

(** [NonZeroUsize] and [NonZeroU32] are positive numbers; [get] is their value. *)
Inductive MailboxCapacity :=
  | Unbounded
  | Bounded (capacity : positive).

(** The limit and pacing for restarts. *)
Record RestartPolicy := mk_policy {
  max_restarts : positive;
  backoff : Backoff;
  reset_after : Duration;
}.

Inductive SupervisionStrategy :=
  | Stop
  | Restart (policy : RestartPolicy).

Record ActorConfig := mk_config {
  mailbox_capacity : MailboxCapacity;
  supervision_strategy : SupervisionStrategy;
}.

Definition default_capacity : MailboxCapacity := Unbounded.
Definition default_strategy : SupervisionStrategy := Stop.
Definition default_config : ActorConfig := mk_config default_capacity default_strategy.

Definition with_mailbox_capacity (c : ActorConfig) (capacity : MailboxCapacity) : ActorConfig :=
  {| mailbox_capacity := capacity; supervision_strategy := supervision_strategy c |}.

Definition with_supervision_strategy (c : ActorConfig) (s : SupervisionStrategy) : ActorConfig :=
  {| mailbox_capacity := mailbox_capacity c; supervision_strategy := s |}.

Definition DEFAULT_RESET_AFTER : Duration := duration_from_secs 30.

Definition new_policy (max_restarts : positive) : RestartPolicy :=
  {| max_restarts := max_restarts; backoff := default_backoff; reset_after := DEFAULT_RESET_AFTER |}.

Definition with_backoff (p : RestartPolicy) (b : Backoff) : RestartPolicy :=
  {| max_restarts := max_restarts p; backoff := b; reset_after := reset_after p |}.

Definition with_reset_after (p : RestartPolicy) (d : Duration) : RestartPolicy :=
  {| max_restarts := max_restarts p; backoff := backoff p; reset_after := d |}.

(** [default_reset_after], named by the [serde] attribute. *)
Definition default_reset_after : Duration := DEFAULT_RESET_AFTER.

#[export] Instance MailboxCapacity_eq_dec : EqDecision MailboxCapacity.
Proof. solve_decision. Defined.
#[export] Instance RestartPolicy_eq_dec : EqDecision RestartPolicy.
Proof. solve_decision. Defined.
#[export] Instance SupervisionStrategy_eq_dec : EqDecision SupervisionStrategy.
Proof. solve_decision. Defined.
#[export] Instance ActorConfig_eq_dec : EqDecision ActorConfig.
Proof. solve_decision. Defined.

(** Setters of distinct fields commute, and the last setter of a field wins. *)
Lemma config_setters_commute c cap s :
  with_supervision_strategy (with_mailbox_capacity c cap) s =
  with_mailbox_capacity (with_supervision_strategy c s) cap.
Proof. done. Qed.

Lemma policy_setters_commute p b d :
  with_reset_after (with_backoff p b) d = with_backoff (with_reset_after p d) b.
Proof. done. Qed.
