(* ===== verification/Flume.v ===== *)
(** The channel the mailboxes are built on: the interface of the [flume] crate's unbounded channels
    as the code uses it, and what the code relies on.

    [flume] is not part of the repository, so its channel is a parameter: the class [Flume] names the
    operations and the class [FlumeLaws] states their documented behaviour through three observations
    of a channel (the queued items, whether a receiver is left, how many senders are). The instance
    [ReferenceFlume] shows the laws can hold and lets the witnesses compute. *)
From S2P Require Import Prelude.

(** What polling a future comes back with. *)
Inductive Poll (A : Type) : Type :=
  | Pending
  | Ready (a : A).
Arguments Pending {A}.
Arguments Ready {A} a.

Inductive TryRecvError := Empty | Disconnected_rx.

Class Flume := {
  Channel : Type → Type;
  (** [flume::unbounded()]: one sender and one receiver. *)
  unbounded : ∀ T, Channel T;
  (** [Sender::send]: [None] is the [SendError]. *)
  send : ∀ {T}, T → Channel T → option (Channel T);
  (** [Sender::is_disconnected] *)
  is_disconnected : ∀ {T}, Channel T → bool;
  (** Polling [Receiver::recv_async]: [Ready None] is the [RecvError]. *)
  poll_recv : ∀ {T}, Channel T → Poll (option (T * Channel T));
  (** [Receiver::try_recv] *)
  try_recv : ∀ {T}, Channel T → result (T * Channel T) TryRecvError;
  (** [Receiver::drain], collected. *)
  drain : ∀ {T}, Channel T → list T * Channel T;
  (** Dropping the receiver, cloning and dropping a sender. *)
  drop_rx : ∀ {T}, Channel T → Channel T;
  clone_tx : ∀ {T}, Channel T → Channel T;
  drop_tx : ∀ {T}, Channel T → Channel T;
}.
Arguments unbounded {_} T.

(** What [flume] documents, in terms of the queued items, the liveness of the receiver and the number
    of senders. *)
Class FlumeLaws (F : Flume) := {
  queue : ∀ {T}, Channel T → list T;
  rx_alive : ∀ {T}, Channel T → bool;
  tx_count : ∀ {T}, Channel T → nat;

  queue_unbounded : ∀ T, queue (unbounded T) = [];
  rx_alive_unbounded : ∀ T, rx_alive (unbounded T) = true;
  tx_count_unbounded : ∀ T, tx_count (unbounded T) = 1%nat;

  (** Sending fails once the receivers are gone, and appends otherwise. *)
  send_dead : ∀ T (x : T) c, rx_alive c = false → send x c = None;
  send_alive : ∀ T (x : T) c, rx_alive c = true →
    ∃ c', send x c = Some c' ∧ queue c' = queue c ++ [x] ∧ rx_alive c' = true ∧
          tx_count c' = tx_count c;
  is_disconnected_spec : ∀ T (c : Channel T), is_disconnected c = negb (rx_alive c);

  (** Receiving takes the oldest item; an empty channel is pending while a sender is left. *)
  poll_recv_cons : ∀ T (c : Channel T) x q, queue c = x :: q →
    ∃ c', poll_recv c = Ready (Some (x, c')) ∧ queue c' = q ∧ rx_alive c' = rx_alive c ∧
          tx_count c' = tx_count c;
  poll_recv_nil : ∀ T (c : Channel T), queue c = [] →
    poll_recv c = if decide (tx_count c = 0%nat) then Ready None else Pending;
  try_recv_cons : ∀ T (c : Channel T) x q, queue c = x :: q →
    ∃ c', try_recv c = Ok (x, c') ∧ queue c' = q ∧ rx_alive c' = rx_alive c ∧
          tx_count c' = tx_count c;
  try_recv_nil : ∀ T (c : Channel T), queue c = [] →
    try_recv c = Err (if decide (tx_count c = 0%nat) then Disconnected_rx else Empty);
  drain_spec : ∀ T (c : Channel T),
    (drain c).1 = queue c ∧ queue (drain c).2 = [] ∧ rx_alive (drain c).2 = rx_alive c ∧
    tx_count (drain c).2 = tx_count c;

  (** Dropping the receiver retains what is queued until the last sender is dropped. *)
  drop_rx_spec : ∀ T (c : Channel T),
    queue (drop_rx c) = queue c ∧ rx_alive (drop_rx c) = false ∧ tx_count (drop_rx c) = tx_count c;
  clone_tx_spec : ∀ T (c : Channel T),
    queue (clone_tx c) = queue c ∧ rx_alive (clone_tx c) = rx_alive c ∧
    tx_count (clone_tx c) = S (tx_count c);
  drop_tx_spec : ∀ T (c : Channel T),
    (1 < tx_count c)%nat ∨ rx_alive c = true →
    queue (drop_tx c) = queue c ∧ rx_alive (drop_tx c) = rx_alive c ∧
    tx_count (drop_tx c) = pred (tx_count c);
}.

#[export] Hint Rewrite @queue_unbounded @rx_alive_unbounded @tx_count_unbounded
  @is_disconnected_spec : tellus_rw.

Section Derived.
Context {F : Flume} {FL : FlumeLaws F}.

Lemma send_some {T} (x : T) c c' :
  send x c = Some c' → rx_alive c = true ∧ queue c' = queue c ++ [x] ∧ rx_alive c' = true ∧
    tx_count c' = tx_count c.
Proof.
  intros Hs. destruct (rx_alive c) eqn:Ha.
  - destruct (send_alive T x c Ha) as (c0 & Hs0 & ?). by simplify_eq.
  - by rewrite (send_dead T x c Ha) in Hs.
Qed.

Lemma send_none {T} (x : T) c : send x c = None ↔ rx_alive c = false.
Proof.
  split; [|apply send_dead]. intros Hs. destruct (rx_alive c) eqn:Ha; [|done].
  by destruct (send_alive T x c Ha) as (c0 & ? & ?); simplify_eq.
Qed.

Lemma poll_recv_some {T} (c : Channel T) x c' :
  poll_recv c = Ready (Some (x, c')) →
  queue c = x :: queue c' ∧ rx_alive c' = rx_alive c ∧ tx_count c' = tx_count c.
Proof.
  intros Hp. destruct (queue c) as [|y q] eqn:Hq.
  - rewrite (poll_recv_nil T c Hq) in Hp. case_decide; simplify_eq.
  - destruct (poll_recv_cons T c y q Hq) as (c0 & Hp0 & <- & ?). rewrite Hp0 in Hp. by simplify_eq.
Qed.

Lemma try_recv_ok {T} (c : Channel T) x c' :
  try_recv c = Ok (x, c') →
  queue c = x :: queue c' ∧ rx_alive c' = rx_alive c ∧ tx_count c' = tx_count c.
Proof.
  intros Hp. destruct (queue c) as [|y q] eqn:Hq.
  - rewrite (try_recv_nil T c Hq) in Hp. simplify_eq.
  - destruct (try_recv_cons T c y q Hq) as (c0 & Hp0 & <- & ?). rewrite Hp0 in Hp. by simplify_eq.
Qed.
End Derived.

(** A channel as the list of its items, the liveness of its receiver and the number of its senders:
    an instance of the laws. *)
Module Reference.
Record channel (T : Type) := mk { items : list T; receiving : bool; senders : nat }.
Arguments mk {T}. Arguments items {T}. Arguments receiving {T}. Arguments senders {T}.

#[export] Instance ReferenceFlume : Flume := {
  Channel := channel;
  unbounded T := mk [] true 1;
  send T x c := if receiving c then Some (mk (items c ++ [x]) true (senders c)) else None;
  is_disconnected T c := negb (receiving c);
  poll_recv T c :=
    match items c with
    | x :: q => Ready (Some (x, mk q (receiving c) (senders c)))
    | [] => if decide (senders c = 0%nat) then Ready None else Pending
    end;
  try_recv T c :=
    match items c with
    | x :: q => Ok (x, mk q (receiving c) (senders c))
    | [] => Err (if decide (senders c = 0%nat) then Disconnected_rx else Empty)
    end;
  drain T c := (items c, mk [] (receiving c) (senders c));
  drop_rx T c := mk (items c) false (senders c);
  clone_tx T c := mk (items c) (receiving c) (S (senders c));
  drop_tx T c := mk (items c) (receiving c) (pred (senders c));
}.

#[export, refine] Instance ReferenceFlumeLaws : FlumeLaws ReferenceFlume := {
  queue T c := items (c : channel T);
  rx_alive T c := receiving (c : channel T);
  tx_count T c := senders (c : channel T);
}.
Proof.
  all: intros; simpl in *; try done.
  - by rewrite H.
  - rewrite H. eauto.
  - rewrite H. eauto.
  - by rewrite H.
  - rewrite H. eauto.
  - by rewrite H.
Defined.
End Reference.
