(* ===== verification/Quota.v ===== *)
(** The capacity reservation in front of the mailbox channel: [tellus/src/quota.rs].

    The state shared by all clones of a quota is its atomic counter, so a [Quota] is passed in and
    out of its operations and a clone is the same state; likewise a [CountedSender] is the shared
    channel together with the shared quota. The second half interleaves the atomic steps of any
    number of senders with those of the one receiver. *)
From S2P Require Import Prelude Flume.

(** ** The quota and its reservations *)

Record Full := mk_full {}.
Record Disconnected := mk_disconnected {}.

Inductive CountedSendError :=
  | CFull (e : Full)
  | CDisconnected (e : Disconnected).

Inductive Repr :=
  | RUnbounded
  | RBounded (capacity : positive) (count : N).

Record Quota := mk_quota { repr : Repr }.

(** A reservation held by a sender: [true] while dropping it releases the quota. *)
Record Reservation := mk_reservation { armed : bool }.

Definition unbounded_quota : Quota := mk_quota RUnbounded.
Definition bounded_quota (capacity : positive) : Quota := mk_quota (RBounded capacity 0).

(** The closure of [try_update] in [reserve]. *)
Definition reserve_update (capacity : positive) (current : N) : option N :=
  if decide (current < Npos capacity)%N then Some (current + 1)%N else None.

Definition reserve (q : Quota) : result Reservation Full * Quota :=
  match repr q with
  | RUnbounded => (Ok (mk_reservation true), q)
  | RBounded capacity count =>
      match reserve_update capacity count with
      | Some count' => (Ok (mk_reservation true), mk_quota (RBounded capacity count'))
      | None => (Err mk_full, q)
      end
  end.

Definition reserve_forced (q : Quota) : Reservation * Quota :=
  match repr q with
  | RUnbounded => (mk_reservation true, q)
  | RBounded capacity count =>
      (mk_reservation true, mk_quota (RBounded capacity (usize_wrapping_add count 1)))
  end.

Definition unreserve (q : Quota) : Quota :=
  match repr q with
  | RUnbounded => q
  | RBounded capacity count => mk_quota (RBounded capacity (usize_wrapping_sub count 1))
  end.

(** The [debug_assert] of [unreserve]: the counter was not zero. *)
Definition unreserve_asserts (q : Quota) : bool :=
  match repr q with
  | RUnbounded => true
  | RBounded _ count => bool_decide (0 < count)%N
  end.

Definition commit (r : Reservation) : Reservation := mk_reservation false.

(** [Drop for Reservation] *)
Definition drop_reservation (r : Reservation) (q : Quota) : Quota :=
  if armed r then unreserve q else q.

#[export] Instance Full_eq_dec : EqDecision Full.
Proof. solve_decision. Defined.
#[export] Instance Disconnected_eq_dec : EqDecision Disconnected.
Proof. solve_decision. Defined.
#[export] Instance CountedSendError_eq_dec : EqDecision CountedSendError.
Proof. solve_decision. Defined.
#[export] Instance Repr_eq_dec : EqDecision Repr.
Proof. solve_decision. Defined.
#[export] Instance Quota_eq_dec : EqDecision Quota.
Proof. solve_decision. Defined.

(** ** The counted sender *)

Section CountedSender.
Context {F : Flume}.

(** What the clones of a sender share: the channel and the quota's counter. *)
Record CountedSender (T : Type) := mk_counted_sender {
  item_tx : Channel T;
  quota : Quota;
}.
#[global] Arguments mk_counted_sender {T}.
#[global] Arguments item_tx {T}.
#[global] Arguments quota {T}.

Definition counted_sender_new {T} (tx : Channel T) (q : Quota) : CountedSender T :=
  mk_counted_sender tx q.

Definition try_send_counted {T} (item : T) (s : CountedSender T)
    : result unit CountedSendError * CountedSender T :=
  match reserve (quota s) with
  | (Ok reservation, q) =>
      match send item (item_tx s) with
      | Some tx => (Ok tt, mk_counted_sender tx (drop_reservation (commit reservation) q))
      | None =>
          (Err (CDisconnected mk_disconnected),
           mk_counted_sender (item_tx s) (drop_reservation reservation q))
      end
  | (Err full, q) =>
      if is_disconnected (item_tx s)
      then (Err (CDisconnected mk_disconnected), mk_counted_sender (item_tx s) q)
      else (Err (CFull full), mk_counted_sender (item_tx s) q)
  end.

Definition try_send_forced {T} (item : T) (s : CountedSender T)
    : result unit Disconnected * CountedSender T :=
  let '(reservation, q) := reserve_forced (quota s) in
  match send item (item_tx s) with
  | Some tx => (Ok tt, mk_counted_sender tx (drop_reservation (commit reservation) q))
  | None =>
      (Err mk_disconnected, mk_counted_sender (item_tx s) (drop_reservation reservation q))
  end.

Definition try_send_uncounted {T} (item : T) (s : CountedSender T)
    : result unit Disconnected * CountedSender T :=
  match send item (item_tx s) with
  | Some tx => (Ok tt, mk_counted_sender tx (quota s))
  | None => (Err mk_disconnected, s)
  end.

(** [Clone]: one more sender on the same channel, the same quota. *)
Definition counted_sender_clone {T} (s : CountedSender T) : CountedSender T :=
  mk_counted_sender (clone_tx (item_tx s)) (quota s).
End CountedSender.

(** ** Sequential behaviour *)

(** How many items are counted, when the quota bounds them. *)
Definition counted (q : Quota) : option (positive * N) :=
  match repr q with
  | RUnbounded => None
  | RBounded capacity count => Some (capacity, count)
  end.

(** A capacity is a [usize], and the counter is one. *)
Definition quota_wf (q : Quota) : Prop :=
  match repr q with
  | RUnbounded => True
  | RBounded capacity count => (Npos capacity ≤ USIZE_MAX)%N ∧ (count ≤ USIZE_MAX)%N
  end.

(** Whether an ordinary send finds capacity. *)
Definition has_capacity (q : Quota) : bool :=
  match repr q with
  | RUnbounded => true
  | RBounded capacity count => bool_decide (count < Npos capacity)%N
  end.

(** The quota with one more item counted. *)
Definition count_one (q : Quota) : Quota :=
  match repr q with
  | RUnbounded => q
  | RBounded capacity count => mk_quota (RBounded capacity (count + 1)%N)
  end.

Lemma reserve_spec q :
  reserve q = if has_capacity q then (Ok (mk_reservation true), count_one q) else (Err mk_full, q).
Proof.
  destruct q as [[|cap n]]; unfold reserve, has_capacity, count_one, reserve_update; simpl; [done|].
  case_decide; [rewrite bool_decide_eq_true_2 by done|rewrite bool_decide_eq_false_2 by done]; done.
Qed.

Lemma reserve_forced_spec q :
  quota_wf (count_one q) → reserve_forced q = (mk_reservation true, count_one q).
Proof.
  destruct q as [[|cap n]]; unfold reserve_forced, quota_wf, count_one; simpl; [done|].
  intros [_ Hn]. by rewrite usize_wrapping_add_small.
Qed.

Lemma unreserve_count_one q : quota_wf q → quota_wf (count_one q) → unreserve (count_one q) = q.
Proof.
  destruct q as [[|cap n]]; unfold unreserve, quota_wf, count_one; simpl; [done|].
  intros [? ?] [_ ?]. rewrite usize_wrapping_sub_small by lia. do 3 f_equal. lia.
Qed.

Lemma count_one_wf q : quota_wf q → has_capacity q = true → quota_wf (count_one q).
Proof.
  destruct q as [[|cap n]]; unfold quota_wf, has_capacity, count_one; simpl; [done|].
  intros [? ?] ?%bool_decide_eq_true. lia.
Qed.

Section Sequential.
Context {F : Flume} {FL : FlumeLaws F}.
Context {T : Type}.
Implicit Types (s : CountedSender T) (item : T).

(** Everything [try_send_counted] can do, as one equation on the shared state. *)
Definition counted_send_result item s : result unit CountedSendError :=
  if negb (rx_alive (item_tx s)) then Err (CDisconnected mk_disconnected)
  else if has_capacity (quota s) then Ok tt else Err (CFull mk_full).

Lemma try_send_counted_result item s : (try_send_counted item s).1 = counted_send_result item s.
Proof.
  unfold try_send_counted, counted_send_result. rewrite reserve_spec, is_disconnected_spec.
  destruct (rx_alive (item_tx s)) eqn:Ha; simpl.
  - destruct (send_alive T item _ Ha) as (c & -> & _). by destruct (has_capacity _).
  - rewrite (send_dead T item _ Ha). by destruct (has_capacity _).
Qed.

Lemma try_send_counted_ok item s s' :
  try_send_counted item s = (Ok tt, s') →
  rx_alive (item_tx s) = true ∧ has_capacity (quota s) = true ∧
  queue (item_tx s') = queue (item_tx s) ++ [item] ∧ rx_alive (item_tx s') = true ∧
  quota s' = count_one (quota s).
Proof.
  unfold try_send_counted. rewrite reserve_spec. intros Heq.
  destruct (has_capacity (quota s)); [|by case_match; simplify_eq].
  destruct (send item (item_tx s)) eqn:Hs; simplify_eq. simpl.
  apply send_some in Hs as (? & ? & ? & _). done.
Qed.

(** A send which fails leaves the shared state exactly as it was. *)
Lemma try_send_counted_err item s s' e :
  quota_wf (quota s) → try_send_counted item s = (Err e, s') → s' = s.
Proof.
  intros Hwf. unfold try_send_counted. rewrite reserve_spec.
  destruct (has_capacity (quota s)) eqn:Hc.
  - destruct (send item (item_tx s)) eqn:Hs; intros; simplify_eq. unfold drop_reservation; simpl.
    rewrite unreserve_count_one by auto using count_one_wf. by destruct s.
  - intros. destruct s. by case_match; simplify_eq.
Qed.

(** No send changes how many senders there are. *)
Lemma try_send_tx_count item s :
  tx_count (item_tx (try_send_counted item s).2) = tx_count (item_tx s) ∧
  tx_count (item_tx (try_send_forced item s).2) = tx_count (item_tx s) ∧
  tx_count (item_tx (try_send_uncounted item s).2) = tx_count (item_tx s).
Proof.
  unfold try_send_counted, try_send_forced, try_send_uncounted.
  destruct (reserve_forced (quota s)) as [rf qf].
  destruct (send item (item_tx s)) eqn:Hs.
  - apply send_some in Hs as (_ & _ & _ & Htx). by repeat case_match; simplify_eq.
  - by repeat case_match; simplify_eq.
Qed.

Lemma try_send_uncounted_ok item s s' :
  try_send_uncounted item s = (Ok tt, s') →
  rx_alive (item_tx s) = true ∧ queue (item_tx s') = queue (item_tx s) ++ [item] ∧
  rx_alive (item_tx s') = true ∧ quota s' = quota s.
Proof.
  unfold try_send_uncounted. destruct (send item (item_tx s)) eqn:Hs; intros; simplify_eq; simpl.
  apply send_some in Hs as (? & ? & ? & _). done.
Qed.

Lemma try_send_uncounted_result item s :
  (try_send_uncounted item s).1 =
    if rx_alive (item_tx s) then Ok tt else Err mk_disconnected.
Proof.
  unfold try_send_uncounted. destruct (rx_alive (item_tx s)) eqn:Ha.
  - by destruct (send_alive T item _ Ha) as (c & -> & _).
  - by rewrite (send_dead T item _ Ha).
Qed.

Lemma try_send_uncounted_err item s s' e :
  try_send_uncounted item s = (Err e, s') → s' = s.
Proof. unfold try_send_uncounted. case_match; intros; by simplify_eq. Qed.

Lemma try_send_forced_spec item s :
  quota_wf (quota s) → quota_wf (count_one (quota s)) →
  if rx_alive (item_tx s) then
    ∃ s', try_send_forced item s = (Ok tt, s') ∧
      queue (item_tx s') = queue (item_tx s) ++ [item] ∧ rx_alive (item_tx s') = true ∧
      quota s' = count_one (quota s)
  else try_send_forced item s = (Err mk_disconnected, s).
Proof.
  intros Hwf Hwf1. unfold try_send_forced. rewrite (reserve_forced_spec _ Hwf1).
  destruct (rx_alive (item_tx s)) eqn:Ha.
  - destruct (send_alive T item _ Ha) as (c & -> & ? & ? & _). by eexists.
  - rewrite (send_dead T item _ Ha). unfold drop_reservation. simpl.
    rewrite unreserve_count_one by done. by destruct s.
Qed.
End Sequential.
