(* ===== verification/QuotaSteps.v ===== *)
(** The quota under concurrency: any number of senders and the one receiver interleave the atomic
    steps of [tellus/src/quota.rs] (and of [Mailbox::recv] in [tellus/src/mailbox.rs]) on the shared
    channel and counter. Every step is one of the operations of [Quota]. *)
From S2P Require Import Prelude Flume Quota.

Section QuotaSteps.
Context {F : Flume} {FL : FlumeLaws F}.
Context {T : Type} (is_counted : T → bool).

(** Where a sending thread is inside [try_send_counted] or [try_send_forced]. *)
Inductive SenderPc :=
  | Reserved (r : Reservation) (item : T)      (* reserved, about to send *)
  | SendFailed (r : Reservation)               (* the send failed, about to drop the reservation *)
  | Refused (item : T).                        (* no capacity, about to check for the disconnect *)

(** Where the receiver is: between receives, holding a received item, drained, gone. *)
Inductive ReceiverPc :=
  | Idle
  | Taken (item : T)
  | Drained
  | Gone.

Record Sys := mk_sys {
  shared : CountedSender T;
  senders : gmap N SenderPc;
  receiver : ReceiverPc;
  discarded : list T;       (* what the termination drained without releasing it *)
}.

Inductive Label :=
  | LReserve (i : N) (item : T)         (* [try_send_counted]: [self.quota.reserve()] *)
  | LReserveForced (i : N) (item : T)   (* [try_send_forced]: [self.quota.reserve_forced()] *)
  | LSend (i : N)                       (* [self.item_tx.send(item)] and [commit] *)
  | LRelease (i : N)                    (* the reservation's [drop] *)
  | LCheck (i : N)                      (* [self.item_tx.is_disconnected()] *)
  | LUncounted (item : T)               (* [try_send_uncounted] *)
  | LRecv                               (* [recv_async] *)
  | LUnreserve                          (* [self.quota.unreserve()] after a counted item *)
  | LDrain                              (* [incoming_rx.drain()] at termination *)
  | LDropRx.                            (* the receiver is dropped *)

Definition set_shared (w : Sys) (s : CountedSender T) : Sys :=
  mk_sys s (senders w) (receiver w) (discarded w).

(** One atomic step. *)
Definition step (l : Label) (w : Sys) : option Sys :=
  let s := shared w in
  match l with
  | LReserve i item =>
      if decide (senders w !! i = None ∧ is_counted item = true) then
        match reserve (quota s) with
        | (Ok r, q) =>
            Some (mk_sys (mk_counted_sender (item_tx s) q) (<[i := Reserved r item]> (senders w))
                    (receiver w) (discarded w))
        | (Err _, q) =>
            Some (mk_sys (mk_counted_sender (item_tx s) q) (<[i := Refused item]> (senders w))
                    (receiver w) (discarded w))
        end
      else None
  | LReserveForced i item =>
      if decide (senders w !! i = None ∧ is_counted item = true) then
        let '(r, q) := reserve_forced (quota s) in
        Some (mk_sys (mk_counted_sender (item_tx s) q) (<[i := Reserved r item]> (senders w))
                (receiver w) (discarded w))
      else None
  | LSend i =>
      match senders w !! i with
      | Some (Reserved r item) =>
          match send item (item_tx s) with
          | Some tx =>
              Some (mk_sys (mk_counted_sender tx (drop_reservation (commit r) (quota s)))
                      (delete i (senders w)) (receiver w) (discarded w))
          | None =>
              Some (mk_sys s (<[i := SendFailed r]> (senders w)) (receiver w) (discarded w))
          end
      | _ => None
      end
  | LRelease i =>
      match senders w !! i with
      | Some (SendFailed r) =>
          Some (mk_sys (mk_counted_sender (item_tx s) (drop_reservation r (quota s)))
                  (delete i (senders w)) (receiver w) (discarded w))
      | _ => None
      end
  | LCheck i =>
      match senders w !! i with
      | Some (Refused _) => Some (mk_sys s (delete i (senders w)) (receiver w) (discarded w))
      | _ => None
      end
  | LUncounted item =>
      if decide (is_counted item = false) then Some (set_shared w (try_send_uncounted item s).2)
      else None
  | LRecv =>
      match receiver w, poll_recv (item_tx s) with
      | Idle, Ready (Some (item, rx)) =>
          Some (mk_sys (mk_counted_sender rx (quota s)) (senders w)
                  (if is_counted item then Taken item else Idle) (discarded w))
      | _, _ => None
      end
  | LUnreserve =>
      match receiver w with
      | Taken _ =>
          Some (mk_sys (mk_counted_sender (item_tx s) (unreserve (quota s))) (senders w) Idle
                  (discarded w))
      | _ => None
      end
  | LDrain =>
      match receiver w with
      | Idle =>
          let '(items, rx) := drain (item_tx s) in
          Some (mk_sys (mk_counted_sender rx (quota s)) (senders w) Drained (discarded w ++ items))
      | _ => None
      end
  | LDropRx =>
      match receiver w with
      | Idle | Drained =>
          Some (mk_sys (mk_counted_sender (drop_rx (item_tx s)) (quota s)) (senders w) Gone
                  (discarded w))
      | _ => None
      end
  end.

Definition init_sys (capacity : positive) : Sys :=
  mk_sys (counted_sender_new (unbounded T) (bounded_quota capacity)) ∅ Idle [].

(** *** What the counter stands for *)

Definition ncounted (l : list T) : nat := length (List.filter is_counted l).

Definition holds (pc : SenderPc) : nat :=
  match pc with
  | Reserved r _ | SendFailed r => if armed r then 1%nat else 0%nat
  | Refused _ => 0%nat
  end.

Definition taken (pc : ReceiverPc) : nat :=
  match pc with Taken _ => 1%nat | _ => 0%nat end.

(** Items queued, reserved for, received but not released, or discarded at termination. *)
Definition in_use (w : Sys) : nat :=
  (ncounted (queue (item_tx (shared w))) + mcount holds (senders w) + taken (receiver w) +
   ncounted (discarded w))%nat.

Definition is_forced (l : Label) : bool :=
  match l with LReserveForced _ _ => true | _ => false end.
Definition nforced (ls : list Label) : nat := length (List.filter is_forced ls).

(** Every sending thread that holds a reservation holds a live one for a counted item. *)
Definition pcs_wf (w : Sys) : Prop :=
  map_Forall (λ _ pc, match pc with
    | Reserved r item => armed r = true ∧ is_counted item = true
    | SendFailed r => armed r = true
    | Refused item => is_counted item = true
    end) (senders w) ∧
  match receiver w with Taken item => is_counted item = true | _ => True end.

(** The debug assertion at every place which is about to release. *)
Definition releases_safely (w : Sys) : Prop :=
  ((∃ item, receiver w = Taken item) ∨ (∃ i r, senders w !! i = Some (SendFailed r))) →
  unreserve_asserts (quota (shared w)) = true.

Definition inv (capacity : positive) (forced : nat) (w : Sys) : Prop :=
  pcs_wf w ∧
  repr (quota (shared w)) = RBounded capacity (N.of_nat (in_use w)) ∧
  (N.of_nat (in_use w) ≤ Npos capacity + N.of_nat forced)%N.

Lemma ncounted_app l1 l2 : ncounted (l1 ++ l2) = (ncounted l1 + ncounted l2)%nat.
Proof. unfold ncounted. by rewrite List.filter_app, length_app. Qed.

Lemma ncounted_one x : ncounted [x] = if is_counted x then 1%nat else 0%nat.
Proof. unfold ncounted. simpl. by destruct (is_counted x). Qed.

Lemma ncounted_cons x l :
  ncounted (x :: l) = ((if is_counted x then 1 else 0) + ncounted l)%nat.
Proof. unfold ncounted. simpl. by destruct (is_counted x). Qed.

Lemma drop_armed r q : armed r = true → drop_reservation r q = unreserve q.
Proof. unfold drop_reservation. by intros ->. Qed.

(** Releasing one of the items in use. *)
Lemma unreserve_repr capacity n q :
  (N.of_nat (S n) ≤ USIZE_MAX)%N →
  repr q = RBounded capacity (N.of_nat (S n)) →
  repr (unreserve q) = RBounded capacity (N.of_nat n).
Proof.
  intros Hle Hr. unfold unreserve. rewrite Hr. simpl.
  rewrite usize_wrapping_sub_small by lia. f_equal. lia.
Qed.

Lemma mcount_holds_insert (m : gmap N SenderPc) i pc :
  m !! i = None → mcount holds (<[i := pc]> m) = (holds pc + mcount holds m)%nat.
Proof. apply mcount_fresh. Qed.

Lemma mcount_holds_delete (m : gmap N SenderPc) i pc :
  m !! i = Some pc → mcount holds m = (holds pc + mcount holds (delete i m))%nat.
Proof. intros Hi. by rewrite (mcount_delete holds m i), Hi. Qed.

(** *** Preservation *)

Lemma pcs_wf_insert w s pc i :
  pcs_wf w →
  match pc with
  | Reserved r item => armed r = true ∧ is_counted item = true
  | SendFailed r => armed r = true
  | Refused item => is_counted item = true
  end →
  pcs_wf (mk_sys s (<[i := pc]> (senders w)) (receiver w) (discarded w)).
Proof. intros [Hs Hr] Hpc. split; [|done]. by apply map_Forall_insert_2. Qed.

Lemma pcs_wf_delete w s i :
  pcs_wf w → pcs_wf (mk_sys s (delete i (senders w)) (receiver w) (discarded w)).
Proof. intros [Hs Hr]. split; [|done]. by apply map_Forall_delete. Qed.

Lemma inv_init capacity : inv capacity 0 (init_sys capacity).
Proof.
  assert (in_use (init_sys capacity) = 0%nat) as H0.
  { unfold in_use, init_sys. simpl. by rewrite queue_unbounded, mcount_empty. }
  split; [split; [apply map_Forall_empty|done]|]. rewrite H0. split; [done|lia].
Qed.

Lemma step_reserve capacity forced i item w w' :
  (Npos capacity + N.of_nat forced ≤ USIZE_MAX)%N →
  inv capacity forced w → step (LReserve i item) w = Some w' → inv capacity forced w'.
Proof.
  intros Hcap (Hwf & Hrep & Hle) Hs. simpl in Hs. case_decide as Hd; [|done].
  destruct Hd as [Hi Hc].
  destruct (reserve (quota (shared w))) as [r q] eqn:Hres. rewrite reserve_spec in Hres.
  destruct (has_capacity (quota (shared w))) eqn:Hhas; simplify_eq.
  - unfold has_capacity in Hhas. rewrite Hrep in Hhas. apply bool_decide_eq_true in Hhas.
    split; [by apply pcs_wf_insert|]. unfold in_use in *. simpl.
    rewrite mcount_holds_insert by done. simpl. unfold count_one. rewrite Hrep. simpl.
    split; [f_equal; lia|lia].
  - split; [by apply pcs_wf_insert|]. unfold in_use in *. simpl.
    rewrite mcount_holds_insert by done. simpl. by split.
Qed.

Lemma step_reserve_forced capacity forced i item w w' :
  (Npos capacity + N.of_nat (S forced) ≤ USIZE_MAX)%N →
  inv capacity forced w → step (LReserveForced i item) w = Some w' →
  inv capacity (S forced) w'.
Proof.
  intros Hcap (Hwf & Hrep & Hle) Hs. simpl in Hs. case_decide as Hd; [|done].
  destruct Hd as [Hi Hc]. rewrite reserve_forced_spec in Hs; simplify_eq.
  - split; [by apply pcs_wf_insert|]. unfold in_use in *. simpl.
    rewrite mcount_holds_insert by done. simpl. unfold count_one. rewrite Hrep. simpl.
    split; [f_equal; lia|lia].
  - unfold quota_wf, count_one. rewrite Hrep. simpl. lia.
Qed.

Lemma step_send capacity forced i w w' :
  inv capacity forced w → step (LSend i) w = Some w' → inv capacity forced w'.
Proof.
  intros (Hwf & Hrep & Hle) Hs. simpl in Hs.
  destruct (senders w !! i) as [[r item| |]|] eqn:Hi; simplify_eq.
  pose proof (proj1 Hwf i _ Hi) as [Har Hc].
  destruct (send item _) as [tx|] eqn:Hsend; simplify_eq.
  - apply send_some in Hsend as (_ & Hq & _).
    split; [by apply pcs_wf_delete|]. unfold in_use in *. simpl.
    rewrite (mcount_holds_delete _ _ _ Hi) in Hrep, Hle. simpl in Hrep, Hle. rewrite Har in Hrep, Hle.
    rewrite Hq, ncounted_app, ncounted_one, Hc.
    change (drop_reservation (commit r) ?q) with q.
    split; [rewrite Hrep; f_equal; lia|lia].
  - split; [by apply pcs_wf_insert|]. unfold in_use in *. simpl.
    rewrite <-(insert_delete_eq (senders w)), mcount_holds_insert by apply lookup_delete_eq.
    rewrite (mcount_holds_delete _ _ _ Hi) in Hrep, Hle. done.
Qed.

Lemma step_release capacity forced i w w' :
  (Npos capacity + N.of_nat forced ≤ USIZE_MAX)%N →
  inv capacity forced w → step (LRelease i) w = Some w' → inv capacity forced w'.
Proof.
  intros Hcap (Hwf & Hrep & Hle) Hs. simpl in Hs.
  destruct (senders w !! i) as [[|r|]|] eqn:Hi; simplify_eq.
  pose proof (proj1 Hwf i _ Hi) as Har. simpl in Har.
  split; [by apply pcs_wf_delete|]. unfold in_use in *. simpl.
  rewrite (mcount_holds_delete _ _ _ Hi) in Hrep, Hle. simpl in Hrep, Hle. rewrite Har in Hrep, Hle.
  rewrite (drop_armed _ _ Har). split; [|lia].
  apply unreserve_repr; [lia|]. rewrite Hrep. f_equal. lia.
Qed.

Lemma step_recv capacity forced w w' :
  inv capacity forced w → step LRecv w = Some w' → inv capacity forced w'.
Proof.
  intros (Hwf & Hrep & Hle) Hs. simpl in Hs.
  destruct (receiver w) eqn:Hr; try done.
  destruct (poll_recv _) as [|[[item rx]|]] eqn:Hp; simplify_eq.
  apply poll_recv_some in Hp as (Hq & _).
  split; [split; simpl; [apply Hwf|by destruct (is_counted item) eqn:?]|].
  unfold in_use in *. simpl. rewrite Hq, ncounted_cons in Hrep, Hle.
  rewrite Hr in Hrep, Hle. simpl in Hrep, Hle.
  assert (taken (if is_counted item then Taken item else Idle) =
          if is_counted item then 1%nat else 0%nat) as -> by (by destruct (is_counted item)).
  split; [rewrite Hrep; f_equal; lia|lia].
Qed.

Lemma step_unreserve capacity forced w w' :
  (Npos capacity + N.of_nat forced ≤ USIZE_MAX)%N →
  inv capacity forced w → step LUnreserve w = Some w' → inv capacity forced w'.
Proof.
  intros Hcap (Hwf & Hrep & Hle) Hs. simpl in Hs.
  destruct (receiver w) eqn:Hr; simplify_eq.
  split; [split; [apply Hwf|done]|].
  unfold in_use in *. simpl. rewrite Hr in Hrep, Hle. simpl in Hrep, Hle. split; [|lia].
  apply unreserve_repr; [lia|]. rewrite Hrep. f_equal. lia.
Qed.

Lemma step_drain capacity forced w w' :
  inv capacity forced w → step LDrain w = Some w' → inv capacity forced w'.
Proof.
  intros (Hwf & Hrep & Hle) Hs. simpl in Hs.
  destruct (receiver w) eqn:Hr; try done.
  destruct (drain _) as [items rx] eqn:Hd. simplify_eq.
  destruct (drain_spec T (item_tx (shared w))) as (Hi & Hq & _). rewrite Hd in Hi, Hq. simpl in Hi, Hq.
  split; [split; [apply Hwf|done]|].
  unfold in_use in *. simpl. rewrite Hq, Hi, ncounted_app. rewrite Hr in Hrep, Hle.
  change (ncounted []) with 0%nat. simpl in *. split; [rewrite Hrep; f_equal; lia|lia].
Qed.

Lemma step_others capacity forced l w w' :
  match l with LCheck _ | LUncounted _ | LDropRx => True | _ => False end →
  inv capacity forced w → step l w = Some w' → inv capacity forced w'.
Proof.
  intros Hl (Hwf & Hrep & Hle) Hs. destruct l as [| | | |i|item| | | |]; try done; simpl in Hs.
  - destruct (senders w !! i) as [[| |]|] eqn:Hi; simplify_eq.
    split; [by apply pcs_wf_delete|]. unfold in_use in *. simpl.
    rewrite (mcount_holds_delete _ _ _ Hi) in Hrep, Hle. done.
  - case_decide as Hc; simplify_eq. unfold set_shared.
    destruct (try_send_uncounted item (shared w)) as [[[]|e] s] eqn:Hsend; simpl.
    + apply try_send_uncounted_ok in Hsend as (_ & Hq & _ & Hquota).
      split; [split; apply Hwf|]. unfold in_use in *. simpl.
      rewrite Hquota, Hq, ncounted_app, ncounted_one, Hc. by rewrite Nat.add_0_r.
    + apply try_send_uncounted_err in Hsend. subst. by destruct w.
  - destruct (drop_rx_spec T (item_tx (shared w))) as (Hq & _).
    destruct (receiver w) eqn:Hr; simplify_eq.
    all: split; [split; [apply Hwf|done]|]; unfold in_use in *; simpl; rewrite Hq;
      rewrite Hr in Hrep, Hle; done.
Qed.

Lemma step_inv capacity forced l w w' :
  (Npos capacity + N.of_nat (forced + if is_forced l then 1 else 0) ≤ USIZE_MAX)%N →
  inv capacity forced w → step l w = Some w' →
  inv capacity (forced + if is_forced l then 1 else 0) w'.
Proof.
  intros Hcap Hinv Hs. destruct (is_forced l) eqn:Hf.
  - destruct l; try done. rewrite Nat.add_1_r in *. eauto using step_reserve_forced.
  - rewrite Nat.add_0_r in *.
    destruct l; try done;
      first [by eapply step_reserve | by eapply step_send | by eapply step_release
            | by eapply step_recv | by eapply step_unreserve | by eapply step_drain
            | by eapply step_others; [| |eassumption]].
Qed.

Lemma nforced_snoc ls l :
  nforced (ls ++ [l]) = (nforced ls + if is_forced l then 1 else 0)%nat.
Proof.
  unfold nforced. rewrite List.filter_app, length_app. simpl. by destruct (is_forced l).
Qed.

Lemma run_inv capacity ls w :
  (Npos capacity + N.of_nat (nforced ls) ≤ USIZE_MAX)%N →
  run step ls (init_sys capacity) = Some w → inv capacity (nforced ls) w.
Proof.
  revert w. induction ls as [|l ls IH] using rev_ind; intros w Hcap Hrun.
  - simpl in Hrun. simplify_eq. apply inv_init.
  - apply run_snoc in Hrun as (w0 & Hrun & Hs). rewrite nforced_snoc in *.
    eapply step_inv; eauto. apply IH; [|done]. lia.
Qed.

Lemma inv_releases_safely capacity forced w :
  inv capacity forced w → releases_safely w.
Proof.
  intros (Hwf & Hrep & Hle) Hrel. unfold unreserve_asserts. rewrite Hrep.
  apply bool_decide_eq_true. destruct Hrel as [[item Hr]|(i & r & Hi)]; unfold in_use.
  - rewrite Hr. simpl. lia.
  - rewrite (mcount_holds_delete _ _ _ Hi). simpl. rewrite (proj1 Hwf i _ Hi). lia.
Qed.

(** C33. However the atomic steps of any number of concurrent senders and of the receiver interleave,
    and whether the receiver terminates or not, the counter of a bounded quota is exactly the
    number of items queued, reserved for, received but not yet released, or discarded at the
    termination; the counter never underflows (the debug assertion holds wherever a release is
    about to happen); and without forced sends no more than the capacity is ever queued. Forced
    sends exceed the capacity by at most their own number. *)
Theorem quota_counts_exactly (capacity : positive) (ls : list Label) (w : Sys) :
  (Npos capacity + N.of_nat (nforced ls) ≤ USIZE_MAX)%N →
  run step ls (init_sys capacity) = Some w →
  repr (quota (shared w)) = RBounded capacity (N.of_nat (in_use w)) ∧
  releases_safely w ∧
  (N.of_nat (ncounted (queue (item_tx (shared w)))) ≤ Npos capacity + N.of_nat (nforced ls))%N.
Proof.
  intros Hcap Hrun. pose proof (run_inv _ _ _ Hcap Hrun) as Hinv.
  split; [apply Hinv|]. split; [by eapply inv_releases_safely|].
  destruct Hinv as (_ & _ & Hle). unfold in_use in Hle. lia.
Qed.

(** An ordinary reservation is refused only while the capacity is used up, and admitted
    otherwise: with nothing in flight, a bounded mailbox takes a message exactly as long as fewer
    than [capacity] counted items are queued. *)
Theorem quota_admits_exactly_capacity (capacity : positive) (ls : list Label) (w : Sys) (item : T) :
  (Npos capacity + N.of_nat (nforced ls) ≤ USIZE_MAX)%N →
  run step ls (init_sys capacity) = Some w →
  senders w = ∅ → receiver w = Idle → discarded w = [] →
  rx_alive (item_tx (shared w)) = true →
  ((try_send_counted item (shared w)).1 = Ok tt ↔
   (N.of_nat (ncounted (queue (item_tx (shared w)))) < Npos capacity)%N) ∧
  ((try_send_counted item (shared w)).1 = Err (CFull mk_full) ↔
   (Npos capacity ≤ N.of_nat (ncounted (queue (item_tx (shared w)))))%N).
Proof.
  intros Hcap Hrun Hs Hr Hd Ha. destruct (run_inv _ _ _ Hcap Hrun) as (_ & Hrep & _).
  unfold in_use in Hrep. rewrite Hs, Hr, Hd, mcount_empty in Hrep. simpl in Hrep.
  rewrite !Nat.add_0_r in Hrep.
  rewrite try_send_counted_result. unfold counted_send_result, has_capacity. rewrite Ha, Hrep.
  simpl. case_bool_decide; split; split; intros; simplify_eq; try done; lia.
Qed.
End QuotaSteps.

(** *** Witnesses: a mailbox of capacity one, a racing pair of senders and a forced send. *)

Import Reference.

Definition race : list (Label (T := N)) :=
  [LReserve 1 7%N; LReserve 2 8%N; LSend 1; LCheck 2; LReserveForced 3 9%N; LSend 3; LRecv].

Lemma quota_counts_exactly_witness :
  ∃ w, run (step (λ _ : N, true)) race (init_sys 1) = Some w ∧
    repr (quota (shared w)) = RBounded 1 (N.of_nat (in_use (λ _ : N, true) w)) ∧
    releases_safely w ∧
    (N.of_nat (ncounted (λ _ : N, true) (queue (item_tx (shared w)))) ≤
     1 + N.of_nat (nforced race))%N.
Proof.
  eexists. split; [reflexivity|].
  apply (quota_counts_exactly (λ _ : N, true) 1 race); [vm_compute; discriminate|reflexivity].
Defined.

Lemma quota_admits_exactly_capacity_witness :
  let w := init_sys (T := N) 1 in
  ((try_send_counted 5%N (shared w)).1 = Ok tt ↔
   (N.of_nat (ncounted (λ _ : N, true) (queue (item_tx (shared w)))) < 1)%N) ∧
  ((try_send_counted 5%N (shared w)).1 = Err (CFull mk_full) ↔
   (1 ≤ N.of_nat (ncounted (λ _ : N, true) (queue (item_tx (shared w)))))%N).
Proof.
  intros w. apply (quota_admits_exactly_capacity (λ _ : N, true) 1 []); try reflexivity.
  vm_compute. discriminate.
Defined.
