(* ===== verification/Actor.v ===== *)
(** What an actor receives and what it decides: [tellus/src/actor.rs]. The [Actor] trait itself is
    the class [Runtime.Actor], next to the context its methods act through. *)
From S2P Require Import Prelude.

(** A message or signal received by an actor. *)
Inductive Incoming (M : Type) : Type :=
  | Message (m : M)
  | Terminated (actor_id : ActorId).
Arguments Message {M} m.
Arguments Terminated {M} actor_id.

(** The decision of an actor after handling a message. *)
Inductive Control (S : Type) : Type :=
  | Continue (state : S)
  | Stop.
Arguments Continue {S} state.
Arguments Stop {S}.

(** The uninhabited message, event or snapshot type. *)
Inductive Nothing : Set := .

#[export] Instance Incoming_eq_dec {M} `{EqDecision M} : EqDecision (Incoming M).
Proof. solve_decision. Defined.
#[export] Instance Control_eq_dec {S} `{EqDecision S} : EqDecision (Control S).
Proof. solve_decision. Defined.
#[export] Instance Nothing_eq_dec : EqDecision Nothing.
Proof. intros []. Defined.

(** [matches!(incoming, Incoming::Message(_))] *)
Definition is_message {M} (i : Incoming M) : bool :=
  match i with
  | Message _ => true
  | Terminated _ => false
  end.

(** The messages among what was received, in order. *)
Definition messages {M} (l : list (Incoming M)) : list M :=
  omap (λ i, match i with Message m => Some m | Terminated _ => None end) l.

Lemma messages_app {M} (l1 l2 : list (Incoming M)) : messages (l1 ++ l2) = messages l1 ++ messages l2.
Proof. unfold messages. apply omap_app. Qed.
