(* ===== verification/Mailbox.v ===== *)
(** The mailbox: [tellus/src/mailbox.rs]. A mailbox is a FIFO channel of [Incoming] behind a quota,
    together with the registry of the actor's watchers. The two halves, [MailboxHandle] and
    [Mailbox], share one state [MailboxState]; each operation takes and returns it.

    A watcher's sink is an [Arc<dyn TerminatedSink>], a reference to someone else's state, so the
    type of sinks is a parameter here and is instantiated where the states live ([Runtime]). *)
From S2P Require Import Prelude Config Flume Quota Actor.

(** ** Errors *)

Record ActorTerminated := mk_actor_terminated {}.

Inductive SendError :=
  | MailboxFull (full : Full)
  | SendActorTerminated (e : ActorTerminated).

(** [From<CountedSendError> for SendError] *)
Definition send_error_from (e : CountedSendError) : SendError :=
  match e with
  | CFull full => MailboxFull full
  | CDisconnected _ => SendActorTerminated mk_actor_terminated
  end.

#[export] Instance ActorTerminated_eq_dec : EqDecision ActorTerminated.
Proof. solve_decision. Defined.
#[export] Instance SendError_eq_dec : EqDecision SendError.
Proof. solve_decision. Defined.

(** ** The watcher registry *)

Section Registry.
Context {Sink : Type}.

Record Watcher := mk_watcher {
  watcher_id : ActorId;
  terminated_sink : Sink;
}.

Definition watcher_new (watcher_id : ActorId) (sink : Sink) : Watcher :=
  mk_watcher watcher_id sink.

(** What the [Arc<Mutex<..>>] guards: [None] once registration is closed. *)
Definition WatcherRegistry := option (gmap ActorId Watcher).

Definition registry_default : WatcherRegistry := Some ∅.

(** [add]: [entry(..).or_insert(..)], so the first registration is kept. *)
Definition registry_add (w : Watcher) (r : WatcherRegistry)
    : result unit ActorTerminated * WatcherRegistry :=
  match r with
  | None => (Err mk_actor_terminated, r)
  | Some watchers =>
      match watchers !! watcher_id w with
      | Some _ => (Ok tt, Some watchers)
      | None => (Ok tt, Some (<[watcher_id w := w]> watchers))
      end
  end.

Definition registry_remove (id : ActorId) (r : WatcherRegistry) : WatcherRegistry :=
  match r with
  | Some watchers => Some (delete id watchers)
  | None => r
  end.

(** [take]: closes registration; the order of a hash map's values is unspecified. *)
Definition registry_take (r : WatcherRegistry) : list Watcher * WatcherRegistry :=
  (match r with
   | Some watchers => (map_to_list watchers).*2
   | None => []
   end, None).

(** The watchers a registry holds. *)
Definition registered (r : WatcherRegistry) : gmap ActorId Watcher := default ∅ r.

(** Every watcher is stored under its own id. *)
Definition registry_wf (r : WatcherRegistry) : Prop :=
  map_Forall (λ id w, watcher_id w = id) (registered r).
End Registry.
Arguments Watcher : clear implicits.
Arguments WatcherRegistry : clear implicits.

(** ** The mailbox and its handle *)

Section Mailbox.
Context {F : Flume} {Sink : Type}.

(** What the two halves and all their clones share. *)
Record MailboxState (M : Type) := mk_mailbox {
  incoming_tx : CountedSender (Incoming M);
  watcher_registry : WatcherRegistry Sink;
}.
#[global] Arguments mk_mailbox {M}.
#[global] Arguments incoming_tx {M}.
#[global] Arguments watcher_registry {M}.

Context {M : Type}.
Implicit Types b : MailboxState M.

Definition set_tx b (tx : CountedSender (Incoming M)) : MailboxState M :=
  mk_mailbox tx (watcher_registry b).
Definition set_registry b (r : WatcherRegistry Sink) : MailboxState M :=
  mk_mailbox (incoming_tx b) r.

Definition make_mailbox (mailbox_capacity : MailboxCapacity) : MailboxState M :=
  let quota :=
    match mailbox_capacity with
    | Unbounded => unbounded_quota
    | Bounded capacity => bounded_quota capacity
    end in
  mk_mailbox (counted_sender_new (unbounded (Incoming M)) quota) registry_default.

(** *** [MailboxHandle] *)

Definition try_send_message (m : M) b : result unit SendError * MailboxState M :=
  let '(r, tx) := try_send_counted (Message m) (incoming_tx b) in
  (map_err send_error_from r, set_tx b tx).

Definition try_send_forced_message (m : M) b : result unit SendError * MailboxState M :=
  let '(r, tx) := try_send_forced (Message m) (incoming_tx b) in
  (map_err (λ _, SendActorTerminated mk_actor_terminated) r, set_tx b tx).

(** [TerminatedSink for CountedSender<Incoming<M>>] *)
Definition send_terminated (actor_id : ActorId) b : result unit ActorTerminated * MailboxState M :=
  let '(r, tx) := try_send_uncounted (Terminated actor_id) (incoming_tx b) in
  (map_err (λ _, mk_actor_terminated) r, set_tx b tx).

(** [Clone for MailboxHandle] and [terminated_sink]: one more sender on the same channel. *)
Definition handle_clone b : MailboxState M := set_tx b (counted_sender_clone (incoming_tx b)).

(** *** [Mailbox] *)

Definition release_if_message (i : Incoming M) (q : Quota) : Quota :=
  if is_message i then unreserve q else q.

(** [recv], polled: [Ready None] once every sender is gone. *)
Definition recv b : Poll (option (Incoming M)) * MailboxState M :=
  match poll_recv (item_tx (incoming_tx b)) with
  | Pending => (Pending, b)
  | Ready None => (Ready None, b)
  | Ready (Some (i, rx)) =>
      (Ready (Some i),
       set_tx b (mk_counted_sender rx (release_if_message i (quota (incoming_tx b)))))
  end.

(** [try_recv] (feature [test-util]) *)
Definition mailbox_try_recv b : option (Incoming M) * MailboxState M :=
  match try_recv (item_tx (incoming_tx b)) with
  | Ok (i, rx) =>
      (Some i,
       set_tx b (mk_counted_sender rx (release_if_message i (quota (incoming_tx b)))))
  | Err _ => (None, b)
  end.

(** The two halves of [split], as what its owner does with them: drain the receiver, drop it, take
    the watchers of the [ClosedMailbox]. *)
Definition split_drain b : list (Incoming M) * MailboxState M :=
  let '(items, rx) := drain (item_tx (incoming_tx b)) in
  (items, set_tx b (mk_counted_sender rx (quota (incoming_tx b)))).

Definition split_drop_rx b : MailboxState M :=
  set_tx b (mk_counted_sender (drop_rx (item_tx (incoming_tx b))) (quota (incoming_tx b))).

Definition take_watchers b : list (Watcher Sink) * MailboxState M :=
  let '(ws, r) := registry_take (watcher_registry b) in (ws, set_registry b r).
End Mailbox.
Arguments MailboxState {F} Sink M.

(** ** The registry: no watcher is lost *)

Section RegistryFacts.
Context {Sink : Type}.
Implicit Types r : WatcherRegistry Sink.

Lemma registry_wf_default : registry_wf (Sink := Sink) registry_default.
Proof. unfold registry_wf, registered. simpl. by apply map_Forall_empty. Qed.

Lemma registry_add_wf w r : registry_wf r → registry_wf (registry_add w r).2.
Proof.
  intros Hwf. destruct r as [ws|]; simpl; [|done].
  case_match; simpl; [done|]. by apply map_Forall_insert_2.
Qed.

Lemma registry_remove_wf id r : registry_wf r → registry_wf (registry_remove id r).
Proof. intros Hwf. destruct r as [ws|]; simpl; [|done]. by apply map_Forall_delete. Qed.

Lemma registry_add_registered w r :
  r ≠ None →
  registered (registry_add w r).2 !! watcher_id w =
    Some (default w (registered r !! watcher_id w)).
Proof.
  destruct r as [ws|]; [|done]. intros _. simpl. unfold registered; simpl.
  destruct (ws !! watcher_id w) eqn:Hw; simpl; [done|]. apply lookup_insert_eq.
Qed.

Lemma registry_add_ok w r : is_ok (registry_add w r).1 = bool_decide (is_Some r).
Proof. destruct r as [ws|]; simpl; [|done]. by destruct (ws !! watcher_id w). Qed.

Lemma registry_add_other w r id :
  id ≠ watcher_id w → registered (registry_add w r).2 !! id = registered r !! id.
Proof.
  intros Hne. destruct r as [ws|]; simpl; [|done].
  unfold registered; case_match; simpl; [done|]. by rewrite lookup_insert_ne.
Qed.

Lemma registry_add_none w r : r = None ↔ (registry_add w r).2 = None.
Proof. destruct r as [ws|]; simpl; [|done]. by destruct (ws !! watcher_id w). Qed.

Lemma registry_add_lookup w r id w' :
  registered (registry_add w r).2 !! id = Some w' →
  registered r !! id = Some w' ∨ (id = watcher_id w ∧ w' = w).
Proof.
  destruct r as [ws|]; simpl; [|by left]. unfold registered.
  destruct (ws !! watcher_id w); simpl; [by left|].
  intros [[<- <-]|[_ ?]]%lookup_insert_Some; [by right|by left].
Qed.

Lemma registry_remove_none id r : r = None ↔ registry_remove id r = None.
Proof. by destruct r. Qed.

Lemma registry_remove_registered id r id' :
  registered (registry_remove id r) !! id' =
    if decide (id' = id) then None else registered r !! id'.
Proof.
  destruct r as [ws|]; unfold registered; simpl; case_decide; subst.
  - apply lookup_delete_eq.
  - by rewrite lookup_delete_ne.
  - by rewrite lookup_empty.
  - done.
Qed.

Lemma registry_take_ids r : registry_wf r → watcher_id <$> (registry_take r).1 = (map_to_list (registered r)).*1.
Proof.
  intros Hwf. destruct r as [ws|]; simpl; [|done]. unfold registered in *; simpl in *.
  rewrite <-list_fmap_compose. apply list_fmap_ext. intros i [id w] Hl. simpl.
  apply Hwf. apply elem_of_map_to_list, list_elem_of_lookup. eauto.
Qed.

(** What happens on a registry: calls from any number of threads, serialized by its mutex. *)
Inductive RegistryCall :=
  | Add (w : Watcher Sink)
  | Remove (id : ActorId).

Definition registry_call (c : RegistryCall) r : WatcherRegistry Sink :=
  match c with
  | Add w => (registry_add w r).2
  | Remove id => registry_remove id r
  end.

Definition call_id (c : RegistryCall) : ActorId :=
  match c with Add w => watcher_id w | Remove id => id end.

(** The watcher registered by the last call for [id], if that call was not a removal. *)
Fixpoint last_registered (id : ActorId) (cs : list RegistryCall) (acc : bool) : bool :=
  match cs with
  | [] => acc
  | c :: cs =>
      last_registered id cs
        (if decide (call_id c = id) then match c with Add _ => true | Remove _ => false end
         else acc)
  end.

Lemma registry_call_some c r : r ≠ None → registry_call c r ≠ None.
Proof. destruct r as [ws|]; [|done]. destruct c; simpl; [by case_match|done]. Qed.

Lemma registry_calls_spec cs r :
  r ≠ None → registry_wf r →
  let r' := foldl (λ r c, registry_call c r) r cs in
  r' ≠ None ∧ registry_wf r' ∧
  ∀ id, is_Some (registered r' !! id) ↔
        last_registered id cs (bool_decide (is_Some (registered r !! id))) = true.
Proof.
  revert r. induction cs as [|c cs IH]; simpl; intros r Hr Hwf.
  - split; [done|]. split; [done|]. intros id. by rewrite bool_decide_eq_true.
  - assert (registry_wf (registry_call c r)) as Hwf'.
    { destruct c; simpl; [by apply registry_add_wf|by apply registry_remove_wf]. }
    destruct (IH _ (registry_call_some c r Hr) Hwf') as (Hn & Hw & Hiff).
    split; [done|]. split; [done|]. intros id. rewrite Hiff.
    enough (bool_decide (is_Some (registered (registry_call c r) !! id)) =
            if decide (call_id c = id) then match c with Add _ => true | Remove _ => false end
            else bool_decide (is_Some (registered r !! id))) as ->; [done|].
    destruct c as [w|id']; simpl; case_decide as Hd; subst.
    + apply bool_decide_eq_true_2. rewrite registry_add_registered by done. eauto.
    + by rewrite registry_add_other.
    + apply bool_decide_eq_false_2. rewrite registry_remove_registered, decide_True by done.
      by intros [].
    + by rewrite registry_remove_registered, decide_False.
Qed.

(** C34. Whatever calls to [add] and [remove] race with the termination, the watchers [take] returns
    are exactly those whose last call before it was an [add], each once; from then on every [add]
    fails, every [remove] leaves registration closed, and a second take returns nothing. So a
    watcher racing with the termination is either returned or learns of the termination. *)
Theorem registry_loses_no_watcher (cs : list RegistryCall) (cs' : list RegistryCall)
    (id : ActorId) (w : Watcher Sink) :
  let r := foldl (λ r c, registry_call c r) registry_default cs in
  let '(ws, closed) := registry_take r in
  let after := foldl (λ r c, registry_call c r) closed cs' in
  (id ∈ watcher_id <$> ws ↔ last_registered id cs false = true) ∧
  NoDup (watcher_id <$> ws) ∧
  registry_add w after = (Err mk_actor_terminated, after) ∧
  registry_take after = ([], None).
Proof.
  intros r. subst r.
  destruct (registry_calls_spec cs registry_default ltac:(done) registry_wf_default)
    as (Hn & Hwf & Hiff).
  set (r := foldl _ registry_default cs) in *. simpl.
  pose proof (registry_take_ids r Hwf) as Hids. simpl in Hids. rewrite Hids.
  assert (∀ l, foldl (λ r c, registry_call c r) (None : WatcherRegistry Sink) l = None) as Hc.
  { intros l. induction l as [|c l IH]; [done|]. simpl. by destruct c. }
  rewrite Hc. split; [|split; [apply NoDup_fst_map_to_list|done]].
  specialize (Hiff id). unfold registered at 2 in Hiff. simpl in Hiff.
  rewrite lookup_empty in Hiff. rewrite bool_decide_eq_false_2 in Hiff by (by intros []).
  rewrite <-Hiff, list_elem_of_fmap. split.
  - intros ([id' w'] & -> & Hin%elem_of_map_to_list). eauto.
  - intros [w' Hw]. exists (id, w'). split; [done|]. by apply elem_of_map_to_list.
Qed.
End RegistryFacts.
