(* ===== verification/MailboxSpec.v ===== *)
(** The abstract mailbox and its refinement: a mailbox is a queue of messages and signals in which
    only messages count against the capacity. The theorem is that any sequence of the operations of
    [Mailbox], as one mailbox and all clones of its handle can perform them, is answered exactly as
    this queue answers it. *)
From S2P Require Import Prelude Config Flume Quota Actor Mailbox.

(** What can be asked of a mailbox, and what it answers. *)
Inductive Op (M : Type) :=
  | OSend (m : M)                (* [MailboxHandle::try_send_message] *)
  | OForce (m : M)               (* [MailboxHandle::try_send_forced_message] *)
  | OSignal (id : ActorId)       (* [TerminatedSink::send_terminated] *)
  | ORecv                        (* [Mailbox::recv], polled *)
  | OClose.                      (* [Mailbox::split], drained and dropped *)
Arguments OSend {M}. Arguments OForce {M}. Arguments OSignal {M}.
Arguments ORecv {M}. Arguments OClose {M}.

Inductive Answer (M : Type) :=
  | ASent (r : result unit SendError)
  | ASignaled (r : result unit ActorTerminated)
  | AReceived (r : Poll (option (Incoming M)))
  | AClosed (drained : list (Incoming M)).
Arguments ASent {M}. Arguments ASignaled {M}. Arguments AReceived {M}. Arguments AClosed {M}.

(** ** The specification *)

Record Spec (M : Type) := mk_spec {
  items : list (Incoming M);
  capacity : MailboxCapacity;
  is_open : bool;
}.
Arguments mk_spec {M}. Arguments items {M}. Arguments capacity {M}. Arguments is_open {M}.

Section Spec.
Context {M : Type}.

Definition spec_full (s : Spec M) : bool :=
  match capacity s with
  | Unbounded => false
  | Bounded n => bool_decide (Npos n ≤ N.of_nat (length (messages (items s))))%N
  end.

Definition spec_push (i : Incoming M) (s : Spec M) : Spec M :=
  mk_spec (items s ++ [i]) (capacity s) (is_open s).

Definition spec_op (o : Op M) (s : Spec M) : option (Answer M * Spec M) :=
  match o with
  | OSend m =>
      Some (if negb (is_open s) then (ASent (Err (SendActorTerminated mk_actor_terminated)), s)
            else if spec_full s then (ASent (Err (MailboxFull mk_full)), s)
            else (ASent (Ok tt), spec_push (Message m) s))
  | OForce m =>
      Some (if negb (is_open s) then (ASent (Err (SendActorTerminated mk_actor_terminated)), s)
            else (ASent (Ok tt), spec_push (Message m) s))
  | OSignal id =>
      Some (if negb (is_open s) then (ASignaled (Err mk_actor_terminated), s)
            else (ASignaled (Ok tt), spec_push (Terminated id) s))
  | ORecv =>
      if is_open s then
        Some (match items s with
              | [] => (AReceived Pending, s)
              | i :: q => (AReceived (Ready (Some i)), mk_spec q (capacity s) true)
              end)
      else None
  | OClose =>
      if is_open s then Some (AClosed (items s), mk_spec [] (capacity s) false) else None
  end.

Fixpoint answers {S : Type} (op : Op M → S → option (Answer M * S)) (os : list (Op M)) (s : S)
    : option (list (Answer M)) :=
  match os with
  | [] => Some []
  | o :: os =>
      match op o s with
      | Some (a, s) => (a ::.) <$> answers op os s
      | None => None
      end
  end.
End Spec.

(** ** The implementation, as its owner and its senders use it *)

Section Refinement.
Context {F : Flume} {FL : FlumeLaws F}.
Context {Sink M : Type}.

(** A mailbox and whether its owner still has the receiving half. *)
Definition Impl : Type := MailboxState Sink M * bool.

Definition impl_op (o : Op M) (s : Impl) : option (Answer M * Impl) :=
  let '(b, owned) := s in
  match o with
  | OSend m => let '(r, b) := try_send_message m b in Some (ASent r, (b, owned))
  | OForce m => let '(r, b) := try_send_forced_message m b in Some (ASent r, (b, owned))
  | OSignal id => let '(r, b) := send_terminated id b in Some (ASignaled r, (b, owned))
  | ORecv => if owned then let '(r, b) := recv b in Some (AReceived r, (b, true)) else None
  | OClose =>
      if owned then
        let '(l, b) := split_drain b in Some (AClosed l, (split_drop_rx b, false))
      else None
  end.

Definition chan (b : MailboxState Sink M) : Channel (Incoming M) := item_tx (incoming_tx b).

(** The counter is the number of queued messages. *)
Definition abs_repr (c : MailboxCapacity) (l : list (Incoming M)) : Repr :=
  match c with
  | Unbounded => RUnbounded
  | Bounded n => RBounded n (N.of_nat (length (messages l)))
  end.

Definition capacity_wf (c : MailboxCapacity) : Prop :=
  match c with Unbounded => True | Bounded n => (Npos n ≤ USIZE_MAX)%N end.

Definition simulates (s : Impl) (a : Spec M) : Prop :=
  s.2 = is_open a ∧ rx_alive (chan s.1) = is_open a ∧
  (is_open a = true →
    queue (chan s.1) = items a ∧ (0 < tx_count (chan s.1))%nat ∧
    repr (quota (incoming_tx s.1)) = abs_repr (capacity a) (items a)).

Lemma messages_snoc_message (l : list (Incoming M)) m :
  length (messages (l ++ [Message m])) = S (length (messages l)).
Proof. rewrite messages_app, length_app. simpl. lia. Qed.

Lemma messages_snoc_terminated (l : list (Incoming M)) id :
  length (messages (l ++ [Terminated id])) = length (messages l).
Proof. rewrite messages_app, length_app. simpl. lia. Qed.

Lemma messages_length_le (l : list (Incoming M)) : (length (messages l) ≤ length l)%nat.
Proof. induction l as [|[m|id] l IH]; simpl in *; lia. Qed.

Lemma abs_repr_count_one c l m q :
  repr q = abs_repr c l → repr (count_one q) = abs_repr c (l ++ [Message m]).
Proof.
  intros Hr. unfold count_one. rewrite Hr. destruct c; simpl; [by rewrite Hr|].
  rewrite messages_snoc_message. f_equal. lia.
Qed.

Lemma abs_repr_has_capacity (a : Spec M) q :
  repr q = abs_repr (capacity a) (items a) → has_capacity q = negb (spec_full a).
Proof.
  intros Hr. unfold has_capacity, spec_full. rewrite Hr. destruct (capacity a); simpl; [done|].
  repeat case_bool_decide; simpl; try done; lia.
Qed.

Lemma abs_repr_wf c l q :
  capacity_wf c → (N.of_nat (length l) ≤ USIZE_MAX)%N → repr q = abs_repr c l → quota_wf q.
Proof.
  intros Hc Hl Hr. unfold quota_wf. rewrite Hr. destruct c; simpl; [done|].
  pose proof (messages_length_le l). simpl in Hc. lia.
Qed.

Lemma map_err_ok {T E1 E2} (f : E1 → E2) (r : result T E1) t : map_err f r = Ok t ↔ r = Ok t.
Proof. destruct r; simpl; naive_solver. Qed.

Lemma closed_send_counted item (s : CountedSender (Incoming M)) :
  rx_alive (item_tx s) = false →
  (try_send_counted item s).1 = Err (CDisconnected mk_disconnected) ∧
  item_tx (try_send_counted item s).2 = item_tx s.
Proof.
  intros Ha. split.
  - rewrite try_send_counted_result. unfold counted_send_result. by rewrite Ha.
  - unfold try_send_counted. rewrite (send_dead _ _ _ Ha). by repeat case_match; simplify_eq.
Qed.

Lemma closed_send_forced item (s : CountedSender (Incoming M)) :
  rx_alive (item_tx s) = false →
  (try_send_forced item s).1 = Err mk_disconnected ∧
  item_tx (try_send_forced item s).2 = item_tx s.
Proof. intros Ha. unfold try_send_forced. by rewrite (send_dead _ _ _ Ha); case_match. Qed.

Definition agree (x : option (Answer M * Impl)) (y : option (Answer M * Spec M)) (a : Spec M) : Prop :=
  match x, y with
  | Some (r, s'), Some (r', a') =>
      r = r' ∧ simulates s' a' ∧ capacity a' = capacity a ∧
      (length (items a') ≤ S (length (items a)))%nat
  | None, None => True
  | _, _ => False
  end.

Lemma simulates_push b a i tx' :
  is_open a = true →
  queue (item_tx tx') = items a ++ [i] → rx_alive (item_tx tx') = true →
  (0 < tx_count (item_tx tx'))%nat →
  repr (quota tx') = abs_repr (capacity a) (items a ++ [i]) →
  simulates (set_tx b tx', true) (spec_push i a) ∧
  capacity (spec_push i a) = capacity a ∧
  (length (items (spec_push i a)) ≤ S (length (items a)))%nat.
Proof.
  intros Ho Hq Ha Ht Hr. split; [|split; [done|simpl; rewrite length_app; simpl; lia]].
  unfold simulates, chan, spec_push. simpl. rewrite Ho. done.
Qed.

Lemma send_agrees m s a :
  capacity_wf (capacity a) → (N.of_nat (length (items a)) < USIZE_MAX)%N →
  simulates s a → agree (impl_op (OSend m) s) (spec_op (OSend m) a) a.
Proof.
  intros Hcap Hlen (Ho & Ha & Hsim). destruct s as [b owned]. simpl in *. subst owned.
  unfold try_send_message. destruct (is_open a) eqn:Hopen; simpl.
  - destruct (Hsim eq_refl) as (Hq & Ht & Hr). unfold chan in *.
    destruct (try_send_counted (Message m) (incoming_tx b)) as [[[]|e] tx'] eqn:Hs.
    + pose proof (proj1 (try_send_tx_count (Message m) (incoming_tx b))) as Htx.
      rewrite Hs in Htx. simpl in Htx.
      apply try_send_counted_ok in Hs as (_ & Hc & Hq' & Ha' & Hquota).
      rewrite (abs_repr_has_capacity a _ Hr) in Hc. destruct (spec_full a); [done|].
      simpl. split; [done|]. apply simulates_push; try done; try congruence.
      rewrite Hquota. by apply abs_repr_count_one.
    + pose proof (try_send_counted_result (Message m) (incoming_tx b)) as Hres.
      unfold counted_send_result in Hres. rewrite Hs, Ha in Hres. simpl in Hres.
      rewrite (abs_repr_has_capacity a _ Hr) in Hres. destruct (spec_full a); simpl in Hres; simplify_eq. simpl.
      assert (quota_wf (quota (incoming_tx b))) as Hwf by (eapply abs_repr_wf; eauto; lia).
      pose proof (try_send_counted_err _ _ _ _ Hwf Hs). subst tx'.
      split; [done|]. split; [|split; [done|lia]]. unfold simulates, chan. simpl.
      by rewrite Hopen.
  - destruct (closed_send_counted (Message m) (incoming_tx b) Ha) as [H1 H2].
    destruct (try_send_counted _ _) as [r tx']. simpl in *. subst r. simpl.
    split; [done|]. split; [|split; [done|lia]]. unfold simulates, chan. simpl. rewrite H2, Hopen. done.
Qed.

Lemma force_agrees m s a :
  capacity_wf (capacity a) → (N.of_nat (length (items a)) < USIZE_MAX)%N →
  simulates s a → agree (impl_op (OForce m) s) (spec_op (OForce m) a) a.
Proof.
  intros Hcap Hlen (Ho & Ha & Hsim). destruct s as [b owned]. simpl in *. subst owned.
  unfold try_send_forced_message. destruct (is_open a) eqn:Hopen; simpl.
  - destruct (Hsim eq_refl) as (Hq & Ht & Hr). unfold chan in *.
    pose proof (abs_repr_wf (capacity a) (items a) _ Hcap ltac:(lia) Hr) as Hwf.
    assert (quota_wf (count_one (quota (incoming_tx b)))) as Hwf1.
    { eapply (abs_repr_wf _ (items a ++ [Message m])); eauto using abs_repr_count_one.
      rewrite length_app. simpl. lia. }
    pose proof (try_send_forced_spec (Message m) (incoming_tx b) Hwf Hwf1) as Hspec.
    pose proof (proj1 (proj2 (try_send_tx_count (Message m) (incoming_tx b)))) as Htx.
    rewrite Ha in Hspec. destruct Hspec as (tx' & Hs & Hq' & Ha' & Hquota). rewrite Hs in *. simpl in *.
    split; [done|]. apply simulates_push; try done; try congruence.
    rewrite Hquota. by apply abs_repr_count_one.
  - destruct (closed_send_forced (Message m) (incoming_tx b) Ha) as [H1 H2].
    destruct (try_send_forced _ _) as [r tx']. simpl in *. subst r. simpl.
    split; [done|]. split; [|split; [done|lia]]. unfold simulates, chan. simpl. rewrite H2, Hopen. done.
Qed.

Lemma signal_agrees id s a :
  simulates s a → agree (impl_op (OSignal id) s) (spec_op (OSignal id) a) a.
Proof.
  intros (Ho & Ha & Hsim). destruct s as [b owned]. simpl in *. subst owned.
  unfold send_terminated.
  pose proof (try_send_uncounted_result (Terminated id) (incoming_tx b)) as Hres.
  pose proof (proj2 (proj2 (try_send_tx_count (Terminated id) (incoming_tx b)))) as Htx.
  unfold chan in *. rewrite Ha in Hres.
  destruct (try_send_uncounted _ _) as [r tx'] eqn:Hs. simpl in Hres, Htx. subst r.
  destruct (is_open a) eqn:Hopen; simpl.
  - destruct (Hsim eq_refl) as (Hq & Ht & Hr).
    apply try_send_uncounted_ok in Hs as (_ & Hq' & Ha' & Hquota).
    split; [done|]. apply simulates_push; try done; try congruence.
    rewrite Hquota, Hr. destruct (capacity a); simpl; [done|].
    by rewrite messages_snoc_terminated.
  - apply try_send_uncounted_err in Hs. subst tx'.
    split; [done|]. split; [|split; [done|lia]]. unfold simulates, chan. simpl. rewrite Hopen. done.
Qed.

Lemma recv_agrees s a :
  capacity_wf (capacity a) → (N.of_nat (length (items a)) < USIZE_MAX)%N →
  simulates s a → agree (impl_op ORecv s) (spec_op ORecv a) a.
Proof.
  intros Hcap Hlen (Ho & Ha & Hsim). destruct s as [b owned]. simpl in *. subst owned.
  destruct (is_open a) eqn:Hopen; simpl; [|done].
  destruct (Hsim eq_refl) as (Hq & Ht & Hr). unfold recv, chan in *.
  destruct (items a) as [|i q] eqn:Hitems.
  - rewrite (poll_recv_nil _ _ Hq). case_decide; [lia|]. simpl.
    split; [done|]. split; [|split; [done|lia]]. unfold simulates, chan. simpl.
    rewrite Hopen, Hitems. done.
  - destruct (poll_recv_cons _ _ _ _ Hq) as (rx & Hp & Hq' & Ha' & Ht').
    rewrite Hp. simpl. split; [done|]. split; [|split; [done|rewrite Hitems; simpl; lia]].
    unfold simulates, chan. simpl. rewrite Ha'. repeat split; try done; try congruence.
    unfold release_if_message, unreserve. destruct i as [m|id]; simpl; rewrite Hr.
    + destruct (capacity a); simpl; [by rewrite Hr|]. simpl in Hcap, Hlen.
      pose proof (messages_length_le q). rewrite usize_wrapping_sub_small by lia. f_equal. lia.
    + done.
Qed.

Lemma close_agrees s a : simulates s a → agree (impl_op OClose s) (spec_op OClose a) a.
Proof.
  intros (Ho & Ha & Hsim). destruct s as [b owned]. simpl in *. subst owned.
  destruct (is_open a) eqn:Hopen; simpl; [|done].
  destruct (Hsim eq_refl) as (Hq & _ & _). unfold split_drain, chan in *.
  destruct (drain_spec _ (item_tx (incoming_tx b))) as (Hd & _).
  destruct (drain _) as [l rx]. simpl in Hd. subst l. rewrite Hq.
  split; [done|]. split; [|split; [done|simpl; lia]]. unfold simulates, chan. simpl.
  destruct (drop_rx_spec _ rx) as (_ & -> & _). done.
Qed.

Lemma op_agrees o s a :
  capacity_wf (capacity a) → (N.of_nat (length (items a)) < USIZE_MAX)%N →
  simulates s a → agree (impl_op o s) (spec_op o a) a.
Proof.
  destruct o; eauto using send_agrees, force_agrees, signal_agrees, recv_agrees, close_agrees.
Qed.

Lemma answers_agree os s a :
  capacity_wf (capacity a) →
  (N.of_nat (length (items a) + length os) ≤ USIZE_MAX)%N →
  simulates s a → answers impl_op os s = answers spec_op os a.
Proof.
  revert s a. induction os as [|o os IH]; intros s a Hcap Hlen Hsim; [done|]. simpl in *.
  pose proof (op_agrees o s a Hcap ltac:(lia) Hsim) as Hag. unfold agree in Hag.
  destruct (impl_op o s) as [[r s']|], (spec_op o a) as [[r' a']|]; try done.
  destruct Hag as (-> & Hsim' & Hc & Hl). rewrite (IH s' a'); [done| | |done].
  - by rewrite Hc.
  - lia.
Qed.

Lemma make_mailbox_simulates c : simulates (make_mailbox c, true) (mk_spec [] c true).
Proof.
  unfold simulates, chan, make_mailbox. simpl.
  rewrite rx_alive_unbounded, queue_unbounded, tx_count_unbounded.
  repeat split; [lia|]. by destruct c.
Qed.

(** C32. A mailbox refines the abstract queue: any sequence of ordinary sends, forced sends,
    terminated signals, receives and the closing of the mailbox is answered exactly as the queue
    answers it. So messages and signals come out in the order they were accepted, an ordinary
    send is refused as full exactly while [capacity] messages are queued (signals do not count
    and are never refused as full, a receive of a message frees its slot), and after the close
    every send reports the termination and never a full mailbox. *)
Theorem mailbox_refines_queue (c : MailboxCapacity) (os : list (Op M)) :
  capacity_wf c →
  (N.of_nat (length os) ≤ USIZE_MAX)%N →
  answers impl_op os (make_mailbox c, true) = answers spec_op os (mk_spec [] c true).
Proof. intros Hc Hl. apply answers_agree; [done|done|apply make_mailbox_simulates]. Qed.
End Refinement.

Section SpecFacts.
Context {M : Type}.

(** The spec never refuses a signal while open, and never answers full once closed. *)
Lemma spec_signal_accepted id (s : Spec M) :
  is_open s = true → spec_op (OSignal id) s = Some (ASignaled (Ok tt), spec_push (Terminated id) s).
Proof. intros Ho. simpl. by rewrite Ho. Qed.
End SpecFacts.

(** ** What each operation does to the queue

    The view of a mailbox the runtime's proofs take: its queue, whether it is open and its registry. *)

Section Effects.
Context {F : Flume} {FL : FlumeLaws F}.
Context {Sink M : Type}.
Implicit Types b mb : MailboxState Sink M.

Definition mqueue b : list (Incoming M) := queue (item_tx (incoming_tx b)).
Definition mopen b : bool := rx_alive (item_tx (incoming_tx b)).

Lemma try_send_message_effect m b r mb :
  try_send_message m b = (r, mb) →
  watcher_registry mb = watcher_registry b ∧ mopen mb = mopen b ∧
  mqueue mb = mqueue b ++ (if is_ok r then [Message m] else []) ∧
  (mopen b = false → is_ok r = false).
Proof.
  unfold try_send_message, try_send_counted, mqueue, mopen. intros Hs.
  destruct (reserve (quota (incoming_tx b))) as [[res|full] q].
  - destruct (send (Message m) (item_tx (incoming_tx b))) as [tx|] eqn:Hsend; simplify_eq/=.
    + apply send_some in Hsend as (-> & -> & -> & _). done.
    + rewrite app_nil_r. done.
  - destruct (is_disconnected _); simplify_eq/=; by rewrite app_nil_r.
Qed.

Lemma try_send_forced_message_effect m b r mb :
  try_send_forced_message m b = (r, mb) →
  watcher_registry mb = watcher_registry b ∧ mopen mb = mopen b ∧
  mqueue mb = mqueue b ++ (if is_ok r then [Message m] else []) ∧
  (mopen b = false → is_ok r = false).
Proof.
  unfold try_send_forced_message, try_send_forced, mqueue, mopen. intros Hs.
  destruct (reserve_forced (quota (incoming_tx b))) as [res q].
  destruct (send (Message m) (item_tx (incoming_tx b))) as [tx|] eqn:Hsend; simplify_eq/=.
  - apply send_some in Hsend as (-> & -> & -> & _). done.
  - rewrite app_nil_r. done.
Qed.

Lemma send_terminated_effect id b r mb :
  send_terminated id b = (r, mb) →
  watcher_registry mb = watcher_registry b ∧ mopen mb = mopen b ∧ is_ok r = mopen b ∧
  mqueue mb = mqueue b ++ (if is_ok r then [Terminated id] else []).
Proof.
  unfold send_terminated, mqueue, mopen. intros Hs.
  destruct (try_send_uncounted (Terminated id) (incoming_tx b)) as [[[]|e] tx] eqn:Hu; simplify_eq/=.
  - apply try_send_uncounted_ok in Hu as (-> & -> & -> & _). done.
  - pose proof (try_send_uncounted_result (Terminated id) (incoming_tx b)) as Hres.
    rewrite Hu in Hres. simpl in Hres. apply try_send_uncounted_err in Hu as ->.
    destruct (rx_alive _); [done|]. by rewrite app_nil_r.
Qed.

Lemma recv_effect b i mb :
  recv b = (Ready (Some i), mb) →
  watcher_registry mb = watcher_registry b ∧ mopen mb = mopen b ∧ mqueue b = i :: mqueue mb.
Proof.
  unfold recv, mqueue, mopen. intros Hr.
  destruct (poll_recv (item_tx (incoming_tx b))) as [|[[i' rx]|]] eqn:Hp; simplify_eq/=.
  apply poll_recv_some in Hp as (-> & -> & _). done.
Qed.

Lemma split_drain_effect b l mb :
  split_drain b = (l, mb) →
  watcher_registry mb = watcher_registry b ∧ mopen mb = mopen b ∧ l = mqueue b ∧ mqueue mb = [].
Proof.
  unfold split_drain, mqueue, mopen. intros Hd.
  destruct (drain_spec _ (item_tx (incoming_tx b))) as (H1 & H2 & H3 & _).
  destruct (drain _) as [items rx]. simplify_eq/=. done.
Qed.

Lemma split_drop_rx_effect b :
  watcher_registry (split_drop_rx b) = watcher_registry b ∧ mopen (split_drop_rx b) = false ∧
  mqueue (split_drop_rx b) = mqueue b.
Proof.
  unfold split_drop_rx, mqueue, mopen. simpl.
  destruct (drop_rx_spec _ (item_tx (incoming_tx b))) as (-> & -> & _). done.
Qed.

Lemma handle_clone_effect b :
  watcher_registry (handle_clone b) = watcher_registry b ∧ mopen (handle_clone b) = mopen b ∧
  mqueue (handle_clone b) = mqueue b.
Proof.
  unfold handle_clone, counted_sender_clone, mqueue, mopen. simpl.
  destruct (clone_tx_spec _ (item_tx (incoming_tx b))) as (-> & -> & _). done.
Qed.

Lemma make_mailbox_effect capacity :
  watcher_registry (make_mailbox (Sink:=Sink) (M:=M) capacity) = Some ∅ ∧
  mopen (make_mailbox (Sink:=Sink) (M:=M) capacity) = true ∧
  mqueue (make_mailbox (Sink:=Sink) (M:=M) capacity) = [].
Proof.
  unfold mopen, mqueue, make_mailbox. simpl.
  by rewrite rx_alive_unbounded, queue_unbounded.
Qed.
End Effects.

Import Reference.

Lemma mailbox_refines_queue_witness :
  let os := [OSend 1%N; OSend 2%N; OSignal (mk_actor_id 9); ORecv; OForce 3%N; OClose; OSend 4%N] in
  answers (impl_op (F := ReferenceFlume) (Sink := unit)) os (make_mailbox (Bounded 1), true) =
  answers spec_op os (mk_spec [] (Bounded 1) true).
Proof.
  intros os. apply mailbox_refines_queue; vm_compute; discriminate.
Defined.
