(* ===== verification/Tokio.v ===== *)
(** What the run loop uses of [tokio]: [sync::watch] channels for stopping children and
    [sync::oneshot] channels for replies and for the termination of a system. Both crates' types are
    parameters, with their documented behaviour as laws and a reference instance of each. *)
From S2P Require Import Prelude Flume.

(** ** [tokio::sync::watch], as a one-shot stop signal with a completion barrier

    Every receiver the code ever waits on is a clone of the one made with its channel, taken before
    anything is sent, and none is ever marked as seen; so the channel itself tells what any of them
    observes. *)

Class TokioWatch := {
  WatchChan : Type;
  (** [watch::channel(())]: one sender, one receiver. *)
  watch_channel : WatchChan;
  (** [Sender::send] and [Sender::send_replace] *)
  watch_send : WatchChan → WatchChan;
  watch_send_replace : WatchChan → WatchChan;
  (** Cloning and dropping a receiver, dropping the sender. *)
  watch_clone_rx : WatchChan → WatchChan;
  watch_drop_rx : WatchChan → WatchChan;
  watch_drop_tx : WatchChan → WatchChan;
  (** [Receiver::has_changed] *)
  watch_has_changed : WatchChan → result bool unit;
  (** Polling [Receiver::changed]; what it resolves to is ignored. *)
  watch_changed : WatchChan → Poll unit;
  (** Polling [Sender::closed]. *)
  watch_closed : WatchChan → Poll unit;
}.

Class TokioWatchLaws (TW : TokioWatch) := {
  rx_count : WatchChan → nat;
  sent : WatchChan → bool;
  tx_alive : WatchChan → bool;

  watch_channel_spec :
    rx_count watch_channel = 1%nat ∧ sent watch_channel = false ∧ tx_alive watch_channel = true;
  (** [send] needs a receiver to be left, [send_replace] does not. *)
  watch_send_spec : ∀ c, (0 < rx_count c)%nat →
    rx_count (watch_send c) = rx_count c ∧ sent (watch_send c) = true ∧
    tx_alive (watch_send c) = tx_alive c;
  watch_send_replace_spec : ∀ c,
    rx_count (watch_send_replace c) = rx_count c ∧ sent (watch_send_replace c) = true ∧
    tx_alive (watch_send_replace c) = tx_alive c;
  watch_clone_rx_spec : ∀ c,
    rx_count (watch_clone_rx c) = S (rx_count c) ∧ sent (watch_clone_rx c) = sent c ∧
    tx_alive (watch_clone_rx c) = tx_alive c;
  watch_drop_rx_spec : ∀ c,
    rx_count (watch_drop_rx c) = pred (rx_count c) ∧ sent (watch_drop_rx c) = sent c ∧
    tx_alive (watch_drop_rx c) = tx_alive c;
  watch_drop_tx_spec : ∀ c,
    rx_count (watch_drop_tx c) = rx_count c ∧ sent (watch_drop_tx c) = sent c ∧
    tx_alive (watch_drop_tx c) = false;
  (** A dropped sender is an error; otherwise the unseen value is what counts. *)
  watch_has_changed_spec : ∀ c,
    watch_has_changed c = if tx_alive c then Ok (sent c) else Err ();
  watch_changed_spec : ∀ c,
    watch_changed c = if sent c || negb (tx_alive c) then Ready () else Pending;
  watch_closed_spec : ∀ c,
    watch_closed c = if decide (rx_count c = 0%nat) then Ready () else Pending;
}.

(** [rx.has_changed().unwrap_or(true)] *)
Definition has_changed_or_closed {TW : TokioWatch} (c : WatchChan) : bool :=
  unwrap_or true (watch_has_changed c).

(** The two ways the code asks whether the parent is stopping agree. *)
Lemma has_changed_or_closed_spec {TW : TokioWatch} {TL : TokioWatchLaws TW} c :
  has_changed_or_closed c = sent c || negb (tx_alive c).
Proof.
  unfold has_changed_or_closed. rewrite watch_has_changed_spec.
  by destruct (tx_alive c), (sent c).
Qed.

Lemma watch_changed_iff {TW : TokioWatch} {TL : TokioWatchLaws TW} c :
  watch_changed c = Ready () ↔ has_changed_or_closed c = true.
Proof. rewrite has_changed_or_closed_spec, watch_changed_spec. by destruct (_ || _). Qed.

Lemma watch_closed_iff {TW : TokioWatch} {TL : TokioWatchLaws TW} c :
  watch_closed c = Ready () ↔ rx_count c = 0%nat.
Proof. rewrite watch_closed_spec. by case_decide. Qed.

(** ** [tokio::sync::oneshot] *)

Class TokioOneshot := {
  Oneshot : Type → Type;
  oneshot_channel : ∀ T, Oneshot T;
  (** [Sender::send]: the value comes back when the receiver is gone. *)
  oneshot_send : ∀ {T}, T → Oneshot T → result (Oneshot T) T;
  oneshot_drop_tx : ∀ {T}, Oneshot T → Oneshot T;
  oneshot_drop_rx : ∀ {T}, Oneshot T → Oneshot T;
  (** Polling the receiver: [Err] is the [RecvError]. *)
  oneshot_poll : ∀ {T}, Oneshot T → Poll (result T unit);
}.
Arguments oneshot_channel {_} T.

Class TokioOneshotLaws (TO : TokioOneshot) := {
  receiver_gone : ∀ {T}, Oneshot T → bool;

  oneshot_channel_spec : ∀ T,
    oneshot_poll (oneshot_channel T) = Pending ∧ receiver_gone (oneshot_channel T) = false;
  oneshot_send_spec : ∀ T (x : T) c,
    oneshot_poll c = Pending →
    if receiver_gone c then oneshot_send x c = Err x
    else ∃ c', oneshot_send x c = Ok c' ∧ oneshot_poll c' = Ready (Ok x) ∧ receiver_gone c' = false;
  oneshot_drop_tx_spec : ∀ T (c : Oneshot T),
    oneshot_poll (oneshot_drop_tx c) =
      (match oneshot_poll c with Pending => Ready (Err ()) | r => r end) ∧
    receiver_gone (oneshot_drop_tx c) = receiver_gone c;
  oneshot_drop_rx_spec : ∀ T (c : Oneshot T),
    oneshot_poll (oneshot_drop_rx c) = oneshot_poll c ∧ receiver_gone (oneshot_drop_rx c) = true;
}.

(** ** Reference instances *)

Module ReferenceTokio.
Record watch_chan := mk_watch { receivers : nat; value_sent : bool; sender_alive : bool }.

#[export] Instance ReferenceWatch : TokioWatch := {
  WatchChan := watch_chan;
  watch_channel := mk_watch 1 false true;
  watch_send c :=
    if decide (receivers c = 0%nat) then c else mk_watch (receivers c) true (sender_alive c);
  watch_send_replace c := mk_watch (receivers c) true (sender_alive c);
  watch_clone_rx c := mk_watch (S (receivers c)) (value_sent c) (sender_alive c);
  watch_drop_rx c := mk_watch (pred (receivers c)) (value_sent c) (sender_alive c);
  watch_drop_tx c := mk_watch (receivers c) (value_sent c) false;
  watch_has_changed c := if sender_alive c then Ok (value_sent c) else Err ();
  watch_changed c := if value_sent c || negb (sender_alive c) then Ready () else Pending;
  watch_closed c := if decide (receivers c = 0%nat) then Ready () else Pending;
}.

#[export, refine] Instance ReferenceWatchLaws : TokioWatchLaws ReferenceWatch := {
  rx_count c := receivers (c : watch_chan);
  sent c := value_sent (c : watch_chan);
  tx_alive c := sender_alive (c : watch_chan);
}.
Proof.
  all: intros; simpl in *; try done.
  rewrite decide_False by lia. done.
Defined.

Record oneshot_chan (T : Type) := mk_oneshot { content : Poll (result T unit); gone : bool }.
Arguments mk_oneshot {T}. Arguments content {T}. Arguments gone {T}.

#[export] Instance ReferenceOneshot : TokioOneshot := {
  Oneshot := oneshot_chan;
  oneshot_channel T := mk_oneshot Pending false;
  oneshot_send T x c := if gone c then Err x else Ok (mk_oneshot (Ready (Ok x)) false);
  oneshot_drop_tx T c :=
    mk_oneshot (match content c with Pending => Ready (Err ()) | r => r end) (gone c);
  oneshot_drop_rx T c := mk_oneshot (content c) true;
  oneshot_poll T c := content c;
}.

#[export, refine] Instance ReferenceOneshotLaws : TokioOneshotLaws ReferenceOneshot := {
  receiver_gone T c := gone (c : oneshot_chan T);
}.
Proof.
  all: intros; simpl in *; try done.
  destruct (gone c) eqn:Hg; [done|]. by eexists.
Defined.
End ReferenceTokio.
