(* ===== verification/Runtime.v ===== *)
(** The runtime: actors as concurrently running tasks over their shared mailboxes, watcher registries
    and stop channels. [tellus/src/actor_context.rs] (the context, the run loop, supervision and the
    termination sequence), [actor_system.rs] and the parts of [actor_ref.rs] and [actor.rs] they
    act through.

    The state of the whole system is a [World]; a task advances by one atomic action on it at a time
    ([task_step]), so every interleaving of the tasks, of outside senders and of the owner of the
    system is a sequence of labels. Every step also says what it did, as a list of [Obs]. *)
From S2P Require Import Prelude Backoff Config Flume Quota Actor Mailbox Tokio.

(** ** References *)

(** [ActorRef]: equality and hashing are by id alone. The mailbox a reference points to is the one
    [SelfRef::new] makes for that id, so the id is also its address in the [World]. *)
Record ActorRef := mk_ref { actor_id : ActorId }.

#[export] Instance ActorRef_eq_dec : EqDecision ActorRef.
Proof. solve_decision. Defined.

(** The address of a stop channel: the one [ActorSystem] made, or the n-th one an actor's context
    made for its children. *)
Inductive StopKey :=
  | SystemKey
  | ContextKey (owner : ActorId) (generation : nat).

#[export] Instance StopKey_eq_dec : EqDecision StopKey.
Proof. solve_decision. Defined.
#[export] Instance StopKey_countable : Countable StopKey.
Proof.
  apply (inj_countable'
    (λ k, match k with SystemKey => None | ContextKey a g => Some (a, g) end)
    (λ o, match o with None => SystemKey | Some (a, g) => ContextKey a g end)).
  by intros [].
Defined.

(** [Arc<dyn TerminatedSink>]: the sender of some actor's own mailbox, or [RootTerminatedSink]. *)
Inductive Sink :=
  | MailboxSink (owner : ActorId)
  | RootSink.

(** ** Supervision: [next_restart] *)

Inductive RestartDecision :=
  | After (delay : Duration)
  | LimitExceeded
  | NotConfigured.

Definition next_restart (strategy : SupervisionStrategy) (up_since : option Instant) (now : Instant)
    (restarts : N) : RestartDecision * N :=
  match strategy with
  | Config.Stop => (NotConfigured, restarts)
  | Restart policy =>
      let restarts :=
        match up_since with
        | Some since => if decide (reset_after policy ≤ elapsed now since)%N then 0%N else restarts
        | None => restarts
        end in
      if decide (Npos (max_restarts policy) ≤ restarts)%N then (LimitExceeded, restarts)
      else (After (duration (backoff policy) restarts), (restarts + 1)%N)
  end.

(** ** The wait before a restart: [await_backoff], polled

    Whether the parent has stopped this actor and whether the timer has fired are what the two futures
    are polled to; a zero delay probes the parent without waiting. *)
Inductive Interrupted := NotInterrupted | StoppedByParent.

Definition await_backoff (delay : Duration) (stopped_by_parent timer_fired : bool) : Poll Interrupted :=
  if duration_is_zero delay then
    Ready (if stopped_by_parent then StoppedByParent else NotInterrupted)
  else if stopped_by_parent then Ready StoppedByParent
  else if timer_fired then Ready NotInterrupted
  else Pending.

Section Runtime.
Context {F : Flume} {TW : TokioWatch} {TO : TokioOneshot}.

(** Messages of all actors, actor values, their states and their errors. *)
Context {M B S E : Type}.

(** What tasks await of the world outside of the runtime, and the answers: nothing for an [Actor], the
    stores for an event-sourced one (see [EventSourced]). *)
Context {Rq : Type} {An : Rq → Type}.

(** ** The code of a task

    What [init] and [receive] do through the context and through references, one action at a time,
    until they return or panic. A [ReplyTo] made by [reply_to] replies by telling its actor, so a
    reply to an actor is a [HTell]. Methods of an [Actor] are not asynchronous, so they never
    [HAwait]; the recovery and the settlement of an event-sourced actor do. *)
Inductive Handler (R : Type) :=
  | HReturn (r : result R E)
  | HPanic
  | HTell (to : ActorRef) (m : M) (k : Handler R)
  | HTryTell (forced : bool) (to : ActorRef) (m : M) (k : bool → Handler R)
  | HNow (k : Instant → Handler R)
  | HSpawn (actor : B) (config : ActorConfig) (k : ActorRef → Handler R)
  | HWatch (other : ActorRef) (k : Handler R)
  | HUnwatch (other : ActorRef) (k : Handler R)
  | HAwait (q : Rq) (k : An q → Handler R).
#[global] Arguments HReturn {R}.
#[global] Arguments HPanic {R}.
#[global] Arguments HTell {R}.
#[global] Arguments HTryTell {R}.
#[global] Arguments HNow {R}.
#[global] Arguments HSpawn {R}.
#[global] Arguments HWatch {R}.
#[global] Arguments HUnwatch {R}.
#[global] Arguments HAwait {R}.

(** The trait [Actor]: the context's [self_ref] is an argument. *)
Class Actor := {
  init : B → ActorRef → Handler S;
  receive : B → ActorRef → Incoming M → S → Handler (Control S);
}.

(** ** Tasks *)

(** Where a task is in [terminate]. *)
Inductive TermPhase :=
  | TDrain                                   (* [mailbox.split()], [incoming_rx.drain()] *)
  | TDropRx                                  (* the receiver and the drained items are dropped *)
  | TDeregister (rest : list ActorId)        (* the loop over [take_watched] *)
  | TStopChildren                            (* [context.stop_children()] up to its await *)
  | TAwaitChildren (old : StopKey)           (* [stopping_tx.closed().await] *)
  | TDropContext                             (* [drop(context)] and the actor value *)
  | TTakeWatchers                            (* [closed_mailbox.take_watchers()] *)
  | TSignal (rest : list (Watcher Sink)).    (* the loop signaling the watchers *)

(** How far a task has got with the stop of its parent, where it waits for something else too. A biased [select!]
    polls the stop first and then the other future, which are two accesses: a stop can fall between them. *)
Inductive StopPoll :=
  | Unpolled                                 (* about to poll the stop *)
  | Polled                                   (* not stopped when polled, about to poll the other future *)
  | Asleep.                                  (* neither was ready, to be woken by either *)

(** Where a task is in the run loop of [spawn]. *)
Inductive Phase :=
  | Initializing (h : Handler S)
  | NextIncoming (state : S) (up_since : Instant)
  | Receiving (h : Handler (Control S)) (up_since : Instant)
  | Failed (up_since : option Instant)       (* entering [await_restart] *)
  | Restarting (delay : Duration)            (* past its probe of the stop *)
  | StoppingChildren (old : StopKey) (delay : Duration)
  | BackingOff (delay : Duration)            (* [await_backoff] *)
  | Terminating (t : TermPhase)
  | Done.

(** An actor: its mailbox, its context and the locals of its task. *)
Record Cell := mk_cell {
  mailbox : MailboxState Sink M;
  watched : gmap ActorId ActorId;            (* id of the watched actor, address of its registry *)
  generation : nat;                          (* which of its stop channels the context holds *)
  actor : B;
  config : ActorConfig;
  parent_stopping : StopKey;                 (* [parent_stopping_rx] and its clone *)
  restarts : N;
  phase : Phase;
  stop_poll : StopPoll;
}.

(** The owner's side of an [ActorSystem]. *)
Inductive Owner :=
  | Constructing      (* inside [spawn_root], the root's watcher is not registered yet *)
  | Owning
  | Dropped.

Record World := mk_world {
  cells : gmap ActorId Cell;
  stop_channels : gmap StopKey WatchChan;
  root : ActorId;
  root_watcher : ActorId;                    (* the id of the watcher [watch_root] makes *)
  owner : Owner;
  sink_alive : bool;                         (* [RootTerminatedSink] is not dropped yet *)
  terminated_tx : bool;                      (* its [terminated_tx] is not taken yet *)
  terminated_rx : Oneshot ();
}.

(** ** What a step did *)

Inductive Source :=
  | FromActor (a : ActorId)
  | FromOutside.

#[export] Instance Source_eq_dec : EqDecision Source.
Proof. solve_decision. Defined.

Inductive Obs :=
  | OEnqueued (src : Source) (to : ActorId) (i : Incoming M)
  | ODeadLetter (src : Source) (to : ActorId) (m : M) (e : SendError)
  | OReceived (a : ActorId) (i : Incoming M)
  | OStale (a : ActorId) (other : ActorId)
  | ODrained (a : ActorId) (l : list (Incoming M))
  | OWatched (a : ActorId) (other : ActorId)
  | OUnwatched (a : ActorId) (other : ActorId)
  | ORestarting (a : ActorId) (restarts : N) (delay : Duration)
  | OTerminated (a : ActorId)
  | OStopRequested
  | OSystemTerminated.

(** *** Updates *)

Definition set_cells (w : World) (cs : gmap ActorId Cell) : World :=
  mk_world cs (stop_channels w) (root w) (root_watcher w) (owner w) (sink_alive w) (terminated_tx w)
    (terminated_rx w).
Definition set_stop_channels (w : World) (ks : gmap StopKey WatchChan) : World :=
  mk_world (cells w) ks (root w) (root_watcher w) (owner w) (sink_alive w) (terminated_tx w) (terminated_rx w).
Definition put_cell (a : ActorId) (c : Cell) (w : World) : World :=
  set_cells w (<[a := c]> (cells w)).
Definition on_channel (k : StopKey) (f : WatchChan → WatchChan) (w : World) : World :=
  set_stop_channels w (alter f k (stop_channels w)).

Definition set_mailbox (c : Cell) (b : MailboxState Sink M) : Cell :=
  mk_cell b (watched c) (generation c) (actor c) (config c) (parent_stopping c) (restarts c) (phase c) (stop_poll c).
Definition set_watched (c : Cell) (m : gmap ActorId ActorId) : Cell :=
  mk_cell (mailbox c) m (generation c) (actor c) (config c) (parent_stopping c) (restarts c) (phase c) (stop_poll c).
Definition set_generation (c : Cell) (g : nat) : Cell :=
  mk_cell (mailbox c) (watched c) g (actor c) (config c) (parent_stopping c) (restarts c) (phase c) (stop_poll c).
Definition set_restarts (c : Cell) (n : N) : Cell :=
  mk_cell (mailbox c) (watched c) (generation c) (actor c) (config c) (parent_stopping c) n (phase c) (stop_poll c).
Definition set_stop_poll (c : Cell) (q : StopPoll) : Cell :=
  mk_cell (mailbox c) (watched c) (generation c) (actor c) (config c) (parent_stopping c) (restarts c) (phase c) q.
(** Whatever a phase waits for is polled from the beginning. *)
Definition set_phase (c : Cell) (p : Phase) : Cell :=
  mk_cell (mailbox c) (watched c) (generation c) (actor c) (config c) (parent_stopping c) (restarts c) p Unpolled.

(** The registry of an actor's mailbox. *)
Definition on_registry (a : ActorId) (f : WatcherRegistry Sink → WatcherRegistry Sink) (w : World)
    : World :=
  set_cells w (alter (λ c, set_mailbox c (set_registry (mailbox c) (f (watcher_registry (mailbox c)))))
                 a (cells w)).

(** ** References and the context *)

(** [ActorRef::tell]: a message which cannot be enqueued is a dead letter. *)
Definition tell (src : Source) (to : ActorRef) (m : M) (w : World) : option (World * list Obs) :=
  c ← cells w !! actor_id to;
  let '(r, b) := try_send_message m (mailbox c) in
  let w := put_cell (actor_id to) (set_mailbox c b) w in
  Some (w, [match r with
            | Ok _ => OEnqueued src (actor_id to) (Message m)
            | Err e => ODeadLetter src (actor_id to) m e
            end]).

(** [ActorRef::try_tell], [ActorRef::try_tell_forced]: whether the message was enqueued. *)
Definition send_message (forced : bool) (m : M) (b : MailboxState Sink M) :=
  if forced then try_send_forced_message m b else try_send_message m b.
Definition try_tell (forced : bool) (src : Source) (to : ActorRef) (m : M) (w : World)
    : option (bool * World * list Obs) :=
  c ← cells w !! actor_id to;
  let '(r, b) := send_message forced m (mailbox c) in
  let w := put_cell (actor_id to) (set_mailbox c b) w in
  Some (is_ok r, w, match r with Ok _ => [OEnqueued src (actor_id to) (Message m)] | Err _ => [] end).

(** [SelfRef::make_watcher] *)
Definition make_watcher (self : ActorId) : Watcher Sink := watcher_new self (MailboxSink self).

(** A signal into the mailbox of [to]. *)
Definition signal_mailbox (src : Source) (to : ActorId) (about : ActorId) (w : World)
    : option (result unit ActorTerminated * World * list Obs) :=
  c ← cells w !! to;
  let '(r, b) := send_terminated about (mailbox c) in
  Some (r, put_cell to (set_mailbox c b) w,
        match r with Ok _ => [OEnqueued src to (Terminated about)] | Err _ => [] end).

(** [ActorContext::watch]: registers, remembers the registry, and signals itself if registration is
    closed. [false] is the panic of the [expect] in [SelfRef::send_terminated]. *)
Definition watch (self : ActorId) (other : ActorRef) (w : World) : option (bool * World * list Obs) :=
  o ← cells w !! actor_id other;
  let registration := (registry_add (make_watcher self) (watcher_registry (mailbox o))).1 in
  let w := on_registry (actor_id other) (λ r, (registry_add (make_watcher self) r).2) w in
  c ← cells w !! self;
  let w := put_cell self (set_watched c (<[actor_id other := actor_id other]> (watched c))) w in
  if is_ok registration then Some (true, w, [OWatched self (actor_id other)])
  else
    '(r, w, obs) ← signal_mailbox (FromActor self) self (actor_id other) w;
    Some (is_ok r, w, obs ++ [OWatched self (actor_id other)]).

(** [ActorContext::unwatch] *)
Definition unwatch (self : ActorId) (other : ActorRef) (w : World) : option (World * list Obs) :=
  c ← cells w !! self;
  let w' := put_cell self (set_watched c (delete (actor_id other) (watched c))) w in
  Some (match watched c !! actor_id other with
        | Some registry => on_registry registry (registry_remove self) w'
        | None => w
        end, [OUnwatched self (actor_id other)]).

(** [ActorContext::take_watched_for]: whether [other] was still watched. *)
Definition take_watched_for (other : ActorId) (c : Cell) : bool * Cell :=
  (bool_decide (is_Some (watched c !! other)), set_watched c (delete other (watched c))).

(** The receivers of the parent's stop channel a task holds: [parent_stopping_rx] and its clone. *)
Definition hold_parent (k : StopKey) (w : World) : World :=
  on_channel k (watch_clone_rx ∘ watch_clone_rx) w.
Definition release_parent (k : StopKey) (w : World) : World :=
  on_channel k (watch_drop_rx ∘ watch_drop_rx) w.

(** [SelfRef::new] and [ActorContext::new]: the mailbox with the sender of the self reference, the one
    of its sink and the one of the returned reference, and the context's first stop channel. *)
Definition new_cell `{Actor} (id : ActorId) (a : B) (config : ActorConfig) (parent : StopKey) : Cell :=
  mk_cell (handle_clone (handle_clone (make_mailbox (mailbox_capacity config)))) ∅ 0%nat a config
    parent 0%N (Initializing (init a (mk_ref id))) Unpolled.

(** [spawn] with the id [ActorId::new] made: the new task starts with [init]. *)
Definition spawn `{Actor} (parent : StopKey) (a : B) (config : ActorConfig) (id : ActorId) (w : World)
    : World :=
  let w := hold_parent parent w in
  let w := set_stop_channels w (<[ContextKey id 0 := watch_channel]> (stop_channels w)) in
  put_cell id (new_cell id a config parent) w.

(** [ActorContext::stop_children] up to its await: the next generation's channel is installed, the
    current one is told to stop and this context's own receiver of it dropped. *)
Definition stop_children (self : ActorId) (c : Cell) (w : World) : StopKey * World :=
  let old := ContextKey self (generation c) in
  let next := ContextKey self (Datatypes.S (generation c)) in
  let w := set_stop_channels w (<[next := watch_channel]> (stop_channels w)) in
  let w := on_channel old (watch_drop_rx ∘ watch_send) w in
  (old, put_cell self (set_generation c (Datatypes.S (generation c))) w).

(** Whether the parent's stop channel has changed or is closed. *)
Definition stopped_by_parent (c : Cell) (w : World) : bool :=
  match stop_channels w !! parent_stopping c with
  | Some ch => has_changed_or_closed ch
  | None => true
  end.

(** ** One step of a task *)

(** What the environment decides at a step: the clock's reading, the next UUID, whether the timer the
    task sleeps on has fired, whether what it awaits is there at once (before the stop is polled anew), what a
    request is answered with. *)
Record Env := mk_env {
  now : Instant;
  new_id : ActorId;
  timer_fired : bool;
  at_once : bool;
  answer : ∀ q, An q;
}.

(** [ActorId::new] never makes an id twice. *)
Definition fresh (id : ActorId) (w : World) : bool :=
  bool_decide (cells w !! id = None ∧ id ≠ root_watcher w).

(** The next action of user code running in the task [self], through [back] to its phase. *)
Definition handler_step `{Actor} {R} (e : Env) (self : ActorId) (h : Handler R) (w : World)
    : option (Handler R * World * list Obs) :=
  match h with
  | HReturn _ | HPanic => None
  | HTell to m k => '(w, obs) ← tell (FromActor self) to m w; Some (k, w, obs)
  | HTryTell forced to m k =>
      '(ok, w, obs) ← try_tell forced (FromActor self) to m w; Some (k ok, w, obs)
  | HNow k => Some (k (now e), w, [])
  | HSpawn a config k =>
      c ← cells w !! self;
      if fresh (new_id e) w then
        Some (k (mk_ref (new_id e)),
              spawn (ContextKey self (generation c)) a config (new_id e) w, [])
      else None
  | HWatch other k =>
      '(ok, w, obs) ← watch self other w;
      Some (if (ok : bool) then k else HPanic, w, obs)
  | HUnwatch other k => '(w, obs) ← unwatch self other w; Some (k, w, obs)
  | HAwait q k => Some (k (answer e q), w, [])
  end.

(** A task's cell with another phase. *)
Definition goto (self : ActorId) (p : Phase) (w : World) : World :=
  set_cells w (alter (λ c, set_phase c p) self (cells w)).

(** [await_restart] up to its probe of the stop. *)
Definition await_restart (e : Env) (self : ActorId) (c : Cell) (up_since : option Instant) (w : World)
    : World * list Obs :=
  match next_restart (supervision_strategy (config c)) up_since (now e) (restarts c) with
  | (After delay, n) =>
      let c := set_restarts c n in
      let w := put_cell self c w in
      if stopped_by_parent c w then (goto self (Terminating TDrain) w, [])
      else (goto self (Restarting delay) w, [])
  | (_, n) => (goto self (Terminating TDrain) (put_cell self (set_restarts c n) w), [])
  end.

(** Past the probe, up to the first await. *)
Definition restart (self : ActorId) (c : Cell) (delay : Duration) (w : World) : World * list Obs :=
  let '(old, w) := stop_children self c w in
  (goto self (StoppingChildren old delay) w, [ORestarting self (restarts c) delay]).

(** [stopping_tx.closed().await] and the sender dropped. *)
Definition await_closed (old : StopKey) (w : World) : option World :=
  ch ← stop_channels w !! old;
  match watch_closed ch with
  | Ready _ => Some (on_channel old watch_drop_tx w)
  | Pending => None
  end.

(** [RootTerminatedSink::send_terminated] *)
Definition root_signal (w : World) : World * list Obs :=
  if terminated_tx w then
    (mk_world (cells w) (stop_channels w) (root w) (root_watcher w) (owner w) (sink_alive w) false
       (match oneshot_send () (terminated_rx w) with Ok c => c | Err _ => terminated_rx w end),
     [OSystemTerminated])
  else (w, []).

(** The last reference to the root's stop sender goes with the system and with the sink. *)
Definition release_root_sender (w : World) : World :=
  match owner w, sink_alive w with
  | Dropped, false => on_channel SystemKey watch_drop_tx w
  | _, _ => w
  end.

Definition drop_root_sink (w : World) : World :=
  release_root_sender
    (mk_world (cells w) (stop_channels w) (root w) (root_watcher w) (owner w) false (terminated_tx w)
       (terminated_rx w)).

(** The next action of [terminate]. *)
Definition terminate_step (self : ActorId) (c : Cell) (t : TermPhase) (w : World)
    : option (World * list Obs) :=
  match t with
  | TDrain =>
      let '(items, b) := split_drain (mailbox c) in
      Some (put_cell self (set_phase (set_mailbox c b) (Terminating TDropRx)) w, [ODrained self items])
  | TDropRx =>
      let c' := set_watched (set_mailbox c (split_drop_rx (mailbox c))) ∅ in
      Some (put_cell self (set_phase c' (Terminating (TDeregister (map_to_list (watched c)).*2))) w, [])
  | TDeregister (registry :: rest) =>
      Some (goto self (Terminating (TDeregister rest)) (on_registry registry (registry_remove self) w), [])
  | TDeregister [] => Some (goto self (Terminating TStopChildren) w, [])
  | TStopChildren =>
      let '(old, w) := stop_children self c w in
      Some (goto self (Terminating (TAwaitChildren old)) w, [])
  | TAwaitChildren old =>
      w ← await_closed old w;
      Some (goto self (Terminating TDropContext) w, [])
  | TDropContext =>
      let w := on_channel (ContextKey self (generation c)) (watch_drop_tx ∘ watch_drop_rx) w in
      Some (goto self (Terminating TTakeWatchers) w, [])
  | TTakeWatchers =>
      let '(ws, b) := take_watchers (mailbox c) in
      Some (put_cell self (set_phase (set_mailbox c b) (Terminating (TSignal ws))) w, [])
  | TSignal (x :: rest) =>
      let w := goto self (Terminating (TSignal rest)) w in
      match terminated_sink x with
      | MailboxSink to =>
          '(_, w, obs) ← signal_mailbox (FromActor self) to self w;
          Some (w, obs)
      | RootSink =>
          let '(w, obs) := root_signal w in
          Some (drop_root_sink w, obs)
      end
  | TSignal [] =>
      Some (release_parent (parent_stopping c) (goto self Done w), [OTerminated self])
  end.

(** [next_incoming!] resolved to an incoming for the task: a signal of an actor no longer watched is
    dropped and the loop starts over, anything else is passed to [receive]. *)
Definition deliver `{Actor} (self : ActorId) (c : Cell) (state : S) (up_since : Instant)
    (i : Incoming M) (w : World) : World * list Obs :=
  let go c := put_cell self
    (set_phase c (Receiving (receive (actor c) (mk_ref self) i state) up_since)) w in
  match i with
  | Terminated other =>
      match take_watched_for other c with
      | (true, c) => (go c, [OReceived self i])
      | (false, c) => (put_cell self (set_stop_poll c Unpolled) w, [OStale self other])
      end
  | Message _ => (go c, [OReceived self i])
  end.

(** The biased [select!] of [next_incoming!], one poll at a time. A task asleep is woken by the stop or by an incoming. *)
Definition next_incoming `{Actor} (self : ActorId) (c : Cell) (state : S) (up_since : Instant) (w : World)
    : option (World * list Obs) :=
  match stop_poll c with
  | Unpolled =>
      if stopped_by_parent c w then Some (goto self (Terminating TDrain) w, [])
      else Some (put_cell self (set_stop_poll c Polled) w, [])
  | Polled =>
      match recv (mailbox c) with
      | (Ready (Some i), b) => Some (deliver self (set_mailbox c b) state up_since i w)
      | (Ready None, _) => None
      | (Pending, _) => Some (put_cell self (set_stop_poll c Asleep) w, [])
      end
  | Asleep =>
      if stopped_by_parent c w || (if (recv (mailbox c)).1 is Ready _ then true else false)
      then Some (put_cell self (set_stop_poll c Unpolled) w, [])
      else None
  end.

(** Whether an await which races the stop is given up: the stop is polled first, but not anew for what is there at
    once after an await before it. *)
Definition abandons (e : Env) (c : Cell) (w : World) : bool :=
  stopped_by_parent c w && negb (at_once e && if stop_poll c is Polled then true else false).

(** One step of the task [self]: [None] while it is blocked or done. *)
Definition task_step `{Actor} (e : Env) (self : ActorId) (w : World) : option (World * list Obs) :=
  c ← cells w !! self;
  match phase c with
  | Initializing (HReturn (Ok state)) => Some (goto self (NextIncoming state (now e)) w, [])
  | Initializing (HReturn (Err _)) | Initializing HPanic => Some (goto self (Failed None) w, [])
  (* [recover] races the stop signal of the parent in a biased [select!]. *)
  | Initializing (HAwait q k) =>
      if abandons e c w then Some (goto self (Terminating TDrain) w, [])
      else Some (put_cell self (set_stop_poll (set_phase c (Initializing (k (answer e q)))) Polled) w, [])
  | Initializing h =>
      '(h, w, obs) ← handler_step e self h w;
      Some (goto self (Initializing h) w, obs)
  | NextIncoming state up_since => next_incoming self c state up_since w
  | Receiving (HReturn (Ok (Continue state))) up_since =>
      Some (goto self (NextIncoming state up_since) w, [])
  | Receiving (HReturn (Ok Actor.Stop)) _ => Some (goto self (Terminating TDrain) w, [])
  | Receiving (HReturn (Err _)) up_since | Receiving HPanic up_since =>
      Some (goto self (Failed (Some up_since)) w, [])
  | Receiving h up_since =>
      '(h, w, obs) ← handler_step e self h w;
      Some (goto self (Receiving h up_since) w, obs)
  | Failed up_since => Some (await_restart e self c up_since w)
  | Restarting delay => Some (restart self c delay w)
  | StoppingChildren old delay =>
      w ← await_closed old w;
      Some (goto self (BackingOff delay) w, [])
  | BackingOff delay =>
      match await_backoff delay (stopped_by_parent c w) (timer_fired e) with
      | Ready StoppedByParent => Some (goto self (Terminating TDrain) w, [])
      | Ready NotInterrupted => Some (goto self (Initializing (init (actor c) (mk_ref self))) w, [])
      | Pending => None
      end
  | Terminating t => terminate_step self c t w
  | Done => None
  end.

(** ** The system *)

(** What can happen: a task's step, a send from outside, and what the owner of the system does. *)
Inductive Label :=
  | LTask (a : ActorId) (e : Env)
  | LTell (to : ActorRef) (m : M)
  | LWatchRoot                               (* [watch_root] registers the root's watcher *)
  | LStop                                    (* [ActorSystem::stop] *)
  | LDropSystem.                             (* the [ActorSystem] is dropped *)

Definition set_owner (w : World) (o : Owner) : World :=
  mk_world (cells w) (stop_channels w) (root w) (root_watcher w) o (sink_alive w) (terminated_tx w) (terminated_rx w).

(** The fields of an [ActorSystem] dropped: its reference to the root's stop sender and its receiver. *)
Definition drop_system (w : World) : World :=
  release_root_sender
    (mk_world (cells w) (stop_channels w) (root w) (root_watcher w) Dropped (sink_alive w)
       (terminated_tx w) (oneshot_drop_rx (terminated_rx w))).

(** [watch_root]: the sink is signaled right away if the root has already terminated; its reference
    here is dropped at the end. *)
Definition watch_root (w : World) : option (World * list Obs) :=
  c ← cells w !! root w;
  let watcher := watcher_new (root_watcher w) RootSink in
  let registration := registry_add watcher (watcher_registry (mailbox c)) in
  let w := on_registry (root w) (λ r, (registry_add watcher r).2) w in
  if is_ok registration.1 then Some (set_owner w Owning, [])
  else let '(w, obs) := root_signal w in Some (drop_root_sink (set_owner w Owning), obs).

Definition step `{Actor} (l : Label) (w : World) : option (World * list Obs) :=
  match l with
  | LTask a e => task_step e a w
  | LTell to m => tell FromOutside to m w
  | LWatchRoot =>
      match owner w with
      | Constructing => watch_root w
      | _ => None
      end
  | LStop =>
      match owner w with
      | Owning => Some (on_channel SystemKey watch_send_replace w, [OStopRequested])
      | _ => None
      end
  | LDropSystem =>
      match owner w with
      | Owning => Some (drop_system w, [])
      | _ => None
      end
  end.

(** [ActorSystem::with_config] up to [watch_root]: the channel's one receiver moves into the root's
    task, which clones it. The ids are the root's and its watcher's. *)
Definition system_new `{Actor} (id watcher_id : ActorId) (a : B) (config : ActorConfig) : World :=
  let channels := {[ SystemKey := watch_clone_rx watch_channel; ContextKey id 0 := watch_channel ]} in
  mk_world {[ id := new_cell id a config SystemKey ]} channels id watcher_id Constructing true true
    (oneshot_channel ()).

(** [ActorSystem::terminated], polled. *)
Definition system_terminated (w : World) : Poll (result unit unit) := oneshot_poll (terminated_rx w).

(** A run with everything it did. *)
Fixpoint exec `{Actor} (ls : list Label) (w : World) : option (World * list Obs) :=
  match ls with
  | [] => Some (w, [])
  | l :: ls =>
      '(w, obs) ← step l w;
      '(w, obs') ← exec ls w;
      Some (w, obs ++ obs')
  end.
End Runtime.
Arguments Handler {M B E Rq An} R : assert.
Arguments Actor : clear implicits.
