(* ===== verification/Supervision.v ===== *)
(** Supervision: the restarts of a streak of failures, as [next_restart] of
    [tellus/src/actor_context.rs] decides them, and the wait before a restart. *)
From S2P Require Import Prelude Backoff Config Flume Quota Actor Mailbox Tokio Runtime.

(** A failure: since when the actor had been up, if it was, and the time of the failure. *)
Definition Failure : Type := option Instant * Instant.

(** What a sequence of failures is answered with, from a number of restarts on. *)
Fixpoint decisions (strategy : SupervisionStrategy) (failures : list Failure) (restarts : N)
    : list RestartDecision :=
  match failures with
  | [] => []
  | (up_since, now) :: failures =>
      let '(d, restarts) := next_restart strategy up_since now restarts in
      d :: decisions strategy failures restarts
  end.

(** Whether the actor had been up long enough for the streak to end. *)
Definition ends_streak (policy : RestartPolicy) (f : Failure) : Prop :=
  match f.1 with
  | Some since => (reset_after policy ≤ elapsed f.2 since)%N
  | None => False
  end.

Definition max_of (policy : RestartPolicy) : nat := Pos.to_nat (max_restarts policy).

(** The answer to the (n+1)-th failure of a streak. *)
Definition streak_answer (policy : RestartPolicy) (n : nat) : RestartDecision :=
  if decide (n < max_of policy)%nat then After (duration (backoff policy) (N.of_nat n)) else LimitExceeded.

Lemma next_restart_streak policy up now n :
  (n ≤ max_of policy)%nat → ¬ ends_streak policy (up, now) →
  next_restart (Restart policy) up now (N.of_nat n) =
    (streak_answer policy n, N.of_nat (Nat.min (S n) (max_of policy))).
Proof.
  intros Hn He. unfold next_restart, streak_answer, max_of in *. unfold ends_streak in He. simpl in He.
  assert (match up with
          | Some since => if decide (reset_after policy ≤ elapsed now since)%N then 0%N else N.of_nat n
          | None => N.of_nat n
          end = N.of_nat n) as ->.
  { destruct up; [|done]. by rewrite decide_False. }
  destruct (decide (n < Pos.to_nat (max_restarts policy))%nat).
  - rewrite decide_False by lia. f_equal. lia.
  - rewrite decide_True by lia. f_equal. lia.
Qed.

Lemma next_restart_reset policy up now restarts :
  ends_streak policy (up, now) →
  next_restart (Restart policy) up now restarts = (After (duration (backoff policy) 0), 1%N).
Proof.
  unfold ends_streak, next_restart. simpl. destruct up as [since|]; [|done]. intros He.
  rewrite !(decide_True (P := (reset_after policy ≤ elapsed now since)%N)) by done.
  by rewrite decide_False by lia.
Qed.

Lemma decisions_streak policy failures n :
  (n ≤ max_of policy)%nat → Forall (λ f, ¬ ends_streak policy f) failures →
  decisions (Restart policy) failures (N.of_nat n) =
    (streak_answer policy) <$> (Nat.min (max_of policy) <$> seq n (length failures)).
Proof.
  intros Hn Hf. revert n Hn. induction Hf as [|[up now] failures Hx _ IH]; intros n Hn; [done|].
  cbn [decisions length seq fmap list_fmap]. rewrite next_restart_streak by done.
  rewrite (Nat.min_r (max_of policy) n) by lia. f_equal.
  rewrite IH by lia. destruct (decide (S n ≤ max_of policy)%nat) as [|Hgt].
  - by rewrite (Nat.min_l (S n)) by lia.
  - assert (n = max_of policy) as -> by lia. rewrite (Nat.min_r (S _)) by lia.
    rewrite <-!list_fmap_compose.
    clear. generalize (length failures) as k. intros k.
    assert (∀ j m, (max_of policy ≤ j)%nat → (max_of policy ≤ m)%nat →
              (streak_answer policy ∘ Nat.min (max_of policy)) <$> seq j k =
              (streak_answer policy ∘ Nat.min (max_of policy)) <$> seq m k) as Hs.
    { induction k as [|k IH]; intros j m Hj Hm; [done|].
      cbn [seq]. rewrite !fmap_cons, (IH (S j) (S m)) by lia. f_equal. unfold compose.
      by rewrite !Nat.min_l by lia. }
    apply Hs; lia.
Qed.

(** C31. A streak of failures is restarted at most [max_restarts] times, the n-th time after the
    backoff's delay of step n - 1; each further failure exceeds the limit. A failure after the actor
    was up for [reset_after] starts a new streak, whatever the number of restarts was; under [Stop]
    no failure is ever restarted. The number of restarts never exceeds [max_restarts], so it does
    not overflow a [u32]. *)
Theorem streaks_are_limited (policy : RestartPolicy) (failures : list Failure) :
  Forall (λ f, ¬ ends_streak policy f) failures →
  (∀ i, (i < length failures)%nat →
     decisions (Restart policy) failures 0 !! i =
       Some (if decide (i < max_of policy)%nat then After (duration (backoff policy) (N.of_nat i))
             else LimitExceeded)) ∧
  (∀ f rest restarts, ends_streak policy f →
     decisions (Restart policy) (f :: rest) restarts =
       After (duration (backoff policy) 0) :: decisions (Restart policy) rest 1) ∧
  decisions Config.Stop failures 0 = replicate (length failures) NotConfigured ∧
  (∀ up now restarts, (restarts ≤ Npos (max_restarts policy))%N →
     ((next_restart (Restart policy) up now restarts).2 ≤ Npos (max_restarts policy))%N).
Proof.
  intros Hf. split_and!.
  - intros i Hi. change 0%N with (N.of_nat 0). rewrite decisions_streak by (try done; lia).
    rewrite !list_lookup_fmap, lookup_seq_lt by done. simpl. unfold streak_answer.
    repeat case_decide; try lia; [|done]. do 4 f_equal. lia.
  - intros [up now] rest restarts He. cbn [decisions]. by rewrite next_restart_reset.
  - clear Hf. induction failures as [|[up now] failures IH]; simpl; [done|]. by rewrite IH.
  - intros up now restarts Hr. unfold next_restart.
    assert (∀ n, (n ≤ Npos (max_restarts policy))%N →
              ((if decide (Npos (max_restarts policy) ≤ n)%N then (LimitExceeded, n)
                else (After (duration (backoff policy) n), (n + 1)%N)).2 ≤ Npos (max_restarts policy))%N) as Hb.
    { intros n Hn. case_decide; simpl; lia. }
    apply Hb. destruct up; [case_decide|]; lia.
Qed.

Lemma streaks_are_limited_witness :
  decisions (Restart (new_policy 2)) [(None, 0); (Some 5, 6); (None, 7)]%N 0 =
    [After (duration_from_millis 250); After (duration_from_millis 500); LimitExceeded] ∧
  decisions (Restart (new_policy 2)) [(None, 0); (Some 5, 6); (None, 7)]%N 0 !! 1%nat =
    Some (After (duration_from_millis 500)).
Proof.
  split; [vm_compute; reflexivity|].
  refine (proj1 (streaks_are_limited (new_policy 2) [(None, 0); (Some 5, 6); (None, 7)]%N _) 1%nat _).
  - repeat constructor; vm_compute; try (intros []; done); intros H; by apply H.
  - simpl. lia.
Defined.

(** A parent's stop always wins over the end of the wait, and a zero delay does not skip the check. *)
Lemma await_backoff_stop delay timer : await_backoff delay true timer = Ready StoppedByParent.
Proof. unfold await_backoff. by destruct (duration_is_zero delay). Qed.

Lemma await_backoff_continue delay stop timer :
  await_backoff delay stop timer = Ready NotInterrupted ↔
  stop = false ∧ (delay = 0%N ∨ timer = true).
Proof.
  unfold await_backoff, duration_is_zero. destruct (N.eqb_spec delay 0), stop, timer; naive_solver.
Qed.
