(* ===== verification/RuntimeMoves.v ===== *)
(** The atomic moves of the runtime: every step of [Runtime] is a sequence of moves, each of which
    changes one cell, one registry or one stop channel and states the conditions under which the code
    makes it. The invariants of [RuntimeTree], [RuntimeWatch] and [RuntimeTrace] are proved move by
    move and carried over to steps and runs by [exec_moves]. *)
From S2P Require Import Prelude Backoff Config Flume Quota Actor Mailbox MailboxSpec Tokio Runtime.

Lemma send_message_effect {F : Flume} {FL : FlumeLaws F} {M : Type} forced (m : M) b r mb :
  send_message forced m b = (r, mb) →
  watcher_registry mb = watcher_registry b ∧ mopen mb = mopen b ∧
  mqueue mb = mqueue b ++ (if is_ok r then [Message m] else []) ∧
  (mopen b = false → is_ok r = false).
Proof. destruct forced; [apply try_send_forced_message_effect|apply try_send_message_effect]. Qed.

Section Moves.
Context {F : Flume} {TW : TokioWatch} {TO : TokioOneshot}.
Context {M B S E : Type} {Rq : Type} {An : Rq → Type}.
#[local] Abbreviation World := (World (M:=M) (B:=B) (S:=S) (E:=E) (Rq:=Rq) (An:=An)).
#[local] Abbreviation Cell := (Cell (M:=M) (B:=B) (S:=S) (E:=E) (Rq:=Rq) (An:=An)).
#[local] Abbreviation Phase := (Phase (M:=M) (B:=B) (S:=S) (E:=E) (Rq:=Rq) (An:=An)).
Implicit Types (w : World) (c : Cell) (p : Phase) (a b : ActorId).

(** ** Kinds of phases *)

(** User code runs. *)
Definition handling p : bool :=
  match p with Initializing _ | Receiving _ _ => true | _ => false end.

(** The task has not started to terminate. *)
Definition running p : bool :=
  match p with Terminating _ | Done => false | _ => true end.

(** The watchers have been taken. *)
Definition closed p : bool :=
  match p with Terminating (TSignal _) | Done => true | _ => false end.

(** The stop channel whose receivers the task waits for. *)
Definition awaiting p : option StopKey :=
  match p with
  | StoppingChildren old _ | Terminating (TAwaitChildren old) => Some old
  | _ => None
  end.

(** Control transitions without any other effect. *)
Inductive quiet : Phase → Phase → Prop :=
  | quiet_running p p' :
      running p = true → awaiting p = None → running p' = true → awaiting p' = None → quiet p p'
  | quiet_terminate p :
      running p = true → awaiting p = None → quiet p (Terminating TDrain)
  | quiet_deregistered :
      quiet (Terminating (TDeregister [])) (Terminating TStopChildren).

(** Where a task goes once its children are gone. *)
Definition after_children p : option Phase :=
  match p with
  | StoppingChildren _ delay => Some (BackingOff delay)
  | Terminating (TAwaitChildren _) => Some (Terminating TDropContext)
  | _ => None
  end.

(** Entering the wait for the children: restarting, or as part of the termination. *)
Inductive stopping (old : StopKey) (c : Cell) : Phase → bool → Prop :=
  | stopping_restart delay :
      phase c = Restarting delay → stopping old c (StoppingChildren old delay) true
  | stopping_terminate :
      phase c = Terminating TStopChildren →
      stopping old c (Terminating (TAwaitChildren old)) false.

(** Past its last poll of the stop, the task still takes an incoming if there is one, or still restarts its actor up to
    the wait before [init]. *)
Definition committed c : bool :=
  match phase c with
  | NextIncoming _ _ => if stop_poll c is Polled then true else false
  | Restarting _ => true
  | _ => false
  end.

(** Transitions for which the stop has been polled. *)
Definition commits p p' : bool :=
  match p' with
  | Restarting _ => true
  | Initializing _ => if p is Initializing _ then false else true
  | _ => false
  end.

(** What an incoming is for its receiver, and what is left of the receiver's cell. *)
Definition accepted c (i : Incoming M) : bool :=
  match i with
  | Terminated other => bool_decide (is_Some (watched c !! other))
  | Message _ => true
  end.
Definition received c (mb : MailboxState Sink M) (i : Incoming M) : Cell :=
  match i with
  | Terminated other => set_watched (set_mailbox c mb) (delete other (watched c))
  | Message _ => set_mailbox c mb
  end.

Definition sends w (src : Source) : Prop :=
  match src with
  | FromActor a => ∃ c, cells w !! a = Some c ∧ handling (phase c) = true
  | FromOutside => True
  end.

(** ** Moves *)

Inductive Move w : World → list (Obs (M:=M)) → Prop :=
  | MTell src to c m forced r mb (logged : bool) :
      cells w !! to = Some c → sends w src → send_message forced m (mailbox c) = (r, mb) →
      Move w (put_cell to (set_mailbox c mb) w)
        match r with
        | Ok _ => [OEnqueued src to (Message m)]
        | Err e => if logged then [ODeadLetter src to m e] else []
        end
  | MQuiet a c p :
      cells w !! a = Some c → quiet (phase c) p → (commits (phase c) p = true → stopped_by_parent c w = false) →
      Move w (put_cell a (set_phase c p) w) []
  | MLocals a c n q :
      cells w !! a = Some c → (committed (set_stop_poll c q) = true → committed c = true ∨ stopped_by_parent c w = false) →
      Move w (put_cell a (set_stop_poll (set_restarts c n) q) w) []
  | MSpawn a c id (act : B) config p :
      cells w !! a = Some c → handling (phase c) = true → fresh id w = true → handling p = true →
      let child := mk_cell (handle_clone (handle_clone (make_mailbox (mailbox_capacity config)))) ∅
                     0%nat act config (ContextKey a (generation c)) 0%N p Unpolled in
      let w1 := hold_parent (ContextKey a (generation c)) w in
      Move w (put_cell id child
                (set_stop_channels w1 (<[ContextKey id 0 := watch_channel]> (stop_channels w1)))) []
  | MRegister a c b o :
      cells w !! a = Some c → handling (phase c) = true → cells w !! b = Some o →
      Move w (put_cell b (set_mailbox o (set_registry (mailbox o)
                (registry_add (make_watcher a) (watcher_registry (mailbox o))).2)) w) []
  | MWatched a c b o :
      cells w !! a = Some c → handling (phase c) = true → cells w !! b = Some o →
      is_Some (registered (watcher_registry (mailbox o)) !! a) →
      Move w (put_cell a (set_watched c (<[b := b]> (watched c))) w) [OWatched a b]
  | MWatchedClosed a c b o r mb :
      cells w !! a = Some c → handling (phase c) = true → cells w !! b = Some o →
      watcher_registry (mailbox o) = None → send_terminated b (mailbox c) = (r, mb) →
      Move w (put_cell a (set_mailbox (set_watched c (<[b := b]> (watched c))) mb) w)
        (match r with Ok _ => [OEnqueued (FromActor a) a (Terminated b)] | Err _ => [] end ++
         [OWatched a b])
  | MUnwatched a c b :
      cells w !! a = Some c → handling (phase c) = true →
      Move w (put_cell a (set_watched c (delete b (watched c))) w) [OUnwatched a b]
  | MDeregister a c b o :
      cells w !! a = Some c → (running (phase c) = true → watched c !! b = None) →
      cells w !! b = Some o →
      Move w (put_cell b (set_mailbox o (set_registry (mailbox o)
                (registry_remove a (watcher_registry (mailbox o))))) w) []
  | MDeregistered a c b rest :
      cells w !! a = Some c → phase c = Terminating (TDeregister (b :: rest)) →
      Move w (put_cell a (set_phase c (Terminating (TDeregister rest))) w) []
  | MReceive a c state up_since mb i :
      cells w !! a = Some c → phase c = NextIncoming state up_since →
      stop_poll c = Polled → recv (mailbox c) = (Ready (Some i), mb) →
      Move w (put_cell a (set_stop_poll (received c mb i) Unpolled) w)
        [if accepted c i then OReceived a i
         else match i with Terminated other => OStale a other | Message _ => OReceived a i end]
  | MStopChildren a c p (restart : bool) delay n :
      cells w !! a = Some c →
      stopping (ContextKey a (generation c)) c p restart →
      Move w (put_cell a (set_phase (set_generation c (Datatypes.S (generation c))) p)
                (stop_children a c w).2)
        (if restart then [ORestarting a n delay] else [])
  | MAwaited a c old p ch :
      cells w !! a = Some c → awaiting (phase c) = Some old → after_children (phase c) = Some p →
      stop_channels w !! old = Some ch → watch_closed ch = Ready () →
      Move w (put_cell a (set_phase c p) (on_channel old watch_drop_tx w)) []
  | MDrain a c l mb :
      cells w !! a = Some c → phase c = Terminating TDrain → split_drain (mailbox c) = (l, mb) →
      Move w (put_cell a (set_phase (set_mailbox c mb) (Terminating TDropRx)) w) [ODrained a l]
  | MDropRx a c :
      cells w !! a = Some c → phase c = Terminating TDropRx →
      Move w (put_cell a (set_phase (set_watched (set_mailbox c (split_drop_rx (mailbox c))) ∅)
                (Terminating (TDeregister (map_to_list (watched c)).*2))) w) []
  | MDropContext a c :
      cells w !! a = Some c → phase c = Terminating TDropContext →
      Move w (put_cell a (set_phase c (Terminating TTakeWatchers))
                (on_channel (ContextKey a (generation c)) (watch_drop_tx ∘ watch_drop_rx) w)) []
  | MTakeWatchers a c ws mb :
      cells w !! a = Some c → phase c = Terminating TTakeWatchers →
      take_watchers (mailbox c) = (ws, mb) →
      Move w (put_cell a (set_phase (set_mailbox c mb) (Terminating (TSignal ws))) w) []
  | MSignal a c x rest to t r mb :
      cells w !! a = Some c → phase c = Terminating (TSignal (x :: rest)) →
      terminated_sink x = MailboxSink to →
      let w1 := put_cell a (set_phase c (Terminating (TSignal rest))) w in
      cells w1 !! to = Some t → send_terminated a (mailbox t) = (r, mb) →
      Move w (put_cell to (set_mailbox t mb) w1)
        match r with Ok _ => [OEnqueued (FromActor a) to (Terminated a)] | Err _ => [] end
  | MSignalRoot a c x rest :
      cells w !! a = Some c → phase c = Terminating (TSignal (x :: rest)) →
      terminated_sink x = RootSink →
      let w1 := put_cell a (set_phase c (Terminating (TSignal rest))) w in
      Move w (drop_root_sink (root_signal w1).1) (root_signal w1).2
  | MDone a c :
      cells w !! a = Some c → phase c = Terminating (TSignal []) →
      Move w (put_cell a (set_phase c Done) (release_parent (parent_stopping c) w)) [OTerminated a]
  | MWatchRoot c :
      cells w !! root w = Some c → owner w = Constructing →
      let watcher := watcher_new (root_watcher w) RootSink in
      watcher_registry (mailbox c) ≠ None →
      Move w (set_owner (put_cell (root w) (set_mailbox c (set_registry (mailbox c)
                (registry_add watcher (watcher_registry (mailbox c))).2)) w) Owning) []
  | MWatchRootClosed c :
      cells w !! root w = Some c → owner w = Constructing →
      watcher_registry (mailbox c) = None →
      Move w (drop_root_sink (set_owner (root_signal w).1 Owning)) (root_signal w).2
  | MStop :
      owner w = Owning → Move w (on_channel SystemKey watch_send_replace w) [OStopRequested]
  | MDropSystem :
      owner w = Owning → Move w (drop_system w) [].

(** Sequences of moves, with everything they did. *)
Inductive Moves : World → World → list (Obs (M:=M)) → Prop :=
  | moves_nil w : Moves w w []
  | moves_cons w w1 w2 o1 o2 : Move w w1 o1 → Moves w1 w2 o2 → Moves w w2 (o1 ++ o2).

Lemma moves_one w w' o : Move w w' o → Moves w w' o.
Proof. intros Hm. rewrite <-(app_nil_r o). econstructor; [done|constructor]. Qed.

Lemma moves_app w w1 w2 o1 o2 : Moves w w1 o1 → Moves w1 w2 o2 → Moves w w2 (o1 ++ o2).
Proof.
  induction 1; intros H2; [done|]. rewrite <-(assoc_L (++)). econstructor; eauto.
Qed.

Lemma moves_invariant (I : World → Prop) :
  (∀ w w' o, I w → Move w w' o → I w') → ∀ w w' o, I w → Moves w w' o → I w'.
Proof. intros Hm w w' o HI Hms. induction Hms; eauto. Qed.

(** The same for a property of the trace so far. *)
Lemma moves_trace_invariant (I : World → list (Obs (M:=M)) → Prop) :
  (∀ w t w' o, I w t → Move w w' o → I w' (t ++ o)) →
  ∀ w w' o t, I w t → Moves w w' o → I w' (t ++ o).
Proof.
  intros Hm w w' o t HI Hms. revert t HI. induction Hms as [w|w w1 w2 o1 o2 Hmv _ IH]; intros t HI.
  - by rewrite app_nil_r.
  - rewrite (assoc_L (++)). eauto.
Qed.

(** ** Cells *)

Lemma goto_put a c p w : cells w !! a = Some c → goto a p w = put_cell a (set_phase c p) w.
Proof.
  intros Hc. unfold goto, put_cell, set_cells. f_equal.
  apply alter_insert_Some || (apply map_eq; intros i; destruct (decide (i = a)) as [->|];
    [by rewrite lookup_alter_eq, lookup_insert_eq, Hc | by rewrite lookup_alter_ne, lookup_insert_ne]).
Qed.

Lemma on_registry_put a c f w :
  cells w !! a = Some c →
  on_registry a f w =
    put_cell a (set_mailbox c (set_registry (mailbox c) (f (watcher_registry (mailbox c))))) w.
Proof.
  intros Hc. unfold on_registry, put_cell, set_cells. f_equal.
  apply map_eq; intros i; destruct (decide (i = a)) as [->|];
    [by rewrite lookup_alter_eq, lookup_insert_eq, Hc | by rewrite lookup_alter_ne, lookup_insert_ne].
Qed.

Lemma put_put a c c' w : put_cell a c (put_cell a c' w) = put_cell a c w.
Proof. unfold put_cell, set_cells; simpl. f_equal. apply insert_insert_eq. Qed.

Lemma lookup_put a c w b :
  cells (put_cell a c w) !! b = if decide (a = b) then Some c else cells w !! b.
Proof. simpl. case_decide; subst; [apply lookup_insert_eq|by apply lookup_insert_ne]. Qed.

Lemma cells_on_channel k f w : cells (on_channel k f w) = cells w.
Proof. done. Qed.

Lemma put_on_channel a c k f w : put_cell a c (on_channel k f w) = on_channel k f (put_cell a c w).
Proof. done. Qed.

Lemma put_same a c w : cells w !! a = Some c → put_cell a c w = w.
Proof. intros Hc. unfold put_cell, set_cells. rewrite insert_id by done. by destruct w. Qed.

(** A context remembers a registry under the id of its actor. *)
Definition addresses_ok w : Prop :=
  ∀ a c k r, cells w !! a = Some c → watched c !! k = Some r → r = k ∧ is_Some (cells w !! k).

Lemma addresses_ok_insert w w' a c :
  cells w' = <[a := c]> (cells w) →
  (∀ k r, watched c !! k = Some r → r = k ∧ is_Some (cells w !! k)) →
  addresses_ok w → addresses_ok w'.
Proof.
  intros Hw Hc Hok x cx k r. rewrite Hw, !lookup_insert. intros Hx Hk.
  assert (r = k ∧ is_Some (cells w !! k)) as [-> ?] by (case_decide; simplify_eq; eauto).
  split; [done|]. destruct (decide (a = k)); [by eexists|done].
Qed.

Lemma addresses_ok_cells w w' : cells w' = cells w → addresses_ok w → addresses_ok w'.
Proof. unfold addresses_ok. by intros ->. Qed.

Lemma cells_release_root_sender w : cells (release_root_sender w) = cells w.
Proof. unfold release_root_sender. by destruct (owner w), (sink_alive w). Qed.

Lemma cells_drop_system w : cells (drop_system w) = cells w.
Proof. unfold drop_system. by rewrite cells_release_root_sender. Qed.

Lemma cells_drop_root_sink w : cells (drop_root_sink w) = cells w.
Proof. unfold drop_root_sink. by rewrite cells_release_root_sender. Qed.

Lemma cells_root_signal w : cells (root_signal w).1 = cells w.
Proof. unfold root_signal. by destruct (terminated_tx w). Qed.

Lemma addresses_ok_move w w' o : addresses_ok w → Move w w' o → addresses_ok w'.
Proof.
  intros Hok Hm.
  assert (∀ x cx k r, cells w !! x = Some cx → watched cx !! k = Some r →
            r = k ∧ is_Some (cells w !! k)) as Hall by done.
  destruct Hm; simpl in *;
    try (eapply addresses_ok_cells; [|done];
         by rewrite ?cells_drop_root_sink, ?cells_drop_system; simpl;
            rewrite ?cells_root_signal);
    try (eapply addresses_ok_insert; [done| |done]; simpl; by eauto).
  - eapply addresses_ok_insert; [done| |done]; simpl. intros k r'. rewrite lookup_insert.
    intros Hk; case_decide; simplify_eq; eauto.
  - eapply addresses_ok_insert; [done| |done]; simpl. intros k r'. rewrite lookup_insert.
    intros Hk; case_decide; simplify_eq; eauto.
  - eapply addresses_ok_insert; [done| |done]; simpl. intros k r' [_ Hk]%lookup_delete_Some. eauto.
  - eapply addresses_ok_insert; [done| |done]; simpl. destruct i; simpl; [by eauto|].
    intros k r' [_ Hk]%lookup_delete_Some. eauto.
  - eapply addresses_ok_insert; [simpl; apply insert_insert_eq| |done]. simpl. by eauto.
  - eapply (addresses_ok_insert w1); [done| |].
    + simpl. intros k r' Hk. rewrite lookup_insert.
      enough (r' = k ∧ is_Some (cells w !! k)) as [-> ?]
        by (split; [done|]; destruct (decide (a = k)); [by eexists|done]).
      subst w1. simpl in H2. apply lookup_insert_Some in H2 as [[<- <-]|[_ ?]]; simpl in *; eauto.
    + eapply (addresses_ok_insert w); [done| |done]. simpl. eauto.
  - subst w1. apply (addresses_ok_insert w _ a (set_phase c (Terminating (TSignal rest)))); [|by eauto|done].
    rewrite cells_drop_root_sink, cells_root_signal. done.
Qed.

Lemma addresses_ok_moves w w' o : addresses_ok w → Moves w w' o → addresses_ok w'.
Proof. apply moves_invariant. intros ????. by apply addresses_ok_move. Qed.

(** ** Every step is a sequence of moves *)

Lemma set_restarts_same c : set_restarts c (restarts c) = c.
Proof. by destruct c. Qed.
Lemma set_stop_poll_same c : set_stop_poll c (stop_poll c) = c.
Proof. by destruct c. Qed.

Lemma tell_moves src to m w w' o :
  sends w src → tell src to m w = Some (w', o) →
  Moves w w' o ∧
  ∀ a c, cells w !! a = Some c → ∃ c', cells w' !! a = Some c' ∧ phase c' = phase c.
Proof.
  intros Hs Ht. unfold tell in Ht. apply bind_Some in Ht as (c & Hc & Ht).
  destruct (try_send_message m (mailbox c)) as [r mb] eqn:Hm. simplify_eq.
  split.
  - apply moves_one. pose proof (MTell w src (actor_id to) c m false r mb true Hc Hs Hm) as Hmv. by destruct r.
  - intros a ca Ha. rewrite lookup_put. case_decide; simplify_eq; eauto.
Qed.

Lemma try_tell_moves forced src to m w ok w' o :
  sends w src → try_tell forced src to m w = Some (ok, w', o) →
  Moves w w' o ∧
  ∀ a c, cells w !! a = Some c → ∃ c', cells w' !! a = Some c' ∧ phase c' = phase c.
Proof.
  intros Hs Ht. unfold try_tell in Ht. apply bind_Some in Ht as (c & Hc & Ht).
  destruct (send_message forced m (mailbox c)) as [r mb] eqn:Hm. simplify_eq.
  split.
  - apply moves_one. pose proof (MTell w src (actor_id to) c m forced r mb false Hc Hs Hm) as Hmv. by destruct r.
  - intros a ca Ha. rewrite lookup_put. case_decide; simplify_eq; eauto.
Qed.

Lemma watch_moves a c other w ok w' o :
  cells w !! a = Some c → handling (phase c) = true →
  watch a other w = Some (ok, w', o) →
  Moves w w' o ∧ ∃ c', cells w' !! a = Some c' ∧ phase c' = phase c.
Proof.
  intros Ha Hh Hw. unfold watch in Hw. apply bind_Some in Hw as (oc & Ho & Hw).
  rewrite (on_registry_put _ _ _ _ Ho) in Hw. set (b := actor_id other) in *.
  set (oc' := set_mailbox oc _) in *. simpl in Hw.
  apply bind_Some in Hw as (c1 & Hc1 & Hw). 
  assert (phase c1 = phase c ∧ watched c1 = watched c) as [Hp Hwd].
  { apply lookup_insert_Some in Hc1 as [[Hab <-]|[_ ?]]; simplify_eq; done. }
  destruct (watcher_registry (mailbox oc)) as [ws|] eqn:Hreg.
  - (* registered *)
    assert (registered (registry_add (make_watcher a) (Some ws)).2 !! a =
              Some (default (make_watcher a) (ws !! a))) as Hin
      by (by apply (registry_add_registered (make_watcher a))).
    assert (is_ok (registry_add (make_watcher a) (Some ws)).1 = true) as Hok
      by (by rewrite registry_add_ok).
    rewrite Hok in Hw. simplify_eq.
    assert (cells (put_cell b oc' w) !! b = Some oc') as Hb by (by rewrite lookup_put, decide_True).

    split; [|eexists; rewrite lookup_put, decide_True by done; by split].
    apply (moves_app _ (put_cell b oc' w) _ [] _); apply moves_one.
    + subst oc'. rewrite <-Hreg. eapply (MRegister w a c b oc); done.
    + eapply (MWatched _ a c1 b oc'); [done|congruence|done|]. subst oc'. simpl in Hin |- *. rewrite Hin. by eexists.
  - (* closed *)
    simpl in Hw.
    assert (oc' = oc) as ->.
    { clear -Hreg. subst oc'. destruct oc as [[tx reg] ????????]. simpl in *. by subst. }
    rewrite (put_same b oc w Ho) in Hw. simpl in Hc1. rewrite insert_id in Hc1 by done.
    simplify_eq. unfold signal_mailbox in Hw. simpl in Hw.
    rewrite lookup_insert_eq in Hw. simpl in Hw.
    destruct (send_terminated b (mailbox c)) as [r mb] eqn:Hs. rewrite put_put in Hw. simplify_eq/=.
    split; [apply moves_one; eapply (MWatchedClosed w a c b oc r mb); done|].
    eexists. split; [apply lookup_insert_eq|done].
Qed.

Lemma unwatch_moves a c other w w' o :
  addresses_ok w → cells w !! a = Some c → handling (phase c) = true →
  unwatch a other w = Some (w', o) →
  Moves w w' o ∧ ∃ c', cells w' !! a = Some c' ∧ phase c' = phase c.
Proof.
  intros Hok Ha Hh Hw. unfold unwatch in Hw. rewrite Ha in Hw. simpl in Hw.
  set (b := actor_id other) in *. set (c1 := set_watched c (delete b (watched c))) in *.
  assert (Move w (put_cell a c1 w) [OUnwatched a b]) as Hm by (by apply MUnwatched).
  destruct (watched c !! b) as [r|] eqn:Hb; simplify_eq.
  - destruct (Hok _ _ _ _ Ha Hb) as [-> [oc Hoc]].
    assert (∃ oc', cells (put_cell a c1 w) !! b = Some oc') as [oc' Hoc'].
    { rewrite lookup_put. case_decide; eauto. }
    rewrite (on_registry_put _ _ _ _ Hoc'). split.
    + apply (moves_app _ (put_cell a c1 w) _ [OUnwatched a b] []); apply moves_one; [done|].
      eapply (MDeregister _ a c1 b oc'); [by rewrite lookup_put, decide_True| |done].
      intros _. apply lookup_delete_eq.
    + rewrite lookup_put. case_decide as Hab.
      * eexists. split; [done|]. rewrite lookup_put, decide_True in Hoc' by done. by simplify_eq.
      * exists c1. by rewrite lookup_put, decide_True.
  - split; [|by eauto]. apply moves_one.
    assert (put_cell a c1 w' = w') as Heq.
    { subst c1. rewrite delete_id by done. rewrite put_same; [done|]. rewrite Ha. by destruct c. }
    by rewrite Heq in Hm.
Qed.

Context {A : Actor M B S E Rq An}.

Lemma handler_step_moves {R} e a c (h h' : Handler R) w w' o :
  addresses_ok w → cells w !! a = Some c → handling (phase c) = true →
  handler_step e a h w = Some (h', w', o) →
  Moves w w' o ∧ ∃ c', cells w' !! a = Some c' ∧ phase c' = phase c.
Proof.
  intros Hok Ha Hh Hs. destruct h as [r| |to m k|forced to m k|k|act config k|other k|other k|q k]; simpl in Hs; try done.
  - destruct (tell (FromActor a) to m w) as [[w1 o1]|] eqn:Ht; simplify_eq/=.
    apply tell_moves in Ht as [Hm Hc]; [|simpl; by eauto]. split; [done|]. by apply Hc.
  - destruct (try_tell forced (FromActor a) to m w) as [[[ok w1] o1]|] eqn:Ht; simplify_eq/=.
    apply try_tell_moves in Ht as [Hm Hc]; [|simpl; by eauto]. split; [done|]. by apply Hc.
  - simplify_eq. split; [constructor|]. by eexists.
  - rewrite Ha in Hs. simpl in Hs. destruct (fresh (new_id e) w) eqn:Hf; simplify_eq.
    split; [apply moves_one, (MSpawn w a c (new_id e) act config); done|].
    unfold fresh in Hf. case_bool_decide as Hfr; [|done].
    exists c. split; [|done]. unfold spawn. rewrite lookup_put. rewrite decide_False by naive_solver.
    done.
  - destruct (watch a other w) as [[[ok w1] o1]|] eqn:Ht; simplify_eq/=. by eapply watch_moves.
  - destruct (unwatch a other w) as [[w1 o1]|] eqn:Ht; simplify_eq/=. by eapply unwatch_moves.
  - simplify_eq. split; [constructor|]. by eexists.
Qed.

Lemma on_registry_missing a f w : cells w !! a = None → on_registry a f w = w.
Proof.
  intros Hc. unfold on_registry, set_cells. rewrite alter_id; [by destruct w|].
  intros c Hc'. congruence.
Qed.

Lemma stop_children_put a c p w :
  put_cell a (set_phase (set_generation c (Datatypes.S (generation c))) p) (stop_children a c w).2 =
  goto a p (stop_children a c w).2.
Proof. rewrite (goto_put _ (set_generation c (Datatypes.S (generation c)))); [done|]. simpl. apply lookup_insert_eq. Qed.

Lemma await_restart_moves e a c up_since w w' o :
  cells w !! a = Some c → phase c = Failed up_since →
  await_restart e a c up_since w = (w', o) → Moves w w' o.
Proof.
  intros Ha Hp Hw. unfold await_restart in Hw.
  destruct (next_restart _ _ _ _) as [d n].
  set (c1 := set_restarts c n) in *. set (w1 := put_cell a c1 w) in *.
  assert (Moves w w1 []) as H1.
  { apply moves_one. subst w1 c1. rewrite <-(set_stop_poll_same (set_restarts c n)). apply MLocals; [done|].
    unfold committed. simpl. by rewrite Hp. }
  assert (cells w1 !! a = Some c1) as Ha1 by (subst w1; by rewrite lookup_put, decide_True).
  assert (Moves w1 (goto a (Terminating TDrain) w1) []) as H2.
  { rewrite (goto_put _ _ _ _ Ha1). apply moves_one, MQuiet; [done| |done].
    subst c1. simpl. rewrite Hp. by apply quiet_terminate. }
  destruct d as [delay| |]; simplify_eq; try (by apply (moves_app _ _ _ [] [] H1 H2)).
  destruct (stopped_by_parent c1 w1) eqn:Hst; simplify_eq; [by apply (moves_app _ _ _ [] [] H1 H2)|].
  apply (moves_app _ _ _ [] [] H1), moves_one. rewrite (goto_put _ _ _ _ Ha1). apply MQuiet; [done| |done].
  subst c1. simpl. rewrite Hp. by apply quiet_running.
Qed.

Lemma restart_moves a c delay w :
  cells w !! a = Some c → phase c = Restarting delay → Moves w (restart a c delay w).1 (restart a c delay w).2.
Proof.
  intros Ha Hp. pose proof (MStopChildren w a c _ true delay (restarts c) Ha (stopping_restart _ _ _ Hp)) as Hm.
  rewrite stop_children_put in Hm. by apply moves_one.
Qed.

Lemma signal_mailbox_some src to about w r w' o :
  signal_mailbox src to about w = Some (r, w', o) →
  ∃ t mb, cells w !! to = Some t ∧ send_terminated about (mailbox t) = (r, mb) ∧
    w' = put_cell to (set_mailbox t mb) w ∧
    o = match r with Ok _ => [OEnqueued src to (Terminated about)] | Err _ => [] end.
Proof.
  unfold signal_mailbox. intros (t & Ht & Hs)%bind_Some.
  destruct (send_terminated about (mailbox t)) as [r' mb] eqn:Hsend. simplify_eq. by eauto 10.
Qed.

Lemma await_closed_some old w w' :
  await_closed old w = Some w' →
  ∃ ch, stop_channels w !! old = Some ch ∧ watch_closed ch = Ready () ∧
    w' = on_channel old watch_drop_tx w.
Proof.
  unfold await_closed. intros (ch & Hch & Hw)%bind_Some.
  destruct (watch_closed ch) as [|[]] eqn:Hc; simplify_eq. by eauto.
Qed.

Lemma terminate_step_moves a c t w w' o :
  cells w !! a = Some c → phase c = Terminating t →
  terminate_step a c t w = Some (w', o) → Moves w w' o.
Proof.
  intros Ha Hp Hw. destruct t as [| |[|b rest]| |old| | |[|x rest]]; simpl in Hw.
  - destruct (split_drain (mailbox c)) as [l mb] eqn:Hd. simplify_eq. by eapply moves_one, MDrain.
  - simplify_eq. by apply moves_one, (MDropRx w a c).
  - simplify_eq. rewrite (goto_put _ _ _ _ Ha). apply moves_one, MQuiet; [done| |done].
    rewrite Hp. by apply quiet_deregistered.
  - simplify_eq.
    assert (∃ c', cells (on_registry b (registry_remove a) w) !! a = Some c' ∧ phase c' = phase c ∧
              Moves w (on_registry b (registry_remove a) w) []) as (c' & Hc' & Hp' & Hm).
    { destruct (cells w !! b) as [ob|] eqn:Hb.
      - rewrite (on_registry_put _ _ _ _ Hb), lookup_put.
        assert (Moves w (put_cell b (set_mailbox ob (set_registry (mailbox ob)
                  (registry_remove a (watcher_registry (mailbox ob))))) w) []).
        { apply moves_one, (MDeregister w a c b ob); [done| |done]. by rewrite Hp. }
        case_decide; simplify_eq; eauto.
      - rewrite on_registry_missing by done. exists c. split_and!; [done..|constructor]. }
    apply (moves_app _ _ _ [] [] Hm), moves_one. rewrite (goto_put _ _ _ _ Hc').
    eapply MDeregistered; [done|]. by rewrite Hp', Hp.
  - simplify_eq.
    assert (Move w (put_cell a (set_phase (set_generation c (Datatypes.S (generation c)))
              (Terminating (TAwaitChildren (ContextKey a (generation c))))) (stop_children a c w).2) [])
      as Hm.
    { apply (MStopChildren w a c _ false 0%N 0%N Ha). by apply stopping_terminate. }
    rewrite stop_children_put in Hm. by apply moves_one.
  - destruct (await_closed old w) as [w1|] eqn:Hcl; simplify_eq/=.
    apply await_closed_some in Hcl as (ch & Hch & Hcl & ->).
    rewrite (goto_put _ c) by done. eapply moves_one, MAwaited; [done|by rewrite Hp..|done|done].
  - simplify_eq. rewrite (goto_put _ c) by done. by apply moves_one, (MDropContext w a c).
  - simplify_eq. by eapply moves_one, MTakeWatchers.
  - simplify_eq. rewrite (goto_put _ _ _ _ Ha). by apply moves_one, (MDone w a c).
  - rewrite (goto_put _ _ _ _ Ha) in Hw. destruct (terminated_sink x) as [to|] eqn:Hx.
    + destruct (signal_mailbox _ _ _ _) as [[[r w1] o1]|] eqn:Hs; simplify_eq/=.
      apply signal_mailbox_some in Hs as (t & mb & Ht & Hs & -> & ->).
      by eapply moves_one, MSignal.
    + destruct (root_signal _) as [w1 o1] eqn:Hr. simplify_eq.
      pose proof (MSignalRoot w a c x rest Ha Hp Hx) as Hm. simpl in Hm. rewrite Hr in Hm.
      by apply moves_one.
Qed.

(** A handler's action followed by the change of the task's phase to the rest of the handler. *)
Lemma handler_then_goto {R} e a c (h : Handler R) (back : Handler R → Phase) w w' o :
  addresses_ok w → cells w !! a = Some c → handling (phase c) = true →
  (∀ h', running (back h') = true ∧ awaiting (back h') = None ∧ commits (phase c) (back h') = false) →
  ('(h, w, obs) ← handler_step e a h w; Some (goto a (back h) w, obs)) = Some (w', o) →
  Moves w w' o.
Proof.
  intros Hok Ha Hh Hback Hs.
  destruct (handler_step e a h w) as [[[h' w1] o1]|] eqn:Hstep; simplify_eq/=.
  apply (handler_step_moves e a c) in Hstep as (Hm & c' & Hc' & Hp'); [|done..].
  rewrite (goto_put _ _ _ _ Hc'), <-(app_nil_r o). eapply moves_app; [done|].
  destruct (Hback h') as (? & ? & Hcom). apply moves_one, MQuiet; [done| |by rewrite Hp', Hcom].
  rewrite Hp'. apply quiet_running; try done; by destruct (phase c).
Qed.

Lemma goto_moves a c p w :
  cells w !! a = Some c → quiet (phase c) p → (commits (phase c) p = true → stopped_by_parent c w = false) →
  Moves w (goto a p w) [].
Proof. intros Ha Hq Hcom. rewrite (goto_put _ _ _ _ Ha). by apply moves_one, MQuiet. Qed.

Lemma poll_moves a c q w :
  cells w !! a = Some c → (committed (set_stop_poll c q) = true → committed c = true ∨ stopped_by_parent c w = false) →
  Moves w (put_cell a (set_stop_poll c q) w) [].
Proof. intros Ha Hq. rewrite <-(set_restarts_same c) at 1. by apply moves_one, MLocals. Qed.

Lemma deliver_moves a c state up_since mb i w :
  cells w !! a = Some c → phase c = NextIncoming state up_since →
  stop_poll c = Polled → recv (mailbox c) = (Ready (Some i), mb) →
  Moves w (deliver a (set_mailbox c mb) state up_since i w).1
    (deliver a (set_mailbox c mb) state up_since i w).2.
Proof.
  intros Ha Hp Hst Hr. pose proof (MReceive w a c state up_since mb i Ha Hp Hst Hr) as Hm.
  set (c1 := set_stop_poll (received c mb i) Unpolled) in *.
  assert (∀ h, Moves (put_cell a c1 w) (put_cell a (set_phase c1 (Receiving h up_since)) w) []) as Hgo.
  { intros h. assert (cells (put_cell a c1 w) !! a = Some c1) as Hl by (by rewrite lookup_put, decide_True).
    assert (phase c1 = phase c) as Hpr by (by subst c1; destruct i).
    rewrite <-(put_put a (set_phase _ _) c1 w). apply moves_one, MQuiet; [done| |done].
    rewrite Hpr, Hp. by apply quiet_running. }
  unfold deliver, take_watched_for. subst c1. destruct i as [m|other]; simpl in *.
  - rewrite <-(app_nil_r [OReceived _ _]). eapply moves_app; [by apply moves_one|by apply Hgo].
  - case_bool_decide; simpl in *.
    + rewrite <-(app_nil_r [OReceived _ _]). eapply moves_app; [by apply moves_one|by apply Hgo].
    + by apply moves_one.
Qed.

Lemma next_incoming_moves a c state up_since w w' o :
  cells w !! a = Some c → phase c = NextIncoming state up_since →
  next_incoming a c state up_since w = Some (w', o) → Moves w w' o.
Proof.
  intros Ha Hp Hs. unfold next_incoming in Hs. destruct (stop_poll c) eqn:Hq.
  - destruct (stopped_by_parent c w) eqn:Hst; simplify_eq; [|by apply poll_moves; [|right]].
    apply (goto_moves a c); [done| |done]. rewrite Hp. by apply quiet_terminate.
  - destruct (recv (mailbox c)) as [[|[i|]] mb] eqn:Hr; simplify_eq.
    + apply poll_moves; [done|]. unfold committed. simpl. by rewrite Hp.
    + pose proof (deliver_moves a c state up_since mb i w Ha Hp Hq Hr) as Hm. by rewrite Hs in Hm.
  - destruct (_ || _); simplify_eq. apply poll_moves; [done|]. unfold committed. simpl. by rewrite Hp.
Qed.

(** An await answered: the rest of the handler, and the stop polled. *)
Lemma answered_moves a c h w :
  cells w !! a = Some c → (∃ h0, phase c = Initializing h0) →
  Moves w (put_cell a (set_stop_poll (set_phase c (Initializing h)) Polled) w) [].
Proof.
  intros Ha [h0 Hp]. apply (moves_app _ (put_cell a (set_phase c (Initializing h)) w) _ [] []).
  - apply moves_one, MQuiet; [done| |by rewrite Hp]. rewrite Hp. by apply quiet_running.
  - rewrite <-(put_put a (set_stop_poll _ _) (set_phase c (Initializing h)) w). apply poll_moves; [by rewrite lookup_put, decide_True|done].
Qed.

Lemma task_step_moves e a w w' o :
  addresses_ok w → task_step e a w = Some (w', o) → Moves w w' o.
Proof.
  intros Hok Hs. unfold task_step in Hs. apply bind_Some in Hs as (c & Ha & Hs).
  assert (running (phase c) = true → awaiting (phase c) = None →
          Moves w (goto a (Terminating TDrain) w) []) as Hterm.
  { intros ??. apply (goto_moves a c); [done| |done]. by apply quiet_terminate. }
  assert (∀ p, running (phase c) = true → awaiting (phase c) = None → running p = true → awaiting p = None →
          (commits (phase c) p = true → stopped_by_parent c w = false) → Moves w (goto a p w) []) as Hgo.
  { intros p ?????. apply (goto_moves a c); [done| |done]. by apply quiet_running. }
  destruct (phase c) as [h|state up|h up|up|delay|old delay|delay|t|] eqn:Hp.
  - destruct h as [[state|err]| |to m k|forced to m k|k|act config k|other k|other k|q k];
      repeat case_match; simplify_eq; try (by apply Hgo); try (by apply Hterm); try (by apply answered_moves; eauto);
      eapply (handler_then_goto e a c _ Initializing); try done; by rewrite Hp.
  - by eapply next_incoming_moves.
  - destruct h as [[[state|]|err]| |to m k|forced to m k|k|act config k|other k|other k|q k];
      simplify_eq; try (by apply Hgo); try (by apply Hterm);
      eapply (handler_then_goto e a c _ (λ h, Receiving h up)); try done; by rewrite Hp.
  - simplify_eq. by eapply await_restart_moves.
  - pose proof (restart_moves a c delay w Ha Hp) as Hm. destruct (restart a c delay w). by simplify_eq.
  - destruct (await_closed old w) as [w1|] eqn:Hcl; simplify_eq/=.
    apply await_closed_some in Hcl as (ch & Hch & Hcl & ->).
    rewrite (goto_put _ c) by done. eapply moves_one, MAwaited; [done|by rewrite Hp..|done|done].
  - destruct (await_backoff delay (stopped_by_parent c w) (timer_fired e)) as [|[|]] eqn:Hb; simplify_eq.
    + apply Hgo; try done. intros _. unfold await_backoff in Hb. by destruct (duration_is_zero delay), (stopped_by_parent c w).
    + by apply Hterm.
  - by eapply terminate_step_moves.
  - done.
Qed.

Lemma watch_root_moves w w' o :
  owner w = Constructing → watch_root w = Some (w', o) → Moves w w' o.
Proof.
  intros Hown Hw. unfold watch_root in Hw. apply bind_Some in Hw as (c & Hc & Hw).
  rewrite (on_registry_put _ _ _ _ Hc), registry_add_ok in Hw.
  destruct (watcher_registry (mailbox c)) as [ws|] eqn:Hreg; simpl in Hw.
  - pose proof (MWatchRoot w c Hc Hown) as Hm. simpl in Hm. rewrite Hreg in Hm.
    simplify_eq. by apply moves_one, Hm.
  - assert (set_mailbox c (set_registry (mailbox c) None) = c) as Heq.
    { clear -Hreg. destruct c as [[tx reg] ????????]. simpl in *. by subst. }
    rewrite Heq, put_same in Hw by done.
    pose proof (MWatchRootClosed w c Hc Hown Hreg) as Hm.
    destruct (root_signal w) as [w1 o1]. simplify_eq. by apply moves_one.
Qed.

Lemma step_moves l w w' o : addresses_ok w → step l w = Some (w', o) → Moves w w' o.
Proof.
  intros Hok Hs. destruct l as [a e|to m| | |]; simpl in Hs.
  - by eapply task_step_moves.
  - by apply (tell_moves FromOutside) in Hs as [? _].
  - destruct (owner w) eqn:Hown; try done. by apply watch_root_moves.
  - destruct (owner w) eqn:Hown; simplify_eq. by apply moves_one, MStop.
  - destruct (owner w) eqn:Hown; simplify_eq. by apply moves_one, MDropSystem.
Qed.

Lemma exec_moves ls w w' o : addresses_ok w → exec ls w = Some (w', o) → Moves w w' o.
Proof.
  revert w o. induction ls as [|l ls IH]; intros w o Hok He; simplify_eq/=; [constructor|].
  destruct (step l w) as [[w1 o1]|] eqn:Hs; simplify_eq/=.
  destruct (exec ls w1) as [[w2 o2]|] eqn:Hr; simplify_eq/=.
  pose proof (step_moves _ _ _ _ Hok Hs) as Hm. eapply moves_app; [done|].
  apply IH; [|done]. by eapply addresses_ok_moves.
Qed.

Lemma addresses_ok_system_new id wid act config : addresses_ok (system_new id wid act config).
Proof.
  intros a c k r. simpl. intros [<- <-]%lookup_singleton_Some. simpl. by rewrite lookup_empty.
Qed.

(** What holds of a new system and is preserved by every move holds after every run. *)
Theorem exec_invariant (I : World → list (Obs (M:=M)) → Prop) id wid act config ls w o :
  I (system_new id wid act config) [] →
  (∀ w t w' o, I w t → Move w w' o → I w' (t ++ o)) →
  exec ls (system_new id wid act config) = Some (w, o) → I w o.
Proof.
  intros H0 Hm He.
  apply (moves_trace_invariant I Hm _ _ _ _ H0 (exec_moves _ _ _ _ (addresses_ok_system_new _ _ _ _) He)).
Qed.
End Moves.
