(* ===== verification/RuntimeTree.v ===== *)
(** The tree of actors: children terminate before their parent does. The abstract tree keeps of a
    world, per actor, its parent, the generation of the stop channel its context holds and how far it
    is in stopping its children, and per stop channel the number of its receivers; its transitions
    are the specification the runtime refines. *)
From S2P Require Import Prelude Backoff Config Flume Quota Actor Mailbox Tokio Runtime RuntimeMoves.

(** ** The abstract tree *)

Inductive TreePhase :=
  | Growing                    (* may have children of the current generation *)
  | Awaiting (old : StopKey)   (* has stopped a generation and waits for it *)
  | Childless                  (* the last generation is gone *)
  | Detached                   (* the context is dropped *)
  | Finished.                  (* the task has ended *)

Record Node := mk_node { n_parent : StopKey; n_generation : nat; n_phase : TreePhase }.

(** Actors, and the receivers of each stop channel. *)
Record Tree := mk_tree { nodes : gmap ActorId Node; receivers : gmap StopKey nat }.

Inductive tree_step (t : Tree) : Tree → Prop :=
  | tree_spawn p n id :
      nodes t !! p = Some n → n_phase n = Growing → nodes t !! id = None →
      let k := ContextKey p (n_generation n) in
      tree_step t (mk_tree (<[id := mk_node k 0 Growing]> (nodes t))
                     (<[ContextKey id 0 := 1%nat]> (alter (λ x, 2 + x) k (receivers t))))
  | tree_stop a n :
      nodes t !! a = Some n → n_phase n = Growing →
      let old := ContextKey a (n_generation n) in
      let next := ContextKey a (S (n_generation n)) in
      tree_step t
        (mk_tree (<[a := mk_node (n_parent n) (S (n_generation n)) (Awaiting old)]> (nodes t))
           (alter pred old (<[next := 1%nat]> (receivers t))))
  | tree_awaited a n old ph :
      nodes t !! a = Some n → n_phase n = Awaiting old → receivers t !! old = Some 0%nat →
      ph = Growing ∨ ph = Childless →
      tree_step t (mk_tree (<[a := mk_node (n_parent n) (n_generation n) ph]> (nodes t)) (receivers t))
  | tree_detach a n :
      nodes t !! a = Some n → n_phase n = Childless →
      tree_step t
        (mk_tree (<[a := mk_node (n_parent n) (n_generation n) Detached]> (nodes t))
           (alter pred (ContextKey a (n_generation n)) (receivers t)))
  | tree_finish a n :
      nodes t !! a = Some n → n_phase n = Detached →
      tree_step t
        (mk_tree (<[a := mk_node (n_parent n) (n_generation n) Finished]> (nodes t))
           (alter (λ x, pred (pred x)) (n_parent n) (receivers t))).

(** *** The invariant of the tree *)

Definition alive (n : Node) : Prop := n_phase n ≠ Finished.
#[export] Instance alive_dec n : Decision (alive n).
Proof. unfold alive. destruct (n_phase n); [left|left|left|left|right]; naive_solver. Defined.

(** A task holds two receivers of its parent's channel, a context one of its current channel. *)
Definition held (k : StopKey) (n : Node) : nat :=
  if decide (n_parent n = k ∧ alive n) then 2 else 0.
Definition own (ns : gmap ActorId Node) (k : StopKey) : nat :=
  match k with
  | SystemKey => 0
  | ContextKey a g =>
      match ns !! a with
      | Some n =>
          if decide (n_generation n = g) then
            match n_phase n with Detached | Finished => 0 | _ => 1 end
          else 0
      | None => 0
      end
  end.

(** Whether an actor may have running children under the generation [g] of its stop channels. *)
Definition may_have_children (a : ActorId) (n : Node) (g : nat) : Prop :=
  match n_phase n with
  | Growing => g = n_generation n
  | Awaiting old => old = ContextKey a g
  | _ => False
  end.

Record tree_inv (root : ActorId) (t : Tree) : Prop := {
  inv_count : ∀ k x, receivers t !! k = Some x → x = (own (nodes t) k + mcount (held k) (nodes t))%nat;
  inv_keys : ∀ a g, is_Some (receivers t !! ContextKey a g) ↔
               ∃ n, nodes t !! a = Some n ∧ (g ≤ n_generation n)%nat;
  inv_awaiting : ∀ a n old, nodes t !! a = Some n → n_phase n = Awaiting old →
               ∃ g, n_generation n = S g ∧ old = ContextKey a g;
  inv_parent : ∀ b m p g, nodes t !! b = Some m → n_parent m = ContextKey p g →
               ∃ n, nodes t !! p = Some n ∧ (g ≤ n_generation n)%nat ∧
                    (alive m → may_have_children p n g);
  inv_root : ∀ b m, nodes t !! b = Some m → (n_parent m = SystemKey ↔ b = root);
  inv_rooted : is_Some (nodes t !! root);
  inv_rank : ∃ rank : ActorId → nat, ∀ b m p g,
               nodes t !! b = Some m → n_parent m = ContextKey p g → (rank p < rank b)%nat;
}.

Lemma own_insert_other (ns : gmap ActorId Node) a n k :
  (∀ g, k ≠ ContextKey a g) → own (<[a := n]> ns) k = own ns k.
Proof.
  intros Hne. destruct k as [|b g]; simpl; [done|]. rewrite lookup_insert_ne; [done|].
  intros ->. by apply (Hne g).
Qed.

Lemma held_zero k n : held k n = 0%nat → n_parent n = k → ¬ alive n.
Proof. unfold held. case_decide; naive_solver. Qed.

(** No receiver left: every task spawned under the channel has ended. *)
Lemma no_receivers root t k b m :
  tree_inv root t → receivers t !! k = Some 0%nat → nodes t !! b = Some m → n_parent m = k →
  ¬ alive m.
Proof.
  intros Hinv Hk Hb Hp. pose proof (inv_count _ _ Hinv _ _ Hk) as Hc.
  assert (mcount (held k) (nodes t) = 0%nat) as Hz by lia.
  eapply held_zero; [|done]. by eapply (proj1 (mcount_zero _ _) Hz).
Qed.

(** *** Preservation *)

Lemma mcount_held_insert (ns : gmap ActorId Node) a n n' k :
  ns !! a = Some n →
  (mcount (held k) (<[a := n']> ns) + held k n = held k n' + mcount (held k) ns)%nat.
Proof. intros Ha. pose proof (mcount_insert (held k) ns a n') as Hm. by rewrite Ha in Hm. Qed.

Lemma no_children_of_fresh root t id g :
  tree_inv root t → nodes t !! id = None → mcount (held (ContextKey id g)) (nodes t) = 0%nat.
Proof.
  intros Hinv Hid. apply mcount_zero. intros b m Hb. unfold held. case_decide as Hd; [|done].
  destruct Hd as [Hp _]. destruct (inv_parent _ _ Hinv _ _ _ _ Hb Hp) as (n & Hn & _). congruence.
Qed.

Lemma tree_inv_spawn root t p n id :
  tree_inv root t →
  nodes t !! p = Some n → n_phase n = Growing → nodes t !! id = None →
  let k := ContextKey p (n_generation n) in
  tree_inv root (mk_tree (<[id := mk_node k 0 Growing]> (nodes t))
                   (<[ContextKey id 0 := 1%nat]> (alter (λ x, 2 + x) k (receivers t)))).
Proof.
  intros Hinv Hp Hg Hid k. assert (p ≠ id) as Hne by congruence.
  split; simpl.
  - intros kk x Hx. rewrite mcount_fresh by done.
    apply lookup_insert_Some in Hx as [[<- <-]|[Hkk Hx]].
    + rewrite no_children_of_fresh with (root := root) by done. simpl.
      rewrite lookup_insert_eq. simpl. unfold held. rewrite decide_False; [done|].
      simpl. subst k. naive_solver.
    + assert (∀ g, kk ≠ ContextKey id g) as Hother.
      { intros g ->. rewrite lookup_alter_ne in Hx by (subst k; congruence).
        destruct (proj1 (inv_keys _ _ Hinv id g)) as (m & Hm & _); [by eexists|congruence]. }
      rewrite own_insert_other by done. unfold held at 1. simpl.
      destruct (decide (kk = k)) as [->|Hkne].
      * rewrite lookup_alter_eq in Hx. apply fmap_Some in Hx as (x' & Hx & ->).
        rewrite decide_True by (by split). pose proof (inv_count _ _ Hinv _ _ Hx). lia.
      * rewrite lookup_alter_ne in Hx by done. rewrite decide_False by naive_solver.
        apply (inv_count _ _ Hinv _ _ Hx).
  - intros a g. destruct (decide (a = id)) as [->|Hane].
    + rewrite lookup_insert_eq. destruct (decide (g = 0%nat)) as [->|Hgne].
      * rewrite lookup_insert_eq. split; [|by eexists]. intros _. by eexists.
      * rewrite lookup_insert_ne by congruence. rewrite lookup_alter_ne by (subst k; congruence).
        rewrite (inv_keys _ _ Hinv). split; [naive_solver|].
        intros (m & Hm & Hle). simplify_eq/=. lia.
    + rewrite lookup_insert_ne by congruence. rewrite (lookup_insert_ne (nodes t)) by done.
      rewrite <-(inv_keys _ _ Hinv). destruct (decide (ContextKey a g = k)) as [->|].
      * by rewrite lookup_alter_eq, fmap_is_Some.
      * by rewrite lookup_alter_ne.
  - intros a m old [[<- <-]|[_ Ha]]%lookup_insert_Some Hm; [done|].
    by apply (inv_awaiting _ _ Hinv _ _ _ Ha).
  - intros b m q g [[<- <-]|[_ Hb]]%lookup_insert_Some Hq; simpl in *.
    + subst k. simplify_eq. exists n. rewrite lookup_insert_ne by done. split_and!; [done|done|].
      intros _. unfold may_have_children. by rewrite Hg.
    + destruct (inv_parent _ _ Hinv _ _ _ _ Hb Hq) as (m' & Hm' & Hmay).
      exists m'. rewrite lookup_insert_ne by congruence. done.
  - intros b m [[<- <-]|[_ Hb]]%lookup_insert_Some; simpl; [|by apply (inv_root _ _ Hinv)].
    subst k. split; [done|]. intros ->. destruct (inv_rooted _ _ Hinv). congruence.
  - apply lookup_insert_is_Some'. right. apply (inv_rooted _ _ Hinv).
  - destruct (inv_rank _ _ Hinv) as [rank Hrank].
    exists (λ a, if decide (a = id) then S (rank p) else rank a).
    intros b m q g [[<- <-]|[Hbne Hb]]%lookup_insert_Some Hq; simpl in *.
    + subst k. simplify_eq. rewrite decide_False, decide_True by done. lia.
    + rewrite (decide_False (P := b = id)) by done.
      destruct (inv_parent _ _ Hinv _ _ _ _ Hb Hq) as (m' & Hm' & _).
      rewrite decide_False by congruence. by eapply Hrank.
Qed.

(** The other transitions replace one node by one with the same parent. *)
Section Replace.
Context (root : ActorId) (t : Tree) (a : ActorId) (n n' : Node) (rs : gmap StopKey nat).
Context (Hinv : tree_inv root t) (Ha : nodes t !! a = Some n) (Hpar : n_parent n' = n_parent n).
Context (Halive : alive n' → alive n).

Lemma replace_count :
  (∀ k x, rs !! k = Some x →
     (∃ g, k = ContextKey a g ∧ (n_generation n < g)%nat ∧
           x = (own (<[a := n']> (nodes t)) k + (held k n' - held k n))%nat) ∨
     ∃ x0, receivers t !! k = Some x0 ∧
           (x + own (nodes t) k + held k n = x0 + own (<[a := n']> (nodes t)) k + held k n')%nat) →
  ∀ k x, rs !! k = Some x →
    x = (own (<[a := n']> (nodes t)) k + mcount (held k) (<[a := n']> (nodes t)))%nat.
Proof.
  intros Hrs k x Hx. pose proof (mcount_held_insert (nodes t) a n n' k Ha) as Hm.
  destruct (Hrs k x Hx) as [(g & -> & Hg & ->)|(x0 & Hx0 & Heq)].
  - assert (mcount (held (ContextKey a g)) (nodes t) = 0%nat) as Hz; [|lia].
    apply mcount_zero. intros b m Hb. unfold held. case_decide as Hd; [|done].
    destruct Hd as [Hp Hal]. destruct (inv_parent _ _ Hinv _ _ _ _ Hb Hp) as (n0 & Hn0 & _ & Hmay).
    simplify_eq. specialize (Hmay Hal). unfold may_have_children in Hmay.
    destruct (n_phase n) eqn:Hph; try done; [lia|]. subst.
    destruct (inv_awaiting _ _ Hinv _ _ _ Ha Hph) as (g' & ? & ?). simplify_eq. lia.
  - pose proof (inv_count _ _ Hinv _ _ Hx0). lia.
Qed.

Lemma replace_inv :
  (∀ k x, rs !! k = Some x →
     (∃ g, k = ContextKey a g ∧ (n_generation n < g)%nat ∧
           x = (own (<[a := n']> (nodes t)) k + (held k n' - held k n))%nat) ∨
     ∃ x0, receivers t !! k = Some x0 ∧
           (x + own (nodes t) k + held k n = x0 + own (<[a := n']> (nodes t)) k + held k n')%nat) →
  (∀ b g, is_Some (rs !! ContextKey b g) ↔
     is_Some (receivers t !! ContextKey b g) ∨ (b = a ∧ (n_generation n < g ≤ n_generation n')%nat)) →
  (n_generation n ≤ n_generation n')%nat →
  (∀ old, n_phase n' = Awaiting old → ∃ g, n_generation n' = S g ∧ old = ContextKey a g) →
  (∀ b m g, nodes t !! b = Some m → n_parent m = ContextKey a g → alive m →
     may_have_children a n g → may_have_children a n' g) →
  tree_inv root (mk_tree (<[a := n']> (nodes t)) rs).
Proof.
  intros Hrs Hkeys Hgen Haw Hmay. split; simpl.
  - by apply replace_count.
  - intros b g. rewrite Hkeys, (inv_keys _ _ Hinv). rewrite lookup_insert.
    destruct (decide (a = b)) as [<-|].
    + split.
      * intros [(m & Hm & ?)|[_ ?]]; eexists; (split; [done|]); simplify_eq; lia.
      * intros (m & [= <-] & ?). destruct (decide (g ≤ n_generation n)%nat); [left; eauto|].
        right. split; [done|lia].
    + naive_solver.
  - intros b m old [[<- <-]|[_ Hb]]%lookup_insert_Some Hm; [by apply Haw|].
    by apply (inv_awaiting _ _ Hinv _ _ _ Hb).
  - intros b m q g Hb Hq.
    assert (∃ m0, nodes t !! b = Some m0 ∧ n_parent m0 = ContextKey q g ∧ (alive m → alive m0))
      as (m0 & Hm0 & Hq0 & Hal0).
    { apply lookup_insert_Some in Hb as [[<- <-]|[_ Hb]]; [|by eauto].
      exists n. split_and!; [done|congruence|done]. }
    destruct (inv_parent _ _ Hinv _ _ _ _ Hm0 Hq0) as (nq & Hnq & Hle & Hm).
    rewrite lookup_insert. destruct (decide (a = q)) as [<-|]; [|by eauto 10].
    simplify_eq. exists n'. split; [done|]. split; [lia|]. eauto.
  - intros b m [[<- <-]|[_ Hb]]%lookup_insert_Some; [|by apply (inv_root _ _ Hinv)].
    rewrite Hpar. by apply (inv_root _ _ Hinv).
  - apply lookup_insert_is_Some'. right. apply (inv_rooted _ _ Hinv).
  - destruct (inv_rank _ _ Hinv) as [rank Hrank]. exists rank.
    intros b m q g [[<- <-]|[_ Hb]]%lookup_insert_Some Hq; [|by eapply Hrank].
    rewrite Hpar in Hq. by eapply Hrank.
Qed.
End Replace.

Lemma own_ge root t a n x :
  tree_inv root t → nodes t !! a = Some n →
  n_phase n ≠ Detached → n_phase n ≠ Finished →
  receivers t !! ContextKey a (n_generation n) = Some x → (1 ≤ x)%nat.
Proof.
  intros Hinv Ha H1 H2 Hx. rewrite (inv_count _ _ Hinv _ _ Hx). simpl. rewrite Ha.
  rewrite decide_True by done. destruct (n_phase n); try done; lia.
Qed.

Lemma held_same k n n' : n_parent n' = n_parent n → (alive n ↔ alive n') → held k n' = held k n.
Proof. intros Hp Hal. unfold held. rewrite Hp. repeat case_decide; naive_solver. Qed.

Lemma tree_inv_stop root t a n :
  tree_inv root t → nodes t !! a = Some n → n_phase n = Growing →
  let old := ContextKey a (n_generation n) in
  let next := ContextKey a (S (n_generation n)) in
  tree_inv root
    (mk_tree (<[a := mk_node (n_parent n) (S (n_generation n)) (Awaiting old)]> (nodes t))
       (alter pred old (<[next := 1%nat]> (receivers t)))).
Proof.
  intros Hinv Ha Hg old next. set (n' := mk_node _ _ _).
  assert (old ≠ next) as Hon by (intros Heq; injection Heq; lia).
  assert (∀ k, held k n' = held k n) as Hheld.
  { intros k. apply held_same; [done|]. unfold alive. rewrite Hg. done. }
  apply (replace_inv root t a n n'); try done.
  - intros _. unfold alive. by rewrite Hg.
  - intros k x Hx. destruct (decide (k = next)) as [->|Hkn].
    + left. exists (S (n_generation n)). split; [done|]. split; [lia|].
      rewrite lookup_alter_ne in Hx by done.
      rewrite lookup_insert_eq in Hx. simplify_eq. rewrite Hheld. subst next. simpl.
      rewrite lookup_insert_eq. simpl. rewrite decide_True by done. lia.
    + right. rewrite Hheld. destruct (decide (k = old)) as [->|Hko].
      * rewrite lookup_alter_eq, lookup_insert_ne in Hx by done.
        apply fmap_Some in Hx as (x0 & Hx0 & ->). exists x0. split; [done|].
        assert (1 ≤ x0)%nat by (eapply own_ge; rewrite ?Hg; done).
        subst old. simpl. rewrite Ha, lookup_insert_eq, decide_True, Hg by done.
        simpl. rewrite decide_False by lia. lia.
      * rewrite lookup_alter_ne, lookup_insert_ne in Hx by done. exists x. split; [done|].
        destruct k as [|b g]; simpl; [lia|]. rewrite lookup_insert.
        destruct (decide (a = b)) as [<-|]; [|lia]. rewrite Ha.
        rewrite (decide_False (P := n_generation n' = g)) by (intros <-; by subst next).
        rewrite decide_False by (intros <-; by subst old). lia.
  - intros b g. destruct (decide (ContextKey b g = old)) as [Heq|Hne].
    + rewrite Heq, lookup_alter_eq, fmap_is_Some. subst old. simplify_eq.
      rewrite lookup_insert_ne by (intros Heq; injection Heq; lia). simpl. split; [by left|].
      intros [?|[_ ?]]; [done|lia].
    + rewrite lookup_alter_ne by done. rewrite lookup_insert_is_Some. subst next n'. simpl.
      split.
      * intros [[= <- <-]|[_ ?]]; [right; split; [done|lia]|by left].
      * destruct (decide (ContextKey a (S (n_generation n)) = ContextKey b g)) as [|Hne'];
          [by left|]. intros [?|[-> ?]]; [by right|]. left. f_equal. lia.
  - simpl. lia.
  - subst n'. simpl. intros old' [= <-]. eauto.
  - intros b m g Hb Hp Hal. unfold may_have_children. rewrite Hg. simpl. by intros ->.
Qed.

(** The transitions that only change a phase, with the receivers [rs] after them. *)
Lemma tree_inv_phase root t a n ph (f : nat → nat) key :
  tree_inv root t → nodes t !! a = Some n →
  let n' := mk_node (n_parent n) (n_generation n) ph in
  (alive n' → alive n) → (∀ old, ph ≠ Awaiting old) →
  (∀ k x0, receivers t !! k = Some x0 →
     ((if decide (k = key) then f x0 else x0) + own (nodes t) k + held k n =
      x0 + own (<[a := n']> (nodes t)) k + held k n')%nat) →
  (∀ b m g, nodes t !! b = Some m → n_parent m = ContextKey a g → alive m →
     may_have_children a n g → may_have_children a n' g) →
  tree_inv root (mk_tree (<[a := n']> (nodes t)) (alter f key (receivers t))).
Proof.
  intros Hinv Ha n' Hal Hna Hrs Hmay. apply (replace_inv root t a n n'); try done.
  - intros k x Hx. right. rewrite lookup_alter in Hx.
    destruct (decide (key = k)) as [<-|Hk].
    + apply fmap_Some in Hx as (x0 & Hx0 & ->). exists x0. split; [done|].
      specialize (Hrs _ _ Hx0). by rewrite decide_True in Hrs.
    + exists x. split; [done|]. specialize (Hrs _ _ Hx). by rewrite decide_False in Hrs.
  - intros b g. rewrite lookup_alter. simpl. case_decide as Hd; subst.
    + rewrite fmap_is_Some. split; [by left|]. intros [?|[_ ?]]; [done|lia].
    + split; [by left|]. intros [?|[_ ?]]; [done|lia].
  - intros old Ho. by destruct (Hna old).
Qed.

Lemma own_replace ns a n n' k :
  ns !! a = Some n → n_generation n' = n_generation n →
  (match n_phase n' with Detached | Finished => 0 | _ => 1 end)%nat =
    (match n_phase n with Detached | Finished => 0 | _ => 1 end)%nat →
  own (<[a := n']> ns) k = own ns k.
Proof.
  intros Ha Hg Hp. destruct k as [|b g]; simpl; [done|]. rewrite lookup_insert.
  destruct (decide (a = b)) as [<-|]; [|done]. by rewrite Ha, Hg, Hp.
Qed.

Lemma tree_inv_step root t t' : tree_inv root t → tree_step t t' → tree_inv root t'.
Proof.
  intros Hinv Hs.
  destruct Hs as [p n id Hp Hg Hid k|a n Ha Hg old next|a n old ph Ha Hg Hz Hph|a n Ha Hg|a n Ha Hg].
  - by apply tree_inv_spawn.
  - by apply tree_inv_stop.
  - rewrite <-(alter_id (λ x, x) (receivers t) old) by done.
    set (n' := mk_node _ _ _).
    assert (alive n ∧ alive n') as [Hal Hal'].
    { unfold alive. rewrite Hg. subst n'. simpl. split; [done|]. destruct Hph as [-> | ->]; done. }
    apply (tree_inv_phase root t a n); try done.
    + by destruct Hph as [-> | ->].
    + intros k x0 Hx0. fold n'. rewrite (own_replace _ _ n) by
        (try done; rewrite Hg; destruct Hph as [-> | ->]; done).
      rewrite (held_same k n n') by (try done; split; done). destruct (decide (k = old)); lia.
    + intros b m g Hb Hpb Halb. unfold may_have_children at 1. rewrite Hg. intros ->.
      by destruct (no_receivers _ _ _ _ _ Hinv Hz Hb Hpb).
  - set (n' := mk_node _ _ _).
    assert (alive n ∧ alive n') as [Hal Hal'] by (unfold alive; rewrite Hg; done).
    apply (tree_inv_phase root t a n); try done.
    + intros k x0 Hx0. fold n'. rewrite (held_same k n n') by (try done; split; done).
      case_decide as Hk; subst.
      * assert (1 ≤ x0)%nat by (eapply own_ge; rewrite ?Hg; done).
        simpl. rewrite Ha, lookup_insert_eq, !decide_True, Hg by done. simpl. lia.
      * destruct k as [|b g]; simpl; [done|]. rewrite lookup_insert.
        destruct (decide (a = b)) as [<-|]; [|done]. rewrite Ha. simpl.
        rewrite !decide_False by (intros <-; done). done.
    + intros b m g Hb Hpb Halb. unfold may_have_children at 1. by rewrite Hg.
  - set (n' := mk_node _ _ _).
    assert (alive n) as Hal by (unfold alive; by rewrite Hg).
    assert (¬ alive n') as Hal' by (unfold alive; naive_solver).
    apply (tree_inv_phase root t a n); try done.
    + intros k x0 Hx0. fold n'. rewrite (own_replace _ _ n) by (try done; by rewrite Hg).
      fold n'. assert (held k n' = 0%nat) as ->.
      { unfold held. rewrite decide_False; [done|]. tauto. }
      unfold held. case_decide as Hk; subst.
      * rewrite decide_True by done.
        assert (2 ≤ x0)%nat; [|lia].
        rewrite (inv_count _ _ Hinv _ _ Hx0).
        pose proof (mcount_pos (held (n_parent n)) _ _ _ Ha) as Hpos.
        unfold held at 1 in Hpos. rewrite decide_True in Hpos by done. lia.
      * rewrite decide_False by naive_solver. lia.
    + intros b m g Hb Hpb Halb. unfold may_have_children at 1. by rewrite Hg.
Qed.

Lemma tree_inv_steps root t t' : rtc tree_step t t' → tree_inv root t → tree_inv root t'.
Proof. induction 1; eauto using tree_inv_step. Qed.

(** ** The runtime refines the tree *)

Section Refinement.
Context {F : Flume} {TW : TokioWatch} {TL : TokioWatchLaws TW} {TO : TokioOneshot}.
Context {M B S E : Type} {Rq : Type} {An : Rq → Type}.
#[local] Abbreviation World := (World (M:=M) (B:=B) (S:=S) (E:=E) (Rq:=Rq) (An:=An)).
#[local] Abbreviation Cell := (Cell (M:=M) (B:=B) (S:=S) (E:=E) (Rq:=Rq) (An:=An)).
#[local] Abbreviation Phase := (Phase (M:=M) (B:=B) (S:=S) (E:=E) (Rq:=Rq) (An:=An)).
Implicit Types (w : World) (c : Cell) (p : Phase) (a b : ActorId).

Definition tree_phase p : TreePhase :=
  match p with
  | StoppingChildren old _ | Terminating (TAwaitChildren old) => Awaiting old
  | Terminating TDropContext => Childless
  | Terminating TTakeWatchers | Terminating (TSignal _) => Detached
  | Done => Finished
  | _ => Growing
  end.

Definition node_of c : Node := mk_node (parent_stopping c) (generation c) (tree_phase (phase c)).
Definition tree_of w : Tree := mk_tree (node_of <$> cells w) (rx_count <$> stop_channels w).

Lemma rx_alter (f : WatchChan → WatchChan) (g : nat → nat) k (m : gmap StopKey WatchChan) :
  (∀ ch, m !! k = Some ch → rx_count (f ch) = g (rx_count ch)) →
  rx_count <$> alter f k m = alter g k (rx_count <$> m).
Proof.
  intros Hf. apply map_eq. intros k'. rewrite lookup_fmap, !lookup_alter, lookup_fmap.
  destruct (decide (k = k')) as [<-|]; [|by rewrite lookup_fmap].
  destruct (m !! k) eqn:Hm; simpl; [|done]. f_equal. by apply Hf.
Qed.

Lemma rx_alter_same (f : WatchChan → WatchChan) k (m : gmap StopKey WatchChan) :
  (∀ ch, rx_count (f ch) = rx_count ch) → rx_count <$> alter f k m = rx_count <$> m.
Proof.
  intros Hf. rewrite (rx_alter f (λ x, x)) by (intros; apply Hf). by apply alter_id.
Qed.

Lemma nodes_same a c c' w :
  cells w !! a = Some c → node_of c' = node_of c →
  node_of <$> <[a := c']> (cells w) = node_of <$> cells w.
Proof.
  intros Ha Hn. rewrite fmap_insert, Hn. apply insert_id. by rewrite lookup_fmap, Ha.
Qed.

Lemma tree_of_put a c c' w :
  cells w !! a = Some c → node_of c' = node_of c → tree_of (put_cell a c' w) = tree_of w.
Proof. intros Ha Hn. unfold tree_of; simpl. f_equal. by eapply nodes_same. Qed.

Lemma tree_of_eq w w' :
  cells w' = cells w → rx_count <$> stop_channels w' = rx_count <$> stop_channels w →
  tree_of w' = tree_of w.
Proof. intros Hc Hs. unfold tree_of. by rewrite Hc, Hs. Qed.

Lemma tree_of_release w : tree_of (release_root_sender w) = tree_of w.
Proof.
  unfold release_root_sender. destruct (owner w), (sink_alive w); try done.
  apply tree_of_eq; [done|]. apply rx_alter_same. intros ch. by destruct (watch_drop_tx_spec ch).
Qed.

Lemma tree_of_drop_sink w : tree_of (drop_root_sink w) = tree_of w.
Proof. unfold drop_root_sink. by rewrite tree_of_release. Qed.

Lemma tree_of_drop_system w : tree_of (drop_system w) = tree_of w.
Proof. unfold drop_system. by rewrite tree_of_release. Qed.

Lemma tree_of_root_signal w : tree_of (root_signal w).1 = tree_of w.
Proof. unfold root_signal. by destruct (terminated_tx w). Qed.

Lemma quiet_tree_phase p p' : quiet p p' → tree_phase p' = tree_phase p.
Proof.
  intros [q q' H1 H2 H3 H4|q H1 H2|]; [| |done].
  - destruct q, q'; by simplify_eq/=.
  - destruct q; by simplify_eq/=.
Qed.

Lemma lookup_node w a c : cells w !! a = Some c → nodes (tree_of w) !! a = Some (node_of c).
Proof. intros Ha. simpl. by rewrite lookup_fmap, Ha. Qed.

Lemma receivers_lookup w k ch :
  stop_channels w !! k = Some ch → receivers (tree_of w) !! k = Some (rx_count ch).
Proof. intros Hk. simpl. by rewrite lookup_fmap, Hk. Qed.

Lemma handling_growing p : handling p = true → tree_phase p = Growing.
Proof. by destruct p. Qed.

(** The channel operations at a transition, by the receivers they leave. *)
Lemma rx_drop_send ch : (0 < rx_count ch)%nat → rx_count (watch_drop_rx (watch_send ch)) = pred (rx_count ch).
Proof.
  intros Hpos. destruct (watch_drop_rx_spec (watch_send ch)) as (-> & _ & _).
  by destruct (watch_send_spec ch Hpos) as (-> & _ & _).
Qed.

Lemma rx_drop_rx ch : rx_count (watch_drop_rx ch) = pred (rx_count ch).
Proof. by destruct (watch_drop_rx_spec ch) as (-> & _ & _). Qed.

Lemma rx_drop_tx ch : rx_count (watch_drop_tx ch) = rx_count ch.
Proof. by destruct (watch_drop_tx_spec ch) as (-> & _ & _). Qed.

Lemma rx_clone ch : rx_count (watch_clone_rx ch) = Datatypes.S (rx_count ch).
Proof. by destruct (watch_clone_rx_spec ch) as (-> & _ & _). Qed.

Lemma rx_new : rx_count watch_channel = 1%nat.
Proof. by destruct watch_channel_spec. Qed.

Lemma spawn_refines w a c id child (p : Phase) :
  cells w !! a = Some c → handling (phase c) = true → fresh id w = true →
  node_of child = mk_node (ContextKey a (generation c)) 0 Growing →
  let w1 := hold_parent (ContextKey a (generation c)) w in
  tree_step (tree_of w) (tree_of (put_cell id child
    (set_stop_channels w1 (<[ContextKey id 0 := watch_channel]> (stop_channels w1))))).
Proof.
  intros Ha Hh Hf Hchild w1. unfold fresh in Hf. case_bool_decide as Hid; [|done].
  destruct Hid as [Hid _].
  pose proof (tree_spawn (tree_of w) a (node_of c) id (lookup_node _ _ _ Ha)
                (handling_growing _ Hh)) as Hs.
  unfold tree_of at 2. simpl. rewrite !fmap_insert, Hchild, rx_new.
  rewrite (rx_alter _ (λ x, 2 + x)%nat).
  - apply Hs. simpl. by rewrite lookup_fmap, Hid.
  - intros ch _. simpl. by rewrite !rx_clone.
Qed.

Lemma stop_refines w a c p :
  tree_inv (root w) (tree_of w) →
  cells w !! a = Some c → tree_phase (phase c) = Growing →
  tree_phase p = Awaiting (ContextKey a (generation c)) →
  tree_step (tree_of w)
    (tree_of (put_cell a (set_phase (set_generation c (Datatypes.S (generation c))) p)
       (stop_children a c w).2)).
Proof.
  intros Hinv Ha Hg Hp.
  pose proof (tree_stop (tree_of w) a (node_of c) (lookup_node _ _ _ Ha) Hg) as Hs.
  unfold tree_of at 2. simpl. rewrite insert_insert_eq, fmap_insert.
  unfold node_of at 1. simpl. rewrite Hp.
  rewrite (rx_alter _ pred), fmap_insert, rx_new; [done|].
  intros ch. simpl. rewrite lookup_insert_ne by (intros Heq; injection Heq; lia). intros Hch.
  apply rx_drop_send. eapply (own_ge _ _ a (node_of c) _ Hinv); simpl; rewrite ?Hg; try done.
  - by rewrite lookup_fmap, Ha.
  - by rewrite lookup_fmap, Hch.
Qed.

Lemma move_refines_tree w w' o :
  tree_inv (root w) (tree_of w) → Move w w' o →
  rtc tree_step (tree_of w) (tree_of w').
Proof.
  intros Hinv Hm.
  assert (∀ t, tree_of w' = t → t = tree_of w → rtc tree_step (tree_of w) (tree_of w')) as Hstutter
    by (intros t -> ->; constructor).
  destruct Hm; try (eapply Hstutter; [|reflexivity];
    by rewrite ?tree_of_drop_sink, ?tree_of_drop_system, ?tree_of_root_signal;
       first [done | eapply tree_of_put; [done|done]]).
  - eapply Hstutter; [|done]. eapply tree_of_put; [done|]. unfold node_of. simpl.
    by erewrite quiet_tree_phase.
  - apply rtc_once. eapply spawn_refines; try done. unfold node_of. subst child. simpl.
    by rewrite handling_growing.
  - eapply Hstutter; [|done]. eapply tree_of_put; [done|]. unfold node_of. simpl. by rewrite H0.
  - eapply Hstutter; [|done]. eapply tree_of_put; [done|]. unfold node_of. by destruct i.
  - apply rtc_once. apply stop_refines; [done..| |].
    + by destruct H0 as [? Hp|Hp]; rewrite Hp.
    + by destruct H0.
  - apply rtc_once. unfold tree_of at 2. simpl. rewrite fmap_insert, rx_alter_same by apply rx_drop_tx.
    apply (tree_awaited (tree_of w) a (node_of c) old (tree_phase p)).
    + by apply lookup_node.
    + simpl. destruct (phase c) as [| | | | | | |[]|]; by simplify_eq/=.
    + rewrite (receivers_lookup _ _ ch) by done. f_equal. by apply watch_closed_iff.
    + destruct (phase c) as [| | | | | | |[]|]; simplify_eq/=; auto.
  - eapply Hstutter; [|done]. eapply tree_of_put; [done|]. unfold node_of. simpl. by rewrite H0.
  - eapply Hstutter; [|done]. eapply tree_of_put; [done|]. unfold node_of. simpl. by rewrite H0.
  - apply rtc_once. unfold tree_of at 2. simpl. rewrite fmap_insert, (rx_alter _ pred).
    + apply (tree_detach (tree_of w) a (node_of c)); [by apply lookup_node|].
      unfold node_of. simpl. by rewrite H0.
    + intros ch _. simpl. by rewrite rx_drop_tx, rx_drop_rx.
  - eapply Hstutter; [|done]. eapply tree_of_put; [done|]. unfold node_of. simpl. by rewrite H0.
  - eapply Hstutter; [|done]. etransitivity; [eapply tree_of_put; [done|done]|].
    subst w1. eapply tree_of_put; [done|]. unfold node_of. simpl. by rewrite H0.
  - eapply Hstutter; [|done]. rewrite tree_of_drop_sink, tree_of_root_signal.
    subst w1. eapply tree_of_put; [done|]. unfold node_of. simpl. by rewrite H0.
  - apply rtc_once. unfold tree_of at 2. simpl. rewrite fmap_insert, (rx_alter _ (λ x, pred (pred x))).
    + apply (tree_finish (tree_of w) a (node_of c)); [by apply lookup_node|].
      unfold node_of. simpl. by rewrite H0.
    + intros ch _. simpl. by rewrite !rx_drop_rx.
  - eapply Hstutter; [|done]. rewrite tree_of_drop_sink.
    etransitivity; [|apply (tree_of_root_signal w)]. done.
  - eapply Hstutter; [|done]. apply tree_of_eq; [done|]. apply rx_alter_same. intros ch.
    by destruct (watch_send_replace_spec ch) as (-> & _).
Qed.

Lemma move_root w w' o : Move w w' o → root w' = root w.
Proof.
  intros Hm.
  assert (∀ w, root (release_root_sender w) = root w) as Hr.
  { intros w0. unfold release_root_sender. by destruct (owner w0), (sink_alive w0). }
  assert (∀ w, root (root_signal w).1 = root w) as Hs.
  { intros w0. unfold root_signal. by destruct (terminated_tx w0). }
  destruct Hm; try done; unfold drop_root_sink, drop_system; rewrite ?Hr; simpl; rewrite ?Hs; done.
Qed.

Lemma tree_inv_system_new {A : Actor M B S E Rq An} id wid act config :
  tree_inv id (tree_of (system_new id wid act config)).
Proof.
  unfold tree_of. simpl. rewrite map_fmap_singleton. unfold node_of at 1. simpl.
  rewrite fmap_insert, map_fmap_singleton, rx_clone, rx_new.
  assert (mcount (held SystemKey) {[id := mk_node SystemKey 0 Growing]} = 2%nat) as Hsys.
  { rewrite <-insert_empty, mcount_fresh by done. reflexivity. }
  split; simpl.
  - intros k x [[<- <-]|[Hk Hx]]%lookup_insert_Some; [by rewrite Hsys|].
    apply lookup_singleton_Some in Hx as [<- <-]. simpl. rewrite lookup_singleton_eq. simpl.
    rewrite <-insert_empty, mcount_fresh by done. reflexivity.
  - intros a g. rewrite lookup_insert_ne by done. rewrite lookup_singleton_is_Some. split.
    + intros [= -> ->]. rewrite lookup_singleton_eq. by eexists.
    + intros (n & [<- <-]%lookup_singleton_Some & Hle). simpl in Hle. f_equal. lia.
  - by intros a n old [<- <-]%lookup_singleton_Some.
  - by intros b m p g [<- <-]%lookup_singleton_Some.
  - by intros b m [<- <-]%lookup_singleton_Some.
  - rewrite lookup_singleton_eq. by eexists.
  - exists (λ _, 0%nat). by intros b m p g [<- <-]%lookup_singleton_Some.
Qed.
End Refinement.
