(* ===== verification/RuntimeWatch.v ===== *)
(** Watching: no terminated signal is lost. The invariant relates what an actor's context remembers
    to watch with the registries, the watchers being signaled and the signals queued; from it follow
    that a signal reaches every watcher, that the panic in [SelfRef::send_terminated] is unreachable,
    and what [ActorSystem::terminated] and dropping a system promise. *)
From S2P Require Import Prelude Backoff Config Flume Quota Actor Mailbox MailboxSpec Tokio Runtime RuntimeMoves RuntimeTree.

Section Watching.
Context {F : Flume} {FL : FlumeLaws F} {TW : TokioWatch} {TL : TokioWatchLaws TW}.
Context {TO : TokioOneshot} {TOL : TokioOneshotLaws TO}.
Context {M B S E : Type} {Rq : Type} {An : Rq → Type}.
#[local] Abbreviation World := (World (M:=M) (B:=B) (S:=S) (E:=E) (Rq:=Rq) (An:=An)).
#[local] Abbreviation Cell := (Cell (M:=M) (B:=B) (S:=S) (E:=E) (Rq:=Rq) (An:=An)).
#[local] Abbreviation Phase := (Phase (M:=M) (B:=B) (S:=S) (E:=E) (Rq:=Rq) (An:=An)).
Implicit Types (w : World) (c o : Cell) (p : Phase) (a b : ActorId) (cs : gmap ActorId Cell).

(** The watchers still to be signaled. *)
Definition signals p : list (Watcher Sink) :=
  match p with Terminating (TSignal rest) => rest | _ => [] end.

Lemma signals_open p : closed p = false → signals p = [].
Proof. destruct p as [| | | | | | |[]|]; simpl; congruence. Qed.

Definition registry_of c : WatcherRegistry Sink := watcher_registry (mailbox c).

(** A watcher is an actor's own mailbox sink, or the root's one watcher. *)
Definition sink_ok cs (r rw : ActorId) b (v : Watcher Sink) : Prop :=
  (terminated_sink v = MailboxSink (watcher_id v) ∧ is_Some (cs !! watcher_id v)) ∨
  (terminated_sink v = RootSink ∧ b = r ∧ watcher_id v = rw).

(** The signal of [b] will reach [a], or has. *)
Definition signal_due cs a b c : Prop :=
  ∃ o, cs !! b = Some o ∧
    (is_Some (registered (registry_of o) !! a) ∨
     (∃ v, v ∈ signals (phase o) ∧ terminated_sink v = MailboxSink a) ∨
     Terminated b ∈ mqueue (mailbox c)).

Record watch_inv (r rw : ActorId) cs : Prop := {
  wi_closed : ∀ b o, cs !! b = Some o → (registry_of o = None ↔ closed (phase o) = true);
  wi_entries : ∀ b o x v, cs !! b = Some o → registered (registry_of o) !! x = Some v →
                 watcher_id v = x ∧ sink_ok cs r rw b v;
  wi_signals : ∀ b o v, cs !! b = Some o → v ∈ signals (phase o) → sink_ok cs r rw b v;
  wi_open : ∀ a c, cs !! a = Some c → running (phase c) = true → mopen (mailbox c) = true;
  wi_watched : ∀ a c b, cs !! a = Some c → running (phase c) = true → is_Some (watched c !! b) →
                 signal_due cs a b c;
  wi_root_watcher : cs !! rw = None;
  wi_root : is_Some (cs !! r);
}.

Lemma sink_ok_mono cs cs' r rw b v :
  (∀ x, is_Some (cs !! x) → is_Some (cs' !! x)) → sink_ok cs r rw b v → sink_ok cs' r rw b v.
Proof. intros Hdom [[? ?]|?]; [left; auto|by right]. Qed.

Lemma insert_dom cs a c c' x :
  cs !! a = Some c → is_Some (<[a := c']> cs !! x) ↔ is_Some (cs !! x).
Proof. intros Ha. rewrite lookup_insert. case_decide; subst; [|done]. rewrite Ha. done. Qed.

(** *** Changes of one cell that watching does not depend on *)

Record benign c c' : Prop := {
  bn_registry : registry_of c' = registry_of c;
  bn_closed : closed (phase c') = closed (phase c);
  bn_signals : signals (phase c') = signals (phase c);
  bn_running : running (phase c') = true → running (phase c) = true;
  bn_open : running (phase c') = true → mopen (mailbox c') = mopen (mailbox c);
  bn_watched : running (phase c') = true → ∀ b, is_Some (watched c' !! b) → is_Some (watched c !! b);
  bn_queue : running (phase c') = true → ∀ b, is_Some (watched c' !! b) →
               Terminated b ∈ mqueue (mailbox c) → Terminated b ∈ mqueue (mailbox c');
}.

Lemma watch_inv_benign r rw cs a c c' :
  watch_inv r rw cs → cs !! a = Some c → benign c c' → watch_inv r rw (<[a := c']> cs).
Proof.
  intros [Hcl Hen Hsi Hop Hwa Hrw Hr] Ha [Bre Bcl Bsi Bru Bop Bwa Bqu].
  assert (∀ b v, sink_ok cs r rw b v → sink_ok (<[a := c']> cs) r rw b v) as Hok.
  { intros b v. apply sink_ok_mono. intros x. by rewrite insert_dom. }
  assert (∀ b o, <[a := c']> cs !! b = Some o → ∃ o0, cs !! b = Some o0 ∧
            registry_of o = registry_of o0 ∧ closed (phase o) = closed (phase o0) ∧
            signals (phase o) = signals (phase o0)) as Hcell.
  { intros b o [[<- <-]|[_ Hb]]%lookup_insert_Some; eauto 10. }
  split.
  - intros b o Hb. destruct (Hcell _ _ Hb) as (o0 & Hb0 & -> & -> & _). by apply (Hcl b).
  - intros b o x v Hb. destruct (Hcell _ _ Hb) as (o0 & Hb0 & -> & _). intros Hx.
    destruct (Hen _ _ _ _ Hb0 Hx). auto.
  - intros b o v Hb. destruct (Hcell _ _ Hb) as (o0 & Hb0 & _ & _ & ->). eauto.
  - intros b o [[<- <-]|[_ Hb]]%lookup_insert_Some Hrun; [|by eapply Hop].
    rewrite Bop by done. eapply Hop; eauto.
  - assert (∀ x cx cx' b, signal_due cs x b cx →
              (Terminated b ∈ mqueue (mailbox cx) → Terminated b ∈ mqueue (mailbox cx')) →
              signal_due (<[a := c']> cs) x b cx') as Hdue.
    { intros x cx cx' b (o & Ho & Hcase) Hq. destruct (decide (a = b)) as [<-|].
      - simplify_eq. exists c'. rewrite lookup_insert_eq, Bre, Bsi. naive_solver.
      - exists o. rewrite lookup_insert_ne by done. naive_solver. }
    intros x cx b [[<- <-]|[_ Hx]]%lookup_insert_Some Hrun Hw.
    + eapply Hdue; [eapply (Hwa a c b); eauto|]. by apply Bqu.
    + eapply Hdue; [eapply (Hwa x cx b); eauto|]. done.
  - rewrite lookup_insert_ne; [done|]. congruence.
  - by rewrite insert_dom.
Qed.

(** *** Registries *)

Lemma wi_key_mailbox r rw cs b o a v :
  watch_inv r rw cs → cs !! b = Some o → is_Some (cs !! a) →
  registered (registry_of o) !! a = Some v → terminated_sink v = MailboxSink a.
Proof.
  intros Hinv Hb [c Ha] Hv. destruct (wi_entries _ _ _ Hinv _ _ _ _ Hb Hv) as [<- [[? _]|(_ & _ & Hrw)]].
  - done.
  - rewrite Hrw, (wi_root_watcher _ _ _ Hinv) in Ha. done.
Qed.

Definition with_registry o (f : WatcherRegistry Sink) : Cell :=
  set_mailbox o (set_registry (mailbox o) f).

(** Replacing an open registry by another open one. *)
Lemma watch_inv_registry r rw cs b o reg' :
  watch_inv r rw cs → cs !! b = Some o →
  (registry_of o = None ↔ reg' = None) →
  (∀ x v, registered reg' !! x = Some v →
     registered (registry_of o) !! x = Some v ∨ watcher_id v = x ∧ sink_ok cs r rw b v) →
  (∀ a c, cs !! a = Some c → running (phase c) = true → is_Some (watched c !! b) →
     is_Some (registered (registry_of o) !! a) → is_Some (registered reg' !! a)) →
  watch_inv r rw (<[b := with_registry o reg']> cs).
Proof.
  intros Hinv Hb Hnone Hent Hkeep. pose proof Hinv as [Hcl Hen Hsi Hop Hwa Hrw Hr].
  assert (∀ x v, sink_ok cs r rw x v → sink_ok (<[b := with_registry o reg']> cs) r rw x v) as Hok.
  { intros x v. apply sink_ok_mono. intros y. by rewrite (insert_dom _ _ o). }
  split.
  - intros x ox [[<- <-]|[_ Hx]]%lookup_insert_Some; [|by apply (Hcl x)].
    unfold registry_of, with_registry. simpl. rewrite <-Hnone. by apply (Hcl b).
  - intros x ox y v [[<- <-]|[_ Hx]]%lookup_insert_Some Hy.
    + unfold registry_of, with_registry in Hy. simpl in Hy.
      destruct (Hent _ _ Hy) as [Hy'|[??]]; [|by auto]. destruct (Hen _ _ _ _ Hb Hy'). auto.
    + destruct (Hen _ _ _ _ Hx Hy). auto.
  - intros x ox v [[<- <-]|[_ Hx]]%lookup_insert_Some Hv; [|by eauto].
    apply Hok. by apply (Hsi b o).
  - intros x ox [[<- <-]|[_ Hx]]%lookup_insert_Some Hrun; [|by eapply Hop].
    by apply (Hop b o).
  - assert (∀ x cx cx' y, cs !! x = Some cx → running (phase cx) = true → is_Some (watched cx !! y) →
              mqueue (mailbox cx') = mqueue (mailbox cx) →
              signal_due (<[b := with_registry o reg']> cs) x y cx') as Hdue.
    { intros x cx cx' y Hx Hrun Hy Hq. destruct (Hwa _ _ _ Hx Hrun Hy) as (oy & Hoy & Hcase).
      rewrite <-Hq in Hcase. destruct (decide (b = y)) as [<-|].
      - simplify_eq. exists (with_registry o reg'). rewrite lookup_insert_eq. split; [done|].
        destruct Hcase as [Hreg|Hcase]; [left; by eapply Hkeep|by right].
      - exists oy. by rewrite lookup_insert_ne. }
    intros x cx y [[<- <-]|[_ Hx]]%lookup_insert_Some Hrun Hy; [|by eapply Hdue].
    by eapply (Hdue b o).
  - rewrite lookup_insert_ne; [done|]. congruence.
  - by rewrite (insert_dom _ _ o).
Qed.
(** *** New actors, new watches, the signaling *)

Lemma watch_inv_fresh r rw cs id child :
  watch_inv r rw cs → cs !! id = None → id ≠ rw →
  registry_of child = Some ∅ → watched child = ∅ → mopen (mailbox child) = true →
  closed (phase child) = false → signals (phase child) = [] →
  watch_inv r rw (<[id := child]> cs).
Proof.
  intros [Hcl Hen Hsi Hop Hwa Hrw Hr] Hid Hne Hreg Hwd Hopen Hclosed Hsig.
  assert (∀ x, is_Some (cs !! x) → is_Some (<[id := child]> cs !! x)) as Hdom.
  { intros x Hx. rewrite lookup_insert_ne; [done|]. intros <-. rewrite Hid in Hx. by destruct Hx. }
  split.
  - intros b o [[<- <-]|[_ Hb]]%lookup_insert_Some; [|by apply (Hcl b)].
    by rewrite Hreg, Hclosed.
  - intros b o x v [[<- <-]|[_ Hb]]%lookup_insert_Some Hx.
    + by rewrite Hreg in Hx.
    + destruct (Hen _ _ _ _ Hb Hx). eauto using sink_ok_mono.
  - intros b o v [[<- <-]|[_ Hb]]%lookup_insert_Some Hv; [|by eauto using sink_ok_mono].
    rewrite Hsig in Hv. by apply not_elem_of_nil in Hv.
  - intros a c [[<- <-]|[_ Ha]]%lookup_insert_Some; [done|by apply (Hop a)].
  - intros a c b [[<- <-]|[_ Ha]]%lookup_insert_Some Hrun Hb.
    + rewrite Hwd, lookup_empty in Hb. by destruct Hb.
    + destruct (Hwa _ _ _ Ha Hrun Hb) as (o & Ho & ?). exists o.
      rewrite lookup_insert_ne by congruence. done.
  - rewrite lookup_insert_ne; done.
  - auto.
Qed.

Lemma watch_inv_watched r rw cs a c b o mb l :
  watch_inv r rw cs → cs !! a = Some c → cs !! b = Some o →
  watcher_registry mb = registry_of c → mopen mb = mopen (mailbox c) →
  mqueue mb = mqueue (mailbox c) ++ l →
  is_Some (registered (registry_of o) !! a) ∨ Terminated b ∈ mqueue mb →
  watch_inv r rw (<[a := set_mailbox (set_watched c (<[b := b]> (watched c))) mb]> cs).
Proof.
  intros Hinv Ha Hb Hreg Hopen Hq Hdue.
  (* first the mailbox, then the entry *)
  set (c1 := set_mailbox c mb).
  assert (benign c c1) as Hbn.
  { split; try done. intros _ x _ Hx. simpl. rewrite Hq. set_solver. }
  pose proof (watch_inv_benign _ _ _ _ _ _ Hinv Ha Hbn) as [Hcl Hen Hsi Hop Hwa Hrw Hr].
  set (cs1 := <[a := c1]> cs) in *.
  assert (cs1 !! a = Some c1) as Ha1 by apply lookup_insert_eq.
  assert (∃ o1, cs1 !! b = Some o1 ∧ registry_of o1 = registry_of o) as (o1 & Hb1 & Ho1).
  { subst cs1. rewrite lookup_insert. destruct (decide (a = b)) as [<-|]; [|by eauto].
    simplify_eq. by exists c1. }
  rewrite <-(insert_insert_eq cs a _ c1). fold cs1.
  set (c2 := set_mailbox _ mb).
  assert (∀ x v, sink_ok cs1 r rw x v → sink_ok (<[a := c2]> cs1) r rw x v) as Hok.
  { intros x v. apply sink_ok_mono. intros y. by rewrite (insert_dom _ _ c1). }
  assert (∀ x ox, <[a := c2]> cs1 !! x = Some ox → ∃ o0, cs1 !! x = Some o0 ∧
            registry_of ox = registry_of o0 ∧ phase ox = phase o0 ∧ mailbox ox = mailbox o0) as Hcell.
  { intros x ox [[<- <-]|[_ Hx]]%lookup_insert_Some; eauto 10. }
  assert (∀ x y cx cx', mailbox cx' = mailbox cx → signal_due cs1 x y cx →
            signal_due (<[a := c2]> cs1) x y cx') as Hsd.
  { intros x y cx cx' Hm (oy & Hoy & Hcase). rewrite <-Hm in Hcase.
    destruct (decide (a = y)) as [<-|]; [|by exists oy; rewrite lookup_insert_ne].
    simplify_eq. exists c2. by rewrite lookup_insert_eq. }
  split.
  - intros x ox Hx. destruct (Hcell _ _ Hx) as (o0 & Hx0 & -> & -> & _). by apply (Hcl x).
  - intros x ox y v Hx. destruct (Hcell _ _ Hx) as (o0 & Hx0 & -> & _). intros Hy.
    destruct (Hen _ _ _ _ Hx0 Hy). auto.
  - intros x ox v Hx. destruct (Hcell _ _ Hx) as (o0 & Hx0 & _ & -> & _). eauto.
  - intros x ox Hx. destruct (Hcell _ _ Hx) as (o0 & Hx0 & _ & -> & ->). by eapply Hop.
  - intros x cx y [[<- <-]|[_ Hx]]%lookup_insert_Some Hrun Hy; [|by eapply (Hsd x y cx); eauto].
    subst c2. simpl in Hy. destruct (decide (b = y)) as [<-|Hne].
    + apply (Hsd a b c1); [done|]. exists o1. split; [done|]. rewrite Ho1.
      destruct Hdue; [by left|by do 2 right].
    + rewrite lookup_insert_ne in Hy by done. apply (Hsd a y c1); [done|]. by apply (Hwa a).
  - rewrite lookup_insert_ne; [done|]. congruence.
  - by rewrite (insert_dom _ _ c1).
Qed.

Lemma watch_inv_take r rw cs a c mb ws :
  watch_inv r rw cs → cs !! a = Some c → closed (phase c) = false → running (phase c) = false →
  take_watchers (mailbox c) = (ws, mb) →
  watch_inv r rw (<[a := set_phase (set_mailbox c mb) (Terminating (TSignal ws))]> cs).
Proof.
  intros Hinv Ha Hncl Hnrun Ht. pose proof Hinv as [Hcl Hen Hsi Hop Hwa Hrw Hr].
  set (c' := set_phase _ _).
  unfold take_watchers, registry_take in Ht. simplify_eq/=.
  assert (∀ v, v ∈ signals (phase c') ↔ ∃ x, registered (registry_of c) !! x = Some v) as Hws.
  { intros v. simpl. unfold registry_of, registered. destruct (watcher_registry (mailbox c)) as [m|].
    - rewrite list_elem_of_fmap. setoid_rewrite <-elem_of_map_to_list. split.
      + intros ([x v'] & -> & Hin). by exists x.
      + intros [x Hin]. by exists (x, v).
    - simpl. setoid_rewrite lookup_empty. set_solver. }
  assert (∀ x v, sink_ok cs r rw x v → sink_ok (<[a := c']> cs) r rw x v) as Hok.
  { intros x v. apply sink_ok_mono. intros y. by rewrite (insert_dom _ _ c). }
  split.
  - by intros b o [[<- <-]|[_ Hb]]%lookup_insert_Some; [|by apply (Hcl b)].
  - intros b o x v [[<- <-]|[_ Hb]]%lookup_insert_Some Hx.
    + done.
    + destruct (Hen _ _ _ _ Hb Hx). auto.
  - intros b o v [[<- <-]|[_ Hb]]%lookup_insert_Some Hv; [|by eauto].
    apply Hws in Hv as [x Hx]. apply Hok. by apply (Hen a c x v).
  - intros b o [[<- <-]|[_ Hb]]%lookup_insert_Some; [done|by apply (Hop b)].
  - intros x cx y [[<- <-]|[_ Hx]]%lookup_insert_Some Hrun Hy; [done|].
    destruct (Hwa _ _ _ Hx Hrun Hy) as (oy & Hoy & Hcase).
    destruct (decide (a = y)) as [<-|]; [|by exists oy; rewrite lookup_insert_ne].
    simplify_eq. exists c'. rewrite lookup_insert_eq. split; [done|].
    destruct Hcase as [[v Hv]|[(v & Hv & _)|Hq]]; [|rewrite (signals_open _ Hncl) in Hv; by apply not_elem_of_nil in Hv|by do 2 right].
    right. left. exists v. split; [apply Hws; by exists x|].
    by eapply (wi_key_mailbox r rw cs a c x v); eauto.
  - rewrite lookup_insert_ne; [done|]. congruence.
  - by rewrite (insert_dom _ _ c).
Qed.

(** Going on to the next watcher once the signal to [x] is queued, or [x] is not an actor. *)
Lemma watch_inv_pop r rw cs a c x rest :
  watch_inv r rw cs → cs !! a = Some c → phase c = Terminating (TSignal (x :: rest)) →
  (∀ to t, terminated_sink x = MailboxSink to → cs !! to = Some t → running (phase t) = true →
     Terminated a ∈ mqueue (mailbox t)) →
  watch_inv r rw (<[a := set_phase c (Terminating (TSignal rest))]> cs).
Proof.
  intros [Hcl Hen Hsi Hop Hwa Hrw Hr] Ha Hp Hsent. set (c' := set_phase _ _).
  assert (∀ y v, sink_ok cs r rw y v → sink_ok (<[a := c']> cs) r rw y v) as Hok.
  { intros y v. apply sink_ok_mono. intros z. by rewrite (insert_dom _ _ c). }
  split.
  - intros b o [[<- <-]|[_ Hb]]%lookup_insert_Some; [|by apply (Hcl b)].
    pose proof (Hcl _ _ Ha) as Hc. rewrite Hp in Hc. done.
  - intros b o y v [[<- <-]|[_ Hb]]%lookup_insert_Some Hy.
    + destruct (Hen _ _ _ _ Ha Hy). auto.
    + destruct (Hen _ _ _ _ Hb Hy). auto.
  - intros b o v [[<- <-]|[_ Hb]]%lookup_insert_Some Hv; [|by eauto].
    apply Hok, (Hsi a c); [done|]. rewrite Hp. simpl in *. set_solver.
  - intros b o [[<- <-]|[_ Hb]]%lookup_insert_Some; [done|by apply (Hop b)].
  - intros y cy z [[<- <-]|[_ Hy]]%lookup_insert_Some Hrun Hz; [done|].
    destruct (Hwa _ _ _ Hy Hrun Hz) as (oz & Hoz & Hcase).
    destruct (decide (a = z)) as [<-|]; [|by exists oz; rewrite lookup_insert_ne].
    simplify_eq. exists c'. rewrite lookup_insert_eq. split; [done|].
    destruct Hcase as [?|[(v & Hv & Hs)|Hq]]; [by left| |by do 2 right].
    rewrite Hp in Hv. simpl in *. apply elem_of_cons in Hv as [->|Hv]; [|by right; left; eauto].
    do 2 right. by eapply Hsent.
  - rewrite lookup_insert_ne; [done|]. congruence.
  - by rewrite (insert_dom _ _ c).
Qed.

(** *** Every move *)

Lemma quiet_benign c p : quiet (phase c) p → benign c (set_phase c p).
Proof.
  intros Hq. assert (closed p = closed (phase c) ∧ signals p = signals (phase c) ∧
                     (running p = true → running (phase c) = true)) as (H1 & H2 & H3).
  { destruct Hq as [q q' Hr _ Hr' _|q Hr _|]; [| |done].
    - split_and!; [by destruct q, q'|by destruct q, q'|done].
    - split_and!; [by destruct q|by destruct q|done]. }
  by split.
Qed.

Lemma received_benign c mb i :
  watcher_registry mb = registry_of c → mopen mb = mopen (mailbox c) →
  mqueue (mailbox c) = i :: mqueue mb → benign c (set_stop_poll (received c mb i) Unpolled).
Proof.
  intros Hreg Hop Hq.
  assert (mailbox (received c mb i) = mb ∧ phase (received c mb i) = phase c) as [Hmb Hph]
    by (by destruct i).
  split; simpl; rewrite ?Hph, ?Hmb; try done.
  - unfold registry_of at 1. simpl. by rewrite Hmb.
  - destruct i as [m|other]; simpl; [done|]. intros _ b [x [_ Hx]%lookup_delete_Some]. by exists x.
  - rewrite Hq. intros _ b Hb Hin. destruct i as [m|other]; simpl in *; [set_solver|].
    apply elem_of_cons in Hin as [[= ->]|?]; [|done].
    rewrite lookup_delete_eq in Hb. by destruct Hb.
Qed.

Lemma stopping_benign old c p restart g :
  stopping old c p restart → benign c (set_phase (set_generation c g) p).
Proof. intros [d Hp|Hp]; split; simpl; rewrite ?Hp; done. Qed.

Lemma awaited_benign c p : after_children (phase c) = Some p → benign c (set_phase c p).
Proof.
  intros Hp. assert (closed p = closed (phase c) ∧ signals p = signals (phase c) ∧
                     (running p = true → running (phase c) = true)) as (H1 & H2 & H3).
  { by destruct (phase c) as [| | | | | | |[]|]; simplify_eq/=. }
  by split.
Qed.

Lemma sent_benign c forced m r mb : send_message forced m (mailbox c) = (r, mb) → benign c (set_mailbox c mb).
Proof.
  intros Hs. apply send_message_effect in Hs as (? & ? & Hq & _). split; try done.
  intros _ x _ Hx. simpl. rewrite Hq. set_solver.
Qed.
Lemma signaled_benign c a r mb : send_terminated a (mailbox c) = (r, mb) → benign c (set_mailbox c mb).
Proof.
  intros Hs. apply send_terminated_effect in Hs as (? & ? & _ & Hq). split; try done.
  intros _ x _ Hx. simpl. rewrite Hq. set_solver.
Qed.
Lemma locals_benign c n q : benign c (set_stop_poll (set_restarts c n) q).
Proof. by split. Qed.
Lemma unwatched_benign c b : benign c (set_watched c (delete b (watched c))).
Proof. split; try done. intros _ x. simpl. intros [y [_ Hx]%lookup_delete_Some]. by exists y. Qed.
Lemma recv_benign c i mb : recv (mailbox c) = (Ready (Some i), mb) → benign c (set_stop_poll (received c mb i) Unpolled).
Proof. intros (? & ? & ?)%recv_effect. by apply received_benign. Qed.
Lemma deregistered_benign c b rest :
  phase c = Terminating (TDeregister (b :: rest)) → benign c (set_phase c (Terminating (TDeregister rest))).
Proof. intros Hp. split; simpl; by rewrite ?Hp. Qed.
Lemma drained_benign c l mb :
  phase c = Terminating TDrain → split_drain (mailbox c) = (l, mb) → benign c (set_phase (set_mailbox c mb) (Terminating TDropRx)).
Proof. intros Hp (? & _)%split_drain_effect. split; simpl; by rewrite ?Hp. Qed.
Lemma rx_dropped_benign c l :
  phase c = Terminating TDropRx →
  benign c (set_phase (set_watched (set_mailbox c (split_drop_rx (mailbox c))) ∅) (Terminating (TDeregister l))).
Proof. intros Hp. destruct (split_drop_rx_effect (mailbox c)) as (? & _). split; simpl; by rewrite ?Hp. Qed.
Lemma context_dropped_benign c : phase c = Terminating TDropContext → benign c (set_phase c (Terminating TTakeWatchers)).
Proof. intros Hp. split; simpl; by rewrite ?Hp. Qed.
Lemma done_benign c : phase c = Terminating (TSignal []) → benign c (set_phase c Done).
Proof. intros Hp. split; simpl; by rewrite ?Hp. Qed.

Create HintDb benign discriminated.
#[local] Hint Resolve quiet_benign stopping_benign awaited_benign sent_benign signaled_benign locals_benign : benign.
#[local] Hint Resolve unwatched_benign recv_benign deregistered_benign drained_benign rx_dropped_benign : benign.
#[local] Hint Resolve context_dropped_benign done_benign : benign.

Lemma cells_stop_children a c w :
  cells (stop_children a c w).2 = <[a := set_generation c (Datatypes.S (generation c))]> (cells w).
Proof. done. Qed.

(** Signaling one watcher: the signal is queued, then the next watcher is up. *)
Lemma watch_inv_signal r rw cs a c x rest to t ta mb res :
  watch_inv r rw cs → cs !! a = Some c → phase c = Terminating (TSignal (x :: rest)) →
  terminated_sink x = MailboxSink to →
  cs !! to = Some t → send_terminated a (mailbox t) = (res, mb) →
  <[to := set_mailbox t mb]> cs !! a = Some ta →
  watch_inv r rw (<[a := set_phase ta (Terminating (TSignal rest))]> (<[to := set_mailbox t mb]> cs)).
Proof.
  intros Hinv Ha Hp Hx Hto Hs Hta.
  pose proof (signaled_benign _ _ _ _ Hs) as Hbn.
  apply send_terminated_effect in Hs as (Hreg & Hop & Hok & Hq).
  apply (watch_inv_pop _ _ _ a _ x).
  - by eapply watch_inv_benign.
  - done.
  - by apply lookup_insert_Some in Hta as [[<- <-]|[_ Hta]]; simplify_eq/=.
  - intros to' t' Hx' Ht' Hrun. rewrite Hx in Hx'. simplify_eq.
    rewrite lookup_insert_eq in Ht'. simplify_eq/=. rewrite Hq, Hok.
    rewrite (wi_open _ _ _ Hinv _ _ Hto Hrun). set_solver.
Qed.

Lemma watch_inv_add r rw cs b o v :
  watch_inv r rw cs → cs !! b = Some o → sink_ok cs r rw b v →
  watch_inv r rw (<[b := with_registry o (registry_add v (registry_of o)).2]> cs).
Proof.
  intros Hinv Hb Hok. apply watch_inv_registry; [done|done| | |].
  - apply registry_add_none.
  - intros x v' [?|[-> ->]]%registry_add_lookup; auto.
  - intros a c _ _ _ [v' Hv']. destruct (registry_of o) as [ws|] eqn:Hreg; [|done].
    destruct (decide (a = watcher_id v)) as [->|].
    + by rewrite registry_add_registered.
    + rewrite registry_add_other by done. by exists v'.
Qed.

Lemma watch_inv_remove r rw cs a c b o :
  watch_inv r rw cs → cs !! b = Some o → cs !! a = Some c →
  (running (phase c) = true → watched c !! b = None) →
  watch_inv r rw (<[b := with_registry o (registry_remove a (registry_of o))]> cs).
Proof.
  intros Hinv Hb Ha Hnot. apply watch_inv_registry; [done|done| | |].
  - apply registry_remove_none.
  - intros x v'. rewrite registry_remove_registered. case_decide; [done|]. by left.
  - intros x cx Hx Hrun Hw Hreg. rewrite registry_remove_registered.
    rewrite decide_False; [done|]. intros ->. simplify_eq. rewrite Hnot in Hw by done. by destruct Hw.
Qed.

(** A new actor, watching nobody and watched by nobody. *)
Lemma watch_inv_spawned w a c id (act : B) config p :
  watch_inv (root w) (root_watcher w) (cells w) → fresh id w = true → handling p = true →
  watch_inv (root w) (root_watcher w)
    (<[id := mk_cell (handle_clone (handle_clone (make_mailbox (mailbox_capacity config)))) ∅
               0%nat act config (ContextKey a (generation c)) 0%N p Unpolled]> (cells w)).
Proof.
  intros Hinv Hf Hp. unfold fresh in Hf. case_bool_decide as Hf'; [|done]. destruct Hf' as [Hf1 Hf2].
  destruct (make_mailbox_effect (Sink:=Sink) (M:=M) (mailbox_capacity config)) as (Hr & Ho & _).
  destruct (handle_clone_effect (make_mailbox (Sink:=Sink) (M:=M) (mailbox_capacity config))) as (Hr1 & Ho1 & _).
  destruct (handle_clone_effect (handle_clone (make_mailbox (Sink:=Sink) (M:=M) (mailbox_capacity config)))) as (Hr2 & Ho2 & _).
  apply watch_inv_fresh; try done.
  - unfold registry_of. simpl mailbox. congruence.
  - simpl. by destruct p.
  - simpl. by destruct p.
Qed.

Lemma watch_inv_signaled w a c x rest to t r mb :
  watch_inv (root w) (root_watcher w) (cells w) → cells w !! a = Some c → phase c = Terminating (TSignal (x :: rest)) →
  terminated_sink x = MailboxSink to →
  <[a := set_phase c (Terminating (TSignal rest))]> (cells w) !! to = Some t → send_terminated a (mailbox t) = (r, mb) →
  watch_inv (root w) (root_watcher w) (<[to := set_mailbox t mb]> (<[a := set_phase c (Terminating (TSignal rest))]> (cells w))).
Proof.
  intros Hinv Hc Hp Hx Hto Hs. destruct (decide (to = a)) as [->|Hne].
  - rewrite lookup_insert_eq in Hto. simplify_eq. simpl in Hs. rewrite insert_insert_eq.
    pose proof (watch_inv_signal _ _ _ a c x rest a c (set_mailbox c mb) mb r Hinv Hc Hp Hx Hc Hs) as Hi.
    rewrite insert_insert_eq in Hi. apply Hi. apply lookup_insert_eq.
  - rewrite lookup_insert_ne in Hto by done. rewrite insert_insert_ne by done.
    eapply (watch_inv_signal _ _ _ a c x rest to t c); try done. by rewrite lookup_insert_ne.
Qed.

Lemma watch_inv_move w w' u :
  watch_inv (root w) (root_watcher w) (cells w) → Move w w' u →
  watch_inv (root w) (root_watcher w) (cells w').
Proof.
  intros Hinv Hm.
  destruct Hm; rewrite ?cells_drop_root_sink, ?cells_drop_system, ?cells_root_signal; try done;
    simpl; rewrite ?insert_insert_eq; try (eapply watch_inv_benign; by eauto with benign).
  - (* spawn *) by apply watch_inv_spawned.
  - (* register *) eapply watch_inv_add; [done..|]. left. split; [done|]. by eexists.
  - (* watched *)
    replace (set_watched c (<[b:=b]> (watched c)))
      with (set_mailbox (set_watched c (<[b:=b]> (watched c))) (mailbox c)) by (by destruct c).
    eapply (watch_inv_watched _ _ _ _ _ _ o _ []); try done; [by rewrite app_nil_r|by left].
  - (* watched, closed *)
    assert (running (phase c) = true) as Hrun by (by destruct (phase c)).
    apply send_terminated_effect in H3 as (? & ? & Hok & Hq).
    rewrite (wi_open _ _ _ Hinv _ _ H Hrun) in Hok. rewrite Hok in Hq.
    eapply (watch_inv_watched _ _ _ _ _ _ o _ [Terminated b]); try done. right. rewrite Hq. set_solver.
  - (* deregister *) by eapply (watch_inv_remove _ _ _ a c b o).
  - (* take watchers *) eapply watch_inv_take; try done; by rewrite H0.
  - (* signal *) subst w1. by eapply watch_inv_signaled.
  - (* signal root *) subst w1. eapply watch_inv_pop; [done..|]. intros to t Hto. congruence.
  - (* watch root *) apply (watch_inv_add _ _ _ (root w) c watcher); [done..|]. by right.
  - (* watch root, closed *) by rewrite cells_root_signal.
Qed.

Lemma move_root_watcher w w' u : Move w w' u → root_watcher w' = root_watcher w.
Proof.
  intros Hm.
  assert (∀ w, root_watcher (release_root_sender w) = root_watcher w) as Hr.
  { intros w0. unfold release_root_sender. by destruct (owner w0), (sink_alive w0). }
  assert (∀ w, root_watcher (root_signal w).1 = root_watcher w) as Hs.
  { intros w0. unfold root_signal. by destruct (terminated_tx w0). }
  destruct Hm; try done; unfold drop_root_sink, drop_system; rewrite ?Hr; simpl; rewrite ?Hs; done.
Qed.

Lemma watch_inv_system_new {A : Actor M B S E Rq An} id wid act config :
  id ≠ wid → watch_inv id wid (cells (system_new id wid act config)).
Proof.
  intros Hne. simpl.
  destruct (make_mailbox_effect (Sink:=Sink) (M:=M) (mailbox_capacity config)) as (Hr & Ho & _).
  destruct (handle_clone_effect (make_mailbox (Sink:=Sink) (M:=M) (mailbox_capacity config)))
    as (Hr1 & Ho1 & _).
  destruct (handle_clone_effect (handle_clone (make_mailbox (Sink:=Sink) (M:=M) (mailbox_capacity config))))
    as (Hr2 & Ho2 & _).
  assert (registry_of (new_cell id act config SystemKey) = Some ∅) as Hreg.
  { unfold registry_of, new_cell. simpl mailbox. congruence. }
  split.
  - intros b o [<- <-]%lookup_singleton_Some. by rewrite Hreg.
  - intros b o x v [<- <-]%lookup_singleton_Some. by rewrite Hreg.
  - intros b o v [<- <-]%lookup_singleton_Some Hv. by apply not_elem_of_nil in Hv.
  - intros b o [<- <-]%lookup_singleton_Some _. unfold new_cell. simpl mailbox. congruence.
  - intros b o x [<- <-]%lookup_singleton_Some _ Hx. simpl in Hx. rewrite lookup_empty in Hx.
    by destruct Hx.
  - by rewrite lookup_singleton_ne.
  - rewrite lookup_singleton_eq. by eexists.
Qed.
End Watching.

#[export] Hint Resolve quiet_benign stopping_benign awaited_benign sent_benign signaled_benign locals_benign : benign.
#[export] Hint Resolve unwatched_benign recv_benign deregistered_benign drained_benign rx_dropped_benign : benign.
#[export] Hint Resolve context_dropped_benign done_benign : benign.
