(* ===== verification/RuntimeSystem.v ===== *)
(** The actor system as its owner sees it: the whole tree is gone once [ActorSystem::terminated]
    resolves, it does resolve once the root has terminated, and dropping the system stops nothing.
    The invariants of the tree and of watching are put together here, along runs of the system. *)
From S2P Require Import Prelude Backoff Config Flume Quota Actor Mailbox MailboxSpec Tokio Runtime RuntimeMoves RuntimeTree RuntimeWatch.

Section System.
Context {F : Flume} {FL : FlumeLaws F} {TW : TokioWatch} {TL : TokioWatchLaws TW}.
Context {TO : TokioOneshot} {TOL : TokioOneshotLaws TO}.
Context {M B S E : Type} {Rq : Type} {An : Rq → Type}.
#[local] Abbreviation World := (World (M:=M) (B:=B) (S:=S) (E:=E) (Rq:=Rq) (An:=An)).
#[local] Abbreviation Cell := (Cell (M:=M) (B:=B) (S:=S) (E:=E) (Rq:=Rq) (An:=An)).
#[local] Abbreviation Phase := (Phase (M:=M) (B:=B) (S:=S) (E:=E) (Rq:=Rq) (An:=An)).
#[local] Abbreviation Obs := (Obs (M:=M)).
Implicit Types (w : World) (c o : Cell) (p : Phase) (a b : ActorId) (t u : list Obs).

(** The watcher of the root is registered or about to be signaled. *)
Definition has_root_sink (rw : ActorId) c : Prop :=
  ∃ v, terminated_sink v = RootSink ∧
    (registered (registry_of c) !! rw = Some v ∨ v ∈ signals (phase c)).

Record root_inv w t : Prop := {
  ri_channel : ∃ ch, stop_channels w !! SystemKey = Some ch ∧
                 (tx_alive ch = false → sink_alive w = false) ∧
                 (sent ch = true → OStopRequested ∈ t);
  ri_constructing : owner w = Constructing → terminated_tx w = true ∧ sink_alive w = true ∧
                      ∀ c, cells w !! root w = Some c → ¬ has_root_sink (root_watcher w) c;
  ri_registered : owner w ≠ Constructing → terminated_tx w = true →
                    ∃ c, cells w !! root w = Some c ∧ has_root_sink (root_watcher w) c;
  ri_sink : sink_alive w = false → terminated_tx w = false;
  ri_signaled : terminated_tx w = false →
                    ∃ c, cells w !! root w = Some c ∧ closed (phase c) = true;
  ri_poll : terminated_tx w = true → oneshot_poll (terminated_rx w) = Pending;
  ri_rx : owner w ≠ Dropped → receiver_gone (terminated_rx w) = false ∧
            (terminated_tx w = false → oneshot_poll (terminated_rx w) = Ready (Ok ()));
}.

(** A world's fields about the owner. *)
Definition owner_fields w := (root w, root_watcher w, owner w, sink_alive w, terminated_tx w, terminated_rx w).

(** What a move may do to the root's cell. *)
Definition root_cell_kept w w' : Prop :=
  ∀ c, cells w !! root w = Some c → ∃ c', cells w' !! root w = Some c' ∧
    (has_root_sink (root_watcher w) c ↔ has_root_sink (root_watcher w) c') ∧
    (closed (phase c) = true → closed (phase c') = true).

Lemma root_inv_frame w w' t u :
  owner_fields w' = owner_fields w →
  (∀ ch, stop_channels w !! SystemKey = Some ch → ∃ ch', stop_channels w' !! SystemKey = Some ch' ∧
     tx_alive ch' = tx_alive ch ∧ (sent ch' = true → sent ch = true ∨ OStopRequested ∈ u)) →
  is_Some (cells w !! root w) → root_cell_kept w w' → root_inv w t → root_inv w' (t ++ u).
Proof.
  unfold owner_fields, root_cell_kept. destruct w, w'. simpl. intros Hf Hch Hroot Hk [Hc H1 H2 H3 H4 H5 H6].
  simplify_eq. split; simpl in *; try done.
  - destruct Hc as (ch & Hl & Ha & Hs). destruct (Hch _ Hl) as (ch' & Hl' & Ha' & Hs').
    exists ch'. split; [done|]. rewrite Ha'. split; [done|].
    intros Hsent. destruct (Hs' Hsent); set_solver.
  - intros Hown. destruct (H1 Hown) as (? & ? & Hno). split_and!; [done..|]. intros c' Hc'.
    assert (∃ c0, cells !! root = Some c0) as [c0 Hc0] by (by apply Hroot).
    destruct (Hk _ Hc0) as (c1 & Hc1 & Hiff & _). simplify_eq. rewrite <-Hiff. by apply Hno.
  - intros Hown Htx. destruct (H2 Hown Htx) as (c & Hc1 & Hs).
    destruct (Hk _ Hc1) as (c' & Hc' & Hs' & _). exists c'. by rewrite <-Hs'.
  - intros Htx. destruct (H4 Htx) as (c & Hc1 & Hs).
    destruct (Hk _ Hc1) as (c' & Hc' & _ & Hs'). eauto.
Qed.

Lemma root_cell_insert w w' a c c' :
  cells w !! a = Some c → cells w' = <[a := c']> (cells w) →
  (a = root w → has_root_sink (root_watcher w) c ↔ has_root_sink (root_watcher w) c') →
  (closed (phase c) = true → closed (phase c') = true) → root_cell_kept w w'.
Proof.
  intros Ha Hw Hs Hc x Hx. rewrite Hw, lookup_insert.
  destruct (decide (a = root w)) as [->|]; simplify_eq; eauto.
Qed.

Lemma root_cell_benign w w' a c c' :
  cells w !! a = Some c → cells w' = <[a := c']> (cells w) → benign c c' → root_cell_kept w w'.
Proof.
  intros Ha Hw [Hr Hcl Hsi _ _ _ _]. eapply root_cell_insert; [done|done| |by rewrite Hcl].
  intros _. unfold has_root_sink. by rewrite Hr, Hsi.
Qed.

Lemma root_cell_registry w w' a c reg' :
  cells w !! a = Some c → cells w' = <[a := with_registry c reg']> (cells w) →
  registered reg' !! root_watcher w = registered (registry_of c) !! root_watcher w →
  root_cell_kept w w'.
Proof.
  intros Ha Hw Hreg. eapply root_cell_insert; [done|done| |done].
  intros ->. unfold has_root_sink, with_registry, registry_of at 2. simpl. by rewrite Hreg.
Qed.

(** Channels of contexts are not the system's. *)
Lemma system_key_alter (f : WatchChan → WatchChan) (m : gmap StopKey WatchChan) a g :
  alter f (ContextKey a g) m !! SystemKey = m !! SystemKey.
Proof. by rewrite lookup_alter_ne. Qed.

Lemma system_key_insert ch (m : gmap StopKey WatchChan) a g :
  <[ContextKey a g := ch]> m !! SystemKey = m !! SystemKey.
Proof. by rewrite lookup_insert_ne. Qed.

Lemma has_root_sink_take r rw cs a c mb ws :
  watch_inv r rw cs → cs !! a = Some c → phase c = Terminating TTakeWatchers →
  take_watchers (mailbox c) = (ws, mb) →
  has_root_sink rw c ↔ has_root_sink rw (set_phase (set_mailbox c mb) (Terminating (TSignal ws))).
Proof.
  intros Hinv Ha Hp Ht. unfold take_watchers, registry_take in Ht. simplify_eq/=.
  unfold has_root_sink, registry_of at 1. rewrite Hp. simpl.
  pose proof (λ x v, wi_entries _ _ _ Hinv a c x v Ha) as Hent. unfold registry_of in Hent.
  destruct (watcher_registry (mailbox c)) as [m|]; simpl in *.
  - setoid_rewrite list_elem_of_fmap. split.
    + intros (v & Hv & [Hin|Hin]); [|by apply not_elem_of_nil in Hin].
      exists v. split; [done|]. right. exists (rw, v). split; [done|]. by apply elem_of_map_to_list.
    + intros (v & Hv & [Hin|([x v'] & -> & Hin)]); [done|]. exists v'. split; [done|]. left.
      apply elem_of_map_to_list in Hin. destruct (Hent _ _ Hin) as [Hid [[Hs _]|(_ & _ & Hrw)]].
      * simpl in Hv. congruence.
      * by rewrite <-Hrw, Hid.
  - set_solver.
Qed.

(** Releasing the root's stop sender. *)
Lemma release_root_sender_channel w ch :
  stop_channels w !! SystemKey = Some ch →
  ∃ ch', stop_channels (release_root_sender w) !! SystemKey = Some ch' ∧ sent ch' = sent ch ∧
    (tx_alive ch' = false → tx_alive ch = false ∨ sink_alive w = false).
Proof.
  intros Hch. unfold release_root_sender. destruct (owner w), (sink_alive w);
    try (by exists ch; split_and!; [done|done|left]).
  exists (watch_drop_tx ch). simpl. rewrite lookup_alter_eq, Hch. simpl. split; [done|].
  destruct (watch_drop_tx_spec ch) as (_ & -> & _). auto.
Qed.

Lemma release_root_sender_fields w : owner_fields (release_root_sender w) = owner_fields w.
Proof. unfold release_root_sender. by destruct (owner w), (sink_alive w). Qed.

(** The root's watcher is signaled and dropped. *)
Lemma root_inv_signal w w1 t u c' :
  root_inv w t → root w1 = root w → root_watcher w1 = root_watcher w →
  owner w1 ≠ Constructing → (owner w1 = Dropped ↔ owner w = Dropped) →
  sink_alive w1 = sink_alive w → terminated_tx w1 = terminated_tx w → terminated_rx w1 = terminated_rx w →
  stop_channels w1 = stop_channels w →
  cells w1 !! root w = Some c' → closed (phase c') = true → 
  root_inv (drop_root_sink (root_signal w1).1) (t ++ u).
Proof.
  intros [Hc _ H2 H3 H4 H5 H6] Hr Hrw Hown Hdrop Hsink Htx Hrx Hstop Hroot Hcl.
  set (w2 := (root_signal w1).1).
  assert (root w2 = root w ∧ owner w2 = owner w1 ∧ stop_channels w2 = stop_channels w ∧
          cells w2 = cells w1 ∧ terminated_tx w2 = false ∧
          (owner w2 ≠ Dropped → receiver_gone (terminated_rx w2) = false ∧
             oneshot_poll (terminated_rx w2) = Ready (Ok ())))
    as (Hr2 & Hown2 & Hstop2 & Hcells2 & Htx2 & Hrx2).
  { subst w2. unfold root_signal. destruct (terminated_tx w1) eqn:Ht; simpl; rewrite ?Hr, ?Hstop.
    - split_and!; try done. intros Hnd. rewrite Hrx. rewrite Hdrop in Hnd.
      destruct (H6 Hnd) as [Hg _].
      pose proof (oneshot_send_spec () () (terminated_rx w) (H5 ltac:(congruence))) as Hs. rewrite Hg in Hs.
      destruct Hs as (ch & -> & ? & ?). done.
    - split_and!; try done. intros Hnd. rewrite Hrx. rewrite Hdrop in Hnd.
      destruct (H6 Hnd) as [Hg Hp]. split; [done|]. apply Hp. congruence. }
  unfold drop_root_sink. set (w3 := mk_world _ _ _ _ _ _ _ _).
  pose proof (release_root_sender_fields w3) as Hf. unfold owner_fields in Hf.
  injection Hf as E1 E2 E3 E4 E5 E6. split.
  - destruct Hc as (ch & Hl & Ha & Hs).
    destruct (release_root_sender_channel w3 ch) as (ch' & Hl' & Hs' & Ha'); [simpl; congruence|].
    exists ch'. split; [done|]. rewrite E4. split; [done|]. rewrite Hs'. set_solver.
  - rewrite E3. simpl. congruence.
  - rewrite E5. simpl. congruence.
  - rewrite E5. by simpl.
  - intros _. rewrite E1, cells_release_root_sender. simpl. rewrite Hr2, Hcells2. eauto.
  - rewrite E5. simpl. congruence.
  - rewrite E3, E5, E6. simpl. intros Hnd. destruct (Hrx2 Hnd). auto.
Qed.

(** The cells a move leaves to watching as they were. *)
Lemma root_cell_signal w w' a c c' x rest :
  watch_inv (root w) (root_watcher w) (cells w) →
  cells w !! a = Some c → phase c = Terminating (TSignal (x :: rest)) →
  (∃ to, terminated_sink x = MailboxSink to) →
  cells w' = <[a := c']> (cells w) → registry_of c' = registry_of c →
  phase c' = Terminating (TSignal rest) → root_cell_kept w w'.
Proof.
  intros Hinv Ha Hp [to Hx] Hw Hreg Hp'. eapply root_cell_insert; [done|done| |by rewrite Hp'].
  intros _. unfold has_root_sink. rewrite Hreg, Hp, Hp'. simpl.
  setoid_rewrite elem_of_cons. split; intros (v & Hv & Hcase); exists v; (split; [done|]).
  - destruct Hcase as [?|[->|?]]; [by left|congruence|by right].
  - destruct Hcase as [?|?]; auto.
Qed.

(** A move which leaves the owner and the system's channel alone. *)
Lemma root_inv_kept w w' t u :
  root_inv w t → is_Some (cells w !! root w) → owner_fields w' = owner_fields w →
  stop_channels w' !! SystemKey = stop_channels w !! SystemKey → root_cell_kept w w' → root_inv w' (t ++ u).
Proof.
  intros Hinv Hroot Hf Hch Hk. apply (root_inv_frame w); try done. intros ch Hl. exists ch. rewrite Hch. auto.
Qed.
Lemma root_inv_benign w w' t u a c c' :
  root_inv w t → is_Some (cells w !! root w) → owner_fields w' = owner_fields w →
  stop_channels w' !! SystemKey = stop_channels w !! SystemKey →
  cells w !! a = Some c → cells w' = <[a := c']> (cells w) → benign c c' → root_inv w' (t ++ u).
Proof. intros Hinv Hroot Hf Hch Ha Hw Hb. apply (root_inv_kept w); try done. by eapply root_cell_benign. Qed.

(** *** The moves which are more than that *)

Lemma root_cell_spawned w w' id child : fresh id w = true → cells w' = <[id := child]> (cells w) → root_cell_kept w w'.
Proof.
  intros Hf Hw. unfold fresh in Hf. case_bool_decide as Hf'; [|done]. destruct Hf' as [Hf1 Hf2].
  intros x Hx. exists x. rewrite Hw, lookup_insert_ne by congruence. done.
Qed.

Lemma root_cell_signaled w a c x rest to tc r mb :
  watch_inv (root w) (root_watcher w) (cells w) → cells w !! a = Some c → phase c = Terminating (TSignal (x :: rest)) →
  terminated_sink x = MailboxSink to →
  let w1 := put_cell a (set_phase c (Terminating (TSignal rest))) w in
  cells w1 !! to = Some tc → send_terminated a (mailbox tc) = (r, mb) →
  root_cell_kept w (put_cell to (set_mailbox tc mb) w1).
Proof.
  intros Hwatch Hc Hp Hx w1 Hto Hs. subst w1. apply send_terminated_effect in Hs as (Hr & _). intros y Hy. simpl in *.
  destruct (decide (to = a)) as [->|Hne].
  - rewrite lookup_insert_eq in Hto. simplify_eq. simpl in *. rewrite insert_insert_eq.
    eapply (root_cell_signal w (put_cell a (set_mailbox (set_phase c (Terminating (TSignal rest))) mb) w) a c); eauto.
  - rewrite lookup_insert_ne in Hto by done.
    assert (root_cell_kept w (put_cell a (set_phase c (Terminating (TSignal rest))) w)) as Hk
      by (eapply (root_cell_signal w _ a c); eauto).
    destruct (Hk y Hy) as (y' & Hy' & Hiff & Hcl). simpl in Hy'. rewrite lookup_insert.
    destruct (decide (to = root w)) as [->|]; [|by eauto].
    rewrite lookup_insert_ne, Hy in Hy' by done. injection Hy' as <-.
    rewrite Hy in Hto. injection Hto as <-. exists (set_mailbox y mb). split; [done|].
    unfold has_root_sink, registry_of. simpl. by rewrite Hr.
Qed.

Lemma root_inv_signaled_root w t u a c x rest :
  watch_inv (root w) (root_watcher w) (cells w) → root_inv w t →
  cells w !! a = Some c → phase c = Terminating (TSignal (x :: rest)) → terminated_sink x = RootSink →
  let w1 := put_cell a (set_phase c (Terminating (TSignal rest))) w in
  root_inv (drop_root_sink (root_signal w1).1) (t ++ u).
Proof.
  intros Hwatch Hinv Hc Hp Hx w1. subst w1.
  destruct (wi_signals _ _ _ Hwatch a c x Hc) as [[Hx' _]|(_ & -> & _)];
    [by rewrite Hp; apply elem_of_cons; left|congruence|].
  assert (owner w ≠ Constructing) as Hown.
  { intros Hown. destruct (ri_constructing _ _ Hinv Hown) as (_ & _ & Hno). apply (Hno _ Hc).
    exists x. split; [done|]. right. rewrite Hp. simpl. set_solver. }
  eapply (root_inv_signal w _ t _ _ Hinv); try done; [by apply lookup_insert_eq|done].
Qed.

Lemma root_inv_done w t u a c :
  root_inv w t → is_Some (cells w !! root w) → cells w !! a = Some c → phase c = Terminating (TSignal []) →
  root_inv (put_cell a (set_phase c Done) (release_parent (parent_stopping c) w)) (t ++ u).
Proof.
  intros Hinv Hroot Hc Hp. apply (root_inv_frame w); [done| |done| |done].
  - intros ch Hch. simpl. rewrite lookup_alter. destruct (decide (parent_stopping c = SystemKey)) as [->|].
    + rewrite Hch. eexists. split; [done|]. simpl.
      destruct (watch_drop_rx_spec (watch_drop_rx ch)) as (_ & -> & ->).
      destruct (watch_drop_rx_spec ch) as (_ & -> & ->). auto.
    + exists ch. auto.
  - eapply root_cell_benign; [done..|]. by apply done_benign.
Qed.

Lemma root_inv_watch_root w t u c :
  watch_inv (root w) (root_watcher w) (cells w) → root_inv w t →
  cells w !! root w = Some c → owner w = Constructing →
  let watcher := watcher_new (root_watcher w) RootSink in
  watcher_registry (mailbox c) ≠ None →
  root_inv (set_owner (put_cell (root w) (set_mailbox c (set_registry (mailbox c)
              (registry_add watcher (watcher_registry (mailbox c))).2)) w) Owning) (t ++ u).
Proof.
  intros Hwatch [Hc H2 _ H4 H5 H6 H7] Hcell Hown watcher Hreg. pose proof (wi_root_watcher _ _ _ Hwatch) as Hrw.
  destruct (H2 Hown) as (Htx & Hsink & Hno). split; simpl; try done.
  - destruct Hc as (ch & ? & ? & ?). exists ch. split_and!; [done..|set_solver].
  - intros _ _. rewrite lookup_insert_eq. eexists. split; [done|].
    exists (default watcher (registered (watcher_registry (mailbox c)) !! root_watcher w)).
    assert (terminated_sink (default watcher (registered (watcher_registry (mailbox c)) !! root_watcher w)) = RootSink) as Hs.
    { destruct (registered _ !! root_watcher w) as [v|] eqn:Hv; [|done]. simpl.
      destruct (wi_entries _ _ _ Hwatch _ _ _ _ Hcell Hv) as [Hid [[_ [? Hx]]|(? & _)]]; [|done].
      rewrite Hid in Hx. congruence. }
    split; [done|]. left. unfold registry_of. simpl. by apply (registry_add_registered watcher).
  - congruence.
  - intros _. apply H7. congruence.
Qed.

Lemma root_inv_drop_system w t : owner w = Owning → root_inv w t → root_inv (drop_system w) (t ++ []).
Proof.
  intros Hown [Hc H2 H3 H4 H5 H6 H7]. unfold drop_system. set (w3 := mk_world _ _ _ _ _ _ _ _).
  pose proof (release_root_sender_fields w3) as Hf. unfold owner_fields in Hf.
  injection Hf as E1 E2 E3 E4 E5 E6. rewrite app_nil_r. split.
  - destruct Hc as (ch & Hl & Ha & Hs).
    destruct (release_root_sender_channel w3 ch) as (ch' & Hl' & Hs' & Ha'); [done|].
    exists ch'. split; [done|]. rewrite E4, Hs'. split; [|done]. intros Hx. by destruct (Ha' Hx); auto.
  - rewrite E3. done.
  - rewrite E1, E2, E5, cells_release_root_sender. simpl. intros _ Htx. apply H3; congruence.
  - rewrite E4, E5. done.
  - rewrite E5, E1, cells_release_root_sender. done.
  - rewrite E5, E6. simpl. intros Htx. destruct (oneshot_drop_rx_spec () (terminated_rx w)) as [-> _]. auto.
  - rewrite E3. done.
Qed.

(** What an awaiting task drops is a channel of its own. *)
Lemma awaited_not_system w a c old (f : WatchChan → WatchChan) :
  tree_inv (root w) (tree_of w) → cells w !! a = Some c → awaiting (phase c) = Some old →
  alter f old (stop_channels w) !! SystemKey = stop_channels w !! SystemKey.
Proof.
  intros Htree Hc Hold. destruct (inv_awaiting _ _ Htree a (node_of c) old) as (g & _ & ->);
    [by apply lookup_node| |by rewrite system_key_alter].
  simpl. by destruct (phase c) as [| | | | | | |[]|]; simplify_eq/=.
Qed.

Lemma root_inv_move w w' t u :
  tree_inv (root w) (tree_of w) → watch_inv (root w) (root_watcher w) (cells w) →
  root_inv w t → Move w w' u → root_inv w' (t ++ u).
Proof.
  intros Htree Hwatch Hinv Hm. pose proof (wi_root _ _ _ Hwatch) as Hroot.
  pose proof (wi_root_watcher _ _ _ Hwatch) as Hrw.
  destruct Hm; try (eapply root_inv_benign; by eauto with benign);
    try (eapply (root_inv_kept w); [done|done|done|done|by eapply (root_cell_insert w _ a c)]).
  - (* spawn *) eapply (root_inv_kept w); try done; [by simpl; rewrite system_key_insert, system_key_alter|by eapply root_cell_spawned].
  - (* register *) apply (root_inv_kept w); [done..|].
    eapply (root_cell_registry w _ b o); [done|done|]. apply (registry_add_other (make_watcher a)). simpl. congruence.
  - (* watched, closed *) apply (root_inv_kept w); [done..|].
    apply send_terminated_effect in H3 as (Hr & _). eapply (root_cell_insert w _ a c); [done|done| |done].
    intros _. unfold has_root_sink, registry_of. simpl. by rewrite Hr.
  - (* deregister *) apply (root_inv_kept w); [done..|].
    eapply (root_cell_registry w _ b o); [done|done|]. unfold registry_of. rewrite registry_remove_registered.
    rewrite decide_False; [done|]. congruence.
  - (* stop children *)
    eapply (root_inv_benign w); [done|done|done| |done|simpl; by rewrite insert_insert_eq|by eauto with benign].
    simpl. by rewrite system_key_alter, system_key_insert.
  - (* awaited *) eapply (root_inv_benign w); [done|done|done|by eapply awaited_not_system|done|done|by eauto with benign].
  - (* drop context *)
    eapply (root_inv_benign w); [done|done|done|by simpl; rewrite system_key_alter|done|done|by eauto with benign].
  - (* take watchers *) apply (root_inv_kept w); [done..|].
    eapply root_cell_insert; [done|done| |done]. intros ->. by eapply has_root_sink_take.
  - (* signal *) apply (root_inv_kept w); [done..|]. by eapply root_cell_signaled.
  - (* signal root *) by eapply root_inv_signaled_root.
  - (* done *) by apply root_inv_done.
  - (* watch root *) by apply root_inv_watch_root.
  - (* watch root, closed *)
    assert (closed (phase c) = true) as Hcl by (by apply (wi_closed _ _ _ Hwatch _ _ H)).
    replace (set_owner (root_signal w).1 Owning) with (root_signal (set_owner w Owning)).1
      by (unfold root_signal; simpl; by destruct (terminated_tx w)).
    eapply (root_inv_signal w (set_owner w Owning) t _ c Hinv); try done. simpl. by rewrite H0.
  - (* stop *) apply (root_inv_frame w); [done| |done| |done].
    + intros ch Hch. simpl. rewrite lookup_alter_eq, Hch. eexists. split; [done|].
      destruct (watch_send_replace_spec ch) as (_ & _ & ->). split; [done|]. intros _. right. set_solver.
    + intros x Hx. eauto.
  - (* drop system *) by apply root_inv_drop_system.
Qed.

(** ** The invariants of every run *)

Record sys_inv (r rw : ActorId) w t : Prop := {
  si_root : root w = r;
  si_root_watcher : root_watcher w = rw;
  si_tree : tree_inv r (tree_of w);
  si_watch : watch_inv r rw (cells w);
  si_owner : root_inv w t;
}.

Lemma sys_inv_move r rw w w' t u : sys_inv r rw w t → Move w w' u → sys_inv r rw w' (t ++ u).
Proof.
  intros [<- <- Ht Hw Hr] Hm. split.
  - by eapply move_root.
  - by eapply move_root_watcher.
  - eapply tree_inv_steps; [|done]. by eapply move_refines_tree.
  - by eapply watch_inv_move.
  - by eapply root_inv_move.
Qed.

Context {A : Actor M B S E Rq An}.

Lemma sys_inv_system_new id wid act config :
  id ≠ wid → sys_inv id wid (system_new id wid act config) [].
Proof.
  intros Hne. pose proof (watch_inv_system_new id wid act config Hne) as Hwatch. split; try done.
  - apply tree_inv_system_new.
  - split; simpl; try done.
    + exists (watch_clone_rx watch_channel). rewrite lookup_insert_eq. split; [done|].
      destruct (watch_clone_rx_spec watch_channel) as (_ & -> & ->).
      destruct watch_channel_spec as (_ & -> & ->). done.
    + intros _. split_and!; [done..|]. intros c Hc (v & Hv & [Hin|Hin]).
      * destruct (wi_entries _ _ _ Hwatch _ _ _ _ Hc Hin) as [Hid [[Hs _]|_]]; [congruence|].
        apply lookup_singleton_Some in Hc as [_ <-]. revert Hin. unfold registry_of, new_cell. simpl mailbox.
        destruct (handle_clone_effect (handle_clone (make_mailbox (Sink:=Sink) (M:=M) (mailbox_capacity config)))) as (-> & _).
        destruct (handle_clone_effect (make_mailbox (Sink:=Sink) (M:=M) (mailbox_capacity config))) as (-> & _).
        destruct (make_mailbox_effect (Sink:=Sink) (M:=M) (mailbox_capacity config)) as (-> & _). done.
      * apply lookup_singleton_Some in Hc as [_ <-]. by apply not_elem_of_nil in Hin.
    + intros _. apply oneshot_channel_spec.
    + intros _. split; [apply oneshot_channel_spec|done].
Qed.

Lemma exec_sys_inv id wid act config ls w t :
  id ≠ wid → exec ls (system_new id wid act config) = Some (w, t) → sys_inv id wid w t.
Proof.
  intros Hne He. eapply (exec_invariant (sys_inv id wid)); [| |done].
  - by apply sys_inv_system_new.
  - intros. by eapply sys_inv_move.
Qed.

(** An actor's parent, or the owner of the system, has a stop channel for it. *)
Lemma parent_channel r rw w t a c :
  sys_inv r rw w t → cells w !! a = Some c → is_Some (stop_channels w !! parent_stopping c).
Proof.
  intros Hsys Ha. destruct (parent_stopping c) as [|p g] eqn:Hp.
  - destruct (ri_channel _ _ (si_owner _ _ _ _ Hsys)) as (ch & ? & _). by exists ch.
  - pose proof (si_tree _ _ _ _ Hsys) as Htree.
    apply (fmap_is_Some rx_count). rewrite <-lookup_fmap. apply (inv_keys _ _ Htree p g).
    destruct (inv_parent _ _ Htree a (node_of c) p g (lookup_node _ _ _ Ha) Hp) as (n & Hn & Hle & _).
    by exists n.
Qed.

(** ** Children first *)

(** [b] is below [a] in the tree. *)
Inductive descends w : ActorId → ActorId → Prop :=
  | descends_child a b c g :
      cells w !! b = Some c → parent_stopping c = ContextKey a g → descends w a b
  | descends_below a b c g d :
      cells w !! b = Some c → parent_stopping c = ContextKey a g → descends w b d → descends w a d.

(** The task has waited for the last generation of its children. *)
Definition children_gone p : bool :=
  match p with
  | Terminating (TDropContext | TTakeWatchers | TSignal _) | Done => true
  | _ => false
  end.

Lemma child_done r w a b c d g :
  tree_inv r (tree_of w) → cells w !! a = Some c → children_gone (phase c) = true →
  cells w !! b = Some d → parent_stopping d = ContextKey a g → phase d = Done.
Proof.
  intros Hinv Ha Hg Hb Hp.
  destruct (inv_parent _ _ Hinv b (node_of d) a g) as (n & Hn & _ & Hmay);
    [by apply lookup_node|done|].
  rewrite (lookup_node _ _ _ Ha) in Hn. simplify_eq.
  destruct (decide (alive (node_of d))) as [Hal|Hal].
  - specialize (Hmay Hal). unfold may_have_children, node_of in Hmay. simpl in Hmay.
    destruct (phase c) as [| | | | | | |[]|]; by simplify_eq/=.
  - unfold alive, node_of in Hal. simpl in Hal.
    destruct (phase d) as [| | | | | | |[]|]; simpl in Hal; try done; by destruct Hal.
Qed.

Lemma descendants_done r w a b c :
  tree_inv r (tree_of w) → descends w a b → cells w !! a = Some c → children_gone (phase c) = true →
  ∃ d, cells w !! b = Some d ∧ phase d = Done.
Proof.
  intros Hinv Hd. revert c. induction Hd as [a b d g Hb Hp|a b d g e Hb Hp _ IH]; intros c Ha Hg.
  - exists d. split; [done|]. by eapply child_done.
  - apply (IH d Hb). by erewrite (child_done r w a b c d g).
Qed.

Lemma descends_snoc w a b d c g :
  descends w a b → cells w !! d = Some c → parent_stopping c = ContextKey b g → descends w a d.
Proof.
  intros Hd Hc Hp. induction Hd as [a b c1 g1 Hb1 Hp1|a b c1 g1 e Hb1 Hp1 _ IH].
  - eapply (descends_below w a b c1 g1 d); [done|done|]. by eapply (descends_child w b d c g).
  - eapply (descends_below w a b c1 g1 d); [done|done|]. by apply IH.
Qed.

(** Every actor is the root or below it. *)
Lemma everyone_descends r w b c :
  tree_inv r (tree_of w) → cells w !! b = Some c → b = r ∨ descends w r b.
Proof.
  intros Hinv. destruct (inv_rank _ _ Hinv) as [rank Hrank].
  remember (rank b) as n eqn:Hn. revert b c Hn.
  induction n as [n IH] using lt_wf_ind. intros b c -> Hb.
  pose proof (lookup_node _ _ _ Hb) as Hnb.
  destruct (parent_stopping c) as [|p g] eqn:Hp.
  - left. by apply (inv_root _ _ Hinv b (node_of c)).
  - right. destruct (inv_parent _ _ Hinv b (node_of c) p g Hnb Hp) as (np & Hnp & _).
    simpl in Hnp. rewrite lookup_fmap in Hnp. apply fmap_Some in Hnp as (cp & Hcp & _).
    destruct (IH (rank p)) with (b := p) (c := cp) as [-> | Hd]; try done.
    + by eapply Hrank.
    + by eapply descends_child.
    + by eapply descends_snoc.
Qed.

(** ** What the runs of a system guarantee *)

(** C9. The runtime refines the tree: whatever the tasks, the senders and the owner do, in whatever
    order, the actors' parents, generations and stop channels evolve by the transitions of the
    abstract tree only, and the number of receivers of every stop channel is exactly two per running
    task spawned under it plus the one its context holds. *)
Theorem runtime_refines_tree id wid act config ls w t :
  id ≠ wid → exec ls (system_new id wid act config) = Some (w, t) →
  rtc tree_step (tree_of (system_new id wid act config)) (tree_of w) ∧ tree_inv id (tree_of w).
Proof.
  intros Hne He. split; [|by eapply si_tree, exec_sys_inv].
  pose proof (exec_invariant (λ w t, sys_inv id wid w t ∧
                rtc tree_step (tree_of (system_new id wid act config)) (tree_of w))
                id wid act config ls w t) as Hi.
  apply Hi; [|clear|done].
  - split; [by apply sys_inv_system_new|constructor].
  - intros w t w' o [Hs Hr] Hm. split; [by eapply sys_inv_move|].
    etransitivity; [done|]. eapply move_refines_tree; [|done].
    pose proof (si_tree _ _ _ _ Hs) as Ht. by rewrite (si_root _ _ _ _ Hs).
Qed.

(** C1. Children terminate before their parent: once an actor drops its context and runs its last
    destructors, in particular before any of its watchers is signaled, the tasks of all actors below
    it have ended. *)
Theorem children_terminate_first id wid act config ls w t a c b :
  id ≠ wid → exec ls (system_new id wid act config) = Some (w, t) →
  cells w !! a = Some c → children_gone (phase c) = true → descends w a b →
  ∃ d, cells w !! b = Some d ∧ phase d = Done.
Proof.
  intros Hne He Ha Hg Hd. eapply descendants_done; [|done..]. by eapply si_tree, exec_sys_inv.
Qed.

(** Once the root has ended, the owner is told. *)
Lemma root_done_terminated id wid w t c :
  sys_inv id wid w t → owner w = Owning → cells w !! id = Some c → phase c = Done → system_terminated w = Ready (Ok ()).
Proof.
  intros [Hr _ _ Hwatch Hroot] Hown Hc Hp. destruct (ri_rx _ _ Hroot ltac:(congruence)) as [_ Hpoll].
  destruct (terminated_tx w) eqn:Htx; [|by apply Hpoll].
  destruct (ri_registered _ _ Hroot ltac:(congruence) Htx) as (c' & Hc' & v & _ & Hv).
  rewrite Hr in Hc'. simplify_eq. rewrite Hp in Hv.
  assert (registry_of c = None) as Hnone by (apply (wi_closed _ _ _ Hwatch _ _ Hc); by rewrite Hp).
  rewrite Hnone in Hv. destruct Hv as [Hv|Hv]; [done|by apply not_elem_of_nil in Hv].
Qed.

(** C5. [ActorSystem::terminated] is exact: while the system is owned, it resolves, never with an
    error, only once the root has run its destructors and every other actor's task has ended, and it
    has resolved once the root's task has ended. *)
Theorem terminated_is_exact id wid act config ls w t :
  id ≠ wid → exec ls (system_new id wid act config) = Some (w, t) → owner w = Owning →
  (∀ r, system_terminated w = Ready r → r = Ok () ∧
     (∃ c, cells w !! id = Some c ∧ closed (phase c) = true) ∧
     (∀ b d, cells w !! b = Some d → b ≠ id → phase d = Done)) ∧
  (∀ c, cells w !! id = Some c → phase c = Done → system_terminated w = Ready (Ok ())).
Proof.
  intros Hne He Hown. pose proof (exec_sys_inv _ _ _ _ _ _ _ Hne He) as Hsys. split; [|intros c; by eapply root_done_terminated].
  destruct Hsys as [Hr Hrw Htree Hwatch Hroot]. unfold system_terminated. destruct (terminated_tx w) eqn:Htx.
  - rewrite (ri_poll _ _ Hroot Htx). done.
  - destruct (ri_rx _ _ Hroot ltac:(congruence)) as [_ ->]; [|done]. intros r [= <-]. split; [done|].
    destruct (ri_signaled _ _ Hroot Htx) as (c & Hc & Hcl). rewrite Hr in Hc. split; [by eauto|].
    intros b d Hb Hbne. destruct (everyone_descends _ _ _ _ Htree Hb) as [|Hd]; [done|].
    destruct (descendants_done _ _ _ _ c Htree Hd Hc) as (d' & Hd' & ?); [|congruence].
    destruct (phase c) as [| | | | | | |[]|]; by simplify_eq/=.
Qed.

(** The root is told to stop by [stop] only, as long as it has not terminated. *)
Lemma root_not_stopped id wid w t c :
  sys_inv id wid w t → OStopRequested ∉ t → cells w !! id = Some c → closed (phase c) = false →
  stopped_by_parent c w = false.
Proof.
  intros [Hr Hrw Htree Hwatch Hroot] Hnot Hc Hcl.
  assert (parent_stopping c = SystemKey) as Hp.
  { by apply (inv_root _ _ Htree id (node_of c)); [apply lookup_node|]. }
  destruct (ri_channel _ _ Hroot) as (ch & Hch & Htx & Hsent).
  unfold stopped_by_parent. rewrite Hp, Hch, has_changed_or_closed_spec.
  apply orb_false_iff. split.
  - destruct (sent ch); [by destruct Hnot; apply Hsent|done].
  - apply negb_false_iff. destruct (tx_alive ch) eqn:Hal; [done|].
    destruct (ri_signaled _ _ Hroot (ri_sink _ _ Hroot (Htx eq_refl))) as (c' & Hc' & Hcl').
    rewrite Hr in Hc'. simplify_eq. congruence.
Qed.

(** C8. Dropping a system stops nothing: unless [ActorSystem::stop] was called, the root is never
    told to stop before it has terminated by itself, whether the system is still owned or not. *)
Theorem dropping_stops_nothing id wid act config ls w t c :
  id ≠ wid → exec ls (system_new id wid act config) = Some (w, t) →
  OStopRequested ∉ t → cells w !! id = Some c → closed (phase c) = false →
  stopped_by_parent c w = false.
Proof. intros Hne He. apply (root_not_stopped id wid). by eapply exec_sys_inv. Qed.

(** The signal of [watch] to the actor itself is always accepted. *)
Lemma watch_succeeds rt rw w a c other ok w' u :
  watch_inv rt rw (cells w) → cells w !! a = Some c → running (phase c) = true →
  watch a other w = Some (ok, w', u) → ok = true.
Proof.
  intros Hwatch Ha Hrun Hw. unfold watch in Hw. apply bind_Some in Hw as (o & Ho & Hw).
  rewrite (on_registry_put _ _ _ _ Ho) in Hw. apply bind_Some in Hw as (c1 & Hc1 & Hw).
  destruct (is_ok _); [by simplify_eq|].
  destruct (signal_mailbox _ _ _ _) as [[[r w2] u2]|] eqn:Hs; simplify_eq/=.
  apply signal_mailbox_some in Hs as (c2 & mb & Hc2 & Hs & _ & _).
  apply send_terminated_effect in Hs as (_ & _ & -> & _).
  simpl in Hc2. rewrite lookup_insert_eq in Hc2. simplify_eq/=.
  assert (mopen (mailbox c1) = mopen (mailbox c)) as ->; [|by apply (wi_open _ _ _ Hwatch a)].
  apply lookup_insert_Some in Hc1 as [[Hab <-]|[_ ?]]; simplify_eq; done.
Qed.

(** C3. No terminated signal is lost: while an actor runs and watches another one, it is registered
    with it, is about to be signaled by it, or has the signal in its mailbox; once the watched
    actor's task has ended, the signal is in the mailbox. And [watch] never panics: its signal to
    the actor itself is always accepted. *)
Theorem no_signal_lost id wid act config ls w t a c :
  id ≠ wid → exec ls (system_new id wid act config) = Some (w, t) →
  cells w !! a = Some c → running (phase c) = true →
  (∀ b, is_Some (watched c !! b) → ∃ o, cells w !! b = Some o ∧
     (closed (phase o) = false →
        is_Some (registered (registry_of o) !! a) ∨ Terminated b ∈ mqueue (mailbox c)) ∧
     (phase o = Done → Terminated b ∈ mqueue (mailbox c))) ∧
  (∀ other ok w' u, watch a other w = Some (ok, w', u) → ok = true).
Proof.
  intros Hne He Ha Hrun. destruct (exec_sys_inv _ _ _ _ _ _ _ Hne He) as [_ _ _ Hwatch _]. split.
  - intros b Hb. destruct (wi_watched _ _ _ Hwatch _ _ _ Ha Hrun Hb) as (o & Ho & Hcase).
    exists o. split; [done|]. split.
    + intros Hcl. rewrite (signals_open _ Hcl) in Hcase.
      destruct Hcase as [?|[(v & Hv & _)|?]]; [by left|by apply not_elem_of_nil in Hv|by right].
    + intros Hd. assert (registry_of o = None) as Hnone.
      { apply (wi_closed _ _ _ Hwatch _ _ Ho). by rewrite Hd. }
      rewrite Hnone, Hd in Hcase. destruct Hcase as [[v Hv]|[(v & Hv & _)|?]]; [done| |done].
      by apply not_elem_of_nil in Hv.
  - intros other ok w' u. by apply (watch_succeeds id wid w a c).
Qed.
End System.
