(* ===== verification/RuntimeTrace.v ===== *)
(** What actors observe: the order in which messages and signals are received, and which signals. The
    trace of a run says what was enqueued where and what was received; the invariant ties it to the
    mailboxes and contexts, and the theorems are the ordering guarantee of [ActorContext::watch] and
    [Incoming::Terminated], the contracts of [watch] and [unwatch], and that an actor told to stop does
    at most one more thing. *)
From S2P Require Import Prelude Backoff Config Flume Quota Actor Mailbox MailboxSpec Tokio Runtime RuntimeMoves RuntimeTree RuntimeWatch RuntimeSystem.

Section Trace.
Context {F : Flume} {FL : FlumeLaws F} {TW : TokioWatch} {TL : TokioWatchLaws TW}.
Context {TO : TokioOneshot} {TOL : TokioOneshotLaws TO}.
Context {M B S E : Type} {Rq : Type} {An : Rq → Type}.
#[local] Abbreviation World := (World (M:=M) (B:=B) (S:=S) (E:=E) (Rq:=Rq) (An:=An)).
#[local] Abbreviation Cell := (Cell (M:=M) (B:=B) (S:=S) (E:=E) (Rq:=Rq) (An:=An)).
#[local] Abbreviation Phase := (Phase (M:=M) (B:=B) (S:=S) (E:=E) (Rq:=Rq) (An:=An)).
#[local] Abbreviation Obs := (Obs (M:=M)).
Implicit Types (w : World) (c o : Cell) (p : Phase) (a b : ActorId) (t u : list Obs).

(** ** Readings of a trace *)

(** What was put into the mailbox of [a], by whom. *)
Definition enqueued a t : list (Source * Incoming M) :=
  omap (λ e, match e with
             | OEnqueued src to i => if decide (to = a) then Some (src, i) else None
             | _ => None
             end) t.

(** What was taken out of the mailbox of [a]. *)
Definition dequeued a t : list (Incoming M) :=
  t ≫= λ e, match e with
            | OReceived x i => if decide (x = a) then [i] else []
            | OStale x b => if decide (x = a) then [Terminated b] else []
            | ODrained x l => if decide (x = a) then l else []
            | _ => []
            end.

(** Whether [a] watches [b]: a watch begins with [watch] and ends with [unwatch] or with the signal. *)
Definition watching_event a b (s : bool) (e : Obs) : bool :=
  match e with
  | OWatched x y => if decide (x = a ∧ y = b) then true else s
  | OUnwatched x y => if decide (x = a ∧ y = b) then false else s
  | OReceived x (Terminated y) => if decide (x = a ∧ y = b) then false else s
  | _ => s
  end.
Definition watching_from (s : bool) a b t : bool := foldl (watching_event a b) s t.
Definition watching a b t : bool := watching_from false a b t.

Lemma enqueued_app a t u : enqueued a (t ++ u) = enqueued a t ++ enqueued a u.
Proof. apply omap_app. Qed.
Lemma dequeued_app a t u : dequeued a (t ++ u) = dequeued a t ++ dequeued a u.
Proof. apply bind_app. Qed.
Lemma watching_app a b t u : watching a b (t ++ u) = watching_from (watching a b t) a b u.
Proof. unfold watching, watching_from. by rewrite foldl_app. Qed.

(** ** The invariant *)

(** No message of an actor after its terminated signal. *)
Definition ordered (l : list (Source * Incoming M)) : Prop :=
  ∀ e1 src b e2 m, l = e1 ++ (src, Terminated b) :: e2 → (FromActor b, Message m) ∉ e2.

Record trace_inv w t : Prop := {
  tr_fifo : ∀ a c, cells w !! a = Some c →
    (enqueued a t).*2 = dequeued a t ++ mqueue (mailbox c);
  tr_new : ∀ a, cells w !! a = None → enqueued a t = [] ∧ dequeued a t = [] ∧
    ∀ b, watching a b t = false;
  tr_closed : ∀ a src b, (src, Terminated b) ∈ enqueued a t →
    ∃ c, cells w !! b = Some c ∧ closed (phase c) = true;
  tr_order : ∀ a, ordered (enqueued a t);
  tr_received : ∀ i a x, t !! i = Some (OReceived a x) →
    ∃ rest, (enqueued a (take i t)).*2 = dequeued a (take i t) ++ x :: rest;
  tr_watching : ∀ a c b, cells w !! a = Some c → running (phase c) = true →
    is_Some (watched c !! b) ↔ watching a b t = true;
  tr_contract : ∀ i a b, t !! i = Some (OReceived a (Terminated b)) → watching a b (take i t) = true;
}.

Lemma ordered_app l l' :
  ordered l → (length l' ≤ 1)%nat →
  (∀ b m, (FromActor b, Message m) ∈ l' → ∀ src, (src, Terminated b) ∉ l) → ordered (l ++ l').
Proof.
  intros Hl Hlen Hnew e1 src b e2 m Heq Hin.
  destruct l' as [|x [|]]; simpl in *; [|clear Hlen|lia].
  { rewrite app_nil_r in Heq. by eapply Hl. }
  destruct e2 as [|y e2 _] using rev_ind; [by apply not_elem_of_nil in Hin|].
  rewrite app_comm_cons, (assoc_L (++)) in Heq. apply app_inj_tail in Heq as [-> ->].
  apply elem_of_app in Hin as [Hin|Hin%list_elem_of_singleton].
  - by eapply Hl.
  - subst y. eapply (Hnew b m); [set_solver|]. apply elem_of_app. right. by left.
Qed.

(** One cell changes and the events are its actor's. *)
Lemma trace_inv_cell w w' t u a c c' :
  trace_inv w t → cells w !! a = Some c → cells w' = <[a := c']> (cells w) →
  (∀ x, x ≠ a → enqueued x u = [] ∧ dequeued x u = [] ∧ ∀ b s, watching_from s x b u = s) →
  mqueue (mailbox c) ++ (enqueued a u).*2 = dequeued a u ++ mqueue (mailbox c') →
  (closed (phase c) = true → closed (phase c') = true) →
  (length (enqueued a u) ≤ 1)%nat →
  (∀ src b, (src, Terminated b) ∈ enqueued a u →
     ∃ o, cells w' !! b = Some o ∧ closed (phase o) = true) →
  (∀ b m, (FromActor b, Message m) ∈ enqueued a u →
     ∃ o, cells w !! b = Some o ∧ closed (phase o) = false) →
  (∀ i y x, u !! i = Some (OReceived y x) → y = a ∧ i = 0%nat ∧
     (∃ rest, mqueue (mailbox c) = x :: rest) ∧ running (phase c) = true ∧
     ∀ b, x = Terminated b → is_Some (watched c !! b)) →
  (running (phase c') = true → running (phase c) = true ∧
     ∀ b, is_Some (watched c' !! b) ↔
          watching_from (bool_decide (is_Some (watched c !! b))) a b u = true) →
  trace_inv w' (t ++ u).
Proof.
  intros [Hfifo Hnew Hclosed Hord Hrec Hwat Hcon] Ha Hw Hothers Hq Hmono Hlen Hterm Hmsg Hin Hrun.
  assert (∀ x cx, cells w !! x = Some cx → closed (phase cx) = true →
            ∃ cx', cells w' !! x = Some cx' ∧ closed (phase cx') = true) as Hcl.
  { intros x cx Hx Hc. rewrite Hw, lookup_insert. destruct (decide (a = x)) as [<-|]; simplify_eq; eauto. }
  assert (∀ x, watching a x t = bool_decide (is_Some (watched c !! x)) ∨ running (phase c) = false) as Hwa.
  { intros x. destruct (running (phase c)) eqn:Hr; [left|by right].
    apply eq_true_iff_eq. rewrite <-(Hwat _ _ _ Ha Hr). by rewrite bool_decide_eq_true. }
  split.
  - intros x cx. rewrite Hw, enqueued_app, dequeued_app, fmap_app.
    intros [[<- <-]|[Hne Hx]]%lookup_insert_Some.
    + rewrite (Hfifo _ _ Ha), <-!(assoc_L (++)), Hq. done.
    + destruct (Hothers x) as (-> & -> & _); [done|]. simpl. rewrite !app_nil_r. by apply Hfifo.
  - intros x. rewrite Hw, lookup_insert_None. intros [Hx Hne].
    rewrite enqueued_app, dequeued_app. destruct (Hnew _ Hx) as (-> & -> & Hwn).
    destruct (Hothers x) as (-> & -> & Hwf); [done|]. split_and!; [done..|]. intros b.
    by rewrite watching_app, Hwf.
  - intros x src b. rewrite enqueued_app, elem_of_app. intros [Hx|Hx].
    + destruct (Hclosed _ _ _ Hx) as (cb & Hb & Hc). by eapply Hcl.
    + destruct (decide (x = a)) as [->|Hne]; [by eapply Hterm|].
      destruct (Hothers x Hne) as (Hnil & _). rewrite Hnil in Hx. by apply not_elem_of_nil in Hx.
  - intros x. rewrite enqueued_app. destruct (decide (x = a)) as [->|Hne].
    + apply ordered_app; [done|done|]. intros b m Hbm src Hsrc.
      destruct (Hclosed _ _ _ Hsrc) as (cb & Hb & Hc).
      destruct (Hmsg _ _ Hbm) as (cb' & Hb' & Hc'). congruence.
    + destruct (Hothers x Hne) as (-> & _). by rewrite app_nil_r.
  - intros i y x Hi. apply lookup_app_Some in Hi as [Hi|[Hge Hi]].
    + rewrite take_app_le by (apply lookup_lt_Some in Hi; lia). by apply Hrec.
    + destruct (Hin _ _ _ Hi) as (-> & Hzero & (rest & Hrest) & _).
      replace i with (length t) by lia. rewrite take_app_length, (Hfifo _ _ Ha), Hrest. eauto.
  - intros x cx b. rewrite Hw, watching_app. intros [[<- <-]|[Hne Hx]]%lookup_insert_Some Hr.
    + destruct (Hrun Hr) as [Hr' Hiff]. rewrite Hiff. destruct (Hwa b) as [->|]; [done|congruence].
    + destruct (Hothers x) as (_ & _ & ->); [done|]. by apply Hwat.
  - intros i y x Hi. apply lookup_app_Some in Hi as [Hi|[Hge Hi]].
    + rewrite take_app_le by (apply lookup_lt_Some in Hi; lia). by apply Hcon.
    + destruct (Hin _ _ _ Hi) as (-> & Hzero & _ & Hr & Hx).
      replace i with (length t) by lia. rewrite take_app_length.
      destruct (Hwa x) as [->|]; [|congruence]. apply bool_decide_eq_true. by apply Hx.
Qed.

(** Nothing about any actor's mailbox or watches. *)
Definition silent u : Prop :=
  ∀ x, enqueued x u = [] ∧ dequeued x u = [] ∧ (∀ b s, watching_from s x b u = s) ∧
       ∀ i y, u !! i ≠ Some (OReceived x y).

Lemma silent_nil : silent [].
Proof. done. Qed.

Lemma silent_root_signal w : silent (root_signal w).2.
Proof.
  unfold root_signal. destruct (terminated_tx w); [|done]. intros x. split_and!; try done.
  by intros [|[]].
Qed.

Lemma trace_inv_silent w w' t u a c c' :
  trace_inv w t → cells w !! a = Some c → cells w' = <[a := c']> (cells w) → silent u →
  mqueue (mailbox c') = mqueue (mailbox c) →
  (closed (phase c) = true → closed (phase c') = true) →
  (running (phase c') = true → running (phase c) = true ∧ watched c' = watched c) →
  trace_inv w' (t ++ u).
Proof.
  intros Hinv Ha Hw Hsil Hq Hcl Hrun. destruct (Hsil a) as (He & Hd & Hwf & _).
  eapply (trace_inv_cell w w' t u a c c'); try done.
  - intros x _. destruct (Hsil x) as (? & ? & ? & _). done.
  - by rewrite He, Hd, Hq, app_nil_r.
  - rewrite He. simpl. lia.
  - rewrite He. by intros src b ?%not_elem_of_nil.
  - rewrite He. by intros b m ?%not_elem_of_nil.
  - intros i y x Hi. destruct (Hsil y) as (_ & _ & _ & Hn). by destruct (Hn i x).
  - intros Hr. destruct (Hrun Hr) as [? ->]. split; [done|]. intros b. by rewrite Hwf, bool_decide_eq_true.
Qed.

Lemma trace_inv_same w w' t u :
  trace_inv w t → cells w' = cells w → silent u → trace_inv w' (t ++ u).
Proof.
  intros [Hfifo Hnew Hclosed Hord Hrec Hwat Hcon] Hw Hsil. split.
  - intros x cx. rewrite Hw, enqueued_app, dequeued_app. destruct (Hsil x) as (-> & -> & _).
    rewrite !app_nil_r. apply Hfifo.
  - intros x. rewrite Hw, enqueued_app, dequeued_app. destruct (Hsil x) as (-> & -> & Hwf & _).
    rewrite !app_nil_r. intros Hx. destruct (Hnew _ Hx) as (? & ? & Hn). split_and!; [done..|].
    intros b. by rewrite watching_app, Hwf.
  - intros x src b. rewrite Hw, enqueued_app. destruct (Hsil x) as (-> & _). rewrite app_nil_r. apply Hclosed.
  - intros x. rewrite enqueued_app. destruct (Hsil x) as (-> & _). rewrite app_nil_r. apply Hord.
  - intros i y x Hi. apply lookup_app_Some in Hi as [Hi|[Hge Hi]].
    + rewrite take_app_le by (apply lookup_lt_Some in Hi; lia). by apply Hrec.
    + destruct (Hsil y) as (_ & _ & _ & Hn). by destruct (Hn _ _ Hi).
  - intros x cx b. rewrite Hw, watching_app. destruct (Hsil x) as (_ & _ & -> & _). apply Hwat.
  - intros i y x Hi. apply lookup_app_Some in Hi as [Hi|[Hge Hi]].
    + rewrite take_app_le by (apply lookup_lt_Some in Hi; lia). by apply Hcon.
    + destruct (Hsil y) as (_ & _ & _ & Hn). by destruct (Hn _ _ Hi).
Qed.

(** A new actor with an empty mailbox, watching nobody. *)
Lemma trace_inv_fresh w w' t id child :
  trace_inv w t → cells w !! id = None → cells w' = <[id := child]> (cells w) →
  mqueue (mailbox child) = [] → watched child = ∅ → trace_inv w' (t ++ []).
Proof.
  intros [Hfifo Hnew Hclosed Hord Hrec Hwat Hcon] Hid Hw Hq Hwd. rewrite app_nil_r.
  destruct (Hnew _ Hid) as (He & Hd & Hn). split; try done.
  - intros x cx. rewrite Hw. intros [[<- <-]|[_ Hx]]%lookup_insert_Some; [|by apply Hfifo].
    by rewrite He, Hd, Hq.
  - intros x. rewrite Hw, lookup_insert_None. intros [Hx _]. by apply Hnew.
  - intros x src b Hx. destruct (Hclosed _ _ _ Hx) as (cb & Hb & Hc). exists cb.
    rewrite Hw, lookup_insert_ne by congruence. done.
  - intros x cx b. rewrite Hw. intros [[<- <-]|[_ Hx]]%lookup_insert_Some Hr; [|by apply Hwat].
    rewrite Hwd, lookup_empty, Hn. split; [by intros []|done].
Qed.

Lemma handling_open p : handling p = true → closed p = false.
Proof. by destruct p. Qed.
Lemma handling_running p : handling p = true → running p = true.
Proof. by destruct p. Qed.

(** Enqueuing in the mailbox of [a], as [tell] and [signal_mailbox] do. *)
Lemma trace_inv_enqueue w w' t a c mb src i (ok : bool) (other : list Obs) :
  trace_inv w t → cells w !! a = Some c → cells w' = <[a := set_mailbox c mb]> (cells w) →
  mqueue mb = mqueue (mailbox c) ++ (if ok then [i] else []) →
  (if ok then other = [] else silent other) →
  (∀ b, i = Terminated b → ∃ o, cells w !! b = Some o ∧ closed (phase o) = true) →
  (∀ b m, src = FromActor b → i = Message m → ∃ o, cells w !! b = Some o ∧ closed (phase o) = false) →
  trace_inv w' (t ++ if ok then [OEnqueued src a i] else other).
Proof.
  intros Hinv Ha Hw Hq Hoth Hterm Hmsg. destruct ok; simpl in *.
  - eapply (trace_inv_cell w w' t _ a c (set_mailbox c mb)); try done; simpl.
    + intros x Hne. split_and!; [|done|done]. by rewrite decide_False.
    + by rewrite decide_True, Hq.
    + by case_decide; simpl; lia.
    + rewrite decide_True by done. intros src' b [= -> Hi]%list_elem_of_singleton.
      destruct (Hterm b (eq_sym Hi)) as (o & Ho & Hcl). rewrite Hw, lookup_insert.
      destruct (decide (a = b)) as [<-|]; simplify_eq; eauto.
    + rewrite decide_True by done. intros b m [= Hs Hi]%list_elem_of_singleton. by eapply Hmsg.
    + intros [|[|j]] y x Hx; by simplify_eq/=.
    + intros Hr. split; [done|]. intros b. by rewrite bool_decide_eq_true.
  - rewrite app_nil_r in Hq. by eapply (trace_inv_silent w w' t _ a c).
Qed.

(** *** One lemma per move which is not silent *)

Lemma trace_inv_tell w t src to c m forced r mb (logged : bool) :
  trace_inv w t → cells w !! to = Some c → sends w src → send_message forced m (mailbox c) = (r, mb) →
  trace_inv (put_cell to (set_mailbox c mb) w)
    (t ++ match r with
          | Ok _ => [OEnqueued src to (Message m)]
          | Err e => if logged then [ODeadLetter src to m e] else []
          end).
Proof.
  intros Hinv Hc Hsends Hsend. apply send_message_effect in Hsend as (_ & _ & Hq & _).
  pose proof (trace_inv_enqueue w (put_cell to (set_mailbox c mb) w) t to c mb src (Message m) (is_ok r)
    (match r with Ok _ => [] | Err e => if logged then [ODeadLetter src to m e] else [] end) Hinv Hc eq_refl Hq) as Hi.
  destruct r; [|destruct logged]; simpl in *; apply Hi; try done.
  2: intros x; split_and!; try done; by intros [|[]].
  all: intros b m' -> _; destruct Hsends as (cb & Hb & Hh); exists cb; split; [done|by apply handling_open].
Qed.

Lemma trace_inv_spawned w t a c id (act : B) config p :
  trace_inv w t → fresh id w = true →
  let child := mk_cell (handle_clone (handle_clone (make_mailbox (mailbox_capacity config)))) ∅
                 0%nat act config (ContextKey a (generation c)) 0%N p Unpolled in
  let w1 := hold_parent (ContextKey a (generation c)) w in
  trace_inv (put_cell id child (set_stop_channels w1 (<[ContextKey id 0 := watch_channel]> (stop_channels w1)))) (t ++ []).
Proof.
  intros Hinv Hf child w1. unfold fresh in Hf. case_bool_decide as Hf'; [|done]. destruct Hf' as [Hf' _].
  eapply (trace_inv_fresh w _ t id child); try done. unfold child. simpl mailbox.
  destruct (handle_clone_effect (handle_clone (make_mailbox (Sink:=Sink) (M:=M) (mailbox_capacity config)))) as (_ & _ & ->).
  destruct (handle_clone_effect (make_mailbox (Sink:=Sink) (M:=M) (mailbox_capacity config))) as (_ & _ & ->).
  by destruct (make_mailbox_effect (Sink:=Sink) (M:=M) (mailbox_capacity config)) as (_ & _ & ->).
Qed.

(** What a context remembers to watch, with [OWatched] and [OUnwatched] keeping track of it. *)
Lemma trace_inv_rewatch w t a c b (on : bool) :
  trace_inv w t → cells w !! a = Some c → handling (phase c) = true →
  trace_inv (put_cell a (set_watched c (if on then <[b := b]> (watched c) else delete b (watched c))) w)
    (t ++ [if on then OWatched a b else OUnwatched a b]).
Proof.
  intros Hinv Hc Hh. eapply (trace_inv_cell w _ t _ a c); try done; simpl.
  - intros x Hne. destruct on; simpl; (split_and!; [done..|]); intros y s; by rewrite decide_False by naive_solver.
  - destruct on; by rewrite app_nil_r.
  - destruct on; simpl; lia.
  - destruct on; by intros ?? ?%not_elem_of_nil.
  - destruct on; by intros ?? ?%not_elem_of_nil.
  - destruct on; intros [|i] y x Hx; by simplify_eq/=.
  - intros _. split; [by apply handling_running|]. intros y.
    destruct on; simpl; rewrite ?lookup_insert, ?lookup_delete; (destruct (decide (b = y)) as [->|];
      [rewrite decide_True by done|rewrite decide_False by naive_solver; by rewrite bool_decide_eq_true]).
    + split; [done|by eexists].
    + split; [by intros []|done].
Qed.

Lemma trace_inv_watched_closed rt rw w t a c b o r mb :
  watch_inv rt rw (cells w) → trace_inv w t → cells w !! a = Some c → handling (phase c) = true →
  cells w !! b = Some o → watcher_registry (mailbox o) = None → send_terminated b (mailbox c) = (r, mb) →
  trace_inv (put_cell a (set_mailbox (set_watched c (<[b := b]> (watched c))) mb) w)
    (t ++ match r with Ok _ => [OEnqueued (FromActor a) a (Terminated b)] | Err _ => [] end ++ [OWatched a b]).
Proof.
  intros Hwatch Hinv Hc Hh Ho Hreg Hsend. assert (running (phase c) = true) as Hrun by (by apply handling_running).
  apply send_terminated_effect in Hsend as (_ & _ & Hok & Hq).
  rewrite (wi_open _ _ _ Hwatch _ _ Hc Hrun) in Hok. rewrite Hok in Hq. destruct r; [|done].
  eapply (trace_inv_cell w _ t _ a c); try done; simpl.
  - intros x Hne. rewrite !decide_False by done. split_and!; [done..|]. intros y s.
    by rewrite decide_False by naive_solver.
  - by rewrite decide_True, Hq.
  - case_decide; simpl; lia.
  - rewrite decide_True by done. intros src' b' [= -> ->]%list_elem_of_singleton.
    assert (closed (phase o) = true) as Hcl by (by apply (wi_closed _ _ _ Hwatch _ _ Ho)).
    rewrite lookup_insert. destruct (decide (a = b)) as [<-|]; simplify_eq; eauto.
  - rewrite decide_True by done. by intros b' m [=]%list_elem_of_singleton.
  - intros [|[|i]] y x Hx; by simplify_eq/=.
  - intros _. split; [done|]. intros y. rewrite lookup_insert. destruct (decide (b = y)) as [->|].
    + rewrite decide_True by done. split; [done|by eexists].
    + rewrite decide_False by naive_solver. by rewrite bool_decide_eq_true.
Qed.

Lemma trace_inv_receive w t a c state up_since mb i :
  trace_inv w t → cells w !! a = Some c → phase c = NextIncoming state up_since → recv (mailbox c) = (Ready (Some i), mb) →
  trace_inv (put_cell a (set_stop_poll (received c mb i) Unpolled) w)
    (t ++ [if accepted c i then OReceived a i
           else match i with Terminated other => OStale a other | Message _ => OReceived a i end]).
Proof.
  intros Hinv Hc Hp Hrecv. apply recv_effect in Hrecv as (_ & _ & Hq).
  assert (running (phase c) = true) as Hrun by (by rewrite Hp).
  assert (mailbox (received c mb i) = mb ∧ phase (received c mb i) = phase c) as [Hmb Hph] by (by destruct i).
  eapply (trace_inv_cell w _ t _ a c); try done; simpl; rewrite ?Hmb, ?Hph; unfold accepted.
  - intros x Hne. destruct i as [m|b]; [|case_bool_decide]; simpl; rewrite ?decide_False by done;
      split_and!; try done; intros y s; by rewrite decide_False by naive_solver.
  - rewrite Hq. destruct i as [m|b]; [|case_bool_decide]; simpl; rewrite decide_True by done; by rewrite app_nil_r.
  - done.
  - destruct i as [m|b]; [|case_bool_decide]; simpl; lia.
  - destruct i as [m|b]; [|case_bool_decide]; simpl; by intros ?? ?%not_elem_of_nil.
  - destruct i as [m|b]; [|case_bool_decide]; simpl; by intros ?? ?%not_elem_of_nil.
  - destruct i as [m|b]; [|case_bool_decide]; intros [|j] y x Hx; simplify_eq/=;
      split_and!; try done; eauto; intros b' ?; by simplify_eq.
  - intros _. split; [done|]. intros y. destruct i as [m|b]; simpl; [by rewrite bool_decide_eq_true|].
    rewrite lookup_delete. destruct (decide (b = y)) as [->|].
    + destruct (bool_decide (is_Some (watched c !! y))); simpl; [rewrite decide_True by done|];
        split; try done; by intros [].
    + destruct (bool_decide (is_Some (watched c !! b))); simpl;
        [rewrite decide_False by naive_solver|]; by rewrite bool_decide_eq_true.
Qed.

Lemma trace_inv_stop_children w t a c p (restart : bool) delay n :
  trace_inv w t → cells w !! a = Some c →
  stopping (ContextKey a (generation c)) c p restart →
  trace_inv (put_cell a (set_phase (set_generation c (Datatypes.S (generation c))) p) (stop_children a c w).2)
    (t ++ if restart then [ORestarting a n delay] else []).
Proof.
  intros Hinv Hc Hst. pose proof (stopping_benign _ _ _ _ (Datatypes.S (generation c)) Hst) as [_ Hcl _ Hr _ _ _].
  eapply (trace_inv_silent w _ t _ a c); [done|done|simpl; by rewrite insert_insert_eq| |done| |].
  - by destruct restart; [intros x; split_and!; try done; intros [|[]] ?; simpl|].
  - simpl in *. by rewrite Hcl.
  - simpl in *. auto.
Qed.

Lemma trace_inv_drain w t a c l mb :
  trace_inv w t → cells w !! a = Some c → phase c = Terminating TDrain → split_drain (mailbox c) = (l, mb) →
  trace_inv (put_cell a (set_phase (set_mailbox c mb) (Terminating TDropRx)) w) (t ++ [ODrained a l]).
Proof.
  intros Hinv Hc Hp Hdrain. apply split_drain_effect in Hdrain as (_ & _ & -> & Hq).
  eapply (trace_inv_cell w _ t _ a c); try done; simpl.
  - intros x Hne. rewrite decide_False by done. done.
  - rewrite decide_True by done. by rewrite Hq, !app_nil_r.
  - by rewrite Hp.
  - lia.
  - by intros ?? ?%not_elem_of_nil.
  - by intros ?? ?%not_elem_of_nil.
  - by intros [|[]] y x Hx.
Qed.

(** A phase of the termination which changes no more of the cell than its phase, its registry and what it watches. *)
Lemma trace_inv_terminating w w' t a c c' ph :
  trace_inv w t → cells w !! a = Some c → phase c = Terminating ph → cells w' = <[a := c']> (cells w) →
  mqueue (mailbox c') = mqueue (mailbox c) → running (phase c') = false → closed (phase c') = closed (phase c) ∨ closed (phase c') = true →
  trace_inv w' (t ++ []).
Proof.
  intros Hinv Hc Hp Hw Hq Hr Hcl. eapply (trace_inv_silent w w' t [] a c c'); [done|done|done|done|done| |by rewrite Hr].
  intros Hcl'. by destruct Hcl as [->| ->].
Qed.

Lemma trace_inv_signal w t a c x rest to tc r mb :
  trace_inv w t → cells w !! a = Some c → phase c = Terminating (TSignal (x :: rest)) →
  let w1 := put_cell a (set_phase c (Terminating (TSignal rest))) w in
  cells w1 !! to = Some tc → send_terminated a (mailbox tc) = (r, mb) →
  trace_inv (put_cell to (set_mailbox tc mb) w1)
    (t ++ match r with Ok _ => [OEnqueued (FromActor a) to (Terminated a)] | Err _ => [] end).
Proof.
  intros Hinv Hc Hp w1 Hto Hsend. apply send_terminated_effect in Hsend as (_ & _ & _ & Hq).
  assert (trace_inv w1 (t ++ [])) as Hinv1.
  { eapply (trace_inv_terminating w w1); try done. by right. }
  rewrite app_nil_r in Hinv1.
  pose proof (trace_inv_enqueue w1 (put_cell to (set_mailbox tc mb) w1) t to tc mb (FromActor a)
    (Terminated a) (is_ok r) [] Hinv1 Hto eq_refl Hq) as Hi.
  destruct r; simpl in *; apply Hi; try done.
  all: intros b [= <-]; subst w1; simpl; rewrite lookup_insert_eq; eauto.
Qed.

Lemma silent_one (o : Obs) :
  (∀ x, enqueued x [o] = [] ∧ dequeued x [o] = [] ∧ (∀ b s, watching_from s x b [o] = s) ∧ ∀ y, o ≠ OReceived x y) → silent [o].
Proof. intros Ho x. destruct (Ho x) as (? & ? & ? & Hn). split_and!; [done..|]. intros [|[]] y; [|done..]. intros [= ->]. by destruct (Hn y). Qed.

Lemma trace_inv_move rt rw w w' t u :
  sys_inv rt rw w t → trace_inv w t → Move w w' u → trace_inv w' (t ++ u).
Proof.
  intros Hsys Hinv Hm. pose proof (si_watch _ _ _ _ Hsys) as Hwatch. destruct Hm.
  - (* tell *) by eapply trace_inv_tell.
  - (* quiet *)
    pose proof (quiet_benign c p H0) as [_ Hcl _ Hr _ _ _].
    eapply (trace_inv_silent w _ t [] a c); try done; simpl in *; [by rewrite Hcl|auto].
  - (* restarts *) by eapply (trace_inv_silent w _ t [] a c).
  - (* spawn *) by apply trace_inv_spawned.
  - (* register *) by eapply (trace_inv_silent w _ t [] b o).
  - (* watched *) by apply (trace_inv_rewatch w t a c b true).
  - (* watched, closed *) by eapply trace_inv_watched_closed.
  - (* unwatched *) by apply (trace_inv_rewatch w t a c b false).
  - (* deregister *) by eapply (trace_inv_silent w _ t [] b o).
  - (* deregistered *) eapply trace_inv_terminating; try done. rewrite H0. by left.
  - (* receive *) by eapply trace_inv_receive.
  - (* stop children *) by apply trace_inv_stop_children.
  - (* awaited *)
    pose proof (awaited_benign _ _ H1) as [_ Hcl _ Hr _ _ _].
    eapply (trace_inv_silent w _ t [] a c); try done; simpl in *; [by rewrite Hcl|auto].
  - (* drain *) by eapply trace_inv_drain.
  - (* drop rx *)
    destruct (split_drop_rx_effect (mailbox c)) as (_ & _ & Hq). eapply trace_inv_terminating; try done. rewrite H0. by left.
  - (* drop context *) eapply trace_inv_terminating; try done. rewrite H0. by left.
  - (* take watchers *)
    unfold take_watchers in H1. destruct (registry_take _) as [ws' reg]. simplify_eq.
    eapply trace_inv_terminating; try done. by right.
  - (* signal *) by eapply trace_inv_signal.
  - (* signal root *)
    eapply (trace_inv_silent w _ t _ a c (set_phase c (Terminating (TSignal rest)))); [done|done| | |done|by rewrite H0|done].
    + by rewrite cells_drop_root_sink, cells_root_signal.
    + apply silent_root_signal.
  - (* done *)
    eapply (trace_inv_silent w _ t _ a c); [done|done|reflexivity|by apply silent_one|..]; simpl; by rewrite ?H0.
  - (* watch root *) eapply (trace_inv_silent w _ t [] (root w) c); done.
  - (* watch root, closed *)
    apply (trace_inv_same w); [done| |apply silent_root_signal].
    by rewrite cells_drop_root_sink; simpl; rewrite cells_root_signal.
  - (* stop *) apply (trace_inv_same w); [done|done|by apply silent_one].
  - (* drop system *) apply (trace_inv_same w); [done|by rewrite cells_drop_system|done].
Qed.

(** ** A stopped actor *)

(** What the receivers of a stop channel observe. *)
Definition stopped (ch : WatchChan) : Prop := sent ch = true ∨ tx_alive ch = false.

Lemma stopped_iff ch : has_changed_or_closed ch = true ↔ stopped ch.
Proof.
  rewrite has_changed_or_closed_spec, orb_true_iff, negb_true_iff. done.
Qed.

Lemma stopped_alter (f : WatchChan → WatchChan) k k' (m : gmap StopKey WatchChan) ch :
  m !! k = Some ch → stopped ch →
  (m !! k' = Some ch → stopped (f ch)) →
  ∃ ch', alter f k' m !! k = Some ch' ∧ stopped ch'.
Proof.
  intros Hk Hs Hf. rewrite lookup_alter. destruct (decide (k' = k)) as [->|]; [|by eauto].
  rewrite Hk. simpl. eauto.
Qed.

Lemma stopped_drop_rx ch : stopped ch → stopped (watch_drop_rx ch).
Proof. unfold stopped. by destruct (watch_drop_rx_spec ch) as (_ & -> & ->). Qed.
Lemma stopped_clone_rx ch : stopped ch → stopped (watch_clone_rx ch).
Proof. unfold stopped. by destruct (watch_clone_rx_spec ch) as (_ & -> & ->). Qed.
Lemma stopped_drop_tx ch : stopped (watch_drop_tx ch).
Proof. right. by destruct (watch_drop_tx_spec ch) as (_ & _ & ->). Qed.

Lemma stopped_release w k ch :
  stop_channels w !! k = Some ch → stopped ch →
  ∃ ch', stop_channels (release_root_sender w) !! k = Some ch' ∧ stopped ch'.
Proof.
  intros Hk Hs. unfold release_root_sender. destruct (owner w); try (by exists ch).
  destruct (sink_alive w); [by exists ch|]. eapply stopped_alter; [done|done|]. intros _. apply stopped_drop_tx.
Qed.

Lemma stopped_move rt rw w w' t u k ch :
  sys_inv rt rw w t → Move w w' u → stop_channels w !! k = Some ch → stopped ch →
  ∃ ch', stop_channels w' !! k = Some ch' ∧ stopped ch'.
Proof.
  intros Hsys Hm Hk Hs. pose proof (si_tree _ _ _ _ Hsys) as Htree.
  assert (∀ a g, k = ContextKey a g → ∃ n, nodes (tree_of w) !! a = Some n ∧ (g ≤ n_generation n)%nat)
    as Hkeys.
  { intros a g ->. apply (inv_keys _ _ Htree). exists (rx_count ch). simpl. by rewrite lookup_fmap, Hk. }
  destruct Hm; try (by exists ch).
  - (* spawn *) simpl. rewrite lookup_insert_ne.
    + eapply stopped_alter; [done|done|]. intros _. simpl. auto using stopped_clone_rx.
    + intros <-. destruct (Hkeys id 0%nat eq_refl) as (n & Hn & _).
      simpl in Hn. rewrite lookup_fmap in Hn. unfold fresh in H1. case_bool_decide as Hf; [|done].
      destruct Hf as [Hf _]. by rewrite Hf in Hn.
  - (* stop children *) simpl.
    assert (∀ m : gmap StopKey WatchChan,
        m !! k = Some ch → ∃ ch', alter (watch_drop_rx ∘ watch_send) (ContextKey a (generation c)) m !! k = Some ch' ∧ stopped ch')
      as Halter.
    { intros m' Hm'. rewrite lookup_alter. case_decide as Hd; [|by eauto]. subst k. rewrite Hm'.
      eexists. split; [done|]. simpl. apply stopped_drop_rx. left.
      apply (watch_send_spec ch).
      apply (own_ge _ _ a (node_of c) _ Htree); [by apply lookup_node|..];
        try (by destruct H0 as [? Hp|Hp]; unfold node_of; simpl; rewrite Hp).
      simpl. by rewrite lookup_fmap, Hk. }
    apply Halter. rewrite lookup_insert_ne; [done|]. intros <-.
    destruct (Hkeys a _ eq_refl) as (n' & Hn & Hle).
    rewrite (lookup_node _ _ _ H) in Hn. simplify_eq/=. lia.
  - (* awaited *) simpl. eapply stopped_alter; [done|done|]. intros _. apply stopped_drop_tx.
  - (* drop context *) simpl. eapply stopped_alter; [done|done|]. intros _. apply stopped_drop_tx.
  - (* signal root *) unfold drop_root_sink. apply (stopped_release _ k ch); [|done]. simpl.
    subst w1. unfold root_signal. simpl. by destruct (terminated_tx w).
  - (* done *) simpl. eapply stopped_alter; [done|done|]. intros _. simpl. auto using stopped_drop_rx.
  - (* watch root, closed *) unfold drop_root_sink. apply (stopped_release _ k ch); [|done]. simpl.
    unfold root_signal. by destruct (terminated_tx w).
  - (* stop *) simpl. eapply stopped_alter; [done|done|]. intros _. left.
    by destruct (watch_send_replace_spec ch) as (_ & -> & _).
  - (* drop system *) unfold drop_system. by apply (stopped_release _ k ch).
Qed.

(** A cell never changes its parent. *)
Lemma parent_move w w' u a c :
  Move w w' u → cells w !! a = Some c →
  ∃ c', cells w' !! a = Some c' ∧ parent_stopping c' = parent_stopping c.
Proof.
  intros Hm Ha.
  assert (∀ b o o' (cs : gmap ActorId Cell), cs = <[b := o']> (cells w) → cells w !! b = Some o →
            parent_stopping o' = parent_stopping o →
            ∃ c', cs !! a = Some c' ∧ parent_stopping c' = parent_stopping c) as Hins.
  { intros b o o' cs -> Hb Hp. rewrite lookup_insert. destruct (decide (b = a)) as [->|]; [|by eauto].
    simplify_eq. eauto. }
  destruct Hm; rewrite ?cells_drop_root_sink, ?cells_drop_system; simpl; rewrite ?cells_root_signal;
    try (by eexists); try (eapply Hins; [reflexivity|done|done]).
  - (* spawn *) unfold fresh in H1. case_bool_decide as Hf; [|done]. destruct Hf as [Hf _].
    rewrite lookup_insert_ne by congruence. eauto.
  - (* receive *) eapply Hins; [reflexivity|done|]. by destruct i.
  - (* stop children *) rewrite insert_insert_eq. by eapply Hins.
  - (* signal *) subst w1. simpl in *.
    destruct (decide (to = a0)) as [->|Hne].
    + rewrite lookup_insert_eq in H2. simplify_eq. rewrite insert_insert_eq. by eapply Hins.
    + rewrite lookup_insert_ne in H2 by done. rewrite !lookup_insert.
      destruct (decide (to = a)) as [->|]; [simplify_eq; by eauto|].
      destruct (decide (a0 = a)) as [->|]; simplify_eq; eauto.
Qed.

(** What a stopped actor no longer does. *)
Definition quiesced a (o : Obs) : Prop :=
  match o with
  | OReceived x _ | OStale x _ | ORestarting x _ _ => x ≠ a
  | _ => True
  end.
#[export] Instance quiesced_dec a (ob : Obs) : Decision (quiesced a ob).
Proof. destruct ob; apply _. Defined.

(** What it does nevertheless. *)
Definition late a (t : list Obs) : list Obs := filter (λ ob, ¬ quiesced a ob) t.

Lemma late_app a t u : late a (t ++ u) = late a t ++ late a u.
Proof. apply filter_app. Qed.
Lemma late_quiesced a t : Forall (quiesced a) t → late a t = [].
Proof. induction 1 as [|ob t Ho _ IH]; [done|]. unfold late. rewrite filter_cons_False by naive_solver. exact IH. Qed.
Lemma late_length_one a (ob : Obs) : (length (late a [ob]) ≤ 1)%nat.
Proof. unfold late. rewrite filter_cons. case_decide; simpl; lia. Qed.

(** The task is to run [init], or does. *)
Definition starting p : bool := match p with Initializing _ => true | _ => false end.

(** What it does nevertheless is what it was committed to. *)
Definition committed_to (p : Phase) (ob : Obs) : Prop :=
  match p, ob with
  | NextIncoming _ _, (OReceived _ _ | OStale _ _) => True
  | Restarting _, ORestarting _ _ _ => True
  | _, _ => False
  end.

(** Told to stop, a task never commits itself anymore, and never starts anew. *)
Definition settles c c' : Prop :=
  (committed c' = true → committed c = true ∧ phase c' = phase c) ∧ (starting (phase c') = true → starting (phase c) = true).

Lemma settles_refl c : settles c c.
Proof. by split. Qed.
Lemma settles_trans c1 c2 c3 : settles c1 c2 → settles c2 c3 → settles c1 c3.
Proof. intros [H1 H2] [H3 H4]. split; [|naive_solver]. intros Hc. destruct (H3 Hc) as [H ->]. by apply H1. Qed.
Lemma settles_same c c' : phase c' = phase c → stop_poll c' = stop_poll c → settles c c'.
Proof. intros Hp Hq. unfold settles, committed. by rewrite Hp, Hq. Qed.
Lemma settles_set_phase c c' p : phase c = phase c' → commits (phase c) p = false → settles c (set_phase c' p).
Proof. intros Hp Hc. unfold settles, committed. simpl. rewrite <-?Hp. destruct p; try done; by destruct (phase c). Qed.
Lemma uncommitted_received c mb i state up :
  phase c = NextIncoming state up → committed (set_stop_poll (received c mb i) Unpolled) = false.
Proof. intros Hp. unfold committed. by destruct i; simpl; rewrite Hp. Qed.

(** Another cell of the system, or this one as it settles. *)
Lemma settles_insert w a c b o o' (cs : gmap ActorId Cell) :
  cells w !! a = Some c → cs = <[b := o']> (cells w) → cells w !! b = Some o → (b = a → settles o o') →
  ∃ c', cs !! a = Some c' ∧ settles c c'.
Proof.
  intros Ha -> Hb Hs. rewrite lookup_insert. destruct (decide (b = a)) as [->|]; [|by eauto using settles_refl].
  simplify_eq. eauto.
Qed.

Lemma settling_move w w' u a c :
  Move w w' u → cells w !! a = Some c → stopped_by_parent c w = true →
  ∃ c', cells w' !! a = Some c' ∧ settles c c'.
Proof.
  intros Hm Ha Hst.
  destruct Hm; rewrite ?cells_drop_root_sink, ?cells_drop_system; simpl; rewrite ?cells_root_signal;
    try (by eauto using settles_refl);
    try (eapply settles_insert; [exact Ha|reflexivity|done|intros _; first [by apply settles_same|by apply settles_set_phase]]).
  - (* quiet *) eapply settles_insert; [exact Ha|reflexivity|done|]. intros ->. simplify_eq.
    apply settles_set_phase; [done|]. destruct (commits _ p); [|done]. by rewrite H1 in Hst.
  - (* locals *) eapply settles_insert; [exact Ha|reflexivity|done|]. intros ->. simplify_eq.
    split; [|done]. intros Hc. destruct (H0 Hc) as [?|?]; [done|congruence].
  - (* spawn *) unfold fresh in H1. case_bool_decide as Hf; [|done]. destruct Hf as [Hf _].
    rewrite lookup_insert_ne by congruence. eauto using settles_refl.
  - (* receive *) eapply settles_insert; [exact Ha|reflexivity|done|]. intros _.
    split; [by erewrite uncommitted_received|by destruct i].
  - (* stop children *) rewrite insert_insert_eq. eapply settles_insert; [exact Ha|reflexivity|done|]. intros _.
    by apply settles_set_phase; destruct H0.
  - (* awaited *) eapply settles_insert; [exact Ha|reflexivity|done|]. intros _.
    apply settles_set_phase; [done|]. by destruct (phase c0) as [| | | | | | |[]|]; simplify_eq/=.
  - (* signal *) subst w1. simpl in *.
    assert (settles c0 (set_phase c0 (Terminating (TSignal rest)))) as Hs0 by (by apply settles_set_phase).
    destruct (decide (to = a0)) as [->|Hne].
    + rewrite lookup_insert_eq in H2. simplify_eq. rewrite insert_insert_eq.
      eapply settles_insert; [exact Ha|reflexivity|done|]. intros _. eapply settles_trans; [exact Hs0|by apply settles_same].
    + rewrite lookup_insert_ne in H2 by done. rewrite !lookup_insert.
      destruct (decide (to = a)) as [->|]; [simplify_eq; eexists; split; [done|by apply settles_same]|].
      destruct (decide (a0 = a)) as [->|]; simplify_eq; eauto using settles_refl.
Qed.

Lemma stopped_stays rt rw w w' t u a c c' :
  sys_inv rt rw w t → Move w w' u → cells w !! a = Some c → cells w' !! a = Some c' →
  stopped_by_parent c w = true → stopped_by_parent c' w' = true.
Proof.
  intros Hsys Hm Ha Ha' Hst. destruct (parent_channel _ _ _ _ _ _ Hsys Ha) as [ch Hch].
  destruct (parent_move _ _ _ _ _ Hm Ha) as (c1 & Ha1 & Hp). simplify_eq.
  unfold stopped_by_parent in *. rewrite Hch in Hst. apply stopped_iff in Hst.
  destruct (stopped_move _ _ _ _ _ _ _ _ Hsys Hm Hch Hst) as (ch' & Hch' & Hs'). rewrite Hp, Hch'. by apply stopped_iff.
Qed.

(** A late move is what its task was committed to, once. *)
Lemma late_move w w' u a c :
  Move w w' u → cells w !! a = Some c → stopped_by_parent c w = true →
  Forall (quiesced a) u ∨
  committed c = true ∧ (∃ ob : Obs, u = [ob] ∧ committed_to (phase c) ob) ∧ ∀ c', cells w' !! a = Some c' → committed c' = false.
Proof.
  intros Hm Ha Hst.
  destruct Hm; try (by left; repeat constructor).
  - left. by destruct r, logged; repeat constructor.
  - left. by destruct r; repeat constructor.
  - destruct (decide (a0 = a)) as [->|Hne].
    + right. simplify_eq. unfold committed at 1. rewrite H0, H1. split; [done|]. split.
      * eexists. split; [done|]. destruct (accepted c0 i); [done|]. by destruct i.
      * intros c'. rewrite lookup_put, decide_True by done. intros [= <-]. by eapply uncommitted_received.
    + left. constructor; [|constructor]. destruct (accepted c0 i); [done|]. by destruct i.
  - destruct restart; [|by left; constructor]. inversion H0 as [d Hp|]; subst.
    destruct (decide (a0 = a)) as [->|Hne]; [|by left; repeat constructor].
    right. simplify_eq. unfold committed at 1. rewrite Hp. split; [done|]. split; [by eexists|].
    intros c'. rewrite lookup_put, decide_True by done. by intros [= <-].
  - left. by destruct r; repeat constructor.
  - left. unfold root_signal. destruct (terminated_tx w1); by repeat constructor.
  - left. unfold root_signal. destruct (terminated_tx w); by repeat constructor.
Qed.

(** ** What every run guarantees *)

Context {A : Actor M B S E Rq An}.

Lemma trace_inv_system_new id wid act config : trace_inv (system_new id wid act config) [].
Proof.
  split; try done; simpl.
  - intros a c [<- <-]%lookup_singleton_Some. unfold new_cell. simpl mailbox.
    destruct (handle_clone_effect (handle_clone (make_mailbox (Sink:=Sink) (M:=M) (mailbox_capacity config)))) as (_ & _ & ->).
    destruct (handle_clone_effect (make_mailbox (Sink:=Sink) (M:=M) (mailbox_capacity config))) as (_ & _ & ->).
    by destruct (make_mailbox_effect (Sink:=Sink) (M:=M) (mailbox_capacity config)) as (_ & _ & ->).
  - by intros a src b ?%not_elem_of_nil.
  - intros a e1 src b e2 m Heq. by destruct e1.
  - intros a c b [<- <-]%lookup_singleton_Some _. simpl. rewrite lookup_empty.
    split; [by intros []|done].
Qed.

Lemma exec_trace_inv id wid act config ls w t :
  id ≠ wid → exec ls (system_new id wid act config) = Some (w, t) →
  sys_inv id wid w t ∧ trace_inv w t.
Proof.
  intros Hne He. eapply (exec_invariant (λ w t, sys_inv id wid w t ∧ trace_inv w t)); [| |done].
  - split; [by apply sys_inv_system_new|apply trace_inv_system_new].
  - intros w0 t0 w' o [Hs Ht] Hm. split; [by eapply sys_inv_move|by eapply trace_inv_move].
Qed.

(** What a watch the fold still counts is owed to. *)
Lemma watching_since a b t :
  watching a b t = true →
  ∃ k, t !! k = Some (OWatched a b) ∧
    ∀ i, (k < i)%nat → t !! i ≠ Some (OUnwatched a b) ∧ t !! i ≠ Some (OReceived a (Terminated b)).
Proof.
  induction t as [|e t IH] using rev_ind; [done|]. rewrite watching_app. simpl. intros Hw.
  assert (e = OWatched a b ∨
          (watching a b t = true ∧ e ≠ OUnwatched a b ∧ e ≠ OReceived a (Terminated b)))
    as [->|(Hw' & H1 & H2)].
  { destruct e; simpl in Hw; try (right; split_and!; [done|by intros [=]..]).
    - right. destruct i; [split_and!; [done|by intros [=]..]|]. case_decide as Hd; [done|].
      split_and!; [done|by intros [=]|]. intros [= -> ->]. by apply Hd.
    - case_decide as Hd; [left; by destruct Hd as [-> ->]|right; split_and!; [done|by intros [=]..]].
    - right. case_decide as Hd; [done|]. split_and!; [done| |by intros [=]].
      intros [= -> ->]. by apply Hd. }
  { exists (length t). split; [by rewrite lookup_app_r, Nat.sub_diag by lia|].
    intros i Hi. rewrite lookup_app_r by lia. destruct (i - length t)%nat eqn:?; [lia|]. done. }
  destruct (IH Hw') as (k & Hk & Hafter). exists k. split; [by apply lookup_app_l_Some|].
  intros i Hi. destruct (decide (i < length t)%nat).
  - rewrite lookup_app_l by done. by apply Hafter.
  - rewrite lookup_app_r by lia. destruct (i - length t)%nat; simpl; [|done]. by split; intros [= ->].
Qed.

(** What is enqueued around a signal which was received. *)
Lemma signal_order w t i a b :
  trace_inv w t → t !! i = Some (OReceived a (Terminated b)) →
  (∃ e1 src e2, enqueued a t = e1 ++ (src, Terminated b) :: e2 ∧ dequeued a (take i t) = e1.*2 ∧
     ∀ m, (FromActor b, Message m) ∉ e2) ∧
  (∃ c, cells w !! b = Some c ∧ closed (phase c) = true).
Proof.
  intros Htr Hi. destruct (tr_received _ _ Htr _ _ _ Hi) as (rest & Hrest).
  apply fmap_app_inv in Hrest as (e1 & e2 & He1 & He2 & Heq).
  destruct e2 as [|[src x] e2]; [done|]. simpl in He2. simplify_eq/=.
  assert (enqueued a t = e1 ++ (src, Terminated b) :: e2 ++ enqueued a (drop i t)) as Hall.
  { rewrite <-(take_drop i t) at 1. rewrite enqueued_app, Heq. by rewrite <-(assoc_L (++)). }
  split.
  - exists e1, src, (e2 ++ enqueued a (drop i t)). split_and!; [done|done|].
    intros m. by eapply (tr_order _ _ Htr a).
  - apply (tr_closed _ _ Htr a src b). rewrite Hall. set_solver.
Qed.

(** The signals [a] received, and its watches. *)
Definition signals_received a t : list ActorId :=
  omap (λ e : Obs, match e with OReceived x (Terminated b) => if decide (x = a) then Some b else None | _ => None end) t.
Definition watches a t : list ActorId :=
  omap (λ e : Obs, match e with OWatched x b => if decide (x = a) then Some b else None | _ => None end) t.

(** A signal is received at most as often as its actor is watched. *)
Lemma received_watched a b t :
  (∀ i, t !! i = Some (OReceived a (Terminated b)) → watching a b (take i t) = true) →
  (times b (signals_received a t) + (if watching a b t then 1 else 0) ≤ times b (watches a t))%nat.
Proof.
  unfold times. induction t as [|ev t IH] using rev_ind; intros Hcontract; [done|].
  assert (∀ i, t !! i = Some (OReceived a (Terminated b)) → watching a b (take i t) = true) as Hc.
  { intros i Hi. rewrite <-(take_app_le t [ev]) by (apply lookup_lt_Some in Hi; lia). apply Hcontract.
    by apply lookup_app_l_Some. }
  specialize (IH Hc). specialize (Hcontract (length t)).
  rewrite take_app_length, lookup_app_r, Nat.sub_diag in Hcontract by lia. simpl in Hcontract.
  unfold signals_received, watches in *. rewrite !omap_app, !filter_app, !length_app, watching_app.
  destruct ev as [| |x [|y]| | |x y|x y| | | |]; simpl; rewrite ?filter_nil; simpl; try lia;
    destruct (decide (x = a)) as [->|]; simpl; rewrite ?filter_nil; simpl;
    try (rewrite decide_False by naive_solver; lia).
  - rewrite filter_cons. destruct (decide (y = b)) as [->|].
    + rewrite decide_True by done. rewrite Hcontract in IH by done. simpl. rewrite ?filter_nil. simpl. lia.
    + rewrite decide_False by naive_solver. rewrite filter_nil. simpl. lia.
  - rewrite filter_cons. destruct (decide (y = b)) as [->|].
    + rewrite decide_True by done. simpl. rewrite ?filter_nil. simpl. destruct (watching a b t); lia.
    + rewrite decide_False by naive_solver. rewrite filter_nil. simpl. lia.
  - case_decide; destruct (watching a b t); lia.
Qed.

(** Actors watched once each are signaled at most once each. *)
Lemma signals_once w t a :
  trace_inv w t → NoDup (watches a t) →
  NoDup (signals_received a t) ∧ ∀ b, b ∈ signals_received a t → b ∈ watches a t.
Proof.
  intros Htr Hnd. rewrite NoDup_times in Hnd.
  assert (∀ b, times b (signals_received a t) ≤ times b (watches a t))%nat as Hle.
  { intros b. pose proof (received_watched a b t (λ i, tr_contract _ _ Htr i a b)). lia. }
  split.
  - apply NoDup_times. intros b. specialize (Hle b). specialize (Hnd b). lia.
  - intros b Hb. apply times_elem. apply times_elem in Hb. specialize (Hle b). lia.
Qed.

(** C2. A terminated signal is the last an actor hears from the terminated one: when it is received,
    everything enqueued before it has been taken out in order, no message of the terminated actor is
    behind it in the mailbox, ever; and the terminated actor and everything below it are gone. *)
Theorem terminated_signal_is_last id wid act config ls w t i a b :
  id ≠ wid → exec ls (system_new id wid act config) = Some (w, t) →
  t !! i = Some (OReceived a (Terminated b)) →
  (∃ e1 src e2, enqueued a t = e1 ++ (src, Terminated b) :: e2 ∧ dequeued a (take i t) = e1.*2 ∧
     ∀ m, (FromActor b, Message m) ∉ e2) ∧
  (∃ c, cells w !! b = Some c ∧ closed (phase c) = true) ∧
  (∀ d, descends w b d → ∃ c, cells w !! d = Some c ∧ phase c = Done).
Proof.
  intros Hne He Hi. destruct (exec_trace_inv _ _ _ _ _ _ _ Hne He) as [Hsys Htr].
  destruct (signal_order _ _ _ _ _ Htr Hi) as [Horder (c & Hc & Hcl)]. split_and!; [done|by eauto|].
  intros d Hd. eapply descendants_done; [by eapply si_tree|done|done|].
  destruct (phase c) as [| | | | | | |[]|]; by simplify_eq/=.
Qed.

(** C10. Mailboxes neither lose, duplicate nor reorder: what was accepted into an actor's mailbox is,
    in that order, what its task has taken out followed by what is still queued. *)
Theorem mailboxes_are_fifo id wid act config ls w t a c :
  id ≠ wid → exec ls (system_new id wid act config) = Some (w, t) → cells w !! a = Some c →
  (enqueued a t).*2 = dequeued a t ++ mqueue (mailbox c).
Proof.
  intros Hne He Ha. destruct (exec_trace_inv _ _ _ _ _ _ _ Hne He) as [_ Htr]. by apply (tr_fifo _ _ Htr).
Qed.

(** C4. Every terminated signal received is owed to a watch: the actor watched the terminated one
    before, and has neither unwatched it nor received its signal since. So a watch is signaled once,
    and no signal is received after an [unwatch], not even one already enqueued. *)
Theorem signals_are_watched id wid act config ls w t j a b :
  id ≠ wid → exec ls (system_new id wid act config) = Some (w, t) →
  t !! j = Some (OReceived a (Terminated b)) →
  ∃ k, (k < j)%nat ∧ t !! k = Some (OWatched a b) ∧
    ∀ i, (k < i < j)%nat → t !! i ≠ Some (OUnwatched a b) ∧ t !! i ≠ Some (OReceived a (Terminated b)).
Proof.
  intros Hne He Hj. destruct (exec_trace_inv _ _ _ _ _ _ _ Hne He) as [_ Htr].
  destruct (watching_since a b _ (tr_contract _ _ Htr _ _ _ Hj)) as (k & Hk & Hafter).
  pose proof (lookup_lt_Some _ _ _ Hk) as Hlt. rewrite length_take in Hlt.
  rewrite lookup_take_lt in Hk by lia. exists k. split_and!; [lia|done|].
  intros i [Hki Hij]. destruct (Hafter i Hki) as [H1 H2]. by rewrite lookup_take_lt in H1, H2 by lia.
Qed.

End Trace.
