(* ===== verification/RuntimeMailboxes.v ===== *)
(** The capacity of mailboxes in a running system: the quota of an actor's mailbox counts the messages queued in
    it, whatever has been sent, forced or received; so a message is refused only if the actor has terminated or
    [capacity] messages are queued. *)
From S2P Require Import Prelude Backoff Config Flume Quota Actor Mailbox MailboxSpec Tokio Runtime RuntimeMoves RuntimeTree RuntimeWatch RuntimeSystem RuntimeTrace.

(** ** The counter, modulo its width *)

Abbreviation WIDTH := (USIZE_MAX + 1)%N.

Lemma wrapping_add_count (n : nat) : usize_wrapping_add (N.of_nat n mod WIDTH) 1 = (N.of_nat (S n) mod WIDTH)%N.
Proof.
  unfold usize_wrapping_add. rewrite N.Div0.add_mod_idemp_l. f_equal. lia.
Qed.

Lemma wrapping_sub_count (n : nat) : usize_wrapping_sub (N.of_nat (S n) mod WIDTH) 1 = (N.of_nat n mod WIDTH)%N.
Proof.
  unfold usize_wrapping_sub. rewrite <-(N.Div0.mod_add (N.of_nat n) 1 WIDTH).
  rewrite <-N.add_sub_assoc by lia. rewrite N.Div0.add_mod_idemp_l. f_equal. lia.
Qed.

Section Counted.
Context {F : Flume} {FL : FlumeLaws F} {Sink M : Type}.
Implicit Types b mb : MailboxState Sink M.

(** The counter of a mailbox of a capacity is the number of messages in its queue. *)
Definition quota_counts (cap : MailboxCapacity) b : Prop :=
  repr (quota (incoming_tx b)) =
    match cap with
    | Unbounded => RUnbounded
    | Bounded n => RBounded n (N.of_nat (length (messages (mqueue b))) mod WIDTH)
    end.

Lemma quota_counts_new cap : quota_counts cap (make_mailbox cap).
Proof.
  unfold quota_counts. destruct (make_mailbox_effect (Sink:=Sink) (M:=M) cap) as (_ & _ & ->). by destruct cap.
Qed.

Lemma quota_counts_clone cap b : quota_counts cap b → quota_counts cap (handle_clone b).
Proof. unfold quota_counts. by destruct (handle_clone_effect b) as (_ & _ & ->). Qed.

Lemma quota_counts_registry cap b r : quota_counts cap b → quota_counts cap (set_registry b r).
Proof. done. Qed.

(** An ordinary send: what it answers, and that the counter keeps up. *)
Lemma send_counts cap m b r mb :
  capacity_wf cap → quota_counts cap b → try_send_message m b = (r, mb) →
  quota_counts cap mb ∧
  (mopen b = true → (match cap with Unbounded => True | Bounded n => (length (messages (mqueue b)) < Pos.to_nat n)%nat end) →
   r = Ok ()).
Proof.
  intros Hcap Hq Hs. pose proof (try_send_message_effect m b r mb Hs) as (_ & _ & Hqueue & _).
  unfold quota_counts in *. rewrite Hqueue. unfold try_send_message, try_send_counted, reserve in Hs. rewrite Hq in Hs.
  destruct cap as [|n].
  - destruct (send (Message m) (item_tx (incoming_tx b))) as [tx|] eqn:Hsend; simplify_eq/=; [done|].
    split; [unfold drop_reservation, unreserve; simpl; by rewrite Hq|]. unfold mopen. intros Ho. destruct (send_alive _ (Message m) _ Ho) as (? & ? & _). congruence.
  - unfold reserve_update in Hs. simpl in Hcap. set (k := (N.of_nat (length (messages (mqueue b))) mod WIDTH)%N) in *.
    assert (k < N.pos n → k + 1 = N.of_nat (S (length (messages (mqueue b)))) mod WIDTH)%N as Hk.
    { intros Hlt. rewrite <-wrapping_add_count. symmetry. apply usize_wrapping_add_small. clearbody k. lia. }
    assert ((length (messages (mqueue b)) < Pos.to_nat n)%nat → (k < N.pos n)%N) as Hsmall.
    { intros Hlt. unfold k. rewrite N.mod_small by lia. lia. }
    case_decide as Hlt.
    + destruct (send (Message m) (item_tx (incoming_tx b))) as [tx|] eqn:Hsend; simplify_eq/=.
      * split; [|done]. rewrite messages_snoc_message. by rewrite Hk.
      * rewrite app_nil_r. split.
        -- unfold drop_reservation, unreserve. simpl. rewrite Hk by done. by rewrite wrapping_sub_count.
        -- unfold mopen. intros Ho. destruct (send_alive _ (Message m) _ Ho) as (? & ? & _). congruence.
    + destruct (is_disconnected _); simplify_eq/=; rewrite app_nil_r; (split; [by rewrite Hq|]); intros _ Hc; by apply Hsmall in Hc.
Qed.

Lemma force_counts cap m b r mb :
  quota_counts cap b → try_send_forced_message m b = (r, mb) → quota_counts cap mb.
Proof.
  intros Hq Hs. pose proof (try_send_forced_message_effect m b r mb Hs) as (_ & _ & Hqueue & _).
  unfold quota_counts in *. rewrite Hqueue. unfold try_send_forced_message, try_send_forced, reserve_forced in Hs.
  rewrite Hq in Hs. destruct cap as [|n].
  - destruct (send _ _) as [tx|]; simplify_eq/=; [done|]. unfold drop_reservation, unreserve. simpl. by rewrite Hq.
  - rewrite wrapping_add_count in Hs. destruct (send _ _) as [tx|]; simplify_eq/=.
    + by rewrite messages_snoc_message.
    + unfold drop_reservation, unreserve. simpl. by rewrite wrapping_sub_count, app_nil_r.
Qed.

Lemma signal_counts cap id b r mb : quota_counts cap b → send_terminated id b = (r, mb) → quota_counts cap mb.
Proof.
  intros Hq Hs. pose proof (send_terminated_effect id b r mb Hs) as (_ & _ & _ & Hqueue).
  assert (messages (mqueue mb) = messages (mqueue b)) as Hm.
  { rewrite Hqueue, messages_app. destruct r; simpl; by rewrite app_nil_r. }
  unfold quota_counts in *. rewrite Hm. unfold send_terminated, try_send_uncounted in Hs.
  by destruct (send _ _); simplify_eq/=.
Qed.

Lemma recv_counts cap i b mb : quota_counts cap b → recv b = (Ready (Some i), mb) → quota_counts cap mb.
Proof.
  intros Hq Hr. pose proof (recv_effect b i mb Hr) as (_ & _ & Hqueue). unfold quota_counts in *.
  unfold recv in Hr. destruct (poll_recv _) as [|[[i' rx]|]]; simplify_eq/=. unfold release_if_message.
  rewrite Hqueue in Hq. destruct i as [m|id]; simpl in *; [|done]. unfold unreserve. rewrite Hq.
  destruct cap as [|n]; simpl; [by rewrite Hq|]. by rewrite wrapping_sub_count.
Qed.
End Counted.

(** ** In a running system *)

Section Runtime.
Context {F : Flume} {FL : FlumeLaws F} {TW : TokioWatch} {TL : TokioWatchLaws TW}.
Context {TO : TokioOneshot} {TOL : TokioOneshotLaws TO}.
Context {M B S E : Type} {Rq : Type} {An : Rq → Type}.
#[local] Abbreviation World := (World (M:=M) (B:=B) (S:=S) (E:=E) (Rq:=Rq) (An:=An)).
#[local] Abbreviation Cell := (Cell (M:=M) (B:=B) (S:=S) (E:=E) (Rq:=Rq) (An:=An)).
Implicit Types (w : World) (c : Cell) (a b : ActorId) (t u : list (Obs (M:=M))).

Definition cell_counts c : Prop :=
  running (phase c) = true → capacity_wf (mailbox_capacity (config c)) →
  quota_counts (mailbox_capacity (config c)) (mailbox c).
Definition mailboxes_count w : Prop := ∀ a c, cells w !! a = Some c → cell_counts c.

Lemma mailboxes_count_cell w w' a c' :
  mailboxes_count w → cells w' = <[a := c']> (cells w) → cell_counts c' → mailboxes_count w'.
Proof. intros Hinv Hw Hc b cb. rewrite Hw. intros [[<- <-]|[_ Hb]]%lookup_insert_Some; eauto. Qed.

Lemma mailboxes_count_same w w' : mailboxes_count w → cells w' = cells w → mailboxes_count w'.
Proof. intros Hinv Hw b cb. rewrite Hw. apply Hinv. Qed.

Lemma mailboxes_count_move w w' u : mailboxes_count w → Move w w' u → mailboxes_count w'.
Proof.
  intros Hinv Hm.
  assert (∀ a c, cells w !! a = Some c → cell_counts c) as Hall by done.
  destruct Hm.
  all: try (eapply (mailboxes_count_same w); [done|]; by rewrite ?cells_drop_root_sink, ?cells_drop_system; simpl;
    rewrite ?cells_root_signal).
  all: try (eapply (mailboxes_count_cell w); [done|reflexivity|]; unfold cell_counts; simpl;
    try (by intros ?); by apply (Hall _ _ ltac:(eassumption))).
  - (* tell *)
    eapply (mailboxes_count_cell w); [done|reflexivity|]. unfold cell_counts. simpl. intros Hrun Hcap.
    specialize (Hall _ _ H Hrun Hcap). destruct forced; simpl in H1.
    + by eapply force_counts.
    + by eapply send_counts.
  - (* quiet *)
    eapply (mailboxes_count_cell w); [done|reflexivity|]. unfold cell_counts. simpl. intros Hrun Hcap.
    apply (Hall _ _ H); [|done]. by destruct H0.
  - (* spawn *)
    eapply (mailboxes_count_cell w); [done|reflexivity|]. unfold cell_counts. simpl. intros Hrun Hcap.
    apply quota_counts_clone, quota_counts_clone, quota_counts_new.
  - (* watched *)
    eapply (mailboxes_count_cell w); [done|reflexivity|]. unfold cell_counts. simpl. by apply (Hall _ _ H).
  - (* watched, closed *)
    eapply (mailboxes_count_cell w); [done|reflexivity|]. unfold cell_counts. simpl. intros Hrun Hcap.
    eapply signal_counts; [|done]. by apply (Hall _ _ H).
  - (* receive *)
    eapply (mailboxes_count_cell w); [done|reflexivity|]. unfold cell_counts. simpl. intros Hrun Hcap. revert Hrun Hcap.
    assert (mailbox (received c mb i) = mb ∧ phase (received c mb i) = phase c ∧ config (received c mb i) = config c)
      as (-> & -> & ->) by (by destruct i).
    intros Hrun Hcap. eapply recv_counts; [|done]. by apply (Hall _ _ H).
  - (* stop children *)
    eapply (mailboxes_count_cell w); [done|simpl; by rewrite insert_insert_eq|]. unfold cell_counts. simpl. intros Hrun Hcap.
    apply (Hall _ _ H); [|done]. destruct H0 as [d Hp|Hp]; rewrite Hp; done.
  - (* awaited *)
    eapply (mailboxes_count_cell w); [done|reflexivity|]. unfold cell_counts. simpl. intros Hrun Hcap.
    apply (Hall _ _ H); [|done]. by destruct (phase c) as [| | | | | | |[]|]; simplify_eq/=.
  - (* signal *)
    eapply (mailboxes_count_cell w1); [|reflexivity|].
    + subst w1. by eapply (mailboxes_count_cell w); [done|reflexivity|].
    + unfold cell_counts. simpl. intros Hrun Hcap. eapply signal_counts; [|done].
      subst w1. simpl in H2. apply lookup_insert_Some in H2 as [[-> <-]|[_ H2]]; [done|by apply (Hall _ _ H2)].
  - (* signal root *)
    eapply (mailboxes_count_cell w); [done|by rewrite cells_drop_root_sink, cells_root_signal|done].
Qed.

(** *** Dead letters *)

(** The messages in the mailbox of [a] after the trace [t]. *)
Definition queued a t : nat := length (messages (enqueued a t).*2) - length (messages (dequeued a t)).

Lemma queued_length w t a c :
  trace_inv w t → cells w !! a = Some c → queued a t = length (messages (mqueue (mailbox c))).
Proof.
  intros Htr Ha. unfold queued. rewrite (tr_fifo _ _ Htr _ _ Ha), messages_app, length_app. lia.
Qed.

(** What has been dead letters and what has been drained. *)
Record ends_inv w t : Prop := {
  en_dead : ∀ i src a m e, t !! i = Some (ODeadLetter src a m e) →
    ∃ c, cells w !! a = Some c ∧
      (running (phase c) = true → capacity_wf (mailbox_capacity (config c)) →
       ∃ n, mailbox_capacity (config c) = Bounded n ∧ (Pos.to_nat n ≤ queued a (take i t))%nat);
  en_drained : ∀ a l, ODrained a l ∈ t → ∃ c, cells w !! a = Some c ∧ running (phase c) = false;
}.

(** A cell keeps its configuration, and does not start again. *)
Lemma cell_kept w w' u a c :
  Move w w' u → cells w !! a = Some c →
  ∃ c', cells w' !! a = Some c' ∧ config c' = config c ∧ (running (phase c') = true → running (phase c) = true).
Proof.
  intros Hm Ha.
  assert (∀ b o o' (cs : gmap ActorId Cell), cs = <[b := o']> (cells w) → cells w !! b = Some o →
            config o' = config o → (running (phase o') = true → running (phase o) = true) →
            ∃ c', cs !! a = Some c' ∧ config c' = config c ∧ (running (phase c') = true → running (phase c) = true)) as Hins.
  { intros b o o' cs -> Hb Hc Hr. rewrite lookup_insert. destruct (decide (b = a)) as [->|]; [|by eauto].
    simplify_eq. eauto. }
  destruct Hm; rewrite ?cells_drop_root_sink, ?cells_drop_system; simpl; rewrite ?cells_root_signal;
    try (by eauto); try (eapply Hins; [reflexivity|eassumption|done|done]);
    try (by eapply Hins; [reflexivity|eassumption|done|simpl; intros ?; match goal with H : phase _ = _ |- _ => by rewrite H end]).
  - eapply Hins; [reflexivity|done|done|]. simpl. by destruct H0.
  - unfold fresh in H1. case_bool_decide as Hf; [|done]. destruct Hf as [Hf _]. rewrite lookup_insert_ne by congruence. eauto.
  - eapply Hins; [reflexivity|done|by destruct i|by destruct i].
  - rewrite insert_insert_eq. eapply Hins; [reflexivity|done|done|]. simpl. by destruct H0 as [d Hp|Hp]; rewrite Hp.
  - eapply Hins; [reflexivity|done|done|]. simpl. by destruct (phase c0) as [| | | | | | |[]|]; simplify_eq/=.
  - subst w1. simpl in *. destruct (decide (to = a0)) as [->|Hne].
    + rewrite lookup_insert_eq in H2. simplify_eq. rewrite insert_insert_eq. by eapply Hins.
    + rewrite lookup_insert_ne in H2 by done. rewrite !lookup_insert.
      destruct (decide (to = a)) as [->|]; [simplify_eq; by eauto|].
      destruct (decide (a0 = a)) as [->|]; [simplify_eq|by eauto]. eexists. split_and!; done.
Qed.

(** A dead letter is the outcome of one rejected message. *)
Lemma dead_letter_move w w' u src a m e :
  Move w w' u → ODeadLetter src a m e ∈ u → u = [ODeadLetter src a m e] ∧ ∃ c mb e',
    cells w !! a = Some c ∧ try_send_message m (mailbox c) = (Err e', mb) ∨
    cells w !! a = Some c ∧ try_send_forced_message m (mailbox c) = (Err e', mb).
Proof.
  intros Hm Hin. destruct Hm; simpl in Hin;
    try (unfold root_signal in Hin; destruct (terminated_tx _));
    try (by apply not_elem_of_nil in Hin); try (by apply list_elem_of_singleton in Hin).
  - destruct r as [|e']; [by apply list_elem_of_singleton in Hin|]. destruct logged; [|by apply not_elem_of_nil in Hin].
    apply list_elem_of_singleton in Hin. simplify_eq. split; [done|]. exists c, mb, e'. destruct forced; auto.
  - apply elem_of_app in Hin as [Hin|Hin]; [destruct r; set_solver|set_solver].
  - apply list_elem_of_singleton in Hin. destruct (accepted c i), i; done.
  - destruct restart; set_solver.
  - destruct r; set_solver.
Qed.

(** A mailbox which rejects a message while its actor runs is full. *)
Lemma rejected_full rt rw w t a c m mb e :
  sys_inv rt rw w t → trace_inv w t → mailboxes_count w → cells w !! a = Some c → running (phase c) = true →
  capacity_wf (mailbox_capacity (config c)) →
  try_send_message m (mailbox c) = (Err e, mb) ∨ try_send_forced_message m (mailbox c) = (Err e, mb) →
  ∃ n, mailbox_capacity (config c) = Bounded n ∧ (Pos.to_nat n ≤ queued a t)%nat.
Proof.
  intros Hsys Htr Hcount Hc Hr Hcap Hsend. rewrite (queued_length w t a c) by done.
  pose proof (wi_open _ _ _ (si_watch _ _ _ _ Hsys) _ _ Hc Hr) as Hopen. destruct Hsend as [Hsend|Hsend].
  - destruct (send_counts _ _ _ _ _ Hcap (Hcount _ _ Hc Hr Hcap) Hsend) as [_ Hok].
    destruct (mailbox_capacity (config c)) as [|n]; [by specialize (Hok Hopen I)|]. exists n. split; [done|].
    destruct (decide (Pos.to_nat n ≤ length (messages (mqueue (mailbox c))))%nat); [done|].
    by specialize (Hok Hopen ltac:(lia)).
  - unfold try_send_forced_message, try_send_forced in Hsend. unfold mopen in Hopen.
    destruct (reserve_forced _) as [res q]. destruct (send_alive _ (Message m) _ Hopen) as (ch & Hs & _).
    rewrite Hs in Hsend. by simplify_eq/=.
Qed.

(** Draining ends an actor. *)
Lemma drained_move w w' u a l : Move w w' u → ODrained a l ∈ u → ∃ c, cells w' !! a = Some c ∧ running (phase c) = false.
Proof.
  intros Hm Hin. destruct Hm; simpl in Hin; try (unfold root_signal in Hin; destruct (terminated_tx _));
    try (by apply not_elem_of_nil in Hin); try (apply list_elem_of_singleton in Hin; simplify_eq).
  - destruct r; [|destruct logged]; set_solver.
  - destruct r; set_solver.
  - destruct (accepted c i), i; done.
  - destruct restart; set_solver.
  - simpl. rewrite lookup_insert_eq. eauto.
  - destruct r; set_solver.
Qed.

Lemma ends_inv_move rt rw w w' t u :
  sys_inv rt rw w t → trace_inv w t → mailboxes_count w → ends_inv w t → Move w w' u → ends_inv w' (t ++ u).
Proof.
  intros Hsys Htr Hcount [Hdead Hdrained] Hm. split.
  - intros i src a m e Hi. destruct (decide (i < length t)%nat) as [Hlt|Hge].
    + rewrite lookup_app_l in Hi by done. destruct (Hdead _ _ _ _ _ Hi) as (c & Hc & Hcase).
      destruct (cell_kept _ _ _ _ _ Hm Hc) as (c' & Hc' & Hcf & Hr). exists c'. split; [done|].
      rewrite Hcf, take_app_le by lia. auto.
    + rewrite lookup_app_r in Hi by lia. destruct (dead_letter_move w w' u src a m e) as [-> (c & mb & e' & Hsend)]; [done|by eapply list_elem_of_lookup_2|].
      assert (i = length t) as -> by (apply lookup_lt_Some in Hi; simpl in Hi; lia). rewrite take_app_length.
      assert (cells w !! a = Some c) as Hc by (by destruct Hsend as [[? _]|[? _]]).
      destruct (cell_kept _ _ _ _ _ Hm Hc) as (c' & Hc' & Hcf & Hr). exists c'. split; [done|].
      rewrite Hcf. intros Hrun Hcap. eapply rejected_full; [done|done|done|done|by apply Hr|done|].
      destruct Hsend as [[_ ?]|[_ ?]]; eauto.
  - intros a l Hin. apply elem_of_app in Hin as [Hin|Hin]; [|by eapply drained_move].
    destruct (Hdrained _ _ Hin) as (c & Hc & Hrun). destruct (cell_kept _ _ _ _ _ Hm Hc) as (c' & Hc' & _ & Hr).
    exists c'. split; [done|]. destruct (running (phase c')); [by rewrite Hr in Hrun|done].
Qed.

Context {A : Runtime.Actor M B S E Rq An}.

Lemma mailboxes_count_new id wid act config : mailboxes_count (system_new id wid act config).
Proof.
  intros a c. simpl. intros [<- <-]%lookup_singleton_Some _ _. apply quota_counts_clone, quota_counts_clone, quota_counts_new.
Qed.

Lemma exec_mailboxes_count id wid act config ls w t :
  exec ls (system_new id wid act config) = Some (w, t) → mailboxes_count w.
Proof.
  intros He. apply (exec_invariant (λ w _, mailboxes_count w) id wid act config ls w t); [| |done].
  - apply mailboxes_count_new.
  - intros. by eapply mailboxes_count_move.
Qed.

(** A message to a running actor with capacity left is enqueued. *)
Lemma tell_enqueued rt rw w t src to m c w' u :
  sys_inv rt rw w t → mailboxes_count w → cells w !! actor_id to = Some c → running (phase c) = true →
  capacity_wf (mailbox_capacity (config c)) →
  match mailbox_capacity (config c) with
  | Unbounded => True
  | Bounded n => (length (messages (mqueue (mailbox c))) < Pos.to_nat n)%nat
  end →
  tell src to m w = Some (w', u) → u = [OEnqueued src (actor_id to) (Message m)].
Proof.
  intros Hsys Hcount Hc Hrun Hcap Hfull Ht. unfold tell in Ht. rewrite Hc in Ht. simpl in Ht.
  destruct (try_send_message m (mailbox c)) as [r mb] eqn:Hs. simplify_eq.
  destruct (send_counts _ _ _ _ _ Hcap (Hcount _ _ Hc Hrun Hcap) Hs) as [_ Hok].
  rewrite Hok; [done| |done]. by apply (wi_open _ _ _ (si_watch _ _ _ _ Hsys) (actor_id to)).
Qed.
(** The invariants of the mailboxes, in every run. *)
Lemma exec_ends_inv id wid act config ls w t :
  id ≠ wid → exec ls (system_new id wid act config) = Some (w, t) →
  sys_inv id wid w t ∧ trace_inv w t ∧ mailboxes_count w ∧ ends_inv w t.
Proof.
  intros ids He.
  apply (exec_invariant (λ w t, sys_inv id wid w t ∧ trace_inv w t ∧ mailboxes_count w ∧ ends_inv w t)
           id wid act config ls w t); [| |done].
  - split_and!; [by apply sys_inv_system_new|by apply trace_inv_system_new|apply mailboxes_count_new|].
    by split; [intros i src a m e Hi|intros a l Hl; apply elem_of_nil in Hl].
  - intros w0 t0 w1 u (Hsys & Htr & Hc & He0) Hm. split_and!.
    + by eapply sys_inv_move.
    + by eapply trace_inv_move.
    + by eapply mailboxes_count_move.
    + by eapply ends_inv_move.
Qed.
End Runtime.
