(* ===== verification/RuntimeProgress.v ===== *)
(** Progress: the runtime never deadlocks. Tasks wait for incomings, for timers and, restarting or terminating, for
    their children to be gone. When no task can take a step anymore, nobody waits for children and every task
    has ended or waits for incomings which nobody sends; once the system is stopped, everyone has ended. *)
From S2P Require Import Prelude Backoff Config Flume Quota Actor Mailbox MailboxSpec Tokio Runtime RuntimeMoves RuntimeTree RuntimeWatch RuntimeSystem RuntimeTrace.

Section Progress.
Context {F : Flume} {FL : FlumeLaws F} {TW : TokioWatch} {TL : TokioWatchLaws TW}.
Context {TO : TokioOneshot} {TOL : TokioOneshotLaws TO}.
Context {M B S E : Type} {Rq : Type} {An : Rq → Type}.
#[local] Abbreviation World := (World (M:=M) (B:=B) (S:=S) (E:=E) (Rq:=Rq) (An:=An)).
#[local] Abbreviation Cell := (Cell (M:=M) (B:=B) (S:=S) (E:=E) (Rq:=Rq) (An:=An)).
#[local] Abbreviation Phase := (Phase (M:=M) (B:=B) (S:=S) (E:=E) (Rq:=Rq) (An:=An)).
#[local] Abbreviation Handler := (Handler (M:=M) (B:=B) (E:=E) (Rq:=Rq) (An:=An)).
#[local] Abbreviation Obs := (Obs (M:=M)).
Implicit Types (w : World) (c d : Cell) (p : Phase) (a b : ActorId) (t u : list Obs).

(** ** A mailbox is never disconnected from its senders *)

(** [expect("self_ref keeps a mailbox handle alive")] *)
Definition senders c : nat := tx_count (item_tx (incoming_tx (mailbox c))).
Definition handles_kept w : Prop := ∀ a c, cells w !! a = Some c → (0 < senders c)%nat.

Lemma handles_kept_cell w w' a c' :
  handles_kept w → cells w' = <[a := c']> (cells w) → (0 < senders c')%nat → handles_kept w'.
Proof. intros Hinv Hw Hc b d. rewrite Hw. intros [[<- <-]|[_ Hb]]%lookup_insert_Some; [done|by eapply Hinv]. Qed.
Lemma handles_kept_put w w' a c c' :
  handles_kept w → cells w !! a = Some c → cells w' = <[a := c']> (cells w) → senders c' = senders c → handles_kept w'.
Proof. intros Hinv Ha Hw Hc. eapply handles_kept_cell; [done..|]. rewrite Hc. by eapply Hinv. Qed.
Lemma handles_kept_same w w' : handles_kept w → cells w' = cells w → handles_kept w'.
Proof. intros Hinv Hw a c. rewrite Hw. apply Hinv. Qed.

Lemma send_message_senders forced m (b : MailboxState Sink M) r mb :
  send_message forced m b = (r, mb) → tx_count (item_tx (incoming_tx mb)) = tx_count (item_tx (incoming_tx b)).
Proof.
  unfold send_message, try_send_forced_message, try_send_message. pose proof (try_send_tx_count (Message m) (incoming_tx b)) as (H1 & H2 & _).
  destruct forced; [destruct (try_send_forced _ _) as [[|[]] tx]|destruct (try_send_counted _ _) as [[] tx]];
    intros; simplify_eq/=; done.
Qed.
Lemma send_terminated_senders id (b : MailboxState Sink M) r mb :
  send_terminated id b = (r, mb) → tx_count (item_tx (incoming_tx mb)) = tx_count (item_tx (incoming_tx b)).
Proof.
  unfold send_terminated. pose proof (try_send_tx_count (Terminated id) (incoming_tx b)) as (_ & _ & H).
  destruct (try_send_uncounted _ _) as [[|[]] tx]; intros; simplify_eq/=; done.
Qed.
Lemma recv_senders (b : MailboxState Sink M) i mb :
  recv b = (Ready (Some i), mb) → tx_count (item_tx (incoming_tx mb)) = tx_count (item_tx (incoming_tx b)).
Proof.
  unfold recv. intros Hr. destruct (poll_recv (item_tx (incoming_tx b))) as [|[[i' rx]|]] eqn:Hp; simplify_eq/=.
  apply poll_recv_some in Hp as (_ & _ & ->). done.
Qed.

Lemma new_mailbox_senders cap : (0 < tx_count (item_tx (incoming_tx (handle_clone (handle_clone (make_mailbox (Sink:=Sink) (M:=M) cap))))))%nat.
Proof. simpl. destruct (clone_tx_spec _ (clone_tx (unbounded (Incoming M)))) as (_ & _ & ->). lia. Qed.

Lemma handles_kept_move w w' u : handles_kept w → Move w w' u → handles_kept w'.
Proof.
  intros Hinv Hm.
  destruct Hm; try (apply (handles_kept_same w); [done|]; by rewrite ?cells_drop_root_sink, ?cells_drop_system; simpl; rewrite ?cells_root_signal);
    try (by eapply handles_kept_put; [done| |reflexivity|]).
  - (* tell *) eapply handles_kept_put; [done| |reflexivity|]; [done|]. by eapply send_message_senders.
  - (* spawn *) eapply handles_kept_cell; [done|reflexivity|]. apply new_mailbox_senders.
  - (* watched, closed *) eapply handles_kept_put; [done| |reflexivity|]; [done|]. by eapply send_terminated_senders.
  - (* receive *) eapply handles_kept_put; [done| |reflexivity|]; [done|]. trans (tx_count (item_tx (incoming_tx mb))).
    + by destruct i.
    + by eapply recv_senders.
  - (* stop children *) eapply handles_kept_put; [done| |simpl; by rewrite insert_insert_eq|]; done.
  - (* drain *) eapply handles_kept_put; [done| |reflexivity|]; [done|]. unfold senders, split_drain in *. simpl.
    match goal with H : context [drain ?x] |- _ => destruct (drain_spec _ x) as (_ & _ & _ & Htx); destruct (drain x) end.
    by simplify_eq/=.
  - (* drop the receiver *) eapply handles_kept_put; [done| |reflexivity|]; [done|]. apply drop_rx_spec.
  - (* take the watchers *) eapply handles_kept_put; [done| |reflexivity|]; [done|]. unfold senders, take_watchers in *.
    destruct (registry_take _). by simplify_eq/=.
  - (* signal *) subst w1. assert (handles_kept (put_cell a (set_phase c (Terminating (TSignal rest))) w)) as Hinv1
      by by eapply handles_kept_put.
    eapply handles_kept_put; [exact Hinv1|eassumption|reflexivity|]. by eapply send_terminated_senders.
  - (* signal the root *) subst w1.
    eapply handles_kept_put; [done| |by rewrite cells_drop_root_sink, cells_root_signal|]; done.
Qed.

(** What a task polls from its mailbox. *)
Lemma recv_ready c : (0 < senders c)%nat →
  match mqueue (mailbox c) with
  | [] => (recv (mailbox c)).1 = Pending
  | i :: _ => (recv (mailbox c)).1 = Ready (Some i)
  end.
Proof.
  unfold senders, mqueue, recv. intros Hpos. destruct (queue _) as [|i q] eqn:Hq.
  - rewrite (poll_recv_nil _ _ Hq), decide_False by lia. done.
  - by destruct (poll_recv_cons _ _ _ _ Hq) as (rx & -> & _).
Qed.

(** ** Who is told to stop is told so for good *)

(** The generations of children a context has left, and those of a stopped system, are stopped. *)
Record told_inv w t : Prop := {
  to_context : ∀ a c g ch, cells w !! a = Some c → (g < generation c)%nat →
    stop_channels w !! ContextKey a g = Some ch → stopped ch;
  to_system : OStopRequested ∈ t → ∃ ch, stop_channels w !! SystemKey = Some ch ∧ stopped ch;
}.

(** A generation begins with the one before told to stop. *)
Lemma generation_move rt rw w w' t u a c' :
  sys_inv rt rw w t → Move w w' u → cells w' !! a = Some c' →
  generation c' = 0%nat ∨ ∃ c, cells w !! a = Some c ∧
    (generation c' = generation c ∨
     generation c' = Datatypes.S (generation c) ∧ ∃ ch, stop_channels w' !! ContextKey a (generation c) = Some ch ∧ stopped ch).
Proof.
  intros Hsys Hm. pose proof (si_tree _ _ _ _ Hsys) as Htree.
  assert (∀ b o o' (cs : gmap ActorId Cell), cs = <[b := o']> (cells w) → cells w !! b = Some o → generation o' = generation o →
            cs !! a = Some c' → generation c' = 0%nat ∨ ∃ c, cells w !! a = Some c ∧ (generation c' = generation c ∨
              generation c' = Datatypes.S (generation c) ∧ ∃ ch, stop_channels w' !! ContextKey a (generation c) = Some ch ∧ stopped ch)) as Hins.
  { intros b o o' cs -> Hb Hg [[<- <-]|[_ Ha]]%lookup_insert_Some; right; eauto. }
  destruct Hm; rewrite ?cells_drop_root_sink, ?cells_drop_system; simpl; rewrite ?cells_root_signal;
    try (by right; eauto); try (eapply Hins; [reflexivity|eassumption|done]).
  - (* spawn *) intros [[<- <-]|[_ Ha]]%lookup_insert_Some; [by left|right; eauto].
  - (* receive *) eapply Hins; [reflexivity|done|by destruct i].
  - (* stop children *) rewrite insert_insert_eq. intros [[<- <-]|[_ Ha]]%lookup_insert_Some; [|right; eauto].
    right. exists c. split; [done|]. right. split; [done|]. simpl.
    assert (is_Some (stop_channels w !! ContextKey a0 (generation c))) as [ch Hch].
    { apply (fmap_is_Some rx_count). rewrite <-lookup_fmap. apply (inv_keys _ _ Htree a0).
      exists (node_of c). split; [by apply lookup_node|done]. }
    rewrite lookup_alter_eq, lookup_insert_ne by (intros [= Heq]; lia). rewrite Hch. eexists. split; [done|]. simpl.
    apply stopped_drop_rx. left. apply (watch_send_spec ch).
    apply (own_ge _ _ a0 (node_of c) _ Htree); [by apply lookup_node|..];
      try (match goal with H : stopping _ _ _ _ |- _ => by destruct H as [? Hp|Hp]; unfold node_of; simpl; rewrite Hp end).
    simpl. by rewrite lookup_fmap, Hch.
  - (* signal *) subst w1. simpl in *. intros [[<- <-]|[_ Ha]]%lookup_insert_Some.
    + right. match goal with H : <[_:=_]> _ !! _ = Some _ |- _ => apply lookup_insert_Some in H as [[<- <-]|[_ ?]] end; eauto.
    + by eapply Hins; [reflexivity|exact H| |exact Ha].
Qed.

Lemma told_inv_move rt rw w w' t u : sys_inv rt rw w t → told_inv w t → Move w w' u → told_inv w' (t ++ u).
Proof.
  intros Hsys [Hctx Hown] Hm. split.
  - intros a c' g ch' Ha Hg Hch'. destruct (generation_move _ _ _ _ _ _ _ _ Hsys Hm Ha) as [?|(c & Hc & Hgen)]; [lia|].
    destruct (decide (g < generation c)%nat) as [Hlt|Hge].
    + assert (is_Some (stop_channels w !! ContextKey a g)) as [ch Hch].
      { apply (fmap_is_Some rx_count). rewrite <-lookup_fmap. apply (inv_keys _ _ (si_tree _ _ _ _ Hsys) a).
        exists (node_of c). split; [by apply lookup_node|]. simpl. lia. }
      destruct (stopped_move _ _ _ _ _ _ _ _ Hsys Hm Hch (Hctx _ _ _ _ Hc Hlt Hch)) as (ch1 & ? & ?). by simplify_eq.
    + destruct Hgen as [|[Hgen (ch & Hch & Hst)]]; [lia|]. assert (g = generation c) as -> by lia. by simplify_eq.
  - rewrite elem_of_app. intros [Hin|Hin].
    + destruct (Hown Hin) as (ch & Hch & Hst). by eapply stopped_move.
    + destruct Hm; simpl in Hin; try (unfold root_signal in Hin; destruct (terminated_tx _));
        try (by apply not_elem_of_nil in Hin); try (by apply list_elem_of_singleton in Hin).
      * destruct r; [|destruct logged]; set_solver.
      * destruct r; set_solver.
      * destruct (accepted c i), i; set_solver.
      * destruct restart; set_solver.
      * destruct r; set_solver.
      * simpl. destruct (ri_channel _ _ (si_owner _ _ _ _ Hsys)) as (ch & Hch & _). rewrite lookup_alter_eq, Hch.
        eexists. split; [done|]. left. by destruct (watch_send_replace_spec ch) as (_ & -> & _).
Qed.

(** ** Blocked tasks *)

Context {A : Runtime.Actor M B S E Rq An}.

(** Whatever time it is and whatever it is answered, the task takes no step. *)
Definition blocked w a : Prop := ∀ e, task_step e a w = None.

(** Code acts on references of actors which have been spawned: nothing else makes a reference. *)
Definition refers_to {R} (h : Handler R) : option ActorRef :=
  match h with HTell to _ _ | HTryTell _ to _ _ => Some to | HWatch other _ => Some other | _ => None end.
Definition reference p : option ActorRef :=
  match p with Initializing h => refers_to h | Receiving h _ => refers_to h | _ => None end.
Definition references_ok w : Prop :=
  ∀ a c r, cells w !! a = Some c → reference (phase c) = Some r → is_Some (cells w !! actor_id r).

(** Asleep for an incoming, there is none. *)
Definition idle w c : Prop :=
  (∃ state up, phase c = NextIncoming state up) ∧ stop_poll c = Asleep ∧ stopped_by_parent c w = false ∧
  mqueue (mailbox c) = [] ∧ (recv (mailbox c)).1 = Pending.

Lemma idle_blocked w a c : cells w !! a = Some c → phase c = Done ∨ idle w c → blocked w a.
Proof.
  intros Hc Hidle e. unfold task_step. rewrite Hc. simpl. destruct Hidle as [->|((s & up & ->) & Hpoll & Hst & _ & Hrecv)]; [done|].
  unfold next_incoming. by rewrite Hpoll, Hst, Hrecv.
Qed.

(** Some child of the generation awaited has not ended. *)
Definition waits_for_child w c : Prop :=
  ∃ old b d, awaiting (phase c) = Some old ∧ cells w !! b = Some d ∧ parent_stopping d = old ∧ phase d ≠ Done.

Context (answers : ∀ q, An q).

(** An environment in which a new id is fresh. *)
Lemma fresh_env w : ∃ e : Env (An:=An), fresh (new_id e) w = true ∧ timer_fired e = true.
Proof.
  set (used := uuid <$> (root_watcher w :: (map_to_list (cells w)).*1)).
  exists (mk_env 0%N (mk_actor_id (base.fresh used)) true false answers). split; [|done]. simpl.
  unfold fresh. rewrite bool_decide_eq_true. pose proof (infinite_is_fresh used) as Hf. split.
  - destruct (cells w !! _) as [c|] eqn:Hc; [|done]. destruct Hf. apply list_elem_of_fmap. exists (mk_actor_id (base.fresh used)).
    split; [done|]. right. apply list_elem_of_fmap. exists (mk_actor_id (base.fresh used), c). split; [done|].
    by apply elem_of_map_to_list.
  - intros Heq. assert (uuid (root_watcher w) ∈ used) as Hin by (unfold used; simpl; by left). by rewrite <-Heq in Hin.
Qed.

Lemma tell_some src to m w c : cells w !! actor_id to = Some c → is_Some (tell src to m w).
Proof. intros Hc. unfold tell. rewrite Hc. simpl. by destruct (try_send_message m (mailbox c)). Qed.
Lemma try_tell_some forced src to m w c : cells w !! actor_id to = Some c → is_Some (try_tell forced src to m w).
Proof. intros Hc. unfold try_tell. rewrite Hc. simpl. by destruct (send_message forced m (mailbox c)). Qed.
Lemma signal_some src to about w c : cells w !! to = Some c → is_Some (signal_mailbox src to about w).
Proof. intros Hc. unfold signal_mailbox. rewrite Hc. simpl. by destruct (send_terminated about (mailbox c)). Qed.

Lemma watch_some a other w c o : cells w !! a = Some c → cells w !! actor_id other = Some o → is_Some (watch a other w).
Proof.
  intros Ha Ho. unfold watch. rewrite Ho. simpl.
  match goal with |- is_Some (?x ≫= _) => assert (is_Some x) as [c1 ->] end.
  { rewrite lookup_alter. case_decide; rewrite ?Ha; [|done]. simplify_eq. by rewrite Ha. }
  simpl. destruct (is_ok _); [done|].
  edestruct (signal_some (FromActor a) a (actor_id other)) as [[[r w2] u2] Hs]; [|by rewrite Hs].
  simpl. apply lookup_insert_eq.
Qed.

(** Code which has not come to its end goes on. *)
Lemma handler_some {R} e a c (h : Handler R) w :
  cells w !! a = Some c → fresh (new_id e) w = true → (∀ r, refers_to h = Some r → is_Some (cells w !! actor_id r)) →
  match h with HReturn _ | HPanic => False | _ => True end → is_Some (handler_step e a h w).
Proof.
  intros Ha Hf Hr Hh. destruct h as [r| |to m k|forced to m k|k|act cfg k|other k|other k|q k]; try done; simpl in *.
  - destruct (Hr _ eq_refl) as [d Hd]. by destruct (tell_some (FromActor a) to m w d Hd) as [[] ->].
  - destruct (Hr _ eq_refl) as [d Hd]. by destruct (try_tell_some forced (FromActor a) to m w d Hd) as [[[]] ->].
  - rewrite Ha. simpl. by rewrite Hf.
  - destruct (Hr _ eq_refl) as [d Hd]. by destruct (watch_some a other w c d Ha Hd) as [[[]] ->].
  - unfold unwatch. by rewrite Ha.
Qed.

(** The children awaited are those with receivers of their generation's channel. *)
Lemma awaited_blocked rt rw w t a c old :
  sys_inv rt rw w t → cells w !! a = Some c → awaiting (phase c) = Some old → await_closed old w = None → waits_for_child w c.
Proof.
  intros Hsys Ha Haw Hcl. pose proof (si_tree _ _ _ _ Hsys) as Htree.
  assert (n_phase (node_of c) = Awaiting old) as Hn.
  { unfold node_of. simpl. by destruct (phase c) as [| | | | | | |[]|]; simplify_eq/=. }
  destruct (inv_awaiting _ _ Htree _ _ _ (lookup_node _ _ _ Ha) Hn) as (g & Hg & ->). simpl in Hg.
  assert (is_Some (stop_channels w !! ContextKey a g)) as [ch Hch].
  { apply (fmap_is_Some rx_count). rewrite <-lookup_fmap. apply (inv_keys _ _ Htree a).
    exists (node_of c). split; [by apply lookup_node|simpl; lia]. }
  unfold await_closed in Hcl. rewrite Hch in Hcl. simpl in Hcl. rewrite watch_closed_spec in Hcl. case_decide as Hrx; [done|].
  pose proof (inv_count _ _ Htree (ContextKey a g) (rx_count ch)) as Hcount. simpl in Hcount.
  rewrite lookup_fmap, Hch in Hcount. specialize (Hcount eq_refl).
  rewrite lookup_fmap, Ha in Hcount. simpl in Hcount. rewrite decide_False in Hcount by lia.
  destruct (decide (mcount (held (ContextKey a g)) (node_of <$> cells w) = 0%nat)) as [Hz|Hnz]; [lia|].
  destruct (mcount_nonzero _ _ Hnz) as (b & m & Hb & Hm). rewrite lookup_fmap in Hb. apply fmap_Some in Hb as (d & Hd & ->).
  exists (ContextKey a g), b, d. split_and!; [done..| |].
  - unfold held in Hm. by case_decide as Hp; [destruct Hp|].
  - intros Hdone. unfold held in Hm. case_decide as Hp; [|done]. destruct Hp as [_ Hal]. apply Hal. simpl. by rewrite Hdone.
Qed.

Lemma blocked_task rt rw w t a c :
  sys_inv rt rw w t → handles_kept w → references_ok w → blocked w a → cells w !! a = Some c →
  phase c = Done ∨ idle w c ∨ waits_for_child w c.
Proof.
  intros Hsys Hkept Hrefs Hblocked Ha. destruct (fresh_env w) as (e & Hfresh & Htimer). specialize (Hblocked e).
  unfold task_step in Hblocked. rewrite Ha in Hblocked. simpl in Hblocked.
  pose proof (λ r, Hrefs a c r Ha) as Hr.
  destruct (phase c) as [h|state up|h up|up|delay|old delay|delay|ph|] eqn:Hp; simpl in Hr; [exfalso|..|by left].
  - assert (∀ k : Handler S * World * list Obs → option (World * list Obs),
      match h with HReturn _ | HPanic => False | _ => True end → (∀ x, is_Some (k x)) → handler_step e a h w ≫= k ≠ None) as Hgo.
    { intros k Hh Hk. destruct (handler_some e a c h w Ha Hfresh Hr Hh) as [x ->]. simpl. by destruct (Hk x) as [y ->]. }
    destruct h as [[]| | | | | | | |]; try done; try (eapply Hgo; [|  |exact Hblocked]; [done|]; by intros [[]]).
    by destruct (abandons e c w).
  - right; left. pose proof (recv_ready c (Hkept _ _ Ha)) as Hrecv. unfold next_incoming in Hblocked.
    destruct (stop_poll c) eqn:Hpoll; [by destruct (stopped_by_parent c w)| |].
    + exfalso. destruct (mqueue (mailbox c)), (recv (mailbox c)) as [[|[]] mb]; by simplify_eq/=.
    + destruct (stopped_by_parent c w) eqn:Hst; [done|]. split; [eauto|]. split_and!; [done..| |];
        destruct (mqueue (mailbox c)); try done; by rewrite Hrecv in Hblocked.
  - exfalso. assert (∀ k : Handler (Control S) * World * list Obs → option (World * list Obs),
      match h with HReturn _ | HPanic => False | _ => True end → (∀ x, is_Some (k x)) → handler_step e a h w ≫= k ≠ None) as Hgo.
    { intros k Hh Hk. destruct (handler_some e a c h w Ha Hfresh Hr Hh) as [x ->]. simpl. by destruct (Hk x) as [y ->]. }
    destruct h as [[[]|]| | | | | | | |]; try done; (eapply Hgo; [| |exact Hblocked]; [done|]; by intros [[]]).
  - done.
  - exfalso. unfold restart in Hblocked. by destruct (stop_children a c w).
  - right; right. eapply awaited_blocked; [done..|by rewrite Hp|]. by destruct (await_closed old w).
  - exfalso. unfold await_backoff in Hblocked. rewrite Htimer in Hblocked.
    by destruct (duration_is_zero delay), (stopped_by_parent c w).
  - right. destruct ph as [| |[|r rest]| |old| | |[|x rest]]; simpl in Hblocked; try done.
    + by destruct (split_drain (mailbox c)).
    + right. eapply awaited_blocked; [done..|by rewrite Hp|]. by destruct (await_closed old w).
    + exfalso. destruct (terminated_sink x) as [to|] eqn:Hx; [|by destruct (root_signal _)].
      destruct (wi_signals _ _ _ (si_watch _ _ _ _ Hsys) a c x Ha) as [[Hs [d Hd]]|[Hs _]]; [by rewrite Hp; left| |congruence].
      assert (is_Some (cells (goto a (Terminating (TSignal rest)) w) !! to)) as [d' Hd'].
      { rewrite (goto_put _ _ _ _ Ha). rewrite Hx in Hs. injection Hs as ->. simpl.
        destruct (decide (watcher_id x = a)) as [->|]; [rewrite lookup_insert_eq|rewrite lookup_insert_ne]; eauto. }
      by destruct (signal_some (FromActor a) to a _ _ Hd') as [[[]] Hsig]; rewrite Hsig in Hblocked.
Qed.

(** ** Nobody waits for children forever *)

(** Below everyone there is someone who waits for nobody. *)
Lemma nobody_waits rt rw w t :
  sys_inv rt rw w t → told_inv w t → handles_kept w → references_ok w → (∀ a, blocked w a) →
  ∀ a c, cells w !! a = Some c → ¬ waits_for_child w c.
Proof.
  intros Hsys [Htold _] Hkept Hrefs Hblocked. pose proof (si_tree _ _ _ _ Hsys) as Htree.
  destruct (inv_rank _ _ Htree) as [rank Hrank].
  assert (∃ n, ∀ a c, cells w !! a = Some c → (rank a < n)%nat) as [n Hn].
  { exists (Datatypes.S (max_list (rank <$> (map_to_list (cells w)).*1))). intros a c Ha.
    apply Nat.lt_succ_r, max_list_elem_of_le, list_elem_of_fmap. exists a. split; [done|].
    apply list_elem_of_fmap. exists (a, c). split; [done|]. by apply elem_of_map_to_list. }
  intros a. remember (n - rank a)%nat as m eqn:Hm. revert a Hm.
  induction m as [m IH] using lt_wf_ind. intros a -> c Ha (old & b & d & Haw & Hb & Hpar & Hdone).
  assert (∃ g, old = ContextKey a g ∧ (g < generation c)%nat) as (g & -> & Hg).
  { assert (n_phase (node_of c) = Awaiting old) as Hph.
    { unfold node_of. simpl. by destruct (phase c) as [| | | | | | |[]|]; simplify_eq/=. }
    destruct (inv_awaiting _ _ Htree _ _ _ (lookup_node _ _ _ Ha) Hph) as (g & Hg & ->). exists g. simpl in Hg. split; [done|lia]. }
  destruct (blocked_task _ _ _ _ _ _ Hsys Hkept Hrefs (Hblocked b) Hb) as [?|[(_ & _ & Hst & _)|Hwait]]; [done|..].
  - destruct (parent_channel _ _ _ _ _ _ Hsys Hb) as [ch Hch]. unfold stopped_by_parent in Hst. rewrite Hch in Hst.
    rewrite Hpar in Hch. pose proof (Htold _ _ _ _ Ha Hg Hch) as Hs%stopped_iff. congruence.
  - pose proof (Hrank b (node_of d) a g (lookup_node _ _ _ Hb) Hpar) as Hlt. pose proof (Hn _ _ Hb).
    by eapply (IH (n - rank b)%nat ltac:(lia) b eq_refl d Hb).
Qed.

(** What is known of a world in which no task can take a step. *)
Lemma all_blocked rt rw w t :
  sys_inv rt rw w t → told_inv w t → handles_kept w → references_ok w → (∀ a, blocked w a) →
  ∀ a c, cells w !! a = Some c → phase c = Done ∨ idle w c.
Proof.
  intros Hsys Htold Hkept Hrefs Hblocked a c Ha.
  destruct (blocked_task _ _ _ _ _ _ Hsys Hkept Hrefs (Hblocked a) Ha) as [?|[?|Hwait]]; [by left|by right|].
  by destruct (nobody_waits _ _ _ _ Hsys Htold Hkept Hrefs Hblocked _ _ Ha Hwait).
Qed.

(** ** In every run *)

Lemma exec_told_inv id wid act config ls w t :
  id ≠ wid → exec ls (system_new id wid act config) = Some (w, t) → sys_inv id wid w t ∧ told_inv w t ∧ handles_kept w.
Proof.
  intros ids He.
  apply (exec_invariant (λ w t, sys_inv id wid w t ∧ told_inv w t ∧ handles_kept w) id wid act config ls w t); [| |done].
  - split_and!; [by apply sys_inv_system_new| |].
    + split; [|by intros ?%not_elem_of_nil]. simpl. intros a c g ch [<- <-]%lookup_singleton_Some. simpl. lia.
    + intros a c. simpl. intros [<- <-]%lookup_singleton_Some. apply new_mailbox_senders.
  - intros w0 t0 w1 u (Hs & Ht & Hk) Hm. split_and!; [by eapply sys_inv_move|by eapply told_inv_move|by eapply handles_kept_move].
Qed.

Lemma everyone_done id wid w t c :
  sys_inv id wid w t → cells w !! id = Some c → phase c = Done → ∀ b d, cells w !! b = Some d → phase d = Done.
Proof.
  intros Hsys Hc Hdone b d Hb. pose proof (si_tree _ _ _ _ Hsys) as Htree.
  destruct (everyone_descends _ _ _ _ Htree Hb) as [->|Hd]; [congruence|].
  destruct (descendants_done _ _ _ _ c Htree Hd Hc) as (d' & Hd' & ?); [by rewrite Hdone|congruence].
Qed.

(** C6. The runtime never deadlocks: when no task can take a step, whatever the time and whatever it is answered,
    every actor has ended or waits, not told to stop, for incomings of which there are none; nobody waits for
    children, a restart or a mailbox without senders. In particular, once the system has been stopped, or the root
    has ended, everyone has ended and [ActorSystem::terminated] has resolved: stopping gets stuck nowhere. *)
Theorem runtime_never_deadlocks id wid act config ls w t :
  id ≠ wid → exec ls (system_new id wid act config) = Some (w, t) → references_ok w → (∀ a, blocked w a) →
  (∀ a c, cells w !! a = Some c → phase c = Done ∨ idle w c) ∧
  (OStopRequested ∈ t ∨ (∃ c, cells w !! id = Some c ∧ phase c = Done) →
    (∀ a c, cells w !! a = Some c → phase c = Done) ∧ (owner w = Owning → system_terminated w = Ready (Ok ()))).
Proof.
  intros ids He Hrefs Hblocked. destruct (exec_told_inv _ _ _ _ _ _ _ ids He) as (Hsys & Htold & Hkept).
  pose proof (all_blocked _ _ _ _ Hsys Htold Hkept Hrefs Hblocked) as Hall. split; [done|]. intros Hst.
  pose proof (si_tree _ _ _ _ Hsys) as Htree. destruct (wi_root _ _ _ (si_watch _ _ _ _ Hsys)) as [c Hc].
  assert (phase c = Done) as Hdone.
  { destruct Hst as [Hst|(c' & Hc' & ?)]; [|congruence]. destruct (Hall _ _ Hc) as [?|(_ & _ & Hnot & _)]; [done|].
    destruct (to_system _ _ Htold Hst) as (ch & Hch & Hs%stopped_iff).
    assert (parent_stopping c = SystemKey) as Hpar by (apply (inv_root _ _ Htree id (node_of c)); [by apply lookup_node|done]).
    unfold stopped_by_parent in Hnot. rewrite Hpar, Hch in Hnot. congruence. }
  split; [by eapply everyone_done|]. intros Hown. by apply (root_done_terminated id wid w t c).
Qed.
End Progress.
