(* ===== verification/RuntimeExample.v ===== *)
(** A system of two actors, run through a watch, a termination, a stop and the end of the system: the
    hypotheses of the theorems about runs are met here, with the channels of [Flume] and [Tokio]
    instantiated by their reference instances. *)
From S2P Require Import Prelude Backoff Config Flume Quota Actor Mailbox MailboxSpec Tokio Runtime RuntimeMoves RuntimeTree RuntimeWatch RuntimeSystem RuntimeTrace RuntimeProgress.
Import Reference ReferenceTokio.

(** Actors await nothing. *)
Definition no_answer (q : Nothing) : Type := match q with end.
Definition answer_none (q : Nothing) : no_answer q := match q with end.

(** The root spawns a child and watches it; the child, told 0, tells the root 7 and stops. *)
Inductive example_actor := ExampleRoot | ExampleChild (parent : ActorRef).

#[export] Instance example : Runtime.Actor N example_actor unit unit Nothing no_answer := {
  init a self :=
    match a with
    | ExampleRoot => HSpawn (ExampleChild self) default_config (λ child, HWatch child (HReturn (Ok ())))
    | ExampleChild _ => HReturn (Ok ())
    end;
  receive a self i s :=
    match a, i with
    | ExampleChild parent, Message 0%N => HTell parent 7%N (HReturn (Ok Actor.Stop))
    | _, _ => HReturn (Ok (Continue ()))
    end;
}.

Definition example_root : ActorId := mk_actor_id 1.
Definition example_watcher : ActorId := mk_actor_id 2.
Definition example_child : ActorId := mk_actor_id 3.
Definition at_root : Label (M:=N) (An:=no_answer) := LTask example_root (mk_env 0 example_child true false answer_none).
Definition at_child : Label (M:=N) (An:=no_answer) := LTask example_child (mk_env 0 example_watcher true false answer_none).

Definition example_system : World (M:=N) (B:=example_actor) (S:=unit) (E:=unit) (Rq:=Nothing) (An:=no_answer) :=
  system_new example_root example_watcher ExampleRoot default_config.

(** Up to the child told to stop, waiting in its mailbox. *)
Definition example_start : list (Label (M:=N) (An:=no_answer)) :=
  [LWatchRoot; at_root; at_root; at_root; at_child; LTell (mk_ref example_child) 0%N].
(** The child tells the root, stops and signals the root. *)
Definition example_child_stops : list (Label (M:=N) (An:=no_answer)) := replicate 13 at_child.
(** The root receives both. *)
Definition example_root_receives : list (Label (M:=N) (An:=no_answer)) := replicate 6 at_root.
(** The system is stopped and the root terminates. *)
Definition example_stop : list (Label (M:=N) (An:=no_answer)) := LStop :: replicate 10 at_root.
Definition example_all : list (Label (M:=N) (An:=no_answer)) :=
  example_start ++ example_child_stops ++ example_root_receives ++ example_stop.

Definition world_after (ls : list (Label (M:=N) (An:=no_answer))) :=
  match exec ls example_system with Some (w, _) => w | None => example_system end.
Definition trace_of (ls : list (Label (M:=N) (An:=no_answer))) :=
  match exec ls example_system with Some (_, t) => t | None => [] end.
Definition cell_after (ls : list (Label (M:=N) (An:=no_answer))) (a : ActorId) :=
  default (new_cell example_root ExampleRoot default_config SystemKey) (cells (world_after ls) !! a).

Lemma example_ids : example_root ≠ example_watcher.
Proof. done. Qed.

Lemma exec_all : exec example_all example_system = Some (world_after example_all, trace_of example_all).
Proof. vm_compute. reflexivity. Qed.
Lemma exec_start :
  exec example_start example_system = Some (world_after example_start, trace_of example_start).
Proof. vm_compute. reflexivity. Qed.

(** ** The theorems about runs, at this run *)

Lemma runtime_refines_tree_witness :
  rtc tree_step (tree_of example_system) (tree_of (world_after example_all)) ∧
  tree_inv example_root (tree_of (world_after example_all)).
Proof. exact (runtime_refines_tree _ _ _ _ _ _ _ example_ids exec_all). Defined.

Lemma children_terminate_first_witness :
  ∃ d, cells (world_after example_all) !! example_child = Some d ∧ phase d = Done.
Proof.
  apply (children_terminate_first _ _ _ _ _ _ _ example_root (cell_after example_all example_root)
           example_child example_ids exec_all).
  - vm_compute. reflexivity.
  - vm_compute. reflexivity.
  - eapply (descends_child _ _ _ (cell_after example_all example_child) 0); vm_compute; reflexivity.
Defined.

Lemma terminated_is_exact_witness :
  (∀ r, system_terminated (world_after example_all) = Ready r → r = Ok () ∧
     (∃ c, cells (world_after example_all) !! example_root = Some c ∧ closed (phase c) = true) ∧
     (∀ b d, cells (world_after example_all) !! b = Some d → b ≠ example_root → phase d = Done)) ∧
  (∀ c, cells (world_after example_all) !! example_root = Some c → phase c = Done →
     system_terminated (world_after example_all) = Ready (Ok ())).
Proof.
  apply (terminated_is_exact _ _ _ _ _ _ _ example_ids exec_all). vm_compute. reflexivity.
Defined.

Lemma dropping_stops_nothing_witness :
  stopped_by_parent (cell_after example_start example_root) (world_after example_start) = false.
Proof.
  apply (dropping_stops_nothing _ _ _ _ _ _ _ _ example_ids exec_start).
  - assert (trace_of example_start =
            [OWatched example_root example_child; OEnqueued FromOutside example_child (Message 0%N)])
      as -> by (vm_compute; reflexivity).
    rewrite !not_elem_of_cons. repeat split; try discriminate. apply not_elem_of_nil.
  - vm_compute. reflexivity.
  - vm_compute. reflexivity.
Defined.

Lemma no_signal_lost_witness :
  let w := world_after (example_start ++ example_child_stops) in
  let c := cell_after (example_start ++ example_child_stops) example_root in
  is_Some (watched c !! example_child) ∧
  (∀ b, is_Some (watched c !! b) → ∃ o, cells w !! b = Some o ∧
     (closed (phase o) = false →
        is_Some (registered (registry_of o) !! example_root) ∨ Terminated b ∈ mqueue (mailbox c)) ∧
     (phase o = Done → Terminated b ∈ mqueue (mailbox c))) ∧
  (∀ other ok w' u, watch example_root other w = Some (ok, w', u) → ok = true).
Proof.
  intros w c. split; [eexists; vm_compute; reflexivity|].
  apply (no_signal_lost example_root example_watcher ExampleRoot default_config
           (example_start ++ example_child_stops) w (trace_of (example_start ++ example_child_stops))).
  - exact example_ids.
  - vm_compute. reflexivity.
  - vm_compute. reflexivity.
  - vm_compute. reflexivity.
Defined.

Lemma terminated_signal_is_last_witness :
  (∃ e1 src e2, enqueued example_root (trace_of example_all) = e1 ++ (src, Terminated example_child) :: e2 ∧
     dequeued example_root (take 8 (trace_of example_all)) = e1.*2 ∧
     ∀ m, (FromActor example_child, Message m) ∉ e2) ∧
  (∃ c, cells (world_after example_all) !! example_child = Some c ∧ closed (phase c) = true) ∧
  (∀ d, descends (world_after example_all) example_child d →
     ∃ c, cells (world_after example_all) !! d = Some c ∧ phase c = Done).
Proof.
  apply (terminated_signal_is_last _ _ _ _ _ _ _ 8 _ _ example_ids exec_all). vm_compute. reflexivity.
Defined.

Lemma mailboxes_are_fifo_witness :
  (enqueued example_root (trace_of example_all)).*2 =
    dequeued example_root (trace_of example_all) ++ mqueue (mailbox (cell_after example_all example_root)).
Proof.
  apply (mailboxes_are_fifo _ _ _ _ _ _ _ _ _ example_ids exec_all). vm_compute. reflexivity.
Defined.

Lemma signals_are_watched_witness :
  ∃ k, (k < 8)%nat ∧ trace_of example_all !! k = Some (OWatched example_root example_child) ∧
    ∀ i, (k < i < 8)%nat → trace_of example_all !! i ≠ Some (OUnwatched example_root example_child) ∧
      trace_of example_all !! i ≠ Some (OReceived example_root (Terminated example_child)).
Proof.
  apply (signals_are_watched _ _ _ _ _ _ _ _ _ _ example_ids exec_all). vm_compute. reflexivity.
Defined.


(** ** Nothing is left to do *)

Definition ended (c : Cell (M:=N) (B:=example_actor) (S:=unit) (E:=unit) (Rq:=Nothing) (An:=no_answer)) : bool :=
  match phase c with Done => true | _ => false end.

Lemma everyone_ended : map_Forall (λ _ c, ended c = true) (cells (world_after example_all)).
Proof. apply (bool_decide_unpack _). vm_compute. exact I. Qed.

Lemma ended_done a c : cells (world_after example_all) !! a = Some c → phase c = Done.
Proof.
  intros Hc. pose proof (everyone_ended _ _ Hc) as Hd. unfold ended in Hd.
  destruct (phase c); try discriminate Hd. reflexivity.
Qed.

Lemma ended_blocked a : blocked (world_after example_all) a.
Proof.
  destruct (cells (world_after example_all) !! a) as [c|] eqn:Hc.
  - exact (idle_blocked _ _ _ Hc (or_introl (ended_done _ _ Hc))).
  - intros e. unfold task_step. rewrite Hc. reflexivity.
Qed.

Lemma ended_references : references_ok (world_after example_all).
Proof. intros a c r Hc Hr. rewrite (ended_done _ _ Hc) in Hr. discriminate Hr. Qed.

Lemma stop_requested_all : OStopRequested ∈ trace_of example_all.
Proof. vm_compute. repeat first [by left|right]. Qed.

Lemma runtime_never_deadlocks_witness : system_terminated (world_after example_all) = Ready (Ok ()).
Proof.
  destruct (runtime_never_deadlocks answer_none _ _ _ _ _ _ _ example_ids exec_all ended_references ended_blocked) as [_ Hst].
  destruct (Hst (or_introl stop_requested_all)) as [_ Hend]. apply Hend. vm_compute. reflexivity.
Defined.
