(* ===== verification/PersistenceIds.v ===== *)
(** The identity of an event stream: [tellus/src/persistence/persistence_id.rs]. A Rust string is the
    sequence of its bytes; the separator is an ASCII byte, so splitting at the first slash and the
    byte length are the same on bytes as on characters. *)
From S2P Require Import Prelude.
From Stdlib Require Import Ascii String.

Definition MAX_SEGMENT_LEN : nat := 255.

Definition slash : ascii := "/"%char.

Record PersistenceId := mk_persistence_id { entity_type : string; entity_id : string }.

Inductive PersistenceIdSegment := EntityType | EntityId.

Inductive InvalidPersistenceId :=
  | EmptySegment (segment : PersistenceIdSegment)
  | SegmentTooLong (segment : PersistenceIdSegment)
  | SlashInSegment (segment : PersistenceIdSegment)
  | MissingSeparator.

#[export] Instance PersistenceId_eq_dec : EqDecision PersistenceId.
Proof. solve_decision. Defined.
#[export] Instance PersistenceId_countable : Countable PersistenceId.
Proof.
  apply (inj_countable' (λ id, (entity_type id, entity_id id)) (λ p, mk_persistence_id p.1 p.2)).
  by intros [].
Defined.
#[export] Instance PersistenceIdSegment_eq_dec : EqDecision PersistenceIdSegment.
Proof. solve_decision. Defined.
#[export] Instance InvalidPersistenceId_eq_dec : EqDecision InvalidPersistenceId.
Proof. solve_decision. Defined.

(** [str::contains], [str::split_once] at a byte. *)
Fixpoint contains (c : ascii) (s : string) : bool :=
  match s with
  | EmptyString => false
  | String c' s => bool_decide (c' = c) || contains c s
  end.

Fixpoint split_once (c : ascii) (s : string) : option (string * string) :=
  match s with
  | EmptyString => None
  | String c' s =>
      if decide (c' = c) then Some (EmptyString, s)
      else '(l, r) ← split_once c s; Some (String c' l, r)
  end.

Definition is_empty (s : string) : bool :=
  match s with EmptyString => true | _ => false end.

Definition valid_segment (value : string) (segment : PersistenceIdSegment)
    : result string InvalidPersistenceId :=
  if is_empty value then Err (EmptySegment segment)
  else if decide (MAX_SEGMENT_LEN < String.length value)%nat then Err (SegmentTooLong segment)
  else if contains slash value then Err (SlashInSegment segment)
  else Ok value.

(** [PersistenceId::new] *)
Definition new_persistence_id (entity_type entity_id : string)
    : result PersistenceId InvalidPersistenceId :=
  let? entity_type := valid_segment entity_type EntityType in
  let? entity_id := valid_segment entity_id EntityId in
  Ok (mk_persistence_id entity_type entity_id).

(** [FromStr], and [TryFrom<String>] through it *)
Definition from_str (s : string) : result PersistenceId InvalidPersistenceId :=
  let? ' (entity_type, entity_id) := ok_or MissingSeparator (split_once slash s) in
  new_persistence_id entity_type entity_id.

(** [Display], and [From<PersistenceId> for String] through it *)
Definition to_string (id : PersistenceId) : string :=
  (entity_type id +:+ String slash (entity_id id))%string.

(** What a segment has to be. *)
Definition segment_ok (s : string) : Prop :=
  s ≠ EmptyString ∧ (String.length s ≤ MAX_SEGMENT_LEN)%nat ∧ contains slash s = false.

Definition id_ok (id : PersistenceId) : Prop := segment_ok (entity_type id) ∧ segment_ok (entity_id id).

(** The defect of a segment that is reported: emptiness before length before a slash. *)
Inductive defect (segment : PersistenceIdSegment) (v : string) : InvalidPersistenceId → Prop :=
  | defect_empty : v = EmptyString → defect segment v (EmptySegment segment)
  | defect_long :
      v ≠ EmptyString → (MAX_SEGMENT_LEN < String.length v)%nat →
      defect segment v (SegmentTooLong segment)
  | defect_slash :
      v ≠ EmptyString → (String.length v ≤ MAX_SEGMENT_LEN)%nat → contains slash v = true →
      defect segment v (SlashInSegment segment).

Lemma is_empty_true s : is_empty s = true ↔ s = EmptyString.
Proof. by destruct s. Qed.

Lemma valid_segment_ok s segment v : valid_segment s segment = Ok v ↔ v = s ∧ segment_ok s.
Proof.
  unfold valid_segment, segment_ok. destruct (is_empty s) eqn:He.
  { apply is_empty_true in He as ->. naive_solver. }
  assert (s ≠ EmptyString) by (intros ->; done).
  case_decide; [split; [done|lia]|]. destruct (contains slash s); [naive_solver|].
  split; [|by intros [-> _]]. intros [= <-]. split_and!; try done. lia.
Qed.

Lemma valid_segment_err v segment e : valid_segment v segment = Err e ↔ defect segment v e.
Proof.
  unfold valid_segment. destruct (is_empty v) eqn:He.
  { apply is_empty_true in He as ->. split; [intros [= <-]; by constructor|by intros []]. }
  assert (v ≠ EmptyString) by (intros ->; done). split.
  - case_decide; [intros [= <-]; by apply defect_long|].
    destruct (contains slash v) eqn:Hc; intros [= <-]. apply defect_slash; [done|lia|done].
  - intros []; [done|by rewrite decide_True|]. rewrite decide_False by lia. by case_match.
Qed.

Lemma new_ok_iff t i id :
  new_persistence_id t i = Ok id ↔ id = mk_persistence_id t i ∧ id_ok id.
Proof.
  unfold new_persistence_id, id_ok. rewrite result_bind_Ok. split.
  - intros (t' & [-> Ht]%valid_segment_ok & Hi). apply result_bind_Ok in Hi as (i' & [-> Hi]%valid_segment_ok & Hid).
    by simplify_eq/=.
  - intros [-> [Ht Hi]]. simpl in *. exists t. split; [by apply valid_segment_ok|].
    apply result_bind_Ok. exists i. split; [by apply valid_segment_ok|done].
Qed.

Lemma contains_app c s t : contains c (s +:+ t) = contains c s || contains c t.
Proof. induction s as [|c' s IH]; simpl; [done|]. by rewrite IH, orb_assoc. Qed.

Lemma split_once_app c l r : contains c l = false → split_once c (l +:+ String c r) = Some (l, r).
Proof.
  induction l as [|c' l IH]; simpl; [by rewrite decide_True|].
  intros [Hc Hl]%orb_false_iff. apply bool_decide_eq_false in Hc.
  rewrite decide_False by done. by rewrite IH.
Qed.

Lemma split_once_some c s l r :
  split_once c s = Some (l, r) → s = (l +:+ String c r)%string ∧ contains c l = false.
Proof.
  revert l r. induction s as [|c' s IH]; simpl; intros l r Hs; [done|].
  case_decide as Hc; [by simplify_eq|].
  destruct (split_once c s) as [[l' r']|] eqn:Hs'; simplify_eq/=.
  destruct (IH _ _ eq_refl) as [-> ?]. split; [done|]. by rewrite bool_decide_eq_false_2.
Qed.

Lemma split_once_none c s : split_once c s = None ↔ contains c s = false.
Proof.
  induction s as [|c' s IH]; simpl; [done|]. case_decide as Hc.
  - by rewrite bool_decide_eq_true_2.
  - rewrite bool_decide_eq_false_2 by done. simpl. rewrite <-IH.
    destruct (split_once c s) as [[l r]|]; naive_solver.
Qed.

(** C39. A string parses into an ID exactly when it is that ID's display form, so the string form
    round-trips both ways; the IDs that exist are exactly those of two non-empty slash-free segments
    of at most 255 bytes, and different IDs have different string forms. *)
Theorem persistence_ids_round_trip (s : string) (id id' : PersistenceId) :
  (from_str s = Ok id ↔ s = to_string id ∧ id_ok id) ∧
  (id_ok id → from_str (to_string id) = Ok id) ∧
  ((∃ t i, new_persistence_id t i = Ok id) ↔ id_ok id) ∧
  (id_ok id → id_ok id' → to_string id = to_string id' → id = id').
Proof.
  assert (∀ id, id_ok id → from_str (to_string id) = Ok id) as Hrt.
  { intros [t i] Hok. unfold from_str, to_string. simpl.
    rewrite split_once_app by apply Hok. simpl. by apply new_ok_iff. }
  split_and!.
  - split; [|intros [-> ?]; by apply Hrt].
    unfold from_str. destruct (split_once slash s) as [[l r]|] eqn:Hs; simpl; [|done].
    intros [-> Hok]%new_ok_iff. apply split_once_some in Hs as [-> _]. done.
  - apply Hrt.
  - split; [by intros (t & i & [_ ?]%new_ok_iff)|]. intros Hok. destruct id as [t i].
    exists t, i. by apply new_ok_iff.
  - intros Hok Hok' Heq. pose proof (Hrt _ Hok) as H1. rewrite Heq, (Hrt _ Hok') in H1. by simplify_eq.
Qed.

Lemma persistence_ids_round_trip_witness :
  let id := mk_persistence_id "order" "42" in
  from_str "order/42" = Ok id ∧ from_str (to_string id) = Ok id.
Proof.
  intros id.
  assert (id_ok id) as Hok by (split; (split_and!; [discriminate|vm_compute; lia|reflexivity])).
  split; [reflexivity|].
  exact (proj1 (proj2 (persistence_ids_round_trip "order/42" id id)) Hok).
Defined.

(** The one way to split at the first slash. *)
Lemma split_unique l r t i :
  contains slash l = false → contains slash t = false →
  (l +:+ String slash r)%string = (t +:+ String slash i)%string → t = l ∧ i = r.
Proof.
  intros Hl Ht Heq. pose proof (split_once_app slash t i Ht) as H1.
  rewrite <-Heq, (split_once_app slash l r Hl) in H1. by simplify_eq.
Qed.

Lemma new_err_iff t i e :
  new_persistence_id t i = Err e ↔ defect EntityType t e ∨ (segment_ok t ∧ defect EntityId i e).
Proof.
  unfold new_persistence_id. destruct (valid_segment t EntityType) as [t'|e'] eqn:Ht; simpl.
  - pose proof Ht as [-> Hok]%valid_segment_ok.
    assert (¬ defect EntityType t e) by (rewrite <-valid_segment_err, Ht; done).
    destruct (valid_segment i EntityId) as [i'|e'] eqn:Hi; simpl;
      rewrite <-(valid_segment_err i), Hi.
    + split; [done|]. by intros [?|[_ ?]].
    + split; [intros [= <-]; by right|]. intros [?|[_ [= <-]]]; done.
  - rewrite <-(valid_segment_err t), Ht. split; [intros [= <-]; by left|].
    intros [[= <-]|[Hok _]]; [done|].
    assert (valid_segment t EntityType = Ok t) as Hv by (by apply valid_segment_ok). congruence.
Qed.

(** Parsing reports the first failure in a fixed order: a missing separator before anything else,
    then the entity type's defect before the entity ID's, and of each segment emptiness before length
    before a slash. In particular a second slash is reported as one in the entity ID. *)
Theorem persistence_id_errors (s : string) (e : InvalidPersistenceId) :
  from_str s = Err e ↔
  (contains slash s = false ∧ e = MissingSeparator) ∨
  (∃ t i, s = (t +:+ String slash i)%string ∧ contains slash t = false ∧
     (defect EntityType t e ∨ (segment_ok t ∧ defect EntityId i e))).
Proof.
  unfold from_str. destruct (split_once slash s) as [[l r]|] eqn:Hs; simpl.
  - apply split_once_some in Hs as [-> Hl]. rewrite new_err_iff, contains_app. simpl.
    rewrite orb_true_r. split; [intros ?; right; eauto|].
    intros [[? _]|(t & i & Heq & Ht & Hd)]; [done|]. by destruct (split_unique _ _ _ _ Hl Ht Heq) as [-> ->].
  - apply split_once_none in Hs. split; [intros [= <-]; by left|].
    intros [[_ ->]|(t & i & -> & _)]; [done|].
    rewrite contains_app in Hs. simpl in Hs. by rewrite orb_true_r in Hs.
Qed.
