(* ===== verification/Versioning.v ===== *)
(** Positions, schema versions, codecs and versioned values: [seq_no.rs], [schema_version.rs],
    [codec.rs] and [versioned.rs] of [tellus/src/persistence], and the implementations of
    [Versioned], [Serialize] and [Deserialize] for [Nothing] in [actor.rs].

    Serialization itself ([ciborium], [serde_json]) is a parameter: the class [Format]. *)
From S2P Require Import Prelude Actor.
From Stdlib Require Import Strings.Byte.

(** ** [SeqNo] *)

Record SeqNo := mk_seq_no { as_u64 : N }.

Definition ZERO : SeqNo := mk_seq_no 0.
Definition succ (s : SeqNo) : SeqNo := mk_seq_no (u64_saturating_add (as_u64 s) 1).
Definition advanced_by (s : SeqNo) (count : nat) : SeqNo :=
  mk_seq_no (u64_saturating_add (as_u64 s) (u64_of_usize (N.of_nat count))).

#[export] Instance SeqNo_eq_dec : EqDecision SeqNo.
Proof. solve_decision. Defined.

(** The position after [n] events. *)
Definition position (n : nat) : SeqNo := mk_seq_no (N.of_nat n).

(** ** [SchemaVersion] *)

Record SchemaVersion := mk_schema_version { as_u16 : N }.

#[export] Instance SchemaVersion_eq_dec : EqDecision SchemaVersion.
Proof. solve_decision. Defined.

(** ** [Codec] *)

Definition Payload : Type := list Byte.byte.

(** The boxed error of a codec is the codec's own. *)
Record EncodeError (X : Type) := mk_encode_error { encode_source : X }.
Arguments mk_encode_error {X}. Arguments encode_source {X}.
Record PayloadError (X : Type) := mk_payload_error { payload_source : X }.
Arguments mk_payload_error {X}. Arguments payload_source {X}.

(** Serialization runs code of the value's type, so a call may panic. *)
Class Codec (C T X : Type) := {
  encode : C → T → outcome (result Payload (EncodeError X));
  decode : C → Payload → outcome (result T (PayloadError X));
}.

(** A serialization format: [ciborium::into_writer] and [from_reader], [serde_json::to_vec] and
    [from_slice]. *)
Class Format (T X : Type) := {
  write : T → outcome (result Payload X);
  parse : Payload → outcome (result T X);
}.

Definition encode_with {T X} (format : Format T X) (value : T) : outcome (result Payload (EncodeError X)) :=
  outcome_map (map_err mk_encode_error) (write value).
Definition decode_with {T X} (format : Format T X) (payload : Payload)
    : outcome (result T (PayloadError X)) :=
  outcome_map (map_err mk_payload_error) (parse payload).

Inductive Cbor := mk_cbor.
Inductive Json := mk_json.

(** [Codec for Cbor] over [ciborium], [Codec for Json] over [serde_json]. *)
#[export] Instance Cbor_codec {T X} (ciborium : Format T X) : Codec Cbor T X := {
  encode _ := encode_with ciborium;
  decode _ := decode_with ciborium;
}.
#[export] Instance Json_codec {T X} (serde_json : Format T X) : Codec Json T X := {
  encode _ := encode_with serde_json;
  decode _ := decode_with serde_json;
}.

(** What a codec documents: it decodes what it has encoded. *)
Class CodecLaws {C T X} (K : Codec C T X) :=
  decode_encode : ∀ codec value payload,
    encode codec value = Returned (Ok payload) → decode codec payload = Returned (Ok value).

(** ** [Versioned] *)

Inductive DecodeError (X : Type) :=
  | DecodePayload (e : PayloadError X)
  | ManifestMismatch (stored expected : string)
  | UnsupportedSchemaVersion (manifest : string) (schema_version : SchemaVersion).
Arguments DecodePayload {X}. Arguments ManifestMismatch {X}. Arguments UnsupportedSchemaVersion {X}.

Class Versioned (C T X : Type) := {
  MANIFEST : string;
  VERSION : SchemaVersion;
  versioned_decode : C → SchemaVersion → Payload → outcome (result T (DecodeError X));
}.

Section Versioned.
Context {C T X : Type} `{Codec C T X}.

(** The provided [Versioned::decode]. *)
Definition default_decode (manifest : string) (version : SchemaVersion)
    (codec : C) (schema_version : SchemaVersion) (payload : Payload) : outcome (result T (DecodeError X)) :=
  if decide (schema_version = version) then
    outcome_map (map_err DecodePayload) (decode codec payload)
  else Returned (Err (UnsupportedSchemaVersion manifest schema_version)).

(** A type with the provided [decode]. *)
Definition versioned_default (manifest : string) (version : SchemaVersion) : Versioned C T X := {|
  MANIFEST := manifest;
  VERSION := version;
  versioned_decode := default_decode manifest version;
|}.

Definition decode_versioned `{V : Versioned C T X} (codec : C) (manifest : string)
    (schema_version : SchemaVersion) (payload : Payload) : outcome (result T (DecodeError X)) :=
  if decide (manifest = MANIFEST) then versioned_decode codec schema_version payload
  else Returned (Err (ManifestMismatch manifest MANIFEST)).

(** What upcasting may not change: the current version is decoded as the codec decodes it. *)
Class VersionedLaws (V : Versioned C T X) :=
  decode_current : ∀ codec payload,
    versioned_decode codec VERSION payload = outcome_map (map_err DecodePayload) (decode codec payload).

#[export] Instance versioned_default_laws manifest version : VersionedLaws (versioned_default manifest version).
Proof. intros codec payload. simpl. unfold default_decode. by rewrite decide_True. Qed.

(** What is written under the current manifest and version is read back. *)
Lemma decode_versioned_current `{V : Versioned C T X} `{!VersionedLaws V, !CodecLaws H} codec value payload :
  encode codec value = Returned (Ok payload) →
  decode_versioned codec MANIFEST VERSION payload = Returned (Ok value).
Proof.
  intros He. unfold decode_versioned. rewrite decide_True by done.
  rewrite decode_current. by rewrite (decode_encode _ _ _ He).
Qed.
End Versioned.

(** *** [Nothing] *)

(** [Serialize] has no value to be given, [Deserialize] always fails with the custom error. *)
Definition nothing_format {X} (custom : string → X) : Format Nothing X := {|
  write (n : Nothing) := match n with end;
  parse _ := Returned (Err (custom "no value of the uninhabited type Nothing"%string));
|}.

Definition nothing_versioned {C X} (K : Codec C Nothing X) : Versioned C Nothing X :=
  versioned_default "nothing"%string (mk_schema_version 0).

(** ** Properties *)

Lemma as_u64_advanced_by s n : as_u64 (advanced_by s n) = N.min (as_u64 s + N.of_nat n) U64_MAX.
Proof. done. Qed.

Lemma advanced_by_position m n :
  (N.of_nat (m + n) ≤ U64_MAX)%N → advanced_by (position m) n = position (m + n).
Proof.
  intros Hb. unfold advanced_by, position, u64_saturating_add, u64_of_usize. simpl. f_equal. lia.
Qed.

Lemma succ_position m : (N.of_nat (S m) ≤ U64_MAX)%N → succ (position m) = position (S m).
Proof. intros Hb. unfold succ, position, u64_saturating_add. simpl. f_equal. lia. Qed.

(** Positions never wrap around: advancing saturates at the maximum, one event at a time as well
    as many at once, in any grouping; below the maximum it is the exact sum and strictly
    increasing. *)
Theorem positions_never_wrap (s : SeqNo) (m n : nat) :
  (as_u64 s ≤ U64_MAX)%N →
  advanced_by (advanced_by s m) n = advanced_by s (m + n) ∧
  Nat.iter n succ s = advanced_by s n ∧
  (as_u64 s ≤ as_u64 (advanced_by s n) ≤ U64_MAX)%N ∧
  ((as_u64 s + N.of_nat n ≤ U64_MAX)%N → as_u64 (advanced_by s n) = (as_u64 s + N.of_nat n)%N) ∧
  ((as_u64 s < U64_MAX)%N → (as_u64 s < as_u64 (succ s))%N).
Proof.
  intros Hs. split_and!; rewrite ?as_u64_advanced_by; try lia.
  - unfold advanced_by, u64_saturating_add, u64_of_usize. simpl. f_equal. lia.
  - induction n as [|n IH]; simpl.
    + unfold advanced_by, u64_saturating_add, u64_of_usize. destruct s as [s]. simpl in *. f_equal. lia.
    + rewrite IH. unfold succ, advanced_by, u64_saturating_add, u64_of_usize. simpl. f_equal. lia.
  - intros Hlt. unfold succ, u64_saturating_add. simpl. lia.
Qed.

Lemma positions_never_wrap_witness :
  let s := mk_seq_no (U64_MAX - 1) in
  Nat.iter 3 succ s = advanced_by s 3 ∧ as_u64 (advanced_by s 3) = U64_MAX.
Proof.
  intros s. split; [|vm_compute; reflexivity].
  apply (positions_never_wrap s 0 3). vm_compute. discriminate.
Defined.

Section Decoding.
Context {C T X : Type} `{K : Codec C T X} (codec : C).

(** A stored payload is decoded with the current shape only if its manifest and its schema version
    are the type's own: a foreign manifest is rejected before anything is decoded, then an unknown
    version, each reported with what was stored; a payload the codec rejects fails as such; and what
    was encoded under the type's manifest and version is read back as it was. *)
Theorem payloads_are_checked_before_decoding (own : string) (version : SchemaVersion)
    (manifest : string) (schema_version : SchemaVersion) (payload : Payload) :
  let V := versioned_default own version in
  (manifest ≠ own →
     decode_versioned (V:=V) codec manifest schema_version payload =
       Returned (Err (ManifestMismatch manifest own))) ∧
  (schema_version ≠ version →
     decode_versioned (V:=V) codec own schema_version payload =
       Returned (Err (UnsupportedSchemaVersion own schema_version))) ∧
  (∀ e, decode codec payload = Returned (Err e) →
     decode_versioned (V:=V) codec own version payload = Returned (Err (DecodePayload e))) ∧
  (CodecLaws K → ∀ value, encode codec value = Returned (Ok payload) →
     decode_versioned (V:=V) codec own version payload = Returned (Ok value)).
Proof.
  intros V. unfold decode_versioned, V. simpl. split_and!.
  - intros Hne. by rewrite decide_False.
  - intros Hne. rewrite decide_True by done. unfold default_decode. by rewrite decide_False.
  - intros e He. rewrite decide_True by done. unfold default_decode. rewrite decide_True by done.
    by rewrite He.
  - intros HL value He. rewrite decide_True by done. unfold default_decode. rewrite decide_True by done.
    by rewrite (decode_encode _ _ _ He).
Qed.
End Decoding.
