(* ===== verification/Store.v ===== *)
(** The stores: [tellus/src/persistence/store.rs]. The traits are interfaces over the state [W] a
    store's clones share; their documented contracts are the classes of laws, which the theorems about
    recovery and settlement are proved against and which [InMemoryStore] and the PostgreSQL store
    discharge. *)
From S2P Require Import Prelude Versioning PersistenceIds.

Record EncodedEvent := mk_encoded_event {
  event_manifest : string;
  event_schema_version : SchemaVersion;
  event_payload : Payload;
}.

Record StoredEvent := mk_stored_event { seq_no : SeqNo; event : EncodedEvent }.

Record EncodedSnapshot := mk_encoded_snapshot {
  snapshot_manifest : string;
  snapshot_schema_version : SchemaVersion;
  snapshot_payload : Payload;
}.

Record StoredSnapshot := mk_stored_snapshot { next_seq_no : SeqNo; snapshot : EncodedSnapshot }.

Inductive AppendError (E : Type) :=
  | Conflict
  | StoreError (e : E).
Arguments Conflict {E}. Arguments StoreError {E}.

(** ** [EventStore] *)

Class EventStore (W E : Type) := {
  append : PersistenceId → SeqNo → list EncodedEvent → W → outcome (result unit (AppendError E)) * W;
  read : PersistenceId → SeqNo → positive → W → outcome (result (list StoredEvent) E) * W;
}.

(** Events from position [n] on, numbered gaplessly. *)
Fixpoint numbered (n : nat) (l : list EncodedEvent) : list StoredEvent :=
  match l with
  | [] => []
  | e :: l => mk_stored_event (position n) e :: numbered (S n) l
  end.

(** The events of a stream from a position on, up to a limit. *)
Definition page (l : list EncodedEvent) (from : N) (limit : positive) : list StoredEvent :=
  take (Pos.to_nat limit) (drop (N.to_nat from) (numbered 0 l)).

Class EventStoreLaws {W E} (ES : EventStore W E) := {
  (** The well-formed states of the store, and the stream of each ID. *)
  store_wf : W → Prop;
  stream : W → PersistenceId → list EncodedEvent;

  (** A stream's length is a [u64]. *)
  stream_fits : ∀ w id, store_wf w → (N.of_nat (length (stream w id)) ≤ U64_MAX)%N;

  append_wf : ∀ id n es w, store_wf w → (N.of_nat (length (stream w id) + length es) ≤ U64_MAX)%N →
    store_wf (append id n es w).2;
  (** Other streams are left alone. *)
  append_other : ∀ id n es w id', store_wf w → id' ≠ id → stream (append id n es w).2 id' = stream w id';
  (** An append is conditional on the position. *)
  append_ok : ∀ id n es w w', store_wf w →
    (N.of_nat (length (stream w id) + length es) ≤ U64_MAX)%N → append id n es w = (Returned (Ok ()), w') →
    as_u64 n = N.of_nat (length (stream w id)) ∧ stream w' id = stream w id ++ es;
  append_conflict : ∀ id n es w w', store_wf w → append id n es w = (Returned (Err Conflict), w') →
    stream w' id = stream w id;
  append_stale : ∀ id n es w, store_wf w → as_u64 n ≠ N.of_nat (length (stream w id)) →
    stream (append id n es w).2 id = stream w id;
  (** Whatever an append comes back with, it leaves all of the events or none. *)
  append_atomic : ∀ id n es w, store_wf w →
    (N.of_nat (length (stream w id) + length es) ≤ U64_MAX)%N →
    stream (append id n es w).2 id = stream w id ∨ stream (append id n es w).2 id = stream w id ++ es;

  read_wf : ∀ id n limit w, store_wf w → store_wf (read id n limit w).2;
  read_stream : ∀ id n limit w id', store_wf w → stream (read id n limit w).2 id' = stream w id';
  (** For limits no more events than fit a [Vec] ask for. *)
  read_ok : ∀ id n limit w l w', store_wf w → (Npos limit ≤ I64_MAX)%N → read id n limit w = (Returned (Ok l), w') →
    l = page (stream w id) (as_u64 n) limit;
}.

(** ** [SnapshotStore] *)

Class SnapshotStore (W E : Type) := {
  save : PersistenceId → SeqNo → EncodedSnapshot → W → outcome (result unit E) * W;
  load : PersistenceId → W → outcome (result (option StoredSnapshot) E) * W;
}.

(** The latest snapshot of an ID, replaced by a save, as a whole or not at all. *)
Class SnapshotStoreLaws {W E} (SS : SnapshotStore W E) := {
  saved : W → PersistenceId → option StoredSnapshot;

  save_other : ∀ id n s w id', id' ≠ id → saved (save id n s w).2 id' = saved w id';
  save_ok : ∀ id n s w, 
    saved (save id n s w).2 id = saved w id ∨ saved (save id n s w).2 id = Some (mk_stored_snapshot n s);
  load_saved : ∀ id w id', saved (load id w).2 id' = saved w id';
  load_ok : ∀ id w r w', load id w = (Returned (Ok r), w') → r = saved w id;
}.

(** [NoSnapshots] *)
Inductive NoSnapshots := no_snapshots.
Inductive Infallible := .

#[export] Instance NoSnapshots_store : SnapshotStore NoSnapshots Infallible := {
  save _ _ _ w := (Returned (Ok ()), w);
  load _ w := (Returned (Ok None), w);
}.

#[export, refine] Instance NoSnapshots_laws : SnapshotStoreLaws NoSnapshots_store := {
  saved _ _ := None;
}.
Proof.
  - done.
  - by left.
  - done.
  - simpl. intros id w r w' ?. by simplify_eq.
Defined.

(** ** Numbered streams *)

Lemma length_numbered n l : length (numbered n l) = length l.
Proof. revert n. induction l as [|e l IH]; intros n; simpl; [done|]. by rewrite IH. Qed.

Lemma numbered_app n l1 l2 : numbered n (l1 ++ l2) = numbered n l1 ++ numbered (n + length l1) l2.
Proof.
  revert n. induction l1 as [|e l1 IH]; intros n; simpl; [by rewrite Nat.add_0_r|].
  rewrite IH. by replace (S n + length l1) with (n + S (length l1)) by lia.
Qed.

Lemma drop_numbered k n l : drop k (numbered n l) = numbered (n + k) (drop k l).
Proof.
  revert k n. induction l as [|e l IH]; intros [|k] n; simpl; try done.
  - by rewrite Nat.add_0_r.
  - rewrite IH. by replace (S n + k) with (n + S k) by lia.
Qed.

Lemma take_numbered k n l : take k (numbered n l) = numbered n (take k l).
Proof. revert k n. induction l as [|e l IH]; intros [|k] n; simpl; try done. by rewrite IH. Qed.

Lemma page_spec l from limit :
  page l from limit = numbered (N.to_nat from) (take (Pos.to_nat limit) (drop (N.to_nat from) l)).
Proof. unfold page. by rewrite drop_numbered, take_numbered. Qed.

Lemma numbered_inj n l l' : numbered n l = numbered n l' → l = l'.
Proof. revert n l'. induction l as [|e l IH]; intros n [|e' l']; simpl; intros; simplify_eq; f_equal; eauto. Qed.

Lemma event_numbered n l : event <$> numbered n l = l.
Proof. revert n. induction l as [|e l IH]; intros n; simpl; [done|]. by rewrite IH. Qed.
