(* ===== verification/InMemoryStore.v ===== *)
(** The in-memory store: [tellus/src/persistence/in_memory_store.rs], one state behind two mutexes for
    all clones, and that it keeps the contracts of both stores. *)
From S2P Require Import Prelude Versioning PersistenceIds Store.

Record InMemoryStore := mk_in_memory {
  streams : gmap PersistenceId (list StoredEvent);
  snapshots : gmap PersistenceId StoredSnapshot;
}.

Definition default_store : InMemoryStore := mk_in_memory ∅ ∅.

(** [InMemoryStore::events], [InMemoryStore::snapshot] *)
Definition events (s : InMemoryStore) (id : PersistenceId) : list StoredEvent := default [] (streams s !! id).
Definition stored_snapshot (s : InMemoryStore) (id : PersistenceId) : option StoredSnapshot :=
  snapshots s !! id.

(** The loop pushing the events, counted from [n] on. *)
Fixpoint push_events (next : SeqNo) (n : nat) (es : list EncodedEvent) (stream : list StoredEvent)
    : list StoredEvent :=
  match es with
  | [] => stream
  | e :: es => push_events next (S n) es (stream ++ [mk_stored_event (advanced_by next n) e])
  end.

Definition in_memory_append (id : PersistenceId) (next : SeqNo) (es : list EncodedEvent)
    (s : InMemoryStore) : outcome (result unit (AppendError Infallible)) * InMemoryStore :=
  (* [streams.entry(id).or_default()] *)
  let stream := events s id in
  let s := mk_in_memory (<[id := stream]> (streams s)) (snapshots s) in
  if decide (mk_seq_no (u64_of_usize (N.of_nat (length stream))) ≠ next) then
    (Returned (Err Conflict), s)
  else (Returned (Ok ()), mk_in_memory (<[id := push_events next 0 es stream]> (streams s)) (snapshots s)).

Definition in_memory_read (id : PersistenceId) (from : SeqNo) (limit : positive) (s : InMemoryStore)
    : outcome (result (list StoredEvent) Infallible) * InMemoryStore :=
  (Returned (Ok
     match streams s !! id with
     | Some stream =>
         let len := N.of_nat (length stream) in
         let start := N.min (usize_of_u64 (as_u64 from)) len in
         let end_ := N.min (usize_saturating_add start (Npos limit)) len in
         take (N.to_nat (end_ - start)) (drop (N.to_nat start) stream)
     | None => []
     end), s).

Definition in_memory_save (id : PersistenceId) (next : SeqNo) (snapshot : EncodedSnapshot)
    (s : InMemoryStore) : outcome (result unit Infallible) * InMemoryStore :=
  (Returned (Ok ()),
   mk_in_memory (streams s) (<[id := mk_stored_snapshot next snapshot]> (snapshots s))).

Definition in_memory_load (id : PersistenceId) (s : InMemoryStore)
    : outcome (result (option StoredSnapshot) Infallible) * InMemoryStore :=
  (Returned (Ok (snapshots s !! id)), s).

#[export] Instance InMemory_events : EventStore InMemoryStore Infallible := {
  append := in_memory_append;
  read := in_memory_read;
}.
#[export] Instance InMemory_snapshots : SnapshotStore InMemoryStore Infallible := {
  save := in_memory_save;
  load := in_memory_load;
}.

(** *** The contracts *)

(** Every stream is numbered gaplessly from 0, and its length is a [usize]. *)
Definition in_memory_stream (s : InMemoryStore) (id : PersistenceId) : list EncodedEvent :=
  event <$> events s id.
Definition in_memory_wf (s : InMemoryStore) : Prop :=
  ∀ id, events s id = numbered 0 (in_memory_stream s id) ∧
        (N.of_nat (length (in_memory_stream s id)) ≤ USIZE_MAX)%N.

Lemma in_memory_wf_default : in_memory_wf default_store.
Proof.
  intros id. unfold in_memory_stream, events. simpl. rewrite lookup_empty. simpl. split; [done|lia].
Qed.

Lemma push_events_spec m n es l :
  (N.of_nat (m + n + length es) ≤ U64_MAX)%N →
  push_events (position m) n es l = l ++ numbered (m + n) es.
Proof.
  revert n l. induction es as [|e es IH]; intros n l Hb; simpl in *; [by rewrite app_nil_r|].
  rewrite advanced_by_position by lia. rewrite IH by lia. rewrite <-(assoc_L (++)). simpl.
  do 3 f_equal. lia.
Qed.

Lemma events_insert m id id' l snaps :
  events (mk_in_memory (<[id := l]> m) snaps) id' =
  if decide (id = id') then l else events (mk_in_memory m snaps) id'.
Proof. unfold events. simpl. rewrite lookup_insert. by case_decide. Qed.

Lemma in_memory_append_spec id next es s :
  in_memory_wf s → (N.of_nat (length (in_memory_stream s id) + length es) ≤ U64_MAX)%N →
  let accepted := bool_decide (as_u64 next = N.of_nat (length (in_memory_stream s id))) in
  (in_memory_append id next es s).1 = Returned (if accepted then Ok () else Err Conflict) ∧
  ∀ id', events (in_memory_append id next es s).2 id' =
    if decide (id = id' ∧ accepted = true) then numbered 0 (in_memory_stream s id ++ es) else events s id'.
Proof.
  intros Hwf Hfits accepted. destruct (Hwf id) as [Hid Hlen].
  assert (length (events s id) = length (in_memory_stream s id)) as Hl.
  { unfold in_memory_stream. by rewrite length_fmap. }
  unfold in_memory_append, u64_of_usize. rewrite Hl. subst accepted.
  destruct (decide (mk_seq_no (N.of_nat (length (in_memory_stream s id))) ≠ next)) as [Hne|Heq].
  - rewrite bool_decide_eq_false_2 by (intros Heq; apply Hne; rewrite <-Heq; by destruct next).
    split; [done|]. intros id'. rewrite (decide_False (P := id = id' ∧ false = true)) by naive_solver.
    simpl. rewrite events_insert. case_decide; by subst.
  - apply dec_stable in Heq. subst next. rewrite bool_decide_eq_true_2 by done.
    split; [done|]. intros id'. simpl. rewrite events_insert.
    change (mk_seq_no (N.of_nat (length (in_memory_stream s id)))) with (position (length (in_memory_stream s id))).
    rewrite push_events_spec by (rewrite Nat.add_0_r; lia).
    rewrite Hid, Nat.add_0_r, numbered_app, !events_insert. simpl.
    repeat case_decide; naive_solver.
Qed.

Lemma in_memory_stale id next es s :
  in_memory_wf s → as_u64 next ≠ N.of_nat (length (in_memory_stream s id)) →
  ∀ id', events (in_memory_append id next es s).2 id' = events s id'.
Proof.
  intros Hwf Hne id'. unfold in_memory_append, u64_of_usize.
  rewrite decide_True; [simpl; rewrite events_insert; case_decide; by subst|].
  intros <-. apply Hne. simpl. unfold in_memory_stream. by rewrite length_fmap.
Qed.

Lemma in_memory_read_spec id from limit s :
  in_memory_wf s →
  in_memory_read id from limit s = (Returned (Ok (page (in_memory_stream s id) (as_u64 from) limit)), s).
Proof.
  intros Hwf. destruct (Hwf id) as [Hid Hlen]. unfold in_memory_read, usize_of_u64, usize_saturating_add.
  do 3 f_equal. unfold page. rewrite <-Hid. unfold in_memory_stream in *. rewrite length_fmap in Hlen.
  unfold events in *. destruct (streams s !! id) as [l|]; simpl in *; [|by rewrite drop_nil, take_nil].
  destruct (decide (N.to_nat (as_u64 from) ≤ length l)%nat) as [Hle|Hgt].
  - replace (N.to_nat (N.min (as_u64 from) (N.of_nat (length l)))) with (N.to_nat (as_u64 from)) by lia.
    destruct (decide (N.to_nat (as_u64 from) + Pos.to_nat limit ≤ length l)%nat).
    + f_equal. lia.
    + rewrite !take_ge; [done|rewrite length_drop; lia..].
  - rewrite !(drop_ge l) by lia. by rewrite !take_nil.
Qed.

#[export, refine] Instance InMemory_event_laws : EventStoreLaws InMemory_events := {
  store_wf := in_memory_wf;
  stream := in_memory_stream;
}.
Proof.
  - intros w id Hwf. apply Hwf.
  - intros id n es w Hwf Hfits id'. destruct (in_memory_append_spec id n es w Hwf Hfits) as [_ Hev].
    simpl. destruct (in_memory_append id n es w) as [r w']. simpl in *. unfold in_memory_stream at 1 2.
    rewrite Hev. destruct (decide _) as [Hd|Hd]; [|apply Hwf].
    destruct Hd as [<- _]. rewrite event_numbered. split; [done|]. rewrite length_app. lia.
  - intros id n es w id' Hwf Hne. unfold in_memory_stream. f_equal. simpl. unfold in_memory_append.
    case_decide; simpl; by rewrite !events_insert, !decide_False by done.
  - intros id n es w w' Hwf Hfits Ha. destruct (in_memory_append_spec id n es w Hwf Hfits) as [Hr Hev].
    simpl in Ha. rewrite Ha in Hr, Hev. simpl in *. case_bool_decide as Hacc; [|done].
    split; [done|]. unfold in_memory_stream at 1. rewrite Hev, decide_True by done. apply event_numbered.
  - intros id n es w w' Hwf Ha. simpl in Ha. unfold in_memory_append in Ha. case_decide; simplify_eq.
    unfold in_memory_stream. rewrite events_insert. by rewrite decide_True.
  - intros id n es w Hwf Hne. unfold in_memory_stream. f_equal. by apply in_memory_stale.
  - intros id n es w Hwf Hfits. destruct (in_memory_append_spec id n es w Hwf Hfits) as [_ Hev].
    simpl. destruct (in_memory_append id n es w) as [r w']. simpl in *. unfold in_memory_stream at 1 3.
    rewrite Hev. destruct (decide _); [right; apply event_numbered|by left].
  - intros id n limit w Hwf. simpl. done.
  - intros id n limit w id' Hwf. done.
  - intros id n limit w l w' Hwf _ Hr. simpl in Hr. rewrite in_memory_read_spec in Hr by done. by simplify_eq.
Defined.

#[export, refine] Instance InMemory_snapshot_laws : SnapshotStoreLaws InMemory_snapshots := {
  saved := stored_snapshot;
}.
Proof.
  - intros id n s w id' Hne. unfold stored_snapshot. simpl. by rewrite lookup_insert_ne.
  - intros id n s w. right. unfold stored_snapshot. simpl. apply lookup_insert_eq.
  - done.
  - intros id w r w' Hr. simpl in Hr. unfold in_memory_load in Hr. by simplify_eq.
Defined.

(** The in-memory store appends exactly at the end of the stream and answers a conflict anywhere else,
    leaves every other stream alone, keeps each stream gaplessly numbered from 0, and reads back,
    from any position and up to any limit, exactly that part of what was appended, in order. *)
Theorem in_memory_appends_are_conditional id next es s :
  in_memory_wf s → (N.of_nat (length (in_memory_stream s id) + length es) ≤ U64_MAX)%N →
  let at_end := as_u64 next = N.of_nat (length (in_memory_stream s id)) in
  let s' := (in_memory_append id next es s).2 in
  (at_end → (in_memory_append id next es s).1 = Returned (Ok ()) ∧
            in_memory_stream s' id = in_memory_stream s id ++ es) ∧
  (¬ at_end → (in_memory_append id next es s).1 = Returned (Err Conflict) ∧
              in_memory_stream s' id = in_memory_stream s id) ∧
  (∀ id', id' ≠ id → in_memory_stream s' id' = in_memory_stream s id') ∧
  (∀ id', events s' id' = numbered 0 (in_memory_stream s' id')) ∧
  (∀ id' from limit, in_memory_read id' from limit s' =
     (Returned (Ok (page (in_memory_stream s' id') (as_u64 from) limit)), s')).
Proof.
  intros Hwf Hfits at_end s'. pose proof (append_wf id next es s Hwf Hfits) as Hwf'.
  pose proof (λ id', append_other id next es s id' Hwf) as Hother.
  destruct (in_memory_append_spec id next es s Hwf Hfits) as [Hr Hev]. simpl in Hwf', Hother.
  fold s' in Hwf', Hother, Hev. split_and!.
  - intros Hat. rewrite Hr, bool_decide_eq_true_2 by done. split; [done|]. unfold in_memory_stream at 1.
    rewrite Hev, decide_True by (by rewrite bool_decide_eq_true_2). apply event_numbered.
  - intros Hat. rewrite Hr, bool_decide_eq_false_2 by done. split; [done|]. unfold in_memory_stream.
    rewrite Hev, decide_False; [done|]. rewrite bool_decide_eq_false_2 by done. by intros [_ ?].
  - done.
  - intros id'. apply Hwf'.
  - intros id' from limit. by apply in_memory_read_spec.
Qed.

Lemma in_memory_appends_are_conditional_witness :
  let id := mk_persistence_id "a"%string "b"%string in
  let e := mk_encoded_event "m"%string (mk_schema_version 1) [] in
  (in_memory_append id (position 0) [e; e] default_store).1 = Returned (Ok ()) ∧
  in_memory_stream (in_memory_append id (position 0) [e; e] default_store).2 id = [e; e].
Proof.
  intros id e. apply (in_memory_appends_are_conditional id (position 0) [e; e] default_store).
  - exact in_memory_wf_default.
  - vm_compute. discriminate.
  - reflexivity.
Defined.
