(* ===== verification/Handlers.v ===== *)
(** Handlers as programs: composition, what they return, and what they do. The methods of actors are
    written with [bind]; [Does] relates them to the actions they take and what they come back with. *)
From S2P Require Import Prelude Config Actor Runtime.

(** ** Code which does not await *)

Definition no_await (q : Nothing) : Type := match q with end.
Abbreviation Code M B E R := (Handler (M:=M) (B:=B) (E:=E) (Rq:=Nothing) (An:=no_await) R).

(** Sequencing. *)
Fixpoint bind {M B E Rq An R1 R2} (h : Handler (M:=M) (B:=B) (E:=E) (Rq:=Rq) (An:=An) R1)
    (k : R1 → Handler (M:=M) (B:=B) (E:=E) (Rq:=Rq) (An:=An) R2)
    : Handler (M:=M) (B:=B) (E:=E) (Rq:=Rq) (An:=An) R2 :=
  match h with
  | HReturn (Ok r) => k r
  | HReturn (Err e) => HReturn (Err e)
  | HPanic => HPanic
  | HTell to m h => HTell to m (bind h k)
  | HTryTell forced to m h => HTryTell forced to m (λ ok, bind (h ok) k)
  | HNow h => HNow (λ now, bind (h now) k)
  | HSpawn a c h => HSpawn a c (λ r, bind (h r) k)
  | HWatch o h => HWatch o (bind h k)
  | HUnwatch o h => HUnwatch o (bind h k)
  | HAwait q h => HAwait q (λ a, bind (h a) k)
  end.

Definition ret {M B E Rq An R} (r : R) : Handler (M:=M) (B:=B) (E:=E) (Rq:=Rq) (An:=An) R := HReturn (Ok r).

Notation "'do' x := h 'in' k" := (bind h (λ x, k))
  (at level 10, x name, h at level 100, k at level 200, format "'do'  x  :=  h  'in' '//' k") : tellus_scope.

(** Whatever the code returns satisfies [P]. *)
Fixpoint returns {M B E Rq An R} (P : R → Prop) (h : Handler (M:=M) (B:=B) (E:=E) (Rq:=Rq) (An:=An) R) : Prop :=
  match h with
  | HReturn (Ok r) => P r
  | HReturn (Err _) | HPanic => True
  | HTell _ _ k | HWatch _ k | HUnwatch _ k => returns P k
  | HTryTell _ _ _ k => ∀ ok, returns P (k ok)
  | HNow k => ∀ now, returns P (k now)
  | HSpawn _ _ k => ∀ r, returns P (k r)
  | HAwait _ k => ∀ a, returns P (k a)
  end.

(** ** What code does *)

Inductive Action (M B : Type) :=
  | ATell (to : ActorRef) (m : M)
  | ATryTell (forced : bool) (to : ActorRef) (m : M) (enqueued : bool)
  | ANow (now : Instant)
  | ASpawn (actor : B) (config : ActorConfig) (child : ActorRef)
  | AWatch (other : ActorRef)
  | AUnwatch (other : ActorRef).
Arguments ATell {M B}. Arguments ATryTell {M B}. Arguments ANow {M B}. Arguments ASpawn {M B}.
Arguments AWatch {M B}. Arguments AUnwatch {M B}.

(** What code does until it returns or panics; what it learns by its actions, the references of spawned
    children among it, is arbitrary. *)
Fixpoint Does {M B E R} (h : Code M B E R) (t : list (Action M B)) (o : outcome (result R E)) : Prop :=
  match h with
  | HReturn r => t = [] ∧ o = Returned r
  | HPanic => t = [] ∧ o = Panicked
  | HTell to m h => ∃ t', t = ATell to m :: t' ∧ Does h t' o
  | HTryTell forced to m h => ∃ ok t', t = ATryTell forced to m ok :: t' ∧ Does (h ok) t' o
  | HNow h => ∃ now t', t = ANow now :: t' ∧ Does (h now) t' o
  | HSpawn a c h => ∃ child t', t = ASpawn a c child :: t' ∧ Does (h child) t' o
  | HWatch other h => ∃ t', t = AWatch other :: t' ∧ Does h t' o
  | HUnwatch other h => ∃ t', t = AUnwatch other :: t' ∧ Does h t' o
  | HAwait q _ => match q with end
  end.

Section Code.
Context {M B E : Type}.

(** An action whose rest is known, and one whose rest depends on what is learned by it. *)
Local Ltac bind_action act IH :=
  setoid_rewrite IH; split;
    [ intros (t' & -> & [(r & t1 & t2 & -> & H1 & H2)|[(e & -> & H1)|[-> H1]]]);
        [left; exists r, (act :: t1), t2; eauto|right; left; eauto|right; right; eauto]
    | intros [(r & t1 & t2 & -> & (t' & -> & H1) & H2)|[(e & -> & t' & -> & H1)|[-> (t' & -> & H1)]]];
        eexists; (split; [done|]); eauto 8 ].
Local Ltac bind_learning act IH :=
  setoid_rewrite IH; split;
    [ intros (x & t' & -> & [(r & t1 & t2 & -> & H1 & H2)|[(e & -> & H1)|[-> H1]]]);
        [left; exists r, (act x :: t1), t2; eauto 6|right; left; eauto 6|right; right; eauto]
    | intros [(r & t1 & t2 & -> & (x & t' & -> & H1) & H2)|[(e & -> & x & t' & -> & H1)|[-> (x & t' & -> & H1)]]];
        exists x; eexists; (split; [done|]); eauto 8 ].

(** What is done in sequence: all of the first and then the second, or the first up to its failure. *)
Lemma Does_bind {R1 R2} (h : Code M B E R1) (k : R1 → Code M B E R2) t o :
  Does (bind h k) t o ↔
  (∃ r t1 t2, t = t1 ++ t2 ∧ Does h t1 (Returned (Ok r)) ∧ Does (k r) t2 o) ∨
  (∃ e, o = Returned (Err e) ∧ Does h t (Returned (Err e))) ∨
  (o = Panicked ∧ Does h t Panicked).
Proof.
  revert t. induction h as [[r|e]| |to m h IH|f to m h IH|h IH|a c h IH|other h IH|other h IH|[] h IH]; intros t; simpl.
  - split; [intros Hd; left; by eexists r, [], t|].
    intros [(r' & t1 & t2 & -> & (-> & [= ->]) & Hd)|[(e & -> & _ & [=])|[-> [_ [=]]]]]. done.
  - split; [intros [-> ->]; right; left; by eexists|].
    intros [(r' & t1 & t2 & -> & (-> & [=]) & Hd)|[(e' & -> & -> & [= ->])|[-> [_ [=]]]]]. done.
  - split; [intros [-> ->]; by right; right|].
    intros [(r' & t1 & t2 & -> & (-> & [=]) & Hd)|[(e' & -> & _ & [=])|[-> [-> _]]]]. done.
  - bind_action (ATell (B:=B) to m) IH.
  - bind_learning (ATryTell (B:=B) f to m) IH.
  - bind_learning (ANow (M:=M) (B:=B)) IH.
  - bind_learning (ASpawn (M:=M) a c) IH.
  - bind_action (AWatch (M:=M) (B:=B) other) IH.
  - bind_action (AUnwatch (M:=M) (B:=B) other) IH.
Qed.

Lemma Does_bind_Ok {R1 R2} (h : Code M B E R1) (k : R1 → Code M B E R2) t r2 :
  Does (bind h k) t (Returned (Ok r2)) ↔
  ∃ r t1 t2, t = t1 ++ t2 ∧ Does h t1 (Returned (Ok r)) ∧ Does (k r) t2 (Returned (Ok r2)).
Proof. rewrite Does_bind. naive_solver. Qed.

(** The children spawned by what was done. *)
Definition children (t : list (Action M B)) : list ActorId :=
  omap (λ a, match a with ASpawn _ _ child => Some (actor_id child) | _ => None end) t.

Lemma children_app t1 t2 : children (t1 ++ t2) = children t1 ++ children t2.
Proof. apply omap_app. Qed.

(** One way code can go: what it learns by its actions is given, one item each. *)
Definition Learned : Type := bool * Instant * ActorRef.
Definition nothing_learned : Learned := (true, 0%N, mk_ref (mk_actor_id 0)).

Fixpoint perform {R} (l : list Learned) (h : Code M B E R) : list (Action M B) * outcome (result R E) :=
  let '(ok, now, child) := default nothing_learned (head l) in
  match h with
  | HReturn r => ([], Returned r)
  | HPanic => ([], Panicked)
  | HTell to m h => let '(t, o) := perform l h in (ATell to m :: t, o)
  | HTryTell forced to m h => let '(t, o) := perform (tail l) (h ok) in (ATryTell forced to m ok :: t, o)
  | HNow h => let '(t, o) := perform (tail l) (h now) in (ANow now :: t, o)
  | HSpawn a c h => let '(t, o) := perform (tail l) (h child) in (ASpawn a c child :: t, o)
  | HWatch other h => let '(t, o) := perform l h in (AWatch other :: t, o)
  | HUnwatch other h => let '(t, o) := perform l h in (AUnwatch other :: t, o)
  | HAwait q _ => match q with end
  end.

Lemma perform_Does {R} l (h : Code M B E R) t o : perform l h = (t, o) → Does h t o.
Proof.
  revert l t. induction h as [r| |to m h IH|f to m h IH|h IH|a c h IH|other h IH|other h IH|[] h IH]; intros l t; simpl;
    destruct (default nothing_learned (head l)) as [[ok now] child].
  - by intros [= <- <-].
  - by intros [= <- <-].
  - destruct (perform l h) as [t' o'] eqn:Hp. intros [= <- <-]. eauto.
  - destruct (perform (tail l) (h ok)) as [t' o'] eqn:Hp. intros [= <- <-]. eauto.
  - destruct (perform (tail l) (h now)) as [t' o'] eqn:Hp. intros [= <- <-]. eauto.
  - destruct (perform (tail l) (h child)) as [t' o'] eqn:Hp. intros [= <- <-]. eauto.
  - destruct (perform l h) as [t' o'] eqn:Hp. intros [= <- <-]. eauto.
  - destruct (perform l h) as [t' o'] eqn:Hp. intros [= <- <-]. eauto.
Qed.

(** What code returns satisfies what all its returns satisfy. *)
Lemma Does_returns {R} (P : R → Prop) (h : Code M B E R) l r :
  returns P h → Does h l (Returned (Ok r)) → P r.
Proof.
  revert l. induction h as [x| |to m h IH|f to m h IH|h IH|a c h IH|other h IH|other h IH|[] h IH]; intros l; simpl;
    by naive_solver.
Qed.
End Code.
