(* ===== verification/RuntimeThreads.v ===== *)
(** Actors as threads: in every interleaving, each actor runs its own code. A thread is what one actor goes
    through by itself, from [init] over the incomings it receives to its end, given what it learns by
    its actions; the theorem is that a run of the system is a run of every actor's thread, which does what the
    trace of the system says that the actor did. So programs are verified thread by thread. *)
From S2P Require Import Prelude Backoff Config Flume Quota Actor Mailbox MailboxSpec Tokio Runtime RuntimeMoves RuntimeTree RuntimeWatch RuntimeSystem RuntimeTrace Handlers.

Section Threads.
Context {F : Flume} {FL : FlumeLaws F} {TW : TokioWatch} {TL : TokioWatchLaws TW}.
Context {TO : TokioOneshot} {TOL : TokioOneshotLaws TO}.
Context {M B S E : Type} {Rq : Type} {An : Rq → Type} {A : Runtime.Actor M B S E Rq An}.
#[local] Abbreviation World := (World (M:=M) (B:=B) (S:=S) (E:=E) (Rq:=Rq) (An:=An)).
#[local] Abbreviation Cell := (Cell (M:=M) (B:=B) (S:=S) (E:=E) (Rq:=Rq) (An:=An)).
#[local] Abbreviation Phase := (Phase (M:=M) (B:=B) (S:=S) (E:=E) (Rq:=Rq) (An:=An)).
#[local] Abbreviation Handler := (Handler (M:=M) (B:=B) (E:=E) (Rq:=Rq) (An:=An)).
#[local] Abbreviation Obs := (Obs (M:=M)).
Implicit Types (w : World) (c : Cell) (p : Phase) (a b : ActorId) (t u : list Obs).

(** ** Threads *)

(** What happens in a thread. *)
Inductive Event :=
  | EReceived (i : Incoming M)
  | EDid (x : Action M B)
  | EAnswered (q : Rq) (answer : An q)
  | ERestarting
  | EStopped.                  (* told to stop by its parent, or left by it *)

(** The next action of user code. *)
Inductive acts {R} : Handler R → Event → Handler R → Prop :=
  | acts_tell to m k : acts (HTell to m k) (EDid (ATell to m)) k
  | acts_try_tell forced to m k ok : acts (HTryTell forced to m k) (EDid (ATryTell forced to m ok)) (k ok)
  | acts_now k now : acts (HNow k) (EDid (ANow now)) (k now)
  | acts_spawn act config k child : acts (HSpawn act config k) (EDid (ASpawn act config child)) (k child)
  | acts_watch other k : acts (HWatch other k) (EDid (AWatch other)) k
  | acts_unwatch other k : acts (HUnwatch other k) (EDid (AUnwatch other)) k
  | acts_await q k answer : acts (HAwait q k) (EAnswered q answer) (k answer).

Lemma acts_inv {R} (h h' : Handler R) e :
  acts h e h' →
  match h with
  | HReturn _ | HPanic => False
  | HTell to m k => e = EDid (ATell to m) ∧ h' = k
  | HTryTell forced to m k => ∃ ok, e = EDid (ATryTell forced to m ok) ∧ h' = k ok
  | HNow k => ∃ now, e = EDid (ANow now) ∧ h' = k now
  | HSpawn act config k => ∃ child, e = EDid (ASpawn act config child) ∧ h' = k child
  | HWatch other k => e = EDid (AWatch other) ∧ h' = k
  | HUnwatch other k => e = EDid (AUnwatch other) ∧ h' = k
  | HAwait q k => ∃ answer, e = EAnswered q answer ∧ h' = k answer
  end.
Proof. destruct 1; eauto. Qed.

(** The steps of the thread of an actor by itself. *)
Inductive thread_step (act : B) (self : ActorRef) : Phase → list Event → Phase → Prop :=
  | ts_initializing h e h' : acts h e h' → thread_step act self (Initializing h) [e] (Initializing h')
  | ts_initialized s now : thread_step act self (Initializing (HReturn (Ok s))) [] (NextIncoming s now)
  | ts_init_failed e : thread_step act self (Initializing (HReturn (Err e))) [] (Failed None)
  | ts_init_panicked : thread_step act self (Initializing HPanic) [] (Failed None)
  | ts_stale s up : thread_step act self (NextIncoming s up) [] (NextIncoming s up)
  | ts_receive s up i :
      thread_step act self (NextIncoming s up) [EReceived i] (Receiving (receive act self i s) up)
  | ts_receiving h e h' up : acts h e h' → thread_step act self (Receiving h up) [e] (Receiving h' up)
  | ts_continue s up : thread_step act self (Receiving (HReturn (Ok (Continue s))) up) [] (NextIncoming s up)
  | ts_stop up : thread_step act self (Receiving (HReturn (Ok Actor.Stop)) up) [] (Terminating TDrain)
  | ts_failed e up : thread_step act self (Receiving (HReturn (Err e)) up) [] (Failed (Some up))
  | ts_panicked up : thread_step act self (Receiving HPanic up) [] (Failed (Some up))
  | ts_given_up up : thread_step act self (Failed up) [] (Terminating TDrain)
  | ts_probed up delay : thread_step act self (Failed up) [] (Restarting delay)
  | ts_restarting old delay : thread_step act self (Restarting delay) [ERestarting] (StoppingChildren old delay)
  | ts_backing_off old delay : thread_step act self (StoppingChildren old delay) [] (BackingOff delay)
  | ts_restarted delay : thread_step act self (BackingOff delay) [] (Initializing (init act self))
  | ts_stopped p : running p = true → thread_step act self p [EStopped] (Terminating TDrain)
  | ts_terminating (ph ph' : TermPhase) : thread_step act self (Terminating ph) [] (Terminating ph')
  | ts_done (ph : TermPhase) : thread_step act self (Terminating ph) [] Done.

Inductive thread (act : B) (self : ActorRef) : list Event → Phase → Prop :=
  | thread_start : thread act self [] (Initializing (init act self))
  | thread_snoc l p e p' : thread act self l p → thread_step act self p e p' → thread act self (l ++ e) p'.

(** ** What is seen of a thread *)

Inductive Seen :=
  | SReceived (i : Incoming M)
  | SSent (to : ActorId) (m : M)           (* enqueued, or a dead letter *)
  | SWatched (other : ActorId)
  | SUnwatched (other : ActorId)
  | SRestarting.

Definition seen (e : Event) : option Seen :=
  match e with
  | EReceived i => Some (SReceived i)
  | EDid (ATell to m) | EDid (ATryTell _ to m true) => Some (SSent (actor_id to) m)
  | EDid (AWatch other) => Some (SWatched (actor_id other))
  | EDid (AUnwatch other) => Some (SUnwatched (actor_id other))
  | ERestarting => Some SRestarting
  | EDid (ATryTell _ _ _ false) | EDid (ANow _) | EDid (ASpawn _ _ _) | EAnswered _ _ | EStopped => None
  end.

(** What the trace of a run shows of [a]. *)
Definition shown a (o : Obs) : option Seen :=
  match o with
  | OEnqueued (FromActor x) to (Message m) | ODeadLetter (FromActor x) to m _ =>
      if decide (x = a) then Some (SSent to m) else None
  | OReceived x i => if decide (x = a) then Some (SReceived i) else None
  | OWatched x other => if decide (x = a) then Some (SWatched other) else None
  | OUnwatched x other => if decide (x = a) then Some (SUnwatched other) else None
  | ORestarting x _ _ => if decide (x = a) then Some SRestarting else None
  | _ => None
  end.
Definition own a t : list Seen := omap (shown a) t.

Lemma own_app a t u : own a (t ++ u) = own a t ++ own a u.
Proof. apply omap_app. Qed.

(** ** Tasks: what of the cells threads are about *)

Record Task := mk_task { t_actor : B; t_config : ActorConfig; t_parent : StopKey; t_phase : Phase }.
Definition task_of c : Task := mk_task (actor c) (config c) (parent_stopping c) (phase c).
Definition at_phase (k : Task) (p : Phase) : Task := mk_task (t_actor k) (t_config k) (t_parent k) p.
Definition tasks w : gmap ActorId Task := task_of <$> cells w.

Lemma lookup_tasks w a c : cells w !! a = Some c → tasks w !! a = Some (task_of c).
Proof. intros Ha. unfold tasks. by rewrite lookup_fmap, Ha. Qed.
Lemma tasks_lookup w a k : tasks w !! a = Some k → ∃ c, cells w !! a = Some c ∧ task_of c = k.
Proof. unfold tasks. rewrite lookup_fmap. destruct (cells w !! a); simpl; naive_solver. Qed.
Lemma tasks_cells w w' : cells w' = cells w → tasks w' = tasks w.
Proof. unfold tasks. by intros ->. Qed.
Lemma tasks_put a c w : tasks (put_cell a c w) = <[a := task_of c]> (tasks w).
Proof. apply fmap_insert. Qed.
Lemma tasks_same a c c' w : cells w !! a = Some c → task_of c' = task_of c → tasks (put_cell a c' w) = tasks w.
Proof. intros Ha Hc. rewrite tasks_put, Hc. apply insert_id, lookup_tasks, Ha. Qed.
Lemma tasks_goto a c p w : cells w !! a = Some c → tasks (goto a p w) = <[a := at_phase (task_of c) p]> (tasks w).
Proof. intros Ha. by rewrite (goto_put _ _ _ _ Ha), tasks_put. Qed.
Lemma tasks_goto_task a k p w : tasks w !! a = Some k → tasks (goto a p w) = <[a := at_phase k p]> (tasks w).
Proof. intros (c & Hc & <-)%tasks_lookup. by apply tasks_goto. Qed.
Lemma tasks_on_registry a f w : tasks (on_registry a f w) = tasks w.
Proof.
  destruct (cells w !! a) as [c|] eqn:Ha; [|by rewrite on_registry_missing].
  rewrite (on_registry_put _ _ _ _ Ha). by apply (tasks_same a c).
Qed.
Lemma tasks_release_root_sender w : tasks (release_root_sender w) = tasks w.
Proof. apply tasks_cells, cells_release_root_sender. Qed.
Lemma tasks_drop_root_sink w : tasks (drop_root_sink w) = tasks w.
Proof. apply tasks_cells, cells_drop_root_sink. Qed.
Lemma tasks_root_signal w : tasks (root_signal w).1 = tasks w.
Proof. apply tasks_cells, cells_root_signal. Qed.

Lemma own_root_signal a w : own a (root_signal w).2 = [].
Proof. unfold root_signal. by destruct (terminated_tx w). Qed.

(** ** What one step does to the threads *)

(** Whether a failure is answered with a restart. *)
Definition restarting (d : RestartDecision) : bool := match d with After _ => true | _ => false end.

(** The thread of [a] has gone on by [e]; a child spawned starts its own. *)
Record advances a (w w' : World) (u : list Obs) (e : list Event) (p' : Phase) : Prop := {
  adv_step : ∃ k, tasks w !! a = Some k ∧ thread_step (t_actor k) (mk_ref a) (t_phase k) e p' ∧
    (EStopped ∈ e → ∃ c, cells w !! a = Some c ∧ stopped_by_parent c w = true) ∧
    ((∀ act config child, EDid (ASpawn act config child) ∉ e) ∧ tasks w' = <[a := at_phase k p']> (tasks w) ∨
     ∃ act config x g, e = [EDid (ASpawn act config (mk_ref x))] ∧ tasks w !! x = None ∧
       tasks w' = <[x := mk_task act config (ContextKey a g) (Initializing (init act (mk_ref x)))]>
                    (<[a := at_phase k p']> (tasks w)));
  adv_own : own a u = omap seen e;
  adv_other : ∀ b, b ≠ a → own b u = [];
  adv_given_up : ∀ c up, cells w !! a = Some c → phase c = Failed up → e = [] → running p' = false →
    ∃ now, restarting (next_restart (supervision_strategy (config c)) up now (restarts c)).1 = false;
}.

Lemma tell_tasks src to m w w' u :
  tell src to m w = Some (w', u) →
  tasks w' = tasks w ∧ (∀ x, src = FromActor x → own x u = [SSent (actor_id to) m]) ∧
  (∀ b, src ≠ FromActor b → own b u = []).
Proof.
  unfold tell. intros (c & Hc & Ht)%bind_Some. destruct (try_send_message m (mailbox c)) as [r mb]. simplify_eq.
  split; [by apply (tasks_same _ c)|]. split.
  - intros x ->. by destruct r; unfold own; simpl; rewrite decide_True.
  - intros b Hb. destruct src as [x|]; destruct r; unfold own; simpl; rewrite ?decide_False by congruence; done.
Qed.

Lemma try_tell_tasks forced src to m w ok w' u :
  try_tell forced src to m w = Some (ok, w', u) →
  tasks w' = tasks w ∧ (∀ x, src = FromActor x → own x u = if ok then [SSent (actor_id to) m] else []) ∧
  (∀ b, src ≠ FromActor b → own b u = []).
Proof.
  unfold try_tell. intros (c & Hc & Ht)%bind_Some. destruct (send_message forced m (mailbox c)) as [r mb]. simplify_eq.
  split; [by apply (tasks_same _ c)|]. split.
  - intros x ->. destruct r; unfold own; simpl; by rewrite ?decide_True.
  - intros b Hb. destruct src as [x|]; destruct r; unfold own; simpl; rewrite ?decide_False by congruence; done.
Qed.

Lemma signal_mailbox_tasks src to about w r w' u :
  signal_mailbox src to about w = Some (r, w', u) → tasks w' = tasks w ∧ ∀ b, own b u = [].
Proof.
  unfold signal_mailbox. intros (c & Hc & Ht)%bind_Some. destruct (send_terminated about (mailbox c)) as [res mb].
  simplify_eq. split; [by apply (tasks_same _ c)|]. intros b. by destruct src, r.
Qed.

Lemma watch_tasks a other w ok w' u :
  watch a other w = Some (ok, w', u) →
  tasks w' = tasks w ∧ own a u = [SWatched (actor_id other)] ∧ (∀ b, b ≠ a → own b u = []).
Proof.
  unfold watch. intros (o & Ho & Hw)%bind_Some. apply bind_Some in Hw as (c & Hc & Hw).
  set (w1 := on_registry _ _ _) in *. assert (tasks w1 = tasks w) as H1 by apply tasks_on_registry.
  assert (tasks (put_cell a (set_watched c (<[actor_id other:=actor_id other]> (watched c))) w1) = tasks w) as H2.
  { rewrite <-H1. by apply (tasks_same _ c). }
  destruct (is_ok _).
  - simplify_eq. split; [done|]. unfold own. simpl. rewrite decide_True by done. split; [done|].
    intros b Hb. by rewrite decide_False by congruence.
  - destruct (signal_mailbox _ _ _ _) as [[[r w2] u2]|] eqn:Hs; simplify_eq/=.
    apply signal_mailbox_tasks in Hs as [Hs Hu]. split; [by rewrite Hs|]. split.
    + rewrite own_app, Hu. unfold own. simpl. by rewrite decide_True.
    + intros b Hb. rewrite own_app, Hu. unfold own. simpl. by rewrite decide_False by congruence.
Qed.

Lemma unwatch_tasks a other w w' u :
  unwatch a other w = Some (w', u) →
  tasks w' = tasks w ∧ own a u = [SUnwatched (actor_id other)] ∧ (∀ b, b ≠ a → own b u = []).
Proof.
  unfold unwatch. intros (c & Hc & Hw)%bind_Some. simplify_eq. unfold own. simpl. split_and!.
  - destruct (watched c !! actor_id other); [|done]. rewrite tasks_on_registry. by apply (tasks_same _ c).
  - by rewrite decide_True.
  - intros b Hb. by rewrite decide_False by congruence.
Qed.

(** A step of user code in the task [a], whose phase is [back] of the code. *)
Lemma handler_step_advances {R} e a c (h h' : Handler R) (back : Handler R → Phase) w w1 u :
  cells w !! a = Some c → phase c = back h →
  (∀ other ok w' u, watch a other w = Some (ok, w', u) → ok = true) →
  (∀ ev h', acts h ev h' → thread_step (actor c) (mk_ref a) (back h) [ev] (back h')) →
  handler_step e a h w = Some (h', w1, u) →
  ∃ ev, advances a w (goto a (back h') w1) u ev (back h').
Proof.
  intros Ha Hp Hwatch Hback Hs. pose proof (lookup_tasks _ _ _ Ha) as Ht.
  assert (∀ ev, tasks w1 = tasks w → acts h ev h' → own a u = omap seen [ev] → (∀ b, b ≠ a → own b u = []) →
            ev ≠ EStopped → (∀ act cfg child, ev ≠ EDid (ASpawn act cfg child)) →
            advances a w (goto a (back h') w1) u [ev] (back h')) as Hsame.
  { intros ev Htasks Hact Hown Hother Hns Hnsp. split; [|done|done|done]. exists (task_of c). split; [done|].
    simpl. rewrite Hp. split; [by apply Hback|]. split; [by intros ?%list_elem_of_singleton|].
    assert (tasks (goto a (back h') w1) = <[a := at_phase (task_of c) (back h')]> (tasks w)) as Hg.
    { rewrite <-Htasks. apply tasks_goto_task. by rewrite Htasks. }
    left. split; [|done]. intros act cfg child Heq%list_elem_of_singleton. by apply (Hnsp act cfg child). }
  destruct h as [r| |to m k|forced to m k|k|act cfg k|other k|other k|q k]; simpl in Hs; try done.
  - apply bind_Some in Hs as ([w2 u2] & Ht' & ?). simplify_eq. apply tell_tasks in Ht' as (? & Hown & Hoth).
    exists [EDid (ATell to m)]. apply Hsame; [done|constructor|by apply Hown| |done..]. intros b Hb. apply Hoth. congruence.
  - apply bind_Some in Hs as ([[ok w2] u2] & Ht' & ?). simplify_eq. apply try_tell_tasks in Ht' as (? & Hown & Hoth).
    exists [EDid (ATryTell forced to m ok)]. apply Hsame; [done|constructor| | |done..].
    + rewrite (Hown a) by done. by destruct ok.
    + intros b Hb. apply Hoth. congruence.
  - simplify_eq. exists [EDid (ANow (now e))]. apply Hsame; try done. constructor.
  - apply bind_Some in Hs as (c' & Hc' & Hs). destruct (fresh _ _) eqn:Hf; simplify_eq.
    exists [EDid (ASpawn act cfg (mk_ref (new_id e)))]. split; [|done|done|done]. exists (task_of c). split; [done|].
    simpl. rewrite Hp. split; [apply Hback; constructor|]. split; [by intros ?%list_elem_of_singleton|].
    unfold fresh in Hf. case_bool_decide as Hfr; [|done]. destruct Hfr as [Hnone _].
    right. exists act, cfg, (new_id e), (generation c). split; [done|]. split; [unfold tasks; by rewrite lookup_fmap, Hnone|].
    assert (a ≠ new_id e) as Hne by congruence. unfold spawn.
    erewrite (tasks_goto a c); [|simpl; by rewrite lookup_insert_ne].
    rewrite tasks_put. by rewrite insert_insert_ne by done.
  - apply bind_Some in Hs as ([[ok w2] u2] & Hw & ?). simplify_eq. pose proof (Hwatch _ _ _ _ Hw) as ->.
    apply watch_tasks in Hw as (? & ? & ?). exists [EDid (AWatch other)]. apply Hsame; try done. constructor.
  - apply bind_Some in Hs as ([w2 u2] & Hw & ?). simplify_eq. apply unwatch_tasks in Hw as (? & ? & ?).
    exists [EDid (AUnwatch other)]. apply Hsame; try done. constructor.
  - simplify_eq. exists [EAnswered q (answer e q)]. apply Hsame; try done. constructor.
Qed.

(** The other steps, by what they leave of the tasks. *)
Lemma advances_intro a c w w' u e p' :
  cells w !! a = Some c → thread_step (actor c) (mk_ref a) (phase c) e p' →
  (∀ act config child, EDid (ASpawn act config child) ∉ e) →
  (EStopped ∈ e → stopped_by_parent c w = true) →
  (∀ up, phase c = Failed up → e = [] → running p' = false →
     ∃ now, restarting (next_restart (supervision_strategy (config c)) up now (restarts c)).1 = false) →
  tasks w' = <[a := at_phase (task_of c) p']> (tasks w) →
  own a u = omap seen e → (∀ b, b ≠ a → own b u = []) →
  advances a w w' u e p'.
Proof.
  intros Ha Hstep Hspawn Hstop Hup Ht Hown Hother. split; [|done|done|intros; by simplify_eq; eauto]. exists (task_of c).
  split; [by apply lookup_tasks|]. split; [done|]. split; [eauto|by left].
Qed.

Lemma tasks_goto_in a c c1 p w w1 :
  cells w !! a = Some c → cells w1 = <[a := c1]> (cells w) → at_phase (task_of c1) p = at_phase (task_of c) p →
  tasks (goto a p w1) = <[a := at_phase (task_of c) p]> (tasks w).
Proof.
  intros Ha Hw Hc. rewrite (tasks_goto a c1) by (by rewrite Hw, lookup_insert_eq). unfold tasks.
  by rewrite Hw, fmap_insert, insert_insert_eq, Hc.
Qed.

Local Ltac no_spawn := by intros ??? ?%elem_of_nil || by intros ??? ?%list_elem_of_singleton.
Local Ltac no_stop := by intros ?%elem_of_nil || by intros ?%list_elem_of_singleton.

Lemma goto_advances a c w u e p' :
  cells w !! a = Some c → thread_step (actor c) (mk_ref a) (phase c) e p' →
  e = [] ∨ e = [EStopped] ∧ stopped_by_parent c w = true → (∀ up, phase c ≠ Failed up) →
  (∀ b, own b u = []) → advances a w (goto a p' w) u e p'.
Proof.
  intros Ha Hstep He Hup Hu. eapply advances_intro; [done|done| | |by intros up ?%Hup|by apply tasks_goto| |done].
  - destruct He as [->|[-> _]]; no_spawn.
  - by destruct He as [->|[-> ?]]; [no_stop|].
  - destruct He as [->|[-> _]]; apply Hu.
Qed.

Lemma await_restart_advances e a c up w w' u :
  cells w !! a = Some c → phase c = Failed up → await_restart e a c up w = (w', u) →
  ∃ ev p', advances a w w' u ev p'.
Proof.
  intros Ha Hp Hr. unfold await_restart in Hr.
  destruct (next_restart _ _ _ _) as [[delay| |] n] eqn:Hn.
  2,3: simplify_eq; exists [], (Terminating TDrain); eapply advances_intro;
    [done|rewrite Hp; constructor|no_spawn|no_stop| |by eapply tasks_goto_in|done|done];
    intros up0 Hp0 _ _; rewrite Hp in Hp0; injection Hp0 as <-; exists (now e); by rewrite Hn.
  change (stopped_by_parent (set_restarts c n) (put_cell a (set_restarts c n) w)) with (stopped_by_parent c w) in Hr.
  destruct (stopped_by_parent c w) eqn:Hst; simplify_eq/=.
  - exists [EStopped], (Terminating TDrain). eapply advances_intro;
      [done|rewrite Hp; by constructor|no_spawn|done|done|by eapply tasks_goto_in|done|done].
  - exists [], (Restarting delay). eapply advances_intro;
      [done|rewrite Hp; by constructor|no_spawn|no_stop|done|by eapply tasks_goto_in|done|done].
Qed.

Lemma restart_advances a c delay w w' u :
  cells w !! a = Some c → phase c = Restarting delay → restart a c delay w = (w', u) →
  ∃ ev p', advances a w w' u ev p'.
Proof.
  intros Ha Hp Hr. unfold restart in Hr. simpl in Hr. simplify_eq.
  eexists [ERestarting], _. eapply advances_intro;
    [done|rewrite Hp; by constructor|no_spawn|no_stop|congruence| | |].
  - eapply (tasks_goto_in a c); [done|simpl; reflexivity|done].
  - unfold own. simpl. by rewrite decide_True.
  - intros b Hb. unfold own. simpl. by rewrite decide_False by congruence.
Qed.

(** A poll changes nothing in the thread. *)
Lemma poll_advances a c q state up w :
  cells w !! a = Some c → phase c = NextIncoming state up →
  advances a w (put_cell a (set_stop_poll c q) w) [] [] (NextIncoming state up).
Proof.
  intros Ha Hp. eapply (advances_intro a c); [done|rewrite Hp; constructor|no_spawn|no_stop|congruence| |done|done].
  rewrite tasks_put. unfold task_of, at_phase. simpl. by rewrite Hp.
Qed.

Lemma deliver_advances a c mb state up i w w' u :
  cells w !! a = Some c → phase c = NextIncoming state up →
  deliver a (set_mailbox c mb) state up i w = (w', u) → ∃ ev p', advances a w w' u ev p'.
Proof.
  intros Ha Hp Hs. unfold deliver, take_watched_for in Hs.
  assert (∀ c' u', task_of c' = at_phase (task_of c) (phase c') →
    phase c' = Receiving (receive (actor c) (mk_ref a) i state) up → u' = [OReceived a i] →
    (put_cell a c' w, u') = (w', u) → ∃ ev p', advances a w w' u ev p') as Hgo.
  { intros c' u' Htask Hph -> Hw. simplify_eq. eexists [EReceived i], _. eapply (advances_intro a c);
      [done|rewrite Hp; constructor|no_spawn|no_stop|congruence|by rewrite tasks_put, Htask, Hph| |].
    - unfold own. simpl. by rewrite decide_True.
    - intros b Hb. unfold own. simpl. by rewrite decide_False by congruence. }
  destruct i as [m|other]; [by eapply Hgo; [..|done]|].
  destruct (bool_decide _); [by eapply Hgo; [..|done]|].
  simplify_eq. eexists [], _. eapply (advances_intro a c); [done|rewrite Hp; constructor|no_spawn|no_stop|congruence| |done|done].
  rewrite tasks_put. f_equal. unfold task_of. simpl. by rewrite Hp.
Qed.

Lemma next_incoming_advances a c state up w w' u :
  cells w !! a = Some c → phase c = NextIncoming state up → next_incoming a c state up w = Some (w', u) →
  ∃ ev p', advances a w w' u ev p'.
Proof.
  intros Ha Hp Hs. unfold next_incoming in Hs. destruct (stop_poll c).
  - destruct (stopped_by_parent c w) eqn:Hst; simplify_eq; [|by eauto using poll_advances].
    eexists [EStopped], _. apply (goto_advances _ c); [done|rewrite Hp; by constructor|by right|by rewrite Hp|done].
  - destruct (recv (mailbox c)) as [[|[i|]] mb]; simplify_eq; [by eauto using poll_advances|by eapply deliver_advances].
  - destruct (_ || _); simplify_eq. eauto using poll_advances.
Qed.

Lemma terminate_step_advances a c ph w w' u :
  cells w !! a = Some c → phase c = Terminating ph → terminate_step a c ph w = Some (w', u) →
  ∃ p', advances a w w' u [] p'.
Proof.
  intros Ha Hp Ht. pose proof (lookup_tasks _ _ _ Ha) as Htask.
  assert (∀ p' w1 u, tasks w1 = <[a := at_phase (task_of c) p']> (tasks w) → (∀ b, own b u = []) →
            (∃ ph', p' = Terminating ph') ∨ p' = Done → ∃ p', advances a w w1 u [] p') as Hgo.
  { intros p' w1 u' Htasks Hu Hp'. exists p'. eapply advances_intro; [done| |no_spawn|no_stop|congruence|done|by rewrite Hu|done].
    rewrite Hp. destruct Hp' as [[ph' ->]| ->]; constructor. }
  assert (∀ p' w1, tasks w1 = tasks w → tasks (goto a p' w1) = <[a := at_phase (task_of c) p']> (tasks w)) as Hgoto.
  { intros p' w1 Heq. rewrite (tasks_goto_task a (task_of c)) by (by rewrite Heq). by rewrite Heq. }
  destruct ph as [| |[|r rest]| |old| | |[|x rest]]; simpl in Ht.
  - destruct (split_drain (mailbox c)) as [l mb]. simplify_eq. eapply Hgo; [apply tasks_put|done|eauto].
  - simplify_eq. eapply Hgo; [apply tasks_put|done|eauto].
  - simplify_eq. eapply Hgo; [by apply Hgoto|done|eauto].
  - simplify_eq. eapply Hgo; [by apply Hgoto, tasks_on_registry|done|eauto].
  - simplify_eq. apply (Hgo (Terminating (TAwaitChildren (ContextKey a (generation c))))); [|done|eauto].
    by eapply (tasks_goto_in a c).
  - apply bind_Some in Ht as (w1 & Hcl & ?). simplify_eq. apply await_closed_some in Hcl as (ch & _ & _ & ->).
    eapply Hgo; [by apply Hgoto|done|eauto].
  - simplify_eq. eapply Hgo; [by apply Hgoto|done|eauto].
  - destruct (take_watchers (mailbox c)) as [ws mb]. simplify_eq. eapply Hgo; [apply tasks_put|done|eauto].
  - simplify_eq. eapply Hgo; [by apply Hgoto|done|eauto].
  - destruct (terminated_sink x) as [to|].
    + destruct (signal_mailbox _ _ _ _) as [[[r w2] u2]|] eqn:Hs; simplify_eq/=.
      apply signal_mailbox_tasks in Hs as [Hs Hu]. eapply Hgo; [rewrite Hs; by apply Hgoto|done|eauto].
    + pose proof (tasks_root_signal (goto a (Terminating (TSignal rest)) w)) as Hs.
      pose proof (λ b, own_root_signal b (goto a (Terminating (TSignal rest)) w)) as Hu.
      destruct (root_signal _) as [w2 u2]. simplify_eq/=.
      eapply Hgo; [rewrite tasks_drop_root_sink, Hs; by apply Hgoto|done|eauto].
Qed.

Lemma task_step_advances e a w w' u :
  (∀ c other ok w' u, cells w !! a = Some c → running (phase c) = true → watch a other w = Some (ok, w', u) → ok = true) →
  task_step e a w = Some (w', u) → ∃ ev p', advances a w w' u ev p'.
Proof.
  intros Hwatch Hs. unfold task_step in Hs. apply bind_Some in Hs as (c & Ha & Hs).
  specialize (Hwatch c).
  destruct (phase c) as [h|state up|h up|up|delay|old delay|delay|ph|] eqn:Hp.
  - assert (∀ h', handler_step e a h w ≫= (λ '(h, w, obs), Some (goto a (Initializing h) w, obs)) = Some (w', u) → h' = h →
      ∃ ev p', advances a w w' u ev p') as Hh.
    { intros h' Hb _. apply bind_Some in Hb as ([[h1 w1] u1] & Hh & ?). simplify_eq.
      destruct (handler_step_advances e a c h h1 Initializing w w1 u Ha Hp) as [ev Hadv]; [eauto| |done|eauto].
      intros ev h2. by constructor. }
    destruct h as [[state|err]| |to m k|forced to m k|k|act config k|other k|other k|q k]; try by eapply Hh.
    1,2,3: simplify_eq; eexists [], _; apply (goto_advances _ c); [done|rewrite Hp; by constructor|by left|by rewrite Hp|done].
    destruct (abandons e c w) eqn:Hst; simplify_eq.
    + apply andb_true_iff in Hst as [Hst _].
      eexists [EStopped], _. apply (goto_advances _ c); [done|rewrite Hp; by constructor|by right|by rewrite Hp|done].
    + eexists [_], _. eapply (advances_intro a c); [done|rewrite Hp; constructor; constructor|no_spawn|no_stop|congruence|by rewrite tasks_put|done|done].
  - by eapply next_incoming_advances.
  - assert (∀ h', handler_step e a h w ≫= (λ '(h, w, obs), Some (goto a (Receiving h up) w, obs)) = Some (w', u) → h' = h →
      ∃ ev p', advances a w w' u ev p') as Hh.
    { intros h' Hb _. apply bind_Some in Hb as ([[h1 w1] u1] & Hh & ?). simplify_eq.
      destruct (handler_step_advances e a c h h1 (λ h, Receiving h up) w w1 u Ha Hp) as [ev Hadv]; [eauto| |done|eauto].
      intros ev h2. by constructor. }
    destruct h as [[[state|]|err]| |to m k|forced to m k|k|act config k|other k|other k|q k]; try by eapply Hh.
    all: simplify_eq; eexists [], _; apply (goto_advances _ c); [done|rewrite Hp; by constructor|by left|by rewrite Hp|done].
  - destruct (await_restart e a c up w) as [w1 u1] eqn:Hr. simplify_eq. by eapply await_restart_advances.
  - destruct (restart a c delay w) as [w1 u1] eqn:Hr. simplify_eq. by eapply restart_advances.
  - apply bind_Some in Hs as (w1 & Hcl & ?). simplify_eq. apply await_closed_some in Hcl as (ch & _ & _ & ->).
    exists [], (BackingOff delay). eapply (advances_intro a c); [done|rewrite Hp; apply ts_backing_off|no_spawn|no_stop|congruence| |done|done].
    exact (tasks_goto a c _ (on_channel old watch_drop_tx w) Ha).
  - destruct (await_backoff delay _ _) as [|[|]] eqn:Hb; simplify_eq.
    + eexists [], _. apply (goto_advances _ c); [done|rewrite Hp; constructor|by left|by rewrite Hp|done].
    + unfold await_backoff in Hb. eexists [EStopped], _. apply (goto_advances _ c); [done|rewrite Hp; by constructor| |by rewrite Hp|done].
      right. split; [done|]. by repeat case_match.
  - apply (terminate_step_advances a c ph) in Hs as [p' Hadv]; [eauto|done|done].
  - done.
Qed.

(** ** Who is told to stop *)

(** An actor's children are told to stop, or left, only once it restarts or terminates. *)
Record stops_inv w t : Prop := {
  so_generation : ∀ a c, cells w !! a = Some c → (0 < generation c)%nat →
    (∃ n delay, ORestarting a n delay ∈ t) ∨ running (phase c) = false;
  so_stopped : ∀ a g ch, stop_channels w !! ContextKey a g = Some ch → stopped ch →
    ∃ c, cells w !! a = Some c ∧ ((g < generation c)%nat ∨ running (phase c) = false);
}.

(** Moves which change one cell in no way that matters, and no context's channel for the worse. *)
Lemma stops_inv_frame w w' t u :
  stops_inv w t →
  (∀ a c', cells w' !! a = Some c' →
     (generation c' = 0%nat ∧ cells w !! a = None) ∨
     ∃ c, cells w !! a = Some c ∧ generation c' = generation c ∧ (running (phase c') = true → running (phase c) = true)) →
  (∀ a c, cells w !! a = Some c → ∃ c', cells w' !! a = Some c' ∧ generation c' = generation c ∧
     (running (phase c) = false → running (phase c') = false)) →
  (∀ a g ch', stop_channels w' !! ContextKey a g = Some ch' → stopped ch' →
     (∃ ch, stop_channels w !! ContextKey a g = Some ch ∧ stopped ch) ∨
     ∃ c', cells w' !! a = Some c' ∧ ((g < generation c')%nat ∨ running (phase c') = false)) →
  stops_inv w' (t ++ u).
Proof.
  intros [Hg Hs] Hback Hkeep Hch. split.
  - intros a c' Ha Hpos. destruct (Hback a c' Ha) as [[? _]|(c & Hc & Heq & Hrun)]; [lia|].
    destruct (Hg a c Hc) as [(n & d & Hin)|Hr]; [lia|left; exists n, d; apply elem_of_app; by left|].
    right. destruct (running (phase c')); [by rewrite Hrun in Hr|done].
  - intros a g ch' Ha Hst. destruct (Hch a g ch' Ha Hst) as [(ch & Hc & Hst')|?]; [|done].
    destruct (Hs a g ch Hc Hst') as (c & Hc' & Hcase). destruct (Hkeep a c Hc') as (c' & Ha' & Heq & Hrun).
    exists c'. split; [done|]. rewrite Heq. destruct Hcase; auto.
Qed.

Lemma stops_inv_cell w w' t u a c c' :
  stops_inv w t → cells w !! a = Some c → cells w' = <[a := c']> (cells w) →
  generation c' = generation c → (running (phase c') = true → running (phase c) = true) →
  (∀ x g ch', stop_channels w' !! ContextKey x g = Some ch' → stopped ch' →
     (∃ ch, stop_channels w !! ContextKey x g = Some ch ∧ stopped ch) ∨
     x = a ∧ ((g < generation c)%nat ∨ running (phase c') = false)) →
  stops_inv w' (t ++ u).
Proof.
  intros Hinv Ha Hw Hgen Hrun Hch. eapply stops_inv_frame; [done|..]; rewrite Hw.
  - intros x cx. rewrite lookup_insert. case_decide; intros; simplify_eq; right; eauto.
  - intros x cx Hx. rewrite lookup_insert. case_decide; [subst x; simplify_eq|by eauto].
    exists c'. split_and!; [done..|]. intros Hr. destruct (running (phase c')); [by rewrite Hrun in Hr|done].
  - intros x g ch' Hx Hst. destruct (Hch x g ch' Hx Hst) as [?|[-> Hcase]]; [by left|right].
    exists c'. rewrite lookup_insert_eq. split; [done|]. rewrite Hgen. by destruct Hcase; auto.
Qed.

Lemma stops_inv_same_cells w w' t u :
  stops_inv w t → cells w' = cells w →
  (∀ x g, stop_channels w' !! ContextKey x g = stop_channels w !! ContextKey x g) → stops_inv w' (t ++ u).
Proof.
  intros Hinv Hw Hch. eapply stops_inv_frame; [done|..]; rewrite ?Hw.
  - intros x cx Hx. right. eauto.
  - intros x cx Hx. eauto.
  - intros x g ch' Hx Hst. rewrite Hch in Hx. left. eauto.
Qed.

(** Receivers come and go without telling anyone anything. *)
Lemma stopped_rx_only (f : WatchChan → WatchChan) k (m : gmap StopKey WatchChan) k' ch' :
  (∀ ch, stopped (f ch) → stopped ch) → alter f k m !! k' = Some ch' → stopped ch' →
  ∃ ch, m !! k' = Some ch ∧ stopped ch.
Proof.
  intros Hf Hk Hst. rewrite lookup_alter in Hk. case_decide; [subst|by eauto].
  destruct (m !! k') as [ch|]; simplify_eq/=. eauto.
Qed.
Lemma stopped_clone_rx_inv ch : stopped (watch_clone_rx ch) → stopped ch.
Proof. unfold stopped. by destruct (watch_clone_rx_spec ch) as (_ & -> & ->). Qed.
Lemma stopped_drop_rx_inv ch : stopped (watch_drop_rx ch) → stopped ch.
Proof. unfold stopped. by destruct (watch_drop_rx_spec ch) as (_ & -> & ->). Qed.
Lemma not_stopped_new : ¬ stopped watch_channel.
Proof. destruct watch_channel_spec as (_ & Hs & Ht). unfold stopped. rewrite Hs, Ht. by intros []. Qed.

Lemma system_key_other (f : WatchChan → WatchChan) (m : gmap StopKey WatchChan) x g :
  alter f SystemKey m !! ContextKey x g = m !! ContextKey x g.
Proof. by apply lookup_alter_ne. Qed.
Lemma release_root_sender_other w x g :
  stop_channels (release_root_sender w) !! ContextKey x g = stop_channels w !! ContextKey x g.
Proof. unfold release_root_sender. destruct (owner w), (sink_alive w); try done. apply system_key_other. Qed.
Lemma root_signal_channels w : stop_channels (root_signal w).1 = stop_channels w.
Proof. unfold root_signal. by destruct (terminated_tx w). Qed.

(** Restarting and stopping leave behind the channel the children had. *)
Lemma stops_inv_stop_children w t a c p (restart : bool) delay n :
  stops_inv w t → cells w !! a = Some c →
  stopping (ContextKey a (generation c)) c p restart →
  stops_inv (put_cell a (set_phase (set_generation c (Datatypes.S (generation c))) p) (stop_children a c w).2)
    (t ++ if restart then [ORestarting a n delay] else []).
Proof.
  intros [Hg Hs] Hc H0. split; simpl.
  - intros x cx. rewrite insert_insert_eq, lookup_insert. case_decide; intros Hx Hpos.
    + simplify_eq/=. destruct H0 as [d Hp|Hp]; [|by right]. left. eexists _, _. apply elem_of_app. right. by left.
    + destruct (Hg x cx Hx Hpos) as [(n' & d & Hin)|?]; [left; exists n', d; apply elem_of_app; by left|by right].
  - intros x g ch' Hx Hst. rewrite insert_insert_eq. destruct (decide (x = a)) as [->|Hxa].
    + exists (set_phase (set_generation c (Datatypes.S (generation c))) p). rewrite lookup_insert_eq. split; [done|]. simpl.
      destruct (decide (g < Datatypes.S (generation c))%nat) as [|Hge]; [by left|].
      rewrite lookup_alter_ne in Hx by (intros [= Heq]; lia). rewrite lookup_insert in Hx.
      case_decide; [simplify_eq; by destruct not_stopped_new|].
      destruct (Hs a g ch' Hx Hst) as (c' & Hc' & [?|Hr]); simplify_eq; [lia|].
      right. destruct H0 as [d Hp|Hp]; [by rewrite Hp in Hr|done].
    + rewrite lookup_alter_ne, lookup_insert_ne in Hx by congruence. rewrite lookup_insert_ne by done. eauto.
Qed.

(** The channel whose children an actor has awaited is of an earlier generation. *)
Lemma stops_inv_awaited rt w t a c old p :
  tree_inv rt (tree_of w) → stops_inv w t → cells w !! a = Some c →
  awaiting (phase c) = Some old → after_children (phase c) = Some p →
  stops_inv (put_cell a (set_phase c p) (on_channel old watch_drop_tx w)) (t ++ []).
Proof.
  intros Htree Hinv Hc Hold Hp. eapply stops_inv_cell; [done|eassumption|done|done| |].
  - simpl. by destruct (phase c) as [| | | | | | |[]|]; simplify_eq/=.
  - intros x g ch' Hx Hst. simpl in Hx. destruct (decide (ContextKey x g = old)) as [<-|Hne].
    + right. assert (n_phase (node_of c) = Awaiting (ContextKey x g)) as Haw.
      { unfold node_of. simpl. by destruct (phase c) as [| | | | | | |[]|]; simplify_eq/=. }
      destruct (inv_awaiting _ _ Htree a (node_of c) _ (lookup_node _ _ _ Hc) Haw) as (g' & Hg' & [= -> ->]).
      split; [done|]. simpl in Hg'. left. lia.
    + left. rewrite lookup_alter_ne in Hx by done. eauto.
Qed.

Lemma stops_inv_move rt rw w w' t u :
  sys_inv rt rw w t → stops_inv w t → Move w w' u → stops_inv w' (t ++ u).
Proof.
  intros Hsys Hinv Hm. pose proof (si_tree _ _ _ _ Hsys) as Htree. destruct Hm.
  all: try (eapply stops_inv_cell; [done|eassumption|done|done|by intros ?|by eauto]).
  all: try (eapply stops_inv_cell; [done|eassumption|done|done| |by eauto];
    simpl; match goal with H : phase _ = _ |- _ => by rewrite H end).
  - (* quiet *) eapply stops_inv_cell; [done|eassumption|done|done| |by eauto].
    by destruct H0.
  - (* spawn *)
    unfold fresh in H1. case_bool_decide as Hf; [|done]. destruct Hf as [Hf _].
    eapply stops_inv_frame; [done|..]; simpl.
    + intros x cx. rewrite lookup_insert. case_decide; intros; simplify_eq; [by left|right; eauto].
    + intros x cx Hx. rewrite lookup_insert_ne by congruence. eauto.
    + intros x g ch' Hx Hst. rewrite lookup_insert in Hx. case_decide; [simplify_eq; by destruct not_stopped_new|].
      left. eapply stopped_rx_only; [|exact Hx|exact Hst]. intros ch Hch. by do 2 apply stopped_clone_rx_inv.
  - (* watched *) by eapply (stops_inv_cell _ _ _ _ a c); eauto.
  - (* watched, closed *) by eapply (stops_inv_cell _ _ _ _ a c); eauto.
  - (* receive *) eapply stops_inv_cell; [done|eassumption|done|by destruct i|by destruct i|by eauto].
  - (* stop children *) by apply stops_inv_stop_children.
  - (* awaited *) by eapply stops_inv_awaited.
  - (* drop context *)
    eapply stops_inv_cell; [done|eassumption|done|done|done|].
    intros x g ch' Hx Hst. simpl in Hx. destruct (decide (x = a)) as [->|Hne]; [right; auto|].
    left. rewrite lookup_alter_ne in Hx by congruence. eauto.
  - (* signal *)
    assert (stops_inv w1 (t ++ [])) as Hinv1.
    { eapply stops_inv_cell; [done|exact H|done|done| |by eauto]. simpl. by rewrite H0. }
    rewrite app_nil_r in Hinv1. eapply stops_inv_cell; [done|eassumption|done|done|by intros ?|by eauto].
  - (* signal root *)
    eapply (stops_inv_cell _ _ _ _ a c (set_phase c (Terminating (TSignal rest)))); [done|done| |done|done|].
    + by rewrite cells_drop_root_sink, cells_root_signal.
    + intros y g ch' Hx Hst. left. unfold drop_root_sink in Hx. rewrite release_root_sender_other in Hx.
      simpl in Hx. rewrite root_signal_channels in Hx. eauto.
  - (* done *)
    eapply (stops_inv_cell _ _ _ _ a c (set_phase c Done)); [done|done|done|done|done|].
    intros x g ch' Hx Hst. left. eapply stopped_rx_only; [|exact Hx|exact Hst]. intros ch Hch. by do 2 apply stopped_drop_rx_inv.
  - (* watch root, closed *)
    apply (stops_inv_same_cells w); [done| |].
    + by rewrite cells_drop_root_sink; simpl; rewrite cells_root_signal.
    + intros x g. unfold drop_root_sink. rewrite release_root_sender_other. simpl. by rewrite root_signal_channels.
  - (* stop *) apply (stops_inv_same_cells w); [done|done|]. intros x g. apply system_key_other.
  - (* drop system *) apply (stops_inv_same_cells w); [done|by rewrite cells_drop_system|].
    intros x g. unfold drop_system. by rewrite release_root_sender_other.
Qed.

(** ** Runs as runs of threads *)

(** What has happened in each thread. *)
Definition Histories : Type := ActorId → list Event.
Definition no_histories : Histories := λ _, [].
Definition happened a (e : list Event) (h : Histories) : Histories := λ b, if decide (b = a) then h b ++ e else h b.

Lemma happened_self a e h : happened a e h a = h a ++ e.
Proof. unfold happened. by rewrite decide_True. Qed.
Lemma happened_other a b e h : b ≠ a → happened a e h b = h b.
Proof. intros Hb. unfold happened. by rewrite decide_False. Qed.

(** A run of the system from [w0], by labels which are allowed. *)
Inductive runs (allowed : Label (M:=M) (An:=An) → Prop) (w0 : World) : World → list Obs → Histories → Prop :=
  | runs_start : runs allowed w0 w0 [] no_histories
  | runs_task w t h a e w' u ev p' :
      runs allowed w0 w t h → allowed (LTask a e) → step (LTask a e) w = Some (w', u) →
      advances a w w' u ev p' → runs allowed w0 w' (t ++ u) (happened a ev h)
  | runs_outside w t h l w' u :
      runs allowed w0 w t h → allowed l → step l w = Some (w', u) →
      tasks w' = tasks w → (∀ b, own b u = []) → runs allowed w0 w' (t ++ u) h.

Lemma outside_step l w w' u :
  (∀ a e, l ≠ LTask a e) → step l w = Some (w', u) → tasks w' = tasks w ∧ ∀ b, own b u = [].
Proof.
  intros Hl Hs. destruct l as [a e|to m| | |]; simpl in Hs; [by destruct (Hl a e)|..].
  - apply tell_tasks in Hs as (? & _ & Hu). split; [done|]. intros b. by apply Hu.
  - destruct (owner w); try done. unfold watch_root in Hs. apply bind_Some in Hs as (c & Hc & Hs).
    destruct (is_ok _).
    + simplify_eq. split; [|done]. apply (tasks_on_registry (root w)).
    + pose proof (tasks_root_signal (on_registry (root w) (λ r, (registry_add (watcher_new (root_watcher w) RootSink) r).2) w)) as Ht.
      pose proof (λ b, own_root_signal b (on_registry (root w) (λ r, (registry_add (watcher_new (root_watcher w) RootSink) r).2) w)) as Hu.
      destruct (root_signal _) as [w1 u1]. simplify_eq/=. split; [|done].
      rewrite tasks_drop_root_sink. etrans; [exact Ht|apply tasks_on_registry].
  - destruct (owner w); simplify_eq. done.
  - destruct (owner w); simplify_eq. split; [|done]. unfold drop_system. by rewrite tasks_release_root_sender.
Qed.

(** The tasks after a step: the acting one has gone on, a child may be new. *)
Lemma advances_tasks a w w' u e p' :
  advances a w w' u e p' →
  ∃ k, tasks w !! a = Some k ∧ thread_step (t_actor k) (mk_ref a) (t_phase k) e p' ∧
    (EStopped ∈ e → ∃ c, cells w !! a = Some c ∧ stopped_by_parent c w = true) ∧
    (∀ b k', tasks w' !! b = Some k' →
       b = a ∧ k' = at_phase k p' ∨ b ≠ a ∧ tasks w !! b = Some k' ∨
       ∃ act config g, e = [EDid (ASpawn act config (mk_ref b))] ∧ b ≠ a ∧ tasks w !! b = None ∧
         k' = mk_task act config (ContextKey a g) (Initializing (init act (mk_ref b)))) ∧
    (∀ b k', b ≠ a → tasks w !! b = Some k' → tasks w' !! b = Some k') ∧
    tasks w' !! a = Some (at_phase k p') ∧
    (∀ act config child, EDid (ASpawn act config child) ∈ e →
       tasks w !! actor_id child = None ∧ e = [EDid (ASpawn act config child)] ∧ ∃ g,
       tasks w' !! actor_id child = Some (mk_task act config (ContextKey a g) (Initializing (init act child)))).
Proof.
  intros [(k & Hk & Hstep & Hstop & [[Hnone Ht]|(act & config & x & g & -> & Hx & Ht)]) _ _]; exists k; rewrite Ht.
  - split_and!; [done..| | |by rewrite lookup_insert_eq|].
    + intros b k'. rewrite lookup_insert. case_decide; intros; simplify_eq; auto.
    + intros b k' Hb Hk'. by rewrite lookup_insert_ne.
    + intros act config child Hin. by destruct (Hnone act config child).
  - assert (x ≠ a) as Hxa by congruence. split_and!; [done..| | | |].
    + intros b k'. rewrite !lookup_insert. repeat case_decide; intros; simplify_eq; auto. right; right.
      by exists act, config, g.
    + intros b k' Hb Hk'. by rewrite !lookup_insert_ne by congruence.
    + by rewrite lookup_insert_ne, lookup_insert_eq by done.
    + intros act' config' child Hin%list_elem_of_singleton. simplify_eq. split; [done|]. split; [done|].
      exists g. by rewrite lookup_insert_eq.
Qed.

Section Runs.
Context (id wid : ActorId) (act0 : B) (config0 : ActorConfig) (ids : id ≠ wid).
Context (allowed : Label (M:=M) (An:=An) → Prop).
#[local] Abbreviation new := (system_new id wid act0 config0).

Lemma runs_exec w t h : runs allowed new w t h → ∃ ls, Forall allowed ls ∧ exec ls new = Some (w, t).
Proof.
  assert (∀ ls w t l w' u, exec ls new = Some (w, t) → step l w = Some (w', u) → exec (ls ++ [l]) new = Some (w', t ++ u))
    as Hsnoc.
  { intros ls. generalize new as w0. induction ls as [|l0 ls IH]; intros w0 w1 t1 l w' u He Hs; simplify_eq/=.
    - rewrite Hs. simpl. by rewrite app_nil_r.
    - destruct (step l0 w0) as [[w2 u2]|]; simplify_eq/=. destruct (exec ls w2) as [[w3 u3]|] eqn:Hls; simplify_eq/=.
      by rewrite (IH _ _ _ _ _ _ Hls Hs), <-(assoc_L (++)). }
  induction 1 as [|w t h a e w' u ev p' _ (ls & Hls & He) Hal Hs _|w t h l w' u _ (ls & Hls & He) Hal Hs _ _].
  - by exists [].
  - exists (ls ++ [LTask a e]). split; [by apply Forall_app; auto|by eapply Hsnoc].
  - exists (ls ++ [l]). split; [by apply Forall_app; auto|by eapply Hsnoc].
Qed.

Lemma runs_invariants w t h :
  runs allowed new w t h → addresses_ok w ∧ sys_inv id wid w t ∧ trace_inv w t.
Proof.
  intros (ls & _ & He)%runs_exec. split; [|by apply (exec_trace_inv id wid act0 config0 ls)].
  eapply addresses_ok_moves; [apply addresses_ok_system_new|by eapply exec_moves; [apply addresses_ok_system_new|]].
Qed.

(** Every run is a run of its threads. *)
Lemma exec_runs ls w t :
  exec ls new = Some (w, t) → Forall allowed ls → ∃ h, runs allowed new w t h.
Proof.
  assert (∀ w0 t0 h0, runs allowed new w0 t0 h0 → ∀ w t, exec ls w0 = Some (w, t) → Forall allowed ls →
            ∃ h, runs allowed new w (t0 ++ t) h) as Hgen; [|intros He; by apply (Hgen _ [] _ (runs_start _ _))].
  induction ls as [|l ls IH]; intros w0 t0 h0 Hr w1 t1 He Hal; simplify_eq/=.
  { rewrite app_nil_r. eauto. }
  destruct (step l w0) as [[w2 u2]|] eqn:Hs; simplify_eq/=. destruct (exec ls w2) as [[w3 u3]|] eqn:Hls; simplify_eq/=.
  apply Forall_cons in Hal as [Hl Hal]. rewrite (assoc_L (++)).
  assert (∃ h2, runs allowed new w2 (t0 ++ u2) h2) as [h2 Hr2]; [|by eapply IH].
  destruct (runs_invariants _ _ _ Hr) as (_ & Hsys & _).
  assert ((∀ a e, l ≠ LTask a e) → ∃ h2, runs allowed new w2 (t0 ++ u2) h2) as Hout.
  { intros Hnot. destruct (outside_step _ _ _ _ Hnot Hs) as [Ht Hu]. exists h0. by eapply runs_outside. }
  destruct l as [a e|to m| | |]; try by apply Hout.
  - destruct (task_step_advances e a w0 w2 u2) as (ev & p' & Hadv); [|done|by eexists; eapply runs_task].
    intros c other ok w' u Ha Hrun. eapply watch_succeeds; [by apply (si_watch _ _ _ _ Hsys)|done|done].
Qed.

(** ** What holds of the threads of a run *)

Definition spawned (e : Event) : option ActorId :=
  match e with EDid (ASpawn _ _ child) => Some (actor_id child) | _ => None end.

Record threads_inv w t (h : Histories) : Prop := {
  th_runs : ∀ a k, tasks w !! a = Some k → thread (t_actor k) (mk_ref a) (h a) (t_phase k);
  th_fresh : ∀ a, tasks w !! a = None → h a = [];
  th_shown : ∀ a, omap seen (h a) = own a t;
  th_root : ∃ p, tasks w !! id = Some (mk_task act0 config0 SystemKey p);
  th_spawned : ∀ b k, tasks w !! b = Some k → b ≠ id →
    ∃ a g, EDid (ASpawn (t_actor k) (t_config k) (mk_ref b)) ∈ h a ∧ t_parent k = ContextKey a g;
  th_children : ∀ a act config child, EDid (ASpawn act config child) ∈ h a →
    ∃ g p, tasks w !! actor_id child = Some (mk_task act config (ContextKey a g) p) ∧ actor_id child ≠ id;
  th_once : ∀ a, NoDup (omap spawned (h a));
  th_stopped : ∀ a k, tasks w !! a = Some k → EStopped ∈ h a →
    ∃ ch, stop_channels w !! t_parent k = Some ch ∧ stopped ch;
}.

Lemma threads_inv_new : threads_inv new [] no_histories.
Proof.
  assert (tasks new = {[ id := mk_task act0 config0 SystemKey (Initializing (init act0 (mk_ref id))) ]}) as Ht.
  { unfold tasks. simpl. by rewrite map_fmap_singleton. }
  split; rewrite ?Ht.
  - intros a k [<- <-]%lookup_singleton_Some. constructor.
  - by intros a.
  - by intros a.
  - eexists. apply lookup_singleton_eq.
  - intros b k [<- <-]%lookup_singleton_Some. done.
  - by intros a act config child ?%not_elem_of_nil.
  - intros a. constructor.
  - by intros a k _ ?%not_elem_of_nil.
Qed.

Lemma stopped_step l w w' t u k ch :
  addresses_ok w → sys_inv id wid w t → step l w = Some (w', u) →
  stop_channels w !! k = Some ch → stopped ch → ∃ ch', stop_channels w' !! k = Some ch' ∧ stopped ch'.
Proof.
  intros Haddr Hsys Hs%step_moves Hk Hst; [|done]. revert t Hsys ch Hk Hst.
  induction Hs as [w|w w1 w2 o1 o2 Hm _ IH]; intros t Hsys ch Hk Hst; [by exists ch|].
  destruct (stopped_move _ _ _ _ _ _ _ _ Hsys Hm Hk Hst) as (ch1 & Hk1 & Hst1).
  eapply (IH ltac:(by eapply addresses_ok_move) (t ++ o1)); [by eapply sys_inv_move|exact Hk1|done].
Qed.

(** Every actor is spawned once. *)
Lemma happened_spawns w t h a w' u ev p' b :
  threads_inv w t h → advances a w w' u ev p' → NoDup (omap spawned (happened a ev h b)).
Proof.
  intros [_ _ _ _ _ Hch Hon _] Hadv. destruct (advances_tasks _ _ _ _ _ _ Hadv) as (k & _ & _ & _ & _ & _ & _ & Hspawn).
  unfold happened. case_decide as Hba; [subst b|done]. rewrite omap_app. apply NoDup_app. split; [done|]. split.
  - intros x (y & Hy & Hy')%list_elem_of_omap (z & Hz & Hz')%list_elem_of_omap.
    destruct y as [|[| | |act cfg child| |]| | |]; simplify_eq/=. destruct z as [|[| | |act' cfg' child'| |]| | |]; simplify_eq/=.
    destruct (Hch _ _ _ _ Hy) as (g & p & Hp & _). destruct (Hspawn _ _ _ Hz) as (Hnone & _). congruence.
  - destruct (decide (omap spawned ev = [])) as [->|Hne]; [constructor|].
    assert (∃ x, x ∈ omap spawned ev) as (x & (y & Hy & Hy')%list_elem_of_omap).
    { destruct (omap spawned ev) as [|x l]; [done|]. exists x. by left. }
    destruct y as [|[| | |act cfg child| |]| | |]; simplify_eq/=. destruct (Hspawn _ _ _ Hy) as (_ & -> & _).
    simpl. apply NoDup_singleton.
Qed.

(** Who has noticed its stop has a parent which has told it to. *)
Lemma happened_stops w t h a e w' u ev p' b k' :
  addresses_ok w → sys_inv id wid w t → threads_inv w t h →
  step (LTask a e) w = Some (w', u) → advances a w w' u ev p' → tasks w' !! b = Some k' → EStopped ∈ happened a ev h b →
  ∃ ch, stop_channels w' !! t_parent k' = Some ch ∧ stopped ch.
Proof.
  intros Haddr Hsys [_ Hfr _ _ _ _ _ Hst] Hs Hadv Hb Hx.
  destruct (advances_tasks _ _ _ _ _ _ Hadv) as (k & Hk & _ & Hstop & Hback & _).
  assert (∃ k0, tasks w !! b = Some k0 ∧ t_parent k' = t_parent k0 ∧
            (EStopped ∈ h b ∨ b = a ∧ EStopped ∈ ev)) as (k0 & Hk0 & -> & Hcase).
  { destruct (Hback _ _ Hb) as [[-> ->]|[[Hba Hb']|(act & cfg & g & -> & Hba & Hb' & ->)]].
    - exists k. rewrite happened_self in Hx. apply elem_of_app in Hx as [Hx|Hx]; auto.
    - exists k'. rewrite happened_other in Hx by done. auto.
    - rewrite happened_other, (Hfr _ Hb') in Hx by done. by apply not_elem_of_nil in Hx. }
  assert (∃ ch, stop_channels w !! t_parent k0 = Some ch ∧ stopped ch) as (ch & Hc & Hs').
  { destruct Hcase as [Hx'|[-> Hx']]; [by eapply Hst|]. destruct (Hstop Hx') as (c & Hc & Hsb).
    rewrite (lookup_tasks _ _ _ Hc) in Hk0. simplify_eq. simpl.
    destruct (parent_channel _ _ _ _ _ _ Hsys Hc) as [ch Hch']. exists ch. split; [done|].
    unfold stopped_by_parent in Hsb. rewrite Hch' in Hsb. by apply stopped_iff. }
  by eapply stopped_step.
Qed.

Lemma threads_inv_task w t h a e w' u ev p' :
  addresses_ok w → sys_inv id wid w t → threads_inv w t h →
  step (LTask a e) w = Some (w', u) → advances a w w' u ev p' → threads_inv w' (t ++ u) (happened a ev h).
Proof.
  intros Haddr Hsys Hinv Hs Hadv.
  pose proof (λ b, happened_spawns _ _ _ _ _ _ _ _ b Hinv Hadv) as Honce.
  pose proof (λ b k', happened_stops _ _ _ _ _ _ _ _ _ b k' Haddr Hsys Hinv Hs Hadv) as Hstops.
  destruct Hinv as [Hru Hfr Hsh Hro Hsp Hch _ _].
  destruct (advances_tasks _ _ _ _ _ _ Hadv) as (k & Hk & Hstep & _ & Hback & Hkeep & Ha & Hspawn).
  destruct Hadv as [_ Hown Hother].
  assert (∀ b k', tasks w !! b = Some k' → ∃ p, tasks w' !! b = Some (at_phase k' p)) as Hstays.
  { intros b k' Hb. destruct (decide (b = a)) as [->|Hba].
    - simplify_eq. eauto.
    - exists (t_phase k'). destruct k'. by apply Hkeep. }
  assert (∀ b x, x ∈ h b → x ∈ happened a ev h b) as Hin.
  { intros b x Hx. unfold happened. case_decide; [apply elem_of_app; by left|done]. }
  split.
  - intros b k' Hb. destruct (Hback _ _ Hb) as [[-> ->]|[[Hba Hb']|(act & cfg & g & -> & Hba & Hb' & ->)]].
    + rewrite happened_self. simpl. econstructor; [by apply Hru|done].
    + rewrite happened_other by done. by apply Hru.
    + rewrite happened_other, (Hfr _ Hb') by done. constructor.
  - intros b Hb. destruct (decide (b = a)) as [->|Hba]; [congruence|]. rewrite happened_other by done.
    apply Hfr. destruct (tasks w !! b) eqn:Hb'; [|done]. apply Hstays in Hb' as [p Hp]. congruence.
  - intros b. rewrite own_app. destruct (decide (b = a)) as [->|Hba].
    + by rewrite happened_self, omap_app, Hsh, Hown.
    + by rewrite happened_other, Hsh, Hother, app_nil_r.
  - destruct Hro as [p Hp]. apply Hstays in Hp as [p1 Hp1]. by exists p1.
  - intros b k' Hb Hne. destruct (Hback _ _ Hb) as [[-> ->]|[[Hba Hb']|(act & cfg & g & -> & Hba & Hb' & ->)]].
    + destruct (Hsp _ _ Hk Hne) as (x & g & Hx & Hg). exists x, g. auto.
    + destruct (Hsp _ _ Hb' Hne) as (x & g & Hx & Hg). exists x, g. auto.
    + exists a, g. split; [|done]. rewrite happened_self. apply elem_of_app. right. by left.
  - intros b act cfg child Hx. unfold happened in Hx. case_decide as Hba; [subst b; apply elem_of_app in Hx as [Hx|Hx]|].
    + destruct (Hch _ _ _ _ Hx) as (g & p & Hp & Hne). apply Hstays in Hp as [p1 Hp1]. exists g, p1. done.
    + destruct (Hspawn _ _ _ Hx) as (Hnone & _ & g & Hg). exists g. eexists. split; [done|].
      intros Heq. destruct Hro as [p Hp]. rewrite Heq in Hnone. congruence.
    + destruct (Hch _ _ _ _ Hx) as (g & p & Hp & Hne). apply Hstays in Hp as [p1 Hp1]. exists g, p1. done.
  - exact Honce.
  - exact Hstops.
Qed.

Lemma runs_threads w t h : runs allowed new w t h → threads_inv w t h.
Proof.
  induction 1 as [|w t h a e w' u ev p' Hr IH _ Hs Hadv|w t h l w' u Hr IH _ Hs Ht Hu].
  - apply threads_inv_new.
  - destruct (runs_invariants _ _ _ Hr) as (Haddr & Hsys & _). by eapply threads_inv_task.
  - destruct (runs_invariants _ _ _ Hr) as (Haddr & Hsys & _). destruct IH as [Hru Hfr Hsh Hro Hsp Hch Hon Hst].
    split; rewrite ?Ht; try done.
    + intros a. by rewrite own_app, Hu, app_nil_r.
    + intros a k Ha Hin. destruct (Hst a k Ha Hin) as (ch & Hc & Hst'). by eapply stopped_step.
Qed.

Lemma runs_stops w t h : runs allowed new w t h → stops_inv w t.
Proof.
  intros (ls & _ & He)%runs_exec.
  apply (exec_invariant (λ w t, sys_inv id wid w t ∧ stops_inv w t) id wid act0 config0 ls w t); [| |done].
  - split; [by apply sys_inv_system_new|]. split; simpl.
    + intros a c [<- <-]%lookup_singleton_Some Hpos. simpl in Hpos. lia.
    + intros a g ch. rewrite lookup_insert_ne by done. intros [_ <-]%lookup_singleton_Some Hst.
      by destruct not_stopped_new.
  - intros w0 t0 w1 u [Hs Hi] Hm. split; [by eapply sys_inv_move|by eapply stops_inv_move].
Qed.

(** A child is told to stop only once its parent restarts or terminates. *)
Lemma told_to_stop w t h b k a g :
  runs allowed new w t h → tasks w !! b = Some k → t_parent k = ContextKey a g → EStopped ∈ h b →
  ∃ ka, tasks w !! a = Some ka ∧ (ERestarting ∈ h a ∨ running (t_phase ka) = false).
Proof.
  intros Hr Hb Hp Hst. pose proof (runs_threads _ _ _ Hr) as Hth. pose proof (runs_stops _ _ _ Hr) as Hso.
  destruct (th_stopped _ _ _ Hth _ _ Hb Hst) as (ch & Hch & Hs). rewrite Hp in Hch.
  destruct (so_stopped _ _ Hso _ _ _ Hch Hs) as (c & Hc & Hcase). exists (task_of c).
  split; [by apply lookup_tasks|]. destruct Hcase as [Hg|Hrun]; [|by right].
  destruct (so_generation _ _ Hso _ _ Hc) as [(n & d & Hin)|Hrun]; [lia| |by right]. left.
  assert (SRestarting ∈ own a t) as Hown.
  { unfold own. apply list_elem_of_omap. eexists. split; [done|]. simpl. by rewrite decide_True. }
  rewrite <-(th_shown _ _ _ Hth), list_elem_of_omap in Hown. destruct Hown as (e & He & Hse).
  destruct e as [|[| ? ? ? []| | | |]| | |]; simplify_eq/=. done.
Qed.

(** The root is told to stop by [ActorSystem::stop] only. *)
Lemma root_told_to_stop w t h : runs allowed new w t h → OStopRequested ∉ t → EStopped ∉ h id.
Proof.
  induction 1 as [|w t h a e w' u ev p' Hr IH _ Hs Hadv|w t h l w' u Hr IH _ Hs Ht Hu]; intros Hnot.
  - apply not_elem_of_nil.
  - assert (OStopRequested ∉ t) as Hnt by (intros ?; apply Hnot, elem_of_app; by left). specialize (IH Hnt).
    destruct (decide (id = a)) as [<-|Hne]; [|by rewrite happened_other].
    rewrite happened_self, elem_of_app. intros [?|Hin]; [done|].
    destruct (advances_tasks _ _ _ _ _ _ Hadv) as (k & Hk & Hstep & Hstop & _).
    destruct (Hstop Hin) as (c & Hc & Hsb). destruct (runs_invariants _ _ _ Hr) as (_ & Hsys & _).
    rewrite (root_not_stopped id wid w t c) in Hsb; [done|done|done|done|].
    rewrite (lookup_tasks _ _ _ Hc) in Hk. simplify_eq. simpl in Hstep.
    inversion Hstep; subst; try (by apply not_elem_of_nil in Hin); simpl; try done.
    by destruct (phase c).
  - apply IH. intros ?. apply Hnot, elem_of_app. by left.
Qed.
End Runs.

(** C11. In every interleaving, each actor runs its own code: what it receives and what it does, which is what the
    trace shows of it, is in this order a run of its thread, that is of its [init], its [receive]s and what
    supervision makes of their results, up to the phase it is in. Every actor but the root has been spawned by
    another one with the value and the configuration it runs with, and only an actor whose parent has told it to
    stop, or is gone, ends that way. *)
Theorem actors_run_their_code id wid act0 config0 ls w t :
  id ≠ wid → exec ls (system_new id wid act0 config0) = Some (w, t) →
  ∃ h : Histories,
    (∀ a c, cells w !! a = Some c → thread (actor c) (mk_ref a) (h a) (phase c)) ∧
    (∀ a, omap seen (h a) = own a t) ∧
    (∀ b c, cells w !! b = Some c → b ≠ id → ∃ a g,
       EDid (ASpawn (actor c) (config c) (mk_ref b)) ∈ h a ∧ parent_stopping c = ContextKey a g) ∧
    (∀ a c, cells w !! a = Some c → EStopped ∈ h a → stopped_by_parent c w = true).
Proof.
  intros ids He. destruct (exec_runs id wid act0 config0 ids (λ _, True) ls w t He) as [h Hr].
  { by apply Forall_true. }
  exists h. destruct (runs_threads _ _ _ _ ids _ _ _ _ Hr) as [Hru _ Hsh _ Hsp _ _ Hst]. split_and!.
  - intros a c Ha. apply (Hru _ _ (lookup_tasks _ _ _ Ha)).
  - done.
  - intros b c Hb. apply (Hsp _ _ (lookup_tasks _ _ _ Hb)).
  - intros a c Ha Hin. destruct (Hst _ _ (lookup_tasks _ _ _ Ha) Hin) as (ch & Hch & Hs). simpl in Hch.
    unfold stopped_by_parent. rewrite Hch. by apply stopped_iff.
Qed.
End Threads.
