(* ===== verification/RuntimeProtocols.v ===== *)
(** Protocols: what holds in every run of a system whose actors, each by itself, keep to a protocol. The actors of a
    program are of several types, each with its own messages; the [Runtime] has one type of each for all of
    them, and the protocol says which actor an actor value may run in and which messages it may get. *)
From S2P Require Import Prelude Backoff Config Flume Quota Actor Mailbox MailboxSpec Tokio Runtime RuntimeMoves RuntimeTree RuntimeWatch RuntimeSystem RuntimeTrace RuntimeMailboxes Handlers RuntimeThreads.

Section Protocols.
Context {F : Flume} {FL : FlumeLaws F} {TW : TokioWatch} {TL : TokioWatchLaws TW}.
Context {TO : TokioOneshot} {TOL : TokioOneshotLaws TO}.
Context {M B S E : Type} {Rq : Type} {An : Rq → Type} {A : Runtime.Actor M B S E Rq An}.
#[local] Abbreviation World := (World (M:=M) (B:=B) (S:=S) (E:=E) (Rq:=Rq) (An:=An)).
#[local] Abbreviation Cell := (Cell (M:=M) (B:=B) (S:=S) (E:=E) (Rq:=Rq) (An:=An)).
#[local] Abbreviation Handler := (Handler (M:=M) (B:=B) (E:=E) (Rq:=Rq) (An:=An)).
#[local] Abbreviation Event := (Event (M:=M) (B:=B) (Rq:=Rq) (An:=An)).
#[local] Abbreviation Histories := (Histories (M:=M) (B:=B) (Rq:=Rq) (An:=An)).
#[local] Abbreviation Obs := (Obs (M:=M)).
Implicit Types (w : World) (c : Cell) (a b : ActorId) (t u : list Obs) (h : Histories).

(** ** Who enqueues what *)

(** Everything in [u] which is enqueued or a dead letter is from [a]. *)
Definition from a u : Prop :=
  ∀ src, (∃ to i, OEnqueued src to i ∈ u) ∨ (∃ to m e, ODeadLetter src to m e ∈ u) → src = FromActor a.

Lemma from_nil a : from a [].
Proof. intros src [(to & i & Hin)|(to & m & e & Hin)]; by apply elem_of_nil in Hin. Qed.
Lemma from_app a u u' : from a u → from a u' → from a (u ++ u').
Proof.
  intros H1 H2 src Hin. setoid_rewrite elem_of_app in Hin.
  destruct Hin as [(to & i & [Hin|Hin])|(to & m & e & [Hin|Hin])]; [apply H1|apply H2|apply H1|apply H2]; eauto 6.
Qed.
Lemma from_one a o :
  match o with OEnqueued src _ _ | ODeadLetter src _ _ _ => src = FromActor a | _ => True end → from a [o].
Proof. intros Ho src [(to & i & <-%list_elem_of_singleton)|(to & m & e & <-%list_elem_of_singleton)]; done. Qed.

Lemma tell_from a to m w w' u : tell (FromActor a) to m w = Some (w', u) → from a u.
Proof.
  unfold tell. intros (c & _ & Ht)%bind_Some. destruct (try_send_message m (mailbox c)) as [[] mb]; simplify_eq; by apply from_one.
Qed.
Lemma try_tell_from forced a to m w ok w' u : try_tell forced (FromActor a) to m w = Some (ok, w', u) → from a u.
Proof.
  unfold try_tell. intros (c & _ & Ht)%bind_Some.
  destruct (send_message forced m (mailbox c)) as [[] mb]; simplify_eq; [by apply from_one|apply from_nil].
Qed.
Lemma signal_from a to about w r w' u : signal_mailbox (FromActor a) to about w = Some (r, w', u) → from a u.
Proof.
  unfold signal_mailbox. intros (c & _ & Ht)%bind_Some.
  destruct (send_terminated about (mailbox c)) as [[] mb]; simplify_eq; [by apply from_one|apply from_nil].
Qed.

Lemma handler_from {R} e a (k k' : Handler R) w w' u : handler_step e a k w = Some (k', w', u) → from a u.
Proof.
  destruct k as [r| |to m k|forced to m k|k|act cfg k|other k|other k|q k]; simpl; intros Hs; try done.
  - apply bind_Some in Hs as ([w1 u1] & Ht & ?). simplify_eq. by eapply tell_from.
  - apply bind_Some in Hs as ([[ok w1] u1] & Ht & ?). simplify_eq. by eapply try_tell_from.
  - simplify_eq. apply from_nil.
  - apply bind_Some in Hs as (c & _ & Hs). destruct (fresh _ _); simplify_eq. apply from_nil.
  - apply bind_Some in Hs as ([[ok w1] u1] & Hw & ?). simplify_eq.
    unfold watch in Hw. apply bind_Some in Hw as (o & _ & Hw). apply bind_Some in Hw as (c & _ & Hw).
    destruct (is_ok _); simplify_eq; [by apply from_one|].
    apply bind_Some in Hw as ([[r w2] u2] & Hs & ?). simplify_eq. apply from_app; [by eapply signal_from|by apply from_one].
  - apply bind_Some in Hs as ([w1 u1] & Hw & ?). simplify_eq. unfold unwatch in Hw.
    apply bind_Some in Hw as (c & _ & ?). simplify_eq. by apply from_one.
  - simplify_eq. apply from_nil.
Qed.

Lemma task_step_from e a w w' u : task_step e a w = Some (w', u) → from a u.
Proof.
  unfold task_step. intros (c & _ & Hs)%bind_Some.
  assert (∀ {R} (k : Handler R) (back : Handler R → Phase), handler_step e a k w ≫= (λ '(k, w, u), Some (goto a (back k) w, u)) = Some (w', u) → from a u)
    as Hh.
  { intros R k back ([[k1 w1] u1] & Hk & ?)%bind_Some. simplify_eq. by eapply handler_from. }
  destruct (phase c) as [k|state up|k up|up|delay|old delay|delay|ph|].
  - destruct k as [[]| | | | | | | |]; try by eapply (Hh _ _ (λ k, Initializing k)). all: repeat case_match; simplify_eq; apply from_nil.
  - unfold next_incoming in Hs. destruct (stop_poll c); [case_match; simplify_eq; apply from_nil| |case_match; simplify_eq; apply from_nil].
    destruct (recv (mailbox c)) as [[|[i|]] mb]; simplify_eq; [apply from_nil|]. unfold deliver in Hs. destruct i; [simplify_eq; by apply from_one|].
    destruct (take_watched_for _ _) as [[] c1]; simplify_eq; by apply from_one.
  - destruct k as [[[]|]| | | | | | | |]; try by eapply (Hh _ _ (λ k, Receiving k up)). all: simplify_eq; apply from_nil.
  - unfold await_restart in Hs. repeat case_match; simplify_eq; first [apply from_nil|by apply from_one].
  - unfold restart in Hs. destruct (stop_children _ _ _). simplify_eq. by apply from_one.
  - apply bind_Some in Hs as (w1 & _ & ?). simplify_eq. apply from_nil.
  - repeat case_match; simplify_eq; apply from_nil.
  - destruct ph as [| |[|r rest]| |old| | |[|x rest]]; simpl in Hs; repeat case_match; simplify_eq; try apply from_nil; try by apply from_one.
    + apply bind_Some in Hs as (w1 & _ & ?). simplify_eq. apply from_nil.
    + apply bind_Some in Hs as ([[r w1] u1] & Hsig & ?). simplify_eq. by eapply signal_from.
    + unfold root_signal in *. case_match; simplify_eq; [by apply from_one|apply from_nil].
  - done.
Qed.
(** ** Sends, in the trace and in the threads *)

Lemma elem_of_enqueued a src i t : (src, i) ∈ enqueued a t ↔ OEnqueued src a i ∈ t.
Proof.
  unfold enqueued. rewrite list_elem_of_omap. split.
  - intros (o & Ho & Heq). destruct o; simplify_eq/=. case_decide; by simplify_eq.
  - intros Ho. eexists. split; [exact Ho|]. simpl. by rewrite decide_True.
Qed.

Lemma enqueued_own a b m t : (FromActor b, Message m) ∈ enqueued a t → SSent a m ∈ own b t.
Proof.
  rewrite elem_of_enqueued. intros Ho. unfold own. apply list_elem_of_omap. eexists. split; [exact Ho|].
  simpl. by rewrite decide_True.
Qed.

Lemma own_sent a b m t :
  SSent a m ∈ own b t → (FromActor b, Message m) ∈ enqueued a t ∨ ∃ e, ODeadLetter (FromActor b) a m e ∈ t.
Proof.
  unfold own. rewrite list_elem_of_omap. intros (o & Ho & Heq).
  destruct o as [[x|] to [m'|y]|[x|] to m' e| | | | | | | | |]; simplify_eq/=; case_decide; simplify_eq.
  - left. by apply elem_of_enqueued.
  - right. eauto.
Qed.

Lemma own_watched a b t : SWatched b ∈ own a t ↔ b ∈ watches a t.
Proof.
  unfold own, watches. rewrite !list_elem_of_omap. split; intros (o & Ho & Heq); exists o; (split; [done|]).
  - destruct o as [[] ? []|[] ? ? ?| | | | | | | | |]; simplify_eq/=; case_decide; by simplify_eq.
  - destruct o; simplify_eq/=; case_decide; by simplify_eq.
Qed.

Lemma own_received a i t : SReceived i ∈ own a t ↔ OReceived a i ∈ t.
Proof.
  unfold own. rewrite list_elem_of_omap. split.
  - intros (o & Ho & Heq). destruct o as [[] ? []|[] ? ? ?| | | | | | | | |]; simplify_eq/=; case_decide; by simplify_eq.
  - intros Ho. eexists. split; [exact Ho|]. simpl. by rewrite decide_True.
Qed.

Lemma seen_received i (l : list Event) : SReceived i ∈ omap seen l ↔ EReceived i ∈ l.
Proof.
  rewrite list_elem_of_omap. split.
  - intros (e & He & Heq). destruct e as [|[| ? ? ? []| | | |]| | |]; by simplify_eq/=.
  - intros He. by exists (EReceived i).
Qed.

Lemma watching_watched a b t : watching a b t = true → b ∈ watches a t.
Proof.
  induction t as [|e t IH] using rev_ind; [done|]. rewrite watching_app. unfold watches. rewrite omap_app.
  intros Hw. apply elem_of_app. destruct e as [| |x [|y]| | |x y|x y| | | |]; simpl in Hw; try (left; by apply IH).
  - case_decide; [done|]. left. by apply IH.
  - case_decide as Hxy; [|left; by apply IH]. destruct Hxy as [-> ->]. right. simpl. rewrite decide_True by done. by left.
  - case_decide; [done|]. left. by apply IH.
Qed.

Lemma outside_tells l w w' u b m :
  step l w = Some (w', u) → OEnqueued FromOutside b (Message m) ∈ u ∨ (∃ e, ODeadLetter FromOutside b m e ∈ u) →
  ∃ to, l = LTell to m ∧ b = actor_id to.
Proof.
  intros Hs Hin. destruct l as [a e|to m'| | |]; simpl in Hs.
  - assert (FromOutside = FromActor a) as Heq; [|done]. eapply task_step_from; [exact Hs|]. destruct Hin as [?|[? ?]]; eauto.
  - unfold tell in Hs. apply bind_Some in Hs as (c & _ & Hs).
    destruct (try_send_message m' (mailbox c)) as [[] mb]; simplify_eq; setoid_rewrite list_elem_of_singleton in Hin; naive_solver.
  - destruct (owner w); try done. unfold watch_root in Hs. apply bind_Some in Hs as (c & _ & Hs).
    destruct (is_ok _); simplify_eq; [|unfold root_signal in Hs; destruct (terminated_tx _); simplify_eq]; set_solver.
  - destruct (owner w); simplify_eq; set_solver.
  - destruct (owner w); simplify_eq; set_solver.
Qed.

(** ** Accounts of messages *)

(** The messages a thread receives, and those it sends to [a]. *)
Definition incomings (l : list Event) : list (Incoming M) :=
  omap (λ e, match e with EReceived i => Some i | _ => None end) l.
Definition sends a (l : list Event) : list M :=
  omap (λ e, match seen e with Some (SSent to m) => if decide (to = a) then Some m else None | _ => None end) l.

(** The messages of a mailbox with their sources, and those which have been taken out of it. *)
Definition with_sources (l : list (Source * Incoming M)) : list (Source * M) :=
  omap (λ x, match x.2 with Message m => Some (x.1, m) | Terminated _ => None end) l.
Definition taken a t : list (Source * Incoming M) := take (length (dequeued a t)) (enqueued a t).

Lemma incomings_app l l' : incomings (l ++ l') = incomings l ++ incomings l'.
Proof. apply omap_app. Qed.
Lemma sends_app a l l' : sends a (l ++ l') = sends a l ++ sends a l'.
Proof. apply omap_app. Qed.
Lemma elem_of_sends a m l : m ∈ sends a l ↔ SSent a m ∈ omap seen l.
Proof.
  unfold sends. rewrite !list_elem_of_omap. split; intros (e & He & Heq); exists e; (split; [done|]).
  - destruct (seen e) as [[]|]; simplify_eq/=; case_decide; by simplify_eq.
  - rewrite Heq. by rewrite decide_True.
Qed.
Lemma elem_of_with_sources src m l : (src, m) ∈ with_sources l ↔ (src, Message m) ∈ l.
Proof.
  unfold with_sources. rewrite list_elem_of_omap. split.
  - intros ([src' [m'|b]] & Hin & Heq); by simplify_eq/=.
  - intros Hin. by exists (src, Message m).
Qed.
Lemma with_sources_app l l' : with_sources (l ++ l') = with_sources l ++ with_sources l'.
Proof. apply omap_app. Qed.
Lemma with_sources_messages l : (with_sources l).*2 = messages l.*2.
Proof.
  unfold with_sources, messages. induction l as [|[src [m|b]] l IH]; [done| |exact IH]. simpl. f_equal. exact IH.
Qed.

Lemma taken_dequeued w t a c : trace_inv w t → cells w !! a = Some c → (taken a t).*2 = dequeued a t.
Proof. intros Htr Ha. unfold taken. by rewrite fmap_take, (tr_fifo _ _ Htr _ _ Ha), take_app_length. Qed.

Lemma sends_own a l :
  sends a l = omap (λ s, match s with SSent to m => if decide (to = a) then Some m else None | _ => None end) (omap seen l).
Proof.
  induction l as [|e l IH]; [done|]. unfold sends in *. simpl. destruct (seen e) as [[]|]; simpl; try exact IH.
  case_decide; [f_equal|]; exact IH.
Qed.

(** An actor enqueues at most what its thread sends, in this order. *)
Lemma enqueued_sends a b t l :
  omap seen l = own b t → (filter (λ x, x.1 = FromActor b) (with_sources (enqueued a t))).*2 `sublist_of` sends a l.
Proof.
  intros Hown. rewrite sends_own, Hown. clear Hown. induction t as [|e t IH]; [done|]. change (e :: t) with ([e] ++ t).
  rewrite enqueued_app, own_app, with_sources_app, filter_app, fmap_app, omap_app. apply sublist_app; [|exact IH]. clear IH.
  unfold enqueued, own.
  destruct e as [[x|] to [m|y]|[x|] to m e| | | | | | | | |]; simpl; repeat (case_decide; simpl); try apply sublist_nil_l;
    rewrite filter_cons; simpl; case_decide; simplify_eq; try done; simpl; apply sublist_nil_l.
Qed.

Lemma times_sends a b t l :
  omap seen l = own b t → (times (FromActor b) (with_sources (enqueued a t)).*1 ≤ length (sends a l))%nat.
Proof.
  intros Hown. rewrite <-(sublist_length _ _ (enqueued_sends a b t l Hown)), length_fmap.
  induction (with_sources _) as [|x k IH]; [done|]. rewrite fmap_cons, times_cons, filter_cons.
  repeat case_decide; simpl; [lia|done..|exact IH].
Qed.

(** What is received has been taken from the mailbox, and is all of it unless the mailbox was drained. *)
Lemma incomings_own (l : list Event) :
  incomings l = omap (λ s, match s with SReceived i => Some i | _ => None end) (omap seen l).
Proof.
  induction l as [|e l IH]; [done|].
  destruct e as [|[| ? ? ? []| | | |]| | |]; unfold incomings in *; simpl; try (exact IH); f_equal; exact IH.
Qed.

Lemma incomings_dequeued a t (l : list Event) :
  omap seen l = own a t →
  messages (incomings l) `sublist_of` messages (dequeued a t) ∧
  ((∀ x, ODrained a x ∉ t) → messages (incomings l) = messages (dequeued a t)).
Proof.
  intros Hown. rewrite incomings_own, Hown. clear Hown. induction t as [|e t IH]; [by split|].
  destruct IH as [Hsub Heq]. change (e :: t) with ([e] ++ t).
  rewrite own_app, dequeued_app, omap_app, !messages_app.
  set (m1 := messages (omap _ (own a [e]))). set (m2 := messages (dequeued a [e])).
  assert (m1 = m2 ∨ m1 = [] ∧ ∃ x, e = ODrained a x) as Hone.
  { subst m1 m2. destruct e as [[x|] to [m|y]|[x|] to m e|x [m|y]|x y|x k| | | | | |]; unfold own, dequeued; simpl;
      repeat (case_decide; simpl); subst; auto. right. eauto. }
  split.
  - apply sublist_app; [|done]. destruct Hone as [->|[-> _]]; [done|apply sublist_nil_l].
  - intros Hx. f_equal; [|apply Heq; intros x Hin; apply (Hx x), elem_of_app; by right].
    destruct Hone as [?|[_ [x ->]]]; [done|]. by destruct (Hx x); left.
Qed.

(** A signal an actor has received settles its account with the terminated actor: what that one sent to it
    has been taken from the mailbox, if the mailbox is unbounded. *)
Lemma signal_settles w t a b c l m :
  trace_inv w t → ends_inv w t → cells w !! a = Some c → running (phase c) = true →
  mailbox_capacity (config c) = Unbounded →
  omap seen l = own b t → OReceived a (Terminated b) ∈ t → m ∈ sends a l → (FromActor b, m) ∈ with_sources (taken a t).
Proof.
  intros Htr Hends Ha Hrun Hcap Hown [i Hi]%list_elem_of_lookup Hm. apply elem_of_with_sources.
  rewrite elem_of_sends, Hown in Hm. destruct (own_sent _ _ _ _ Hm) as [Hin|[e [j Hj]%list_elem_of_lookup]]; last first.
  { destruct (en_dead _ _ Hends _ _ _ _ _ Hj) as (c' & Hc' & Hfull). simplify_eq. destruct Hfull as (n & Hn & _); [done| |congruence].
    by rewrite Hcap. }
  destruct (signal_order _ _ _ _ _ Htr Hi) as [(e1 & src & e2 & Heq & Hdeq & Hno) _].
  unfold taken. rewrite Heq in Hin |- *. rewrite <-(take_drop i t) at 1. rewrite dequeued_app, length_app, Hdeq, length_fmap.
  rewrite take_app_ge by lia. apply elem_of_app. left. apply elem_of_app in Hin as [Hin|Hin]; [done|].
  apply elem_of_cons in Hin as [Hin|Hin]; [done|]. by destruct (Hno m).
Qed.

(** Nothing is told from outside. *)
Definition inside (lb : Label (M:=M) (An:=An)) : Prop := match lb with LTell _ _ => False | _ => True end.

Lemma inside_tells (m : M) (to : ActorRef) : ¬ inside (LTell to m).
Proof. by intros []. Qed.

(** Whether the system has been stopped. *)
Lemma stop_requested_dec t : OStopRequested ∈ t ∨ OStopRequested ∉ t.
Proof.
  induction t as [|o t [IH|IH]]; [right; apply not_elem_of_nil|left; by right|].
  destruct o; try (right; rewrite elem_of_cons; by intros [?|?]). left. by left.
Qed.

(** A message which is not told from outside is some actor's. *)
Lemma runs_sources (allowed : Label (M:=M) (An:=An) → Prop) w0 w t h a src m :
  (∀ to, ¬ allowed (LTell to m)) → runs allowed w0 w t h → (src, Message m) ∈ enqueued a t → src ≠ FromOutside.
Proof.
  intros Hno. induction 1 as [|w t h b e w' u ev p' Hr IH Hal Hs Hadv|w t h l w' u Hr IH Hal Hs Ht Hu]; intros Hin ->.
  - by apply elem_of_nil in Hin.
  - rewrite enqueued_app, elem_of_app in Hin. destruct Hin as [Hin|Hin]; [by apply IH|]. apply elem_of_enqueued in Hin.
    by pose proof (task_step_from _ _ _ _ _ Hs FromOutside ltac:(eauto)).
  - rewrite enqueued_app, elem_of_app in Hin. destruct Hin as [Hin|Hin]; [by apply IH|]. apply elem_of_enqueued in Hin.
    destruct (outside_tells _ _ _ _ _ _ Hs (or_introl Hin)) as (to & -> & _). by eapply Hno.
Qed.

Lemma watches_own a t : watches a t = omap (λ s, match s with SWatched b => Some b | _ => None end) (own a t).
Proof.
  induction t as [|o t IH]; [done|]. change (o :: t) with ([o] ++ t). rewrite own_app, omap_app, <-IH.
  unfold watches. rewrite omap_app. f_equal. unfold own.
  destruct o as [[] ? []|[] ? ? ?| | | | | | | | |]; simpl; by repeat (case_decide; simpl).
Qed.
Lemma signals_received_own a t :
  signals_received a t = omap (λ s, match s with SReceived (Terminated b) => Some b | _ => None end) (own a t).
Proof.
  induction t as [|o t IH]; [done|]. change (o :: t) with ([o] ++ t). rewrite own_app, omap_app, <-IH.
  unfold signals_received. rewrite omap_app. f_equal. unfold own.
  destruct o as [[] ? []|[] ? ? ?|? []| | | | | | | |]; simpl; by repeat (case_decide; simpl).
Qed.

(** ** What histories have to do with each other *)

(** The children a thread has spawned, those it has watched, and the signals it has received. *)
Definition children (l : list Event) : list ActorRef := omap (λ e, match e with EDid (ASpawn _ _ b) => Some b | _ => None end) l.
Definition watched_by (l : list Event) : list ActorId := omap (λ e, match e with EDid (AWatch b) => Some (actor_id b) | _ => None end) l.
Definition signals (ins : list (Incoming M)) : list ActorId := omap (λ i, match i with Terminated b => Some b | Message _ => None end) ins.

Lemma spawns_app l l' : children (l ++ l') = children l ++ children l'.
Proof. apply omap_app. Qed.
Lemma signals_app ins ins' : signals (ins ++ ins') = signals ins ++ signals ins'.
Proof. apply omap_app. Qed.
Lemma watched_by_app l l' : watched_by (l ++ l') = watched_by l ++ watched_by l'.
Proof. apply omap_app. Qed.
Lemma elem_of_children (b : ActorRef) l : b ∈ children l ↔ ∃ act config, EDid (ASpawn act config b) ∈ l.
Proof.
  unfold children. rewrite list_elem_of_omap. split.
  - intros ([|[]| | |] & He & Heq); simplify_eq/=. eauto.
  - intros (act & config & He). eexists. split; [exact He|done].
Qed.
Lemma children_spawned l : omap spawned l = actor_id <$> children l.
Proof.
  induction l as [|e l IH]; [done|]. destruct e as [|[]| | |]; unfold children in *; simpl; try exact IH. f_equal. exact IH.
Qed.

Lemma watches_history a t l : omap seen l = own a t → watches a t = watched_by l.
Proof.
  intros Hown. rewrite watches_own, <-Hown. clear Hown. unfold watched_by. induction l as [|e l IH]; [done|].
  destruct e as [|[| ? ? ? []| | | |]| | |]; simpl; try exact IH. f_equal. exact IH.
Qed.
Lemma signals_history a t l : omap seen l = own a t → signals_received a t = signals (incomings l).
Proof.
  intros Hown. rewrite signals_received_own, <-Hown. clear Hown. unfold signals, incomings. induction l as [|e l IH]; [done|].
  destruct e as [[]|[| ? ? ? []| | | |]| | |]; simpl; try exact IH. f_equal. exact IH.
Qed.

(** A task which has ended does nothing more. *)
Lemma ended_step (act : B) self (p p' : Phase (M:=M) (B:=B) (S:=S) (E:=E) (Rq:=Rq) (An:=An)) (e : list Event) :
  thread_step act self p e p' → running p = false → e = [] ∧ running p' = false.
Proof. intros Hs Hr. destruct p; try done; inversion Hs; subst; done. Qed.

(** A thread which tells is about to, and its step is [tell]. *)
Definition telling (p : Phase (M:=M) (B:=B) (S:=S) (E:=E) (Rq:=Rq) (An:=An)) (r : ActorRef) (m : M) : Prop :=
  match p with
  | Initializing (HTell r' m' _) => r' = r ∧ m' = m
  | Receiving (HTell r' m' _) _ => r' = r ∧ m' = m
  | _ => False
  end.

Lemma telling_step act self p p' (e : list Event) r m : thread_step act self p e p' → EDid (ATell r m) ∈ e → telling p r m.
Proof.
  intros Hs Hin. destruct Hs; try (by apply elem_of_nil in Hin); apply list_elem_of_singleton in Hin; subst; try done;
    match goal with H : acts ?h _ _ |- _ => by destruct h; apply acts_inv in H; simpl in H; open_all; simplify_eq end.
Qed.

Lemma telling_tell e a c w w' u r m :
  cells w !! a = Some c → telling (phase c) r m → task_step e a w = Some (w', u) → ∃ w1, tell (FromActor a) r m w = Some (w1, u).
Proof.
  intros Ha Ht Hs. unfold task_step in Hs. rewrite Ha in Hs. simpl in Hs.
  destruct (phase c) as [[]| |[] up| | | | | |]; try done; destruct Ht as [-> ->];
    apply bind_Some in Hs as ([[k' w1] u1] & Hh & ?); simplify_eq; simpl in Hh;
    apply bind_Some in Hh as ([w2 u2] & Ht & ?); simplify_eq; eauto.
Qed.

(** Dead letters are told. *)
Lemma handler_dead {R} e a (k k' : Handler R) w w' u src to m er :
  handler_step e a k w = Some (k', w', u) → ODeadLetter src to m er ∈ u → ∃ r k0, k = HTell r m k0 ∧ actor_id r = to.
Proof.
  destruct k as [x| |r m' k|forced r m' k|k|act cfg k|other k|other k|q k]; simpl; intros Hs Hin; try done.
  - apply bind_Some in Hs as ([w1 u1] & Ht & ?). simplify_eq. unfold tell in Ht. apply bind_Some in Ht as (c & _ & Ht).
    destruct (try_send_message m' (mailbox c)) as [[] mb]; simplify_eq; apply list_elem_of_singleton in Hin; simplify_eq; eauto.
  - apply bind_Some in Hs as ([[ok w1] u1] & Ht & ?). simplify_eq. unfold try_tell in Ht. apply bind_Some in Ht as (c & _ & Ht).
    destruct (send_message forced m' (mailbox c)) as [[] mb]; simplify_eq; [by apply list_elem_of_singleton in Hin|by apply elem_of_nil in Hin].
  - simplify_eq. by apply elem_of_nil in Hin.
  - apply bind_Some in Hs as (c & _ & Hs). destruct (fresh _ _); simplify_eq. by apply elem_of_nil in Hin.
  - apply bind_Some in Hs as ([[ok w1] u1] & Hw & ?). simplify_eq.
    unfold watch in Hw. apply bind_Some in Hw as (o & _ & Hw). apply bind_Some in Hw as (c & _ & Hw).
    destruct (is_ok _); simplify_eq; [by apply list_elem_of_singleton in Hin|].
    apply bind_Some in Hw as ([[x w2] u2] & Hs & ?). simplify_eq. unfold signal_mailbox in Hs. apply bind_Some in Hs as (c' & _ & Hs).
    destruct (send_terminated _ _) as [[] mb]; simplify_eq; set_solver.
  - apply bind_Some in Hs as ([w1 u1] & Hw & ?). simplify_eq. unfold unwatch in Hw.
    apply bind_Some in Hw as (c & _ & ?). simplify_eq. by apply list_elem_of_singleton in Hin.
  - simplify_eq. by apply elem_of_nil in Hin.
Qed.

Lemma task_step_dead e a w w' u src to m er :
  task_step e a w = Some (w', u) → ODeadLetter src to m er ∈ u →
  ∃ c r, cells w !! a = Some c ∧ telling (phase c) r m ∧ actor_id r = to.
Proof.
  unfold task_step. intros (c & Hc & Hs)%bind_Some Hin. exists c.
  assert (∀ {R} (k : Handler R) (back : Handler R → Phase),
    handler_step e a k w ≫= (λ '(k, w, u), Some (goto a (back k) w, u)) = Some (w', u) → ∃ r k0, k = HTell r m k0 ∧ actor_id r = to) as Hh.
  { intros R k back ([[k1 w1] u1] & Hk & ?)%bind_Some. simplify_eq. by eapply handler_dead. }
  destruct (phase c) as [k|state up|k up|up|delay|old delay|delay|ph|].
  - destruct k as [[]| | | | | | | |];
      try (destruct (Hh _ _ (λ k, Initializing k) Hs) as (r & k0 & Heq & Hr); simplify_eq; by exists r);
      repeat case_match; simplify_eq; by apply elem_of_nil in Hin.
  - unfold next_incoming in Hs. destruct (stop_poll c); [case_match; simplify_eq; by apply elem_of_nil in Hin| |case_match; simplify_eq; by apply elem_of_nil in Hin].
    destruct (recv (mailbox c)) as [[|[i|]] mb]; simplify_eq; [by apply elem_of_nil in Hin|]. unfold deliver in Hs.
    destruct i; [|destruct (take_watched_for _ _) as [[] c1]]; simplify_eq; by apply list_elem_of_singleton in Hin.
  - destruct k as [[[]|]| | | | | | | |];
      try (destruct (Hh _ _ (λ k, Receiving k up) Hs) as (r & k0 & Heq & Hr); simplify_eq; by exists r);
      simplify_eq; by apply elem_of_nil in Hin.
  - unfold await_restart in Hs. repeat case_match; simplify_eq; by apply elem_of_nil in Hin.
  - unfold restart in Hs. destruct (stop_children _ _ _). simplify_eq. by apply list_elem_of_singleton in Hin.
  - apply bind_Some in Hs as (w1 & _ & ?). simplify_eq. by apply elem_of_nil in Hin.
  - repeat case_match; simplify_eq; by apply elem_of_nil in Hin.
  - destruct ph as [| |[|x rest]| |old| | |[|x rest]]; simpl in Hs; repeat case_match; simplify_eq; try (by apply elem_of_nil in Hin);
      try (by apply list_elem_of_singleton in Hin).
    + apply bind_Some in Hs as (w1 & _ & ?). simplify_eq. by apply elem_of_nil in Hin.
    + apply bind_Some in Hs as ([[x' w1] u1] & Hsig & ?). simplify_eq. unfold signal_mailbox in Hsig.
      apply bind_Some in Hsig as (c' & _ & Hsig). destruct (send_terminated _ _) as [[] mb]; simplify_eq; set_solver.
    + unfold root_signal in *. case_match; simplify_eq; set_solver.
  - done.
Qed.

(** User code has panicked, or failed. *)
Definition panicked (p : Phase (M:=M) (B:=B) (S:=S) (E:=E) (Rq:=Rq) (An:=An)) : bool :=
  match p with Initializing HPanic | Receiving HPanic _ | Failed _ => true | _ => false end.

Section Alone.
Context (id wid : ActorId) (act0 : B) (config0 : ActorConfig) (ids : id ≠ wid).
Context (allowed : Label (M:=M) (An:=An) → Prop).
#[local] Abbreviation new := (system_new id wid act0 config0).
Context w t h (Hr : runs allowed new w t h).

Lemma runs_history a : omap seen (h a) = own a t.
Proof. apply (th_shown _ _ _ _ _ _ (runs_threads _ _ _ _ ids _ _ _ _ Hr)). Qed.

Lemma runs_ends : trace_inv w t ∧ mailboxes_count w ∧ ends_inv w t.
Proof. destruct (runs_exec _ _ _ _ ids _ _ _ _ Hr) as (ls & _ & He). apply (exec_ends_inv _ _ _ _ _ _ _ ids He). Qed.

(** A message received has been sent by some actor, unless it is told from outside. *)
Lemma received_from a m :
  (∀ to, ¬ allowed (LTell to m)) → EReceived (Message m) ∈ h a → ∃ b, m ∈ sends a (h b).
Proof.
  intros Hno Hin. apply seen_received in Hin. rewrite runs_history, own_received in Hin.
  destruct runs_ends as (Htr & _ & _).
  apply list_elem_of_lookup in Hin as [i Hi]. destruct (tr_received _ _ Htr _ _ _ Hi) as (rest & Hrest).
  assert (Message m ∈ (enqueued a (take i t)).*2) as Hm by (rewrite Hrest; set_solver).
  apply list_elem_of_fmap in Hm as ([src x] & Hx & Hm). simpl in Hx. subst x.
  apply elem_of_enqueued, elem_of_take in Hm as (n & Hm & _). apply list_elem_of_lookup_2, elem_of_enqueued in Hm.
  destruct src as [b|]; [|by destruct (runs_sources _ _ _ _ _ _ _ _ Hno Hr Hm)].
  exists b. apply elem_of_sends. rewrite runs_history. by apply enqueued_own.
Qed.

(** A child of a running parent which does not restart is not told to stop. *)
Lemma not_told_to_stop a ka b k g :
  tasks w !! a = Some ka → running (t_phase ka) = true → ERestarting ∉ h a →
  tasks w !! b = Some k → t_parent k = ContextKey a g → EStopped ∉ h b.
Proof.
  intros Ha Hrun Hno Hb Hpar Hst.
  destruct (told_to_stop _ _ _ _ ids _ _ _ _ _ _ a g Hr Hb Hpar Hst) as (k' & Hk' & [?|Hend]); [done|]. congruence.
Qed.

(** Actors watched once each have all terminated once there are as many signals. *)
Lemma all_signaled a :
  NoDup (watched_by (h a)) → (length (watched_by (h a)) ≤ length (signals (incomings (h a))))%nat →
  signals (incomings (h a)) ≡ₚ watched_by (h a).
Proof.
  intros Hnd Hlen. destruct runs_ends as (Htr & _ & _). pose proof (runs_history a) as Hown.
  rewrite <-(watches_history _ _ _ Hown), <-(signals_history _ _ _ Hown) in *.
  destruct (signals_once w t a Htr Hnd) as [Hnd' Hsub]. apply submseteq_length_Permutation; [by apply NoDup_submseteq|done].
Qed.

Lemma signal_in_trace a b : b ∈ signals (incomings (h a)) → OReceived a (Terminated b) ∈ t.
Proof.
  rewrite <-(signals_history _ _ _ (runs_history a)). intros (o & Ho & Heq)%list_elem_of_omap.
  destruct o as [| |x [|y]| | | | | | | |]; simplify_eq/=. case_decide; by simplify_eq.
Qed.

(** A child whose signal its parent has received, still running, has ended by itself. *)
Lemma signaled_child a c act config (b : ActorRef) :
  cells w !! a = Some c → running (phase c) = true → ERestarting ∉ h a →
  EDid (ASpawn act config b) ∈ h a → actor_id b ∈ signals (incomings (h a)) →
  ∃ k, tasks w !! actor_id b = Some k ∧ running (t_phase k) = false ∧ EStopped ∉ h (actor_id b).
Proof.
  intros Hc Hrun Hno Hspawn Hsig. destruct runs_ends as (Htr & _ & _). pose proof (runs_threads _ _ _ _ ids _ _ _ _ Hr) as Hth.
  apply signal_in_trace in Hsig as [i Hi]%list_elem_of_lookup.
  destruct (signal_order _ _ _ _ _ Htr Hi) as [_ (cb & Hcb & Hclosed)].
  destruct (th_children _ _ _ _ _ _ Hth _ _ _ _ Hspawn) as (g & p & Hp & Hne).
  eexists. split; [exact Hp|]. simpl. rewrite (lookup_tasks _ _ _ Hcb) in Hp. injection Hp as _ _ Hpar <-.
  split; [by destruct (phase cb) as [| | | | | | |[]|]|].
  eapply (not_told_to_stop a (task_of c) _ (task_of cb) g); [by apply lookup_tasks|done|done|by apply lookup_tasks|done].
Qed.
End Alone.

(** ** A protocol *)

Section Protocol.
Context (id wid : ActorId) (act0 : B) (config0 : ActorConfig) (ids : id ≠ wid).
Context (good : ActorId → B → ActorConfig → Prop) (ok : ActorId → Incoming M → Prop).
Context (allowed : Label (M:=M) (An:=An) → Prop) (outside_ok : ∀ to m, allowed (LTell to m) → ok (actor_id to) (Message m)).
#[local] Abbreviation new := (system_new id wid act0 config0).
(** Which actors there are: in a run, those of the world it leads to. *)
Context (who : ActorId → B → ActorConfig → Prop).
Definition cast_is w : Prop := ∀ a k, tasks w !! a = Some k → who a (t_actor k) (t_config k).

(** What a thread does, given what it receives. *)
Definition well_behaved : Prop := ∀ a act config l p,
  good a act config → thread act (mk_ref a) l p →
  (∀ i, EReceived i ∈ l → ok a i) →
  (∀ act' config' child, EDid (ASpawn act' config' child) ∈ l → actor_id child ≠ id ∧ who (actor_id child) act' config') →
  (∀ act' config' child, EDid (ASpawn act' config' child) ∈ l → good (actor_id child) act' config') ∧
  (∀ to m, SSent to m ∈ omap seen l → ok to (Message m)) ∧
  (∀ b, SWatched b ∈ omap seen l → ok a (Terminated b)).

Record protocol_inv w t h : Prop := {
  pr_good : ∀ a k, tasks w !! a = Some k → good a (t_actor k) (t_config k);
  pr_received : ∀ a i, EReceived i ∈ h a → ok a i;
  pr_enqueued : ∀ a src m, (src, Message m) ∈ enqueued a t → ok a (Message m);
}.

Context (root_good : good id act0 config0) (behaved : well_behaved).

Lemma children_cast w t h a act config child :
  threads_inv id act0 config0 w t h → cast_is w → EDid (ASpawn act config child) ∈ h a →
  actor_id child ≠ id ∧ who (actor_id child) act config.
Proof.
  intros Hth Hcast Hin. destruct (th_children _ _ _ _ _ _ Hth _ _ _ _ Hin) as (g & p & Hp & Hne).
  split; [done|]. exact (Hcast _ _ Hp).
Qed.

(** The cast only grows. *)
Lemma cast_before w w' a u ev p' : advances a w w' u ev p' → cast_is w' → cast_is w.
Proof.
  intros (k & Hk & _ & _ & _ & Hkeep & Ha & _)%advances_tasks Hcast b k' Hb.
  destruct (decide (b = a)) as [->|Hne]; [|by apply Hcast, Hkeep]. simplify_eq. apply (Hcast a _ Ha).
Qed.

Lemma threads_behave w t h a k :
  threads_inv id act0 config0 w t h → protocol_inv w t h → cast_is w → tasks w !! a = Some k →
  (∀ act' config' child, EDid (ASpawn act' config' child) ∈ h a → good (actor_id child) act' config') ∧
  (∀ to m, SSent to m ∈ omap seen (h a) → ok to (Message m)) ∧
  (∀ b, SWatched b ∈ omap seen (h a) → ok a (Terminated b)).
Proof.
  intros Hth [Hgood Hrec _] Hcast Ha. eapply behaved; [by apply Hgood|by apply (th_runs _ _ _ _ _ _ Hth)|apply Hrec|].
  intros act' config' child Hin. by apply (children_cast w t h a).
Qed.

(** What the actor which makes a step receives. *)
Lemma step_received w t h a e w' u ev p' i :
  runs allowed new w t h → allowed (LTask a e) → protocol_inv w t h → cast_is w →
  step (LTask a e) w = Some (w', u) → advances a w w' u ev p' → EReceived i ∈ ev → ok a i.
Proof.
  intros Hr Hal Hinv Hcast Hs Hadv Hin. pose proof (runs_threads _ _ _ _ ids _ _ _ _ Hr) as Hth.
  destruct (runs_invariants _ _ _ _ ids _ _ _ _ (runs_task _ _ _ _ _ _ _ _ _ _ _ Hr Hal Hs Hadv)) as (_ & _ & Htr).
  destruct (advances_tasks _ _ _ _ _ _ Hadv) as (k & Hk & Hstep & _). destruct Hadv as [_ Hown Hother].
  assert (ev = [EReceived i]) as -> by (inversion Hstep; subst; try (by apply elem_of_nil in Hin); set_solver).
  assert (OReceived a i ∈ u) as Hu by (apply own_received; rewrite Hown; by left).
  apply list_elem_of_lookup in Hu as [j Hj].
  assert ((t ++ u) !! (length t + j)%nat = Some (OReceived a i)) as Hj' by (by rewrite lookup_app_r, Nat.add_comm, Nat.add_sub by lia).
  destruct i as [m|b].
  - destruct (tr_received _ _ Htr _ _ _ Hj') as (rest & Hrest).
    assert (Message m ∈ (enqueued a (take (length t + j) (t ++ u))).*2) as Hm.
    { rewrite Hrest. apply elem_of_app. right. by left. }
    apply list_elem_of_fmap in Hm as ([src x] & Hx & Hm). simpl in Hx. subst x.
    apply elem_of_enqueued, elem_of_take in Hm as (n & Hm & _). apply list_elem_of_lookup_2, elem_of_app in Hm as [Hm|Hm].
    { by eapply (pr_enqueued _ _ _ Hinv), elem_of_enqueued. }
    simpl in Hs. assert (src = FromActor a) as -> by (eapply task_step_from; eauto).
    apply elem_of_enqueued, enqueued_own in Hm. rewrite Hown in Hm. by apply list_elem_of_singleton in Hm.
  - pose proof (tr_contract _ _ Htr _ _ _ Hj') as Hw. apply watching_watched, own_watched in Hw.
    assert (SWatched b ∈ own a (t ++ u)) as Hw'.
    { revert Hw. unfold own. rewrite !list_elem_of_omap. intros (o & Ho & Heq). exists o. split; [|done].
      apply elem_of_take in Ho as (n & Ho & _). by eapply list_elem_of_lookup_2. }
    rewrite own_app, Hown in Hw'. apply elem_of_app in Hw' as [Hw'|Hw'%list_elem_of_singleton]; [|done].
    rewrite <-(th_shown _ _ _ _ _ _ Hth) in Hw'. by eapply threads_behave.
Qed.

(** In every run, every actor is one the protocol has there, and gets what the protocol says. *)
Lemma runs_protocol w t h : runs allowed new w t h → cast_is w → protocol_inv w t h.
Proof.
  induction 1 as [|w t h a e w' u ev p' Hr IH Hal Hs Hadv|w t h l w' u Hr IH Hal Hs Ht Hu]; intros Hcast.
  - split.
    + unfold tasks. simpl. rewrite map_fmap_singleton. by intros a k [<- <-]%lookup_singleton_Some.
    + by intros a i ?%elem_of_nil.
    + by intros a src m ?%elem_of_nil.
  - pose proof (cast_before _ _ _ _ _ _ Hadv Hcast) as Hcast0. specialize (IH Hcast0).
    pose proof (λ i, step_received w t h a e w' u ev p' i Hr Hal IH Hcast0 Hs Hadv) as Hrec.
    pose proof (runs_task _ _ _ _ _ _ _ _ _ _ _ Hr Hal Hs Hadv) as Hr'.
    pose proof (runs_threads _ _ _ _ ids _ _ _ _ Hr') as Hth.
    destruct (advances_tasks _ _ _ _ _ _ Hadv) as (k & Hk & Hstep & _ & Hback & Hkeep & Ha & Hspawn).
    pose proof Hadv as [_ Hown Hother].
    assert (∀ b i, EReceived i ∈ happened a ev h b → ok b i) as Hrec'.
    { intros b i. unfold happened. case_decide as Hba; [subst b|by apply (pr_received _ _ _ IH)].
      rewrite elem_of_app. intros [Hi|Hi]; [by apply (pr_received _ _ _ IH)|by apply Hrec]. }
    destruct (behaved a (t_actor k) (t_config k) (happened a ev h a) p') as (Hsp & Hse & _).
    { by apply (pr_good _ _ _ IH). }
    { apply (th_runs _ _ _ _ _ _ Hth _ _ Ha). }
    { apply Hrec'. }
    { intros act' config' child Hin. by apply (children_cast w' _ _ a _ _ _ Hth). }
    split; [|exact Hrec'|].
    + intros b k' Hb. destruct (Hback _ _ Hb) as [[-> ->]|[[Hba Hb']|(act & cfg & g & -> & Hba & Hb' & ->)]].
      * exact (pr_good _ _ _ IH a k Hk).
      * exact (pr_good _ _ _ IH b k' Hb').
      * simpl. apply (Hsp _ _ (mk_ref b)). rewrite happened_self. apply elem_of_app. right. by left.
    + intros b src m. rewrite enqueued_app, elem_of_app. intros [Hm|Hm]; [by eapply (pr_enqueued _ _ _ IH)|].
      assert (src = FromActor a) as ->. { eapply task_step_from; [exact Hs|]. left. eexists _, _. by apply elem_of_enqueued. }
      apply Hse. rewrite happened_self, omap_app, elem_of_app. right. rewrite <-Hown. by apply enqueued_own.
  - destruct IH as [Hgood Hrec Henq]; [unfold cast_is; by rewrite <-Ht|]. split; [by rewrite Ht|done|].
    intros b src m. rewrite enqueued_app, elem_of_app. intros [Hm|Hm]; [by eapply Henq|].
    destruct src as [a|]; [apply enqueued_own in Hm; rewrite Hu in Hm; by apply elem_of_nil in Hm|].
    apply elem_of_enqueued in Hm. by destruct (outside_tells _ _ _ _ _ _ Hs (or_introl Hm)) as (to & -> & ->); apply outside_ok.
Qed.
End Protocol.
End Protocols.
