(* ===== verification/RuntimeRounds.v ===== *)
(** Threads in rounds: the history of a thread is the actions of [init] and then, for every incoming, those of
    [receive], up to where the current code has got. So what holds of a program is proved code by code, with what
    the actions are at every point of it ([always]), or that they keep to types ([keeps]). And worlds at rest, in
    which no task can take a step: whatever was told has been received, whoever ended has been signaled. *)
From S2P Require Import Prelude Backoff Config Flume Quota Actor Mailbox MailboxSpec Tokio Runtime RuntimeMoves RuntimeTree RuntimeWatch RuntimeSystem RuntimeTrace RuntimeMailboxes RuntimeProgress Handlers RuntimeThreads RuntimeProtocols.

Section Rounds.
Context {M B S E : Type} {Rq : Type} {An : Rq → Type} {A : Runtime.Actor M B S E Rq An}.
#[local] Abbreviation Handler := (Handler (M:=M) (B:=B) (E:=E) (Rq:=Rq) (An:=An)).
#[local] Abbreviation Event := (Event (M:=M) (B:=B) (Rq:=Rq) (An:=An)).
#[local] Abbreviation Phase := (Phase (M:=M) (B:=B) (S:=S) (E:=E) (Rq:=Rq) (An:=An)).
Implicit Types (l t : list Event) (p : Phase) (e : Event).

(** ** Code *)

(** What code does, up to a point of it. *)
Inductive does {R} : Handler R → list Event → Handler R → Prop :=
  | does_nothing h : does h [] h
  | does_more h e h1 t h' : acts h e h1 → does h1 t h' → does h (e :: t) h'.

Lemma does_snoc {R} (h h1 h2 : Handler R) t e : does h t h1 → acts h1 e h2 → does h (t ++ [e]) h2.
Proof. induction 1 as [h|h e' h' t h1 Ha _ IH]; intros He; [repeat econstructor; eauto|]. econstructor; [done|by apply IH]. Qed.

(** [Q] at every point of the code, of what it has done so far and of what is left of it. *)
Fixpoint always {R} (h : Handler R) (Q : list Event → Handler R → Prop) : Prop :=
  Q [] h ∧
  match h with
  | HReturn _ | HPanic => True
  | HTell to m k => always k (λ t, Q (EDid (ATell to m) :: t))
  | HTryTell forced to m k => ∀ ok, always (k ok) (λ t, Q (EDid (ATryTell forced to m ok) :: t))
  | HNow k => ∀ now, always (k now) (λ t, Q (EDid (ANow now) :: t))
  | HSpawn act config k => ∀ child, always (k child) (λ t, Q (EDid (ASpawn act config child) :: t))
  | HWatch other k => always k (λ t, Q (EDid (AWatch other) :: t))
  | HUnwatch other k => always k (λ t, Q (EDid (AUnwatch other) :: t))
  | HAwait q k => ∀ answer, always (k answer) (λ t, Q (EAnswered q answer :: t))
  end.

Lemma always_does {R} (h h' : Handler R) t Q : always h Q → does h t h' → Q t h'.
Proof.
  intros Hal Hd. revert Q Hal. induction Hd as [h|h e h1 t h' Ha _ IH]; intros Q Hal.
  - by destruct h; destruct Hal.
  - apply (IH (λ t, Q (e :: t))). destruct h; apply acts_inv in Ha; simpl in Ha; destruct Hal as [_ Hal]; try done; naive_solver.
Qed.

Lemma always_mono {R} (h : Handler R) (Q Q' : list Event → Handler R → Prop) :
  always h Q → (∀ t h', Q t h' → Q' t h') → always h Q'.
Proof.
  revert Q Q'. induction h; intros Q Q' Hal Himp; destruct Hal as [? Hal]; (split; [by apply Himp|]); eauto.
Qed.

(** [Q] at every end of the code, of what it has done. *)
Fixpoint ends {R} (h : Handler R) (Q : list Event → Handler R → Prop) : Prop :=
  match h with
  | HReturn _ | HPanic => Q [] h
  | HTell to m k => ends k (λ t, Q (EDid (ATell to m) :: t))
  | HTryTell forced to m k => ∀ ok, ends (k ok) (λ t, Q (EDid (ATryTell forced to m ok) :: t))
  | HNow k => ∀ now, ends (k now) (λ t, Q (EDid (ANow now) :: t))
  | HSpawn act config k => ∀ child, ends (k child) (λ t, Q (EDid (ASpawn act config child) :: t))
  | HWatch other k => ends k (λ t, Q (EDid (AWatch other) :: t))
  | HUnwatch other k => ends k (λ t, Q (EDid (AUnwatch other) :: t))
  | HAwait q k => ∀ answer, ends (k answer) (λ t, Q (EAnswered q answer :: t))
  end.

Definition at_end {R} (k : Handler R) : bool := match k with HReturn _ | HPanic => true | _ => false end.

Lemma ends_does {R} (h h' : Handler R) t Q : ends h Q → does h t h' → at_end h' = true → Q t h'.
Proof.
  intros Hen Hd. revert Q Hen. induction Hd as [h|h e h1 t h' Ha _ IH]; intros Q Hen Hend.
  - by destruct h.
  - apply (IH (λ t, Q (e :: t))); [|done]. destruct h; apply acts_inv in Ha; simpl in Ha; simpl in Hen; try done; naive_solver.
Qed.

Lemma ends_mono {R} (h : Handler R) (Q Q' : list Event → Handler R → Prop) :
  ends h Q → (∀ t h', Q t h' → Q' t h') → ends h Q'.
Proof. revert Q Q'. induction h; simpl; eauto. Qed.

(** Code whose every action satisfies [P], coming to an end in [post]. *)
Fixpoint only {R} (P : Event → Prop) (post : Handler R → Prop) (k : Handler R) : Prop :=
  match k with
  | HReturn _ | HPanic => post k
  | HTell to m k => P (EDid (ATell to m)) ∧ only P post k
  | HTryTell forced to m k => ∀ sent, P (EDid (ATryTell forced to m sent)) ∧ only P post (k sent)
  | HNow k => ∀ now, P (EDid (ANow now)) ∧ only P post (k now)
  | HSpawn act config k => ∀ child, P (EDid (ASpawn act config child)) ∧ only P post (k child)
  | HWatch other k => P (EDid (AWatch other)) ∧ only P post k
  | HUnwatch other k => P (EDid (AUnwatch other)) ∧ only P post k
  | HAwait q k => ∀ answer, P (EAnswered q answer) ∧ only P post (k answer)
  end.

Lemma only_always {R} (P : Event → Prop) (post : Handler R → Prop) k :
  only P post k → always k (λ t k', Forall P t ∧ (at_end k' = true → post k')).
Proof.
  induction k; simpl; intros Hk; (split; [by split|]); try done;
    try (destruct Hk as [Hp Hk]; eapply always_mono; [eauto|]; naive_solver);
    intros x; destruct (Hk x) as [Hp Hk']; eapply always_mono; eauto; naive_solver.
Qed.

(** ** Rounds *)

(** Between the codes: about to run [init], in a state, about to terminate, or to be restarted or given up. *)
Inductive Stage := Begins | Settled (state : S) | Stops | Fails.

Definition failed {R} (h : Handler R) : bool := match h with HReturn (Err _) | HPanic => true | _ => false end.

Section Thread.
Context (act : B) (self : ActorRef).

Inductive rounds : list Event → Stage → Prop :=
  | rounds_start : rounds [] Begins
  | rounds_init l t s : rounds l Begins → does (init act self) t (HReturn (Ok s)) → rounds (l ++ t) (Settled s)
  | rounds_init_fails l t h : rounds l Begins → does (init act self) t h → failed h = true → rounds (l ++ t) Fails
  | rounds_continue l s i t s' :
      rounds l (Settled s) → does (receive act self i s) t (HReturn (Ok (Continue s'))) →
      rounds (l ++ EReceived i :: t) (Settled s')
  | rounds_stop l s i t :
      rounds l (Settled s) → does (receive act self i s) t (HReturn (Ok Actor.Stop)) → rounds (l ++ EReceived i :: t) Stops
  | rounds_fail l s i t h :
      rounds l (Settled s) → does (receive act self i s) t h → failed h = true → rounds (l ++ EReceived i :: t) Fails
  | rounds_restart l : rounds l Fails → rounds (l ++ [ERestarting]) Begins.

(** Where a thread is in its current round. *)
Inductive placed : list Event → Phase → Prop :=
  | placed_init l t h : rounds l Begins → does (init act self) t h → placed (l ++ t) (Initializing h)
  | placed_next l s up : rounds l (Settled s) → placed l (NextIncoming s up)
  | placed_receiving l s i t h up :
      rounds l (Settled s) → does (receive act self i s) t h → placed (l ++ EReceived i :: t) (Receiving h up)
  | placed_failed l up : rounds l Fails → placed l (Failed up)
  | placed_restarting l delay : rounds l Fails → placed l (Restarting delay)
  | placed_stopping l old delay : rounds l Begins → placed l (StoppingChildren old delay)
  | placed_waiting l delay : rounds l Begins → placed l (BackingOff delay)
  | placed_stops l p : rounds l Stops → running p = false → placed l p
  | placed_gives_up l p : rounds l Fails → running p = false → placed l p
  | placed_stopped l p p' : placed l p → running p = true → running p' = false → placed (l ++ [EStopped]) p'.

Lemma placed_ended l p p' : placed l p → running p = false → running p' = false → placed l p'.
Proof.
  destruct 1; intros; try done; [by apply placed_stops|by apply placed_gives_up|by eapply placed_stopped].
Qed.

Lemma thread_placed l p : thread act self l p → placed l p.
Proof.
  induction 1 as [|l p e p' _ IH Hstep]; [by apply (placed_init [] []); constructor|].
  destruct (running p) eqn:Hrun; last first.
  { destruct (ended_step _ _ _ _ _ Hstep Hrun) as [-> Hrun']. rewrite app_nil_r. by eapply placed_ended. }
  destruct Hstep; rewrite ?app_nil_r; try (by eapply placed_stopped);
    inversion IH; subst; try done; rewrite <-?(assoc_L (++)), <-?app_comm_cons.
  - constructor; [done|]. by eapply does_snoc.
  - constructor. by apply rounds_init.
  - constructor. by eapply rounds_init_fails.
  - constructor. by eapply rounds_init_fails.
  - eapply placed_receiving; [done|constructor].
  - eapply placed_receiving; [done|by eapply does_snoc].
  - constructor. by eapply rounds_continue.
  - apply placed_stops; [|done]. by eapply rounds_stop.
  - constructor. by eapply rounds_fail.
  - constructor. by eapply rounds_fail.
  - by apply placed_gives_up.
  - by constructor.
  - constructor. by constructor.
  - by constructor.
  - rewrite <-(app_nil_r l). apply placed_init; [done|constructor].
Qed.

(** A thread which has not been told to stop ends by itself. *)
Lemma placed_end l p : placed l p → running p = false → EStopped ∉ l → rounds l Stops ∨ rounds l Fails.
Proof.
  destruct 1 as [| | | | | | | | |l p p' _ _ _]; intros Hrun Hst; try done; [by left|by right|].
  destruct Hst. apply elem_of_app. right. by left.
Qed.

(** What code does, as opposed to what happens to it. *)
Definition code_event e : bool := match e with EDid _ | EAnswered _ _ => true | _ => false end.

(** *** What holds at every point of a thread *)

(** The stage code leads to. *)
Definition init_leads (k : Handler S) : option Stage :=
  match k with HReturn (Ok s) => Some (Settled s) | HReturn (Err _) | HPanic => Some Fails | _ => None end.
Definition receive_leads (k : Handler (Control S)) : option Stage :=
  match k with
  | HReturn (Ok (Continue s)) => Some (Settled s)
  | HReturn (Ok Actor.Stop) => Some Stops
  | HReturn (Err _) | HPanic => Some Fails
  | _ => None
  end.

(** [I] between the rounds and [J] at every point, for histories which satisfy [H]. *)
Section Points.
Context (H J : list Event → Prop) (I : list Event → Stage → Prop).
Context (H_prefix : ∀ l l', H (l ++ l') → H l).
Definition leads (stage : option Stage) l : Prop := J l ∧ match stage with Some st => I l st | None => True end.
Context (starts : J [] ∧ I [] Begins).
Context (inits : ∀ l, J l → I l Begins → always (init act self) (λ t k, H (l ++ t) → leads (init_leads k) (l ++ t))).
Context (receives : ∀ l s i, J l → I l (Settled s) → H (l ++ [EReceived i]) →
  always (receive act self i s) (λ t k, H (l ++ EReceived i :: t) → leads (receive_leads k) (l ++ EReceived i :: t))).
Context (restarts : ∀ l, J l → I l Fails → H (l ++ [ERestarting]) → leads (Some Begins) (l ++ [ERestarting])).
Context (stops : ∀ l, J l → J (l ++ [EStopped])).

Lemma received_point l i t : H (l ++ EReceived i :: t) → H l ∧ H (l ++ [EReceived i]).
Proof. intros Hl. split; [by eapply H_prefix|]. apply (H_prefix _ t). by rewrite <-(assoc_L (++)). Qed.

Lemma rounds_always l st : rounds l st → H l → J l ∧ I l st.
Proof.
  induction 1 as [|l t s _ IH Hd|l t k _ IH Hd Hf|l s i t s' _ IH Hd|l s i t _ IH Hd|l s i t k _ IH Hd Hf|l _ IH]; intros Hl; [done|..].
  - destruct (IH (H_prefix _ _ Hl)) as [Hj Hi]. apply (always_does _ _ _ _ (inits l Hj Hi) Hd Hl).
  - destruct (IH (H_prefix _ _ Hl)) as [Hj Hi]. destruct (always_does _ _ _ _ (inits l Hj Hi) Hd Hl). by destruct k as [[]| | | | | | | |].
  - destruct (received_point _ _ _ Hl) as [H1 H2]. destruct (IH H1) as [Hj Hi]. apply (always_does _ _ _ _ (receives _ _ _ Hj Hi H2) Hd Hl).
  - destruct (received_point _ _ _ Hl) as [H1 H2]. destruct (IH H1) as [Hj Hi]. apply (always_does _ _ _ _ (receives _ _ _ Hj Hi H2) Hd Hl).
  - destruct (received_point _ _ _ Hl) as [H1 H2]. destruct (IH H1) as [Hj Hi].
    destruct (always_does _ _ _ _ (receives _ _ _ Hj Hi H2) Hd Hl). by destruct k as [[]| | | | | | | |].
  - destruct (IH (H_prefix _ _ Hl)) as [Hj Hi]. by apply restarts.
Qed.

Lemma placed_always l p : placed l p → H l → J l.
Proof.
  induction 1 as [l t k Hr Hd|l s up Hr|l s i t k up Hr Hd|l up Hr|l delay Hr|l old delay Hr|l delay Hr|l p Hr _|l p Hr _|l p p' _ IH _ _]; intros Hl;
    try by destruct (rounds_always _ _ Hr Hl).
  - destruct (rounds_always _ _ Hr (H_prefix _ _ Hl)) as [Hj Hi]. apply (always_does _ _ _ _ (inits l Hj Hi) Hd Hl).
  - destruct (received_point _ _ _ Hl) as [H1 H2]. destruct (rounds_always _ _ Hr H1) as [Hj Hi].
    apply (always_does _ _ _ _ (receives _ _ _ Hj Hi H2) Hd Hl).
  - apply stops, IH. by eapply H_prefix.
Qed.
End Points.

(** [I] between the rounds. *)
Lemma rounds_ends (H : list Event → Prop) (I : list Event → Stage → Prop) l st :
  (∀ l l', H (l ++ l') → H l) → I [] Begins →
  (∀ l, I l Begins → ends (init act self) (λ t k, H (l ++ t) → from_option (I (l ++ t)) True (init_leads k))) →
  (∀ l s i, I l (Settled s) → H (l ++ [EReceived i]) →
     ends (receive act self i s) (λ t k, H (l ++ EReceived i :: t) → from_option (I (l ++ EReceived i :: t)) True (receive_leads k))) →
  (∀ l, I l Fails → H (l ++ [ERestarting]) → I (l ++ [ERestarting]) Begins) →
  rounds l st → H l → I l st.
Proof.
  intros Hpre Hstart Hinit Hrec Hfail.
  induction 1 as [|l t s _ IH Hd|l t k _ IH Hd Hf|l s i t s' _ IH Hd|l s i t _ IH Hd|l s i t k _ IH Hd Hf|l _ IH]; intros Hl; [done|..].
  - apply (ends_does _ _ _ _ (Hinit l (IH (Hpre _ _ Hl))) Hd eq_refl Hl).
  - pose proof (ends_does _ _ _ _ (Hinit l (IH (Hpre _ _ Hl))) Hd) as Hk. by destruct k as [[]| | | | | | | |]; try apply Hk.
  - destruct (received_point H Hpre _ _ _ Hl) as [H1 H2]. apply (ends_does _ _ _ _ (Hrec _ _ _ (IH H1) H2) Hd eq_refl Hl).
  - destruct (received_point H Hpre _ _ _ Hl) as [H1 H2]. apply (ends_does _ _ _ _ (Hrec _ _ _ (IH H1) H2) Hd eq_refl Hl).
  - destruct (received_point H Hpre _ _ _ Hl) as [H1 H2]. pose proof (ends_does _ _ _ _ (Hrec _ _ _ (IH H1) H2) Hd) as Hk.
    by destruct k as [[]| | | | | | | |]; try apply Hk.
  - apply Hfail; [apply IH; by eapply Hpre|done].
Qed.

(** Every event of a thread whose code does only what satisfies [P] does so, given what it receives. *)
Lemma placed_only (P : Event → Prop) (T : Stage → Prop) (good : Incoming M → Prop) l p :
  (∀ e, code_event e = false → P e) → T Begins → (T Fails → T Begins) →
  only P (λ k, from_option T True (init_leads k)) (init act self) →
  (∀ i s, good i → T (Settled s) → only P (λ k, from_option T True (receive_leads k)) (receive act self i s)) →
  placed l p → (∀ i, EReceived i ∈ l → good i) → Forall P l.
Proof.
  intros HP Hbegin Hfail Hinit Hrec Hpl.
  eapply (placed_always (λ l, ∀ i, EReceived i ∈ l → good i) (Forall P) (λ _, T)); [|by split| | | | |exact Hpl].
  - intros l1 l2 Hl i Hi. apply Hl, elem_of_app. by left.
  - intros l1 Hl _. eapply always_mono; [by apply only_always|]. intros t k [Ht Hk] _. split; [by apply Forall_app|].
    destruct k as [[]| | | | | | | |]; simpl in *; auto.
  - intros l1 s i Hl Hs Hi. eapply always_mono; [apply only_always, Hrec; [apply Hi, elem_of_app; right; by left|done]|].
    intros t k [Ht Hk] _. split; [apply Forall_app; split; [done|constructor; [by apply HP|done]]|].
    destruct k as [[[]|]| | | | | | | |]; simpl in *; auto.
  - intros l1 Hl Hf _. split; [|by apply Hfail]. apply Forall_app. split; [done|]. constructor; [by apply HP|done].
  - intros l1 Hl. apply Forall_app. split; [done|]. constructor; [by apply HP|done].
Qed.

(** Where a thread can be: between the rounds, in [init] or in a round, told to stop last if at all. *)
Inductive reached : list Event → Prop :=
  | reached_stage l st : rounds l st → reached l
  | reached_init l t k : rounds l Begins → does (init act self) t k → reached (l ++ t)
  | reached_round l s i t k : rounds l (Settled s) → does (receive act self i s) t k → reached (l ++ EReceived i :: t).

Lemma placed_reached l p : placed l p → ∃ l1 told, l = l1 ++ told ∧ reached l1 ∧ (told = [] ∨ told = [EStopped]).
Proof.
  assert (∀ l : list Event, reached l → ∃ l1 told, l = l1 ++ told ∧ reached l1 ∧ (told = [] ∨ told = [EStopped])) as Hin.
  { intros l0 Hl. exists l0, []. rewrite app_nil_r. auto. }
  induction 1 as [| | | | | | | | |l p p' Hp _ Hrun Hend]; try (apply Hin; by econstructor).
  exists l, [EStopped]. split; [done|]. split; [|by right].
  destruct Hp as [| | | | | | | | |l p0 p Hp Hrun' Hend']; try by econstructor. congruence.
Qed.

(** What is put together of what codes do. *)
Lemma placed_chunks (H : list Event → Prop) (C : list Event → Prop) l p :
  (∀ l l', H (l ++ l') → H l) → C [] → (∀ l l', C l → C l' → C (l ++ l')) → C [ERestarting] → C [EStopped] →
  (∀ t k, does (init act self) t k → C t) →
  (∀ l s i t k, rounds l (Settled s) → H (l ++ [EReceived i]) → does (receive act self i s) t k → C (EReceived i :: t)) →
  placed l p → H l → C l.
Proof.
  intros Hpre Hnil Happ Hre Hst Hinit Hrec (l1 & told & -> & Hl & Htold)%placed_reached HH.
  apply Happ; [|by destruct Htold as [->| ->]]. apply Hpre in HH. clear told Htold.
  assert (∀ l st, rounds l st → H l → C l) as Hrounds.
  { induction 1 as [|l t s _ IH Hd|l t k _ IH Hd Hf|l s i t s' Hr IH Hd|l s i t Hr IH Hd|l s i t k Hr IH Hd Hf|l _ IH]; intros Hl0; [done|..];
      try (apply Happ; [by eapply IH, Hpre|by eapply Hinit]);
      try (destruct (received_point H Hpre _ _ _ Hl0) as [H1 H2]; apply Happ; [by apply IH|by eapply Hrec]).
    apply Happ; [by eapply IH, Hpre|done]. }
  destruct Hl as [l st Hr|l t k Hr Hd|l s i t k Hr Hd].
  - by eapply Hrounds.
  - apply Happ; [by eapply Hrounds, Hpre|by eapply Hinit].
  - destruct (received_point H Hpre _ _ _ HH) as [H1 H2]. apply Happ; [by eapply Hrounds|by eapply Hrec].
Qed.

(** *** Before a round *)

Lemma does_code {R} (k k' : Handler R) l : does k l k' → Forall (λ e, code_event e = true) l.
Proof. induction 1 as [|k e k1 l k' Ha _ IH]; constructor; [|done]. by destruct Ha. Qed.

Lemma app_received l t l1 i l2 :
  Forall (λ e, code_event e = true) t → l ++ t = l1 ++ EReceived i :: l2 → ∃ l3, l = l1 ++ EReceived i :: l3.
Proof.
  intros Ht Heq. apply app_eq_inv in Heq as [(k & -> & Hk)|(k & -> & Hk)].
  - destruct k as [|e k]; simpl in Hk; [|simplify_eq; eauto]. subst t. by apply Forall_cons in Ht as [? _].
  - subst t. apply Forall_app in Ht as [_ Ht]. by apply Forall_cons in Ht as [? _].
Qed.

Lemma app_received_round l i' t l1 i l2 :
  Forall (λ e, code_event e = true) t → l ++ EReceived i' :: t = l1 ++ EReceived i :: l2 →
  l = l1 ∨ ∃ l3, l = l1 ++ EReceived i :: l3.
Proof.
  intros Ht Heq. change (EReceived i' :: t) with ([EReceived i' : Event] ++ t) in Heq. rewrite (assoc_L (++)) in Heq.
  apply app_received in Heq as [l3 Heq]; [|done]. destruct l3 as [|e l3 _] using rev_ind.
  - apply app_inj_tail in Heq as [-> _]. by left.
  - rewrite app_comm_cons, (assoc_L (++)) in Heq. apply app_inj_tail in Heq as [-> _]. right. eauto.
Qed.

(** Where nobody fails, nobody restarts. *)
Lemma rounds_never_restart (H : list Event → Prop) l st :
  (∀ l l', H (l ++ l') → H l) → (∀ l, H l → ¬ rounds l Fails) → rounds l st → H l → ERestarting ∉ l.
Proof.
  intros Hpre Hnever. assert (∀ R (k k' : Handler R) l, does k l k' → ERestarting ∉ l) as Hcode.
  { intros R k k' l0 Hd Hin. by pose proof (proj1 (Forall_forall _ _) (does_code _ _ _ Hd) _ Hin). }
  induction 1 as [|l t s _ IH Hd|l t k _ IH Hd Hf|l s i t s' _ IH Hd|l s i t _ IH Hd|l s i t k _ IH Hd Hf|l Hr _]; intros Hl;
    [by apply not_elem_of_nil|..|by destruct (Hnever l (Hpre _ _ Hl))];
    rewrite elem_of_app, ?elem_of_cons; specialize (IH (Hpre _ _ Hl)); pose proof (Hcode _ _ _ _ Hd); naive_solver.
Qed.

(** What is received is received between rounds. *)
Lemma rounds_before l st l1 i l2 : rounds l st → l = l1 ++ EReceived i :: l2 → ∃ s, rounds l1 (Settled s).
Proof.
  intros Hr. revert l1 l2.
  induction Hr as [|l t s _ IH Hd|l t k _ IH Hd Hf|l s i' t s' Hr IH Hd|l s i' t Hr IH Hd|l s i' t k Hr IH Hd Hf|l _ IH]; intros l1 l2 Heq.
  - by destruct l1.
  - apply app_received in Heq as [l3 ->]; [by eapply IH|by eapply does_code].
  - apply app_received in Heq as [l3 ->]; [by eapply IH|by eapply does_code].
  - apply app_received_round in Heq as [->|[l3 ->]]; [by exists s|by eapply IH|by eapply does_code].
  - apply app_received_round in Heq as [->|[l3 ->]]; [by exists s|by eapply IH|by eapply does_code].
  - apply app_received_round in Heq as [->|[l3 ->]]; [by exists s|by eapply IH|by eapply does_code].
  - destruct l2 as [|e l2 _] using rev_ind; [by apply app_inj_tail in Heq as [_ ?]|].
    rewrite app_comm_cons, (assoc_L (++)) in Heq. apply app_inj_tail in Heq as [-> _]. by eapply IH.
Qed.

Lemma placed_before l p l1 i l2 : placed l p → l = l1 ++ EReceived i :: l2 → ∃ s, rounds l1 (Settled s).
Proof.
  intros Hp. revert l1 l2.
  induction Hp as [l t k Hr Hd|l s up Hr|l s i' t k up Hr Hd|l up Hr|l delay Hr|l old delay Hr|l delay Hr|l p Hr _|l p Hr _|l p p' _ IH _ _];
    intros l1 l2 Heq; try by eapply rounds_before.
  - apply app_received in Heq as [l3 Heq]; [by eapply rounds_before|by eapply does_code].
  - apply app_received_round in Heq as [->|[l3 Heq]]; [by exists s|by eapply rounds_before|by eapply does_code].
  - destruct l2 as [|e l2 _] using rev_ind; [by apply app_inj_tail in Heq as [_ ?]|].
    rewrite app_comm_cons, (assoc_L (++)) in Heq. apply app_inj_tail in Heq as [-> _]. by eapply IH.
Qed.
End Thread.
End Rounds.

Section Programs.
Context {F : Flume} {FL : FlumeLaws F} {TW : TokioWatch} {TL : TokioWatchLaws TW}.
Context {TO : TokioOneshot} {TOL : TokioOneshotLaws TO}.
Context {M B S E : Type} {Rq : Type} {An : Rq → Type} {A : Runtime.Actor M B S E Rq An}.
#[local] Abbreviation World := (World (M:=M) (B:=B) (S:=S) (E:=E) (Rq:=Rq) (An:=An)).
#[local] Abbreviation Handler := (Handler (M:=M) (B:=B) (E:=E) (Rq:=Rq) (An:=An)).
#[local] Abbreviation Event := (Event (M:=M) (B:=B) (Rq:=Rq) (An:=An)).
#[local] Abbreviation Phase := (Phase (M:=M) (B:=B) (S:=S) (E:=E) (Rq:=Rq) (An:=An)).
#[local] Abbreviation Histories := (Histories (M:=M) (B:=B) (Rq:=Rq) (An:=An)).
#[local] Abbreviation Obs := (Obs (M:=M)).
Implicit Types (w : World) (a b : ActorId) (l : list Event) (p : Phase) (t u : list Obs) (h : Histories).

(** ** Typed code *)

(** Types: which actors there are, which of them may be spawned, what each may get and which states it has. *)
Section Typed.
Context (id : ActorId).
Context (who : ActorId → B → ActorConfig → Prop) (spawnable : B → ActorConfig → Prop).
Context (ok : ActorId → Incoming M → Prop) (typed : ActorId → B → S → Prop).

Definition known a : Prop := ∃ act config, who a act config.

(** What one event has to keep to. *)
Definition event_ok a (e : Event) : Prop :=
  match e with
  | EDid (ATell to m) | EDid (ATryTell _ to m _) => known (actor_id to) ∧ ok (actor_id to) (Message m)
  | EDid (ASpawn act config _) => spawnable act config
  | EDid (AWatch other) => known (actor_id other) ∧ ok a (Terminated (actor_id other))
  | _ => True
  end.

(** Code which keeps to the types, ending in what satisfies [post]. *)
Fixpoint keeps a {R} (post : R → Prop) (k : Handler R) : Prop :=
  match k with
  | HReturn (Ok r) => post r
  | HReturn (Err _) | HPanic => True
  | HTell to m k => (known (actor_id to) ∧ ok (actor_id to) (Message m)) ∧ keeps a post k
  | HTryTell _ to m k => (known (actor_id to) ∧ ok (actor_id to) (Message m)) ∧ ∀ sent : bool, keeps a post (k sent)
  | HNow k => ∀ now, keeps a post (k now)
  | HSpawn act config k => spawnable act config ∧ ∀ child, who (actor_id child) act config → keeps a post (k child)
  | HWatch other k => (known (actor_id other) ∧ ok a (Terminated (actor_id other))) ∧ keeps a post k
  | HUnwatch _ k => keeps a post k
  | HAwait q k => ∀ answer, keeps a post (k answer)
  end.

(** The children in a history are as [who] has them. *)
Definition children_known l : Prop :=
  ∀ act config child, EDid (ASpawn act config child) ∈ l → actor_id child ≠ id ∧ who (actor_id child) act config.

Lemma children_known_app l l' : children_known (l ++ l') ↔ children_known l ∧ children_known l'.
Proof.
  unfold children_known. setoid_rewrite elem_of_app. naive_solver.
Qed.

Lemma keeps_does a {R} (post : R → Prop) (k k' : Handler R) l :
  does k l k' → keeps a post k → children_known l → Forall (event_ok a) l ∧ keeps a post k'.
Proof.
  induction 1 as [k|k e k1 l k' Ha _ IH]; intros Hk Hkids; [done|].
  change (e :: l) with ([e] ++ l) in Hkids. apply children_known_app in Hkids as [He Hkids].
  assert (event_ok a e ∧ keeps a post k1) as [? Hk1]; [|destruct (IH Hk1 Hkids); auto].
  destruct k; apply acts_inv in Ha; simpl in Ha; open_all; subst; simpl in *; try done; try (destruct Hk; eauto).
  split; [done|]. match goal with H : ∀ child, _ → keeps _ _ _ |- _ => apply H end.
  apply (He _ _ _ (list_elem_of_here _ _)).
Qed.

(** The code of an actor keeps to the types. *)
Definition typed_actor : Prop := ∀ a act config, who a act config →
  keeps a (typed a act) (init act (mk_ref a)) ∧
  ∀ i s, ok a i → typed a act s →
    keeps a (λ c, match c with Continue s' => typed a act s' | Actor.Stop => True end) (receive act (mk_ref a) i s).

Definition gets_ok a l : Prop := ∀ i, EReceived i ∈ l → ok a i.
Lemma gets_ok_app a l l' : gets_ok a (l ++ l') ↔ gets_ok a l ∧ gets_ok a l'.
Proof. unfold gets_ok. setoid_rewrite elem_of_app. naive_solver. Qed.

Context (code : typed_actor).

Lemma typed_rounds a act config l st :
  who a act config → rounds act (mk_ref a) l st → gets_ok a l → children_known l →
  Forall (event_ok a) l ∧ match st with Settled s => typed a act s | _ => True end.
Proof.
  intros Hwho. destruct (code _ _ _ Hwho) as [Hinit Hrec].
  assert (∀ l s i k (t : list Event), Forall (event_ok a) l ∧ typed a act s → does (receive act (mk_ref a) i s) t k →
      gets_ok a (EReceived i :: t) → children_known t → Forall (event_ok a) (l ++ EReceived i :: t) ∧
      keeps a (λ c, match c with Continue s' => typed a act s' | Actor.Stop => True end) k) as Hround.
  { intros l0 s i k t [Hl Hs] Hd Hget Hkids. destruct (keeps_does _ _ _ _ _ Hd (Hrec i s (Hget _ (list_elem_of_here _ _)) Hs) Hkids).
    split; [|done]. apply Forall_app. split; [done|]. by constructor. }
  induction 1 as [|l t s _ IH Hd|l t k _ IH Hd Hf|l s i t s' _ IH Hd|l s i t _ IH Hd|l s i t k _ IH Hd Hf|l _ IH]; [done|..];
    intros [Hg Hg']%gets_ok_app [Hk Hk']%children_known_app; specialize (IH Hg Hk).
  - destruct (keeps_does _ _ _ _ _ Hd Hinit Hk'). split; [apply Forall_app; naive_solver|done].
  - destruct (keeps_does _ _ _ _ _ Hd Hinit Hk'). split; [apply Forall_app; naive_solver|done].
  - apply (children_known_app [_]) in Hk' as [_ Hk']. by apply (Hround _ _ _ _ _ IH Hd).
  - apply (children_known_app [_]) in Hk' as [_ Hk']. split; [|done]. by apply (Hround _ _ _ _ _ IH Hd).
  - apply (children_known_app [_]) in Hk' as [_ Hk']. split; [|done]. by apply (Hround _ _ _ _ _ IH Hd).
  - split; [|done]. apply Forall_app. split; [apply IH|]. by constructor.
Qed.

(** What is left of the current code keeps to the types as well. *)
Definition typed_phase a act p : Prop :=
  match p with
  | Initializing k => keeps a (typed a act) k
  | NextIncoming s _ => typed a act s
  | Receiving k _ => keeps a (λ c, match c with Continue s' => typed a act s' | Actor.Stop => True end) k
  | _ => True
  end.

Lemma typed_thread a act config l p :
  who a act config → placed act (mk_ref a) l p → gets_ok a l → children_known l → Forall (event_ok a) l ∧ typed_phase a act p.
Proof.
  intros Hwho. destruct (code _ _ _ Hwho) as [Hinit Hrec].
  induction 1 as [l t k Hr Hd|l s up Hr|l s i t k up Hr Hd|l up Hr|l delay Hr|l old delay Hr|l delay Hr|l p Hr Hend|l p Hr Hend|l p p' _ IH Hrun Hend];
    try (intros Hg Hk; destruct (typed_rounds _ _ _ _ _ Hwho Hr Hg Hk) as [? ?]; split; [done|]; try done; by destruct p).
  - intros [Hg Hg']%gets_ok_app [Hk Hk']%children_known_app. destruct (typed_rounds _ _ _ _ _ Hwho Hr Hg Hk) as [? _].
    destruct (keeps_does _ _ _ _ _ Hd Hinit Hk'). split; [by apply Forall_app|done].
  - intros [Hg Hg']%gets_ok_app [Hk Hk']%children_known_app. destruct (typed_rounds _ _ _ _ _ Hwho Hr Hg Hk) as [? Hs].
    apply (children_known_app [_]) in Hk' as [_ Hk'].
    destruct (keeps_does _ _ _ _ _ Hd (Hrec i s (Hg' _ (list_elem_of_here _ _)) Hs) Hk').
    split; [|done]. apply Forall_app. split; [done|]. by constructor.
  - intros [Hg _]%gets_ok_app [Hk _]%children_known_app. destruct (IH Hg Hk). split; [|by destruct p'].
    apply Forall_app. split; [done|]. by constructor.
Qed.
End Typed.

(** *** The types of a run *)

(** The cast of a world. *)
Definition cast w a (act : B) (config : ActorConfig) : Prop :=
  ∃ k, tasks w !! a = Some k ∧ t_actor k = act ∧ t_config k = config.

Lemma cast_known w a : known (cast w) a ↔ is_Some (cells w !! a).
Proof.
  split.
  - intros (act & config & k & Hk & _). apply tasks_lookup in Hk as (c & Hc & _). eauto.
  - intros [c Hc%lookup_tasks]. eexists _, _, _. eauto.
Qed.

Lemma cast_agrees w a act act' config config' : cast w a act config → cast w a act' config' → act = act' ∧ config = config'.
Proof. intros (k & Hk & <- & <-) (k' & Hk' & <- & <-). by simplify_eq. Qed.

Section Run.
Context (id wid : ActorId) (act0 : B) (config0 : ActorConfig) (ids : id ≠ wid).
Context (allowed : Label (M:=M) (An:=An) → Prop).
#[local] Abbreviation new := (system_new id wid act0 config0).
Context w t h (Hr : runs allowed new w t h).
Context (spawnable : B → ActorConfig → Prop) (ok : ActorId → Incoming M → Prop) (typed : ActorId → B → S → Prop).

Lemma typed_behaves : typed_actor (cast w) spawnable ok typed → well_behaved id (cast w) ok (cast w).
Proof.
  intros Hcode a act config l p Hwho Hth Hgets Hkids.
  destruct (typed_thread id _ _ _ _ Hcode _ _ _ _ _ Hwho (thread_placed _ _ _ _ Hth) Hgets Hkids) as [Hev _].
  rewrite Forall_forall in Hev. split_and!.
  - intros act' config' child Hin. by apply Hkids.
  - intros to m (e & He & Heq)%list_elem_of_omap. specialize (Hev _ He).
    destruct e as [|[| ? ? ? []| | | |]| | |]; simplify_eq/=; naive_solver.
  - intros b (e & He & Heq)%list_elem_of_omap. specialize (Hev _ He).
    destruct e as [|[| ? ? ? []| | | |]| | |]; simplify_eq/=; naive_solver.
Qed.

(** What typed programs get, do and are about to do. *)
Record well_typed : Prop := {
  wt_cast : ∀ a k, tasks w !! a = Some k → a = id ∧ t_actor k = act0 ∧ t_config k = config0 ∨ a ≠ id ∧ spawnable (t_actor k) (t_config k);
  wt_placed : ∀ a k, tasks w !! a = Some k → placed (t_actor k) (mk_ref a) (h a) (t_phase k);
  wt_gets : ∀ a, gets_ok ok a (h a);
  wt_kids : ∀ a, children_known id (cast w) (h a);
  wt_events : ∀ a, Forall (event_ok (cast w) spawnable ok a) (h a);
  wt_phase : ∀ a k, tasks w !! a = Some k → typed_phase (cast w) spawnable ok typed a (t_actor k) (t_phase k);
}.

Lemma runs_typed :
  (∀ to m, allowed (LTell to m) → ok (actor_id to) (Message m)) → typed_actor (cast w) spawnable ok typed → well_typed.
Proof.
  intros Hout Hcode. pose proof (runs_threads _ _ _ _ ids _ _ _ _ Hr) as Hth.
  assert (cast_is (cast w) w) as Hcast by (intros a k Ha; by exists k).
  assert (protocol_inv (cast w) ok w t h) as [_ Hgets _].
  { eapply (runs_protocol id wid act0 config0 ids); [exact Hout| |by apply typed_behaves|exact Hr|done].
    destruct (th_root _ _ _ _ _ _ Hth) as [p Hp]. by exists (mk_task act0 config0 SystemKey p). }
  assert (∀ a, children_known id (cast w) (h a)) as Hkids.
  { intros a act config child Hin. by apply (children_cast id act0 config0 (cast w) w t h a). }
  assert (∀ a k, tasks w !! a = Some k → placed (t_actor k) (mk_ref a) (h a) (t_phase k)) as Hplaced.
  { intros a k Ha. apply thread_placed, (th_runs _ _ _ _ _ _ Hth _ _ Ha). }
  assert (∀ a k, tasks w !! a = Some k → Forall (event_ok (cast w) spawnable ok a) (h a) ∧
            typed_phase (cast w) spawnable ok typed a (t_actor k) (t_phase k)) as Htyped.
  { intros a k Ha. eapply typed_thread; [done|by apply Hcast|by apply Hplaced|by intros ?; apply Hgets|done]. }
  assert (∀ a, Forall (event_ok (cast w) spawnable ok a) (h a)) as Hev.
  { intros a. destruct (tasks w !! a) as [k|] eqn:Ha; [by eapply Htyped|]. by rewrite (th_fresh _ _ _ _ _ _ Hth _ Ha). }
  split; [|done|by intros a i; apply Hgets|done|done|by intros a k Ha; apply Htyped].
  intros a k Ha. destruct (decide (a = id)) as [->|Hne].
  - left. destruct (th_root _ _ _ _ _ _ Hth) as [p Hp]. by simplify_eq.
  - right. split; [done|]. destruct (th_spawned _ _ _ _ _ _ Hth _ _ Ha Hne) as (b & g & Hin & _).
    exact (proj1 (Forall_forall _ _) (Hev b) _ Hin).
Qed.

(** Typed programs act on actors there are. *)
Lemma typed_references : well_typed → references_ok w.
Proof.
  intros [_ _ _ _ _ Hphase] a c r Hc Href. specialize (Hphase _ _ (lookup_tasks _ _ _ Hc)). simpl in Hphase.
  rewrite <-cast_known. destruct (phase c) as [k| |k| | | | | |]; simpl in *; try done; destruct k; simplify_eq/=; naive_solver.
Qed.
End Run.

(** C12. Types are preserved. If, whoever there is, the code of every actor keeps to types, which say whom it may spawn, what
    it may tell whom and what it has to expect for whom it watches, and what is told from outside does so too, then
    in every interleaving every actor is the root or one which may be spawned, every actor only ever receives
    what its type has, its state and what is left of its code are of its type, and its code acts on references of
    actors there are only. *)
Theorem typed_programs_stay_typed (id wid : ActorId) (act0 : B) (config0 : ActorConfig) ls w t
    (allowed : Label (M:=M) (An:=An) → Prop) (spawnable : B → ActorConfig → Prop)
    (ok : (ActorId → B → ActorConfig → Prop) → ActorId → Incoming M → Prop)
    (typed : (ActorId → B → ActorConfig → Prop) → ActorId → B → S → Prop) :
  id ≠ wid → exec ls (system_new id wid act0 config0) = Some (w, t) → Forall allowed ls →
  (∀ who : ActorId → B → ActorConfig → Prop,
     (∀ a act act' config config', who a act config → who a act' config' → act = act') →
     typed_actor who spawnable (ok who) (typed who)) →
  (∀ to m, allowed (LTell to m) → ok (cast w) (actor_id to) (Message m)) →
  ∀ a c, cells w !! a = Some c →
    (a = id ∧ actor c = act0 ∧ config c = config0 ∨ a ≠ id ∧ spawnable (actor c) (config c)) ∧
    (∀ i, OReceived a i ∈ t → ok (cast w) a i) ∧
    typed_phase (cast w) spawnable (ok (cast w)) (typed (cast w)) a (actor c) (phase c) ∧
    (∀ r, reference (phase c) = Some r → is_Some (cells w !! actor_id r)).
Proof.
  intros ids He Hall Hcode Hout a c Hc. destruct (exec_runs id wid act0 config0 ids allowed ls w t He Hall) as [h Hr].
  assert (well_typed id act0 config0 w h spawnable (ok (cast w)) (typed (cast w))) as Hwt.
  { eapply (runs_typed id wid act0 config0 ids allowed w t h Hr); [done|]. apply Hcode.
    intros b act act' config config' (k & Hk & <- & _) (k' & Hk' & <- & _). by simplify_eq. }
  pose proof (lookup_tasks _ _ _ Hc) as Hk. split_and!.
  - exact (wt_cast _ _ _ _ _ _ _ _ Hwt _ _ Hk).
  - intros i Hi%own_received. rewrite <-(runs_history _ _ _ _ ids _ _ _ _ Hr), seen_received in Hi. by apply (wt_gets _ _ _ _ _ _ _ _ Hwt).
  - exact (wt_phase _ _ _ _ _ _ _ _ Hwt _ _ Hk).
  - intros r. exact (typed_references id wid act0 config0 ids w h _ _ _ Hwt a c r Hc).
Qed.

(** ** Watches in a history *)

Definition watch_event b (s : bool) (e : Event) : bool :=
  match e with
  | EDid (AWatch x) => if decide (actor_id x = b) then true else s
  | EDid (AUnwatch x) => if decide (actor_id x = b) then false else s
  | EReceived (Terminated x) => if decide (x = b) then false else s
  | _ => s
  end.

(** Whether [b] is watched after [l]. *)
Definition watches_now b l : bool := foldl (watch_event b) false l.

Lemma watches_now_app b l l' : watches_now b (l ++ l') = foldl (watch_event b) (watches_now b l) l'.
Proof. apply foldl_app. Qed.

Definition watch_seen b (s : bool) (x : Seen (M:=M)) : bool :=
  match x with
  | SWatched y => if decide (y = b) then true else s
  | SUnwatched y => if decide (y = b) then false else s
  | SReceived (Terminated y) => if decide (y = b) then false else s
  | _ => s
  end.

Lemma watches_now_seen b l : watches_now b l = foldl (watch_seen b) false (omap seen l).
Proof.
  unfold watches_now. generalize false as s. induction l as [|e l IH]; intros s; [done|]. simpl.
  rewrite IH. by destruct e as [[]|[| ? ? ? []| | | |]| | |].
Qed.

Lemma watching_seen a b t : watching a b t = foldl (watch_seen b) false (own a t).
Proof.
  unfold watching, watching_from. generalize false as s. induction t as [|e t IH]; intros s; [done|].
  change (e :: t) with ([e] ++ t). rewrite own_app, !foldl_app. rewrite <-IH. f_equal. unfold own.
  destruct e as [[] ? []|[] ? ? ?|x [m|y]| | |x y|x y| | | |]; simpl; repeat (case_decide; simpl); try done; naive_solver.
Qed.

Lemma watches_now_history a b l t : omap seen l = own a t → watches_now b l = watching a b t.
Proof. intros Hown. by rewrite watches_now_seen, watching_seen, Hown. Qed.

(** Where in a trace something shows. *)
Lemma omap_split {X Y} (f : X → option Y) (l : list X) (l1 : list Y) y (l2 : list Y) :
  omap f l = l1 ++ y :: l2 → ∃ i x, l !! i = Some x ∧ f x = Some y ∧ omap f (take i l) = l1.
Proof.
  revert l1. induction l as [|x l IH]; intros l1 Heq; [by destruct l1|]. simpl in Heq. destruct (f x) as [y'|] eqn:Hx.
  - destruct l1 as [|y0 l1]; simplify_eq/=; [by exists 0%nat, x|].
    destruct (IH l1) as (i & x0 & Hi & Hy & Hl); [done|]. exists (Datatypes.S i), x0. split_and!; [done..|]. simpl. rewrite Hx. f_equal. exact Hl.
  - destruct (IH l1 Heq) as (i & x0 & Hi & Hy & Hl). exists (Datatypes.S i), x0. split_and!; [done..|]. simpl. rewrite Hx. exact Hl.
Qed.

Lemma told_sends (r : ActorRef) m l : EDid (ATell r m) ∈ l → m ∈ sends (actor_id r) l.
Proof. intros Hin. unfold sends. apply list_elem_of_omap. eexists. split; [exact Hin|]. simpl. by rewrite decide_True. Qed.

Lemma elem_of_messages (m : M) (ins : list (Incoming M)) : m ∈ messages ins ↔ Message m ∈ ins.
Proof.
  unfold messages. rewrite list_elem_of_omap. split; [|by exists (Message m)].
  intros ([m'|b] & Hin & Heq); by simplify_eq/=.
Qed.
Lemma elem_of_incomings i l : i ∈ incomings l ↔ EReceived i ∈ l.
Proof.
  unfold incomings. rewrite list_elem_of_omap. split; [|by exists (EReceived i)].
  intros (e & Hin & Heq). destruct e; by simplify_eq/=.
Qed.

Section Histories.
Context (id wid : ActorId) (act0 : B) (config0 : ActorConfig) (ids : id ≠ wid).
Context (allowed : Label (M:=M) (An:=An) → Prop).
#[local] Abbreviation new := (system_new id wid act0 config0).

(** While an actor runs, it has received what was taken out of its mailbox. *)
Lemma received_all w t h a c :
  runs allowed new w t h → cells w !! a = Some c → running (phase c) = true → messages (incomings (h a)) = messages (dequeued a t).
Proof.
  intros Hr Hc Hrun. destruct (runs_ends _ _ _ _ ids _ _ _ _ Hr) as (_ & _ & Hends).
  apply (incomings_dequeued a t (h a)); [apply (runs_history _ _ _ _ ids _ _ _ _ Hr)|].
  intros l Hl. destruct (en_drained _ _ Hends _ _ Hl) as (c' & Hc' & Hend). simplify_eq. congruence.
Qed.

(** A signal is received while its actor is watched. *)
Lemma received_while_watching w t h a b l1 l2 :
  runs allowed new w t h → h a = l1 ++ EReceived (Terminated b) :: l2 → watches_now b l1 = true.
Proof.
  intros Hr Hl. pose proof (runs_history _ _ _ _ ids _ _ _ _ Hr a) as Hown. rewrite Hl, omap_app in Hown. simpl in Hown.
  symmetry in Hown. destruct (omap_split _ _ _ _ _ Hown) as (i & o & Hi & Ho & Htake).
  assert (o = OReceived a (Terminated b)) as ->.
  { destruct o as [[] ? []|[] ? ? ?| | | | | | | | |]; simplify_eq/=; case_decide; by simplify_eq. }
  rewrite (watches_now_history a b l1 (take i t)) by done.
  destruct (runs_ends _ _ _ _ ids _ _ _ _ Hr) as (Htr & _ & _). by apply (tr_contract _ _ Htr).
Qed.

(** What a terminated actor has sent was received before its signal. *)
Lemma signals_settle w t h a b m l1 l2 :
  runs allowed new w t h → (∀ k, tasks w !! a = Some k → mailbox_capacity (t_config k) = Unbounded) →
  h a = l1 ++ EReceived (Terminated b) :: l2 → m ∈ sends a (h b) → EReceived (Message m) ∈ l1.
Proof.
  intros Hr. revert l1 l2. induction Hr as [|w t h x e w' u ev p' Hr IH Hal Hs Hadv|w t h l w' u Hr IH Hal Hs Ht Hu];
    intros l1 l2 Hcap Hl Hm; [by destruct l1| |by eapply IH; [by rewrite <-Ht|..]].
  pose proof (runs_task _ _ _ _ _ _ _ _ _ _ _ Hr Hal Hs Hadv) as Hr'.
  destruct (advances_tasks _ _ _ _ _ _ Hadv) as (k & Hk & Hstep & _ & _ & Hkeep & Hx & _).
  assert (∀ k, tasks w !! a = Some k → mailbox_capacity (t_config k) = Unbounded) as Hcap0.
  { intros k' Ha. destruct (decide (a = x)) as [->|]; [simplify_eq; apply (Hcap _ Hx)|by apply Hcap, Hkeep]. }
  assert (∀ l1 l2, h a = l1 ++ EReceived (Terminated b) :: l2 → EReceived (Message m) ∈ l1) as Hbefore.
  { intros l3 l4 Hl'. apply (IH l3 l4 Hcap0 Hl'). unfold happened in Hm. case_decide as Hbx; [subst x|done].
    rewrite sends_app, elem_of_app in Hm. destruct Hm as [Hm|Hm]; [done|]. exfalso.
    assert (OReceived a (Terminated b) ∈ t) as [i Hi]%list_elem_of_lookup.
    { apply (signal_in_trace id wid _ _ ids allowed w t h Hr). rewrite Hl', incomings_app, signals_app. apply elem_of_app. right. by left. }
    destruct (runs_ends _ _ _ _ ids _ _ _ _ Hr) as (Htr & _ & _).
    destruct (signal_order _ _ _ _ _ Htr Hi) as [_ (c & Hc & Hcl)]. rewrite (lookup_tasks _ _ _ Hc) in Hk. simplify_eq. simpl in Hstep.
    destruct (ended_step _ _ _ _ _ Hstep) as [-> _]; [by destruct (phase c) as [| | | | | | |[]|]|by apply elem_of_nil in Hm]. }
  destruct (decide (a = x)) as [->|Hne]; [|rewrite happened_other in Hl by done; by eapply Hbefore].
  rewrite happened_self in Hl. destruct ev as [|e1 ev]; [rewrite app_nil_r in Hl; by eapply Hbefore|].
  assert (ev = []) as -> by by inversion Hstep.
  destruct l2 as [|y l2 _] using rev_ind; last first.
  { apply (Hbefore l1 l2). rewrite app_comm_cons, (assoc_L (++)) in Hl. by apply app_inj_tail in Hl as [? _]. }
  apply app_inj_tail in Hl as [Hl ->]. simpl in Hx. pose proof Hx as Hx'. apply tasks_lookup in Hx' as (c & Hc & Hck).
  assert (running (phase c) = true) as Hrun by (apply (f_equal t_phase) in Hck; simpl in Hck; rewrite Hck; by inversion Hstep).
  destruct (runs_ends _ _ _ _ ids _ _ _ _ Hr') as (Htr & _ & Hends).
  assert (Message m ∈ dequeued x (t ++ u)) as Hin.
  { rewrite <-(taken_dequeued w' (t ++ u) x c) by done. apply list_elem_of_fmap. exists (FromActor b, Message m).
    split; [done|]. apply elem_of_with_sources. eapply (signal_settles w' _ x b c); [done..| | | |exact Hm].
    - apply (f_equal t_config) in Hck. simpl in Hck. rewrite Hck. apply (Hcap _ Hx).
    - apply (runs_history _ _ _ _ ids _ _ _ _ Hr').
    - apply (signal_in_trace id wid _ _ ids allowed _ _ _ Hr'). rewrite happened_self, incomings_app, signals_app.
      apply elem_of_app. right. by left. }
  apply elem_of_messages in Hin. rewrite <-(received_all _ _ _ x c Hr') in Hin by done.
  rewrite happened_self, incomings_app, messages_app, app_nil_r in Hin. subst l1. by apply elem_of_incomings, elem_of_messages.
Qed.

(** What has happened to an actor so far had happened in an earlier world. *)
Lemma runs_before w0 w t h a l1 l2 :
  runs allowed w0 w t h → h a = l1 ++ l2 →
  ∃ w1 t1 h1, runs allowed w0 w1 t1 h1 ∧ h1 a = l1 ∧
    (∀ b act config, cast w1 b act config → cast w b act config) ∧ ∀ b, ∃ l, h b = h1 b ++ l.
Proof.
  intros Hr. revert l1 l2. induction Hr as [|w t h x e w' u ev p' Hr IH Hal Hs Hadv|w t h lb w' u Hr IH Hal Hs Ht Hu]; intros l1 l2 Hl.
  - symmetry in Hl. apply app_nil in Hl as [-> ->]. exists w0, [], no_histories. split_and!; [constructor|done..|]. intros b. by exists [].
  - pose proof (runs_task _ _ _ _ _ _ _ _ _ _ _ Hr Hal Hs Hadv) as Hr'.
    destruct (advances_tasks _ _ _ _ _ _ Hadv) as (k & Hk & Hstep & _ & _ & Hkeep & Hx & _).
    assert ((∃ l3, h a = l1 ++ l3) → ∃ w1 t1 h1, runs allowed w0 w1 t1 h1 ∧ h1 a = l1 ∧
      (∀ b act config, cast w1 b act config → cast w' b act config) ∧ ∀ b, ∃ l, happened x ev h b = h1 b ++ l) as Hbefore.
    { intros [l3 Hl3]. destruct (IH _ _ Hl3) as (w1 & t1 & h1 & Hr1 & Ha & Hcast & Hpre). exists w1, t1, h1. split_and!; [done..| |].
      - intros b act config (k' & Hk' & <- & <-)%Hcast. destruct (decide (b = x)) as [->|Hne].
        + simplify_eq. eexists. by split_and!.
        + exists k'. split_and!; [|done..]. by apply Hkeep.
      - intros b. destruct (Hpre b) as [l Hb]. destruct (decide (b = x)) as [->|Hne].
        + rewrite happened_self, Hb, <-(assoc_L (++)). eauto.
        + rewrite happened_other by done. eauto. }
    destruct l2 as [|y l2 _] using rev_ind.
    + rewrite app_nil_r in Hl. exists w', (t ++ u), (happened x ev h). split_and!; [done..|]. intros b. exists []. by rewrite app_nil_r.
    + apply Hbefore. destruct (decide (a = x)) as [->|Hne]; [|rewrite happened_other in Hl by done; eauto].
      rewrite happened_self in Hl. assert (ev = [] ∨ ∃ e1, ev = [e1]) as [->|[e1 ->]] by (inversion Hstep; eauto).
      * rewrite app_nil_r in Hl. eauto.
      * rewrite (assoc_L (++)) in Hl. apply app_inj_tail in Hl as [Hl _]. eauto.
  - destruct (IH _ _ Hl) as (w1 & t1 & h1 & Hr1 & Ha & Hcast & Hpre). exists w1, t1, h1. split_and!; [done..| |done].
    intros b act config (k & Hk & ?)%Hcast. exists k. by rewrite Ht.
Qed.

(** Whoever receives is running then; and whoever has ended does nothing any more. *)
Lemma received_running w0 w t h a l1 i l2 :
  runs allowed w0 w t h → h a = l1 ++ EReceived i :: l2 →
  ∃ w1 t1 h1 k, runs allowed w0 w1 t1 h1 ∧ h1 a = l1 ++ [EReceived i] ∧ tasks w1 !! a = Some k ∧ running (t_phase k) = true ∧
    ∀ b k', tasks w1 !! b = Some k' → running (t_phase k') = false →
      h b = h1 b ∧ ∃ k'', tasks w !! b = Some k'' ∧ running (t_phase k'') = false.
Proof.
  intros Hr. revert l2. induction Hr as [|w t h x e w' u ev p' Hr IH Hal Hs Hadv|w t h lb w' u Hr IH Hal Hs Ht Hu]; intros l2 Hl.
  - by destruct l1.
  - pose proof (runs_task _ _ _ _ _ _ _ _ _ _ _ Hr Hal Hs Hadv) as Hr'.
    destruct (advances_tasks _ _ _ _ _ _ Hadv) as (k & Hk & Hstep & _ & _ & Hkeep & Hx & _).
    assert ((∃ l3, h a = l1 ++ EReceived i :: l3) → ∃ w1 t1 h1 k, runs allowed w0 w1 t1 h1 ∧ h1 a = l1 ++ [EReceived i] ∧
      tasks w1 !! a = Some k ∧ running (t_phase k) = true ∧ ∀ b k', tasks w1 !! b = Some k' → running (t_phase k') = false →
        happened x ev h b = h1 b ∧ ∃ k'', tasks w' !! b = Some k'' ∧ running (t_phase k'') = false) as Hbefore.
    { intros [l3 Hl3]. destruct (IH _ Hl3) as (w1 & t1 & h1 & k1 & Hr1 & Ha & Hk1 & Hrun & Hend). exists w1, t1, h1, k1.
      split_and!; [done..|]. intros b k' Hk' Hstop. destruct (Hend _ _ Hk' Hstop) as (Hb & k'' & Hk'' & Hstop').
      destruct (decide (b = x)) as [->|Hne].
      - simplify_eq. destruct (ended_step _ _ _ _ _ Hstep Hstop') as [-> Hp']. rewrite happened_self, app_nil_r. eauto.
      - rewrite happened_other by done. split; [done|]. exists k''. split; [by apply Hkeep|done]. }
    destruct (decide (a = x)) as [->|Hne]; [|rewrite happened_other in Hl by done; eauto].
    rewrite happened_self in Hl. destruct ev as [|e1 ev]; [rewrite app_nil_r in Hl; eauto|].
    assert (ev = []) as -> by by inversion Hstep. destruct l2 as [|y l2 _] using rev_ind.
    + exists w', (t ++ u), (happened x [e1] h), (at_phase k p'). apply app_inj_tail in Hl as [Hl ->].
      split_and!; [done|by rewrite happened_self, Hl|done|by inversion Hstep|]. eauto.
    + rewrite app_comm_cons, (assoc_L (++)) in Hl. apply app_inj_tail in Hl as [Hl _]. eauto.
  - destruct (IH _ Hl) as (w1 & t1 & h1 & k1 & Hr1 & Ha & Hk1 & Hrun & Hend). exists w1, t1, h1, k1.
    split_and!; [done..|]. intros b k' Hk' Hstop. rewrite Ht. by eapply Hend.
Qed.

(** Without dead letters what was sent has been enqueued. *)
Lemma enqueued_all a b t l :
  omap seen l = own b t → (∀ m e, ODeadLetter (FromActor b) a m e ∉ t) →
  (filter (λ x, x.1 = FromActor b) (with_sources (enqueued a t))).*2 = sends a l.
Proof.
  intros Hown. rewrite sends_own, Hown. clear Hown. induction t as [|e t IH]; intros Hdead; [done|]. change (e :: t) with ([e] ++ t).
  rewrite enqueued_app, own_app, with_sources_app, filter_app, fmap_app, omap_app.
  rewrite IH; [|intros m er Hin; apply (Hdead m er); by right]. f_equal. unfold enqueued, own.
  destruct e as [[x|] to [m|y]|[x|] to m er| | | | | | | | |]; simpl; repeat (case_decide; simpl); try done;
    try (rewrite filter_cons; simpl; case_decide; simplify_eq; done).
  subst. by destruct (Hdead m er); left.
Qed.

(** What is told to an unbounded mailbox by one actor only is received in this order, without gaps. *)
Lemma running_prefix w t h a b c :
  runs allowed new w t h → cells w !! a = Some c → running (phase c) = true → mailbox_capacity (config c) = Unbounded →
  (∀ to m, ¬ allowed (LTell to m)) → (∀ x m, m ∈ sends a (h x) → x = b) →
  messages (incomings (h a)) `prefix_of` sends a (h b).
Proof.
  intros Hr Hc Hrun Hcap Hout Hsend. pose proof (λ x, runs_history _ _ _ _ ids _ _ _ _ Hr x) as Hown.
  destruct (runs_ends _ _ _ _ ids _ _ _ _ Hr) as (Htr & _ & Hends).
  rewrite (received_all w t h a c Hr Hc Hrun), <-(enqueued_all a b t (h b) (Hown b)); last first.
  { intros m er [i Hi]%list_elem_of_lookup. destruct (en_dead _ _ Hends _ _ _ _ _ Hi) as (c' & Hc' & Hfull). simplify_eq.
    destruct (Hfull Hrun) as (n & Hn & _); [by rewrite Hcap|congruence]. }
  assert (filter (λ x, x.1 = FromActor b) (with_sources (enqueued a t)) = with_sources (enqueued a t)) as ->.
  { apply filter_all. intros [src m] Hin%elem_of_with_sources. simpl. destruct src as [x|].
    - f_equal. apply (Hsend x m). apply elem_of_sends. rewrite Hown. by apply enqueued_own.
    - by destruct (runs_sources allowed new w t h a FromOutside m (λ to, Hout to m) Hr Hin). }
  rewrite with_sources_messages, (tr_fifo _ _ Htr _ _ Hc), messages_app. by apply prefix_app_r.
Qed.

Lemma received_prefix w t h a b :
  runs allowed new w t h → (∀ k, tasks w !! a = Some k → mailbox_capacity (t_config k) = Unbounded) →
  (∀ to m, ¬ allowed (LTell to m)) → (∀ x m, m ∈ sends a (h x) → x = b) →
  messages (incomings (h a)) `prefix_of` sends a (h b).
Proof.
  intros Hr Hcap Hout.
  induction Hr as [|w t h x e w' u ev p' Hr IH Hal Hs Hadv|w t h lb w' u Hr IH Hal Hs Ht Hu]; intros Hsend; [apply prefix_nil| |apply IH; [by rewrite <-Ht|done]].
  pose proof (runs_task _ _ _ _ _ _ _ _ _ _ _ Hr Hal Hs Hadv) as Hr'.
  destruct (advances_tasks _ _ _ _ _ _ Hadv) as (k & Hk & Hstep & _ & _ & Hkeep & Hx & _).
  assert (∀ y, sends a (h y) `prefix_of` sends a (happened x ev h y)) as Hmono.
  { intros y. unfold happened. case_decide; [rewrite sends_app; by apply prefix_app_r|done]. }
  assert (messages (incomings (h a)) `prefix_of` sends a (h b)) as Hbefore.
  { apply IH.
    - intros k' Hk'. destruct (decide (a = x)) as [->|Hne]; [|by apply Hcap, Hkeep]. simplify_eq. exact (Hcap _ Hx).
    - intros y m Hm. apply (Hsend y m). destruct (Hmono y) as [l ->]. apply elem_of_app. by left. }
  destruct (decide (a = x)) as [->|Hne]; [|rewrite (happened_other x a) by done; by etrans].
  destruct (running p') eqn:Hrun.
  - pose proof Hx as Hx'. apply tasks_lookup in Hx' as (c & Hc & Hck).
    eapply (running_prefix w' (t ++ u) _ x b c); [exact Hr'|exact Hc| | |exact Hout|exact Hsend].
    + apply (f_equal t_phase) in Hck. simpl in Hck. by rewrite Hck.
    + pose proof (Hcap _ Hx) as Hcap'. by rewrite <-Hck in Hcap'.
  - rewrite (happened_self x ev h), incomings_app. assert (incomings ev = []) as ->; [by inversion Hstep; subst|].
    rewrite app_nil_r. by etrans.
Qed.



(** What has been received is what was enqueued first. *)
Lemma received_enqueued w t h a :
  runs allowed new w t h → messages (incomings (h a)) `prefix_of` messages (enqueued a t).*2.
Proof.
  assert (∀ t u, messages (enqueued a t).*2 `prefix_of` messages (enqueued a (t ++ u)).*2) as Hmono.
  { intros t1 u1. rewrite enqueued_app, fmap_app, messages_app. by apply prefix_app_r. }
  intros Hr. induction Hr as [|w t h x e w' u ev p' Hr IH Hal Hs Hadv|w t h lb w' u Hr IH Hal Hs Ht Hu]; [apply prefix_nil| |by etrans].
  pose proof (runs_task _ _ _ _ _ _ _ _ _ _ _ Hr Hal Hs Hadv) as Hr'.
  destruct (advances_tasks _ _ _ _ _ _ Hadv) as (k & _ & Hstep & _ & _ & _ & Hx & _).
  destruct (decide (a = x)) as [->|Hne]; [|rewrite (happened_other x a) by done; by etrans].
  destruct (running p') eqn:Hrun.
  - pose proof Hx as Hx'. apply tasks_lookup in Hx' as (c & Hc & Hck).
    assert (running (phase c) = true) as Hc' by (apply (f_equal t_phase) in Hck; simpl in Hck; by rewrite Hck).
    destruct (runs_ends _ _ _ _ ids _ _ _ _ Hr') as (Htr & _ & _).
    rewrite (received_all _ _ _ _ _ Hr' Hc Hc'), (tr_fifo _ _ Htr _ _ Hc), messages_app. by apply prefix_app_r.
  - rewrite (happened_self x ev h), incomings_app. assert (incomings ev = []) as ->; [by inversion Hstep; subst|].
    rewrite app_nil_r. by etrans.
Qed.
(** What only [b] sends, [a] receives at most as often and in this order. *)
Lemma received_sent w t h (f : M → bool) a b :
  runs allowed new w t h → (∀ to m, f m = true → ¬ allowed (LTell to m)) →
  (∀ x m, f m = true → m ∈ sends a (h x) → x = b) →
  filter (λ m, f m = true) (messages (incomings (h a))) `sublist_of` filter (λ m, f m = true) (sends a (h b)).
Proof.
  intros Hr Hout Hsend. destruct (cells w !! a) as [c|] eqn:Ha; last first.
  { rewrite (th_fresh _ _ _ _ _ _ (runs_threads _ _ _ _ ids _ _ _ _ Hr) a); [apply sublist_nil_l|].
    unfold tasks. by rewrite lookup_fmap, Ha. }
  destruct (runs_ends _ _ _ _ ids _ _ _ _ Hr) as (Htr & _ & _).
  pose proof (λ x, runs_history _ _ _ _ ids _ _ _ _ Hr x) as Hown.
  trans (filter (λ m, f m = true) (with_sources (enqueued a t)).*2).
  { apply sublist_filter_mono. trans (messages (dequeued a t)); [apply (incomings_dequeued a t (h a) (Hown a))|].
    rewrite with_sources_messages, (tr_fifo _ _ Htr _ _ Ha), messages_app. by apply sublist_inserts_r. }
  trans (filter (λ m, f m = true) (filter (λ x, x.1 = FromActor b) (with_sources (enqueued a t))).*2);
    [|by apply sublist_filter_mono, enqueued_sends].
  apply reflexive_eq. assert (∀ src m, (src, m) ∈ with_sources (enqueued a t) → f m = true → src = FromActor b) as Hsrc.
  { intros src m Hin%elem_of_with_sources Hf. destruct src as [x|]; [f_equal; eapply Hsend; [done|]|].
    - apply elem_of_sends. rewrite Hown. by apply enqueued_own.
    - by destruct (runs_sources allowed new w t h a FromOutside m (λ to, Hout to m Hf) Hr Hin). }
  induction (with_sources (enqueued a t)) as [|[src m] l IH]; [done|]. rewrite fmap_cons, !filter_cons.
  assert (∀ src m, (src, m) ∈ l → f m = true → src = FromActor b) as Hl by (intros src' m' Hin; apply Hsrc; by right).
  destruct (decide ((src, m).1 = FromActor b)) as [Hb|Hb].
  - rewrite fmap_cons, filter_cons. destruct (decide _); [f_equal|]; by apply IH.
  - destruct (decide _) as [Hf|Hf]; [destruct Hb; eapply Hsrc; [by left|done]|by apply IH].
Qed.

(** ** Worlds at rest *)

Section AtRest.
Context w t h (Hr : runs allowed new w t h).
Context (rest : ∀ a c, cells w !! a = Some c → phase c = Done ∨ idle w c).

Lemma idle_running c : idle w c → running (phase c) = true.
Proof. by intros [(s & up & ->) _]. Qed.

(** What was enqueued has been received. *)
Lemma rest_received a c src m :
  cells w !! a = Some c → idle w c → (src, Message m) ∈ enqueued a t → EReceived (Message m) ∈ h a.
Proof.
  intros Hc Hidle Hin. destruct (runs_ends _ _ _ _ ids _ _ _ _ Hr) as (Htr & _ & _).
  apply elem_of_incomings, elem_of_messages. rewrite (received_all w t h a c) by (done || by apply idle_running).
  apply elem_of_messages. destruct Hidle as (_ & _ & _ & Hempty & _). pose proof (tr_fifo _ _ Htr _ _ Hc) as Hfifo.
  rewrite Hempty, app_nil_r in Hfifo. rewrite <-Hfifo. apply list_elem_of_fmap. by exists (src, Message m).
Qed.

(** What was told to an actor which runs and whose mailbox is unbounded has been received. *)
Lemma rest_told a b c m :
  cells w !! a = Some c → idle w c → mailbox_capacity (config c) = Unbounded → m ∈ sends a (h b) → EReceived (Message m) ∈ h a.
Proof.
  intros Hc Hidle Hcap Hm. rewrite elem_of_sends, (runs_history _ _ _ _ ids _ _ _ _ Hr) in Hm.
  destruct (own_sent _ _ _ _ Hm) as [Hin|[e [j Hj]%list_elem_of_lookup]]; [by eapply rest_received|].
  destruct (runs_ends _ _ _ _ ids _ _ _ _ Hr) as (_ & _ & Hends).
  destruct (en_dead _ _ Hends _ _ _ _ _ Hj) as (c' & Hc' & Hfull). simplify_eq.
  destruct Hfull as (n & Hn & _); [by apply idle_running|by rewrite Hcap|congruence].
Qed.

(** Whoever is still watched is still there. *)
Lemma rest_watched a b c :
  cells w !! a = Some c → idle w c → watches_now b (h a) = true → ∃ d, cells w !! b = Some d ∧ idle w d.
Proof.
  intros Hc Hidle Hw. destruct (runs_invariants _ _ _ _ ids _ _ _ _ Hr) as (_ & Hsys & Htr).
  pose proof (idle_running _ Hidle) as Hrun.
  rewrite (watches_now_history a b _ t) in Hw by apply (runs_history _ _ _ _ ids _ _ _ _ Hr).
  apply (tr_watching _ _ Htr a c b Hc Hrun) in Hw.
  destruct (wi_watched _ _ _ (si_watch _ _ _ _ Hsys) _ _ _ Hc Hrun Hw) as (o & Ho & Hdue). exists o. split; [done|].
  destruct (rest _ _ Ho) as [Hdone|?]; [exfalso|done].
  assert (registry_of o = None) as Hnone by (apply (wi_closed _ _ _ (si_watch _ _ _ _ Hsys) _ _ Ho); by rewrite Hdone).
  destruct Hdue as [[x Hx]|[(v & Hv & _)|Hin]].
  - by rewrite Hnone in Hx.
  - rewrite Hdone in Hv. by apply elem_of_nil in Hv.
  - destruct Hidle as (_ & _ & _ & Hempty & _). rewrite Hempty in Hin. by apply elem_of_nil in Hin.
Qed.

(** Whoever is idle is between rounds, and so is whoever has ended by itself. *)
Lemma idle_rounds a c : cells w !! a = Some c → idle w c → ∃ s, rounds (actor c) (mk_ref a) (h a) (Settled s).
Proof.
  intros Hc [(s & up & Hph) _]. pose proof (runs_threads _ _ _ _ ids _ _ _ _ Hr) as Hth.
  pose proof (thread_placed _ _ _ _ (th_runs _ _ _ _ _ _ Hth _ _ (lookup_tasks _ _ _ Hc))) as Hp. simpl in Hp.
  rewrite Hph in Hp. exists s. by inversion Hp.
Qed.

Lemma rest_rounds a c :
  cells w !! a = Some c → EStopped ∉ h a →
  (idle w c ∧ ∃ s, rounds (actor c) (mk_ref a) (h a) (Settled s)) ∨
  phase c = Done ∧ (rounds (actor c) (mk_ref a) (h a) Stops ∨ rounds (actor c) (mk_ref a) (h a) Fails).
Proof.
  intros Hc Hst. destruct (rest _ _ Hc) as [Hdone|Hidle]; [right|left; split; [done|by eapply idle_rounds]].
  split; [done|]. pose proof (runs_threads _ _ _ _ ids _ _ _ _ Hr) as Hth.
  pose proof (thread_placed _ _ _ _ (th_runs _ _ _ _ _ _ Hth _ _ (lookup_tasks _ _ _ Hc))) as Hp. simpl in Hp.
  eapply placed_end; [exact Hp|by rewrite Hdone|done].
Qed.
End AtRest.
End Histories.
End Programs.
