(* ===== verification/RuntimeScheduler.v ===== *)
(** A scheduler, for concrete runs: every task which can take a step does so, the first first, until none can. *)
From S2P Require Import Prelude Backoff Config Flume Quota Actor Mailbox MailboxSpec Tokio Runtime RuntimeMoves RuntimeTree RuntimeWatch RuntimeSystem RuntimeTrace RuntimeMailboxes RuntimeProgress Handlers RuntimeThreads RuntimeProtocols.

Section Scheduler.
Context {F : Flume} {FL : FlumeLaws F} {TW : TokioWatch} {TL : TokioWatchLaws TW}.
Context {TO : TokioOneshot} {TOL : TokioOneshotLaws TO}.
Context {M B S E : Type} {Rq : Type} {An : Rq → Type} {A : Runtime.Actor M B S E Rq An}.
#[local] Abbreviation World := (World (M:=M) (B:=B) (S:=S) (E:=E) (Rq:=Rq) (An:=An)).
#[local] Abbreviation Cell := (Cell (M:=M) (B:=B) (S:=S) (E:=E) (Rq:=Rq) (An:=An)).
#[local] Abbreviation Label := (Label (M:=M) (An:=An)).
Implicit Types (w : World) (c : Cell).
Context (answer : ∀ q : Rq, An q).

(** A step of [a], in which a timer is due, whoever it spawns gets a fresh id and whatever it asks is answered. *)
Definition acting (n : N) (a : ActorId) : Label := LTask a (mk_env 0 (mk_actor_id (100 + n)) true false answer).

Fixpoint drive (fuel : nat) w : list Label :=
  match fuel with
  | O => []
  | Datatypes.S fuel =>
      match list_find (λ a, is_Some (step (acting (N.of_nat fuel) a) w)) (map_to_list (cells w)).*1 with
      | Some (_, a) =>
          match step (acting (N.of_nat fuel) a) w with
          | Some (w', _) => acting (N.of_nat fuel) a :: drive fuel w'
          | None => []
          end
      | None => []
      end
  end.

(** Nothing comes from outside. *)
Lemma drive_inside fuel w : Forall inside (drive fuel w).
Proof.
  revert w. induction fuel as [|fuel IH]; intros w; simpl; [constructor|].
  destruct (list_find _ _) as [[? a]|]; [|constructor]. destruct (task_step _ a w) as [[w' t]|]; by constructor.
Qed.

(** What holds in the end, evaluated. *)
Definition is_pending {X} (p : Poll X) : bool := match p with Pending => true | Ready _ => false end.
Definition is_done c : bool := match phase c with Done => true | _ => false end.
Definition rests w c : bool :=
  match phase c with
  | Done => true
  | NextIncoming _ _ =>
      (if stop_poll c is Asleep then true else false) && negb (stopped_by_parent c w) && match mqueue (mailbox c) with [] => true | _ :: _ => false end && is_pending (recv (mailbox c)).1
  | _ => false
  end.
Definition all_rest w : bool := forallb (λ x, rests w x.2) (map_to_list (cells w)).

Lemma rests_idle w c : rests w c = true → phase c = Done ∨ idle w c.
Proof.
  unfold rests, idle. intros Hc. destruct (phase c) as [| state up | | | | | | |] eqn:Hp; try done; [right|by left].
  apply andb_true_iff in Hc as [[[Hsl Hst]%andb_true_iff Hq]%andb_true_iff Hr].
  split_and!; [eauto|by destruct (stop_poll c)|by apply negb_true_iff| |].
  - by destruct (mqueue (mailbox c)).
  - by destruct (recv (mailbox c)).1.
Qed.

Lemma all_rest_blocked w : all_rest w = true → ∀ a, blocked w a.
Proof.
  intros Hrest a. destruct (cells w !! a) as [c|] eqn:Ha; [|intros e; unfold task_step; by rewrite Ha].
  apply (idle_blocked w a c Ha), rests_idle. pose proof Ha as Hin%elem_of_map_to_list%list_elem_of_In.
  exact (proj1 (forallb_forall _ _) Hrest (a, c) Hin).
Qed.
End Scheduler.
