(* ===== verification/RuntimeRestarts.v ===== *)
(** Restarts in runs: an actor whose parent has not told it to stop ends by itself only, or once it has been
    restarted as often as its policy allows. *)
From S2P Require Import Prelude Backoff Config Flume Quota Actor Mailbox MailboxSpec Tokio Runtime RuntimeMoves RuntimeTree RuntimeWatch RuntimeSystem RuntimeTrace RuntimeMailboxes RuntimeProgress Handlers RuntimeThreads RuntimeProtocols RuntimeRounds.

Section Restarts.
Context {F : Flume} {FL : FlumeLaws F} {TW : TokioWatch} {TL : TokioWatchLaws TW}.
Context {TO : TokioOneshot} {TOL : TokioOneshotLaws TO}.
Context {M B S E : Type} {Rq : Type} {An : Rq → Type} {A : Runtime.Actor M B S E Rq An}.
#[local] Abbreviation World := (World (M:=M) (B:=B) (S:=S) (E:=E) (Rq:=Rq) (An:=An)).
#[local] Abbreviation Cell := (Cell (M:=M) (B:=B) (S:=S) (E:=E) (Rq:=Rq) (An:=An)).
#[local] Abbreviation Handler := (Handler (M:=M) (B:=B) (E:=E) (Rq:=Rq) (An:=An)).
#[local] Abbreviation Event := (Event (M:=M) (B:=B) (Rq:=Rq) (An:=An)).
#[local] Abbreviation Histories := (Histories (M:=M) (B:=B) (Rq:=Rq) (An:=An)).
#[local] Abbreviation Obs := (Obs (M:=M)).
Implicit Types (w : World) (c : Cell) (a b : ActorId) (l : list Event) (t u : list Obs) (h : Histories).

(** ** What changes the number of restarts *)

Definition restarts_in w a : N := from_option restarts 0%N (cells w !! a).

Lemma restarts_put a c w b : restarts c = restarts_in w a → restarts_in (put_cell a c w) b = restarts_in w b.
Proof.
  intros Hc. unfold restarts_in at 1. simpl. destruct (decide (a = b)) as [<-|Hne]; [by rewrite lookup_insert_eq|by rewrite lookup_insert_ne].
Qed.
Lemma restarts_alter f a w b : (∀ c, restarts (f c) = restarts c) →
  restarts_in (set_cells w (alter f a (cells w))) b = restarts_in w b.
Proof.
  intros Hf. unfold restarts_in. simpl. destruct (decide (a = b)) as [<-|Hne].
  - rewrite lookup_alter_eq. destruct (cells w !! a); [apply Hf|done].
  - by rewrite lookup_alter_ne.
Qed.
Lemma restarts_goto a p w b : restarts_in (goto a p w) b = restarts_in w b.
Proof. apply (restarts_alter (λ c, set_phase c p) a w b). done. Qed.
Lemma restarts_registry a f w b : restarts_in (on_registry a f w) b = restarts_in w b.
Proof. apply (restarts_alter (λ c, set_mailbox c (set_registry (mailbox c) (f (watcher_registry (mailbox c))))) a w b). done. Qed.
Lemma restarts_lookup w a c : cells w !! a = Some c → restarts c = restarts_in w a.
Proof. intros Hc. unfold restarts_in. by rewrite Hc. Qed.
Lemma restarts_cells w w' b : cells w' = cells w → restarts_in w' b = restarts_in w b.
Proof. unfold restarts_in. by intros ->. Qed.

Lemma restarts_tell src to m w w' u b : tell src to m w = Some (w', u) → restarts_in w' b = restarts_in w b.
Proof.
  unfold tell. destruct (cells w !! actor_id to) as [c|] eqn:Hc; [|done]. simpl. destruct (try_send_message m (mailbox c)).
  intros [= <- _]. apply restarts_put. exact (restarts_lookup _ _ _ Hc).
Qed.
Lemma restarts_try_tell forced src to m w ok w' u b : try_tell forced src to m w = Some (ok, w', u) → restarts_in w' b = restarts_in w b.
Proof.
  unfold try_tell. destruct (cells w !! actor_id to) as [c|] eqn:Hc; [|done]. simpl. destruct (send_message forced m (mailbox c)).
  intros [= _ <- _]. apply restarts_put. exact (restarts_lookup _ _ _ Hc).
Qed.
Lemma restarts_signal src to about w r w' u b : signal_mailbox src to about w = Some (r, w', u) → restarts_in w' b = restarts_in w b.
Proof.
  unfold signal_mailbox. destruct (cells w !! to) as [c|] eqn:Hc; [|done]. simpl. destruct (send_terminated about (mailbox c)).
  intros [= _ <- _]. apply restarts_put. exact (restarts_lookup _ _ _ Hc).
Qed.
Lemma restarts_watch a other w ok w' u b : watch a other w = Some (ok, w', u) → restarts_in w' b = restarts_in w b.
Proof.
  unfold watch. destruct (cells w !! actor_id other) as [o|] eqn:Ho; [|done]. cbn [mbind option_bind].
  set (w1 := on_registry _ _ w). destruct (cells w1 !! a) as [c|] eqn:Hc; [|done]. cbn [mbind option_bind].
  set (w2 := put_cell a _ w1).
  assert (restarts_in w2 b = restarts_in w b) as Hw2.
  { unfold w2. rewrite restarts_put; [apply restarts_registry|]. exact (restarts_lookup w1 _ _ Hc). }
  destruct (is_ok _); [by intros [= _ <- _]|]. destruct (signal_mailbox _ _ _ w2) as [[[r w3] u3]|] eqn:Hs; [|done].
  simpl. intros [= _ <- _]. by rewrite (restarts_signal _ _ _ _ _ _ _ b Hs).
Qed.
Lemma restarts_unwatch a other w w' u b : unwatch a other w = Some (w', u) → restarts_in w' b = restarts_in w b.
Proof.
  unfold unwatch. destruct (cells w !! a) as [c|] eqn:Hc; [|done]. simpl. intros [= <- _].
  destruct (watched c !! actor_id other); [|done]. rewrite restarts_registry. apply restarts_put. exact (restarts_lookup _ _ _ Hc).
Qed.

Lemma restarts_handler {R} e a (k k' : Handler R) w w' u b :
  handler_step e a k w = Some (k', w', u) → restarts_in w' b = restarts_in w b.
Proof.
  destruct k as [| |to m k|forced to m k|k|act config k|other k|other k|q k]; simpl; try done.
  - destruct (tell _ to m w) as [[w1 u1]|] eqn:Ht; [|done]. intros [= _ <- _]. by eapply restarts_tell.
  - destruct (try_tell forced _ to m w) as [[[ok w1] u1]|] eqn:Ht; [|done]. intros [= _ <- _]. by eapply restarts_try_tell.
  - by intros [= _ <- _].
  - destruct (cells w !! a) as [c|] eqn:Hc; [|done]. simpl. destruct (fresh (new_id e) w) eqn:Hf; [|done]. intros [= _ <- _].
    apply bool_decide_eq_true in Hf as [Hf _]. unfold spawn. rewrite restarts_put; [done|]. unfold restarts_in. simpl. by rewrite Hf.
  - destruct (watch a other w) as [[[ok w1] u1]|] eqn:Ht; [|done]. intros [= _ <- _]. by eapply restarts_watch.
  - destruct (unwatch a other w) as [[w1 u1]|] eqn:Ht; [|done]. intros [= _ <- _]. by eapply restarts_unwatch.
  - by intros [= _ <- _].
Qed.

Lemma restarts_stop_children a c w b :
  cells w !! a = Some c → restarts_in (stop_children a c w).2 b = restarts_in w b.
Proof. intros Hc. unfold stop_children. simpl. rewrite restarts_put; [done|]. exact (restarts_lookup _ _ _ Hc). Qed.

Lemma restarts_root_signal w b : restarts_in (root_signal w).1 b = restarts_in w b.
Proof. unfold root_signal. by destruct (terminated_tx w). Qed.
Lemma restarts_drop_root_sink w b : restarts_in (drop_root_sink w) b = restarts_in w b.
Proof. unfold drop_root_sink, release_root_sender. simpl. by destruct (owner w). Qed.

Lemma restarts_terminate a c ph w w' u b :
  cells w !! a = Some c → terminate_step a c ph w = Some (w', u) → restarts_in w' b = restarts_in w b.
Proof.
  intros Hc. pose proof (restarts_lookup _ _ _ Hc) as Hrs. destruct ph as [| |[|r rest]| |old| | |[|x rest]]; simpl.
  - destruct (split_drain (mailbox c)). intros [= <- _]. by apply restarts_put.
  - intros [= <- _]. by apply restarts_put.
  - intros [= <- _]. apply restarts_goto.
  - intros [= <- _]. by rewrite restarts_goto, restarts_registry.
  - intros [= <- _]. rewrite restarts_goto. by apply restarts_stop_children.
  - unfold await_closed. destruct (stop_channels w !! old) as [ch|]; [|done]. simpl. destruct (watch_closed ch); try done.
    simpl. intros [= <- _]. by rewrite restarts_goto.
  - intros [= <- _]. by rewrite restarts_goto.
  - destruct (take_watchers (mailbox c)). intros [= <- _]. by apply restarts_put.
  - intros [= <- _]. by rewrite <-(restarts_goto a Done w b).
  - destruct (terminated_sink x).
    + destruct (signal_mailbox _ _ _ _) as [[[r w1] u1]|] eqn:Hs; [|done]. simpl. intros [= <- _].
      by rewrite (restarts_signal _ _ _ _ _ _ _ b Hs), restarts_goto.
    + destruct (root_signal _) as [w1 u1] eqn:Hs. intros [= <- _].
      rewrite restarts_drop_root_sink. change w1 with (w1, u1).1. by rewrite <-Hs, restarts_root_signal, restarts_goto.
Qed.

(** But for what a failure is answered with, no step of a task changes it. *)
Lemma restarts_task e a c w w' u b :
  cells w !! a = Some c → (∀ up, phase c ≠ Failed up) → task_step e a w = Some (w', u) → restarts_in w' b = restarts_in w b.
Proof.
  intros Hc Hph. pose proof (restarts_lookup _ _ _ Hc) as Hrs. unfold task_step. rewrite Hc. cbn [mbind option_bind].
  assert (∀ p, Some (goto a p w, []) = Some (w', u) → restarts_in w' b = restarts_in w b) as Hgoto.
  { intros p [= <- _]. apply restarts_goto. }
  assert (∀ R (k : Handler R) (back : Handler R → Phase),
    ('(k, w1, u1) ← handler_step e a k w; Some (goto a (back k) w1, u1)) = Some (w', u) → restarts_in w' b = restarts_in w b) as Hhandler.
  { intros R k back. destruct (handler_step e a k w) as [[[k1 w1] u1]|] eqn:Hk; [|done]. simpl. intros [= <- _].
    rewrite restarts_goto. by eapply restarts_handler. }
  assert (∀ q, Some (put_cell a (set_stop_poll c q) w, []) = Some (w', u) → restarts_in w' b = restarts_in w b) as Hpoll.
  { intros q [= <- _]. by apply restarts_put. }
  destruct (phase c) as [k|s up|k up|up|delay|old delay|delay|tph|] eqn:Hp; try done.
  - destruct k as [[]| | | | | | | |]; eauto; try (by apply (Hhandler S _ Initializing)). destruct (abandons e c w); eauto.
    intros [= <- _]. by apply restarts_put.
  - unfold next_incoming. destruct (stop_poll c); [destruct (stopped_by_parent c w); eauto| |by case_match; eauto].
    destruct (recv (mailbox c)) as [[|[i|]] mb]; eauto; try done. intros [= Heq].
    assert (restarts_in (deliver a (set_mailbox c mb) s up i w).1 b = restarts_in w b) as Hd; [|by rewrite Heq in Hd].
    unfold deliver, take_watched_for. destruct i as [m|other]; [|destruct (bool_decide _)]; by apply restarts_put.
  - destruct k as [[[]|]| | | | | | | |]; eauto; by apply (Hhandler _ _ (λ k, Receiving k up)).
  - by destruct (Hph up).
  - unfold restart. destruct (stop_children a c w) as [old w2] eqn:Hst. intros [= <- _]. rewrite restarts_goto.
    change w2 with (old, w2).2. rewrite <-Hst. by apply restarts_stop_children.
  - unfold await_closed. destruct (stop_channels w !! old) as [ch|]; [|done]. simpl. destruct (watch_closed ch); try done.
    simpl. intros [= <- _]. by rewrite restarts_goto.
  - destruct (await_backoff _ _ _) as [|[]]; eauto; done.
  - by apply restarts_terminate.
Qed.

Lemma restarts_step lb w w' u b :
  step lb w = Some (w', u) → (∀ a e, lb ≠ LTask a e) → restarts_in w' b = restarts_in w b.
Proof.
  intros Hs Hl. destruct lb as [a e|to m| | |]; simpl in Hs.
  - by destruct (Hl a e).
  - by eapply restarts_tell.
  - destruct (owner w); try done. unfold watch_root in Hs. destruct (cells w !! root w) as [c|]; [|done]. simpl in Hs.
    destruct (is_ok _); [simplify_eq; by rewrite <-(restarts_registry (root w) (λ r, (registry_add (watcher_new (root_watcher w) RootSink) r).2) w b)|].
    destruct (root_signal _) as [w1 u1] eqn:Hs1. simplify_eq. rewrite restarts_drop_root_sink.
    change (restarts_in (w1, u).1 b = restarts_in w b). by rewrite <-Hs1, restarts_root_signal, restarts_registry.
  - destruct (owner w); try done. by simplify_eq.
  - destruct (owner w); try done. simplify_eq. unfold drop_system, release_root_sender. simpl. by destruct (sink_alive w).
Qed.

(** ** Giving up *)

Definition restarted l : nat := length (omap (λ e, match e with ERestarting => Some () | _ => None end) l).
Lemma restarted_app l l' : restarted (l ++ l') = (restarted l + restarted l')%nat.
Proof. unfold restarted. by rewrite omap_app, length_app. Qed.

(** The strategy allows no restart after [n]. *)
Definition gives_up (strategy : SupervisionStrategy) (n : nat) : Prop :=
  match strategy with Config.Stop => True | Restart policy => (Pos.to_nat (max_restarts policy) ≤ n)%nat end.

Lemma next_restart_count strategy up now n : ((next_restart strategy up now n).2 ≤ n + 1)%N.
Proof.
  unfold next_restart. destruct strategy as [|policy]; [simpl; lia|].
  destruct up as [since|]; [destruct (decide (reset_after policy ≤ elapsed now since)%N)|]; case_decide; simpl; lia.
Qed.

Lemma not_restarting strategy up now n :
  restarting (next_restart strategy up now n).1 = false → gives_up strategy (N.to_nat n).
Proof.
  unfold next_restart, gives_up. destruct strategy as [|policy]; [done|].
  destruct up as [since|]; [destruct (decide (reset_after policy ≤ elapsed now since)%N)|]; case_decide; simpl; try done; lia.
Qed.

Lemma gives_up_mono strategy n n' : gives_up strategy n → (n ≤ n')%nat → gives_up strategy n'.
Proof. destruct strategy; simpl; [done|lia]. Qed.

(** The step after a failure. *)
Lemma failed_restarts e a c w w' u up b :
  cells w !! a = Some c → phase c = Failed up → task_step e a w = Some (w', u) →
  if decide (b = a) then (restarts_in w' b ≤ restarts c + 1)%N else restarts_in w' b = restarts_in w b.
Proof.
  intros Hc Hp. unfold task_step. rewrite Hc. cbn [mbind option_bind]. rewrite Hp. intros [= Heq].
  assert ((await_restart e a c up w).1 = w') as <- by by rewrite Heq. clear Heq. unfold await_restart.
  pose proof (next_restart_count (supervision_strategy (config c)) up (now e) (restarts c)) as Hn.
  destruct (next_restart _ _ _ _) as [d n]. simpl in Hn. set (w1 := put_cell a (set_restarts c n) w).
  assert (if decide (b = a) then (restarts_in w1 b ≤ restarts c + 1)%N else restarts_in w1 b = restarts_in w b) as Hw1.
  { unfold restarts_in, w1. simpl. case_decide as Hb; [subst b; by rewrite lookup_insert_eq|by rewrite lookup_insert_ne]. }
  assert (∀ p, restarts_in (goto a p w1) b = restarts_in w1 b) as Hgoto by (intros p; apply restarts_goto).
  destruct d as [delay| |]; [|cbn [fst]; by rewrite Hgoto..]. destruct (stopped_by_parent _ _); cbn [fst]; by rewrite Hgoto.
Qed.

Context (id wid : ActorId) (act0 : B) (config0 : ActorConfig) (ids : id ≠ wid).
Context (allowed : Label (M:=M) (An:=An) → Prop).
#[local] Abbreviation new := (system_new id wid act0 config0).

(** A restart decided upon and not begun is counted already. *)
Definition decided (p : Phase (M:=M) (B:=B) (S:=S) (E:=E) (Rq:=Rq) (An:=An)) : N := match p with Restarting _ => 1 | _ => 0 end.

Record restarts_inv w h : Prop := {
  ri_count : ∀ a c, cells w !! a = Some c → running (phase c) = true → (restarts c ≤ N.of_nat (restarted (h a)) + decided (phase c))%N;
  ri_ended : ∀ a c, cells w !! a = Some c → running (phase c) = false → EStopped ∉ h a →
    rounds (actor c) (mk_ref a) (h a) Stops ∨
    rounds (actor c) (mk_ref a) (h a) Fails ∧ gives_up (supervision_strategy (config c)) (restarted (h a));
}.

Lemma failed_decides act self (up : option Instant) ev p :
  thread_step act self (Failed up) ev p → running p = true → ev = [] ∧ decided p = 1%N.
Proof. by inversion 1. Qed.

(** What was decided upon is done. *)
Lemma decided_restarts act self p ev p' :
  thread_step act self p ev p' → running p' = true → (decided p ≤ N.of_nat (restarted ev) + decided p')%N.
Proof. destruct 1; simpl; try done; lia. Qed.

Lemma failed_moves e a c w w' u up :
  cells w !! a = Some c → phase c = Failed up → task_step e a w = Some (w', u) → tasks w' ≠ tasks w.
Proof.
  intros Hc Hp Hs Ht. unfold task_step in Hs. rewrite Hc in Hs. cbn [mbind option_bind] in Hs. rewrite Hp in Hs. injection Hs as Hs.
  destruct (await_restart_advances _ _ _ _ _ _ _ Hc Hp Hs) as (ev & p' & Hadv).
  destruct (advances_tasks _ _ _ _ _ _ Hadv) as (k & Hk & Hstep & _ & _ & _ & Ha' & _).
  rewrite Ht, Hk in Ha'. injection Ha' as Ha'. rewrite (lookup_tasks _ _ _ Hc) in Hk. injection Hk as <-. simpl in *.
  rewrite Hp in Hstep. apply (f_equal t_phase) in Ha'. simpl in Ha'. rewrite Hp in Ha'. subst p'. by inversion Hstep.
Qed.

(** How a thread ends. *)
Lemma ends_by act self l p e p' :
  placed act self l p → thread_step act self p e p' → running p = true → running p' = false → EStopped ∉ e →
  rounds act self (l ++ e) Stops ∨ rounds act self (l ++ e) Fails ∧ ∃ up, p = Failed up ∧ e = [].
Proof.
  intros Hp Hstep Hrun Hend He.
  destruct Hstep; try done; rewrite ?app_nil_r.
  - left. inversion Hp; subst; try done. by eapply rounds_stop.
  - right. split; [by inversion Hp|eauto].
  - destruct He. by left.
Qed.

Lemma cell_of_task w a c k p : cells w !! a = Some c → tasks w !! a = Some (at_phase k p) →
  actor c = t_actor k ∧ config c = t_config k ∧ phase c = p.
Proof. intros Hc%lookup_tasks Hk. rewrite Hc in Hk. by injection Hk as -> -> _ ->. Qed.

(** What a task's step does to the other actors. *)
Lemma advances_others a w w' u ev p' b c' :
  advances a w w' u ev p' → cells w' !! b = Some c' → b ≠ a →
  (∃ c, cells w !! b = Some c ∧ task_of c' = task_of c) ∨ cells w !! b = None ∧ running (phase c') = true.
Proof.
  intros Hadv Hc' Hne. destruct (advances_tasks _ _ _ _ _ _ Hadv) as (k & Hk & _ & _ & Hcells & _).
  destruct (Hcells b _ (lookup_tasks _ _ _ Hc')) as [[? _]|[[_ Hb]|(act & config & g & _ & _ & Hb & Hnew)]]; [done|left|right].
  - apply tasks_lookup in Hb as (c & Hc & Heq). by exists c.
  - split; [unfold tasks in Hb; rewrite lookup_fmap in Hb; by destruct (cells w !! b)|]. by injection Hnew as _ _ _ ->.
Qed.
Lemma restarts_others a e w w' u ca b :
  step (LTask a e) w = Some (w', u) → cells w !! a = Some ca → b ≠ a → restarts_in w' b = restarts_in w b.
Proof.
  intros Hs Hca Hne. simpl in Hs. destruct (phase ca) eqn:Hp; try by eapply restarts_task; [done|by rewrite Hp|done].
  pose proof (failed_restarts _ _ _ _ _ _ _ b Hca Hp Hs) as Hf. by rewrite decide_False in Hf.
Qed.

Lemma restarts_count_task w t h a e w' u ev p' b c' :
  restarts_inv w h → runs allowed new w t h → step (LTask a e) w = Some (w', u) → advances a w w' u ev p' →
  cells w' !! b = Some c' → running (phase c') = true → (restarts c' ≤ N.of_nat (restarted (happened a ev h b)) + decided (phase c'))%N.
Proof.
  intros [Hcount _] Hr Hs Hadv Hc' Hrun. destruct (advances_tasks _ _ _ _ _ _ Hadv) as (k & Hk & Hstep & _ & _ & _ & Ha' & _).
  apply tasks_lookup in Hk as (ca & Hca & <-). simpl in Hstep. rewrite (restarts_lookup _ _ _ Hc').
  destruct (decide (b = a)) as [->|Hne].
  - destruct (cell_of_task _ _ _ _ _ Hc' Ha') as (_ & _ & Hph). rewrite happened_self, restarted_app. rewrite Hph in Hrun.
    assert (running (phase ca) = true) as Hrun0.
    { destruct (running (phase ca)) eqn:Hr0; [done|]. by destruct (ended_step _ _ _ _ _ Hstep Hr0) as [_ ?]; congruence. }
    specialize (Hcount a ca Hca Hrun0).
    assert ((∃ up, phase ca = Failed up) ∨ ∀ up, phase ca ≠ Failed up) as [[up Hp]|Hp] by (destruct (phase ca); eauto).
    + pose proof (failed_restarts _ _ _ _ _ _ _ a Hca Hp Hs) as Hf. rewrite decide_True in Hf by done. rewrite Hp in Hstep, Hcount.
      destruct (failed_decides _ _ _ _ _ Hstep Hrun) as [-> Hd]. rewrite Hph, Hd. change (restarted []) with 0%nat. simpl in Hcount. lia.
    + rewrite (restarts_task _ _ _ _ _ _ a Hca Hp Hs), <-(restarts_lookup _ _ _ Hca), Hph.
      pose proof (decided_restarts _ _ _ _ _ Hstep Hrun). lia.
  - rewrite (restarts_others _ _ _ _ _ _ _ Hs Hca Hne), happened_other by done.
    destruct (advances_others _ _ _ _ _ _ _ _ Hadv Hc' Hne) as [(c & Hc & Heq)|[Hnone _]].
    + rewrite <-(restarts_lookup _ _ _ Hc). apply (f_equal t_phase) in Heq. simpl in Heq. rewrite Heq in Hrun |- *. by apply (Hcount b c Hc).
    + unfold restarts_in. rewrite Hnone. simpl. lia.
Qed.

Lemma restarts_ended_task w t h a e w' u ev p' b c' :
  restarts_inv w h → runs allowed new w t h → step (LTask a e) w = Some (w', u) → advances a w w' u ev p' →
  cells w' !! b = Some c' → running (phase c') = false → EStopped ∉ happened a ev h b →
  rounds (actor c') (mk_ref b) (happened a ev h b) Stops ∨
  rounds (actor c') (mk_ref b) (happened a ev h b) Fails ∧
    gives_up (supervision_strategy (config c')) (restarted (happened a ev h b)).
Proof.
  intros [Hcount Hended] Hr Hs Hadv Hc' Hend Hst. pose proof (runs_threads id wid act0 config0 ids _ _ _ _ Hr) as Hth.
  destruct (advances_tasks _ _ _ _ _ _ Hadv) as (k & Hk & Hstep & _ & _ & _ & Ha' & _).
  pose proof Hk as Hk'. apply tasks_lookup in Hk' as (ca & Hca & <-). simpl in Hstep.
  destruct (decide (b = a)) as [->|Hne].
  - destruct (cell_of_task _ _ _ _ _ Hc' Ha') as (Hact & Hcfg & Hph). simpl in Hact, Hcfg. rewrite Hact, Hcfg. rewrite happened_self in Hst |- *.
    rewrite Hph in Hend. apply not_elem_of_app in Hst as [Hst Hst']. destruct (running (phase ca)) eqn:Hrun.
    + pose proof (thread_placed _ _ _ _ (th_runs _ _ _ _ _ _ Hth _ _ Hk)) as Hpl. simpl in Hpl.
      destruct (ends_by _ _ _ _ _ _ Hpl Hstep Hrun Hend Hst') as [?|(Hf & up & Hp & ->)]; [by left|right]. split; [done|].
      destruct (adv_given_up _ _ _ _ _ _ Hadv ca up Hca Hp eq_refl Hend) as [now Hnow%not_restarting].
      eapply gives_up_mono; [exact Hnow|]. rewrite app_nil_r. specialize (Hcount a ca Hca Hrun). rewrite Hp in Hcount. simpl in Hcount. lia.
    + destruct (ended_step _ _ _ _ _ Hstep Hrun) as [-> _]. rewrite app_nil_r. by apply Hended.
  - rewrite happened_other in Hst |- * by done.
    destruct (advances_others _ _ _ _ _ _ _ _ Hadv Hc' Hne) as [(c & Hc & Heq)|[_ ?]]; [|congruence].
    injection Heq as Hact Hcfg _ Hph. rewrite Hact, Hcfg. apply Hended; [done|by rewrite <-Hph|done].
Qed.

Lemma runs_restarts w t h : runs allowed new w t h → restarts_inv w h.
Proof.
  induction 1 as [|w t h a e w' u ev p' Hr IH Hal Hs Hadv|w t h lb w' u Hr [Hcount Hended] Hal Hs Ht Hu].
  - split; intros a c Hc; simpl in Hc; apply lookup_singleton_Some in Hc as [<- <-]; [simpl; lia|done].
  - split; intros b c' Hc'; [by eapply restarts_count_task|by eapply restarts_ended_task].
  - assert (∀ b c', cells w' !! b = Some c' → ∃ c, cells w !! b = Some c ∧ task_of c' = task_of c ∧ restarts c' = restarts c) as Hcells.
    { intros b c' Hc'. pose proof (lookup_tasks _ _ _ Hc') as Hk. rewrite Ht in Hk. apply tasks_lookup in Hk as (c & Hc & Heq). exists c.
      split_and!; [done|done|]. rewrite (restarts_lookup _ _ _ Hc'), (restarts_lookup _ _ _ Hc). 
      assert ((∀ a e, lb ≠ LTask a e) ∨ ∃ a e, lb = LTask a e) as [Hlb|(a & e & ->)] by (destruct lb; eauto); [by eapply restarts_step|].
      simpl in Hs. destruct (cells w !! a) as [ca|] eqn:Hca; [|unfold task_step in Hs; by rewrite Hca in Hs].
      eapply restarts_task; [exact Hca| |exact Hs]. intros up Hp. by eapply failed_moves. }
    split.
    + intros b c' (c & Hc & Heq & ->)%Hcells Hrun. apply (f_equal t_phase) in Heq. simpl in Heq. rewrite Heq in Hrun |- *. by apply Hcount.
    + intros b c' (c & Hc & Heq & _)%Hcells Hend Hst. injection Heq as -> -> _ Hph. apply Hended; [done|by rewrite <-Hph|done].
Qed.
End Restarts.


Lemma tested_dec {X} (f : X → bool) (x : X) (k : list X) : (∀ y, f y = true ↔ y = x) → x ∈ k ∨ x ∉ k.
Proof.
  intros Hf. induction k as [|y k [IH|IH]]; [right; apply not_elem_of_nil|left; by right|].
  destruct (f y) eqn:Hy; [apply Hf in Hy as ->; left; by left|right]. intros [<-|?]%elem_of_cons; [|done].
  by rewrite (proj2 (Hf x) eq_refl) in Hy.
Qed.

