(* ===== verification/SupervisionExample.v ===== *)
(** The example [tellus/examples/supervision.rs]: a loader fails on toxic values and is restarted, which rebuilds its
    state but keeps its mailbox, so that what is queued behind a toxic value is loaded nevertheless. That it is,
    and with which counts, is proved of every interleaving. *)
From S2P Require Import Prelude Backoff Config Flume Quota Actor Mailbox MailboxSpec Tokio Runtime RuntimeMoves RuntimeTree RuntimeWatch RuntimeSystem RuntimeTrace RuntimeMailboxes RuntimeProgress Handlers RuntimeThreads RuntimeProtocols RuntimeRounds RuntimeScheduler RuntimeRestarts.

(** ** The program *)

Definition TOXIC : N := 13.
Definition MAX_RESTARTS : positive := 3.
Definition VALUES : list N := [1; 2; TOXIC; 3; TOXIC; 4]%N.

(** The messages of the loader; those of the overseer are [Nothing]. *)
Inductive Msg := Load (value : N) | Finish.
Inductive Example := Overseer (loader_config : ActorConfig) | Loader.
Inductive State := Overseeing | Count (count : N).
Inductive Error := ToxicValue (value : N).

(** What is printed. *)
Inductive Println :=
  | LoaderFinished
  | LoaderInitialized
  | Loaded (value count : N).
Definition printed_answer (q : Println) : Type := unit.

(** [+] on a [u64] panics on overflow, as in a build with debug assertions. *)
Definition u64_add (a b : N) : option N := if decide (a + b ≤ U64_MAX)%N then Some (a + b)%N else None.

#[local] Abbreviation Handler := (Handler (M:=Msg) (B:=Example) (E:=Error) (Rq:=Println) (An:=printed_answer)).

(** The loop of [Overseer::init] over the values which are left, and what follows it. *)
Fixpoint tell_values (loader : ActorRef) (values : list N) : Handler State :=
  match values with
  | [] => HTell loader Finish (HReturn (Ok Overseeing))
  | value :: values => HTell loader (Load value) (tell_values loader values)
  end.

(** [Loader::receive] *)
Definition loader_receive (incoming : Incoming Msg) (count : N) : Handler (Control State) :=
  match incoming with
  | Message (Load value) =>
      if decide (value = TOXIC) then HReturn (Err (ToxicValue TOXIC))
      else
        match u64_add count 1 with
        | Some count => HAwait (Loaded value count) (λ _, HReturn (Ok (Continue (Count count))))
        | None => HPanic
        end
  | Message Finish => HReturn (Ok Actor.Stop)
  | Terminated _ => HPanic                     (* [unreachable!] *)
  end.

(** A message or a state of the other actor's type cannot be: it panics here. *)
#[export] Instance supervision : Runtime.Actor Msg Example State Error Println printed_answer := {
  init a self :=
    match a with
    | Overseer loader_config =>
        HSpawn Loader loader_config (λ loader, HWatch loader (tell_values loader VALUES))
    | Loader => HAwait LoaderInitialized (λ _, HReturn (Ok (Count 0)))
    end;
  receive a self incoming state :=
    match a, incoming, state with
    | Overseer _, Terminated _, Overseeing => HAwait LoaderFinished (λ _, HReturn (Ok Actor.Stop))
    | Loader, incoming, Count count => loader_receive incoming count
    | _, _, _ => HPanic
    end;
}.

(** The configuration of [main]: the bounds of the backoff are in nanoseconds. *)
Definition loader_backoff : result Backoff InvalidBackoff := Backoff.new 50000000 1000000000.
Definition loader_config (backoff : Backoff) : ActorConfig :=
  with_supervision_strategy default_config (Restart (with_backoff (new_policy MAX_RESTARTS) backoff)).


(** ** What the loader prints *)

#[local] Abbreviation Event := (Event (M:=Msg) (B:=Example) (Rq:=Println) (An:=printed_answer)).
#[local] Abbreviation Stage := (Stage (S:=State)).
#[local] Abbreviation Phase := (Phase (M:=Msg) (B:=Example) (S:=State) (E:=Error) (Rq:=Println) (An:=printed_answer)).
#[local] Abbreviation Histories := (Histories (M:=Msg) (B:=Example) (Rq:=Println) (An:=printed_answer)).
#[local] Abbreviation Label := (Label (M:=Msg) (An:=printed_answer)).
#[local] Abbreviation Obs := (Obs (M:=Msg)).
#[local] Abbreviation Incoming := (Incoming Msg).
Implicit Types (l : list Event) (h : Histories) (a b : ActorId) (n : nat) (vs : list N) (ins : list Incoming).

Definition printed l : list Println := omap (λ e, match e with EAnswered q _ => Some q | _ => None end) l.

(** The values loaded, each with the count it makes; a toxic value has the count start over. *)
Fixpoint loads (count : N) (values : list N) : list Println :=
  match values with
  | [] => []
  | value :: values =>
      if decide (value = TOXIC) then LoaderInitialized :: loads 0 values
      else Loaded value (count + 1) :: loads (count + 1) values
  end.
Definition output vs : list Println := LoaderInitialized :: loads 0 vs.
Definition count_after vs : N := foldl (λ count value, if decide (value = TOXIC) then 0 else count + 1)%N 0%N vs.
Definition toxics vs : nat := times TOXIC vs.

Lemma loads_snoc count vs v :
  loads count (vs ++ [v]) = loads count vs ++
    [if decide (v = TOXIC) then LoaderInitialized
     else Loaded v (foldl (λ count value, if decide (value = TOXIC) then 0 else count + 1)%N count vs + 1)].
Proof. revert count. induction vs as [|x vs IH]; intros count; simpl; [by case_decide|]. destruct (decide (x = TOXIC)); by rewrite IH. Qed.
Lemma output_snoc vs v :
  output (vs ++ [v]) = output vs ++ [if decide (v = TOXIC) then LoaderInitialized else Loaded v (count_after vs + 1)].
Proof. unfold output. by rewrite loads_snoc. Qed.
Lemma output_prefix vs vs' : output vs `prefix_of` output (vs ++ vs').
Proof.
  induction vs' as [|v vs' IH] using rev_ind; [by rewrite app_nil_r|]. rewrite (assoc_L (++)), output_snoc. by apply prefix_app_r.
Qed.
Lemma count_after_snoc vs v : count_after (vs ++ [v]) = if decide (v = TOXIC) then 0%N else (count_after vs + 1)%N.
Proof. unfold count_after. by rewrite foldl_app. Qed.
Lemma count_after_length vs : (count_after vs ≤ N.of_nat (length vs))%N.
Proof. induction vs as [|v vs IH] using rev_ind; [done|]. rewrite count_after_snoc, length_app. simpl. case_decide; lia. Qed.
Lemma toxics_snoc vs v : toxics (vs ++ [v]) = (toxics vs + if decide (v = TOXIC) then 1 else 0)%nat.
Proof. unfold toxics. rewrite times_app, times_cons, times_nil. case_decide; lia. Qed.

(** What the overseer tells the loader. *)
Definition SENT : list Msg := (Load <$> VALUES) ++ [Finish].
Definition loader_gets l : Prop := incomings l `prefix_of` (Message <$> SENT).

Lemma loader_gets_prefix l l' : loader_gets (l ++ l') → loader_gets l.
Proof. unfold loader_gets. rewrite incomings_app. intros Hl. etrans; [|exact Hl]. by apply prefix_app_r. Qed.

(** The loader after the first [n] values. *)
Definition loaded n l : Prop := (n ≤ length VALUES)%nat ∧ incomings l = (Message ∘ Load) <$> take n VALUES.
Definition loader_stage l (st : Stage) : Prop :=
  ∃ n, let vs := take n VALUES in
  match st with
  | Begins => loaded n l ∧ printed l ++ [LoaderInitialized] = output vs ∧ count_after vs = 0%N ∧ restarted l = toxics vs
  | Settled (Count count) => loaded n l ∧ printed l = output vs ∧ count = count_after vs ∧ restarted l = toxics vs
  | Fails => loaded n l ∧ printed l ++ [LoaderInitialized] = output vs ∧ count_after vs = 0%N ∧ Datatypes.S (restarted l) = toxics vs
  | Stops => n = length VALUES ∧ printed l = output VALUES
  | Settled Overseeing => False
  end.

Lemma next_value n l i :
  loaded n l → loader_gets (l ++ [EReceived i]) →
  (∃ v, i = Message (Load v) ∧ loaded (Datatypes.S n) (l ++ [EReceived i]) ∧ take (Datatypes.S n) VALUES = take n VALUES ++ [v]) ∨
  i = Message Finish ∧ n = length VALUES.
Proof.
  intros [Hn Hl] Hg. unfold loader_gets in Hg. rewrite incomings_app, Hl in Hg.
  assert ((Message <$> SENT) !! n = Some i) as Hi.
  { eapply (prefix_lookup_Some _ _ _ _ _ Hg). Unshelve. rewrite lookup_app_r, length_fmap, length_take_le, Nat.sub_diag; [done|done|].
    by rewrite length_fmap, length_take_le. }
  rewrite list_lookup_fmap in Hi. apply fmap_Some in Hi as (m & Hm & ->). unfold SENT in Hm.
  apply lookup_app_Some in Hm as [Hm|[Hle Hm]].
  - left. rewrite list_lookup_fmap in Hm. apply fmap_Some in Hm as (v & Hv & ->). exists v. split; [done|].
    assert (take (Datatypes.S n) VALUES = take n VALUES ++ [v]) as Htake by by apply take_S_r. split; [|done].
    split; [by apply lookup_lt_Some in Hv|]. by rewrite incomings_app, Hl, Htake, fmap_app.
  - right. rewrite length_fmap in Hle, Hm. apply list_lookup_singleton_Some in Hm as [Hm <-]. split; [done|lia].
Qed.


Definition on_output l : Prop := printed l `prefix_of` output VALUES.
Lemma output_take n : output (take n VALUES) `prefix_of` output VALUES.
Proof. rewrite <-(take_drop n VALUES) at 2. apply output_prefix. Qed.
Lemma on_output_take n l : printed l = output (take n VALUES) → on_output l.
Proof. unfold on_output. intros ->. apply output_take. Qed.
Lemma on_output_taken n l q : printed l ++ [q] = output (take n VALUES) → on_output l.
Proof.
  intros Hl. assert (printed l `prefix_of` printed l ++ [q]) as Hp by by apply prefix_app_r. rewrite Hl in Hp.
  unfold on_output. etrans; [exact Hp|apply output_take].
Qed.

Lemma printed_app l l' : printed (l ++ l') = printed l ++ printed l'.
Proof. apply omap_app. Qed.
Lemma printed_received l i : printed (l ++ [EReceived i]) = printed l.
Proof. rewrite printed_app. apply app_nil_r. Qed.

Section LoaderHistories.
Context (self : ActorRef).

Lemma loader_receives l s i :
  on_output l → loader_stage l (Settled s) → loader_gets (l ++ [EReceived i]) →
  always (receive Loader self i s) (λ t k, k ≠ HPanic ∧ (loader_gets (l ++ EReceived i :: t) →
    leads on_output loader_stage (receive_leads k) (l ++ EReceived i :: t))).
Proof.
  intros Hout [n Hs] Hg. destruct s as [|count]; [done|]. destruct Hs as (Hl & Hp & -> & Hre).
  assert (∀ t, printed (l ++ EReceived i :: t) = printed l ++ printed t) as Hprint by (intros t; by rewrite printed_app).
  assert (∀ t, restarted (l ++ EReceived i :: t) = (restarted l + restarted t)%nat) as Hrest by (intros t; by rewrite restarted_app).
  assert (on_output (l ++ [EReceived i])) as Hout' by by unfold on_output; rewrite printed_received.
  destruct (next_value n l i Hl Hg) as [(v & -> & Hl' & Hv)|[-> ->]]; simpl.
  - pose proof (output_snoc (take n VALUES) v) as Ho. pose proof (count_after_snoc (take n VALUES) v) as Hc.
    pose proof (toxics_snoc (take n VALUES) v) as Ht. rewrite <-Hv in Ho, Hc, Ht.
    destruct (decide (v = TOXIC)) as [->|Hne].
    + simpl. split; [|done]. split; [done|]. intros _. split; [done|]. exists (Datatypes.S n). split; [done|].
      rewrite Hprint, Hrest, Ho, Hc, Ht, Hp, Hre. split_and!; [by rewrite app_nil_r|done|change (restarted []) with 0%nat; lia].
    + assert (count_after (take n VALUES) + 1 ≤ U64_MAX)%N as Hmax.
      { pose proof (count_after_length (take n VALUES)) as Hle. rewrite length_take in Hle. change (length VALUES) with 6%nat in Hle. lia. }
      unfold u64_add. rewrite decide_True by done. simpl. split; [split; [done|by intros _]|]. intros []. split; [|done]. split; [done|].
      intros _. assert (printed (l ++ [EReceived (Message (Load v)); EAnswered (Loaded v (count_after (take n VALUES) + 1)) ()]) =
        output (take (Datatypes.S n) VALUES)) as Hp' by by rewrite Hprint, Ho, Hp.
      split; [by eapply on_output_take|]. exists (Datatypes.S n). split; [|split; [done|split; [done|]]].
      * destruct Hl' as [Hn Hin]. split; [done|]. rewrite <-Hin. rewrite !incomings_app. done.
      * rewrite Hrest, Hre, Ht. change (restarted [_]) with 0%nat. lia.
  - split; [|done]. split; [done|]. intros _. split; [done|]. exists (length VALUES). split; [done|]. rewrite Hprint, Hp, firstn_all. apply app_nil_r.
Qed.

Lemma loader_inits l :
  on_output l → loader_stage l Begins → always (init Loader self) (λ t k, k ≠ HPanic ∧ (loader_gets (l ++ t) →
    leads on_output loader_stage (init_leads k) (l ++ t))).
Proof.
  intros Hout (n & [Hn Hl] & Hp & Hc & Hre). simpl. split; [split; [done|]; intros _; by rewrite app_nil_r|]. intros []. split; [|done].
  split; [done|]. intros _. assert (printed (l ++ [EAnswered LoaderInitialized ()]) = output (take n VALUES)) as Hp' by by rewrite printed_app.
  split; [by eapply on_output_take|]. exists n. split; [split; [exact Hn|]|split_and!; [exact Hp'|by symmetry|]].
  - by rewrite incomings_app, app_nil_r.
  - rewrite restarted_app, Hre. change (restarted [_]) with 0%nat. lia.
Qed.

Lemma loader_restarts l : on_output l → loader_stage l Fails → leads on_output loader_stage (Some Begins) (l ++ [ERestarting]).
Proof.
  intros Hout (n & [Hn Hl] & Hp & Hc & Hre). assert (printed (l ++ [ERestarting]) = printed l) as Hp' by by rewrite printed_app, app_nil_r.
  split; [unfold on_output; by rewrite Hp'|]. exists n.
  split; [split; [done|by rewrite incomings_app, app_nil_r]|]. rewrite Hp', restarted_app. split_and!; [done..|]. change (restarted [_]) with 1%nat. lia.
Qed.

Lemma loader_begins : on_output [] ∧ loader_stage [] Begins.
Proof. split; [apply prefix_nil|]. exists 0%nat. by repeat split; simpl; lia. Qed.

Lemma loader_rounds l st : rounds Loader self l st → loader_gets l → on_output l ∧ loader_stage l st.
Proof.
  apply (rounds_always Loader self loader_gets on_output loader_stage); [apply loader_gets_prefix|apply loader_begins|..].
  - intros l0 Ho Hst. eapply always_mono; [by apply loader_inits|]. by intros t k [_ ?].
  - intros l0 s i Ho Hst Hg. eapply always_mono; [by apply loader_receives|]. by intros t k [_ ?].
  - intros l0 Ho Hst _. by apply loader_restarts.
Qed.

Lemma loader_points l p : placed Loader self l p → loader_gets l → on_output l.
Proof.
  apply (placed_always Loader self loader_gets on_output loader_stage); [apply loader_gets_prefix|apply loader_begins|..].
  - intros l0 Ho Hst. eapply always_mono; [by apply loader_inits|]. by intros t k [_ ?].
  - intros l0 s i Ho Hst Hg. eapply always_mono; [by apply loader_receives|]. by intros t k [_ ?].
  - intros l0 Ho Hst _. by apply loader_restarts.
  - intros l0 Ho. unfold on_output. by rewrite printed_app, app_nil_r.
Qed.

(** There are fewer toxic values than restarts. *)
Lemma loader_fails l : rounds Loader self l Fails → loader_gets l → (restarted l < Pos.to_nat MAX_RESTARTS)%nat.
Proof.
  intros Hr Hg. destruct (loader_rounds _ _ Hr Hg) as [_ (n & _ & _ & _ & Hre)].
  assert (toxics (take n VALUES) ≤ toxics VALUES)%nat as Hle by apply times_sublist, sublist_take.
  change (toxics VALUES) with 2%nat in Hle. unfold MAX_RESTARTS. lia.
Qed.
End LoaderHistories.


(** ** What the overseer does *)

Section OverseerHistories.
Context (lc : ActorConfig) (self : ActorRef).

Definition tells (r : ActorRef) (ms : list Msg) : list Event := (λ m, EDid (ATell r m)) <$> ms.
Definition started (r : ActorRef) (ms : list Msg) : list Event := EDid (ASpawn Loader lc r) :: EDid (AWatch r) :: tells r ms.

(** Everything it can have done. *)
Variant overseen : list Event → Prop :=
  | overseen_nil : overseen []
  | overseen_spawned r : overseen [EDid (ASpawn Loader lc r)]
  | overseen_tells r ms : ms `prefix_of` SENT → overseen (started r ms)
  | overseen_signaled r b : overseen (started r SENT ++ [EReceived (Terminated b)])
  | overseen_ends r b : overseen (started r SENT ++ [EReceived (Terminated b); EAnswered LoaderFinished ()]).

Definition overseer_gets l : Prop := ∀ i, EReceived i ∈ l → ∃ b, i = Terminated b.
Lemma overseer_gets_prefix l l' : overseer_gets (l ++ l') → overseer_gets l.
Proof. intros Hl i Hi. apply Hl, elem_of_app. by left. Qed.

Definition overseer_stage l (st : Stage) : Prop :=
  match st with
  | Begins => l = []
  | Settled Overseeing => ∃ r, l = started r SENT
  | Stops => ∃ r b, l = started r SENT ++ [EReceived (Terminated b); EAnswered LoaderFinished ()]
  | Settled _ | Fails => False
  end.

(** Telling the loader [all]. *)
Definition telling (r : ActorRef) (all : list Msg) (t : list Event) (k : Handler State) : Prop :=
  k ≠ HPanic ∧ ∃ ms, t = tells r ms ∧ ms `prefix_of` all ∧ (at_end k = true → k = HReturn (Ok Overseeing) ∧ ms = all).

Lemma tell_values_points r vs : always (tell_values r vs) (telling r ((Load <$> vs) ++ [Finish])).
Proof.
  induction vs as [|v vs IH]; simpl.
  - split; [|split; [|done]]; (split; [done|]); [exists []|exists [Finish]]; (split_and!; [done|done || apply prefix_nil|done]).
  - split; [split; [done|]; exists []; split_and!; [done|apply prefix_nil|done]|]. eapply always_mono; [exact IH|].
    intros t k (Hk & ms & -> & Hms & Hend). split; [done|]. exists (Load v :: ms). split_and!; [done|by apply prefix_cons|].
    intros Hk'. destruct (Hend Hk') as [? ->]. done.
Qed.

Definition starting (t : list Event) (k : Handler State) : Prop :=
  k ≠ HPanic ∧ overseen t ∧ from_option (overseer_stage t) True (init_leads k).
Lemma overseer_starts (f : ActorRef → Handler State) :
  (∀ r, always (f r) (telling r SENT)) → always (HSpawn Loader lc (λ r, HWatch r (f r))) starting.
Proof.
  intros Hf. simpl. split; [split_and!; [done|constructor|done]|]. intros r. split; [split_and!; [done|constructor|done]|].
  eapply always_mono; [apply Hf|]. intros t k (Hk & ms & -> & Hms & Hend). split; [done|]. split; [by constructor|].
  destruct (init_leads k) as [st|] eqn:Hst; [|done]. assert (at_end k = true) as Hk' by by destruct k.
  destruct (Hend Hk') as [-> ->]. simplify_eq/=. by exists r.
Qed.
Lemma overseer_init : always (init (Overseer lc) self) starting.
Proof. exact (overseer_starts (λ r, tell_values r VALUES) (λ r, tell_values_points r VALUES)). Qed.

Lemma overseer_receive l s i :
  overseer_stage l (Settled s) → overseer_gets (l ++ [EReceived i]) →
  always (receive (Overseer lc) self i s) (λ t k, k ≠ HPanic ∧ overseen (l ++ EReceived i :: t) ∧
    from_option (overseer_stage (l ++ EReceived i :: t)) True (receive_leads k)).
Proof.
  intros Hs Hg. destruct s; [|done]. destruct Hs as [r ->]. destruct (Hg i) as [b ->]; [apply elem_of_app; right; by left|]. simpl.
  split; [split; [done|]; split; [constructor|done]|]. intros []. split; [|done]. split; [done|]. split; [constructor|by exists r, b].
Qed.

Lemma overseer_rounds l st : rounds (Overseer lc) self l st → overseer_gets l → overseen l ∧ overseer_stage l st.
Proof.
  apply (rounds_always (Overseer lc) self overseer_gets overseen overseer_stage); [apply overseer_gets_prefix|by split; [constructor|]|..].
  - intros l0 _ H. assert (l0 = []) as -> by exact H. eapply always_mono; [apply overseer_init|]. intros t k (_ & ? & Hst) _. split; [done|]. exact Hst.
  - intros l0 s i _ Hs Hg. eapply always_mono; [by apply overseer_receive|]. intros t k (_ & ? & Hst) _. split; [done|]. exact Hst.
  - by intros l0 _ [].
Qed.

Lemma overseer_points l p : placed (Overseer lc) self l p → overseer_gets l → ∃ l' told, l = l' ++ told ∧ overseen l' ∧ (told = [] ∨ told = [EStopped]).
Proof.
  intros (l1 & told & -> & Hl & Htold)%placed_reached Hg%overseer_gets_prefix. exists l1, told. split; [done|]. split; [|done].
  destruct Hl as [l st Hr|l t k Hr Hd|l s i t k Hr Hd].
  - by eapply overseer_rounds.
  - destruct (overseer_rounds _ _ Hr (overseer_gets_prefix _ _ Hg)) as [_ H]. assert (l = []) as -> by exact H. by apply (always_does _ _ _ _ overseer_init Hd).
  - destruct (received_point overseer_gets overseer_gets_prefix _ _ _ Hg) as [H1 H2]. destruct (overseer_rounds _ _ Hr H1) as [_ Hs].
    by apply (always_does _ _ _ _ (overseer_receive _ _ _ Hs H2) Hd).
Qed.

Lemma sends_tells b r ms : sends b (tells r ms) = if decide (actor_id r = b) then ms else [].
Proof.
  induction ms as [|m ms IH]; [by case_decide|]. change (tells r (m :: ms)) with ([EDid (ATell r m)] ++ tells r ms). rewrite sends_app, IH.
  unfold sends. simpl. by case_decide.
Qed.

Lemma overseer_sends l b : overseen l → sends b l `prefix_of` SENT.
Proof.
  assert (∀ r ms, sends b (started r ms) = sends b (tells r ms)) as Hst by done.
  destruct 1 as [|r|r ms Hms|r x|r x]; rewrite ?sends_app, ?Hst, ?sends_tells, ?app_nil_r; try apply prefix_nil; case_decide; try done; try apply prefix_nil.
Qed.

Lemma started_watches b r ms : watches_now b (started r ms) = true → b = actor_id r.
Proof.
  unfold watches_now, started. simpl. assert (∀ s, foldl (watch_event b) s (tells r ms) = s) as -> by (by induction ms).
  by case_decide.
Qed.
End OverseerHistories.


(** ** The runs *)

Section Runs.
Context {F : Flume} {FL : FlumeLaws F} {TW : TokioWatch} {TL : TokioWatchLaws TW}.
Context {TO : TokioOneshot} {TOL : TokioOneshotLaws TO}.
#[local] Abbreviation World := (World (M:=Msg) (B:=Example) (S:=State) (E:=Error) (Rq:=Println) (An:=printed_answer)).
Implicit Types (w : World) (t u : list Obs).

(** The system of [main], whose overseer gets the configuration for the loader. *)
Definition supervision_system (id wid : ActorId) (backoff : Backoff) : World :=
  system_new id wid (Overseer (loader_config backoff)) default_config.

Context (id wid : ActorId) (ids : id ≠ wid) (backoff : Backoff).
#[local] Abbreviation lc := (loader_config backoff).
#[local] Abbreviation system := (supervision_system id wid backoff).
#[local] Abbreviation runs := (runs inside system).

(** *** Types *)

Definition gets (act : Example) (i : Incoming) : Prop :=
  match act, i with Overseer _, Terminated _ | Loader, Message _ => True | _, _ => False end.
Definition ok (who : ActorId → Example → ActorConfig → Prop) a i : Prop := ∀ act config, who a act config → gets act i.
Definition typed (act : Example) (s : State) : Prop :=
  match act, s with Overseer _, Overseeing | Loader, Count _ => True | _, _ => False end.

Lemma keeps_tell_values who spawnable c a (r : ActorRef) vs : known who (actor_id r) → (∀ m, ok who (actor_id r) (Message m)) →
  keeps who spawnable (ok who) a (typed (Overseer c)) (tell_values r vs).
Proof. intros Hk Hok. induction vs as [|v vs IH]; simpl; auto. Qed.

Lemma supervision_typed (who : ActorId → Example → ActorConfig → Prop) (spawnable : Example → ActorConfig → Prop) :
  (∀ a act act' config config', who a act config → who a act' config' → act = act') →
  (∀ a c config, who a (Overseer c) config → spawnable Loader c) → typed_actor who spawnable (ok who) (λ _, typed).
Proof.
  intros Hfun Hspawn a act config Hw.
  assert (∀ i, ok who a i → gets act i) as Hgets by (intros i Hi; by apply (Hi act config)).
  destruct act as [c|].
  - split.
    + change (init (Overseer c) (mk_ref a)) with (HSpawn Loader c (λ r, HWatch r (tell_values r VALUES)) : Handler State).
      split; [by eapply Hspawn|]. intros r Hr. assert (known who (actor_id r)) as Hk by by exists Loader, c.
      split; [split; [done|]|apply keeps_tell_values; [done|]].
      * intros act' config' Hw'. by rewrite <-(Hfun _ _ _ _ _ Hw Hw').
      * intros m act' config' Hw'. by rewrite <-(Hfun _ _ _ _ _ Hr Hw').
    + intros i s Hi%Hgets Hs. by destruct i, s.
  - split; [done|]. intros i s Hi%Hgets Hs. destruct i as [m|b], s as [|count]; try done. simpl.
    destruct m as [v|]; simpl; [|done]. case_decide; [done|]. by destruct (u64_add count 1).
Qed.

Section World.
Context w t h (Hr : runs w t h).
#[local] Abbreviation who := (cast w).

Lemma supervision_well_typed (spawnable : Example → ActorConfig → Prop) :
  (∀ a c config, who a (Overseer c) config → spawnable Loader c) →
  well_typed id (Overseer lc) default_config w h spawnable (ok who) (λ _, typed).
Proof.
  intros Hs. eapply (runs_typed id wid (Overseer lc) default_config ids inside w t h Hr); [done|].
  apply supervision_typed; [|done]. intros a act act' config config' Hw Hw'. by destruct (cast_agrees w _ _ _ _ _ Hw Hw').
Qed.

(** Every actor is the root, the overseer, or a loader. *)
Lemma who_is a act config :
  who a act config → a = id ∧ act = Overseer lc ∧ config = default_config ∨ a ≠ id ∧ act = Loader ∧ config = lc.
Proof.
  assert (∀ a c config, who a (Overseer c) config → c = lc) as Hlc.
  { intros x c config' (k & Hk & Hact & _).
    destruct (wt_cast _ _ _ _ _ _ _ _ (supervision_well_typed (λ act _, act = Loader) ltac:(done)) _ _ Hk) as [(_ & Hx & _)|[_ Hx]]; congruence. }
  intros (k & Hk & <- & <-).
  destruct (wt_cast _ _ _ _ _ _ _ _ (supervision_well_typed (λ act config, act = Loader ∧ config = lc) ltac:(naive_solver)) _ _ Hk)
    as [(-> & -> & ->)|(? & -> & ->)]; [by left|by right].
Qed.

Lemma actor_history a act config : who a act config → (∃ p, placed act (mk_ref a) (h a) p) ∧ ∀ i, EReceived i ∈ h a → gets act i.
Proof.
  pose proof (supervision_well_typed (λ _ _, True) ltac:(done)) as Hwt.
  intros Hw. pose proof Hw as (k & Hk & <- & <-). split.
  - exists (t_phase k). by apply (wt_placed _ _ _ _ _ _ _ _ Hwt).
  - intros i Hi. by apply (wt_gets _ _ _ _ _ _ _ _ Hwt a i Hi _ _ Hw).
Qed.

Lemma root_who : who id (Overseer lc) default_config.
Proof. destruct (th_root _ _ _ _ _ _ (runs_threads _ _ _ _ ids _ _ _ _ Hr)) as [p Hp]. by eexists. Qed.

Lemma root_seen : ∃ l told, h id = l ++ told ∧ overseen lc l ∧ (told = [] ∨ told = [EStopped]).
Proof.
  destruct (actor_history _ _ _ root_who) as [[p Hp] Hg]. eapply overseer_points; [exact Hp|].
  intros i Hi%Hg. destruct i as [|b]; [done|by exists b].
Qed.

Lemma loader_tells_nobody a b : who a Loader lc → sends b (h a) = [].
Proof.
  intros Hw. destruct (actor_history _ _ _ Hw) as [[p Hp] Hg].
  assert (Forall (λ e, sends b [e] = []) (h a)) as Hall.
  { eapply (placed_only Loader (mk_ref a) _ (λ st, match st with Settled Overseeing => False | _ => True end) (gets Loader));
      [|done|done| | |exact Hp|exact Hg].
    - by intros [i| | | |] He.
    - by intros [].
    - intros [m|x] [|count]; try done. intros _ _. simpl. destruct m as [v|]; simpl; [|done]. case_decide; [done|].
      destruct (u64_add count 1); simpl; auto. }
  clear Hp Hg. induction Hall as [|e l He _ IH]; [done|]. change (e :: l) with ([e] ++ l). by rewrite sends_app, He, IH.
Qed.

Lemma sent_by_root a b m : m ∈ sends b (h a) → a = id.
Proof.
  intros Hm. destruct (decide (a = id)) as [|Hne]; [done|]. destruct (tasks w !! a) as [k|] eqn:Hk; last first.
  { rewrite (th_fresh _ _ _ _ _ _ (runs_threads _ _ _ _ ids _ _ _ _ Hr) _ Hk) in Hm. by apply elem_of_nil in Hm. }
  assert (who a (t_actor k) (t_config k)) as Hw by by exists k.
  destruct (who_is _ _ _ Hw) as [[? _]|(_ & Hact & Hcfg)]; [done|]. rewrite Hact, Hcfg in Hw.
  rewrite (loader_tells_nobody _ _ Hw) in Hm. by apply elem_of_nil in Hm.
Qed.

(** What the loader gets, in this order. *)
Lemma loader_history a : who a Loader lc → loader_gets (h a).
Proof.
  intros Hw. destruct (actor_history _ _ _ Hw) as [_ Hg]. unfold loader_gets.
  assert (incomings (h a) = Message <$> messages (incomings (h a))) as ->.
  { assert (∀ i, i ∈ incomings (h a) → gets Loader i) as Hin by (intros i Hi%elem_of_incomings; by apply Hg).
    revert Hin. generalize (incomings (h a)) as ins. clear. intros ins Hin. unfold messages. induction ins as [|i ins IH]; [done|]. simpl.
    destruct i as [m|b]; [|by destruct (Hin (Terminated b)); left]. simpl. f_equal. apply IH. intros i Hi. apply Hin. by right. }
  assert (messages (incomings (h a)) `prefix_of` SENT) as [k Hk]; [|exists (Message <$> k); by rewrite Hk, fmap_app].
  etrans.
  - apply (received_prefix id wid _ _ ids inside w t h a id Hr); [|by intros to m []|by intros x m Hm%sent_by_root].
    intros k Hk. destruct Hw as (k' & Hk' & _ & Hcfg). simplify_eq. by rewrite Hcfg.
  - destruct root_seen as (l & told & -> & Hl & Htold). rewrite sends_app.
    assert (sends a told = []) as -> by by destruct Htold as [->| ->]. rewrite app_nil_r. by eapply overseer_sends.
Qed.

(** No code of [supervision] panics. *)
Lemma never_panics_here a c : cells w !! a = Some c → phase c ≠ Initializing HPanic ∧ ∀ up, phase c ≠ Receiving HPanic up.
Proof.
  intros Hc. pose proof (lookup_tasks _ _ _ Hc) as Hk. assert (who a (actor c) (config c)) as Hw by by eexists.
  destruct (actor_history _ _ _ Hw) as [_ Hg]. pose proof (wt_placed _ _ _ _ _ _ _ _ (supervision_well_typed (λ _ _, True) ltac:(done)) _ _ Hk) as Hp.
  simpl in Hp. split.
  - intros Hph. rewrite Hph in Hp. inversion Hp as [? ? ? _ Hd| | | | | | | | |]; subst; try done.
    assert ((HPanic : Handler State) ≠ HPanic); [|done]. destruct (who_is _ _ _ Hw) as [(_ & Hact & _)|(_ & Hact & _)]; rewrite Hact in Hd.
    + exact (proj1 (always_does _ _ _ _ (overseer_init lc (mk_ref a)) Hd)).
    + eapply (always_does _ _ _ (λ _ k, k ≠ HPanic)); [|exact Hd]. by repeat split.
  - intros up Hph. rewrite Hph in Hp. inversion Hp as [| |l s i t' k up' Hs Hd Hl| | | | | | |]; subst; try done.
    destruct (who_is _ _ _ Hw) as [(_ & Hact & _)|(_ & Hact & Hcfg)]; rewrite Hact in Hd, Hs, Hg.
    + assert (overseer_gets (h a)) as Hov by (intros j Hj%Hg; destruct j as [|b]; [done|by exists b]).
      rewrite <-Hl in Hov. destruct (received_point overseer_gets overseer_gets_prefix _ _ _ Hov) as [H1 H2].
      destruct (overseer_rounds _ _ _ _ Hs H1) as [_ Hst]. exact (proj1 (always_does _ _ _ _ (overseer_receive _ _ _ _ _ Hst H2) Hd) eq_refl).
    + rewrite Hact, Hcfg in Hw. pose proof (loader_history a Hw) as Hlg. rewrite <-Hl in Hlg.
      destruct (received_point loader_gets loader_gets_prefix _ _ _ Hlg) as [H1 H2].
      destruct (loader_rounds _ _ _ Hs H1) as [Ho Hst]. exact (proj1 (always_does _ _ _ _ (loader_receives _ _ _ _ Ho Hst H2) Hd) eq_refl).
Qed.

Lemma loader_output a : who a Loader lc → on_output (h a).
Proof. intros Hw. destruct (actor_history _ _ _ Hw) as [[p Hp] _]. by eapply loader_points, loader_history. Qed.

Lemma root_gets : overseer_gets (h id).
Proof. intros i Hi. destruct (actor_history _ _ _ root_who) as [_ Hg]. specialize (Hg _ Hi). destruct i as [|b]; [done|by exists b]. Qed.

(** How the overseer ends by itself. *)
Lemma root_ends c : cells w !! id = Some c → running (phase c) = false → EStopped ∉ h id → overseer_stage lc (h id) Stops.
Proof.
  intros Hc Hend Hst. pose proof (lookup_tasks _ _ _ Hc) as Hk.
  pose proof (wt_placed _ _ _ _ _ _ _ _ (supervision_well_typed (λ _ _, True) ltac:(done)) _ _ Hk) as Hp. simpl in Hp.
  destruct (cast_agrees w id (actor c) (Overseer lc) (config c) default_config) as [Hact _]; [by eexists|apply root_who|].
  rewrite Hact in Hp. destruct (placed_end _ _ _ _ Hp Hend Hst) as [Hr'|Hr']; [by apply (overseer_rounds _ _ _ _ Hr' root_gets)|].
  by destruct (overseer_rounds _ _ _ _ Hr' root_gets).
Qed.

(** A loader which has ended without being told to has loaded everything: it has not given up. *)
Lemma loader_ends a c : cells w !! a = Some c → who a Loader lc → running (phase c) = false → EStopped ∉ h a → printed (h a) = output VALUES.
Proof.
  intros Hc Hw Hend Hst. destruct (cast_agrees w a (actor c) Loader (config c) lc) as [Hact Hcfg]; [|exact Hw|].
  { exists (task_of c). split_and!; [by apply lookup_tasks|done..]. }
  pose proof (loader_history a Hw) as Hg.
  destruct (ri_ended _ _ (runs_restarts id wid _ _ ids inside w t h Hr) a c Hc Hend Hst) as [Hs|[Hs Hgive]]; rewrite Hact in Hs.
  - by destruct (loader_rounds _ _ _ Hs Hg) as [_ (n & _ & Hp)].
  - exfalso. pose proof (loader_fails _ _ Hs Hg) as Hlt. rewrite Hcfg in Hgive. simpl in Hgive. lia.
Qed.
End World.

Lemma started_runs_on c (r : ActorRef) ms : ERestarting ∉ started c r ms.
Proof. intros [?|[?|(m & ? & _)%list_elem_of_fmap]%elem_of_cons]%elem_of_cons; done. Qed.

Lemma watches_started c (r : ActorRef) ms : watches_now (actor_id r) (started c r ms) = true.
Proof.
  unfold watches_now, started. simpl. rewrite decide_True by done. by induction ms.
Qed.

(** Once the overseer has got its signal, its loader has loaded everything. *)
Lemma loader_signaled w t h r b l2 :
  runs w t h → h id = started lc r SENT ++ EReceived (Terminated b) :: l2 → printed (h (actor_id r)) = output VALUES.
Proof.
  intros Hr Hl. pose proof (received_while_watching id wid _ _ ids inside w t h id b _ _ Hr Hl) as Hb%started_watches. subst b.
  destruct (received_running inside _ _ _ _ _ _ _ _ Hr Hl) as (w1 & t1 & h1 & k & Hr1 & Hl1 & Hk & Hrun & Hend).
  apply tasks_lookup in Hk as (c & Hc & <-).
  destruct (signaled_child id wid _ _ ids inside w1 t1 h1 Hr1 id c Loader lc r) as (k' & Hk' & Hend' & Hst); [done|done|..].
  - rewrite Hl1. intros [Hin%started_runs_on|Hin%list_elem_of_singleton]%elem_of_app; done.
  - rewrite Hl1. by left.
  - rewrite Hl1, incomings_app, signals_app, elem_of_app. right. by left.
  - destruct (Hend _ _ Hk' Hend') as (Hsame & k'' & Hk'' & Hend''). rewrite <-Hsame in Hst. apply tasks_lookup in Hk'' as (c'' & Hc'' & <-).
    eapply (loader_ends w t h Hr); [exact Hc''| |exact Hend''|exact Hst].
    destruct (th_children _ _ _ _ _ _ (runs_threads _ _ _ _ ids _ _ _ _ Hr) id Loader lc r) as (g & p & Hp & _); [rewrite Hl; by left|].
    by eexists.
Qed.

(** *** At rest *)

Section AtRest.
Context w t h (Hr : runs w t h).
Context (rest : ∀ a c, cells w !! a = Some c → phase c = Done ∨ idle w c).

(** The overseer cannot be left waiting: whom it watches had to be idle, yet has got [Finish]. *)
Lemma overseer_not_idle c : cells w !! id = Some c → ¬ idle w c.
Proof.
  intros Hc Hidle. destruct (idle_rounds id wid _ _ ids inside w t h Hr id c Hc Hidle) as [s Hs].
  destruct (cast_agrees w id (actor c) (Overseer lc) (config c) default_config) as [Hact _]; [|by eapply root_who|].
  { exists (task_of c). split_and!; [by apply lookup_tasks|done..]. }
  rewrite Hact in Hs. destruct (overseer_rounds _ _ _ _ Hs (root_gets w t h Hr)) as [_ Hst].
  destruct s; [|done]. destruct Hst as [r Hroot].
  destruct (rest_watched id wid _ _ ids inside w t h Hr rest id (actor_id r) c Hc Hidle) as (d & Hd & Hdle).
  { rewrite Hroot. by apply watches_started. }
  destruct (th_children _ _ _ _ _ _ (runs_threads _ _ _ _ ids _ _ _ _ Hr) id Loader lc r) as (g & p & Hp & _); [rewrite Hroot; by left|].
  assert (cast w (actor_id r) Loader lc) as Hw by by eexists. rewrite (lookup_tasks _ _ _ Hd) in Hp. injection Hp as Hloader Hcfg _ _.
  assert (Message Finish ∈ incomings (h (actor_id r))) as Hfin.
  { apply elem_of_incomings, (rest_told id wid _ _ ids inside w t h Hr _ id d Finish Hd Hdle); [by rewrite Hcfg|].
    rewrite Hroot. change (started lc r SENT) with ([EDid (ASpawn Loader lc r); EDid (AWatch r)] ++ tells r SENT).
    rewrite sends_app, sends_tells, decide_True by done. by apply elem_of_app; right; repeat (apply list_elem_of_here || right). }
  destruct (idle_rounds id wid _ _ ids inside w t h Hr _ d Hd Hdle) as [s Hls]. rewrite Hloader in Hls.
  destruct (loader_rounds _ _ _ Hls (loader_history w t h Hr _ Hw)) as [_ [n Hst]]. destruct s as [|count]; [done|].
  destruct Hst as [[_ Hin] _]. rewrite Hin in Hfin. by apply list_elem_of_fmap in Hfin as (v & ? & _).
Qed.
End AtRest.
End Runs.

(** ** What is printed *)

(** What [main] prints of the loader. *)
Definition expected_output : list Println :=
  [LoaderInitialized; Loaded 1 1; Loaded 2 2; LoaderInitialized; Loaded 3 1; LoaderInitialized; Loaded 4 1]%N.

(** C15. A restart keeps the mailbox and rebuilds the state. In every interleaving of the overseer and its loader, whenever
    the loader's restarts are due, what the loader has printed is the beginning of the one output where each toxic
    value has the count start over and each value queued behind it is loaded nevertheless; and once the overseer has
    ended, unless the system was stopped from outside, the loader has printed all of it: three restarts are enough
    for two toxic values. The overseer does end: when no task can take a step any more, not even by time passing, it
    has, so neither a toxic value nor the backoff before a restart leaves it waiting. No code panics. *)
Theorem restarts_keep_the_mailbox {F : Flume} {FL : FlumeLaws F} {TW : TokioWatch} {TL : TokioWatchLaws TW}
    {TO : TokioOneshot} {TOL : TokioOneshotLaws TO} (id wid : ActorId) backoff ls w t :
  id ≠ wid → exec ls (supervision_system id wid backoff) = Some (w, t) → Forall inside ls →
  ∃ h : ActorId → list Event,
    (∀ a c, cells w !! a = Some c → thread (actor c) (mk_ref a) (h a) (phase c) ∧
       phase c ≠ Initializing HPanic ∧ ∀ up, phase c ≠ Receiving HPanic up) ∧
    (∀ a, omap seen (h a) = own a t) ∧
    (∀ a c, cells w !! a = Some c → actor c = Loader → printed (h a) `prefix_of` expected_output) ∧
    (∀ c, cells w !! id = Some c → running (phase c) = false → OStopRequested ∉ t →
       printed (h id) = [LoaderFinished] ∧ ∃ loader, omap spawned (h id) = [loader] ∧ printed (h loader) = expected_output) ∧
    ((∀ a, blocked w a) → ∃ c, cells w !! id = Some c ∧ phase c = Done).
Proof.
  intros ids He Hin. destruct (exec_runs id wid _ default_config ids inside ls w t He Hin) as [h Hr].
  exists h. pose proof (runs_threads _ _ _ _ ids _ _ _ _ Hr) as Hth. split_and!.
  - intros a c Hc. split; [apply (th_runs _ _ _ _ _ _ Hth _ _ (lookup_tasks _ _ _ Hc))|by eapply never_panics_here].
  - apply (th_shown _ _ _ _ _ _ Hth).
  - intros a c Hc Hact. eapply (loader_output id wid ids backoff w t h Hr).
    assert (cast w a (actor c) (config c)) as Hw by (exists (task_of c); split_and!; [by apply lookup_tasks|done..]).
    destruct (who_is id wid ids backoff w t h Hr _ _ _ Hw) as [(_ & ? & _)|(_ & Hl & Hcfg)]; [congruence|]. by rewrite Hl, Hcfg in Hw.
  - intros c Hc Hend Hno. pose proof (root_told_to_stop id wid _ default_config ids inside w t h Hr Hno) as Hst.
    destruct (root_ends id wid ids backoff w t h Hr c Hc Hend Hst) as (r & b & Hl). rewrite Hl. split; [done|]. exists (actor_id r).
    split; [done|]. by eapply (loader_signaled id wid ids backoff w t h r b).
  - intros Hblocked. destruct (exec_told_inv id wid _ _ ls w t ids He) as (Hsys & Htold & Hkept).
    pose proof (typed_references id wid _ _ ids _ _ _ _ _ (supervision_well_typed id wid ids backoff w t h Hr (λ _ _, True) ltac:(done))) as Hrefs.
    pose proof (all_blocked (λ _, ()) _ _ _ _ Hsys Htold Hkept Hrefs Hblocked) as Hall.
    destruct (root_who id wid ids backoff w t h Hr) as (k & Hk & _). apply tasks_lookup in Hk as (c & Hc & _).
    exists c. split; [done|]. destruct (Hall _ _ Hc) as [?|Hidle]; [done|]. by destruct (overseer_not_idle id wid ids backoff w t h Hr Hall c Hc).
Qed.

(** ** A run *)

Import Reference ReferenceTokio.

#[local] Abbreviation World := (World (M:=Msg) (B:=Example) (S:=State) (E:=Error) (Rq:=Println) (An:=printed_answer)).

Definition overseer_id : ActorId := mk_actor_id 1.
Definition watcher_id : ActorId := mk_actor_id 2.
Definition backoff_of_main : Backoff := match loader_backoff with Ok backoff => backoff | Err _ => default_backoff end.
Definition supervision_world : World := supervision_system overseer_id watcher_id backoff_of_main.
Definition driven_world : World := match exec [LWatchRoot] supervision_world with Some (w, _) => w | None => supervision_world end.
Definition supervision_run : list Label := LWatchRoot :: drive (λ _, ()) 200 driven_world.

Definition not_stopped (o : Obs) : bool := match o with OStopRequested => false | _ => true end.
Definition supervision_run_ok : bool :=
  match exec supervision_run supervision_world with
  | Some (w, t) => all_rest w && forallb not_stopped t && match cells w !! overseer_id with Some c => is_done c | None => false end
  | None => false
  end.
Lemma supervision_run_is_ok : supervision_run_ok = true.
Proof. vm_compute. reflexivity. Qed.

Lemma loader_backoff_is_valid : loader_backoff = Ok backoff_of_main.
Proof. vm_compute. reflexivity. Qed.

(** The run, with what is needed of it. *)
Lemma supervision_run_facts : ∃ (w : World) t c, exec supervision_run supervision_world = Some (w, t) ∧ Forall inside supervision_run ∧
  (∀ a, blocked w a) ∧ OStopRequested ∉ t ∧ cells w !! overseer_id = Some c ∧ phase c = Done.
Proof.
  pose proof supervision_run_is_ok as Hok. unfold supervision_run_ok in Hok. destruct (exec supervision_run _) as [[w t]|] eqn:He; [|done].
  rewrite !andb_true_iff in Hok. destruct Hok as [[Hrest Hno] Hdone].
  destruct (cells w !! overseer_id) as [c|] eqn:Hc; [|done]. exists w, t, c. split_and!; [done| | | |done|].
  - constructor; [exact I|apply drive_inside].
  - exact (all_rest_blocked w Hrest).
  - intros Hin%list_elem_of_In. by pose proof (proj1 (forallb_forall _ _) Hno _ Hin).
  - unfold is_done in Hdone. destruct (phase c); congruence.
Qed.

Lemma supervision_ids : overseer_id ≠ watcher_id.
Proof. done. Qed.

Lemma restarts_keep_the_mailbox_witness : ∃ (h : ActorId → list Event) loader,
  printed (h overseer_id) = [LoaderFinished] ∧ printed (h loader) = expected_output.
Proof.
  destruct supervision_run_facts as (w & t & c & He & Hin & Hblocked & Hno & _).
  destruct (restarts_keep_the_mailbox overseer_id watcher_id backoff_of_main supervision_run w t supervision_ids He Hin) as (h & _ & _ & _ & Hall & Hends).
  exists h. destruct (Hends Hblocked) as (d & Hd & Hend). destruct (Hall d Hd) as (Hroot & loader & _ & Hl); [rewrite Hend; reflexivity|exact Hno|].
  exists loader. split; [exact Hroot|exact Hl].
Defined.

