(* ===== verification/HelloExample.v ===== *)
(** The example [tellus/examples/hello.rs], the minimal program: its actor greets for the first message and stops. *)
From stdpp Require Import strings.
From S2P Require Import Prelude Backoff Config Flume Quota Actor Mailbox MailboxSpec Tokio Runtime RuntimeMoves RuntimeTree RuntimeWatch RuntimeSystem RuntimeTrace RuntimeMailboxes RuntimeProgress Handlers RuntimeThreads RuntimeProtocols RuntimeRounds RuntimeScheduler.

Inductive Greet := greet (name : string).
Inductive Greeter := greeter.
Inductive Println := println (line : string).
Definition printed_answer (q : Println) : Type := unit.

#[local] Abbreviation Handler := (Handler (M:=Greet) (B:=Greeter) (E:=Nothing) (Rq:=Println) (An:=printed_answer)).
#[local] Abbreviation Event := (Event (M:=Greet) (B:=Greeter) (Rq:=Println) (An:=printed_answer)).
#[local] Abbreviation Stage := (Stage (S:=unit)).
#[local] Abbreviation Obs := (Obs (M:=Greet)).
Implicit Types (l u : list Event) (a : ActorId) (t : list Obs).

Definition greeter_receive (incoming : Incoming Greet) : Handler (Control ()) :=
  match incoming with
  | Message (greet name) => HAwait (println ("Hello, " ++ name ++ "!")%string) (λ _, HReturn (Ok Actor.Stop))
  | Terminated _ => HReturn (Ok Actor.Stop)
  end.

#[export] Instance greeter_actor : Runtime.Actor Greet Greeter () Nothing Println printed_answer := {
  init _ _ := HReturn (Ok ());
  receive _ _ incoming _ := greeter_receive incoming;
}.


(** What is printed. *)
Definition printed l : list string :=
  omap (λ e, match e with EAnswered (println line) () => Some line | _ => None end) l.
Lemma greeter_printed_app l l' : printed (l ++ l') = printed l ++ printed l'.
Proof. apply omap_app. Qed.

(** Nothing is printed before something has been received, and only the greeting for it after. *)
Definition greeted l : Prop :=
  printed l = [] ∨ ∃ name rest, incomings l = Message (greet name) :: rest ∧ printed l = ["Hello, " ++ name ++ "!"]%string.
Definition greeter_stage l (st : Stage) : Prop :=
  match st with Begins => l = [] | Settled _ => l = [] | Stops => True | Fails => False end.

Lemma greeter_points self l p : placed greeter self l p → greeted l.
Proof.
  intros Hp. apply (placed_always greeter self (λ _, True) greeted greeter_stage (λ _ _ _, I)) with (p := p); try done.
  - split; [by left|done].
  - intros l0 Hg Hl. simpl. split; [|done]. intros _. assert (l0 = []) as -> by exact Hl. split; [by left|done].
  - intros l0 [] i Hg Hl _. assert (l0 = []) as -> by exact Hl. destruct i as [[name]|a]; simpl.
    + split; [intros _; split; [by left|done]|]. intros []. split; [|done]. intros _. split; [right; by exists name, []|done].
    + split; [|done]. intros _. split; [by left|done].
  - intros l0 [Hn|(name & rest & Hi & Hn)]; [left|right; exists name, rest].
    + by rewrite greeter_printed_app, Hn.
    + rewrite incomings_app, greeter_printed_app, Hi, Hn. simpl. by rewrite !(right_id_L [] (++)).
Qed.

Section Runs.
Context {F : Flume} {FL : FlumeLaws F} {TW : TokioWatch} {TL : TokioWatchLaws TW}.
Context {TO : TokioOneshot} {TOL : TokioOneshotLaws TO}.
#[local] Abbreviation World := (World (M:=Greet) (B:=Greeter) (S:=unit) (E:=Nothing) (Rq:=Println) (An:=printed_answer)).

Definition system (id wid : ActorId) : World := system_new id wid greeter default_config.

(** In every interleaving one line at most is printed, the greeting of the first one enqueued. *)
Lemma greets_the_first (id wid : ActorId) ls w t : id ≠ wid → exec ls (system id wid) = Some (w, t) →
  ∃ h : ActorId → list Event,
    (∀ a c, cells w !! a = Some c → thread (Runtime.actor c) (mk_ref a) (h a) (phase c)) ∧
    (∀ a, omap seen (h a) = own a t) ∧
    (printed (h id) = [] ∨ ∃ name rest, messages (enqueued id t).*2 = greet name :: rest ∧
       printed (h id) = ["Hello, " ++ name ++ "!"]%string).
Proof.
  intros ids He. destruct (exec_runs id wid greeter default_config ids (λ _, True) ls w t He) as [h Hr]; [by apply Forall_true|].
  exists h. pose proof (runs_threads _ _ _ _ ids _ _ _ _ Hr) as Hth. split_and!.
  - intros a c Hc. apply (th_runs _ _ _ _ _ _ Hth _ _ (lookup_tasks _ _ _ Hc)).
  - apply (th_shown _ _ _ _ _ _ Hth).
  - destruct (th_root _ _ _ _ _ _ Hth) as [p Hp].
    destruct (greeter_points _ _ _ (thread_placed _ _ _ _ (th_runs _ _ _ _ _ _ Hth _ _ Hp))) as [?|(name & rest & Hi & ?)]; [by left|right].
    destruct (received_enqueued id wid greeter default_config ids (λ _, True) w t h id Hr) as [more Hmore].
    exists name, (messages rest ++ more). split; [|done]. by rewrite Hmore, Hi.
Qed.
End Runs.
