(* ===== verification/CounterExample.v ===== *)
(** The example [tellus/examples/counter.rs]: a counter which is told and asked. An ask is a message with the channel
    for its reply (see [Ask]); that the reply reflects what was told before is proved of every interleaving. *)
From stdpp Require Import strings.
From S2P Require Import Prelude Backoff Config Flume Quota Actor Mailbox MailboxSpec Tokio Runtime RuntimeMoves RuntimeTree RuntimeWatch RuntimeSystem RuntimeTrace RuntimeMailboxes RuntimeProgress Handlers RuntimeThreads RuntimeProtocols RuntimeRounds RuntimeScheduler.

Inductive Msg := Increment | Get (channel : N) | Stop.
Inductive Counter := counter.
Inductive Reply := reply (channel : N) (count : N).
Definition no_answer (q : Reply) : Type := unit.

#[local] Abbreviation Handler := (Handler (M:=Msg) (B:=Counter) (E:=Nothing) (Rq:=Reply) (An:=no_answer)).
#[local] Abbreviation Event := (Event (M:=Msg) (B:=Counter) (Rq:=Reply) (An:=no_answer)).
#[local] Abbreviation Stage := (Stage (S:=N)).
#[local] Abbreviation Label := (Label (M:=Msg) (An:=no_answer)).
#[local] Abbreviation Obs := (Obs (M:=Msg)).
Implicit Types (l u : list Event) (ms : list Msg) (a : ActorId) (t : list Obs).

(** [+] on a [u64] panics on overflow, as in a build with debug assertions. *)
Definition counter_receive (incoming : Incoming Msg) (count : N) : Handler (Control N) :=
  match incoming with
  | Message Increment => if decide (count + 1 ≤ U64_MAX)%N then HReturn (Ok (Continue (count + 1)%N)) else HPanic
  | Message (Get channel) => HAwait (reply channel count) (λ _, HReturn (Ok (Continue count)))
  | Message Stop => HReturn (Ok Actor.Stop)
  | Terminated _ => HPanic                     (* [unreachable!] *)
  end.

#[export] Instance counter_actor : Runtime.Actor Msg Counter N Nothing Reply no_answer := {
  init _ _ := HReturn (Ok 0%N);
  receive _ _ := counter_receive;
}.

#[local] Instance Msg_eq_dec : EqDecision Msg.
Proof. solve_decision. Defined.

(** ** What a counter replies *)

Definition increments ms : N := N.of_nat (length (filter (λ m, m = Increment) ms)).

Lemma increments_app ms ms' : increments (ms ++ ms') = (increments ms + increments ms')%N.
Proof. unfold increments. rewrite filter_app, length_app. lia. Qed.
Lemma increments_length ms : (increments ms ≤ N.of_nat (length ms))%N.
Proof. unfold increments. pose proof (length_filter (λ m, m = Increment) ms). lia. Qed.

Definition received l : list Msg := messages (incomings l).
Lemma received_app l l' : received (l ++ l') = received l ++ received l'.
Proof. unfold received. by rewrite incomings_app, messages_app. Qed.

(** A reply tells how many increments have been received before its request. *)
Definition replies_well l : Prop :=
  ∀ k n, EAnswered (reply k n) () ∈ l → ∃ before after, received l = before ++ Get k :: after ∧ n = increments before.

(** Messages only, and fewer than a [u64] counts. *)
Definition countable l : Prop :=
  (∀ i, EReceived i ∈ l → ∃ m, i = Message m) ∧ (N.of_nat (length (received l)) ≤ U64_MAX)%N.
Lemma countable_prefix l l' : countable (l ++ l') → countable l.
Proof.
  intros [Hm Hlen]. rewrite received_app, length_app in Hlen. split; [|lia]. intros i Hi. apply Hm, elem_of_app. by left.
Qed.

Definition counter_stage l (st : Stage) : Prop :=
  match st with
  | Begins => l = []
  | Settled count => count = increments (received l) ∧ ∀ k, Get k ∈ received l → ∃ n, EAnswered (reply k n) () ∈ l
  | Stops => True
  | Fails => False
  end.

Lemma replies_well_app l l' : replies_well l → (∀ k n, EAnswered (reply k n) () ∉ l') → replies_well (l ++ l').
Proof.
  intros Hl Hn k n [Hin|Hin]%elem_of_app; [|by destruct (Hn k n)]. destruct (Hl k n Hin) as (before & after & Hrec & ->).
  exists before, (after ++ received l'). by rewrite received_app, Hrec, <-(assoc_L (++)).
Qed.

Lemma counter_receives l count i :
  replies_well l → counter_stage l (Settled count) → countable (l ++ [EReceived i]) →
  always (counter_receive i count) (λ u k, k ≠ HPanic ∧ leads replies_well counter_stage (receive_leads k) (l ++ EReceived i :: u)).
Proof.
  intros Hl [-> Hget] [Hm Hlen]. destruct (Hm i) as [m ->]; [apply elem_of_app; right; by left|].
  assert (∀ u, received (l ++ EReceived (Message m) :: u) = received l ++ m :: received u) as Hrec by (intros u; by rewrite received_app).
  assert (∀ u, (∀ k n, EAnswered (reply k n) () ∉ u) → replies_well (l ++ EReceived (Message m) :: u)) as Hquiet.
  { intros u Hu. apply replies_well_app; [done|]. intros k n [?|?]%elem_of_cons; [done|by destruct (Hu k n)]. }
  rewrite Hrec, length_app in Hlen. simpl in Hlen. pose proof (increments_length (received l)) as Hle.
  destruct m as [|k|]; simpl.
  - rewrite decide_True by lia. split; [|done]. split; [done|]. split; [apply Hquiet; by intros ? ? ?%elem_of_nil|].
    split; [rewrite Hrec, increments_app; done|]. intros k. rewrite Hrec. intros [Hk|[?|Hk%elem_of_nil]%elem_of_cons]%elem_of_app; [|done..].
    destruct (Hget k Hk) as [n Hn]. exists n. apply elem_of_app. by left.
  - split; [split; [done|]; split; [apply Hquiet; by intros ? ? ?%elem_of_nil|done]|]. intros []. split; [|done]. split; [done|].
    split; [|split].
    + intros k' n [Hin|[?|[Hin|?%elem_of_nil]%elem_of_cons]%elem_of_cons]%elem_of_app; [|done| |done].
      * destruct (Hl k' n Hin) as (before & after & Hb & ->). exists before, (after ++ [Get k]). by rewrite Hrec, Hb, <-(assoc_L (++)).
      * injection Hin as -> ->. exists (received l), []. by rewrite Hrec.
    + rewrite Hrec, increments_app. change (increments (Get k :: received _)) with 0%N. lia.
    + intros k'. rewrite Hrec. intros [Hk|[Heq|Hk%elem_of_nil]%elem_of_cons]%elem_of_app; [| |done].
      * destruct (Hget k' Hk) as [n Hn]. exists n. apply elem_of_app. by left.
      * injection Heq as ->. exists (increments (received l)). apply elem_of_app. right. right. by left.
  - split; [|done]. split; [done|]. split; [apply Hquiet; by intros ? ? ?%elem_of_nil|done].
Qed.


Lemma counter_inits l : counter_stage l Begins → replies_well l →
  leads replies_well counter_stage (Some (Settled 0%N)) (l ++ []).
Proof. intros Hl Hr. assert (l = []) as -> by exact Hl. split; [done|]. split; [done|]. by intros k ?%elem_of_nil. Qed.

Lemma counter_rounds self l st : rounds counter self l st → countable l → replies_well l ∧ counter_stage l st.
Proof.
  apply (rounds_always counter self countable replies_well counter_stage countable_prefix).
  - split; [|done]. by intros k n ?%elem_of_nil.
  - intros l0 Hr Hl. simpl. split; [|done]. intros _. by apply counter_inits.
  - intros l0 s i Hr Hl Hc. eapply always_mono; [by apply counter_receives|]. by intros u k [_ ?].
  - by intros l0 _ [].
Qed.

Lemma counter_points self l p : placed counter self l p → countable l → replies_well l.
Proof.
  apply (placed_always counter self countable replies_well counter_stage countable_prefix).
  - split; [|done]. by intros k n ?%elem_of_nil.
  - intros l0 Hr Hl. simpl. split; [|done]. intros _. by apply counter_inits.
  - intros l0 s i Hr Hl Hc. eapply always_mono; [by apply counter_receives|]. by intros u k [_ ?].
  - by intros l0 _ [].
  - intros l0 Hr. apply replies_well_app; [done|]. by intros k n ?%list_elem_of_singleton.
Qed.

(** ** The runs *)

Section Runs.
Context {F : Flume} {FL : FlumeLaws F} {TW : TokioWatch} {TL : TokioWatchLaws TW}.
Context {TO : TokioOneshot} {TOL : TokioOneshotLaws TO}.
#[local] Abbreviation World := (World (M:=Msg) (B:=Counter) (S:=N) (E:=Nothing) (Rq:=Reply) (An:=no_answer)).

(** The system of [main], told and asked by whoever has a reference. *)
Definition system (id wid : ActorId) : World := system_new id wid counter default_config.

Context (id wid : ActorId) (ids : id ≠ wid).
#[local] Abbreviation runs := (runs (λ _, True) (system id wid)).
Context (w : World) t h (Hr : runs w t h).

Lemma counter_typed : well_typed id counter default_config w h (λ _ _, False) (λ _ i, ∃ m, i = Message m) (λ _ _ _, True).
Proof.
  eapply (runs_typed id wid counter default_config ids (λ _, True) w t h Hr); [eauto|].
  intros a [] config _. split; [done|]. intros i s [m ->] _. destruct m; simpl; [by case_decide|done|done].
Qed.

Lemma only_the_root a c : cells w !! a = Some c → a = id ∧ config c = default_config.
Proof.
  intros Hc%lookup_tasks. destruct (wt_cast _ _ _ _ _ _ _ _ counter_typed _ _ Hc) as [(-> & _ & Hcfg)|[_ []]]. by split.
Qed.

Lemma trace_countable a : (N.of_nat (length t) ≤ U64_MAX)%N → countable (h a).
Proof.
  intros Hlen. split; [apply (wt_gets _ _ _ _ _ _ _ _ counter_typed a)|].
  destruct (received_enqueued id wid counter default_config ids (λ _, True) w t h a Hr) as [rest Hrest].
  assert (length (received (h a)) ≤ length t)%nat; [|lia]. unfold received.
  trans (length (messages (enqueued a t).*2)); [rewrite Hrest, length_app; lia|].
  unfold messages. etrans; [apply length_omap_le|]. rewrite length_fmap. apply length_omap_le.
Qed.

Lemma counter_never_panics a c : (N.of_nat (length t) ≤ U64_MAX)%N → cells w !! a = Some c →
  phase c ≠ Initializing HPanic ∧ ∀ up, phase c ≠ Receiving HPanic up.
Proof.
  intros Hlen Hc. pose proof (wt_placed _ _ _ _ _ _ _ _ counter_typed _ _ (lookup_tasks _ _ _ Hc)) as Hp. simpl in Hp. split.
  - intros Hph. rewrite Hph in Hp. inversion Hp as [? ? ? _ Hd| | | | | | | | |]; subst; try done. destruct (Runtime.actor c); inversion Hd; subst.
    match goal with H : RuntimeThreads.acts _ _ _ |- _ => by apply acts_inv in H end.
  - intros up Hph. rewrite Hph in Hp. inversion Hp as [| |l s i u k up' Hs Hd Hl| | | | | | |]; subst; try done.
    pose proof (trace_countable a Hlen) as Hcount. rewrite <-Hl in Hcount.
    destruct (received_point countable countable_prefix _ _ _ Hcount) as [H1 H2]. destruct (Runtime.actor c).
    destruct (counter_rounds _ _ _ Hs H1) as [Hrep Hst].
    by destruct (always_does _ _ _ _ (counter_receives _ _ _ Hrep Hst H2) Hd) as [? _].
Qed.

(** At rest every request has been replied to. *)
Lemma counter_replied c k :
  (N.of_nat (length t) ≤ U64_MAX)%N → cells w !! id = Some c → idle w c → Get k ∈ messages (enqueued id t).*2 →
  ∃ n, EAnswered (reply k n) () ∈ h id.
Proof.
  intros Hlen Hc Hidle Hin. destruct (idle_rounds id wid _ _ ids _ w t h Hr id c Hc Hidle) as [s Hs]. destruct (Runtime.actor c).
  destruct (counter_rounds _ _ _ Hs (trace_countable id Hlen)) as [_ [_ Hget]]. apply Hget. unfold received.
  apply elem_of_messages in Hin. apply list_elem_of_fmap in Hin as ([src i] & Hi & Hin). simpl in Hi. subst i.
  apply elem_of_messages, elem_of_incomings. by eapply (rest_received id wid _ _ ids _ w t h Hr id c src).
Qed.
End Runs.

(** C17. An ask reflects every tell before it. In every interleaving of a counter with whoever tells and asks it, a reply to a
    request is the number of increments enqueued before this request, exactly; the code does not panic as long as
    fewer things happen than a [u64] counts; and when no task can take a step while the counter runs, every request
    enqueued has been replied to. *)
Theorem asks_reflect_the_tells {F : Flume} {FL : FlumeLaws F} {TW : TokioWatch} {TL : TokioWatchLaws TW}
    {TO : TokioOneshot} {TOL : TokioOneshotLaws TO} (id wid : ActorId) ls w t :
  id ≠ wid → exec ls (system id wid) = Some (w, t) → (N.of_nat (length t) ≤ U64_MAX)%N →
  ∃ h : ActorId → list Event,
    (∀ a c, cells w !! a = Some c → thread (Runtime.actor c) (mk_ref a) (h a) (phase c) ∧
       phase c ≠ Initializing HPanic ∧ ∀ up, phase c ≠ Receiving HPanic up) ∧
    (∀ a, omap seen (h a) = own a t) ∧
    (∀ k n, EAnswered (reply k n) () ∈ h id → ∃ before after,
       messages (enqueued id t).*2 = before ++ Get k :: after ∧ n = increments before) ∧
    ((∀ a, blocked w a) → ∀ c k, cells w !! id = Some c → phase c ≠ Done → Get k ∈ messages (enqueued id t).*2 →
       ∃ n, EAnswered (reply k n) () ∈ h id).
Proof.
  intros ids He Hlen. destruct (exec_runs id wid counter default_config ids (λ _, True) ls w t He) as [h Hr]; [by apply Forall_true|].
  exists h. pose proof (runs_threads _ _ _ _ ids _ _ _ _ Hr) as Hth. split_and!.
  - intros a c Hc. split; [apply (th_runs _ _ _ _ _ _ Hth _ _ (lookup_tasks _ _ _ Hc))|by eapply counter_never_panics].
  - apply (th_shown _ _ _ _ _ _ Hth).
  - intros k n Hin. destruct (th_root _ _ _ _ _ _ Hth) as [p Hp].
    pose proof (thread_placed _ _ _ _ (th_runs _ _ _ _ _ _ Hth _ _ Hp)) as Hpl. simpl in Hpl.
    destruct (counter_points _ _ _ Hpl (trace_countable id wid ids w t h Hr id Hlen) k n Hin) as (before & after & Hrec & ->).
    destruct (received_enqueued id wid counter default_config ids (λ _, True) w t h id Hr) as [rest Hrest].
    exists before, (after ++ rest). unfold received in Hrec. by rewrite Hrest, Hrec, <-(assoc_L (++)).
  - intros Hblocked c k Hc Hrun Hin. destruct (exec_told_inv id wid _ _ ls w t ids He) as (Hsys & Htold & Hkept).
    pose proof (typed_references id wid _ _ ids _ _ _ _ _ (counter_typed id wid ids w t h Hr)) as Hrefs.
    destruct (all_blocked (λ _, ()) _ _ _ _ Hsys Htold Hkept Hrefs Hblocked _ _ Hc) as [?|Hidle]; [done|].
    by eapply counter_replied.
Qed.


(** ** A run of [main], up to the stop *)

Module Run.
Import Reference ReferenceTokio.

#[local] Abbreviation World := (World (M:=Msg) (B:=Counter) (S:=N) (E:=Nothing) (Rq:=Reply) (An:=no_answer)).

Definition root_id : ActorId := mk_actor_id 1.
Definition watcher_id : ActorId := mk_actor_id 2.
Definition told : list Label := LWatchRoot :: (LTell (mk_ref root_id) <$> [Increment; Increment; Increment; Get 0]).
Definition told_world : World := match exec told (system root_id watcher_id) with Some (w, _) => w | None => system root_id watcher_id end.
Definition run : list Label := told ++ drive (λ _, ()) 50 told_world.
Definition asked ms : bool := match ms with [Increment; Increment; Increment; Get 0] => true | _ => false end.

Definition run_ok : bool :=
  match exec run (system root_id watcher_id) with
  | Some (w, t) =>
      all_rest w && (length t <=? 100)%nat && match cells w !! root_id with Some c => negb (is_done c) | None => false end &&
      asked (messages (enqueued root_id t).*2)
  | None => false
  end.
Lemma run_is_counted : run_ok = true.
Proof. vm_compute. reflexivity. Qed.

Lemma asked_is ms : asked ms = true → ms = [Increment; Increment; Increment; Get 0].
Proof.
  destruct ms as [|[|k|] [|[|k1|] [|[|k2|] [|[|k3|] [|]]]]]; simpl; try discriminate; destruct k3; try discriminate. reflexivity.
Qed.

Lemma counter_ids : root_id ≠ watcher_id.
Proof. done. Qed.

(** The reply is the full count. *)
Lemma asks_reflect_the_tells_witness : ∃ h : ActorId → list Event, EAnswered (reply 0 3) () ∈ h root_id.
Proof.
  pose proof run_is_counted as Hok. unfold run_ok in Hok. destruct (exec run _) as [[w t]|] eqn:He; [|discriminate Hok].
  rewrite !andb_true_iff in Hok. destruct Hok as [[[Hrest Hlen%Nat.leb_le] Hroot] Hasked%asked_is].
  destruct (cells w !! root_id) as [c|] eqn:Hc; [|discriminate Hroot].
  destruct (asks_reflect_the_tells root_id watcher_id run w t counter_ids He) as (h & _ & _ & Hre & Hserved).
  { change U64_MAX with 18446744073709551615%N. lia. }
  destruct (Hserved (all_rest_blocked w Hrest) c 0%N Hc) as [n Hn].
  - intros Hdone. unfold is_done in Hroot. rewrite Hdone in Hroot. discriminate Hroot.
  - rewrite Hasked, !elem_of_cons. tauto.
  - exists h. destruct (Hre 0%N n Hn) as (before & after & Heq & ->). rewrite Hasked in Heq.
    destruct before as [|m0 [|m1 [|m2 [|m3 [|]]]]]; simpl in Heq; try discriminate Heq.
    injection Heq as <- <- <- _. exact Hn.
Defined.
End Run.
