(* ===== verification/ScatterGather.v ===== *)
(** The example [tellus/examples/scatter_gather.rs]: a gatherer spawns and watches workers, asks each for the sum of
    its shard and prints the total once all have terminated. Its claim, that a terminated signal proves that the
    worker's partial result has already been added, so that the total is complete, is proved of every
    interleaving: from the ordering of signals, the accounts of mailboxes and the order of termination. *)
From S2P Require Import Prelude Backoff Config Flume Quota Actor Mailbox MailboxSpec Tokio Runtime RuntimeMoves RuntimeTree RuntimeWatch RuntimeSystem RuntimeTrace RuntimeMailboxes Handlers RuntimeThreads RuntimeProtocols.

(** ** The program *)

(** A [Range<u64>]. *)
Definition Range : Type := N * N.
Definition elements (shard : Range) : list N := (λ i, shard.1 + N.of_nat i)%N <$> seq 0 (N.to_nat (shard.2 - shard.1)).

Definition SHARDS : list Range := [(1, 26); (26, 51); (51, 76); (76, 101)]%N.

(** [Infallible] is [Nothing]. The messages of both actors. A [ReplyTo] made by [ActorContext::reply_to] is the actor told and how the
    reply becomes its message. *)
Inductive Msg :=
  | Partial (sum : N)
  | Compute (shard : Range) (reply_to : ActorRef) (into_message : N → Msg).

Inductive Example := Gatherer | Worker.

Inductive State :=
  | Gathering (remaining total : N)
  | Unit.

(** What is printed: a request answered with nothing. *)
Inductive Println :=
  | ShardSum (start end_ sum : N)
  | Total (total : N).
Definition printed_answer (q : Println) : Type := unit.

(** [+] and [-] panic on overflow, as in a build with debug assertions. *)
Definition checked_add (a b : N) : option N := if decide (a + b ≤ U64_MAX)%N then Some (a + b)%N else None.
Definition checked_sub (a b : N) : option N := if decide (b ≤ a)%N then Some (a - b)%N else None.
(** [Range::sum] *)
Definition sum_u64 (l : list N) : option N := foldl (λ acc x, acc ≫= λ s, checked_add s x) (Some 0%N) l.

#[local] Abbreviation Handler := (Handler (M:=Msg) (B:=Example) (E:=Nothing) (Rq:=Println) (An:=printed_answer)).

(** The loop of [Gatherer::init] over the shards which are left. *)
Fixpoint scatter (self : ActorRef) (shards : list Range) : Handler State :=
  match shards with
  | [] => HReturn (Ok (Gathering (N.of_nat (length SHARDS)) 0))
  | shard :: shards =>
      HSpawn Worker default_config (λ worker,
      HWatch worker (
      HTell worker (Compute shard self Partial) (
      scatter self shards)))
  end.

(** A message of the other actor's type cannot be: it panics here. *)
#[export] Instance scatter_gather : Runtime.Actor Msg Example State Nothing Println printed_answer := {
  init a self :=
    match a with
    | Gatherer => scatter self SHARDS
    | Worker => HReturn (Ok Unit)
    end;
  receive a self incoming state :=
    match a, incoming, state with
    | Gatherer, Message (Partial sum), Gathering remaining total =>
        match checked_add total sum with
        | Some total => HReturn (Ok (Continue (Gathering remaining total)))
        | None => HPanic
        end
    | Gatherer, Terminated _, Gathering remaining total =>
        match checked_sub remaining 1 with
        | Some remaining =>
            if decide (0 < remaining)%N then HReturn (Ok (Continue (Gathering remaining total)))
            else HAwait (Total total) (λ _, HReturn (Ok Actor.Stop))
        | None => HPanic
        end
    | Worker, Message (Compute shard reply_to into_message), Unit =>
        match sum_u64 (elements shard) with
        | Some sum =>
            HAwait (ShardSum shard.1 shard.2 sum) (λ _,
            HTell reply_to (into_message sum) (HReturn (Ok Actor.Stop)))
        | None => HPanic
        end
    | Worker, Terminated _, Unit => HPanic      (* [unreachable!] *)
    | _, _, _ => HPanic
    end;
}.

(** ** The threads *)

#[local] Abbreviation Phase := (Phase (M:=Msg) (B:=Example) (S:=State) (E:=Nothing) (Rq:=Println) (An:=printed_answer)).
#[local] Abbreviation Event := (Event (M:=Msg) (B:=Example) (Rq:=Println) (An:=printed_answer)).
#[local] Abbreviation Incoming := (Incoming Msg).
Implicit Types (p : Phase) (l : list Event) (ins : list Incoming) (self b : ActorRef) (bs : list ActorRef) (ds : list Range).

Definition printed (q : Println) : Event := EAnswered q ().

(** What the gatherer does for one shard. *)
Definition spawned_worker b : Event := EDid (ASpawn Worker default_config b).
Definition asked self b (d : Range) : list Event := [spawned_worker b; EDid (AWatch b); EDid (ATell b (Compute d self Partial))].
Fixpoint scattered self bs ds : list Event :=
  match bs, ds with
  | b :: bs, d :: ds => asked self b d ++ scattered self bs ds
  | _, _ => []
  end.

Definition partials (ms : list Msg) : list N := omap (λ m, match m with Partial n => Some n | Compute _ _ _ => None end) ms.
Definition total (ns : list N) : N := foldr N.add 0%N ns.
Definition gathered ins : State :=
  Gathering (N.of_nat (length SHARDS - length (signals ins))) (total (partials (messages ins))).

(** Where the gatherer can be, having gone through what. *)
Inductive gathering self : list Event → Phase → Prop :=
  | gathering_spawn ds rest bs : SHARDS = ds ++ rest → length bs = length ds →
      gathering self (scattered self bs ds) (Initializing (scatter self rest))
  | gathering_watch ds d rest bs b : SHARDS = ds ++ d :: rest → length bs = length ds →
      gathering self (scattered self bs ds ++ [spawned_worker b])
        (Initializing (HWatch b (HTell b (Compute d self Partial) (scatter self rest))))
  | gathering_tell ds d rest bs b : SHARDS = ds ++ d :: rest → length bs = length ds →
      gathering self (scattered self bs ds ++ [spawned_worker b; EDid (AWatch b)])
        (Initializing (HTell b (Compute d self Partial) (scatter self rest)))
  | gathering_next bs ins up : length bs = length SHARDS → (length (signals ins) < length SHARDS)%nat →
      gathering self (scattered self bs SHARDS ++ (EReceived <$> ins)) (NextIncoming (gathered ins) up)
  | gathering_continue bs ins up : length bs = length SHARDS → (length (signals ins) < length SHARDS)%nat →
      gathering self (scattered self bs SHARDS ++ (EReceived <$> ins)) (Receiving (HReturn (Ok (Continue (gathered ins)))) up)
  | gathering_print bs ins up : length bs = length SHARDS → length (signals ins) = length SHARDS →
      gathering self (scattered self bs SHARDS ++ (EReceived <$> ins))
        (Receiving (HAwait (Total (total (partials (messages ins)))) (λ _, HReturn (Ok Actor.Stop))) up)
  | gathering_printed bs ins up : length bs = length SHARDS → length (signals ins) = length SHARDS →
      gathering self (scattered self bs SHARDS ++ (EReceived <$> ins) ++ [printed (Total (total (partials (messages ins))))])
        (Receiving (HReturn (Ok Actor.Stop)) up)
  | gathering_done bs ins p : length bs = length SHARDS → length (signals ins) = length SHARDS → running p = false →
      gathering self (scattered self bs SHARDS ++ (EReceived <$> ins) ++ [printed (Total (total (partials (messages ins))))]) p
  | gathering_stopped l p p' : gathering self l p → running p = true → running p' = false →
      gathering self (l ++ [EStopped]) p'.

(** Where a worker can be. *)
Inductive working : list Event → Phase → Prop :=
  | working_init : working [] (Initializing (HReturn (Ok Unit)))
  | working_next up : working [] (NextIncoming Unit up)
  | working_print d to into s up : sum_u64 (elements d) = Some s →
      working [EReceived (Message (Compute d to into))]
        (Receiving (HAwait (ShardSum d.1 d.2 s) (λ _, HTell to (into s) (HReturn (Ok Actor.Stop)))) up)
  | working_reply d to into s up : sum_u64 (elements d) = Some s →
      working [EReceived (Message (Compute d to into)); printed (ShardSum d.1 d.2 s)]
        (Receiving (HTell to (into s) (HReturn (Ok Actor.Stop))) up)
  | working_replied d to into s up : sum_u64 (elements d) = Some s →
      working [EReceived (Message (Compute d to into)); printed (ShardSum d.1 d.2 s); EDid (ATell to (into s))]
        (Receiving (HReturn (Ok Actor.Stop)) up)
  | working_done d to into s p : sum_u64 (elements d) = Some s → running p = false →
      working [EReceived (Message (Compute d to into)); printed (ShardSum d.1 d.2 s); EDid (ATell to (into s))] p
  | working_stopped l p p' : working l p → running p = true → running p' = false → working (l ++ [EStopped]) p'.

(** What each gets. *)
Definition gatherer_gets (i : Incoming) : Prop := ∀ d to into, i ≠ Message (Compute d to into).
Definition worker_gets (root : ActorRef) (i : Incoming) : Prop := ∃ d, i = Message (Compute d root Partial) ∧ d ∈ SHARDS.

Lemma shard_sums d : d ∈ SHARDS → ∃ s, sum_u64 (elements d) = Some s.
Proof.
  intros Hd. assert (Forall (λ d, is_Some (sum_u64 (elements d))) SHARDS) as Hall.
  { repeat constructor; vm_compute; eauto. }
  by destruct (proj1 (Forall_forall _ _) Hall d Hd) as [s Hs]; exists s.
Qed.

Lemma working_ended l p p' : working l p → running p = false → running p' = false → working l p'.
Proof.
  destruct 1; simpl; intros; try done.
  - by eapply working_done.
  - by eapply working_stopped.
Qed.

Lemma thread_working root self l p :
  thread Worker self l p → (∀ i, EReceived i ∈ l → worker_gets root i) → working l p.
Proof.
  induction 1 as [|l p e p' _ IH Hstep]; intros Hgets; [constructor|].
  assert (working l p) as Hw by (apply IH; intros i Hi; apply Hgets, elem_of_app; by left). clear IH.
  assert (∀ i, EReceived i ∈ e → worker_gets root i) as He by (intros i Hi; apply Hgets, elem_of_app; by right). clear Hgets.
  destruct (running p) eqn:Hrun; last first.
  { destruct (ended_step _ _ _ _ _ Hstep Hrun) as [-> Hrun']. rewrite app_nil_r. by eapply working_ended. }
  inversion Hstep; subst; try (by eapply working_stopped); inversion Hw; subst; try done; rewrite ?app_nil_r;
    try match goal with H : acts _ _ _ |- _ => apply acts_inv in H; simpl in H; open_all; simplify_eq end; try done.
  - constructor.
  - destruct (He i) as (d & -> & Hd); [by left|]. destruct (shard_sums d Hd) as [sum Hsum]. simpl. rewrite Hsum. by constructor.
  - match goal with x : printed_answer _ |- _ => destruct x end. by constructor.
  - by constructor.
  - by apply working_done.
Qed.

Lemma gathering_ended self l p p' :
  gathering self l p → running p = false → running p' = false → gathering self l p'.
Proof.
  destruct 1; simpl; intros; try done.
  - by apply gathering_done.
  - by eapply gathering_stopped.
Qed.

Lemma scattered_snoc self bs ds b d :
  length bs = length ds → scattered self (bs ++ [b]) (ds ++ [d]) = scattered self bs ds ++ asked self b d.
Proof.
  revert ds. induction bs as [|b' bs IH]; intros [|d' ds]; intros; simplify_eq/=; [done|]. by rewrite IH.
Qed.

Lemma messages_snoc (ins : list Incoming) i : messages (ins ++ [i]) = messages ins ++ match i with Message m => [m] | _ => [] end.
Proof. rewrite messages_app. by destruct i. Qed.
Lemma total_app ns ns' : total (ns ++ ns') = (total ns + total ns')%N.
Proof. induction ns as [|n ns IH]; simpl; [done|]. rewrite IH. lia. Qed.

Lemma gathered_message ins n :
  gathered (ins ++ [Message (Partial n)]) =
    Gathering (N.of_nat (length SHARDS - length (signals ins))) (total (partials (messages ins)) + n).
Proof.
  unfold gathered, signals. rewrite messages_snoc, omap_app, app_nil_r. unfold partials. rewrite omap_app, total_app.
  simpl. f_equal. lia.
Qed.
Lemma signals_signal ins (x : ActorId) : length (signals (ins ++ [Terminated x])) = S (length (signals ins)).
Proof. unfold signals. rewrite omap_app, length_app. simpl. lia. Qed.
Lemma messages_signal ins (x : ActorId) : messages (ins ++ [Terminated x]) = messages ins.
Proof. by rewrite messages_snoc, app_nil_r. Qed.

Lemma received_snoc ins i : (EReceived <$> ins) ++ [EReceived i] = (EReceived <$> (ins ++ [i]) : list Event).
Proof. by rewrite fmap_app. Qed.

(** What the gatherer has received when its total overflows. *)
Definition overflows self l (e : list Event) : Prop := ∃ bs ins n,
  length bs = length SHARDS ∧ l = scattered self bs SHARDS ++ (EReceived <$> ins) ∧
  e = [EReceived (Message (Partial n))] ∧ (U64_MAX < total (partials (messages ins)) + n)%N.

Lemma gathering_receive self bs ins i up :
  length bs = length SHARDS → (length (signals ins) < length SHARDS)%nat → gatherer_gets i →
  gathering self (scattered self bs SHARDS ++ (EReceived <$> (ins ++ [i]))) (Receiving (receive Gatherer self i (gathered ins)) up) ∨
  overflows self (scattered self bs SHARDS ++ (EReceived <$> ins)) [EReceived i].
Proof.
  intros Hbs Hlen Hi. destruct i as [[n|d to into]|b]; [|by destruct (Hi d to into)|]; unfold gathered at 1; cbn -[SHARDS length].
  - unfold checked_add. case_decide as Hmax; [left|right; exists bs, ins, n; split_and!; [done..|lia]].
    rewrite <-gathered_message. apply gathering_continue; [done|]. unfold signals. by rewrite omap_app, app_nil_r.
  - left. unfold checked_sub. rewrite decide_True by lia. case_decide as Hpos.
    + assert (Gathering (N.of_nat (length SHARDS - length (signals ins)) - 1) (total (partials (messages ins))) =
                gathered (ins ++ [Terminated b])) as ->.
      { unfold gathered. rewrite signals_signal, messages_signal. f_equal. lia. }
      apply gathering_continue; [done|]. rewrite signals_signal. lia.
    + rewrite <-(messages_signal ins b). apply gathering_print; [done|]. rewrite signals_signal. lia.
Qed.

(** The gatherer's thread goes on as it should, unless the total overflows. *)
Lemma gathering_step self l p e p' :
  gathering self l p → thread_step Gatherer self p e p' → (∀ i, EReceived i ∈ e → gatherer_gets i) →
  gathering self (l ++ e) p' ∨ overflows self l e.
Proof.
  intros Hg Hstep He. destruct (running p) eqn:Hrun; last first.
  { left. destruct (ended_step _ _ _ _ _ Hstep Hrun) as [-> Hrun']. rewrite app_nil_r. by eapply gathering_ended. }
  inversion Hstep; subst; try (left; by eapply gathering_stopped); inversion Hg; subst; try done; rewrite ?app_nil_r;
    try match goal with H : acts _ _ _ |- _ => apply acts_inv in H; cbn -[SHARDS scatter] in H; open_all; simplify_eq end; try done.
  - left. destruct rest as [|d rest]; [done|]. cbn in *. open_all. simplify_eq. by apply (gathering_watch _ ds d rest bs).
  - left. rewrite <-(assoc_L (++)). by apply (gathering_tell _ ds d rest bs).
  - left. rewrite <-(assoc_L (++)).
    change ([spawned_worker b; EDid (AWatch b)] ++ [EDid (ATell b (Compute d self Partial))]) with (asked self b d).
    rewrite <-scattered_snoc by done. apply gathering_spawn; [by rewrite <-(assoc_L (++))|rewrite !length_app; simpl; lia].
  - destruct rest; [|done]. rewrite app_nil_r in *. subst ds. left.
    pose proof (gathering_next self bs [] now ltac:(done) ltac:(simpl; lia)) as Hn. rewrite app_nil_r in Hn.
    match goal with H : scatter self [] = _ |- _ => injection H as <- end. exact Hn.
  - by destruct rest.
  - left. by apply gathering_next.
  - rewrite <-(assoc_L (++)), received_snoc. apply gathering_receive; [done..|]. apply He. by left.
  - left. match goal with x : printed_answer _ |- _ => destruct x end. rewrite <-(assoc_L (++)). by apply gathering_printed.
  - left. by apply gathering_next.
  - left. by apply gathering_done.
Qed.

(** ** The protocol *)

(** What a gatherer does, whatever happens to it: it tells and watches children of its own only. *)
Definition gatherer_does self (kids : list ActorRef) (e : Event) : Prop :=
  match e with
  | EDid (ASpawn act config _) => act = Worker ∧ config = default_config
  | EDid (AWatch b) => b ∈ kids
  | EDid (ATell b m) => b ∈ kids ∧ ∃ d, d ∈ SHARDS ∧ m = Compute d self Partial
  | EDid _ => False
  | EReceived _ | EAnswered _ _ | ERestarting | EStopped => True
  end.
Definition gatherer_will self (kids : list ActorRef) p : Prop :=
  match p with
  | Initializing h =>
      (∃ rest, rest ⊆ SHARDS ∧ h = scatter self rest) ∨
      ∃ b d rest, b ∈ kids ∧ d ∈ SHARDS ∧ rest ⊆ SHARDS ∧
        (h = HWatch b (HTell b (Compute d self Partial) (scatter self rest)) ∨
         h = HTell b (Compute d self Partial) (scatter self rest))
  | Receiving (HReturn _ | HPanic) _ => True
  | Receiving (HAwait q k) _ => ∀ a, k a = HReturn (Ok Actor.Stop)
  | Receiving _ _ => False
  | _ => True
  end.

Lemma gatherer_receive_will self kids i s up : gatherer_will self kids (Receiving (receive Gatherer self i s) up).
Proof.
  destruct i as [[n|]|], s as [remaining total|]; try done; cbn -[checked_add checked_sub].
  - by destruct (checked_add total n).
  - destruct (checked_sub remaining 1); [|done]. by case_decide.
Qed.

Lemma thread_gatherer_does self l p :
  thread Gatherer self l p → Forall (gatherer_does self (children l)) l ∧ gatherer_will self (children l) p.
Proof.
  induction 1 as [|l p e p' _ [Hdid Hwill] Hstep]; [split; [done|left; by exists SHARDS]|].
  assert (children l ⊆ children (l ++ e)) as Hsub by (unfold children; rewrite omap_app; set_solver).
  assert (Forall (gatherer_does self (children (l ++ e))) l) as Hl.
  { eapply Forall_impl; [exact Hdid|]. intros [|[]| | |]; simpl; naive_solver. }
  rewrite Forall_app. inversion Hstep; subst; rewrite ?app_nil_r in *.
  all: try (by split; [split; [done|by repeat constructor]|done]).
  - destruct Hwill as [([|d rest] & Hrest & ->)|(b & d & rest & Hb & Hd & Hrest & [->| ->])];
      apply acts_inv in H; simpl in H; open_all; simplify_eq; [done|..].
    + split; [split; [done|by repeat constructor]|]. simpl. right. exists x, d, rest. split_and!; [|set_solver..|by left].
      unfold children. rewrite omap_app. set_solver.
    + split; [split; [done|by repeat constructor; set_solver]|]. simpl. right. exists b, d, rest. split_and!; [set_solver..|by right].
    + split; [split; [done|repeat constructor; [set_solver|by exists d]]|]. simpl. left. by exists rest.
  - split; [split; [done|by repeat constructor]|]. apply gatherer_receive_will.
  - simpl in Hwill. destruct h; try done; apply acts_inv in H; simpl in H; open_all; simplify_eq; [done..|].
    split; [split; [done|by repeat constructor]|]. by rewrite Hwill.
  - split; [by split|]. left. by exists SHARDS.
Qed.

(** What a worker does. *)
Record worker_does l : Prop := {
  wk_once : ∀ a, (length (sends a l) ≤ 1)%nat;
  wk_reply : ∀ a m, m ∈ sends a l → ∃ d to into s,
    EReceived (Message (Compute d to into)) ∈ l ∧ sum_u64 (elements d) = Some s ∧ a = actor_id to ∧ m = into s;
  wk_nothing_else : ∀ e, e ∈ l → match e with EDid (ATell _ _) => True | EDid _ | ERestarting => False | _ => True end;
}.

Lemma sends_replied a d to into s :
  sends a ([EReceived (Message (Compute d to into)); printed (ShardSum d.1 d.2 s); EDid (ATell to (into s))] : list Event) =
    if decide (actor_id to = a) then [into s] else [].
Proof. unfold sends. simpl. by case_decide. Qed.

Lemma working_does l p : working l p → worker_does l.
Proof.
  induction 1 as [|up|d to into s up Hs|d to into s up Hs|d to into s up Hs|d to into s p Hs|l p p' _ [H1 H2 H3]].
  7:{ split.
      - intros a. rewrite sends_app, length_app. specialize (H1 a). simpl. lia.
      - intros a m. rewrite sends_app, app_nil_r. intros Hm. destruct (H2 a m Hm) as (d & to & into & s & Hin & Hrest).
        exists d, to, into, s. split; [apply elem_of_app; by left|done].
      - intros e [He| ->%list_elem_of_singleton]%elem_of_app; [by apply H3|done]. }
  1-4: split; [intros a; simpl; lia|intros a m Hm; by apply elem_of_nil in Hm|intros e He; set_solver].
  all: split; [|intros a m|].
  1,4: intros a; rewrite sends_replied; case_decide; simpl; lia.
  1,3: rewrite sends_replied; case_decide; [intros ->%list_elem_of_singleton|by intros ?%elem_of_nil];
    exists d, to, into, s; split_and!; [by left|done..].
  all: intros e He; rewrite !elem_of_cons in He; destruct He as [->|[->|[->|He%elem_of_nil]]]; done.
Qed.

Lemma working_replied_all l p :
  working l p → running p = false → EStopped ∉ l → ∃ d to into s,
    EReceived (Message (Compute d to into)) ∈ l ∧ sum_u64 (elements d) = Some s ∧ into s ∈ sends (actor_id to) l.
Proof.
  destruct 1 as [| | | | |d to into s p Hs|]; try done; intros _ Hno.
  - exists d, to, into, s. rewrite sends_replied, decide_True by done. split_and!; [by left|done|by left].
  - destruct Hno. apply elem_of_app. right. by left.
Qed.

Section System.
Context {F : Flume} {FL : FlumeLaws F} {TW : TokioWatch} {TL : TokioWatchLaws TW}.
Context {TO : TokioOneshot} {TOL : TokioOneshotLaws TO}.
Context (id wid : ActorId) (ids : id ≠ wid).
#[local] Abbreviation World := (World (M:=Msg) (B:=Example) (S:=State) (E:=Nothing) (Rq:=Println) (An:=printed_answer)).
#[local] Abbreviation Histories := (Histories (M:=Msg) (B:=Example) (Rq:=Println) (An:=printed_answer)).
#[local] Abbreviation Obs := (Obs (M:=Msg)).
#[local] Abbreviation Label := (Label (M:=Msg) (An:=printed_answer)).
#[local] Abbreviation self := (mk_ref id).
Implicit Types (w : World) (t : list Obs) (h : Histories).

(** [ActorSystem::new(Gatherer)]; [main] tells nothing. *)
Definition gatherer_system : World := system_new id wid Gatherer default_config.

(** Who runs what, and gets what. *)
Definition cast (a : ActorId) (act : Example) (config : ActorConfig) : Prop :=
  config = default_config ∧ act = if decide (a = id) then Gatherer else Worker.
Definition gets (a : ActorId) (i : Incoming) : Prop :=
  if decide (a = id) then gatherer_gets i else worker_gets self i.

Lemma sent_seen a m l : SSent a m ∈ omap seen l ↔ m ∈ sends a l.
Proof. symmetry. apply elem_of_sends. Qed.

Lemma gatherer_sends a m l p :
  thread Gatherer self l p → m ∈ sends a l →
  ∃ b d, EDid (ATell b m) ∈ l ∧ a = actor_id b ∧ b ∈ children l ∧ d ∈ SHARDS ∧ m = Compute d self Partial.
Proof.
  intros Ht [e [He Heq]]%list_elem_of_omap. destruct (thread_gatherer_does _ _ _ Ht) as [Hdoes _].
  pose proof (proj1 (Forall_forall _ _) Hdoes _ He) as Hd.
  destruct e as [|[b m'|? b m' ?| | | |]| | |]; try done. simplify_eq/=. destruct Hd as (Hb & d & Hd & ->).
  case_decide; simplify_eq. by exists b, d.
Qed.

Lemma scatter_gather_behaves : well_behaved id cast gets (λ _ _ _, True).
Proof.
  intros a act config l p [-> ->] Ht Hgets Hkids. unfold gets, cast in *. destruct (decide (a = id)) as [->|Ha].
  - destruct (thread_gatherer_does _ _ _ Ht) as [Hdoes _]. split_and!.
    + intros act' config' child Hin. rewrite decide_False by (by eapply Hkids).
      by destruct (proj1 (Forall_forall _ _) Hdoes _ Hin).
    + intros to m Hm%sent_seen. destruct (gatherer_sends _ _ _ _ Ht Hm) as (b & d & _ & -> & Hb & Hd & ->).
      apply elem_of_children in Hb as (act' & config' & Hb). rewrite decide_False by (by eapply Hkids). by exists d.
    + intros b _. done.
  - destruct (working_does _ _ (thread_working _ _ _ _ Ht Hgets)) as [_ Hreply Hnone]. split_and!.
    + intros act' config' child Hin. by apply Hnone in Hin.
    + intros to m Hm%sent_seen. destruct (Hreply _ _ Hm) as (d & to' & into & s & Hin & _ & -> & ->).
      destruct (Hgets _ Hin) as (d' & Heq & _). simplify_eq. by rewrite decide_True.
    + intros b (e & He & Heq)%list_elem_of_omap. apply Hnone in He. destruct e as [|[| ? ? ? []| | | |]| | |]; simplify_eq/=; done.
Qed.

(** ** The accounts *)

#[local] Abbreviation runs := (runs inside gatherer_system).

Lemma run_protocol w t h : runs w t h → protocol_inv cast gets w t h.
Proof.
  intros Hr. eapply (runs_protocol id wid Gatherer default_config ids cast gets inside) with (who := λ _ _ _, True); [by intros to m []| |apply scatter_gather_behaves|exact Hr|done].
  split; [done|]. by rewrite decide_True.
Qed.

(** Who a history is of. *)
Lemma run_thread w t h a :
  runs w t h → h a = [] ∨ (∃ k, tasks w !! a = Some k ∧ thread (if decide (a = id) then Gatherer else Worker) (mk_ref a) (h a) (t_phase k)).
Proof.
  intros Hr. destruct (tasks w !! a) as [k|] eqn:Ha; [right|left]; pose proof (runs_threads _ _ _ _ ids _ _ _ _ Hr) as Hth.
  - exists k. split; [done|]. destruct (pr_good _ _ _ _ _ (run_protocol _ _ _ Hr) _ _ Ha) as [_ <-]. by apply (th_runs _ _ _ _ _ _ Hth).
  - by apply (th_fresh _ _ _ _ _ _ Hth).
Qed.

Lemma run_gatherer w t h : runs w t h → ∃ k, tasks w !! id = Some k ∧ thread Gatherer self (h id) (t_phase k).
Proof.
  intros Hr. pose proof (runs_threads _ _ _ _ ids _ _ _ _ Hr) as Hth. destruct (th_root _ _ _ _ _ _ Hth) as [p Hp].
  eexists. split; [exact Hp|]. apply (th_runs _ _ _ _ _ _ Hth _ _ Hp).
Qed.

Lemma run_worker w t h (b : ActorId) : runs w t h → b ≠ id → worker_does (h b) ∧ ∀ k, tasks w !! b = Some k → working (h b) (t_phase k).
Proof.
  intros Hr Hb. destruct (run_thread w t h b Hr) as [Hnil|(k & Hk & Ht)].
  - split.
    + rewrite Hnil. apply (working_does _ _ working_init).
    + intros k Hk. pose proof (runs_threads _ _ _ _ ids _ _ _ _ Hr) as Hth. pose proof (th_runs _ _ _ _ _ _ Hth _ _ Hk) as Ht.
      destruct (pr_good _ _ _ _ _ (run_protocol _ _ _ Hr) _ _ Hk) as [_ Hact]. rewrite decide_False in Hact by done.
      rewrite Hact in Ht. eapply (thread_working self); [exact Ht|]. rewrite Hnil. by intros i ?%elem_of_nil.
  - rewrite decide_False in Ht by done.
    assert (working (h b) (t_phase k)) as Hw.
    { eapply thread_working; [exact Ht|]. intros i Hi. apply (pr_received _ _ _ _ _ (run_protocol _ _ _ Hr)) in Hi.
      unfold gets in Hi. rewrite decide_False in Hi by done. exact Hi. }
    split; [by eapply working_does|]. intros k' Hk'. by simplify_eq.
Qed.

(** What is sent to the gatherer are the sums of the shards asked for. *)
Definition shard_sum (d : Range) : N := default 0%N (sum_u64 (elements d)).

Lemma not_to_gatherer w t h m : runs w t h → m ∉ sends id (h id).
Proof.
  intros Hr Hm. destruct (run_gatherer _ _ _ Hr) as (k & _ & Ht). pose proof (runs_threads _ _ _ _ ids _ _ _ _ Hr) as Hth.
  destruct (gatherer_sends _ _ _ _ Ht Hm) as (b & d & _ & Heq & (act & config & Hb)%elem_of_children & _).
  by destruct (th_children _ _ _ _ _ _ Hth _ _ _ _ Hb) as (g & p & _ & Hne).
Qed.

Lemma sends_once w t h (b : ActorId) : runs w t h → (length (sends id (h b)) ≤ 1)%nat.
Proof.
  intros Hr. destruct (decide (b = id)) as [->|Hb].
  - destruct (sends id (h id)) as [|m l] eqn:Heq; [simpl; lia|].
    destruct (not_to_gatherer w t h m Hr). rewrite Heq. by left.
  - by apply (wk_once _ (proj1 (run_worker _ _ _ _ Hr Hb))).
Qed.

Lemma who_sends w t h (b : ActorId) m :
  runs w t h → m ∈ sends id (h b) →
  b ≠ id ∧ ∃ d, EReceived (Message (Compute d self Partial)) ∈ h b ∧ m = Partial (shard_sum d).
Proof.
  intros Hr Hm. destruct (decide (b = id)) as [->|Hb]; [by destruct (not_to_gatherer w t h m Hr)|]. split; [done|].
  destruct (wk_reply _ (proj1 (run_worker _ _ _ _ Hr Hb)) _ _ Hm) as (d & to & into & s & Hin & Hs & _ & ->).
  pose proof (pr_received _ _ _ _ _ (run_protocol _ _ _ Hr) _ _ Hin) as Hgets. unfold gets in Hgets.
  rewrite decide_False in Hgets by done. destruct Hgets as (d' & Heq & _). simplify_eq.
  exists d'. unfold shard_sum. by rewrite Hs.
Qed.

Lemma who_asked w t h (b : ActorId) d :
  runs w t h → b ≠ id → EReceived (Message (Compute d self Partial)) ∈ h b →
  EDid (ATell (mk_ref b) (Compute d self Partial)) ∈ h id.
Proof.
  intros Hr Hb Hin. destruct (received_from id wid _ _ ids inside w t h Hr b _ (inside_tells _) Hin) as [a Hm].
  destruct (decide (a = id)) as [->|Ha].
  - destruct (run_gatherer _ _ _ Hr) as (k & _ & Ht). destruct (gatherer_sends _ _ _ _ Ht Hm) as ([b'] & d' & Htell & -> & _).
    exact Htell.
  - destruct (wk_reply _ (proj1 (run_worker _ _ _ _ Hr Ha)) _ _ Hm) as (d' & to & into & s & Hrec & _ & _ & Heq).
    pose proof (pr_received _ _ _ _ _ (run_protocol _ _ _ Hr) _ _ Hrec) as Hgets. unfold gets in Hgets.
    rewrite decide_False in Hgets by done. destruct Hgets as (d'' & Heq' & _). simplify_eq.
Qed.

(** The partial result each worker owes. *)
Definition owed bs : list (Source * Msg) :=
  (λ x, (FromActor (actor_id x.1), Partial (shard_sum x.2))) <$> zip bs SHARDS.

Lemma scattered_tell b m bs ds :
  EDid (ATell b m) ∈ scattered self bs ds → ∃ d, (b, d) ∈ zip bs ds ∧ m = Compute d self Partial.
Proof.
  revert ds. induction bs as [|b' bs IH]; intros [|d ds]; simpl; try (by intros ?%elem_of_nil).
  rewrite !elem_of_cons. intros [|[|[|Hin]]]; simplify_eq.
  - exists d. split; [by left|done].
  - destruct (IH _ Hin) as (d' & Hd' & ->). exists d'. split; [by right|done].
Qed.

Lemma scattered_children bs ds : length bs = length ds → children (scattered self bs ds) = bs.
Proof.
  revert ds. induction bs as [|b bs IH]; intros [|d ds]; intros; simplify_eq/=; [done|]. unfold children in *. simpl. f_equal. by apply IH.
Qed.

Lemma scattered_watches bs ds : length bs = length ds → watched_by (scattered self bs ds) = actor_id <$> bs.
Proof.
  revert ds. induction bs as [|b bs IH]; intros [|d ds]; intros; simplify_eq/=; [done|]. unfold watched_by in *. simpl. f_equal.
  by apply IH.
Qed.

(** All the gatherer does after it has scattered is to receive and to print. *)
Definition quiet l : Prop := ∀ e, e ∈ l → match e with EReceived _ | EAnswered _ _ | EStopped => True | EDid _ | ERestarting => False end.

Section Scattered.
Context w t h (bs : list ActorRef) (rest : list Event).
Context (Hr : runs w t h) (Hbs : length bs = length SHARDS) (Hh : h id = scattered self bs SHARDS ++ rest) (Hquiet : quiet rest).
Let Hth := runs_threads _ _ _ _ ids _ _ _ _ Hr.

Lemma enqueued_owed x : x ∈ with_sources (enqueued id t) → x ∈ owed bs.
Proof.
  destruct x as [src m]. intros Hin%elem_of_with_sources.
  destruct src as [b|]; [|by destruct (runs_sources _ _ _ _ _ _ _ _ (inside_tells _) Hr Hin)].
  apply enqueued_own in Hin. rewrite <-(th_shown _ _ _ _ _ _ Hth) in Hin. apply sent_seen in Hin.
  destruct (who_sends _ _ _ _ _ Hr Hin) as (Hb & d & Hrec & ->).
  pose proof (who_asked _ _ _ _ _ Hr Hb Hrec) as Htell. rewrite Hh, elem_of_app in Htell.
  destruct Htell as [Htell|Htell]; [|by apply Hquiet in Htell].
  apply scattered_tell in Htell as (d' & Hd & Heq). simplify_eq.
  apply list_elem_of_fmap. by exists (mk_ref b, d').
Qed.

Lemma owed_sources : (owed bs).*1 = (λ b, FromActor (actor_id b)) <$> bs.
Proof.
  unfold owed. rewrite <-list_fmap_compose. rewrite <-(fst_zip bs SHARDS) at 2 by lia. by rewrite <-list_fmap_compose.
Qed.
Lemma owed_total : total (partials (owed bs).*2) = 5050%N.
Proof.
  assert ((owed bs).*2 = (λ d, Partial (shard_sum d)) <$> SHARDS) as ->; [|by vm_compute].
  unfold owed. rewrite <-list_fmap_compose. rewrite <-(snd_zip bs SHARDS) at 2 by lia. by rewrite <-list_fmap_compose.
Qed.

Lemma enqueued_once : NoDup (with_sources (enqueued id t)).*1.
Proof.
  apply NoDup_times. intros [b|].
  - etrans; [apply (times_sends id b t (h b)); apply (th_shown _ _ _ _ _ _ Hth)|by eapply sends_once].
  - destruct (decide (0 < times FromOutside (with_sources (enqueued id t)).*1)%nat) as [Hin|]; [|lia].
    apply times_elem, list_elem_of_fmap in Hin as ([src m] & Heq & Hin%elem_of_with_sources). simpl in Heq. subst src.
    by destruct (runs_sources _ _ _ _ _ _ _ _ (inside_tells _) Hr Hin).
Qed.

Lemma taken_owed : NoDup (with_sources (taken id t)).*1 ∧ with_sources (taken id t) ⊆+ owed bs.
Proof.
  assert (∃ q, with_sources (enqueued id t) = with_sources (taken id t) ++ q) as [q Hq].
  { exists (with_sources (drop (length (dequeued id t)) (enqueued id t))). unfold taken. by rewrite <-with_sources_app, take_drop. }
  pose proof enqueued_once as Hnd. rewrite Hq, fmap_app, NoDup_app in Hnd. destruct Hnd as [Hnd _]. split; [done|].
  apply NoDup_submseteq; [by eapply NoDup_fmap_1|]. intros x Hx. apply enqueued_owed. rewrite Hq. apply elem_of_app. by left.
Qed.

Lemma total_submseteq (ms ms' : list Msg) : ms ⊆+ ms' → (total (partials ms) ≤ total (partials ms'))%N.
Proof. induction 1 as [|[] ms ms' _ IH|[] [] ms|[] ms ms' _ IH|ms ms' ms'' _ IH _ IH']; simpl; lia. Qed.

(** What has been received never exceeds the sum of all. *)
Lemma received_bounded : (total (partials (messages (incomings (h id)))) ≤ 5050)%N.
Proof.
  destruct (runs_invariants _ _ _ _ ids _ _ _ _ Hr) as (_ & _ & Htr). destruct (th_root _ _ _ _ _ _ Hth) as [p Hp].
  apply tasks_lookup in Hp as (c & Hc & _). destruct (incomings_dequeued id t (h id) (th_shown _ _ _ _ _ _ Hth id)) as [Hsub _].
  rewrite <-owed_total. apply total_submseteq. etrans; [|by apply fmap_submseteq, taken_owed].
  rewrite with_sources_messages, (taken_dequeued w t id c) by done. by apply sublist_submseteq.
Qed.

Lemma quiet_watches : watched_by rest = [].
Proof.
  destruct (watched_by rest) as [|x l] eqn:Heq; [done|]. assert (x ∈ watched_by rest) as Hx by (rewrite Heq; by left).
  apply list_elem_of_omap in Hx as (e & He & Hx). apply Hquiet in He. by destruct e.
Qed.
Lemma watched_workers : watched_by (h id) = actor_id <$> bs.
Proof. by rewrite Hh, watched_by_app, quiet_watches, app_nil_r, scattered_watches. Qed.
Lemma workers_distinct : NoDup (actor_id <$> bs).
Proof.
  pose proof (th_once _ _ _ _ _ _ Hth id) as Hnd. rewrite children_spawned, Hh, spawns_app, scattered_children, fmap_app in Hnd by done.
  by apply NoDup_app in Hnd as [Hnd _].
Qed.
Lemma never_restarts : ERestarting ∉ h id.
Proof.
  rewrite Hh, elem_of_app. intros [Hin|Hin]; [|by apply Hquiet in Hin]. destruct (run_gatherer _ _ _ Hr) as (k & _ & _).
  clear -Hin. revert Hin. generalize SHARDS. induction bs as [|b l IH]; intros [|d ds]; simpl; try (by intros ?%elem_of_nil).
  rewrite !elem_of_cons. intros [?|[?|[?|Hin]]]; [done..|by eapply IH].
Qed.

(** A worker whose signal has been received has replied, and the reply has been received before. *)
Lemma signaled_settled c (b : ActorRef) :
  cells w !! id = Some c → running (phase c) = true → b ∈ bs → actor_id b ∈ signals (incomings (h id)) →
  FromActor (actor_id b) ∈ (with_sources (taken id t)).*1.
Proof.
  intros Hc Hrun Hb Hsig. destruct (runs_ends _ _ _ _ ids _ _ _ _ Hr) as (Htr & _ & Hends).
  assert (b ∈ children (h id)) as (act & config & Hkid)%elem_of_children.
  { rewrite Hh, spawns_app, elem_of_app. left. by rewrite scattered_children. }
  destruct (signaled_child _ _ _ _ ids _ _ _ _ Hr _ _ _ _ _ Hc Hrun never_restarts Hkid Hsig) as (k & Hk & Hend & Hst).
  destruct (th_children _ _ _ _ _ _ Hth _ _ _ _ Hkid) as (_ & _ & _ & Hne).
  destruct (run_worker _ _ _ _ Hr Hne) as [_ Hworking].
  destruct (working_replied_all _ _ (Hworking _ Hk) Hend Hst) as (d & to & into & s & Hin & _ & Hsend).
  pose proof (pr_received _ _ _ _ _ (run_protocol _ _ _ Hr) _ _ Hin) as Hgets. unfold gets in Hgets.
  rewrite decide_False in Hgets by done. destruct Hgets as (d' & Heq & _). simplify_eq.
  apply list_elem_of_fmap. exists (FromActor (actor_id b), Partial s). split; [done|].
  eapply (signal_settles w t id (actor_id b) c (h (actor_id b)));
    [done..| |apply (th_shown _ _ _ _ _ _ Hth)|by apply (signal_in_trace _ _ _ _ ids _ _ _ _ Hr)|exact Hsend].
  destruct (pr_good _ _ _ _ _ (run_protocol _ _ _ Hr) _ _ (lookup_tasks _ _ _ Hc)) as [Hconf _]. simpl in Hconf. by rewrite Hconf.
Qed.

(** Once all signals have been received, so has every partial result. *)
Lemma all_received c :
  cells w !! id = Some c → running (phase c) = true → length (signals (incomings (h id))) = length SHARDS →
  total (partials (messages (incomings (h id)))) = 5050%N.
Proof.
  intros Hc Hrun Hlen. destruct (runs_ends _ _ _ _ ids _ _ _ _ Hr) as (Htr & _ & Hends).
  pose proof (all_signaled _ _ _ _ ids _ _ _ _ Hr id) as Hall. rewrite watched_workers, length_fmap, Hlen, Hbs in Hall.
  specialize (Hall workers_distinct (le_n _)).
  destruct taken_owed as [Htnd Htaken].
  assert ((λ b, FromActor (actor_id b)) <$> bs ⊆+ (with_sources (taken id t)).*1) as Hback.
  { apply NoDup_submseteq.
    - rewrite (list_fmap_compose actor_id FromActor). apply NoDup_fmap; [by intros ?? [=]|apply workers_distinct].
    - intros x (b & -> & Hb)%list_elem_of_fmap. apply (signaled_settled c); [done..|]. rewrite Hall.
      apply list_elem_of_fmap. eauto. }
  apply submseteq_length in Hback. rewrite !length_fmap in Hback.
  assert (with_sources (taken id t) ≡ₚ owed bs) as Hperm.
  { apply submseteq_length_Permutation; [done|]. unfold owed. rewrite length_fmap, length_zip. lia. }
  destruct (incomings_dequeued id t (h id) (th_shown _ _ _ _ _ _ Hth id)) as [_ ->].
  - rewrite <-(taken_dequeued w t id c), <-with_sources_messages, <-owed_total by done.
    apply N.le_antisymm; apply total_submseteq; rewrite Hperm; reflexivity.
  - intros x Hx. destruct (en_drained _ _ Hends _ _ Hx) as (c' & Hc' & Hr'). simplify_eq. congruence.
Qed.
End Scattered.

(** ** The total *)

Definition totals l : list N := omap (λ e, match e with EAnswered (Total n) _ => Some n | _ => None end) l.

Lemma totals_scattered bs ds : totals (scattered self bs ds) = [].
Proof. revert ds. induction bs as [|b bs IH]; intros [|d ds]; simpl; try done. Qed.
Lemma totals_received ins : totals (EReceived <$> ins) = [].
Proof. by induction ins. Qed.
Lemma totals_app l l' : totals (l ++ l') = totals l ++ totals l'.
Proof. apply omap_app. Qed.

Lemma quiet_received ins : quiet (EReceived <$> ins).
Proof. by intros e (i & -> & _)%list_elem_of_fmap. Qed.
Lemma quiet_app l l' : quiet l → quiet l' → quiet (l ++ l').
Proof. intros H1 H2 e [He|He]%elem_of_app; [by apply H1|by apply H2]. Qed.

Lemma incomings_scattered bs ds ins tail :
  incomings tail = [] → incomings (scattered self bs ds ++ (EReceived <$> ins) ++ tail) = ins.
Proof.
  intros Htail. rewrite !incomings_app, Htail, app_nil_r.
  assert (incomings (scattered self bs ds) = []) as ->.
  { revert ds. induction bs as [|b bs IH]; intros [|d ds]; try done. apply IH. }
  simpl. unfold incomings. induction ins as [|i ins IH]; [done|]. simpl. f_equal. exact IH.
Qed.

(** What has been printed says where the gatherer is. *)
Lemma gathering_totals l p :
  gathering self l p →
  totals l = [] ∧ (running p = false → EStopped ∈ l) ∨
  ∃ bs ins tail, l = scattered self bs SHARDS ++ (EReceived <$> ins) ++ tail ∧ quiet tail ∧ incomings tail = [] ∧
    length bs = length SHARDS ∧ length (signals ins) = length SHARDS ∧ totals l = [total (partials (messages ins))].
Proof.
  induction 1 as [| | | | |bs ins up Hbs Hs|bs ins up Hbs Hs|bs ins p Hbs Hs Hend|l p p' _ IH Hrun Hend].
  1-6: left; split; [|done]; rewrite ?totals_app, ?totals_scattered, ?totals_received; done.
  - right. eexists bs, ins, _. split_and!; [done| |done..|].
    + by intros e ->%list_elem_of_singleton.
    + by rewrite !totals_app, totals_scattered, totals_received.
  - right. eexists bs, ins, _. split_and!; [done| |done..|].
    + by intros e ->%list_elem_of_singleton.
    + by rewrite !totals_app, totals_scattered, totals_received.
  - destruct IH as [[Htot _]|(bs & ins & tail & -> & Hq & Hi & Hbs & Hs & Htot)].
    + left. rewrite totals_app, Htot. split; [done|]. intros _. apply elem_of_app. right. by left.
    + right. exists bs, ins, (tail ++ [EStopped]). rewrite !(assoc_L (++)). split_and!; [done| | |done..|].
      * apply quiet_app; [done|]. by intros e ->%list_elem_of_singleton.
      * by rewrite incomings_app, Hi.
      * rewrite <-!(assoc_L (++)), <-Htot, !totals_app. by rewrite !app_nil_r.
Qed.

Lemma gathering_sound l p : gathering self l p → panicked p = false.
Proof. destruct 1 as [ds rest bs| | | | | | |? ? p|? ? p]; try done; [by destruct rest|by destruct p..]. Qed.
Lemma working_sound l p : working l p → panicked p = false.
Proof. destruct 1 as [| | | | |? ? ? ? p|? ? p]; try done; by destruct p. Qed.

(** The gatherer at work, having printed the sum of all if any. *)
Definition gathering_well w h : Prop :=
  ∃ k, tasks w !! id = Some k ∧ gathering self (h id) (t_phase k) ∧ ∀ n, n ∈ totals (h id) → n = 5050%N.

Lemma printed_running (act : Example) p e p' :
  thread_step act self p e p' → totals e ≠ [] → running p' = true.
Proof. by destruct 1. Qed.

Lemma runs_gathering w t h : runs w t h → gathering_well w h.
Proof.
  induction 1 as [|w t h a e w' u ev p' Hr IH Hal Hs Hadv|w t h lb w' u Hr IH _ Hs Ht Hu].
  - eexists. split; [unfold tasks; simpl; by rewrite map_fmap_singleton, lookup_singleton_eq|]. split; [|by intros n ?%elem_of_nil].
    by apply (gathering_spawn self [] SHARDS []).
  - pose proof (runs_task _ _ _ _ _ _ _ _ _ _ _ Hr Hal Hs Hadv) as Hr'.
    destruct IH as (k & Hk & Hg & Htot).
    destruct (advances_tasks _ _ _ _ _ _ Hadv) as (ka & Hka & Hstep & _ & _ & Hkeep & Ha & _).
    destruct (decide (a = id)) as [->|Hne]; [|exists k; rewrite happened_other by done; auto].
    simplify_eq. exists (at_phase k p'). split; [done|]. rewrite happened_self. simpl.
    destruct (pr_good _ _ _ _ _ (run_protocol _ _ _ Hr) _ _ Hk) as [_ Hact]. rewrite decide_True in Hact by done. rewrite Hact in Hstep.
    assert (∀ i, EReceived i ∈ ev → gatherer_gets i) as Hev.
    { intros i Hi. pose proof (pr_received _ _ _ _ _ (run_protocol _ _ _ Hr') id i) as Hrec. unfold gets in Hrec.
      rewrite decide_True, happened_self in Hrec by done. apply Hrec, elem_of_app. by right. }
    destruct (gathering_step _ _ _ _ _ Hg Hstep Hev) as [Hg'|(bs & ins & n & Hbs & Hl & -> & Hmax)].
    + split; [done|]. intros n Hn. rewrite totals_app, elem_of_app in Hn. destruct Hn as [Hn|Hn]; [by apply Htot|].
      assert (running p' = true) as Hrun by (eapply printed_running; [exact Hstep|intros Heq; rewrite Heq in Hn; by apply elem_of_nil in Hn]).
      destruct (gathering_totals _ _ Hg') as [[Hnil _]|(bs & ins & tail & Hl & Hq & Hi & Hbs & Hlen & Hone)].
      { rewrite totals_app in Hnil. apply app_nil in Hnil as [_ Hnil]. rewrite Hnil in Hn. by apply elem_of_nil in Hn. }
      assert (n ∈ totals (h id ++ ev)) as Hn' by (rewrite totals_app; apply elem_of_app; by right).
      rewrite Hone in Hn'. apply list_elem_of_singleton in Hn' as ->. apply tasks_lookup in Ha as (c & Hc & Hph).
      rewrite <-(incomings_scattered bs SHARDS ins tail Hi), <-Hl, <-(happened_self id ev h).
      eapply (all_received _ _ _ bs ((EReceived <$> ins) ++ tail) Hr' Hbs); [|by apply quiet_app; [apply quiet_received|]|exact Hc| |].
      * by rewrite happened_self.
      * by apply (f_equal t_phase) in Hph; simpl in Hph; rewrite Hph.
      * by rewrite happened_self, Hl, incomings_scattered.
    + exfalso. pose proof (received_bounded _ _ _ bs (EReceived <$> (ins ++ [Message (Partial n)])) Hr' Hbs) as Hle.
      rewrite happened_self, Hl, <-(assoc_L (++)), received_snoc in Hle. specialize (Hle eq_refl (quiet_received _)).
      rewrite <-(app_nil_r (EReceived <$> _)), incomings_scattered in Hle by done.
      rewrite messages_app in Hle. unfold partials in Hle, Hmax. rewrite omap_app, total_app in Hle. simpl in Hle. lia.
  - destruct IH as (k & Hk & Hg & Htot). exists k. by rewrite Ht.
Qed.
End System.

(** C18. The total of [scatter_gather] is complete: in every interleaving of the gatherer and its workers, with
    every order in which they are scheduled, the one total the gatherer ever prints is 5050, the sum of all
    shards, and unless the system is stopped from outside it has printed it once it terminates. No actor panics: the
    total does not overflow, a worker gets no signal and [remaining] does not go below zero. *)
Theorem gathered_total_is_complete {F : Flume} {FL : FlumeLaws F} {TW : TokioWatch} {TL : TokioWatchLaws TW}
    {TO : TokioOneshot} {TOL : TokioOneshotLaws TO} (id wid : ActorId) ls w t :
  id ≠ wid → exec ls (gatherer_system id wid) = Some (w, t) → Forall inside ls →
  ∃ h : ActorId → list Event,
    (∀ a c, cells w !! a = Some c → thread (actor c) (mk_ref a) (h a) (phase c) ∧ panicked (phase c) = false) ∧
    (∀ a, omap seen (h a) = own a t) ∧
    (totals (h id) = [] ∨ totals (h id) = [5050%N]) ∧
    (∀ c, cells w !! id = Some c → running (phase c) = false → OStopRequested ∉ t → totals (h id) = [5050%N]).
Proof.
  intros ids He Hin. destruct (exec_runs id wid Gatherer default_config ids inside ls w t He Hin) as [h Hr].
  exists h. pose proof (runs_threads _ _ _ _ ids _ _ _ _ Hr) as Hth.
  destruct (runs_gathering id wid ids w t h Hr) as (k & Hk & Hg & Htot).
  assert (totals (h id) = [] ∨ totals (h id) = [5050%N]) as Honce.
  { destruct (gathering_totals id _ _ Hg) as [[-> _]|(bs & ins & tail & _ & _ & _ & _ & _ & Hone)]; [by left|right].
    rewrite Hone in Htot |- *. by rewrite (Htot _ (list_elem_of_here _ _)). }
  split_and!; [|apply (th_shown _ _ _ _ _ _ Hth)|done|].
  - intros a c Hc%lookup_tasks. split; [apply (th_runs _ _ _ _ _ _ Hth _ _ Hc)|].
    destruct (decide (a = id)) as [->|Hne].
    + simplify_eq. by apply (gathering_sound id (h id)).
    + eapply working_sound, (proj2 (run_worker id wid ids _ _ _ _ Hr Hne) _ Hc).
  - intros c Hc%lookup_tasks Hend Hnot. simplify_eq. destruct Honce as [Hnil|]; [|done].
    destruct (gathering_totals id _ _ Hg) as [[_ Hst]|(bs & ins & tail & _ & _ & _ & _ & _ & Hone)]; [|congruence].
    by destruct (root_told_to_stop id wid Gatherer default_config ids inside w t h Hr Hnot (Hst Hend)).
Qed.

(** ** A run *)

Import Reference ReferenceTokio.

Definition gatherer_id : ActorId := mk_actor_id 1.
Definition root_watcher_id : ActorId := mk_actor_id 2.
Definition worker_id (n : N) : ActorId := mk_actor_id (3 + n).
Definition acting (a : ActorId) (made : ActorId) : Label (M:=Msg) (An:=printed_answer) := LTask a (mk_env 0 made true false (λ _, ())).

(** The gatherer scatters, the workers work one after the other, the gatherer gathers and terminates. *)
Definition scatter_gather_run : list (Label (M:=Msg) (An:=printed_answer)) :=
  LWatchRoot :: (seq 0 4 ≫= λ n, replicate 3 (acting gatherer_id (worker_id (N.of_nat n)))) ++
  (seq 0 4 ≫= λ n, replicate 15 (acting (worker_id (N.of_nat n)) gatherer_id)) ++
  replicate 35 (acting gatherer_id gatherer_id).

Definition scatter_gather_result := exec scatter_gather_run (gatherer_system gatherer_id root_watcher_id).
Definition scatter_gather_world := match scatter_gather_result with Some (w, _) => w | None => gatherer_system gatherer_id root_watcher_id end.
Definition scatter_gather_trace := match scatter_gather_result with Some (_, t) => t | None => [] end.

Lemma gatherer_ids : gatherer_id ≠ root_watcher_id.
Proof. done. Qed.
Lemma scatter_gather_exec :
  exec scatter_gather_run (gatherer_system gatherer_id root_watcher_id) = Some (scatter_gather_world, scatter_gather_trace).
Proof. vm_compute. reflexivity. Qed.
Lemma scatter_gather_inside : Forall inside scatter_gather_run.
Proof. by repeat constructor. Qed.
Lemma scatter_gather_ends :
  system_terminated scatter_gather_world = Ready (Ok ()) ∧
  ∃ c, cells scatter_gather_world !! gatherer_id = Some c ∧ running (phase c) = false.
Proof. split; [vm_compute; reflexivity|]. eexists. split; [vm_compute; reflexivity|done]. Qed.

Lemma scatter_gather_not_stopped : OStopRequested ∉ scatter_gather_trace.
Proof.
  assert (Forall (λ o, match o with OStopRequested => False | _ => True end) scatter_gather_trace) as Hall.
  { vm_compute. by repeat constructor. }
  intros Hin. exact (proj1 (Forall_forall _ _) Hall _ Hin).
Qed.

Lemma gathered_total_is_complete_witness : ∃ h : ActorId → list Event, totals (h gatherer_id) = [5050%N].
Proof.
  destruct (gathered_total_is_complete _ _ _ _ _ gatherer_ids scatter_gather_exec scatter_gather_inside) as (h & _ & _ & _ & Hall).
  exists h. destruct scatter_gather_ends as (_ & c & Hc & Hend). exact (Hall c Hc Hend scatter_gather_not_stopped).
Defined.

Lemma actors_run_their_code_witness :
  ∃ (h : ActorId → list Event) c, cells scatter_gather_world !! worker_id 2 = Some c ∧
    thread (actor c) (mk_ref (worker_id 2)) (h (worker_id 2)) (phase c) ∧
    omap seen (h (worker_id 2)) =
      [SReceived (Message (Compute (51, 76)%N (mk_ref gatherer_id) Partial)); SSent gatherer_id (Partial 1575)] ∧
    EDid (ASpawn Worker default_config (mk_ref (worker_id 2))) ∈ h gatherer_id.
Proof.
  destruct (actors_run_their_code _ _ _ _ _ _ _ gatherer_ids scatter_gather_exec) as (h & Hrun & Hown & Hspawned & _).
  exists h. eexists. split; [vm_compute; reflexivity|]. split_and!.
  - apply Hrun. vm_compute. reflexivity.
  - rewrite Hown. vm_compute. reflexivity.
  - destruct (Hspawned (worker_id 2) _ ltac:(vm_compute; reflexivity) ltac:(done)) as (a & g & Hin & Hpar).
    simpl in Hpar. by injection Hpar as <- <-.
Defined.
