(* ===== verification/Floats.v ===== *)
(** [f64]: binary64 of IEEE 754, with the round to nearest, ties to even, and how it is formatted. *)
From stdpp Require Import strings pretty.
From Stdlib Require Import SpecFloat.
From S2P Require Import Prelude.

Definition f64 : Type := spec_float.
Definition f64_add : f64 → f64 → f64 := SFadd 53 1024.
Definition f64_mul : f64 → f64 → f64 := SFmul 53 1024.
Definition f64_div : f64 → f64 → f64 := SFdiv 53 1024.
Definition f64_is_nan (x : f64) : bool := match x with S754_nan => true | _ => false end.
(** [x < y], which is false of a NaN. *)
Definition f64_lt (x y : f64) : bool := match SFcompare x y with Some Lt => true | _ => false end.
(** [f64::max]: the other one if one is a NaN. *)
Definition f64_max (x y : f64) : f64 := if f64_is_nan x then y else if f64_lt x y then y else x.

(** The number nearest to [m * 2 ^ e]. *)
Definition f64_of (m e : Z) : f64 := binary_normalize 53 1024 m e false.
Definition f64_from_u32 (n : N) : f64 := f64_of (Z.of_N n) 0.
Definition f64_from_u64 (n : N) : f64 := f64_of (Z.of_N n) 0.

(** ** Formatting with a precision: [{x:.k}]

    The exact value is rounded to [k] digits, ties to even. *)

Definition round_half_even (num den : N) : N :=
  let q := (num `div` den)%N in
  match N.compare (2 * (num `mod` den)) den with
  | Lt => q
  | Gt => (q + 1)%N
  | Eq => if N.even q then q else (q + 1)%N
  end.

(** No multiple of [den] is closer to [num]. *)
Lemma round_half_even_nearest num den :
  (0 < den)%N → let n := round_half_even num den in (2 * (n * den) ≤ 2 * num + den ∧ 2 * num ≤ 2 * (n * den) + den)%N.
Proof.
  intros Hd. unfold round_half_even. pose proof (N.div_mod num den ltac:(lia)) as Hdm.
  pose proof (N.mod_lt num den ltac:(lia)) as Hm. set (q := (num `div` den)%N) in *. set (r := (num `mod` den)%N) in *.
  destruct (N.compare_spec (2 * r) den); [destruct (N.even q)|..]; simpl; nia.
Qed.

Fixpoint fixed_digits (k : nat) (n : N) : string :=
  match k with
  | 0%nat => ""
  | S k => String (pretty_N_char ((n `div` 10 ^ N.of_nat k) `mod` 10)) (fixed_digits k n)
  end.

Definition format_decimal (k : nat) (n : N) : string :=
  pretty (n `div` 10 ^ N.of_nat k)%N +:+ "." +:+ fixed_digits k n.

Definition format_fixed (k : nat) (x : f64) : string :=
  let sign (negative : bool) := if negative then "-" else "" in
  match x with
  | S754_nan => "NaN"
  | S754_infinity s => sign s +:+ "inf"
  | S754_zero s => sign s +:+ format_decimal k 0
  | S754_finite s m e =>
      sign s +:+ format_decimal k
        (match e with
         | Zneg p => round_half_even (Npos m * 10 ^ N.of_nat k) (2 ^ Npos p)
         | _ => Npos m * 2 ^ Z.to_N e * 10 ^ N.of_nat k
         end)%N
  end.
