(* ===== verification/DeviceManager.v ===== *)
(** The example [tellus/examples/device_manager.rs]: the manager routes commands to an actor per group, a group
    to an actor per device, spawned on demand, and every request for the average temperature of a group is served
    by an actor of its own, which reads all devices of the group and replies once each has answered or terminated.
    Here is the program; [DeviceQueries] is about what its queries reply. *)
From Stdlib Require Import SpecFloat.
From stdpp Require Import strings.
From S2P Require Import Prelude Floats Config Actor Runtime.

(** ** Numbers *)

(** [+=] on a [u32] panics on overflow, as in a build with debug assertions. *)
Definition u32_add (a b : N) : option N := if decide (a + b ≤ U32_MAX)%N then Some (a + b)%N else None.

(** ** Messages *)

(** A [ReplyTo]: the one [ActorRef::ask] makes sends into the channel of its asker, the one
    [ActorContext::reply_to] makes tells the actor what becomes of the reply. *)
Inductive ReplyTo (T M : Type) :=
  | Asker (channel : N)
  | TellTo (to : ActorRef) (into_message : T → M).
Arguments Asker {T M}. Arguments TellTo {T M}.

(** [Command], [GroupMessage], [QueryMessage] and [DeviceMessage]. *)
Inductive Msg :=
  | Record (group device : string) (degrees : f64)
  | Average (group : string) (reply_to : ReplyTo (option f64) Msg)
  | Shutdown
  | GroupRecord (device : string) (degrees : f64)
  | GroupAverage (reply_to : ReplyTo (option f64) Msg)
  | Start (devices : list ActorRef) (reply_to : ReplyTo (option f64) Msg)
  | Reading (device_id : ActorId) (reading : option f64)
  | DeviceRecord (degrees : f64)
  | Read (reply_to : ReplyTo (option f64) Msg).

#[local] Abbreviation ReplyToReading := (ReplyTo (option f64) Msg).

(** ** Actors and their states *)

Inductive Example :=
  | DeviceManager
  | Group (name : string)
  | Query
  | Device (group name : string).

(** The states: of the manager and of a group, [QueryState], and of a device. *)
Inductive State :=
  | Groups (groups : gmap string ActorRef)
  | Devices (devices : gmap string ActorRef)
  | Starting
  | Running (pending : gmap ActorId ActorRef) (sum : f64) (count : N) (reply_to : ReplyToReading)
  | LastReading (last_reading : option f64).

(** The one error; the others are [Infallible]. *)
Inductive Error := InvalidReading.

(** What is printed, and what is sent to askers: requests answered with nothing. *)
Inductive Outside :=
  | Recorded (group name : string) (degrees : f64)
  | Reply (channel : N) (value : option f64).
Definition outside_answer (q : Outside) : Type := unit.

Definition MAX_RESTARTS : positive := 3.
Definition device_config : ActorConfig := with_supervision_strategy default_config (Restart (new_policy MAX_RESTARTS)).

(** The order in which a [HashMap] has its values. *)
Class HashMapValues := hash_map_values : gmap string ActorRef → list ActorRef.
Class HashMapValuesLaws (V : HashMapValues) := hash_map_values_are : ∀ m, hash_map_values m ≡ₚ (map_to_list m).*2.

#[local] Abbreviation Handler := (Handler (M:=Msg) (B:=Example) (E:=Error) (Rq:=Outside) (An:=outside_answer)).

(** ** Code *)

Definition reply {R} (reply_to : ReplyToReading) (value : option f64) (k : Handler R) : Handler R :=
  match reply_to with
  | Asker channel => HAwait (Reply channel value) (λ _, k)
  | TellTo to into_message => HTell to (into_message value) k
  end.

(** [retain] of what has another id. *)
Definition retain_others (actor_id : ActorId) (m : gmap string ActorRef) : gmap string ActorRef :=
  filter (λ x, Runtime.actor_id x.2 ≠ actor_id) m.

(** [DeviceManager::receive] *)
Definition manager_receive (incoming : Incoming Msg) (groups : gmap string ActorRef) : Handler (Control State) :=
  match incoming with
  | Message (Record group device degrees) =>
      match groups !! group with
      | Some group_ref => HTell group_ref (GroupRecord device degrees) (HReturn (Ok (Continue (Groups groups))))
      | None =>
          HSpawn (Group group) default_config (λ group_ref,
          HWatch group_ref (
          HTell group_ref (GroupRecord device degrees) (HReturn (Ok (Continue (Groups (<[group := group_ref]> groups)))))))
      end
  | Message (Average group reply_to) =>
      match groups !! group with
      | Some group_ref => HTell group_ref (GroupAverage reply_to) (HReturn (Ok (Continue (Groups groups))))
      | None => reply reply_to None (HReturn (Ok (Continue (Groups groups))))
      end
  | Message Shutdown => HReturn (Ok Actor.Stop)
  | Terminated actor_id => HReturn (Ok (Continue (Groups (retain_others actor_id groups))))
  | _ => HPanic
  end.

(** [Group::receive] *)
Definition group_receive {V : HashMapValues} (name : string) (incoming : Incoming Msg) (devices : gmap string ActorRef)
    : Handler (Control State) :=
  match incoming with
  | Message (GroupRecord device degrees) =>
      match devices !! device with
      | Some device_ref => HTell device_ref (DeviceRecord degrees) (HReturn (Ok (Continue (Devices devices))))
      | None =>
          HSpawn (Device name device) device_config (λ device_ref,
          HWatch device_ref (
          HTell device_ref (DeviceRecord degrees) (HReturn (Ok (Continue (Devices (<[device := device_ref]> devices)))))))
      end
  | Message (GroupAverage reply_to) =>
      HSpawn Query default_config (λ query,
      HTell query (Start (hash_map_values devices) reply_to) (HReturn (Ok (Continue (Devices devices)))))
  | Terminated actor_id => HReturn (Ok (Continue (Devices (retain_others actor_id devices))))
  | _ => HPanic
  end.

(** [Query::conclude] *)
Definition conclude (pending : gmap ActorId ActorRef) (sum : f64) (count : N) (reply_to : ReplyToReading)
    : Handler (Control State) :=
  if decide (pending = ∅) then
    reply reply_to (if decide (0 < count)%N then Some (f64_div sum (f64_from_u32 count)) else None)
      (HReturn (Ok Actor.Stop))
  else HReturn (Ok (Continue (Running pending sum count reply_to))).

(** The loop of [Query::receive] over the devices which are left. *)
Fixpoint fan_out (self : ActorRef) (devices : list ActorRef) (pending : gmap ActorId ActorRef) (reply_to : ReplyToReading)
    : Handler (Control State) :=
  match devices with
  | [] => HReturn (Ok (Continue (Running pending (f64_of 0 0) 0 reply_to)))
  | device :: devices =>
      HWatch device (
      HTell device (Read (TellTo self (Reading (actor_id device)))) (
      fan_out self devices (<[actor_id device := device]> pending) reply_to))
  end.

(** [Query::receive]; where the state is not [Running] it is [unreachable!]. *)
Definition query_receive (self : ActorRef) (incoming : Incoming Msg) (state : State) : Handler (Control State) :=
  match incoming with
  | Message (Start devices reply_to) =>
      match devices with
      | [] => reply reply_to None (HReturn (Ok Actor.Stop))
      | _ :: _ => fan_out self devices ∅ reply_to
      end
  | Message (Reading device_id reading) =>
      match state with
      | Running pending sum count reply_to =>
          let go := 
            match reading with
            | Some degrees =>
                match u32_add count 1 with
                | Some count => conclude (delete device_id pending) (f64_add sum degrees) count reply_to
                | None => HPanic
                end
            | None => conclude (delete device_id pending) sum count reply_to
            end in
          match pending !! device_id with Some device => HUnwatch device go | None => go end
      | _ => HPanic
      end
  | Terminated device_id =>
      match state with
      | Running pending sum count reply_to => conclude (delete device_id pending) sum count reply_to
      | _ => HPanic
      end
  | _ => HPanic
  end.

(** [Device::receive] *)
Definition device_receive (group name : string) (incoming : Incoming Msg) (last_reading : option f64)
    : Handler (Control State) :=
  match incoming with
  | Message (DeviceRecord degrees) =>
      if f64_is_nan degrees then HReturn (Err InvalidReading)
      else HAwait (Recorded group name degrees) (λ _, HReturn (Ok (Continue (LastReading (Some degrees)))))
  | Message (Read reply_to) => reply reply_to last_reading (HReturn (Ok (Continue (LastReading last_reading))))
  | _ => HPanic
  end.

(** A message or a state of another actor's type cannot be: it panics here. *)
#[export] Instance device_manager {V : HashMapValues} : Runtime.Actor Msg Example State Error Outside outside_answer := {
  init a self :=
    match a with
    | DeviceManager => HReturn (Ok (Groups ∅))
    | Group _ => HReturn (Ok (Devices ∅))
    | Query => HReturn (Ok Starting)
    | Device _ _ => HReturn (Ok (LastReading None))
    end;
  receive a self incoming state :=
    match a, state with
    | DeviceManager, Groups groups => manager_receive incoming groups
    | Group name, Devices devices => group_receive name incoming devices
    | Query, (Starting | Running _ _ _ _) => query_receive self incoming state
    | Device group name, LastReading last_reading => device_receive group name incoming last_reading
    | _, _ => HPanic
    end;
}.

(** What [main] tells the manager, the asks by the number of their channel; each ask is awaited before the next
    command is sent. *)
Definition main : list Msg :=
  [ Record "attic" "left" (f64_of 43 (-1));
    Record "attic" "right" (f64_of 2688086027586765 (-47));
    Record "cellar" "main" (f64_of 11 0);
    Record "cellar" "main" S754_nan;
    Average "attic" (Asker 0);
    Average "cellar" (Asker 1);
    Average "garage" (Asker 2);
    Shutdown ].
