(* ===== verification/DeviceQueries.v ===== *)
(** What the queries of [DeviceManager] reply: in every interleaving a query replies once, with the average of one
    reading of each of its devices but for those which terminated without having answered, and no query waits for
    an answer which does not come: when nothing is left to do, every request has been replied to. *)
From stdpp Require Import strings.
From S2P Require Import Prelude Floats Backoff Config Flume Quota Actor Mailbox MailboxSpec Tokio Runtime RuntimeMoves RuntimeTree RuntimeWatch RuntimeSystem RuntimeTrace RuntimeMailboxes RuntimeProgress Handlers RuntimeThreads RuntimeProtocols RuntimeRounds DeviceManager.

#[local] Abbreviation Event := (Event (M:=Msg) (B:=Example) (Rq:=Outside) (An:=outside_answer)).
#[local] Abbreviation Handler := (Handler (M:=Msg) (B:=Example) (E:=Error) (Rq:=Outside) (An:=outside_answer)).
#[local] Abbreviation Phase := (Phase (M:=Msg) (B:=Example) (S:=State) (E:=Error) (Rq:=Outside) (An:=outside_answer)).
#[local] Abbreviation Label := (Label (M:=Msg) (An:=outside_answer)).
#[local] Abbreviation Incoming := (Incoming Msg).
#[local] Abbreviation Stage := (Stage (S:=State)).
Implicit Types (l t : list Event) (p : Phase) (ins : list Incoming) (a b d q : ActorId) (ds : list ActorRef).

(** ** Types *)

(** What the manager is told from outside. *)
Definition is_command (m : Msg) : Prop :=
  match m with Record _ _ _ | Average _ (Asker _) | Shutdown => True | _ => False end.

Definition spawnable (act : Example) (config : ActorConfig) : Prop :=
  match act with
  | DeviceManager => False
  | Group _ | Query => config = default_config
  | Device _ _ => config = device_config
  end.

Section Types.
Context (who : ActorId → Example → ActorConfig → Prop).

Definition is_group a : Prop := ∃ n config, who a (Group n) config.
Definition is_query a : Prop := ∃ config, who a Query config.
Definition is_device a : Prop := ∃ g n config, who a (Device g n) config.

Definition gets a (act : Example) (i : Incoming) : Prop :=
  match act, i with
  | DeviceManager, Message m => is_command m
  | Group _, Message (GroupRecord _ _ | GroupAverage (Asker _)) => True
  | Query, Message (Start ds (Asker _)) => Forall (λ r, is_device (actor_id r)) ds
  | Query, Message (Reading _ _) => True
  | Device _ _, Message (DeviceRecord _) => True
  | Device _ _, Message (Read (TellTo r into)) => into = Reading a ∧ is_query (actor_id r)
  | (DeviceManager | Group _ | Query), Terminated _ => True
  | _, _ => False
  end.
Definition ok a (i : Incoming) : Prop := ∀ act config, who a act config → gets a act i.

Definition typed a (act : Example) (s : State) : Prop :=
  match act, s with
  | DeviceManager, Groups m => map_Forall (λ _ r, is_group (actor_id r)) m
  | Group _, Devices m => map_Forall (λ _ r, is_device (actor_id r)) m
  | Query, Starting => True
  | Query, Running pending _ _ reply_to => ∃ k, reply_to = Asker k
  | Device _ _, LastReading _ => True
  | _, _ => False
  end.

Context (functional : ∀ a act act' config config', who a act config → who a act' config' → act = act').

Lemma group_ok a i : is_group a → gets a (Group "") i → known who a ∧ ok a i.
Proof.
  intros (n & c & Hw) Hg. split; [by exists (Group n), c|]. intros act c' Hw'.
  rewrite <-(functional _ _ _ _ _ Hw Hw'). exact Hg.
Qed.
Lemma query_ok a i : is_query a → gets a Query i → known who a ∧ ok a i.
Proof. intros (c & Hw) Hg. split; [by exists Query, c|]. intros act c' Hw'. by rewrite <-(functional _ _ _ _ _ Hw Hw'). Qed.
Lemma device_ok a i : is_device a → gets a (Device "" "") i → known who a ∧ ok a i.
Proof.
  intros (g & n & c & Hw) Hg. split; [by exists (Device g n), c|]. intros act c' Hw'.
  rewrite <-(functional _ _ _ _ _ Hw Hw'). exact Hg.
Qed.

(** Signals of any known actor are fine for whom watches it. *)
Lemma signal_ok a act config b : who a act config → (∀ g n, act ≠ Device g n) → known who b → known who b ∧ ok a (Terminated b).
Proof.
  intros Hw Hact Hb. split; [done|]. intros act' c' Hw'. rewrite <-(functional _ _ _ _ _ Hw Hw').
  destruct act; try done. by destruct (Hact group name).
Qed.

Lemma retain_typed (P : ActorRef → Prop) b m : map_Forall (λ _, P) m → map_Forall (λ _, P) (retain_others b m).
Proof. intros Hm n r [Hr _]%map_lookup_filter_Some. by apply (Hm n). Qed.

Context {V : HashMapValues} {VL : HashMapValuesLaws V}.

Lemma values_typed (P : ActorRef → Prop) (m : gmap string ActorRef) : map_Forall (λ _, P) m → Forall P (hash_map_values m).
Proof.
  intros Hm. rewrite hash_map_values_are. apply Forall_fmap, Forall_forall. intros [n r] Hin%elem_of_map_to_list. by apply (Hm n).
Qed.

Lemma manager_keeps a config i (m : gmap string ActorRef) :
  who a DeviceManager config → gets a DeviceManager i → typed a DeviceManager (Groups m) →
  keeps who spawnable ok a (λ c, match c with Continue s' => typed a DeviceManager s' | Actor.Stop => True end) (manager_receive i m).
Proof.
  intros Hw Hi Hm. destruct i as [[g n x|g [k|]| | | | | | |]|b]; try done; simpl in *.
  - destruct (m !! g) as [r|] eqn:Hg.
    + split; [apply group_ok; [by apply (Hm g)|done]|done].
    + split; [done|]. intros r Hr. assert (is_group (actor_id r)) as Hgr by (by exists g, default_config).
      split; [|split]; [eapply signal_ok; [done|done|by exists (Group g), default_config]|by apply group_ok|].
      by apply map_Forall_insert_2.
  - destruct (m !! g) as [r|] eqn:Hg; [|by intros _].
    split; [apply group_ok; [by apply (Hm g)|done]|done].
  - by apply retain_typed.
Qed.

Lemma group_keeps a n config i (m : gmap string ActorRef) :
  who a (Group n) config → gets a (Group n) i → typed a (Group n) (Devices m) →
  keeps who spawnable ok a (λ c, match c with Continue s' => typed a (Group n) s' | Actor.Stop => True end) (group_receive n i m).
Proof.
  intros Hw Hi Hm. destruct i as [[| | |x deg|[k|]| | | |]|b]; try done; simpl in *.
  - destruct (m !! x) as [r|] eqn:Hg.
    + split; [apply device_ok; [by apply (Hm x)|done]|done].
    + split; [done|]. intros r Hr. assert (is_device (actor_id r)) as Hd by (by exists n, x, device_config).
      split; [|split]; [eapply signal_ok; [done|done|by exists (Device n x), device_config]|by apply device_ok|].
      by apply map_Forall_insert_2.
  - split; [done|]. intros r Hr. split; [|done]. apply query_ok; [by exists default_config|]. simpl.
    by apply values_typed.
  - by apply retain_typed.
Qed.

Lemma conclude_keeps a pending sum count k :
  keeps who spawnable ok a (λ c, match c with Continue s' => typed a Query s' | Actor.Stop => True end)
    (conclude pending sum count (Asker k)).
Proof. unfold conclude. case_decide; simpl; [by intros _|by exists k]. Qed.

Lemma query_keeps a config i s :
  who a Query config → gets a Query i → typed a Query s →
  keeps who spawnable ok a (λ c, match c with Continue s' => typed a Query s' | Actor.Stop => True end) (query_receive (mk_ref a) i s).
Proof.
  intros Hw Hi Hs. destruct i as [[| | | | |ds [k|]|d x| |]|d]; try done; simpl in *.
  - destruct ds as [|r0 ds0]; [by intros _|]. revert Hi. generalize (r0 :: ds0) as ds. generalize (∅ : gmap ActorId ActorRef) as pending.
    intros pending ds. revert pending. induction ds as [|r ds IH]; intros pending Hds; [by exists k|].
    apply Forall_cons in Hds as [Hr Hds]. simpl. split; [|split; [|by apply IH]].
    + eapply signal_ok; [done|done|]. destruct Hr as (g & n & c & ?). by exists (Device g n), c.
    + apply device_ok; [done|]. simpl. split; [done|by exists config].
  - destruct s as [| | |pending sum count rt|]; try done. destruct Hs as [k ->].
    assert (∀ y, keeps who spawnable ok a (λ c, match c with Continue s' => typed a Query s' | Actor.Stop => True end)
      match y with
      | Some degrees => match u32_add count 1 with Some n => conclude (delete d pending) (f64_add sum degrees) n (Asker k) | None => HPanic end
      | None => conclude (delete d pending) sum count (Asker k)
      end) as Hgo.
    { intros [y|]; [destruct (u32_add count 1); [|done]|]; apply conclude_keeps. }
    destruct (pending !! d); [simpl|]; apply Hgo.
  - destruct s as [| | |pending sum count rt|]; try done. destruct Hs as [k ->]. apply conclude_keeps.
Qed.

Lemma device_keeps a g n config i x :
  who a (Device g n) config → gets a (Device g n) i →
  keeps who spawnable ok a (λ c, match c with Continue s' => typed a (Device g n) s' | Actor.Stop => True end) (device_receive g n i x).
Proof.
  intros Hw Hi. destruct i as [[| | | | | | |y|[k|r into]]|b]; try done; simpl in *.
  - destruct (f64_is_nan y); [done|]. by intros _.
  - destruct Hi as [-> Hq]. split; [|done]. by apply query_ok.
Qed.

Lemma device_manager_typed : typed_actor who spawnable ok typed.
Proof.
  intros a act config Hw. split; [by destruct act|]. intros i s Hi Hs. specialize (Hi _ _ Hw).
  destruct act as [|n| |g n], s; try done; simpl.
  - by eapply manager_keeps.
  - by eapply group_keeps.
  - by eapply query_keeps.
  - by eapply query_keeps.
  - by eapply device_keeps.
Qed.
End Types.

(** ** Who sends what *)

Section Sends.
Context {V : HashMapValues} (who : ActorId → Example → ActorConfig → Prop).

(** The messages each kind of actor tells, and whom it spawns. *)
Definition sends_only (act : Example) a (e : Event) : Prop :=
  match e with
  | EDid (ATell to m) =>
      match act, m with
      | DeviceManager, (GroupRecord _ _ | GroupAverage _) => True
      | Group _, (DeviceRecord _ | Start _ _) => True
      | Query, Read reply_to => reply_to = TellTo (mk_ref a) (Reading (actor_id to))
      | Device _ _, Reading d _ => d = a
      | _, _ => False
      end
  | EDid (ASpawn act' _ _) => match act, act' with DeviceManager, Group _ | Group _, (Query | Device _ _) => True | _, _ => False end
  | EDid (ATryTell _ _ _ _) => False
  | _ => True
  end.

(** A query replies to an asker. *)
Definition replies_to_asker (st : Stage) : Prop :=
  match st with Settled (Running _ _ _ rt) => ∃ k, rt = Asker k | _ => True end.

Lemma conclude_only (P : Event → Prop) pending sum count n :
  (∀ (x : Outside) (y : outside_answer x), P (EAnswered x y)) →
  only P (λ k, from_option replies_to_asker True (receive_leads k)) (conclude pending sum count (Asker n)).
Proof. intros HP. unfold conclude. case_decide; simpl; [by intros answer|by exists n]. Qed.

Lemma fan_out_only (P : Event → Prop) self ds pending n :
  (∀ r, P (EDid (AWatch r)) ∧ P (EDid (ATell r (Read (TellTo self (Reading (actor_id r))))))) →
  only P (λ k, from_option replies_to_asker True (receive_leads k)) (fan_out self ds pending (Asker n)).
Proof.
  intros HP. revert pending. induction ds as [|r ds IH]; intros pending; [by exists n|]. simpl. destruct (HP r). auto.
Qed.

Lemma sends_points a act l p :
  placed act (mk_ref a) l p → (∀ i, EReceived i ∈ l → gets who a act i) → Forall (sends_only act a) l.
Proof.
  apply (placed_only act (mk_ref a) _ replies_to_asker); [by intros []|done|done|by destruct act|].
  intros i s Hi Hs. destruct act as [|n| |g n], s as [m|m| |pending sum count rt|x]; try done; simpl in *.
  - destruct i as [[g n x|g [k|]| | | | | | |]|b]; try done; simpl; try done; destruct (m !! g); simpl; naive_solver.
  - destruct i as [[| | |x deg|[k|]| | | |]|b]; try done; simpl; try done; try destruct (m !! x); simpl; naive_solver.
  - destruct i as [[| | | | |ds [k|]|d y| |]|d]; try done; simpl.
    destruct ds as [|r ds]; [simpl; by intros []|]. by apply fan_out_only.
  - destruct Hs as [k ->]. destruct i as [[| | | | |ds [k'|]|d y| |]|d]; try done; simpl.
    + destruct ds as [|r ds]; [simpl; by intros []|]. by apply fan_out_only.
    + assert (only (sends_only Query a) (λ k, from_option replies_to_asker True (receive_leads k))
        match y with
        | Some degrees => match u32_add count 1 with Some c => conclude (delete d pending) (f64_add sum degrees) c (Asker k) | None => HPanic end
        | None => conclude (delete d pending) sum count (Asker k)
        end) as Hgo.
      { destruct y; [destruct (u32_add count 1); [|done]|]; by apply conclude_only. }
      destruct (pending !! d); [simpl|]; auto.
    + by apply conclude_only.
  - destruct i as [[| | | | | | |y|[k|r into]]|b]; try done; simpl in *.
    + destruct (f64_is_nan y); [done|]. by intros [].
    + by destruct Hi as [-> _].
Qed.
End Sends.

(** ** The manager *)

Section Manager.
Context {V : HashMapValues} (who : ActorId → Example → ActorConfig → Prop).

Definition gets_all a act l : Prop := ∀ i, EReceived i ∈ l → gets who a act i.
Lemma gets_all_prefix a act l l' : gets_all a act (l ++ l') → gets_all a act l.
Proof. intros Hl i Hi. apply Hl, elem_of_app. by left. Qed.
Lemma gets_all_last a act l i : gets_all a act (l ++ [EReceived i]) → gets who a act i.
Proof. intros Hl. apply Hl, elem_of_app. right. by left. Qed.

(** Every request for an average has been replied to right away or passed on. *)
Definition requests_handled l : Prop := ∀ g k, EReceived (Message (Average g (Asker k))) ∈ l →
  EAnswered (Reply k None) () ∈ l ∨ ∃ r, EDid (ATell r (GroupAverage (Asker k))) ∈ l.

Lemma requests_handled_app l i t :
  requests_handled l →
  (∀ g k, i = Message (Average g (Asker k)) → EAnswered (Reply k None) () ∈ t ∨ ∃ r, EDid (ATell r (GroupAverage (Asker k))) ∈ t) →
  (∀ i', EReceived i' ∉ t) → requests_handled (l ++ EReceived i :: t).
Proof.
  intros Hl Hi Ht g k. setoid_rewrite elem_of_app. setoid_rewrite elem_of_cons.
  intros [Hin|[[= <-]|Hin]]; [destruct (Hl _ _ Hin) as [?|[r ?]]; eauto|destruct (Hi _ _ eq_refl) as [?|[r ?]]; eauto|by destruct (Ht _ Hin)].
Qed.

Definition manager_stage l (st : Stage) : Prop :=
  match st with Begins => l = [] | Settled (Groups _) => requests_handled l | Settled _ | Fails => False | Stops => True end.

Lemma manager_rounds a l st : rounds DeviceManager (mk_ref a) l st → gets_all a DeviceManager l → manager_stage l st.
Proof.
  apply (rounds_ends DeviceManager (mk_ref a) (gets_all a DeviceManager) manager_stage); [apply gets_all_prefix|done| | |done].
  - intros l0 ->. simpl. intros _ g k Hin. by apply elem_of_nil in Hin.
  - intros l0 s i Hs Hi%gets_all_last. destruct s as [m| | | |]; try done. 
    assert (∀ t, (∀ i', EReceived i' ∉ t) → (∀ g k, i = Message (Average g (Asker k)) →
      EAnswered (Reply k None) () ∈ t ∨ ∃ r, EDid (ATell r (GroupAverage (Asker k))) ∈ t) → requests_handled (l0 ++ EReceived i :: t)) as Hgo.
    { intros t Ht Hi'. by apply requests_handled_app. }
    destruct i as [[g n x|g [k|]| | | | | | |]|b]; try done; simpl; [destruct (m !! g) as [r|]..|].
    + intros _. apply Hgo; [set_solver|done].
    + intros child _. apply Hgo; [set_solver|done].
    + intros _. apply Hgo; [set_solver|]. intros g' k' [= <- <-]. right. exists r. by left.
    + intros [] _. apply Hgo; [set_solver|]. intros g' k' [= <- <-]. left. by left.
    + intros _. apply Hgo; [set_solver|done].
Qed.
End Manager.

(** ** Groups *)

Section GroupHistories.
Context {V : HashMapValues} {VL : HashMapValuesLaws V} (who : ActorId → Example → ActorConfig → Prop).
#[local] Abbreviation gets_all := (gets_all who).

(** Every request has been passed to a query of its own, and every query spawned has been told one. *)
Definition requests_passed l : Prop := ∀ k, EReceived (Message (GroupAverage (Asker k))) ∈ l →
  ∃ r ds, EDid (ASpawn Query default_config r) ∈ l ∧ EDid (ATell r (Start ds (Asker k))) ∈ l.
Definition queries_started l : Prop := ∀ r config, EDid (ASpawn Query config r) ∈ l →
  ∃ ds rt, EDid (ATell r (Start ds rt)) ∈ l.

(** The devices of a group are children of its, each under one name. *)
Definition devices_ok l (m : gmap string ActorRef) : Prop :=
  (∀ n r, m !! n = Some r → actor_id r ∈ omap spawned l) ∧
  (∀ n n' r r', m !! n = Some r → m !! n' = Some r' → actor_id r = actor_id r' → n = n').

Definition group_stage l (st : Stage) : Prop :=
  match st with
  | Begins => l = []
  | Settled (Devices m) => requests_passed l ∧ queries_started l ∧ devices_ok l m
  | Settled _ | Fails | Stops => False
  end.

Definition distinct_children a n l : Prop := gets_all a (Group n) l ∧ NoDup (omap spawned l).
Lemma distinct_children_prefix a n l l' : distinct_children a n (l ++ l') → distinct_children a n l.
Proof. intros [Hg Hn]. split; [by eapply gets_all_prefix|]. rewrite omap_app in Hn. by apply NoDup_app in Hn as [? _]. Qed.

Lemma devices_ok_more l t m : devices_ok l m → devices_ok (l ++ t) m.
Proof. intros [H1 H2]. split; [|done]. intros n r Hn. rewrite omap_app, elem_of_app. left. by eapply H1. Qed.

Lemma devices_ok_new l t m n r :
  devices_ok l m → NoDup (omap spawned (l ++ t)) → actor_id r ∈ omap spawned t → devices_ok (l ++ t) (<[n := r]> m).
Proof.
  rewrite omap_app. intros [H1 H2] (_ & Hnd & _)%NoDup_app Hr. split.
  - intros n' r' [[<- <-]|[_ Hn]]%lookup_insert_Some; rewrite omap_app, elem_of_app; [by right|left; by eapply H1].
  - intros n1 n2 r1 r2 [[<- <-]|[Hne1 Hn1]]%lookup_insert_Some [[<- <-]|[Hne2 Hn2]]%lookup_insert_Some Heq; [done|..].
    + rewrite Heq in Hr. by destruct (Hnd _ (H1 _ _ Hn2)).
    + rewrite <-Heq in Hr. by destruct (Hnd _ (H1 _ _ Hn1)).
    + by eapply H2.
Qed.

Lemma devices_ok_retain l b m : devices_ok l m → devices_ok l (retain_others b m).
Proof.
  intros [H1 H2]. split.
  - intros n r [Hn _]%map_lookup_filter_Some. by eapply H1.
  - intros n n' r r' [Hn _]%map_lookup_filter_Some [Hn' _]%map_lookup_filter_Some. by eapply H2.
Qed.

Lemma group_rounds a n l st :
  rounds (Group n) (mk_ref a) l st → gets_all a (Group n) l → NoDup (omap spawned l) → group_stage l st.
Proof.
  intros Hr Hg Hnd. eapply (rounds_ends (Group n) (mk_ref a) (distinct_children a n) group_stage);
    [apply distinct_children_prefix|done| | |done|exact Hr|by split].
  - intros l0 ->. simpl. intros _. split_and!; try by intros ??; intros ?%elem_of_nil || intros [=].
    + by intros k ?%elem_of_nil.
    + by split.
  - intros l0 s i Hs [Hi%gets_all_last _]. destruct s as [|m| | |]; try done. destruct Hs as (Hp & Hq & Hm).
    assert (∀ t m', (∀ i', EReceived i' ∉ t) → requests_passed (l0 ++ EReceived i :: t) → queries_started t → 
      devices_ok (l0 ++ EReceived i :: t) m' → group_stage (l0 ++ EReceived i :: t) (Settled (Devices m'))) as Hgo.
    { intros t m' Ht Hp' Hq' Hm'. split_and!; [done| |done]. intros r c. rewrite elem_of_app, elem_of_cons.
      setoid_rewrite elem_of_app. setoid_rewrite elem_of_cons.
      intros [Hin|[|Hin]]; [destruct (Hq _ _ Hin) as (ds & rt & ?); eauto|done|destruct (Hq' _ _ Hin) as (ds & rt & ?); eauto 6]. }
    assert (∀ t, (∀ i', EReceived i' ∉ t) → (∀ k, i ≠ Message (GroupAverage (Asker k))) → requests_passed (l0 ++ EReceived i :: t)) as Hpass.
    { intros t Ht Hi' k. rewrite elem_of_app, elem_of_cons. setoid_rewrite elem_of_app.
      intros [Hin|[[= <-]|Hin]]; [destruct (Hp _ Hin) as (r & ds & ? & ?); eauto 8|by destruct (Hi' k)|by destruct (Ht _ Hin)]. }
    destruct i as [[| | |x deg|[k|]| | | |]|b]; try done; simpl; [destruct (m !! x) as [r|]| |].
    + intros _. apply Hgo; [set_solver|apply Hpass; [set_solver|done]|intros ??; set_solver|by apply devices_ok_more].
    + intros child [_ Hnd']. apply Hgo; [set_solver|apply Hpass; [set_solver|done]|intros ??; set_solver|].
      apply devices_ok_new; [done|done|]. simpl. by left.
    + intros child _. apply Hgo; [set_solver| | |by apply devices_ok_more].
      * intros k'. setoid_rewrite elem_of_app. setoid_rewrite elem_of_cons.
        intros [Hin|[[= <-]|Hin]]; [destruct (Hp _ Hin) as (r & ds & ? & ?); eauto 8| |set_solver].
        exists child. eexists. split; right; right; [by left|right; by left].
      * intros r c Hin. exists (hash_map_values m), (Asker k). set_solver.
    + intros _. apply Hgo; [set_solver|apply Hpass; [set_solver|done]|intros ??; set_solver|].
      by apply devices_ok_more, devices_ok_retain.
Qed.

(** The devices a query is started with are distinct, and each query spawned is started at most once. *)
Definition is_start (m : Msg) : bool := match m with Start _ _ => true | _ => false end.
Definition starts q l : list Msg := filter (λ m, is_start m = true) (sends q l).

Definition starts_ok l : Prop :=
  (∀ r ds rt, EDid (ATell r (Start ds rt)) ∈ l → NoDup (actor_id <$> ds)) ∧
  ∀ q, (length (starts q l) ≤ times q (omap spawned l))%nat.

Lemma starts_app q l l' : starts q (l ++ l') = starts q l ++ starts q l'.
Proof. unfold starts. by rewrite sends_app, filter_app. Qed.

Lemma starts_ok_app l l' : starts_ok l → starts_ok l' → starts_ok (l ++ l').
Proof.
  intros [H1 H2] [H1' H2']. split.
  - intros r ds rt [Hin|Hin]%elem_of_app; [by eapply H1|by eapply H1'].
  - intros q. rewrite starts_app, length_app, omap_app, times_app. specialize (H2 q). specialize (H2' q). lia.
Qed.

Definition no_start (e : Event) : bool :=
  match e with EDid (ATell _ (Start _ _)) | EDid (ATryTell _ _ (Start _ _) _) => false | _ => true end.

Lemma no_start_ok l : Forall (λ e, no_start e = true) l → starts_ok l.
Proof.
  intros Hl. split.
  - intros r ds rt Hin. by pose proof (proj1 (Forall_forall _ _) Hl _ Hin).
  - intros q. assert (starts q l = []) as ->; [|simpl; lia]. induction Hl as [|e l He _ IH]; [done|].
    change (e :: l) with ([e] ++ l). rewrite starts_app, IH, app_nil_r.
    destruct e as [|[to m|f to m []| | | |]| | |]; try done; unfold starts, sends; simpl; case_decide; try done; by destruct m.
Qed.

Lemma hash_map_values_distinct l m : devices_ok l m → NoDup (actor_id <$> hash_map_values m).
Proof.
  intros [_ Hinj]. rewrite hash_map_values_are, <-list_fmap_compose. apply NoDup_fmap_2_strong; [|apply NoDup_map_to_list].
  intros [n r] [n' r'] Hn%elem_of_map_to_list Hn'%elem_of_map_to_list Heq. simpl in Heq.
  assert (n = n') as -> by by eapply Hinj. by simplify_eq.
Qed.

Lemma group_starts_code l n i m t k :
  devices_ok l m → does (group_receive n i m) t k → starts_ok (EReceived i :: t).
Proof.
  intros Hm Hd. assert ((∃ rt, i = Message (GroupAverage rt)) ∨ ∀ rt, i ≠ Message (GroupAverage rt)) as [[rt ->]|Hi].
  { destruct i as [[]|]; eauto. }
  - revert Hd. apply (always_does _ _ _ (λ t _, starts_ok (EReceived (Message (GroupAverage rt)) :: t))). simpl.
    split; [by apply no_start_ok; repeat constructor|]. intros child. split; [by apply no_start_ok; repeat constructor|].
    assert (starts_ok [EReceived (Message (GroupAverage rt)); EDid (ASpawn Query default_config child);
      EDid (ATell child (Start (hash_map_values m) rt))]) as Hok; [|by split].
    split.
    + intros r ds rt' Hin. assert (ds = hash_map_values m) as -> by set_solver. by eapply hash_map_values_distinct.
    + intros q. unfold starts, sends. simpl. rewrite times_cons. repeat case_decide; simpl; lia.
  - apply no_start_ok. constructor; [done|]. revert Hd. apply (always_does _ _ _ (λ t _, Forall (λ e, no_start e = true) t)).
    destruct i as [[| | |x deg|rt| | | |]|b]; simpl; try destruct (m !! x); simpl; repeat (split || intros ?); repeat constructor.
    all: by destruct (Hi rt).
Qed.

Lemma group_starts a n l p :
  placed (Group n) (mk_ref a) l p → gets_all a (Group n) l → NoDup (omap spawned l) → starts_ok l.
Proof.
  intros Hp Hg Hnd. eapply (placed_chunks (Group n) (mk_ref a) (distinct_children a n) starts_ok);
    [apply distinct_children_prefix|by apply no_start_ok|apply starts_ok_app|by apply no_start_ok; repeat constructor..| | |exact Hp|by split].
  - intros t k Hd. assert (t = []) as -> by (eapply (always_does _ _ _ (λ t _, t = [])); [|exact Hd]; by split). by apply no_start_ok.
  - intros l0 s i t k Hr Hi Hd. destruct (distinct_children_prefix _ _ _ _ Hi) as [Hg0 Hnd0].
    pose proof (group_rounds _ _ _ _ Hr Hg0 Hnd0) as Hst. destruct s as [|m| | |]; try done. destruct Hst as (_ & _ & Hm).
    exact (group_starts_code _ _ _ _ _ _ Hm Hd).
Qed.
End GroupHistories.


(** ** Queries *)

#[local] Arguments f64_of : simpl never.

Section QueryHistories.
Context {V : HashMapValues} (self : ActorRef).

(** The devices which have answered a query, or have terminated, and the readings it got. *)
Definition settled_devices ins : list ActorId :=
  omap (λ i, match i with Message (Reading d _) | Terminated d => Some d | _ => None end) ins.
Definition readings ins : list f64 := omap (λ i, match i with Message (Reading _ reading) => reading | _ => None end) ins.

(** The answers of devices. *)
Definition answers ins : list (ActorId * option f64) :=
  omap (λ i, match i with Message (Reading d reading) => Some (d, reading) | _ => None end) ins.
Definition is_reading_of d (m : Msg) : bool := match m with Reading d' _ => bool_decide (d' = d) | _ => false end.

Lemma readings_answers ins : readings ins = omap snd (answers ins).
Proof.
  induction ins as [|i ins IH]; [done|]. destruct i as [[| | | | | |d [y|]| |]|d]; try exact IH. unfold readings, answers in *. simpl. f_equal. exact IH.
Qed.
Lemma elem_of_answers d y ins : (d, y) ∈ answers ins ↔ Message (Reading d y) ∈ ins.
Proof.
  unfold answers. rewrite list_elem_of_omap. split; [|by exists (Message (Reading d y))].
  intros ([[]|] & Hin & Heq); by simplify_eq/=.
Qed.
Lemma answers_times d ins : times d (answers ins).*1 = length (filter (λ m, is_reading_of d m = true) (messages ins)).
Proof.
  induction ins as [|[m|b] ins IH]; [done| |exact IH].
  change (messages (Message m :: ins)) with (m :: messages ins). rewrite filter_cons. unfold is_reading_of at 1.
  destruct m as [| | | | | |d' y| |]; try exact IH.
  change (answers (_ :: ins)) with ((d', y) :: answers ins). rewrite fmap_cons, times_cons, IH. simpl.
  destruct (decide (d' = d)) as [->|Hne].
  - rewrite decide_True; [done|]. by apply bool_decide_eq_true.
  - rewrite decide_False; [done|]. by rewrite bool_decide_eq_true.
Qed.

(** The average of what there is. *)
Definition average (xs : list f64) : option f64 :=
  match xs with [] => None | _ :: _ => Some (f64_div (foldl f64_add (f64_of 0 0) xs) (f64_from_u32 (N.of_nat (length xs)))) end.

Definition replies l : list (N * option f64) :=
  omap (λ e, match e with EAnswered (Reply k value) _ => Some (k, value) | _ => None end) l.

(** What a query gets: its start first, and no other; and fewer readings than its counter has numbers. *)
Definition orderly ins : Prop :=
  match ins with
  | [] => True
  | Message (Start _ (Asker _)) :: ins => Forall (λ i, match i with Message (Reading _ _) | Terminated _ => True | _ => False end) ins
  | _ => False
  end.
Definition query_gets l : Prop := orderly (incomings l) ∧ (N.of_nat (length (readings (incomings l))) ≤ U32_MAX)%N.

Lemma orderly_prefix ins ins' : orderly (ins ++ ins') → orderly ins.
Proof. destruct ins as [|[[| | | | |ds [k|]| | |]|] ins]; try done. simpl. by intros [? _]%Forall_app. Qed.
Lemma query_gets_prefix l l' : query_gets (l ++ l') → query_gets l.
Proof.
  unfold query_gets. rewrite incomings_app. unfold readings. rewrite omap_app, length_app. intros [Ho Hn]. split; [by eapply orderly_prefix|lia].
Qed.

(** A query which has been started. *)
Record query_runs l (pending : gmap ActorId ActorRef) (sum : f64) (count : N) (k : N) (ds : list ActorRef) ins : Prop := {
  qr_incomings : incomings l = Message (Start ds (Asker k)) :: ins;
  qr_pending d : is_Some (pending !! d) ↔ d ∈ actor_id <$> ds ∧ d ∉ settled_devices ins;
  qr_ids d r : pending !! d = Some r → actor_id r = d;
  qr_sum : sum = foldl f64_add (f64_of 0 0) (readings ins);
  qr_count : count = N.of_nat (length (readings ins));
  qr_watches d : watches_now d l = true ↔ is_Some (pending !! d);
  qr_replies : replies l = [];
  qr_told r : r ∈ ds → Read (TellTo self (Reading (actor_id r))) ∈ sends (actor_id r) l;
}.

Definition query_stage l (st : Stage) : Prop :=
  match st with
  | Begins | Settled Starting => l = []
  | Settled (Running pending sum count (Asker k)) => pending ≠ ∅ ∧ ∃ ds ins, query_runs l pending sum count k ds ins
  | Stops => ∃ k ds ins, incomings l = Message (Start ds (Asker k)) :: ins ∧
      (∀ r, r ∈ ds → actor_id r ∈ settled_devices ins) ∧ replies l = [(k, average (readings ins))]
  | _ => False
  end.

Lemma conclude_ends l pending sum count k ds ins :
  query_runs l pending sum count k ds ins →
  ends (conclude pending sum count (Asker k)) (λ t c, from_option (query_stage (l ++ t)) True (receive_leads c)).
Proof.
  intros Hr. unfold conclude. case_decide as He; simpl.
  - intros []. exists k, ds, ins. split_and!.
    + by rewrite incomings_app, (qr_incomings _ _ _ _ _ _ _ Hr), app_nil_r.
    + intros r Hin. destruct (decide (actor_id r ∈ settled_devices ins)) as [|Hn]; [done|].
      destruct (proj2 (qr_pending _ _ _ _ _ _ _ Hr (actor_id r))) as [x Hx]; [split; [by apply list_elem_of_fmap_2|done]|].
      by rewrite He, lookup_empty in Hx.
    + unfold replies. rewrite omap_app. fold (replies l). rewrite (qr_replies _ _ _ _ _ _ _ Hr), (qr_sum _ _ _ _ _ _ _ Hr), (qr_count _ _ _ _ _ _ _ Hr).
      simpl. do 2 f_equal. destruct (readings ins); [by rewrite decide_False by (simpl; lia)|by rewrite decide_True by (simpl; lia)].
  - split; [done|]. rewrite app_nil_r. eauto.
Qed.

(** What starting sends, and who is then pending. *)
Definition fan_events ds : list Event :=
  ds ≫= λ r, [EDid (AWatch r); EDid (ATell r (Read (TellTo self (Reading (actor_id r)))))].
Definition fan_pending (pending : gmap ActorId ActorRef) ds : gmap ActorId ActorRef :=
  foldl (λ m r, <[actor_id r := r]> m) pending ds.

Lemma fan_out_ends ds pending rt Q :
  Q (fan_events ds) (HReturn (Ok (Continue (Running (fan_pending pending ds) (f64_of 0 0) 0 rt)))) →
  ends (fan_out self ds pending rt) Q.
Proof. revert pending Q. induction ds as [|r ds IH]; intros pending Q HQ; [done|]. simpl. by apply IH. Qed.

Lemma fan_pending_lookup ds pending d :
  is_Some (fan_pending pending ds !! d) ↔ d ∈ actor_id <$> ds ∨ is_Some (pending !! d).
Proof.
  revert pending. induction ds as [|r ds IH]; intros pending; simpl; [rewrite elem_of_nil; naive_solver|].
  rewrite IH, elem_of_cons. destruct (decide (actor_id r = d)) as [<-|Hne].
  - rewrite lookup_insert_eq. naive_solver.
  - rewrite lookup_insert_ne by done. naive_solver.
Qed.

Lemma fan_pending_ids ds pending :
  map_Forall (λ d r, actor_id r = d) pending → map_Forall (λ d r, actor_id r = d) (fan_pending pending ds).
Proof. revert pending. induction ds as [|r ds IH]; intros pending Hp; [done|]. apply IH. by apply map_Forall_insert_2. Qed.

Lemma fan_watches d ds s :
  foldl (watch_event d) s (fan_events ds) = true ↔ d ∈ actor_id <$> ds ∨ s = true.
Proof.
  revert s. induction ds as [|r ds IH]; intros s; simpl; [rewrite elem_of_nil; naive_solver|].
  rewrite IH, elem_of_cons. case_decide; naive_solver.
Qed.

Lemma fan_quiet ds : incomings (fan_events ds) = [] ∧ replies (fan_events ds) = [].
Proof. by induction ds as [|r ds [IH1 IH2]]. Qed.

Lemma fan_told ds r : r ∈ ds → Read (TellTo self (Reading (actor_id r))) ∈ sends (actor_id r) (fan_events ds).
Proof.
  induction ds as [|r' ds IH]; [by intros ?%elem_of_nil|]. intros Hr. change (fan_events (r' :: ds)) with (fan_events [r'] ++ fan_events ds).
  rewrite sends_app, elem_of_app. apply elem_of_cons in Hr as [<-|Hr]; [left|right; by apply IH].
  unfold sends. simpl. rewrite decide_True by done. by left.
Qed.

(** A device answers or terminates. *)
Definition settles i d (y : option f64) : Prop := i = Message (Reading d y) ∨ i = Terminated d ∧ y = None.

Lemma settles_settled i d y ins d' : settles i d y → d' ∈ settled_devices (ins ++ [i]) ↔ d' ∈ settled_devices ins ∨ d' = d.
Proof.
  intros Hi. unfold settled_devices. rewrite omap_app, elem_of_app. 
  destruct Hi as [->|[-> _]]; simpl; rewrite list_elem_of_singleton; done.
Qed.
Lemma settles_readings i d y ins : settles i d y → readings (ins ++ [i]) = readings ins ++ option_list y.
Proof. intros Hi. unfold readings. rewrite omap_app. destruct Hi as [->|[-> ->]]; [by destruct y|done]. Qed.

Lemma query_runs_settles l pending sum count k ds ins i d y t :
  query_runs l pending sum count k ds ins → settles i d y → incomings t = [] → replies t = [] →
  (∀ d', watches_now d' (l ++ EReceived i :: t) = true ↔ d' ≠ d ∧ watches_now d' l = true) →
  query_runs (l ++ EReceived i :: t) (delete d pending) (from_option (f64_add sum) sum y) (count + if y then 1 else 0) k ds (ins ++ [i]).
Proof.
  intros [Hin Hp Hids Hs Hc Hw Hre Htold] Hi Hti Htr Hwt. split.
  - rewrite incomings_app, Hin. change (incomings (EReceived i :: t)) with (i :: incomings t). by rewrite Hti.
  - intros d'. rewrite (settles_settled _ _ _ _ _ Hi). destruct (decide (d' = d)) as [->|Hne].
    + rewrite lookup_delete_eq. split; [by intros [? ?]|]. intros [_ Hn]. destruct Hn. by right.
    + rewrite lookup_delete_ne by done. rewrite Hp. naive_solver.
  - intros d' r [_ Hd]%lookup_delete_Some. by apply Hids.
  - rewrite (settles_readings _ _ _ _ Hi), foldl_app, <-Hs. by destruct y.
  - rewrite (settles_readings _ _ _ _ Hi), length_app, Hc. destruct y; simpl; lia.
  - intros d'. rewrite Hwt, Hw. destruct (decide (d' = d)) as [->|Hne]; [rewrite lookup_delete_eq|rewrite lookup_delete_ne by done].
    + split; [by intros []|by intros [? ?]].
    + naive_solver.
  - unfold replies. rewrite omap_app. fold (replies l). rewrite Hre. by destruct i.
  - intros r Hr. rewrite sends_app, elem_of_app. left. by apply Htold.
Qed.

Lemma query_starts l ds k :
  l = [] → query_runs (l ++ EReceived (Message (Start ds (Asker k))) :: fan_events ds) (fan_pending ∅ ds) (f64_of 0 0) 0 k ds [].
Proof.
  intros ->. destruct (fan_quiet ds) as [Hin Hre]. split; try done.
  - simpl. by rewrite Hin.
  - intros d. rewrite fan_pending_lookup, lookup_empty. split; [intros [?|[? ?]]; [split; [done|by intros ?%elem_of_nil]|done]|naive_solver].
  - intros d r. apply fan_pending_ids. by intros ??.
  - intros d. unfold watches_now. simpl. rewrite fan_watches, fan_pending_lookup, lookup_empty. naive_solver.
  - intros r Hr. change (_ :: fan_events ds) with ([EReceived (Message (Start ds (Asker k)))] ++ fan_events ds : list Event).
    rewrite !sends_app, elem_of_app. right. by apply fan_told.
Qed.

Lemma query_reading d (y : option f64) pending sum count rt :
  (count + (if y then 1 else 0) ≤ U32_MAX)%N →
  query_receive self (Message (Reading d y)) (Running pending sum count rt) =
  let go := conclude (delete d pending) (from_option (f64_add sum) sum y) (count + if y then 1 else 0) rt in
  match pending !! d with Some r => HUnwatch r go | None => go end.
Proof.
  intros Hn. simpl. destruct y as [x|]; simpl; [|by rewrite N.add_0_r]. unfold u32_add. by rewrite decide_True.
Qed.

Lemma query_rounds l st : rounds Query self l st → query_gets l → query_stage l st.
Proof.
  apply (rounds_ends Query self query_gets query_stage); [apply query_gets_prefix|done| | |done].
  - intros l0 ->. done.
  - intros l0 s i Hs [Ho Hn]. rewrite incomings_app in Ho, Hn. destruct s as [| | |pending sum count [k|]|]; try done.
    + simpl in Hs. subst l0. destruct i as [[| | | | |ds [k|]|d y| |]|d]; try done. simpl. destruct ds as [|r ds].
      * intros [] _. exists k, [], []. by split_and!; [|intros r ?%elem_of_nil|].
      * change (HWatch r _) with (fan_out self (r :: ds) ∅ (Asker k) : Handler _). apply fan_out_ends. intros _. simpl.
        split; [|exists (r :: ds), []; exact (query_starts [] (r :: ds) k eq_refl)]. intros He.
        destruct (proj2 (fan_pending_lookup (r :: ds) ∅ (actor_id r))) as [x Hx]; [left; by left|]. simpl in Hx. by rewrite He, lookup_empty in Hx.
    + destruct Hs as (Hne & ds & ins & Hs). pose proof (qr_incomings _ _ _ _ _ _ _ Hs) as Hin. rewrite Hin in Ho, Hn.
      assert (∀ d y t, settles i d y → incomings t = [] → replies t = [] → 
        (∀ d', watches_now d' (l0 ++ EReceived i :: t) = true ↔ d' ≠ d ∧ watches_now d' l0 = true) →
        ends (conclude (delete d pending) (from_option (f64_add sum) sum y) (count + if y then 1 else 0) (Asker k))
          (λ t' c, from_option (query_stage (l0 ++ EReceived i :: t ++ t')) True (receive_leads c))) as Hgo.
      { intros d y t Hi Hti Htr Hw. eapply ends_mono; [eapply conclude_ends; by eapply query_runs_settles|].
        intros t' c. cbv beta. by rewrite <-(assoc_L (++)). }
      apply Forall_app in Ho as [_ [Ho _]%Forall_cons]. destruct i as [[| | | | | |d y| |]|d]; try done; clear Ho.
      * change (receive Query self _ _) with (query_receive self (Message (Reading d y)) (Running pending sum count (Asker k))).
        rewrite query_reading; last first.
        { rewrite (qr_count _ _ _ _ _ _ _ Hs). change (_ :: ins) with ([Message (Start ds (Asker k))] ++ ins) in Hn.
          rewrite <-(assoc_L (++)) in Hn. unfold readings in *. rewrite !omap_app, !length_app in Hn. destruct y; simpl in Hn; lia. }
        destruct (pending !! d) as [r|] eqn:Hd.
        -- simpl. eapply ends_mono; [apply (Hgo d y [EDid (AUnwatch r)]); try done; [by left|]|by intros t c Hq _].
           intros d'. rewrite watches_now_app. simpl. rewrite (qr_ids _ _ _ _ _ _ _ Hs _ _ Hd). case_decide; naive_solver.
        -- eapply ends_mono; [apply (Hgo d y []); try done; [by left|]|by intros t c Hq _].
           intros d'. rewrite watches_now_app. simpl. split; [|by intros [_ ?]]. intros Hw'. split; [|done]. intros ->.
           apply (qr_watches _ _ _ _ _ _ _ Hs) in Hw'. rewrite Hd in Hw'. by destruct Hw'.
      * simpl. replace count with (count + 0)%N by lia. eapply ends_mono; [apply (Hgo d None []); try done; [by right|]|].
        { intros d'. rewrite watches_now_app. simpl. case_decide; naive_solver. }
        by intros t c Hq _.
Qed.
End QueryHistories.


(** ** At every point of a query *)

Section QueryPoints.
Context {V : HashMapValues} (self : ActorRef).

(** A query has replied nothing, or stops. *)
Definition replies_last (t : list Event) (k : Handler (Control State)) : Prop := replies t = [] ∨ k = HReturn (Ok Actor.Stop).

Lemma conclude_last pending sum count n : always (conclude pending sum count (Asker n)) replies_last.
Proof. unfold conclude. case_decide; simpl; (split; [by left|]); [|done]. intros []. split; [by right|done]. Qed.

Lemma fan_out_last ds pending n : always (fan_out self ds pending (Asker n)) replies_last.
Proof.
  revert pending. induction ds as [|r ds IH]; intros pending; (split; [by left|]); [done|]. split; [by left|].
  eapply always_mono; [apply IH|]. done.
Qed.

(** What the code of a query is, where all replies go to askers. *)
Definition to_askers i (s : State) : Prop :=
  (∀ ds rt, i = Message (Start ds rt) → ∃ n, rt = Asker n) ∧ (∀ pending x c rt, s = Running pending x c rt → ∃ n, rt = Asker n).

Variant query_code i : Handler (Control State) → Prop :=
  | code_panics : query_code i HPanic
  | code_none n : i = Message (Start [] (Asker n)) → query_code i (HAwait (Reply n None) (λ _, HReturn (Ok Actor.Stop)))
  | code_starts ds n : i = Message (Start ds (Asker n)) → query_code i (fan_out self ds ∅ (Asker n))
  | code_concludes pending sum count n : query_code i (conclude pending sum count (Asker n))
  | code_unwatches r pending sum count n : query_code i (HUnwatch r (conclude pending sum count (Asker n)))
  | code_overflows r : query_code i (HUnwatch r HPanic).

Lemma query_has_code i s : to_askers i s → query_code i (receive Query self i s).
Proof.
  intros [Hi Hs]. destruct s as [| | |pending sum count rt|].
  4: destruct (Hs _ _ _ _ eq_refl) as [n ->].
  all: destruct i as [[| | | | |ds rt'|d y| |]|d]; simpl; try constructor.
  all: try (destruct (Hi _ _ eq_refl) as [n' ->]; destruct ds; by constructor).
  destruct (pending !! d), y; try destruct (u32_add count 1); constructor.
Qed.

Lemma query_replies_last i s : to_askers i s → always (receive Query self i s) replies_last.
Proof.
  intros [|n _|ds n _|pending sum count n|r pending sum count n|r]%query_has_code; try (split; [by left|]).
  - done.
  - intros []. split; [by right|done].
  - apply fan_out_last.
  - apply conclude_last.
  - eapply always_mono; [apply conclude_last|done].
  - split; [by left|done].
Qed.

Lemma query_asks l s i :
  rounds Query self l (Settled s) → query_gets (l ++ [EReceived i]) → to_askers i s.
Proof.
  intros Hr Hg. pose proof (query_rounds self _ _ Hr (query_gets_prefix _ _ Hg)) as Hst.
  destruct Hg as [Ho _]. rewrite incomings_app in Ho. split.
  - intros ds rt ->. destruct s as [| | |pending sum count [k'|]|]; try done; simpl in Hst.
    + subst l. simpl in Ho. destruct rt; [eauto|done].
    + destruct Hst as (_ & ds' & ins & Hq). rewrite (qr_incomings _ _ _ _ _ _ _ _ Hq) in Ho. simpl in Ho.
      apply Forall_app in Ho as [_ [? _]%Forall_cons]. done.
  - intros pending x c rt ->. destruct rt; [eauto|done].
Qed.

(** A query replies once, when each of its devices has answered or terminated. *)
Lemma query_replies l p :
  placed Query self l p → query_gets l →
  replies l = [] ∨ ∃ k ds ins, incomings l = Message (Start ds (Asker k)) :: ins ∧
    (∀ r, r ∈ ds → actor_id r ∈ settled_devices ins) ∧ replies l = [(k, average (readings ins))].
Proof.
  intros (l1 & told & -> & Hl & Htold)%placed_reached Hg.
  assert (incomings (l1 ++ told) = incomings l1 ∧ replies (l1 ++ told) = replies l1) as [Hin Hre].
  { unfold incomings, replies. rewrite !omap_app. destruct Htold as [->| ->]; by rewrite !app_nil_r. }
  rewrite Hin, Hre. apply query_gets_prefix in Hg. clear told Htold Hin Hre.
  assert (∀ l st, rounds Query self l st → query_gets l → replies l = [] ∨ st = Stops) as Hrounds.
  { intros l st Hr Hg'. pose proof (query_rounds self _ _ Hr Hg') as Hst.
    destruct st as [|[| | |pending sum count [k|]|]| |]; try done; [by left; rewrite Hst..| |by right].
    left. destruct Hst as (_ & ds & ins & Hq). by eapply qr_replies. }
  assert (∀ l, rounds Query self l Stops → query_gets l → ∃ k ds ins, incomings l = Message (Start ds (Asker k)) :: ins ∧
    (∀ r, r ∈ ds → actor_id r ∈ settled_devices ins) ∧ replies l = [(k, average (readings ins))]) as Hstops.
  { intros l Hr Hg'. exact (query_rounds self _ _ Hr Hg'). }
  destruct Hl as [l st Hr|l t k Hr Hd|l s i t k Hr Hd].
  - destruct (Hrounds _ _ Hr Hg) as [?| ->]; [by left|right; by apply Hstops].
  - left. assert (t = []) as -> by (eapply (always_does _ _ _ (λ t _, t = [])); [|exact Hd]; by split).
    rewrite app_nil_r. destruct (Hrounds _ _ Hr) as [?|?]; [by eapply query_gets_prefix|done..].
  - assert (query_gets l ∧ query_gets (l ++ [EReceived i])) as [Hg0 Hg1] by by apply (received_point _ query_gets_prefix _ _ t).
    assert (replies_last t k) as [Ht|Hk]; [|left|subst k; right; apply Hstops; [by eapply rounds_stop|done]].
    { eapply always_does; [by eapply query_replies_last, query_asks|exact Hd]. }
    destruct (Hrounds _ _ Hr Hg0) as [Hl|?]; [|done]. unfold replies in *. rewrite omap_app, Hl. exact Ht.
Qed.

(** A query reads the devices of its start, no device more often than it is among them. *)
Definition is_read (m : Msg) : bool := match m with Read _ => true | _ => false end.
Definition reads d l : list Msg := filter (λ m, is_read m = true) (sends d l).
Definition started_with l : list ActorId :=
  incomings l ≫= λ i, match i with Message (Start ds _) => actor_id <$> ds | _ => [] end.
Definition reads_ok l : Prop := ∀ d, (length (reads d l) ≤ times d (started_with l))%nat.

Lemma reads_app d l l' : reads d (l ++ l') = reads d l ++ reads d l'.
Proof. unfold reads. by rewrite sends_app, filter_app. Qed.
Lemma reads_ok_app l l' : reads_ok l → reads_ok l' → reads_ok (l ++ l').
Proof.
  intros H1 H2 d. unfold started_with. rewrite reads_app, length_app, incomings_app, bind_app, times_app. specialize (H1 d). specialize (H2 d).
  unfold started_with in *. lia.
Qed.

Lemma fan_out_reads ds pending n :
  always (fan_out self ds pending (Asker n)) (λ t _, ∀ d, (length (reads d t) ≤ times d (actor_id <$> ds))%nat).
Proof.
  revert pending. induction ds as [|r ds IH]; intros pending; (split; [intros d; simpl; lia|]); [done|]. split; [intros d; simpl; lia|].
  eapply always_mono; [apply IH|]. intros t k Ht d. specialize (Ht d). csimpl. rewrite times_cons.
  change (EDid (AWatch r) :: ?e :: t) with ([EDid (AWatch r) : Event; e] ++ t). rewrite reads_app, length_app.
  unfold reads at 1, sends. simpl. case_decide; csimpl in *; lia.
Qed.

Lemma conclude_reads pending sum count n :
  always (conclude pending sum count (Asker n)) (λ t _, ∀ d, reads d t = []).
Proof. unfold conclude. case_decide; simpl; [by split; [|intros []]|done]. Qed.

Lemma query_reads_code i s : to_askers i s → always (receive Query self i s) (λ t _, reads_ok (EReceived i :: t)).
Proof.
  intros Hq%query_has_code.
  apply (always_mono _ (λ t _, ∀ d, (length (reads d t) ≤ times d (started_with [EReceived i]))%nat)); last first.
  { intros t k Ht d. change (EReceived i :: t) with ([EReceived i : Event] ++ t). unfold started_with.
    rewrite incomings_app, bind_app, times_app. specialize (Ht d). unfold started_with in Ht.
    replace (reads d ([EReceived i] ++ t)) with (reads d t) by by rewrite reads_app. lia. }
  assert (∀ h : Handler (Control State), always h (λ t _, ∀ d, reads d t = []) →
    always h (λ t _, ∀ d, (length (reads d t) ≤ times d (started_with [EReceived i]))%nat)) as Hnone.
  { intros h Hh. eapply always_mono; [exact Hh|]. intros t k Ht d. rewrite Ht. simpl. lia. }
  destruct Hq as [|n _|ds n ->|pending sum count n|r pending sum count n|r]; try (apply Hnone; (split; [done|])).
  - done.
  - by intros [].
  - eapply always_mono; [apply fan_out_reads|]. intros t k Ht d. unfold started_with. simpl. rewrite app_nil_r. apply Ht.
  - apply Hnone, conclude_reads.
  - apply conclude_reads.
  - done.
Qed.

Lemma query_reads l p : placed Query self l p → query_gets l → reads_ok l.
Proof.
  intros Hp Hg. eapply (placed_chunks Query self query_gets reads_ok); [apply query_gets_prefix| |apply reads_ok_app| | | | |exact Hp|exact Hg].
  - intros d. simpl. lia.
  - intros d. simpl. lia.
  - intros d. simpl. lia.
  - intros t k Hd. assert (t = []) as -> by (eapply (always_does _ _ _ (λ t _, t = [])); [|exact Hd]; by split). intros d. simpl. lia.
  - intros l0 s i t k Hr Hi Hd. eapply (always_does _ _ _ _ (query_reads_code _ _ (query_asks _ _ _ Hr Hi)) Hd).
Qed.
End QueryPoints.


(** ** Devices *)

Section DeviceHistories.
Context {V : HashMapValues} (who : ActorId → Example → ActorConfig → Prop) (g n : string) (d : ActorId).
#[local] Abbreviation gets_all := (gets_all who d (Device g n)).

(** What a device has recorded last, since its last restart. *)
Definition recording (y : option f64) (e : Event) : option f64 :=
  match e with
  | EReceived (Message (DeviceRecord degrees)) => if f64_is_nan degrees then y else Some degrees
  | ERestarting => None
  | _ => y
  end.
Definition last_recorded l : option f64 := foldl recording None l.

(** What a device answers is what it had recorded when it was asked. *)
Definition answered q y l : Prop := ∃ l1 into l2,
  l = l1 ++ EReceived (Message (Read (TellTo (mk_ref q) into))) :: l2 ∧ y = last_recorded l1.
Definition answers_ok l : Prop := ∀ q y, Reading d y ∈ sends q l → answered q y l.

Lemma answered_app q y l l' : answered q y l → answered q y (l ++ l').
Proof. intros (l1 & into & l2 & -> & Hy). exists l1, into, (l2 ++ l'). by rewrite <-(assoc_L (++)). Qed.

Definition device_stage l (st : Stage) : Prop :=
  match st with
  | Begins => last_recorded l = None
  | Settled (LastReading y) => last_recorded l = y
  | Settled _ | Stops => False
  | Fails => True
  end.

(** In a round a device answers who asks, and sends nothing else. *)
Definition asks i : Prop := ∃ r into, i = Message (Read (TellTo r into)).
Variant device_does l i (k : Handler (Control State)) : list Event → Prop :=
  | does_start : (at_end k = true → ¬ asks i) → device_does l i k []
  | does_print (o : Outside) (x : outside_answer o) : ¬ asks i → device_does l i k [EAnswered o x]
  | does_answer r : i = Message (Read (TellTo r (Reading d))) → device_does l i k [EDid (ATell r (Reading d (last_recorded l)))].

Lemma device_code l i s :
  gets_all (l ++ [EReceived i]) → device_stage l (Settled s) → always (receive (Device g n) (mk_ref d) i s) (λ t k,
    k ≠ HPanic ∧ from_option (device_stage (l ++ EReceived i :: t)) True (receive_leads k) ∧ device_does l i k t).
Proof.
  intros Hi%gets_all_last Hs. destruct s as [| | | |x]; try done. simpl in Hs.
  assert (∀ t, last_recorded (l ++ EReceived i :: t) = foldl recording (recording (last_recorded l) (EReceived i)) t) as Hl.
  { intros t. unfold last_recorded. by rewrite foldl_app. }
  destruct i as [[| | | | | | |y|[m|r into]]|b]; try done; simpl in *.
  - assert (¬ asks (Message (DeviceRecord y))) as Hna by by intros (r & into & [=]).
    destruct (f64_is_nan y); simpl; [by repeat constructor|].
    split; [by repeat constructor|]. intros []. split; [|done]. split_and!; [done|by simpl; rewrite Hl|by constructor].
  - destruct Hi as [-> Hq]. split; [by repeat constructor|]. split; [|done]. split_and!; [done|by simpl; rewrite Hl|].
    rewrite <-Hs. by constructor.
Qed.

(** Whoever has asked has been answered. *)
Definition reads_answered l : Prop := ∀ r into, EReceived (Message (Read (TellTo r into))) ∈ l →
  ∃ y, Reading d y ∈ sends (actor_id r) l.
Definition device_between l (st : Stage) : Prop := device_stage l st ∧ reads_answered l.

Lemma reads_answered_app l i t :
  reads_answered l → (∀ i', EReceived i' ∉ t) →
  (∀ r into, i = Message (Read (TellTo r into)) → ∃ y, Reading d y ∈ sends (actor_id r) t) → reads_answered (l ++ EReceived i :: t).
Proof.
  intros Hl Ht Hi r into. change (EReceived i :: t) with ([EReceived i : Event] ++ t). rewrite !elem_of_app, !sends_app.
  setoid_rewrite elem_of_app. intros [Hin|[Hin|Hin]].
  - destruct (Hl _ _ Hin) as [y ?]. exists y. by left.
  - apply list_elem_of_singleton in Hin as [= <-]. destruct (Hi _ _ eq_refl) as [y ?]. exists y. by right.
  - by destruct (Ht _ Hin).
Qed.

Lemma device_receives l s i : answers_ok l → device_between l (Settled s) → gets_all (l ++ [EReceived i]) →
  always (receive (Device g n) (mk_ref d) i s) (λ t k, gets_all (l ++ EReceived i :: t) →
    leads answers_ok device_between (receive_leads k) (l ++ EReceived i :: t)).
Proof.
  intros Hans [Hs Hread] Hi. eapply always_mono; [by apply device_code|]. intros t k (_ & Hst & Hdo) _.
  assert (∀ q, sends q (l ++ EReceived i :: t) = sends q l ++ sends q t) as Hsends by (intros q; by rewrite sends_app).
  split.
  - intros q y. rewrite Hsends, elem_of_app. intros [Hin|Hin]; [by apply answered_app, Hans|].
    destruct Hdo as [_|o x _|r ->]; try by apply elem_of_nil in Hin.
    unfold sends in Hin. simpl in Hin. case_decide as Hq; [|by apply elem_of_nil in Hin]. apply list_elem_of_singleton in Hin.
    simplify_eq. exists l, (Reading d), [EDid (ATell r (Reading d (last_recorded l)))]. by destruct r.
  - destruct (receive_leads k) as [st|] eqn:Hk; [|done]. split; [done|].
    assert (at_end k = true) as Hend by by destruct k. apply reads_answered_app; [done|by destruct Hdo; set_solver|].
    intros r into ->. destruct Hdo as [Hn|o x Hn|r' [= -> <-]]; [destruct (Hn Hend)|destruct Hn|]; [by exists r, into..|].
    exists (last_recorded l). unfold sends. simpl. rewrite decide_True by done. by left.
Qed.

Lemma device_restarts l : answers_ok l → reads_answered l → answers_ok (l ++ [ERestarting]) ∧ device_between (l ++ [ERestarting]) Begins.
Proof.
  intros Hans Hread. assert (∀ q, sends q (l ++ [ERestarting]) = sends q l) as Hsends.
  { intros q. rewrite sends_app. apply app_nil_r. }
  split; [|split].
  - intros q y. rewrite Hsends. intros Hin. by apply answered_app, Hans.
  - unfold device_stage, last_recorded. by rewrite foldl_app.
  - intros r into. rewrite elem_of_app, Hsends. intros [Hin|Hin%list_elem_of_singleton]; [by eapply Hread|done].
Qed.

Lemma answers_ok_end l : answers_ok l → answers_ok (l ++ [EStopped]).
Proof. intros Hl q y. rewrite sends_app, elem_of_app. intros [Hin|Hin%elem_of_nil]; [by apply answered_app, Hl|done]. Qed.

Lemma device_inits l :
  answers_ok l → device_between l Begins → always (init (Device g n) (mk_ref d)) (λ t k, gets_all (l ++ t) →
    leads answers_ok device_between (init_leads k) (l ++ t)).
Proof. intros Hans Hl. split; [|done]. rewrite app_nil_r. by intros _. Qed.

Lemma device_begins : answers_ok [] ∧ device_between [] Begins.
Proof. split; [by intros q y ?%elem_of_nil|]. split; [done|]. by intros r into ?%elem_of_nil. Qed.

Lemma device_rounds l st : rounds (Device g n) (mk_ref d) l st → gets_all l → answers_ok l ∧ device_between l st.
Proof.
  apply (rounds_always (Device g n) (mk_ref d) gets_all answers_ok device_between);
    [apply gets_all_prefix|apply device_begins|apply device_inits|apply device_receives|].
  intros l0 Hans [_ Hread] _. by apply device_restarts.
Qed.

Lemma device_answers l p : placed (Device g n) (mk_ref d) l p → gets_all l → answers_ok l.
Proof.
  apply (placed_always (Device g n) (mk_ref d) gets_all answers_ok device_between);
    [apply gets_all_prefix|apply device_begins|apply device_inits|apply device_receives| |apply answers_ok_end].
  intros l0 Hans [_ Hread] _. by apply device_restarts.
Qed.

(** No more answers than questions. *)
Definition is_read_of q (m : Msg) : bool := match m with Read (TellTo r _) => bool_decide (actor_id r = q) | _ => false end.
Definition read_by q l : list Msg := filter (λ m, is_read_of q m = true) (messages (incomings l)).
Definition answers_bounded l : Prop := ∀ q, (length (sends q l) ≤ length (read_by q l))%nat.

Lemma device_answers_bounded l p : placed (Device g n) (mk_ref d) l p → gets_all l → answers_bounded l.
Proof.
  intros Hp Hg. eapply (placed_chunks (Device g n) (mk_ref d) gets_all answers_bounded);
    [apply gets_all_prefix| | | | | | |exact Hp|exact Hg]; try by (intros q; simpl; lia).
  - intros l1 l2 H1 H2 q. unfold read_by. rewrite sends_app, incomings_app, messages_app, filter_app, !length_app.
    specialize (H1 q). specialize (H2 q). unfold read_by in *. lia.
  - intros t k Hd. assert (t = []) as -> by (eapply (always_does _ _ _ (λ t _, t = [])); [|exact Hd]; by split). intros q. simpl. lia.
  - intros l0 s i t k Hr Hi Hd. destruct (device_rounds _ _ Hr (gets_all_prefix _ _ _ _ _ Hi)) as [_ [Hst _]].
    destruct (always_does _ _ _ _ (device_code _ _ _ Hi Hst) Hd) as (_ & _ & Hdo). intros q.
    destruct Hdo as [_|o x _|r ->]; [simpl; lia..|].
    unfold sends, read_by. simpl. unfold is_read_of. case_decide as Hq; rewrite filter_cons; simpl; [|lia].
    rewrite decide_True; [simpl; lia|]. by apply bool_decide_eq_true.
Qed.
End DeviceHistories.
