(* ===== verification/DeviceRuns.v ===== *)
(** The runs of [DeviceManager]: what its queries reply, and that they do. *)
From stdpp Require Import strings.
From S2P Require Import Prelude Floats Backoff Config Flume Quota Actor Mailbox MailboxSpec Tokio Runtime RuntimeMoves RuntimeTree RuntimeWatch RuntimeSystem RuntimeTrace RuntimeMailboxes RuntimeProgress Handlers RuntimeThreads RuntimeProtocols RuntimeRounds DeviceManager DeviceQueries.

#[local] Abbreviation Event := (Event (M:=Msg) (B:=Example) (Rq:=Outside) (An:=outside_answer)).
#[local] Abbreviation Handler := (Handler (M:=Msg) (B:=Example) (E:=Error) (Rq:=Outside) (An:=outside_answer)).
#[local] Abbreviation Phase := (Phase (M:=Msg) (B:=Example) (S:=State) (E:=Error) (Rq:=Outside) (An:=outside_answer)).
#[local] Abbreviation Label := (Label (M:=Msg) (An:=outside_answer)).
#[local] Abbreviation Histories := (Histories (M:=Msg) (B:=Example) (Rq:=Outside) (An:=outside_answer)).
#[local] Abbreviation Obs := (Obs (M:=Msg)).
#[local] Abbreviation Incoming := (Incoming Msg).
#[local] Abbreviation Stage := (Stage (S:=State)).
Implicit Types (h : Histories) (l : list Event) (t u : list Obs) (ins : list Incoming) (a b d q : ActorId) (ds : list ActorRef).

Section Runs.
Context {F : Flume} {FL : FlumeLaws F} {TW : TokioWatch} {TL : TokioWatchLaws TW}.
Context {TO : TokioOneshot} {TOL : TokioOneshotLaws TO}.
Context {V : HashMapValues} {VL : HashMapValuesLaws V}.
Context (id wid : ActorId) (ids : id ≠ wid).
#[local] Abbreviation World := (World (M:=Msg) (B:=Example) (S:=State) (E:=Error) (Rq:=Outside) (An:=outside_answer)).
Implicit Types (w : World).

(** The system of [main]. From outside only the manager is told anything: commands. *)
Definition manager_system : World := system_new id wid DeviceManager default_config.
Definition commands (lb : Label) : Prop := match lb with LTell to m => actor_id to = id ∧ is_command m | _ => True end.

#[local] Abbreviation runs := (runs commands manager_system).

Lemma commands_only (m : Msg) : ¬ is_command m → ∀ to, ¬ commands (LTell to m).
Proof. intros Hm to [_ ?]. done. Qed.

Lemma cast_functional w a act act' config config' : cast w a act config → cast w a act' config' → act = act'.
Proof. apply cast_agrees. Qed.

(** *** Who does what *)

Section World.
Context w t h (Hr : runs w t h).
#[local] Abbreviation who := (cast w).

Lemma commands_ok to m : commands (LTell to m) → ok who (actor_id to) (Message m).
Proof.
  intros [Hto Hm] act config Hw. rewrite Hto in Hw. destruct Hw as (k & Hk & <- & _).
  destruct (th_root _ _ _ _ _ _ (runs_threads _ _ _ _ ids _ _ _ _ Hr)) as [p Hp]. simplify_eq. exact Hm.
Qed.

Lemma world_typed : well_typed id DeviceManager default_config w h spawnable (ok who) (typed who).
Proof.
  eapply (runs_typed id wid DeviceManager default_config ids commands w t h Hr); [apply commands_ok|].
  apply device_manager_typed; [by apply cast_functional|done].
Qed.

Lemma history a act config : cast w a act config → (∃ p, placed act (mk_ref a) (h a) p) ∧ gets_all who a act (h a).
Proof.
  intros Hw. pose proof Hw as (k & Hk & <- & <-). split.
  - exists (t_phase k). by apply (wt_placed _ _ _ _ _ _ _ _ world_typed).
  - intros i Hi. by apply (wt_gets _ _ _ _ _ _ _ _ world_typed a i Hi _ _ Hw).
Qed.

Lemma history_cast a : h a ≠ [] → ∃ act config, cast w a act config.
Proof.
  intros Hne. destruct (tasks w !! a) as [k|] eqn:Hk; [by eexists _, _, k|].
  by rewrite (th_fresh _ _ _ _ _ _ (runs_threads _ _ _ _ ids _ _ _ _ Hr) _ Hk) in Hne.
Qed.

(** Messages have senders, of the one kind which sends such messages. *)
Lemma sent_by a to m : m ∈ sends to (h a) →
  ∃ act config r, cast w a act config ∧ actor_id r = to ∧ EDid (ATell r m) ∈ h a ∧ sends_only act a (EDid (ATell r m)).
Proof.
  intros Hm. destruct (history_cast a) as (act & config & Hw); [by intros Ha; rewrite Ha in Hm; apply elem_of_nil in Hm|].
  destruct (history _ _ _ Hw) as [[p Hp] Hg]. pose proof (sends_points who a act (h a) p Hp Hg) as Hs. rewrite Forall_forall in Hs.
  unfold sends in Hm. apply list_elem_of_omap in Hm as (e & He & Heq). specialize (Hs _ He).
  destruct e as [|[r m'|? r m' []| | | |]| | |]; simplify_eq/=; try done. case_decide; simplify_eq. by exists act, config, r.
Qed.

Lemma starts_sent a : starts_ok (h a).
Proof.
  destruct (tasks w !! a) as [k|] eqn:Hk; last first.
  { rewrite (th_fresh _ _ _ _ _ _ (runs_threads _ _ _ _ ids _ _ _ _ Hr) _ Hk). by apply no_start_ok. }
  assert (cast w a (t_actor k) (t_config k)) as Hw by by exists k. destruct (history _ _ _ Hw) as [[p Hp] Hg].
  pose proof (th_once _ _ _ _ _ _ (runs_threads _ _ _ _ ids _ _ _ _ Hr) a) as Hnd.
  destruct (t_actor k) as [|n| |g n]; [|by eapply group_starts|..];
    apply no_start_ok, (Forall_impl _ _ _ (sends_points who a _ (h a) p Hp Hg)); by intros [|[? []|? ? [] ?| | | |]| | |].
Qed.

Lemma start_sent q ds rt a : Start ds rt ∈ sends q (h a) → q ∈ omap spawned (h a) ∧ NoDup (actor_id <$> ds).
Proof.
  intros Hm. destruct (sent_by _ _ _ Hm) as (_ & _ & r & _ & <- & Hin & _). destruct (starts_sent a) as [Hnd Hst].
  split; [|by eapply Hnd]. apply times_elem. apply (Nat.lt_le_trans _ (length (starts (actor_id r) (h a)))); [|done].
  assert (Start ds rt ∈ starts (actor_id r) (h a)) as Hin' by by apply list_elem_of_filter.
  by destruct (starts (actor_id r) (h a)); [apply elem_of_nil in Hin'|simpl; lia].
Qed.

Lemma starts_bounded q a : (length (starts q (h a)) ≤ 1)%nat.
Proof. etrans; [apply starts_sent|]. apply NoDup_times, (th_once _ _ _ _ _ _ (runs_threads _ _ _ _ ids _ _ _ _ Hr)). Qed.

Lemma read_sent d rt a : Read rt ∈ sends d (h a) → rt = TellTo (mk_ref a) (Reading d) ∧ is_query who a.
Proof.
  intros Hm. destruct (sent_by _ _ _ Hm) as (act & config & r & Hw & <- & _ & Hs). destruct act; try done. split; [done|by exists config].
Qed.

Lemma reading_sent q d y a : Reading d y ∈ sends q (h a) → a = d ∧ is_device who d.
Proof.
  intros Hm. destruct (sent_by _ _ _ Hm) as (act & config & r & Hw & _ & _ & Hs). destruct act; try done. simpl in Hs. subst.
  split; [done|by eexists _, _, config].
Qed.

Lemma one_parent q a b : q ∈ omap spawned (h a) → q ∈ omap spawned (h b) → a = b.
Proof.
  pose proof (runs_threads _ _ _ _ ids _ _ _ _ Hr) as Hth.
  assert (∀ x, q ∈ omap spawned (h x) → ∃ k g, tasks w !! q = Some k ∧ t_parent k = ContextKey x g) as Hkid.
  { intros x (e & He & Heq)%list_elem_of_omap. destruct e as [|[]| | |]; simplify_eq/=.
    destruct (th_children _ _ _ _ _ _ Hth _ _ _ _ He) as (g & p & Hp & _). by eexists _, g. }
  intros (k & g & Hk & Hkg)%Hkid (k' & g' & Hk' & Hkg')%Hkid. congruence.
Qed.

(** A query is started once. *)
Lemma started_once q : (length (filter (λ m, is_start m = true) (messages (incomings (h q)))) ≤ 1)%nat.
Proof.
  assert (∀ m, is_start m = true → ¬ is_command m) as Hcmd by (by intros [] ? ?).
  destruct (filter (λ m, is_start m = true) (messages (incomings (h q)))) as [|m ms] eqn:Hms; [simpl; lia|].
  assert (m ∈ messages (incomings (h q)) ∧ is_start m = true) as [Hin Hm].
  { assert (m ∈ m :: ms) as Hin by by left. rewrite <-Hms, list_elem_of_filter in Hin. naive_solver. }
  apply elem_of_messages, elem_of_incomings in Hin.
  destruct (received_from id wid _ _ ids commands w t h Hr q m (commands_only m (Hcmd _ Hm)) Hin) as [a Ha].
  assert (∀ x m', is_start m' = true → m' ∈ sends q (h x) → q ∈ omap spawned (h x)) as Hstart.
  { intros x [] Hm' Hin'; try done. by destruct (start_sent _ _ _ _ Hin'). }
  rewrite <-Hms. etrans; [apply sublist_length, (received_sent id wid _ _ ids commands w t h _ q a Hr)|].
  - intros to m' Hm'. apply commands_only. by apply Hcmd.
  - intros x m' Hm' Hin'. apply (one_parent q); [exact (Hstart _ _ Hm' Hin')|exact (Hstart _ _ Hm Ha)].
  - apply starts_bounded.
Qed.
End World.


(** *** The order in which a query gets what it gets *)

(** A reading is an answer to the query which gets it. *)
Lemma reading_asked w t h q d y : runs w t h →
  EReceived (Message (Reading d y)) ∈ h q →
  is_device (cast w) d ∧ Reading d y ∈ sends q (h d) ∧ answered q y (h d) ∧ ∃ into, Read (TellTo (mk_ref q) into) ∈ sends d (h q).
Proof.
  intros Hr Hin. destruct (received_from id wid _ _ ids commands w t h Hr q _ (commands_only (Reading d y) ltac:(by intros [])) Hin) as [x Hx].
  destruct (reading_sent w t h Hr _ _ _ _ Hx) as [-> Hd]. pose proof Hd as (g & n & config & Hw).
  destruct (history w t h Hr _ _ _ Hw) as [[p Hp] Hg]. pose proof (device_answers (cast w) g n d _ _ Hp Hg _ _ Hx) as Hans.
  split_and!; [done..|]. destruct Hans as (l1 & into & l2 & Hl & _). exists into.
  assert (EReceived (Message (Read (TellTo (mk_ref q) into))) ∈ h d) as Hread by (rewrite Hl, elem_of_app; right; by left).
  destruct (received_from id wid _ _ ids commands w t h Hr d _ (commands_only (Read (TellTo (mk_ref q) into)) ltac:(by intros [])) Hread) as [x Hx'].
  destruct (read_sent w t h Hr _ _ _ Hx') as [[= -> _] _]. done.
Qed.

Lemma query_before w t h q config l1 i l2 :
  runs w t h → cast w q Query config → h q = l1 ++ EReceived i :: l2 → ∃ s, rounds Query (mk_ref q) l1 (Settled s).
Proof. intros Hr Hw Hl. destruct (history w t h Hr _ _ _ Hw) as [[p Hp] _]. by eapply placed_before. Qed.

Lemma query_gets_nothing l : incomings l = [] → query_gets l.
Proof. intros Hl. split; rewrite Hl; simpl; [done|lia]. Qed.

Lemma query_first_start w t h q config l1 i l2 :
  runs w t h → cast w q Query config → h q = l1 ++ EReceived i :: l2 → incomings l1 = [] → ∃ ds k, i = Message (Start ds (Asker k)).
Proof.
  intros Hr Hw Hl Hnone. destruct (query_before _ _ _ _ _ _ _ _ Hr Hw Hl) as [s Hs].
  destruct (history w t h Hr _ _ _ Hw) as [_ Hg]. assert (gets (cast w) q Query i) as Hi by (apply Hg; rewrite Hl, elem_of_app; right; by left).
  destruct i as [[| | | | |ds [k|]|d y| |]|b]; try done; [by eauto|exfalso..].
  - assert (h q = (l1 ++ [EReceived (Message (Reading d y))]) ++ l2) as Hl' by by rewrite <-(assoc_L (++)).
    destruct (runs_before commands _ _ _ _ _ _ _ Hr Hl') as (w1 & t1 & h1 & Hr1 & Hl1 & Hcast & _).
    destruct (reading_asked w1 t1 h1 q d y Hr1) as (_ & _ & _ & into & Hread); [rewrite Hl1, elem_of_app; right; by left|].
    rewrite Hl1, sends_app, app_nil_r in Hread.
    pose proof (query_reads (mk_ref q) l1 _ (placed_next _ _ _ _ 0%N Hs) (query_gets_nothing _ Hnone) d) as Hle.
    unfold started_with in Hle. rewrite Hnone in Hle. simpl in Hle. rewrite times_nil in Hle.
    assert (Read (TellTo (mk_ref q) into) ∈ reads d l1) as Hin by by apply list_elem_of_filter.
    destruct (reads d l1); [by apply elem_of_nil in Hin|simpl in Hle; lia].
  - pose proof (received_while_watching id wid _ _ ids commands w t h q b l1 l2 Hr Hl) as Hwatch.
    pose proof (query_rounds (mk_ref q) l1 _ Hs (query_gets_nothing _ Hnone)) as Hst.
    destruct s as [| | |pending sum count [k|]|]; try done; [by rewrite Hst in Hwatch|].
    destruct Hst as (_ & ds & ins & Hq). pose proof (qr_incomings _ _ _ _ _ _ _ _ Hq). congruence.
Qed.

Lemma query_orderly w t h q config : runs w t h → cast w q Query config → orderly (incomings (h q)).
Proof.
  intros Hr Hw. destruct (incomings (h q)) as [|i ins] eqn:Hins; [done|].
  destruct (omap_split _ (h q) [] i ins Hins) as (j & e & Hj & He & Htake). destruct e as [i'| | | |]; simplify_eq.
  destruct (query_first_start w t h q config (take j (h q)) i (drop (S j) (h q)) Hr Hw) as (ds & k & ->); [by rewrite take_drop_middle|done|].
  pose proof (started_once w t h Hr q) as Honce. rewrite Hins in Honce.
  change (messages (_ :: ins)) with (Start ds (Asker k) :: messages ins) in Honce. rewrite filter_cons, decide_True in Honce by done. simpl in Honce.
  apply Forall_forall. intros i Hi. destruct (history w t h Hr _ _ _ Hw) as [_ Hg].
  assert (gets (cast w) q Query i) as Hgi by (apply Hg, elem_of_incomings; rewrite Hins; by right).
  destruct i as [[| | | | |ds' [k'|]|d y| |]|b]; try done.
  assert (Start ds' (Asker k') ∈ filter (λ m, is_start m = true) (messages ins)) as Hin.
  { apply list_elem_of_filter. split; [done|]. by apply elem_of_messages. }
  destruct (filter _ (messages ins)); [by apply elem_of_nil in Hin|simpl in Honce; lia].
Qed.


(** *** How often a device answers *)

Lemma started_orderly l : orderly (incomings l) →
  match incomings l with Message (Start ds _) :: _ => started_with l = actor_id <$> ds | _ => started_with l = [] end.
Proof.
  unfold started_with. intros Ho. destruct (incomings l) as [|[[| | | | |ds [k|]| | |]|] ins]; try done.
  simpl in *. assert (∀ X : list ActorId, X = [] → (actor_id <$> ds) ++ X = actor_id <$> ds) as Hnil by (intros ? ->; apply app_nil_r).
  apply Hnil. clear Hnil. induction Ho as [|i ins Hi _ IH]; [done|]. simpl. rewrite IH. by destruct i as [[]|].
Qed.

Lemma started_distinct w t h q l : runs w t h → (∀ e, e ∈ l → e ∈ h q) → orderly (incomings l) → ∀ d, (times d (started_with l) ≤ 1)%nat.
Proof.
  intros Hr Hl Ho d. pose proof (started_orderly _ Ho) as Hs.
  destruct (incomings l) as [|[[| | | | |ds [k|]| | |]|] ins] eqn:Hins; try done; rewrite Hs; [rewrite times_nil; lia|].
  assert (EReceived (Message (Start ds (Asker k))) ∈ h q) as Hin.
  { apply Hl, elem_of_incomings. rewrite Hins. by left. }
  destruct (received_from id wid _ _ ids commands w t h Hr q _ (commands_only (Start ds (Asker k)) ltac:(by intros [])) Hin) as [x Hx].
  apply NoDup_times. by destruct (start_sent w t h Hr _ _ _ _ Hx).
Qed.

Lemma filter_length_mono {X} (P Q : X → Prop) `{∀ x, Decision (P x)} `{∀ x, Decision (Q x)} (k : list X) :
  (∀ x, P x → Q x) → (length (filter P k) ≤ length (filter Q k))%nat.
Proof.
  intros HPQ. induction k as [|x k IH]; [done|]. rewrite !filter_cons. destruct (decide (P x)) as [Hp|Hp].
  - rewrite decide_True by auto. simpl. lia.
  - case_decide; simpl; lia.
Qed.

Lemma answered_once w t h q config l i d :
  runs w t h → cast w q Query config → h q = l ++ [EReceived i] → query_gets l → (times d (answers (incomings (h q))).*1 ≤ 1)%nat.
Proof.
  intros Hr Hw Hl Hg. destruct (decide (d ∈ (answers (incomings (h q))).*1)) as [Hd|Hd]; last first.
  { rewrite <-times_elem in Hd. lia. }
  apply list_elem_of_fmap in Hd as ([d' y] & Hd' & Hin). simpl in Hd'. subst d'. apply elem_of_answers, elem_of_incomings in Hin.
  destruct (reading_asked w t h q d y Hr Hin) as ((g & n & c & Hd) & _).
  destruct (history w t h Hr _ _ _ Hd) as [[p Hp] Hgd]. pose proof (device_answers_bounded (cast w) g n d _ _ Hp Hgd q) as Hans.
  destruct (query_before w t h q config l i [] Hr Hw Hl) as [s Hs].
  pose proof (query_reads (mk_ref q) l _ (placed_next _ _ _ _ 0%N Hs) Hg d) as Hreads.
  assert (times d (started_with l) ≤ 1)%nat as Hone.
  { apply (started_distinct w t h q); [done|intros e He; rewrite Hl; apply elem_of_app; by left|apply Hg]. }
  rewrite answers_times. etrans; [apply sublist_length, (received_sent id wid _ _ ids commands w t h _ q d Hr)|].
  { intros to m Hm. apply commands_only. by destruct m; intros ?. }
  { intros x m Hm Hx. destruct m as [| | | | | |d' y'| |]; try done. apply bool_decide_eq_true in Hm. subst d'.
    by destruct (reading_sent w t h Hr _ _ _ _ Hx). }
  etrans; [apply length_filter|]. etrans; [exact Hans|]. unfold read_by.
  etrans; [apply sublist_length, (received_sent id wid _ _ ids commands w t h _ d q Hr)|].
  { intros to m Hm. apply commands_only. by destruct m; intros ?. }
  { intros x m Hm Hx. destruct m as [| | | | | | | |[|r into]]; try done. apply bool_decide_eq_true in Hm.
    destruct (read_sent w t h Hr _ _ _ Hx) as [[= -> _] _]. exact Hm. }
  etrans; [apply (filter_length_mono _ (λ m, is_read m = true)); by intros []|].
  fold (reads d (h q)). rewrite Hl, reads_app, length_app. simpl. lia.
Qed.

(** No device answers twice, and so the counter of a query does not overflow as long as there are fewer actors than it
    has numbers. *)
Lemma query_prefix w t h q config l l2 :
  runs w t h → cast w q Query config → (N.of_nat (size (cells w)) ≤ U32_MAX)%N → h q = l ++ l2 →
  query_gets l ∧ NoDup (answers (incomings l)).*1.
Proof.
  intros Hr Hw Hsize. revert l2. induction l as [|e l IH] using rev_ind; intros l2 Hl; [split; [by apply query_gets_nothing|constructor]|].
  destruct (IH (e :: l2)) as [Hg Hnd]; [by rewrite Hl, <-(assoc_L (++))|].
  destruct (runs_before commands _ _ _ _ _ _ _ Hr Hl) as (w1 & t1 & h1 & Hr1 & Hl1 & Hcast & _).
  assert (orderly (incomings (l ++ [e]))) as Ho.
  { apply (orderly_prefix _ (incomings l2)). rewrite <-incomings_app, <-Hl. by eapply query_orderly. }
  unfold query_gets. destruct e as [i| | | |]; [|rewrite incomings_app, app_nil_r; by repeat split; try apply Hg..].
  destruct (history_cast w1 t1 h1 Hr1 q) as (act & config' & Hw1); [rewrite Hl1; by destruct l|].
  assert (act = Query) as -> by by eapply cast_functional; [apply Hcast|].
  clear Hnd. assert (NoDup (answers (incomings (h1 q))).*1) as Hnd.
  { apply NoDup_times. intros d. by eapply answered_once. }
  rewrite Hl1 in Hnd. split; [|done]. split; [done|]. rewrite readings_answers.
  set (answered := (answers (incomings (l ++ [EReceived i]))).*1) in *.
  assert (length answered ≤ size (cells w))%nat as Hle.
  { rewrite <-size_dom, <-(size_list_to_set (C:=gset ActorId)) by done. apply subseteq_size. intros d Hd%elem_of_list_to_set.
    apply list_elem_of_fmap in Hd as ([d' y] & -> & Hin). apply elem_of_answers in Hin.
    destruct (reading_asked w t h q d' y Hr) as ((g & n & c & k & Hk & _) & _).
    - rewrite Hl, elem_of_app. left. by apply elem_of_incomings.
    - apply tasks_lookup in Hk as (cell & Hc & _). apply elem_of_dom. eauto. }
  assert (length (omap snd (answers (incomings (l ++ [EReceived i])))) ≤ length answered)%nat; [|lia].
  unfold answered. clear. induction (answers (incomings (l ++ [EReceived i]))) as [|[d [y|]] k IH]; csimpl in *; lia.
Qed.

(** A device which has terminated has not answered. *)
Lemma terminated_silent w t h q config d y :
  runs w t h → cast w q Query config → (N.of_nat (size (cells w)) ≤ U32_MAX)%N →
  EReceived (Terminated d) ∈ h q → Reading d y ∉ sends q (h d).
Proof.
  intros Hr Hw Hsize (l1 & l2 & Hl)%list_elem_of_split Hy.
  assert (∀ k, tasks w !! q = Some k → mailbox_capacity (t_config k) = Unbounded) as Hcap.
  { intros k Hk. destruct (wt_cast _ _ _ _ _ _ _ _ (world_typed w t h Hr) _ _ Hk) as [(-> & _ & ->)|[_ Hsp]]; [done|].
    destruct Hw as (k' & Hk' & Hact & _). simplify_eq. rewrite Hact in Hsp. simpl in Hsp. by rewrite Hsp. }
  pose proof (signals_settle id wid _ _ ids commands w t h q d _ l1 l2 Hr Hcap Hl Hy) as Hin.
  pose proof (received_while_watching id wid _ _ ids commands w t h q d l1 l2 Hr Hl) as Hwatch.
  destruct (query_before _ _ _ _ _ _ _ _ Hr Hw Hl) as [s Hs].
  pose proof (query_rounds (mk_ref q) l1 _ Hs (proj1 (query_prefix _ _ _ _ _ _ _ Hr Hw Hsize Hl))) as Hst.
  destruct s as [| | |pending sum count [k|]|]; try done; [by rewrite Hst in Hwatch|]. destruct Hst as (_ & ds & ins & Hq).
  apply (qr_watches _ _ _ _ _ _ _ _ Hq) in Hwatch. apply (qr_pending _ _ _ _ _ _ _ _ Hq) in Hwatch as [_ Hn].
  apply Hn. apply elem_of_incomings in Hin. rewrite (qr_incomings _ _ _ _ _ _ _ _ Hq) in Hin.
  apply elem_of_cons in Hin as [?|Hin]; [done|]. apply list_elem_of_omap. eauto.
Qed.

(** No code of [DeviceManager] panics: what it has as unreachable is not reached. *)
Lemma never_panics w t h a c :
  runs w t h → (N.of_nat (size (cells w)) ≤ U32_MAX)%N → cells w !! a = Some c →
  phase c ≠ Initializing HPanic ∧ ∀ up, phase c ≠ Receiving HPanic up.
Proof.
  intros Hr Hsize Hc. pose proof (lookup_tasks _ _ _ Hc) as Hk. assert (cast w a (actor c) (config c)) as Hw by by eexists.
  destruct (history w t h Hr _ _ _ Hw) as [_ Hg]. pose proof (wt_placed _ _ _ _ _ _ _ _ (world_typed w t h Hr) _ _ Hk) as Hp. simpl in Hp.
  pose proof (th_once _ _ _ _ _ _ (runs_threads _ _ _ _ ids _ _ _ _ Hr) a) as Hnd.
  split.
  - intros Hph. rewrite Hph in Hp. inversion Hp as [? ? ? _ Hd| | | | | | | | |]; subst; try done.
    assert ((HPanic : Handler State) ≠ HPanic); [|done]. eapply (always_does _ _ _ (λ _ k, k ≠ HPanic)); [|exact Hd]. by destruct (actor c).
  - intros up Hph. rewrite Hph in Hp. inversion Hp as [| |l s i t' k up' Hs Hd Hl| | | | | | |]; subst; try done.
    pose proof (rounds_fail _ _ _ _ _ _ _ Hs Hd eq_refl) as Hfail. rewrite Hl in Hfail.
    destruct (actor c) as [|n| |g n] eqn:Hact.
    + exact (manager_rounds (cast w) a _ _ Hfail Hg).
    + exact (group_rounds (cast w) a n _ _ Hfail Hg Hnd).
    + apply (query_rounds (mk_ref a) _ _ Hfail). eapply (query_prefix w t h a _ _ [] Hr Hw Hsize). by rewrite app_nil_r.
    + rewrite <-Hl in Hg. destruct (received_point (gets_all (cast w) a (Device g n)) (gets_all_prefix _ _ _) _ _ _ Hg) as [Hg0 Hg1].
      destruct (device_rounds (cast w) g n a _ _ Hs Hg0) as [_ [Hst _]].
      by destruct (always_does _ _ _ _ (device_code (cast w) g n a _ _ _ Hg1 Hst) Hd) as [? _].
Qed.

(** What a query replies. *)
Lemma query_reply w t h q config :
  runs w t h → cast w q Query config → (N.of_nat (size (cells w)) ≤ U32_MAX)%N →
  replies (h q) = [] ∨ ∃ k ds (answers : list (ActorId * option f64)),
    EReceived (Message (Start ds (Asker k))) ∈ h q ∧ replies (h q) = [(k, average (omap snd answers))] ∧ NoDup answers.*1 ∧
    (∀ d y, (d, y) ∈ answers → d ∈ actor_id <$> ds ∧ answered q y (h d)) ∧
    (∀ d, d ∈ actor_id <$> ds → d ∈ answers.*1 ∨ EReceived (Terminated d) ∈ h q ∧ ∀ y, Reading d y ∉ sends q (h d)).
Proof.
  intros Hr Hw Hsize. destruct (history w t h Hr _ _ _ Hw) as [[p Hp] _].
  assert (h q = h q ++ []) as Hl by by rewrite app_nil_r. destruct (query_prefix _ _ _ _ _ _ _ Hr Hw Hsize Hl) as [Hg Hnd].
  destruct (query_replies (mk_ref q) (h q) p Hp Hg) as [?|(k & ds & ins & Hin & Hall & Hre)]; [by left|right].
  rewrite Hin in Hnd. exists k, ds, (answers ins). split_and!.
  - apply elem_of_incomings. rewrite Hin. by left.
  - by rewrite <-readings_answers.
  - exact Hnd.
  - intros d y Hd%elem_of_answers. assert (EReceived (Message (Reading d y)) ∈ h q) as Hrec.
    { apply elem_of_incomings. rewrite Hin. by right. }
    destruct (reading_asked w t h q d y Hr Hrec) as (_ & _ & Hans & into & Hread). split; [|done].
    apply times_elem. pose proof (query_reads (mk_ref q) _ _ Hp Hg d) as Hle.
    pose proof (started_orderly _ (proj1 Hg)) as Hs. rewrite Hin in Hs. rewrite <-Hs.
    assert (Read (TellTo (mk_ref q) into) ∈ reads d (h q)) as Hin' by by apply list_elem_of_filter.
    destruct (reads d (h q)); [by apply elem_of_nil in Hin'|simpl in Hle; lia].
  - intros d (r & -> & Hr')%list_elem_of_fmap. specialize (Hall _ Hr').
    apply list_elem_of_omap in Hall as (i & Hi & Hd). destruct i as [[| | | | | |d y| |]|d]; simplify_eq/=.
    + left. apply list_elem_of_fmap. exists (actor_id r, y). split; [done|]. by apply elem_of_answers.
    + right. assert (EReceived (Terminated (actor_id r)) ∈ h q) as Hterm by (apply elem_of_incomings; rewrite Hin; by right).
      split; [done|]. intros y. by eapply terminated_silent.
Qed.

(** ** At rest *)

Lemma unbounded w t h a act config : runs w t h → cast w a act config → mailbox_capacity config = Unbounded.
Proof.
  intros Hr (k & Hk & <- & <-). destruct (wt_cast _ _ _ _ _ _ _ _ (world_typed w t h Hr) _ _ Hk) as [(_ & _ & ->)|[_ Hsp]]; [done|].
  destruct (t_actor k); simpl in Hsp; [done|by rewrite Hsp..].
Qed.

Lemma parent_of w t h b act config : runs w t h → cast w b act config → b ≠ id →
  ∃ a act' config' k g, EDid (ASpawn act config (mk_ref b)) ∈ h a ∧ cast w a act' config' ∧
    sends_only act' a (EDid (ASpawn act config (mk_ref b))) ∧ tasks w !! b = Some k ∧ t_parent k = ContextKey a g.
Proof.
  intros Hr (k & Hk & <- & <-) Hne. destruct (th_spawned _ _ _ _ _ _ (runs_threads _ _ _ _ ids _ _ _ _ Hr) _ _ Hk Hne) as (a & g & Hin & Hpar).
  destruct (history_cast w t h Hr a) as (act' & config' & Hw); [by intros Ha; rewrite Ha in Hin; apply elem_of_nil in Hin|].
  destruct (history w t h Hr _ _ _ Hw) as [[p Hp] Hg]. pose proof (sends_points (cast w) a act' (h a) p Hp Hg) as Hs.
  rewrite Forall_forall in Hs. exists a, act', config', k, g. split_and!; [done|done|by apply Hs|done|done].
Qed.

Lemma root_only w t h a config : runs w t h → cast w a DeviceManager config → a = id.
Proof.
  intros Hr (k & Hk & Hact & _). destruct (wt_cast _ _ _ _ _ _ _ _ (world_typed w t h Hr) _ _ Hk) as [[? _]|[_ Hsp]]; [done|].
  by rewrite Hact in Hsp.
Qed.

Section AtRest.
Context w t h (Hr : runs w t h) (Hsize : (N.of_nat (size (cells w)) ≤ U32_MAX)%N).
Context (rest : ∀ a c, cells w !! a = Some c → phase c = Done ∨ idle w c).
#[local] Abbreviation idle_cast a act := (∃ c, cells w !! a = Some c ∧ idle w c ∧ actor c = act).

Lemma idle_act a act act' config : idle_cast a act → cast w a act' config → act' = act.
Proof. intros (c & Hc & _ & <-) (k & Hk & <- & _). rewrite (lookup_tasks _ _ _ Hc) in Hk. by simplify_eq. Qed.

(** An idle parent has told no child to stop, which therefore is idle or has ended by itself. *)
Lemma child_rests a act b act' config g k :
  idle_cast a act → ERestarting ∉ h a → cast w b act' config → tasks w !! b = Some k → t_parent k = ContextKey a g →
  (idle_cast b act' ∧ ∃ s, rounds act' (mk_ref b) (h b) (Settled s)) ∨
  (∀ cb, cells w !! b = Some cb → phase cb = Done) ∧ (rounds act' (mk_ref b) (h b) Stops ∨ rounds act' (mk_ref b) (h b) Fails).
Proof.
  intros (c & Hc & Hidle & _) Hre (k' & Hk' & <- & _) Hk Hpar. simplify_eq. apply tasks_lookup in Hk' as (cb & Hb & <-).
  assert (EStopped ∉ h b) as Hst.
  { eapply (not_told_to_stop id wid _ _ ids commands w t h Hr a (task_of c) b (task_of cb)); [by apply lookup_tasks| |done|by apply lookup_tasks|exact Hpar].
    simpl. by eapply idle_running. }
  destruct (rest_rounds id wid _ _ ids commands w t h Hr rest b cb Hb Hst) as [[Hi Hs]|[Hd Hs]]; [left|right].
  - split; [|done]. by exists cb.
  - split; [|done]. intros cb' Hb'. by simplify_eq.
Qed.

Lemma told_received a act b m : idle_cast a act → m ∈ sends a (h b) → EReceived (Message m) ∈ h a.
Proof.
  intros (c & Hc & Hidle & _) Hm. eapply (rest_told id wid _ _ ids commands w t h Hr); [done|exact Hidle| |done].
  eapply (unbounded w t h a); [done|]. exists (task_of c). split_and!; [by apply lookup_tasks|done..].
Qed.

(** A device which is there has answered. *)
Lemma device_answered q d act config g n :
  act = Device g n → cast w d act config → (∃ c, cells w !! d = Some c ∧ idle w c) →
  Read (TellTo (mk_ref q) (Reading d)) ∈ sends d (h q) → ∃ y, Reading d y ∈ sends q (h d).
Proof.
  intros -> Hw (c & Hc & Hidle) Hm.
  assert (actor c = Device g n) as Hact by (symmetry; apply (idle_act d _ _ config); [by exists c|done]).
  assert (EReceived (Message (Read (TellTo (mk_ref q) (Reading d)))) ∈ h d) as Hrec.
  { apply (told_received d (Device g n) q); [by exists c|done]. }
  destruct (idle_rounds id wid _ _ ids commands w t h Hr d c Hc Hidle) as [s Hs]. rewrite Hact in Hs.
  destruct (history w t h Hr _ _ _ Hw) as [_ Hg]. destruct (device_rounds (cast w) g n d _ _ Hs Hg) as (_ & _ & Hread).
  by destruct (Hread _ _ Hrec) as [y ?]; exists y.
Qed.

(** There is one start. *)
Lemma started_with_this q x ds ch ds' ch' :
  Start ds (Asker ch) ∈ sends q (h x) → EReceived (Message (Start ds' (Asker ch'))) ∈ h q → ch' = ch.
Proof.
  intros Hm Hrec.
  destruct (received_from id wid _ _ ids commands w t h Hr q _ (commands_only (Start ds' (Asker ch')) ltac:(by intros [])) Hrec) as [y Hy].
  destruct (start_sent w t h Hr _ _ _ _ Hm) as [Hx _]. destruct (start_sent w t h Hr _ _ _ _ Hy) as [Hy' _].
  rewrite (one_parent w t h Hr _ _ _ Hy' Hx) in Hy. pose proof (starts_bounded w t h Hr q x) as Hle.
  assert (Start ds (Asker ch) ∈ starts q (h x)) as H1 by by apply list_elem_of_filter.
  assert (Start ds' (Asker ch') ∈ starts q (h x)) as H2 by by apply list_elem_of_filter.
  destruct (starts q (h x)) as [|m [|]]; [by apply elem_of_nil in H1| |simpl in Hle; lia].
  apply list_elem_of_singleton in H1, H2. congruence.
Qed.

(** A query which has been started by a group which runs has replied. *)
Lemma query_done q config x k g ds n :
  idle_cast x (Group n) → ERestarting ∉ h x → cast w q Query config → tasks w !! q = Some k → t_parent k = ContextKey x g →
  ∀ ch, Start ds (Asker ch) ∈ sends q (h x) →
  (∀ c, cells w !! q = Some c → phase c = Done) ∧ ∃ v, EAnswered (Reply ch v) () ∈ h q.
Proof.
  intros Hx Hre Hw Hk Hpar ch Hm. 
  assert (query_gets (h q)) as Hg by (apply (query_prefix w t h q config (h q) [] Hr Hw Hsize); by rewrite app_nil_r).
  destruct (child_rests _ _ _ _ _ _ _ Hx Hre Hw Hk Hpar) as [[Hidle [s Hs]]|[Hd [Hs|Hs]]]; [exfalso| |by destruct (query_rounds _ _ _ Hs Hg)].
  - pose proof (told_received _ _ _ _ Hidle Hm) as Hrec. pose proof (query_rounds _ _ _ Hs Hg) as Hst.
    destruct s as [| | |pending sum count [k'|]|]; try done; [by rewrite Hst in Hrec; apply elem_of_nil in Hrec|].
    destruct Hst as (Hne & ds' & ins & Hq). apply map_choose in Hne as (d & r & Hd).
    assert (is_Some (pending !! d)) as Hd' by eauto. apply (qr_pending _ _ _ _ _ _ _ _ Hq) in Hd' as [Hin Hn].
    apply list_elem_of_fmap in Hin as (r' & -> & Hr').
    assert (is_device (cast w) (actor_id r')) as (g' & n' & c' & Hw').
    { destruct (history w t h Hr _ _ _ Hw) as [_ Hgets].
      assert (gets (cast w) q Query (Message (Start ds' (Asker k')))) as Hds.
      { apply Hgets, elem_of_incomings. rewrite (qr_incomings _ _ _ _ _ _ _ _ Hq). by left. }
      by apply (proj1 (Forall_forall _ _) Hds). }
    destruct (device_answered q (actor_id r') (Device g' n') c' g' n') as (y & Hy); [done..| | |].
    + destruct Hidle as (c & Hc & Hidle & _). apply (rest_watched id wid _ _ ids commands w t h Hr rest q _ c Hc Hidle).
      by apply (qr_watches _ _ _ _ _ _ _ _ Hq).
    + by apply (qr_told _ _ _ _ _ _ _ _ Hq).
    + apply Hn. pose proof (told_received _ _ _ _ Hidle Hy) as Hin. apply elem_of_incomings in Hin.
      rewrite (qr_incomings _ _ _ _ _ _ _ _ Hq) in Hin. apply elem_of_cons in Hin as [?|Hin]; [done|].
      apply list_elem_of_omap. by exists (Message (Reading (actor_id r') y)).
  - split; [done|]. destruct (query_rounds _ _ _ Hs Hg) as (ch' & ds' & ins & Hin & _ & Hre').
    assert (EReceived (Message (Start ds' (Asker ch'))) ∈ h q) as Hrec by (apply elem_of_incomings; rewrite Hin; by left).
    rewrite <-(started_with_this _ _ _ _ _ _ Hm Hrec). assert ((ch', average (readings ins)) ∈ replies (h q)) as Hrep by (rewrite Hre'; by left).
    unfold replies in Hrep. apply list_elem_of_omap in Hrep as (e & He & Heq). destruct e as [| |[|ch0 v] []| |]; simplify_eq/=. eauto.
Qed.

(** A group runs as long as the manager does. *)
Lemma manager_settled : idle_cast id DeviceManager → ERestarting ∉ h id ∧ requests_handled (h id).
Proof.
  intros (c & Hc & Hidle & Hact). destruct (idle_rounds id wid _ _ ids commands w t h Hr id c Hc Hidle) as [s Hs]. rewrite Hact in Hs.
  destruct (history w t h Hr id DeviceManager (config c)) as [_ Hg]; [by exists (task_of c); rewrite (lookup_tasks _ _ _ Hc)|].
  split; [|by pose proof (manager_rounds (cast w) id _ _ Hs Hg) as Hst; destruct s].
  apply (rounds_never_restart DeviceManager (mk_ref id) (gets_all (cast w) id DeviceManager) _ _ (gets_all_prefix _ _ _)) with (2 := Hs); [|done].
  intros l Hl Hf. exact (manager_rounds (cast w) id _ _ Hf Hl).
Qed.

Lemma group_rests a n config :
  idle_cast id DeviceManager → cast w a (Group n) config →
  idle_cast a (Group n) ∧ ERestarting ∉ h a ∧ requests_passed (h a) ∧ queries_started (h a).
Proof.
  intros Hroot Hw. destruct (manager_settled Hroot) as [Hre _]. destruct (history w t h Hr _ _ _ Hw) as [_ Hg].
  pose proof (th_once _ _ _ _ _ _ (runs_threads _ _ _ _ ids _ _ _ _ Hr) a) as Hnd.
  assert (a ≠ id) as Hne.
  { intros ->. by pose proof (idle_act _ _ _ _ Hroot Hw). }
  destruct (parent_of w t h a _ _ Hr Hw Hne) as (x & act & config' & k & g & _ & Hx & Hs & Hk & Hpar). destruct act; try done.
  pose proof (root_only w t h x _ Hr Hx) as ->.
  destruct (child_rests id DeviceManager a (Group n) config g k Hroot Hre Hw Hk Hpar) as [[Hidle [s Hr']]|[_ [Hr'|Hr']]];
    pose proof (group_rounds (cast w) a n _ _ Hr' Hg Hnd) as Hst; [|done..].
  split; [done|]. destruct s as [|m| | |]; try done. destruct Hst as (Hp & Hq & _). split; [|done].
  apply (rounds_never_restart (Group n) (mk_ref a) (distinct_children (cast w) a n) _ _ (distinct_children_prefix _ _ _)) with (2 := Hr'); [|done].
  intros l [Hl Hl'] Hf. exact (group_rounds (cast w) a n _ _ Hf Hl Hl').
Qed.

(** Every query has replied and stopped. *)
Lemma queries_done q config :
  idle_cast id DeviceManager → cast w q Query config → ∀ c, cells w !! q = Some c → phase c = Done.
Proof.
  intros Hroot Hw c Hc. assert (q ≠ id) as Hne.
  { intros ->. by pose proof (idle_act _ _ _ _ Hroot Hw). }
  destruct (parent_of w t h q _ _ Hr Hw Hne) as (x & act & config' & k & g & Hsp & Hx & Hs & Hk & Hpar). destruct act as [|n| |]; try done.
  destruct (group_rests x n config' Hroot Hx) as (Hidle & Hre & _ & Hq). destruct (Hq _ _ Hsp) as (ds & rt & Hin).
  assert (∃ ch, rt = Asker ch) as [ch ->].
  { pose proof (wt_events _ _ _ _ _ _ _ _ (world_typed w t h Hr) x) as Hev. rewrite Forall_forall in Hev.
    destruct (Hev _ Hin) as [_ Hok]. specialize (Hok _ _ Hw). destruct rt; [eauto|done]. }
  destruct (query_done q config x k g ds n Hidle Hre Hw Hk Hpar ch) as [Hdone _]; [|by apply Hdone].
  exact (told_sends _ _ _ Hin).
Qed.

(** Every request has been replied to. *)
Lemma requests_replied g ch :
  idle_cast id DeviceManager → (FromOutside, Message (Average g (Asker ch))) ∈ enqueued id t →
  ∃ a v, EAnswered (Reply ch v) () ∈ h a.
Proof.
  intros Hroot Hin. destruct (manager_settled Hroot) as [_ Hhandled]. pose proof Hroot as (c & Hc & Hidle & _).
  pose proof (rest_received id wid _ _ ids commands w t h Hr id c _ _ Hc Hidle Hin) as Hrec.
  destruct (Hhandled _ _ Hrec) as [?|[r Hr']]; [by exists id, None|].
  pose proof (wt_events _ _ _ _ _ _ _ _ (world_typed w t h Hr) id) as Hev. rewrite Forall_forall in Hev.
  destruct (Hev _ Hr') as [(act & config & Hw) Hok]. specialize (Hok _ _ Hw). destruct act as [|n| |]; try done.
  destruct (group_rests _ _ _ Hroot Hw) as (Hidle' & Hre & Hpassed & _).
  destruct (Hpassed ch) as (r' & ds & Hsp & Hst).
  { by apply (told_received _ _ id _ Hidle'), told_sends. }
  destruct (th_children _ _ _ _ _ _ (runs_threads _ _ _ _ ids _ _ _ _ Hr) _ _ _ _ Hsp) as (g' & p & Hk & _).
  assert (cast w (actor_id r') Query default_config) as Hw' by by eexists.
  destruct (query_done _ _ _ _ _ ds n Hidle' Hre Hw' Hk eq_refl ch) as [_ [v Hv]]; [|by eauto].
  by apply told_sends.
Qed.
End AtRest.
End Runs.

(** ** The averages *)

(** C13. The averages of [device_manager] are exact. In every interleaving of the manager, its groups, devices and
    queries, whatever is asked and recorded from outside in which order, each query replies at most once: to whom has
    asked for it, with the average of one reading of each device it was started with, which is what that device had
    recorded last, since its last restart, when it was asked; no device is counted twice, and the only ones left
    out had terminated without ever replying. And no code panics: neither [unreachable!] is reached, nor does
    the count of the readings overflow, a [u32], as long as there are no more actors than it counts. *)
Theorem averages_are_exact {F : Flume} {FL : FlumeLaws F} {TW : TokioWatch} {TL : TokioWatchLaws TW}
    {TO : TokioOneshot} {TOL : TokioOneshotLaws TO} {V : HashMapValues} {VL : HashMapValuesLaws V} (id wid : ActorId) ls w t :
  id ≠ wid → exec ls (manager_system id wid) = Some (w, t) → Forall (commands id) ls → (N.of_nat (size (cells w)) ≤ U32_MAX)%N →
  ∃ h : ActorId → list Event,
    (∀ a c, cells w !! a = Some c → thread (actor c) (mk_ref a) (h a) (phase c) ∧
       phase c ≠ Initializing HPanic ∧ ∀ up, phase c ≠ Receiving HPanic up) ∧
    (∀ a, omap seen (h a) = own a t) ∧
    (∀ q c, cells w !! q = Some c → actor c = Query →
       replies (h q) = [] ∨ ∃ k ds (answers : list (ActorId * option f64)),
         EReceived (Message (Start ds (Asker k))) ∈ h q ∧ replies (h q) = [(k, average (omap snd answers))] ∧ NoDup answers.*1 ∧
         (∀ d y, (d, y) ∈ answers → d ∈ actor_id <$> ds ∧ answered q y (h d)) ∧
         (∀ d, d ∈ actor_id <$> ds → d ∈ answers.*1 ∨ EReceived (Terminated d) ∈ h q ∧ ∀ y, Reading d y ∉ sends q (h d))).
Proof.
  intros ids He Hin Hsize. destruct (exec_runs id wid DeviceManager default_config ids (commands id) ls w t He Hin) as [h Hr].
  exists h. pose proof (runs_threads _ _ _ _ ids _ _ _ _ Hr) as Hth. split_and!.
  - intros a c Hc. split; [apply (th_runs _ _ _ _ _ _ Hth _ _ (lookup_tasks _ _ _ Hc))|]. by apply (never_panics id wid ids w t h a).
  - apply (th_shown _ _ _ _ _ _ Hth).
  - intros q c Hc Hq. apply (query_reply id wid ids w t h q (config c)); [done| |done].
    exists (task_of c). split_and!; [by apply lookup_tasks|done..].
Qed.

(** C14. No request of [device_manager] stays without a reply, though no query has a timeout. When no task can take a step
    any more while the manager still runs, every query has stopped and every average which was asked
    for has been replied to: no query waits for a device which does not answer, be it that it has terminated,
    restarted meanwhile or is unknown; as long as there are at most [u32::MAX] actors. *)
Theorem averages_are_served {F : Flume} {FL : FlumeLaws F} {TW : TokioWatch} {TL : TokioWatchLaws TW}
    {TO : TokioOneshot} {TOL : TokioOneshotLaws TO} {V : HashMapValues} {VL : HashMapValuesLaws V} (id wid : ActorId) ls w t c :
  id ≠ wid → exec ls (manager_system id wid) = Some (w, t) → Forall (commands id) ls → (N.of_nat (size (cells w)) ≤ U32_MAX)%N →
  (∀ a, blocked w a) → cells w !! id = Some c → phase c ≠ Done →
  ∃ h : ActorId → list Event,
    (∀ a c, cells w !! a = Some c → thread (actor c) (mk_ref a) (h a) (phase c)) ∧
    (∀ a, omap seen (h a) = own a t) ∧
    (∀ q c, cells w !! q = Some c → actor c = Query → phase c = Done) ∧
    (∀ group k, OEnqueued FromOutside id (Message (Average group (Asker k))) ∈ t → ∃ a v, EAnswered (Reply k v) () ∈ h a).
Proof.
  intros ids He Hin Hsize Hblocked Hc Hrun.
  destruct (exec_runs id wid DeviceManager default_config ids (commands id) ls w t He Hin) as [h Hr].
  exists h. pose proof (runs_threads _ _ _ _ ids _ _ _ _ Hr) as Hth.
  destruct (exec_told_inv id wid _ _ ls w t ids He) as (Hsys & Htold & Hkept).
  pose proof (typed_references id wid _ _ ids _ _ _ _ _ (world_typed id wid ids w t h Hr)) as Hrefs.
  pose proof (all_blocked (λ _, ()) _ _ _ _ Hsys Htold Hkept Hrefs Hblocked) as Hall.
  assert (∃ c, cells w !! id = Some c ∧ idle w c ∧ actor c = DeviceManager) as Hroot.
  { exists c. destruct (Hall _ _ Hc) as [?|?]; [done|]. split_and!; [done..|].
    destruct (th_root _ _ _ _ _ _ Hth) as [p Hp]. rewrite (lookup_tasks _ _ _ Hc) in Hp. by apply (f_equal (fmap t_actor)) in Hp as [=]. }
  split_and!.
  - intros a c' Hc'. apply (th_runs _ _ _ _ _ _ Hth _ _ (lookup_tasks _ _ _ Hc')).
  - apply (th_shown _ _ _ _ _ _ Hth).
  - intros q c' Hc' Hq. apply (queries_done id wid ids w t h Hr Hsize Hall q (config c') Hroot); [|done].
    exists (task_of c'). split_and!; [by apply lookup_tasks|done..].
  - intros group k Hk. apply (requests_replied id wid ids w t h Hr Hsize Hall group k Hroot). by apply elem_of_enqueued.
Qed.
