(* ===== verification/DeviceExample.v ===== *)
(** A run of [DeviceManager], as [main] has it up to the shutdown: the theorems about its averages hold of it. *)
From Stdlib Require Import SpecFloat.
From stdpp Require Import strings.
From S2P Require Import Prelude Floats Backoff Config Flume Quota Actor Mailbox MailboxSpec Tokio Runtime RuntimeMoves RuntimeTree RuntimeWatch RuntimeSystem RuntimeTrace RuntimeMailboxes RuntimeProgress Handlers RuntimeThreads RuntimeProtocols RuntimeRounds RuntimeScheduler DeviceManager DeviceQueries DeviceRuns.
Import Reference ReferenceTokio.

#[local] Abbreviation World := (World (M:=Msg) (B:=Example) (S:=State) (E:=Error) (Rq:=Outside) (An:=outside_answer)).
#[local] Abbreviation Cell := (Cell (M:=Msg) (B:=Example) (S:=State) (E:=Error) (Rq:=Outside) (An:=outside_answer)).
#[local] Abbreviation Label := (Label (M:=Msg) (An:=outside_answer)).
#[local] Abbreviation Obs := (Obs (M:=Msg)).
#[local] Abbreviation Event := (Event (M:=Msg) (B:=Example) (Rq:=Outside) (An:=outside_answer)).

(** The order of the keys. *)
#[local] Instance map_values : HashMapValues := λ m, (map_to_list m).*2.
#[local] Instance map_values_laws : HashMapValuesLaws map_values.
Proof. by intros m. Qed.

Definition manager : ActorId := mk_actor_id 1.
Definition watcher : ActorId := mk_actor_id 2.
Definition told : list Label := LWatchRoot :: (LTell (mk_ref manager) <$> take 7 main).
Definition running_world : World := match exec told (manager_system manager watcher) with Some (w, _) => w | None => manager_system manager watcher end.
Definition fuel : nat := 300.
Definition run : list Label := told ++ drive (λ _, ()) fuel running_world.

(** What holds in the end, evaluated. *)
Definition is_query_cell (c : Cell) : bool := match actor c with Query => true | _ => false end.
Definition asked (k : N) (o : Obs) : bool :=
  match o with
  | OEnqueued FromOutside a (Message (Average _ (Asker k'))) => bool_decide (a = manager) && bool_decide (k' = k)
  | _ => false
  end.
Definition is_commanded (lb : Label) : bool :=
  match lb with
  | LTell to (Record _ _ _ | Average _ (Asker _) | Shutdown) => bool_decide (actor_id to = manager)
  | LTell _ _ => false
  | _ => true
  end.

Definition run_ok : bool :=
  match exec run (manager_system manager watcher) with
  | Some (w, t) =>
      forallb is_commanded run && bool_decide (size (cells w) = 8%nat) &&
      all_rest w &&
      match cells w !! manager with Some c => negb (is_done c) | None => false end &&
      (length (filter (λ x, is_query_cell x.2 = true) (map_to_list (cells w))) =? 2) &&
      existsb (asked 0) t && existsb (asked 1) t && existsb (asked 2) t
  | None => false
  end.

Lemma run_is_ok : run_ok = true.
Proof. vm_compute. reflexivity. Qed.

Lemma commanded lb : is_commanded lb = true → commands manager lb.
Proof. destruct lb as [|to []| | |]; simpl; try done; try (by intros ?%bool_decide_eq_true); by destruct reply_to; [intros ?%bool_decide_eq_true|]. Qed.

Lemma asked_in k t : existsb (asked k) t = true → ∃ group, OEnqueued FromOutside manager (Message (Average group (Asker k))) ∈ t.
Proof.
  intros (o & Hin & Ho)%existsb_exists. apply list_elem_of_In in Hin.
  destruct o as [[] a [[| g [k'|]| | | | | | |]|]| | | | | | | | | |]; try done. simpl in Ho.
  apply andb_true_iff in Ho as [->%bool_decide_eq_true ->%bool_decide_eq_true]. by exists g.
Qed.

(** The run, with what is needed of it. *)
Lemma run_facts : ∃ w t c, exec run (manager_system manager watcher) = Some (w, t) ∧ Forall (commands manager) run ∧
  (N.of_nat (size (cells w)) ≤ U32_MAX)%N ∧ (∀ a, blocked w a) ∧ cells w !! manager = Some c ∧ phase c ≠ Done ∧
  (∃ q cq, cells w !! q = Some cq ∧ actor cq = Query) ∧
  ∀ k, k ∈ [0; 1; 2]%N → ∃ group, OEnqueued FromOutside manager (Message (Average group (Asker k))) ∈ t.
Proof.
  pose proof run_is_ok as Hok. unfold run_ok in Hok. destruct (exec run _) as [[w t]|] eqn:He; [|done].
  rewrite !andb_true_iff in Hok. destruct Hok as [[[[[[[Hcmd Hsize] Hrest] Hroot] Hq] H0] H1] H2].
  destruct (cells w !! manager) as [c|] eqn:Hc; [|done]. exists w, t, c. apply bool_decide_eq_true in Hsize.
  split_and!; [done| | | |done| | |].
  - apply Forall_forall. intros lb Hlb%list_elem_of_In. apply commanded. exact (proj1 (forallb_forall _ _) Hcmd lb Hlb).
  - rewrite Hsize. done.
  - exact (all_rest_blocked w Hrest).
  - intros Hdone. unfold is_done in Hroot. by rewrite Hdone in Hroot.
  - destruct (filter _ _) as [|[q cq] l] eqn:Hl in Hq; [done|].
    assert ((q, cq) ∈ (q, cq) :: l) as Hin by by left. rewrite <-Hl, list_elem_of_filter in Hin.
    destruct Hin as [Hact Hin%elem_of_map_to_list]. exists q, cq. split; [done|]. unfold is_query_cell in Hact. simpl in Hact. by destruct (actor cq).
  - intros k Hk. apply asked_in. rewrite !elem_of_cons in Hk. destruct Hk as [->|[->|[->|[]%elem_of_nil]]]; [exact H0|exact H1|exact H2].
Qed.

Lemma ids : manager ≠ watcher.
Proof. done. Qed.

Lemma averages_are_exact_witness : ∃ (w : World) (h : ActorId → list Event) q c,
  cells w !! q = Some c ∧ actor c = Query ∧ (replies (h q) = [] ∨ ∃ k ds (answers : list (ActorId * option f64)),
    EReceived (Message (Start ds (Asker k))) ∈ h q ∧ replies (h q) = [(k, average (omap snd answers))] ∧ NoDup answers.*1).
Proof.
  destruct run_facts as (w & t & c & He & Hcmd & Hsize & _ & _ & _ & (q & cq & Hq & Hact) & _).
  destruct (averages_are_exact manager watcher run w t ids He Hcmd Hsize) as (h & _ & _ & Hre).
  exists w, h, q, cq. split_and!; [done..|]. destruct (Hre q cq Hq Hact) as [?|(k & ds & ans & H1 & H2 & H3 & _)]; [by left|right; eauto 10].
Defined.

(** All three requests of [main] are replied to. *)
Lemma averages_are_served_witness : ∃ h : ActorId → list Event, ∀ k, k ∈ [0; 1; 2]%N → ∃ a v, EAnswered (Reply k v) () ∈ h a.
Proof.
  destruct run_facts as (w & t & c & He & Hcmd & Hsize & Hblocked & Hc & Hrun & _ & Hasked).
  destruct (averages_are_served manager watcher run w t c ids He Hcmd Hsize Hblocked Hc Hrun) as (h & _ & _ & _ & Hserved).
  exists h. intros k Hk. destruct (Hasked k Hk) as [group Hg]. exact (Hserved group k Hg).
Defined.

Lemma typed_programs_stay_typed_witness : ∃ w : World, ∀ a c, cells w !! a = Some c →
  typed_phase (cast w) spawnable (ok (cast w)) (typed (cast w)) a (actor c) (phase c).
Proof.
  destruct run_facts as (w & t & c & He & Hcmd & _). exists w. intros a c' Hc'.
  apply (typed_programs_stay_typed manager watcher DeviceManager default_config run w t (commands manager) spawnable ok typed ids He Hcmd); [| |exact Hc'].
  - intros who Hfun. exact (device_manager_typed who Hfun).
  - intros to m. destruct (exec_runs manager watcher DeviceManager default_config ids (commands manager) run w t He Hcmd) as [h Hr].
    apply (commands_ok manager watcher ids w t h Hr).
Defined.
