(* ===== verification/WorkPulling.v ===== *)
(** The example [tellus/examples/work_pulling.rs]: workers with mailboxes of capacity one request jobs from a manager
    whenever they are ready. Its claims, that a worker never has more than one job in flight, so that the
    bounded mailbox never drops one, and that all documents are processed, are proved of every interleaving. *)
From S2P Require Import Prelude Backoff Config Flume Quota Actor Mailbox MailboxSpec Tokio Runtime RuntimeMoves RuntimeTree RuntimeWatch RuntimeSystem RuntimeTrace RuntimeMailboxes Handlers RuntimeThreads RuntimeProtocols.

(** ** The program *)

Definition Document : Type := string.
Definition DOCUMENTS : list Document :=
  ["the quick brown fox jumps over the lazy dog"; "actors all the way down"; "one message at a time";
   "backpressure by design"; "workers pull instead of being pushed"; "a terminated signal arrives behind all messages"]%string.
Definition WORKERS : nat := 3.

(** [split_whitespace().count()], on ASCII, which all documents are. *)
Definition is_whitespace (c : Ascii.ascii) : bool :=
  let n := Ascii.nat_of_ascii c in (Nat.leb 9 n && Nat.leb n 13) || Nat.eqb n 32.
Fixpoint count_words (in_word : bool) (s : string) : nat :=
  match s with
  | EmptyString => 0
  | String c s => if is_whitespace c then count_words false s else (if in_word then 0 else 1) + count_words true s
  end.

Inductive Next :=
  | Job (document : Document)
  | Drained.

(** The messages of the manager and of the workers; a [ReplyTo] is the actor told and how the reply becomes its
    message. *)
Inductive Msg :=
  | RequestJob (reply_to : ActorRef) (into_message : Next → Msg)
  | NextMsg (next : Next).

Inductive Example := Manager | Worker (manager : ActorRef).

Inductive State :=
  | Managing (jobs : list Document) (workers : nat)
  | Unit.

(** What is printed: a request answered with nothing. *)
Inductive Println :=
  | Words (words : nat) (document : Document)
  | AllProcessed.
Definition printed_answer (q : Println) : Type := unit.

#[local] Abbreviation Handler := (Handler (M:=Msg) (B:=Example) (E:=Nothing) (Rq:=Println) (An:=printed_answer)).

(** [Vec::pop] *)
Fixpoint pop {A} (l : list A) : option (A * list A) :=
  match l with
  | [] => None
  | x :: l =>
      match pop l with
      | Some (y, l) => Some (y, x :: l)
      | None => Some (x, [])
      end
  end.

(** [ActorConfig::default().with_mailbox_capacity(Bounded(NonZeroUsize::MIN))] *)
Definition worker_config : ActorConfig := with_mailbox_capacity default_config (Bounded 1).

(** The loop of [Manager::init]. *)
Fixpoint hire (self : ActorRef) (n : nat) : Handler State :=
  match n with
  | 0%nat => HReturn (Ok (Managing DOCUMENTS WORKERS))
  | S n => HSpawn (Worker self) worker_config (λ worker, HWatch worker (hire self n))
  end.

(** [Worker::request_job] *)
Definition request_job {R} (self manager : ActorRef) (k : Handler R) : Handler R := HTell manager (RequestJob self NextMsg) k.

(** [Manager::receive] and [Worker::receive]; a message of the other's type cannot be: it panics here. *)
Definition manager_receive (incoming : Incoming Msg) (state : State) : Handler (Control State) :=
  match incoming, state with
  | Message (RequestJob reply_to into_message), Managing jobs workers =>
      match pop jobs with
      | Some (document, jobs) => HTell reply_to (into_message (Job document)) (HReturn (Ok (Continue (Managing jobs workers))))
      | None => HTell reply_to (into_message Drained) (HReturn (Ok (Continue (Managing jobs workers))))
      end
  | Terminated _, Managing jobs (S workers) =>
      if decide (0 < workers)%nat then HReturn (Ok (Continue (Managing jobs workers)))
      else HAwait AllProcessed (λ _, HReturn (Ok Actor.Stop))
  | _, _ => HPanic
  end.
Definition worker_receive (manager self : ActorRef) (incoming : Incoming Msg) (state : State) : Handler (Control State) :=
  match incoming, state with
  | Message (NextMsg (Job document)), Unit =>
      HAwait (Words (count_words false document) document) (λ _, request_job self manager (HReturn (Ok (Continue Unit))))
  | Message (NextMsg Drained), Unit => HReturn (Ok Actor.Stop)
  | _, _ => HPanic
  end.

#[export] Instance work_pulling : Runtime.Actor Msg Example State Nothing Println printed_answer := {
  init a self :=
    match a with
    | Manager => hire self WORKERS
    | Worker manager => request_job self manager (HReturn (Ok Unit))
    end;
  receive a self incoming state :=
    match a with
    | Manager => manager_receive incoming state
    | Worker manager => worker_receive manager self incoming state
    end;
}.

(** ** The threads *)

#[local] Abbreviation Phase := (Phase (M:=Msg) (B:=Example) (S:=State) (E:=Nothing) (Rq:=Println) (An:=printed_answer)).
#[local] Abbreviation Event := (Event (M:=Msg) (B:=Example) (Rq:=Println) (An:=printed_answer)).
#[local] Abbreviation Incoming := (Incoming Msg).
Implicit Types (p : Phase) (l : list Event) (self mgr b r : ActorRef) (docs jobs : list Document).

(** What a thread tells whom, which messages of the protocol those are, and what it prints. *)
Definition told l : list (ActorId * Msg) :=
  omap (λ e, match seen e with Some (SSent to m) => Some (to, m) | _ => None end) l.
Definition nexts (ms : list Msg) : list Next := omap (λ m, match m with NextMsg n => Some n | RequestJob _ _ => None end) ms.
Definition askers (ms : list Msg) : list ActorId :=
  omap (λ m, match m with RequestJob r _ => Some (actor_id r) | NextMsg _ => None end) ms.
Definition jobs_of (ns : list Next) : list Document := omap (λ n, match n with Job d => Some d | Drained => None end) ns.
Definition processed l : list Document :=
  omap (λ e, match e with EAnswered (Words _ d) _ => Some d | _ => None end) l.
Definition all_printed l : list unit := omap (λ e, match e with EAnswered AllProcessed _ => Some () | _ => None end) l.

Lemma told_app l l' : told (l ++ l') = told l ++ told l'.
Proof. apply omap_app. Qed.
Lemma processed_app l l' : processed (l ++ l') = processed l ++ processed l'.
Proof. apply omap_app. Qed.
Lemma all_printed_app l l' : all_printed (l ++ l') = all_printed l ++ all_printed l'.
Proof. apply omap_app. Qed.
Lemma nexts_app ms ms' : nexts (ms ++ ms') = nexts ms ++ nexts ms'.
Proof. apply omap_app. Qed.
Lemma askers_app ms ms' : askers (ms ++ ms') = askers ms ++ askers ms'.
Proof. apply omap_app. Qed.
Lemma jobs_of_app ns ns' : jobs_of (ns ++ ns') = jobs_of ns ++ jobs_of ns'.
Proof. apply omap_app. Qed.

(** What a worker's history amounts to: what it got, what it has processed, how many requests it has made. *)
Record tally self mgr l (got : list Next) docs (n : nat) : Prop := {
  ta_got : messages (incomings l) = NextMsg <$> got;
  ta_docs : processed l = docs;
  ta_told : told l = replicate n (actor_id mgr, RequestJob self NextMsg);
  ta_kids : children l = [];
  ta_watched : watched_by l = [];
}.

(** Where a worker can be, having gone through what. *)
Inductive working self mgr : list Event → Phase → Prop :=
  | working_init l : tally self mgr l [] [] 0 → working self mgr l (Initializing (request_job self mgr (HReturn (Ok Unit))))
  | working_requested l : tally self mgr l [] [] 1 → working self mgr l (Initializing (HReturn (Ok Unit)))
  | working_next l docs up : tally self mgr l (Job <$> docs) docs (S (length docs)) →
      working self mgr l (NextIncoming Unit up)
  | working_print l docs d up : tally self mgr l (Job <$> (docs ++ [d])) docs (S (length docs)) →
      working self mgr l (Receiving (HAwait (Words (count_words false d) d) (λ _, request_job self mgr (HReturn (Ok (Continue Unit))))) up)
  | working_request l docs up : tally self mgr l (Job <$> docs) docs (length docs) →
      working self mgr l (Receiving (request_job self mgr (HReturn (Ok (Continue Unit)))) up)
  | working_continue l docs up : tally self mgr l (Job <$> docs) docs (S (length docs)) →
      working self mgr l (Receiving (HReturn (Ok (Continue Unit))) up)
  | working_drained l docs up : tally self mgr l ((Job <$> docs) ++ [Drained]) docs (S (length docs)) →
      working self mgr l (Receiving (HReturn (Ok Actor.Stop)) up)
  | working_done l docs p : tally self mgr l ((Job <$> docs) ++ [Drained]) docs (S (length docs)) → running p = false →
      working self mgr l p
  | working_stopped l p p' : working self mgr l p → running p = true → running p' = false → working self mgr (l ++ [EStopped]) p'.

Lemma tally_step self mgr l l' got docs n got' docs' n' got1 docs1 n1 :
  tally self mgr l got docs n → messages (incomings l') = NextMsg <$> got' → processed l' = docs' →
  told l' = replicate n' (actor_id mgr, RequestJob self NextMsg) → children l' = [] → watched_by l' = [] →
  got1 = got ++ got' → docs1 = docs ++ docs' → n1 = (n + n')%nat → tally self mgr (l ++ l') got1 docs1 n1.
Proof.
  intros [H1 H2 H3 H4 H5] H1' H2' H3' H4' H5' -> -> ->. split.
  - by rewrite incomings_app, messages_app, H1, H1', fmap_app.
  - by rewrite processed_app, H2, H2'.
  - by rewrite told_app, H3, H3', replicate_add.
  - by rewrite spawns_app, H4, H4'.
  - by rewrite watched_by_app, H5, H5'.
Qed.

#[export] Instance NextMsg_inj : Inj (=) (=) NextMsg.
Proof. by intros ?? [=]. Qed.

Lemma tally_unique self mgr l got docs n got' docs' n' :
  tally self mgr l got docs n → tally self mgr l got' docs' n' → got = got' ∧ docs = docs' ∧ n = n'.
Proof.
  intros [H1 H2 H3 _ _] [H1' H2' H3' _ _]. rewrite H1 in H1'. rewrite H2 in H2'. rewrite H3 in H3'. split_and!; [|done|].
  - by apply (inj (fmap NextMsg)) in H1'.
  - apply (f_equal length) in H3'. by rewrite !length_replicate in H3'.
Qed.

Lemma working_tally self mgr l p :
  working self mgr l p → ∃ got docs n, tally self mgr l got docs n ∧ (n ≤ S (length got))%nat.
Proof.
  induction 1 as [l Ht|l Ht|l docs up Ht|l docs d up Ht|l docs up Ht|l docs up Ht|l docs up Ht|l docs p Ht|l p p' _ IH].
  9:{ destruct IH as (got & docs & n & Ht & Hn). exists got, docs, n. split; [|done].
      eapply (tally_step _ _ _ _ _ _ _ [] [] 0); [done..| | |lia]; by rewrite app_nil_r. }
  all: eexists _, _, _; split; [exact Ht|]; rewrite ?length_app, ?length_fmap, ?length_app; simpl; lia.
Qed.

(** A worker which has ended by itself was told that the jobs are drained, and has processed all it got. *)
Lemma working_ended_itself self mgr l p :
  working self mgr l p → running p = false → EStopped ∉ l →
  ∃ docs, tally self mgr l ((Job <$> docs) ++ [Drained]) docs (S (length docs)).
Proof.
  destruct 1 as [| | | | | | |l docs p Ht|l p p' _]; try done; intros _ Hno; [by exists docs|].
  destruct Hno. apply elem_of_app. right. by left.
Qed.

Lemma pulling_ended self mgr l p p' : working self mgr l p → running p = false → running p' = false → working self mgr l p'.
Proof. destruct 1; simpl; intros; try done; [by eapply working_done|by eapply working_stopped]. Qed.
Lemma working_telling self mgr l p r m : working self mgr l p → telling p r m → r = mgr.
Proof. destruct 1 as [| | | | | | |? ? p|? ? p]; try done; [by intros [-> _]..|by destruct p|by destruct p]. Qed.
Lemma pulling_sound self mgr l p : working self mgr l p → panicked p = false.
Proof. destruct 1 as [| | | | | | |? ? p|? ? p]; try done; by destruct p. Qed.

Definition worker_gets (i : Incoming) : Prop := ∃ n, i = Message (NextMsg n).

Lemma thread_pulling self mgr l p :
  thread (Worker mgr) self l p → (∀ i, EReceived i ∈ l → worker_gets i) → working self mgr l p.
Proof.
  induction 1 as [|l p e p' _ IH Hstep]; intros Hgets; [by constructor|].
  assert (working self mgr l p) as Hw by (apply IH; intros i Hi; apply Hgets, elem_of_app; by left). clear IH.
  assert (∀ i, EReceived i ∈ e → worker_gets i) as He by (intros i Hi; apply Hgets, elem_of_app; by right). clear Hgets.
  destruct (running p) eqn:Hrun; last first.
  { destruct (ended_step _ _ _ _ _ Hstep Hrun) as [-> Hrun']. rewrite app_nil_r. by eapply pulling_ended. }
  inversion Hstep; subst; try (by eapply working_stopped); inversion Hw; subst; try done; rewrite ?app_nil_r;
    try match goal with H : acts _ _ _ |- _ => apply acts_inv in H; simpl in H; open_all; simplify_eq end; try done.
  - apply working_requested. eapply (tally_step _ _ _ _ _ _ _ [] [] 1); done.
  - by apply (working_next _ _ l []).
  - destruct (He i) as [[d|] ->]; [by left| |]; simpl.
    + apply (working_print _ _ _ docs). eapply (tally_step _ _ _ _ _ _ _ [Job d] [] 0);
        [done..|by rewrite fmap_app|by rewrite app_nil_r|lia].
    + apply (working_drained _ _ _ docs). eapply (tally_step _ _ _ _ _ _ _ [Drained] [] 0); [done..|by rewrite app_nil_r|lia].
  - apply (working_request _ _ _ (docs ++ [d])). eapply (tally_step _ _ _ _ _ _ _ [] [d] 0);
      [done..|by rewrite app_nil_r|done|rewrite length_app; simpl; lia].
  - apply (working_continue _ _ _ docs). eapply (tally_step _ _ _ _ _ _ _ [] [] 1); [done..| | |lia]; by rewrite app_nil_r.
  - by apply (working_next _ _ _ docs).
  - by apply (working_done _ _ _ docs).
Qed.

(** The manager's books: every request is answered, with the jobs from the last one on, then with [Drained]. *)
Record books l jobs : Prop := {
  se_jobs : DOCUMENTS = jobs ++ reverse (jobs_of (nexts (told l).*2));
  se_drained : Drained ∈ nexts (told l).*2 → jobs = [];
  se_answers : (told l).*1 = askers (messages (incomings l));
  se_nexts : (told l).*2 = NextMsg <$> nexts (told l).*2;
}.
Record settled l jobs : Prop := {
  se_books : books l jobs;
  se_silent : all_printed l = [];
}.

(** The workers are spawned and watched. *)
Record hired self l (kids : list ActorRef) : Prop := {
  hi_kids : children l = kids;
  hi_spawned : ∀ act config b, EDid (ASpawn act config b) ∈ l → act = Worker self ∧ config = worker_config;
  hi_watched : watched_by l = actor_id <$> kids;
  hi_restarts : ERestarting ∉ l;
}.

Definition gone l : nat := length (signals (incomings l)).
Definition tells r n : list Event := [EDid (ATell r (NextMsg n))].

Inductive managing self : list Event → Phase → Prop :=
  | managing_hire l kids n : hired self l kids → settled l DOCUMENTS → gone l = 0%nat → (length kids + n)%nat = WORKERS →
      managing self l (Initializing (hire self n))
  | managing_watch l kids n b : hired self l kids → settled l DOCUMENTS → gone l = 0%nat → (length kids + S n)%nat = WORKERS →
      managing self (l ++ [EDid (ASpawn (Worker self) worker_config b)]) (Initializing (HWatch b (hire self n)))
  | managing_next l kids jobs up : hired self l kids → length kids = WORKERS → settled l jobs → (gone l < WORKERS)%nat →
      managing self l (NextIncoming (Managing jobs (WORKERS - gone l)) up)
  | managing_tell l kids r n jobs up : hired self l kids → length kids = WORKERS → settled (l ++ tells r n) jobs → (gone l < WORKERS)%nat →
      managing self l (Receiving (HTell r (NextMsg n) (HReturn (Ok (Continue (Managing jobs (WORKERS - gone l)))))) up)
  | managing_continue l kids jobs up : hired self l kids → length kids = WORKERS → settled l jobs → (gone l < WORKERS)%nat →
      managing self l (Receiving (HReturn (Ok (Continue (Managing jobs (WORKERS - gone l))))) up)
  | managing_print l kids jobs up : hired self l kids → length kids = WORKERS → settled l jobs → gone l = WORKERS →
      managing self l (Receiving (HAwait AllProcessed (λ _, HReturn (Ok Actor.Stop))) up)
  | managing_printed l kids jobs up : hired self l kids → length kids = WORKERS → settled l jobs → gone l = WORKERS →
      managing self (l ++ [EAnswered AllProcessed ()]) (Receiving (HReturn (Ok Actor.Stop)) up)
  | managing_done l kids jobs p : hired self l kids → length kids = WORKERS → settled l jobs → gone l = WORKERS → running p = false →
      managing self (l ++ [EAnswered AllProcessed ()]) p
  | managing_stopped l p p' : managing self l p → running p = true → running p' = false → managing self (l ++ [EStopped]) p'.

Definition manager_gets (i : Incoming) : Prop :=
  match i with Message (RequestJob r into) => into = NextMsg | Message (NextMsg _) => False | Terminated _ => True end.

Lemma managing_ended self l p p' : managing self l p → running p = false → running p' = false → managing self l p'.
Proof. destruct 1; simpl; intros; try done; [by eapply managing_done|by eapply managing_stopped]. Qed.
Lemma managing_sound self l p : managing self l p → panicked p = false.
Proof. destruct 1 as [? ? n| | | | | | |? ? ? p|? ? p]; try done; [by destruct n|by destruct p..]. Qed.

Lemma pop_snoc {X} (xs : list X) x : pop (xs ++ [x]) = Some (x, xs).
Proof. induction xs as [|y xs IH]; [done|]. simpl. by rewrite IH. Qed.

(** Receiving and printing leave the workers hired. *)
Lemma hired_more self l l' kids :
  hired self l kids → children l' = [] → watched_by l' = [] → (∀ act config b, EDid (ASpawn act config b) ∉ l') →
  ERestarting ∉ l' → hired self (l ++ l') kids.
Proof.
  intros [H1 H2 H3 H4] H1' H3' H2' H4'. split.
  - by rewrite spawns_app, H1', app_nil_r.
  - intros act config b [Hin|Hin]%elem_of_app; [by eapply H2|by destruct (H2' _ _ _ Hin)].
  - by rewrite watched_by_app, H3', app_nil_r.
  - rewrite elem_of_app. by intros [?|?].
Qed.
Lemma hired_one self l e kids :
  hired self l kids → match e with EDid (ATell _ _) | EReceived _ | EAnswered _ _ | EStopped => True | _ => False end →
  hired self (l ++ [e]) kids.
Proof.
  intros Hh He. apply hired_more; [done|..]; [by destruct e as [|[]| | |]..|intros ??? ?%list_elem_of_singleton; by subst|].
  intros ?%list_elem_of_singleton. by subst.
Qed.

(** What leaves the books as they are. *)
Lemma books_same l l' jobs :
  books l jobs → told l' = [] → askers (messages (incomings l')) = [] → books (l ++ l') jobs.
Proof.
  intros [H1 H2 H3 H4] Ht Ha.
  split; rewrite ?told_app, ?incomings_app, ?messages_app, ?askers_app, ?Ht, ?Ha, ?app_nil_r; done.
Qed.
Lemma settled_same l l' jobs :
  settled l jobs → told l' = [] → askers (messages (incomings l')) = [] → all_printed l' = [] → settled (l ++ l') jobs.
Proof. intros [Hb Hs] Ht Ha Hp. split; [by apply books_same|by rewrite all_printed_app, Hs, Hp]. Qed.

(** A request is answered with the last job left. *)
Lemma settled_answer l jobs r n jobs' :
  settled l jobs →
  match pop jobs with Some (d, js) => n = Job d ∧ jobs' = js | None => n = Drained ∧ jobs' = jobs end →
  settled ((l ++ [EReceived (Message (RequestJob r NextMsg))]) ++ tells r n) jobs'.
Proof.
  intros [[H1 H2 H3 H4] H5] Hpop. split; [|by rewrite !all_printed_app, H5].
  split; rewrite ?told_app, ?incomings_app, ?messages_app, ?askers_app, ?all_printed_app, ?fmap_app, ?nexts_app, ?jobs_of_app; simpl;
    rewrite ?app_nil_r.
  - destruct jobs as [|d js _] using rev_ind; simpl in Hpop; [destruct Hpop as [-> ->]; by rewrite app_nil_r|].
    rewrite pop_snoc in Hpop. destruct Hpop as [-> ->]. simpl. rewrite reverse_snoc. by rewrite <-(assoc_L (++)) in H1.
  - rewrite elem_of_app. destruct jobs as [|d js _] using rev_ind; simpl in Hpop; [by destruct Hpop as [-> ->]|].
    rewrite pop_snoc in Hpop. destruct Hpop as [-> ->]. intros [Hin|Hin%list_elem_of_singleton]; [|done].
    apply H2 in Hin. by destruct js.
  - by rewrite H3.
  - by rewrite fmap_app, H4 at 1.
Qed.

Lemma gone_app l l' : gone (l ++ l') = (gone l + gone l')%nat.
Proof. unfold gone. by rewrite incomings_app, signals_app, length_app. Qed.

Lemma managing_receive self l kids jobs i up :
  hired self l kids → length kids = WORKERS → settled l jobs → (gone l < WORKERS)%nat → manager_gets i →
  managing self (l ++ [EReceived i]) (Receiving (receive Manager self i (Managing jobs (WORKERS - gone l))) up).
Proof.
  intros Hh Hk Hs Hg Hi. assert (hired self (l ++ [EReceived i]) kids) as Hh' by (by apply hired_one).
  destruct i as [[r into|]|b]; [simpl in Hi; subst into|done|].
  - assert (gone (l ++ [EReceived (Message (RequestJob r NextMsg))]) = gone l) as Hg' by (rewrite gone_app; apply Nat.add_0_r).
    change (receive Manager self (Message (RequestJob r NextMsg)) (Managing jobs (WORKERS - gone l))) with
      (manager_receive (Message (RequestJob r NextMsg)) (Managing jobs (WORKERS - gone l))).
    pose proof (λ n jobs', settled_answer l jobs r n jobs' Hs) as Hans. rewrite <-Hg'. rewrite <-Hg' in Hg. unfold manager_receive.
    destruct (pop jobs) as [[d js]|]; by eapply managing_tell; [| |apply Hans| ].
  - assert (gone (l ++ [EReceived (Terminated b)]) = S (gone l)) as Hg' by (rewrite gone_app; apply Nat.add_1_r).
    assert (settled (l ++ [EReceived (Terminated b)]) jobs) as Hs' by (by apply settled_same).
    change (receive Manager self (Terminated b) (Managing jobs (WORKERS - gone l))) with
      (manager_receive (Terminated b) (Managing jobs (WORKERS - gone l))).
    destruct (WORKERS - gone l)%nat as [|n] eqn:Hn; [lia|]. simpl.
    case_decide as Hpos.
    + assert (n = WORKERS - gone (l ++ [EReceived (Terminated b)]))%nat as -> by lia. eapply managing_continue; [done..|lia].
    + eapply managing_print; [done..|lia].
Qed.

Lemma thread_managing self l p :
  thread Manager self l p → (∀ i, EReceived i ∈ l → manager_gets i) → managing self l p.
Proof.
  induction 1 as [|l p e p' _ IH Hstep]; intros Hgets.
  { apply (managing_hire _ _ []); [|split; [split; try done; by intros ?%elem_of_nil|done]|done|done].
    split; [done|by intros ??? ?%elem_of_nil|done|apply not_elem_of_nil]. }
  assert (managing self l p) as Hw by (apply IH; intros i Hi; apply Hgets, elem_of_app; by left). clear IH.
  assert (∀ i, EReceived i ∈ e → manager_gets i) as He by (intros i Hi; apply Hgets, elem_of_app; by right). clear Hgets.
  destruct (running p) eqn:Hrun; last first.
  { destruct (ended_step _ _ _ _ _ Hstep Hrun) as [-> Hrun']. rewrite app_nil_r. by eapply managing_ended. }
  inversion Hstep; subst; try (by eapply managing_stopped); inversion Hw; subst; try done; rewrite ?app_nil_r;
    try match goal with H : acts _ _ _ |- _ => apply acts_inv in H; cbn -[hire WORKERS] in H; open_all; simplify_eq end; try done.
  - destruct n as [|n]; [done|]. simpl in *. open_all. simplify_eq. by apply (managing_watch _ _ kids).
  - rewrite <-(assoc_L (++)). simpl. apply (managing_hire _ _ (kids ++ [b])).
    + match goal with H : hired _ _ _ |- _ => destruct H as [K1 K2 K3 K4] end. split.
      * by rewrite spawns_app, K1.
      * intros act config b' [Hin|Hin]%elem_of_app; [by eapply K2|]. rewrite !elem_of_cons in Hin.
        destruct Hin as [Hin|[Hin|Hin%elem_of_nil]]; by simplify_eq.
      * by rewrite watched_by_app, K3, fmap_app.
      * rewrite elem_of_app, !elem_of_cons. by intros [?|[?|[?|?%elem_of_nil]]].
    + by apply settled_same.
    + rewrite gone_app. change (gone l0 + 0 = 0)%nat. lia.
    + rewrite length_app. simpl. lia.
  - destruct n; [|done]. rewrite Nat.add_0_r in *.
    match goal with H : hire _ 0 = _ |- _ => injection H as <- end.
    match goal with H : gone l = 0%nat |- _ => rename H into Hg end.
    pose proof (managing_next self l kids DOCUMENTS now ltac:(done) ltac:(done) ltac:(done)) as Hm. rewrite Hg in Hm. apply Hm. unfold WORKERS. lia.
  - by destruct n.
  - by eapply managing_receive; [..|apply He; left].
  - match goal with H : settled _ _ |- _ => rename H into Hs end. fold (tells r n) in *.
    assert (gone (l ++ tells r n) = gone l) as Hg by (rewrite gone_app; apply Nat.add_0_r). rewrite <-Hg in *.
    eapply (managing_continue _ _ kids); [by apply hired_one|done..].
  - match goal with x : printed_answer _ |- _ => destruct x end. by eapply managing_printed.
  - by eapply managing_next.
  - by eapply managing_done.
Qed.

(** ** The system *)

Section System.
Context {F : Flume} {FL : FlumeLaws F} {TW : TokioWatch} {TL : TokioWatchLaws TW}.
Context {TO : TokioOneshot} {TOL : TokioOneshotLaws TO}.
Context (id wid : ActorId) (ids : id ≠ wid).
#[local] Abbreviation World := (World (M:=Msg) (B:=Example) (S:=State) (E:=Nothing) (Rq:=Println) (An:=printed_answer)).
#[local] Abbreviation Histories := (Histories (M:=Msg) (B:=Example) (Rq:=Println) (An:=printed_answer)).
#[local] Abbreviation Obs := (Obs (M:=Msg)).
#[local] Abbreviation Label := (Label (M:=Msg) (An:=printed_answer)).
#[local] Abbreviation manager := (mk_ref id).
Implicit Types (w : World) (t : list Obs) (h : Histories) (a : ActorId).

(** [ActorSystem::new(Manager)]; [main] tells nothing. *)
Definition manager_system : World := system_new id wid Manager default_config.
#[local] Abbreviation runs := (runs inside manager_system).

(** Who runs what, and gets what. *)
Definition cast a (act : Example) (config : ActorConfig) : Prop :=
  if decide (a = id) then act = Manager ∧ config = default_config else act = Worker manager ∧ config = worker_config.
Definition gets a (i : Incoming) : Prop :=
  if decide (a = id) then
    match i with Message (RequestJob r into) => into = NextMsg ∧ actor_id r ≠ id | Message (NextMsg _) => False | Terminated _ => True end
  else worker_gets i.

Lemma gets_manager i : gets id i → manager_gets i.
Proof. unfold gets. rewrite decide_True by done. destruct i as [[]|]; simpl; naive_solver. Qed.

Lemma elem_of_told a m l : (a, m) ∈ told l ↔ SSent a m ∈ omap seen l.
Proof.
  unfold told. rewrite !list_elem_of_omap. split; intros (e & He & Heq); exists e; (split; [done|]).
  - by destruct (seen e) as [[]|]; simplify_eq/=.
  - by rewrite Heq.
Qed.
Lemma sends_told a l : sends a l = (filter (λ x, x.1 = a) (told l)).*2.
Proof.
  unfold sends, told. induction l as [|e l IH]; [done|]. simpl. destruct (seen e) as [[]|]; simpl; try exact IH.
  rewrite filter_cons. simpl. case_decide; simpl; [f_equal|]; exact IH.
Qed.

Lemma length_sends a l : length (sends a l) = times a (told l).*1.
Proof.
  rewrite sends_told, length_fmap. induction (told l) as [|x k IH]; [done|]. rewrite fmap_cons, times_cons, filter_cons.
  case_decide; simpl; by rewrite IH.
Qed.

(** The manager's messages are jobs and [Drained], to those which have asked. *)
Lemma managing_told self l p a m :
  managing self l p → (a, m) ∈ told l → (∃ n, m = NextMsg n) ∧ a ∈ askers (messages (incomings l)).
Proof.
  intros Hm. assert (∀ l jobs, settled l jobs → (a, m) ∈ told l → (∃ n, m = NextMsg n) ∧ a ∈ askers (messages (incomings l))) as Hs.
  { intros k jobs [[_ _ H3 H4] _] Hin. split.
    - assert (m ∈ (told k).*2) as Hm' by (apply list_elem_of_fmap; by exists (a, m)). rewrite H4 in Hm'.
      apply list_elem_of_fmap in Hm' as (n & -> & _). eauto.
    - rewrite <-H3. apply list_elem_of_fmap. by exists (a, m). }
  assert (∀ l e, e = EStopped ∨ e = EAnswered AllProcessed () ∨ (∃ b, e = EDid (ASpawn (Worker self) worker_config b)) →
    told (l ++ [e]) = told l ∧ askers (messages (incomings (l ++ [e]))) = askers (messages (incomings l))) as Hmore.
  { intros k e He. rewrite told_app, incomings_app, messages_app, askers_app.
    destruct He as [->|[->|[b ->]]]; simpl; by rewrite !app_nil_r. }
  induction Hm as [| | |? ? r n ? ? ? ? Hset| | | | |l p p' _ IH]; try (by eapply Hs).
  - destruct (Hmore l (EDid (ASpawn (Worker self) worker_config b))) as [-> ->]; [eauto|by eapply Hs].
  - intros Hin. destruct (Hs _ _ Hset) as [Hn Ha]; [rewrite told_app; apply elem_of_app; by left|].
    rewrite incomings_app, messages_app, askers_app in Ha. simpl in Ha. by rewrite app_nil_r in Ha.
  - destruct (Hmore l (EAnswered AllProcessed ())) as [-> ->]; [auto|by eapply Hs].
  - destruct (Hmore l (EAnswered AllProcessed ())) as [-> ->]; [auto|by eapply Hs].
  - destruct (Hmore l EStopped) as [-> ->]; [auto|done].
Qed.

Lemma managing_telling self l p r m :
  managing self l p → telling p r m → ∃ n jobs, settled (l ++ tells r n) jobs.
Proof.
  destruct 1 as [? ? n| | |? ? ? n jobs ? ? ? Hs| | | |? ? ? p|? ? p]; try done; [by destruct n|intros [<- _]; eauto|by destruct p..].
Qed.

(** The manager is over once it has printed, which it has if it has ended by itself. *)
Lemma managing_over self l p :
  managing self l p → all_printed l ≠ [] →
  ∃ jobs, hired self l (children l) ∧ length (children l) = WORKERS ∧ books l jobs ∧ gone l = WORKERS.
Proof.
  intros Hm.
  assert (∀ l kids jobs e, hired self l kids → length kids = WORKERS → books l jobs → gone l = WORKERS →
    e = EAnswered AllProcessed () ∨ e = EStopped →
    ∃ jobs, hired self (l ++ [e]) (children (l ++ [e])) ∧ length (children (l ++ [e])) = WORKERS ∧ books (l ++ [e]) jobs ∧ gone (l ++ [e]) = WORKERS)
    as Hmore.
  { intros k kids jobs e Hh Hk Hb Hg He. assert (hired self (k ++ [e]) kids) as Hh'.
    { apply hired_one; [done|]. by destruct He as [->| ->]. }
    exists jobs. rewrite (hi_kids _ _ _ Hh'), gone_app. split_and!; [done|done| |].
    - apply books_same; [done|..]; by destruct He as [->| ->].
    - destruct He as [->| ->]; change (gone k + 0 = WORKERS)%nat; lia. }
  induction Hm as [? ? ? ? [_ Hs]|? ? ? ? ? [_ Hs]|? ? ? ? ? ? [_ Hs]|? ? ? ? ? ? ? ? [_ Hs]|? ? ? ? ? ? [_ Hs]|? ? ? ? ? ? [_ Hs]|? ? ? ? ? ? [Hb _]|? ? ? ? ? ? [Hb _]|l p p' _ IH];
    rewrite ?all_printed_app; intros Hp.
  1,3,5,6: by rewrite Hs in Hp.
  1: by rewrite Hs in Hp.
  1: { rewrite all_printed_app in Hs. by destruct (all_printed l). }
  1,2: eapply Hmore; by eauto.
  rewrite app_nil_r in Hp. destruct (IH Hp) as (jobs & Hh & Hk & Hb & Hg). eapply Hmore; by eauto.
Qed.

Lemma managing_end self l p : managing self l p → running p = false → EStopped ∈ l ∨ all_printed l ≠ [].
Proof.
  destruct 1; try done; intros _; [right; rewrite all_printed_app; by destruct (all_printed l)|].
  left. apply elem_of_app. right. by left.
Qed.

Lemma managing_over_phase self l p :
  managing self l p → all_printed l ≠ [] → running p = false ∨ ∃ up, p = Receiving (HReturn (Ok Actor.Stop)) up.
Proof.
  intros Hm Hp. destruct Hm as [? ? ? ? [_ Hs]|? ? ? ? ? [_ Hs]|? ? ? ? ? ? [_ Hs]|? ? ? ? ? ? ? ? [_ Hs]|? ? ? ? ? ? [_ Hs]|? ? ? ? ? ? [_ Hs]| | |]; eauto.
  all: rewrite ?all_printed_app, ?Hs in *; try done. by destruct (all_printed l).
Qed.

(** The manager's children are workers, spawned before they are watched. *)
Lemma managing_children self l p :
  managing self l p →
  (∀ act config b, EDid (ASpawn act config b) ∈ l → act = Worker self ∧ config = worker_config) ∧ ERestarting ∉ l.
Proof.
  intros Hm. assert (∀ l kids, hired self l kids →
    (∀ act config b, EDid (ASpawn act config b) ∈ l → act = Worker self ∧ config = worker_config) ∧ ERestarting ∉ l) as Hh.
  { by intros k kids [_ H2 _ H4]. }
  induction Hm as [| | | | | | | |l p p' _ [IH1 IH2]]; try (by eapply Hh).
  all: try (match goal with H : hired _ _ _ |- _ => destruct (Hh _ _ H) as [IH1 IH2] end).
  all: split; [intros act config b' [Hin|Hin%list_elem_of_singleton]%elem_of_app; [exact (IH1 _ _ _ Hin)|by simplify_eq]|].
  all: rewrite elem_of_app; by intros [?|?%list_elem_of_singleton].
Qed.

Lemma work_pulling_behaves : well_behaved id cast gets (λ _ _ _, True).
Proof.
  intros a act config l p Hcast Ht Hgets Hkids. unfold cast in Hcast. destruct (decide (a = id)) as [->|Ha].
  - destruct Hcast as [-> ->]. assert (managing manager l p) as Hm.
    { apply thread_managing; [done|]. intros i Hi. by apply gets_manager, Hgets. }
    split_and!.
    + intros act' config' child Hin. unfold cast. rewrite decide_False by (by eapply Hkids).
      by apply (proj1 (managing_children _ _ _ Hm)) in Hin.
    + intros to m Hin%elem_of_told. destruct (managing_told _ _ _ _ _ Hm Hin) as [[n ->] Hasked].
      apply list_elem_of_omap in Hasked as (x & (i & Hi & Hix)%list_elem_of_omap & Hx).
      apply list_elem_of_omap in Hi as (e & He & Hei). destruct x as [r into|]; simplify_eq/=. destruct i; simplify_eq/=.
      destruct e; simplify_eq/=. apply Hgets in He. unfold gets in *. rewrite decide_True in He by done.
      rewrite decide_False by (by destruct He). by exists n.
    + intros b _. unfold gets. by rewrite decide_True.
  - destruct Hcast as [-> ->].
    assert (∀ i, EReceived i ∈ l → worker_gets i) as Hgets' by (intros i Hi; apply Hgets in Hi; unfold gets in Hi; by rewrite decide_False in Hi).
    destruct (working_tally _ _ _ _ (thread_pulling _ _ _ _ Ht Hgets')) as (got & docs & n & [_ _ Htold Hkid Hwatch] & _). split_and!.
    + intros act' config' child Hin. assert (child ∈ children l) as Hc by (apply elem_of_children; eauto).
      rewrite Hkid in Hc. by apply elem_of_nil in Hc.
    + intros to m Hin%elem_of_told. rewrite Htold in Hin. apply elem_of_replicate in Hin as [[= -> ->] _].
      unfold gets. by rewrite decide_True.
    + intros b (e & He & Heq)%list_elem_of_omap. assert (b ∈ watched_by l) as Hb.
      { apply list_elem_of_omap. exists e. split; [done|]. by destruct e as [|[| ? ? ? []| | | |]| | |]; simplify_eq/=. }
      rewrite Hwatch in Hb. by apply elem_of_nil in Hb.
Qed.

Lemma pulling_protocol w t h : runs w t h → protocol_inv cast gets w t h.
Proof.
  intros Hr. eapply (runs_protocol id wid Manager default_config ids cast gets inside) with (who := λ _ _ _, True); [by intros to m []| |apply work_pulling_behaves|exact Hr|done].
  unfold cast. by rewrite decide_True.
Qed.

Lemma run_manager w t h : runs w t h → ∃ k, tasks w !! id = Some k ∧ t_config k = default_config ∧ managing manager (h id) (t_phase k).
Proof.
  intros Hr. pose proof (runs_threads _ _ _ _ ids _ _ _ _ Hr) as Hth. destruct (th_root _ _ _ _ _ _ Hth) as [p Hp].
  eexists. split; [exact Hp|]. split; [done|]. apply thread_managing; [apply (th_runs _ _ _ _ _ _ Hth _ _ Hp)|].
  intros i Hi. by apply gets_manager, (pr_received _ _ _ _ _ (pulling_protocol _ _ _ Hr)).
Qed.

Lemma pulling_worker w t h a :
  runs w t h → a ≠ id →
  h a = [] ∧ tasks w !! a = None ∨
  ∃ k, tasks w !! a = Some k ∧ t_config k = worker_config ∧ working (mk_ref a) manager (h a) (t_phase k).
Proof.
  intros Hr Ha. pose proof (runs_threads _ _ _ _ ids _ _ _ _ Hr) as Hth.
  destruct (tasks w !! a) as [k|] eqn:Hk; [right|left; split; [by apply (th_fresh _ _ _ _ _ _ Hth)|done]].
  exists k. split; [done|]. pose proof (pr_good _ _ _ _ _ (pulling_protocol _ _ _ Hr) _ _ Hk) as Hcast. unfold cast in Hcast.
  rewrite decide_False in Hcast by done. destruct Hcast as [Hact Hconf]. split; [done|].
  pose proof (th_runs _ _ _ _ _ _ Hth _ _ Hk) as Ht. rewrite Hact in Ht. apply thread_pulling; [done|].
  intros i Hi. apply (pr_received _ _ _ _ _ (pulling_protocol _ _ _ Hr)) in Hi. unfold gets in Hi. by rewrite decide_False in Hi.
Qed.

(** A worker has asked for at most one job more than it has got. *)
Lemma worker_tally w t h a :
  runs w t h → a ≠ id → ∃ got docs n, tally (mk_ref a) manager (h a) got docs n ∧ (n ≤ S (length got))%nat.
Proof.
  intros Hr Ha. destruct (pulling_worker _ _ _ _ Hr Ha) as [[-> _]|(k & _ & _ & Hw)]; [|by eapply working_tally].
  exists [], [], 0%nat. split; [done|lia].
Qed.

(** ** The accounts *)

Lemma askers_sublist (ms ms' : list Msg) : ms `sublist_of` ms' → askers ms `sublist_of` askers ms'.
Proof. induction 1 as [|[] ms ms' _ IH|[] ms ms' _ IH]; simpl; try done; by constructor. Qed.
Section Accounts.
Context w t h (Hr : runs w t h).
Let Hth := runs_threads _ _ _ _ ids _ _ _ _ Hr.
Let Hown := runs_history id wid Manager default_config ids inside w t h Hr.
Let Hmanager := run_manager w t h Hr.

Lemma manager_tells a m : (a, m) ∈ told (h id) → a ≠ id ∧ ∃ n, m = NextMsg n.
Proof.
  intros Hin. destruct Hmanager as (k & _ & _ & Hm). destruct (managing_told _ _ _ _ _ Hm Hin) as [Hn Hasked]. split; [|done].
  apply list_elem_of_omap in Hasked as (x & (i & Hi & Hix)%list_elem_of_omap & Hx).
  apply list_elem_of_omap in Hi as (e & He & Hei). destruct x as [r into|]; simplify_eq/=. destruct i; simplify_eq/=.
  destruct e; simplify_eq/=. apply (pr_received _ _ _ _ _ (pulling_protocol _ _ _ Hr)) in He. unfold gets in He.
  rewrite decide_True in He by done. by destruct He.
Qed.

Lemma worker_told (x : ActorId) a m : x ≠ id → (a, m) ∈ told (h x) → a = id ∧ m = RequestJob (mk_ref x) NextMsg.
Proof.
  intros Hx Hin. destruct (worker_tally _ _ _ x Hr Hx) as (got & docs & n & Ht & _). rewrite (ta_told _ _ _ _ _ _ Ht) in Hin.
  by apply elem_of_replicate in Hin as [[= -> ->] _].
Qed.

Lemma enqueued_by a src m : (src, m) ∈ with_sources (enqueued a t) → ∃ x, src = FromActor x ∧ (a, m) ∈ told (h x).
Proof.
  intros Hin%elem_of_with_sources.
  destruct src as [x|]; [|by destruct (runs_sources _ _ _ _ _ _ _ _ (inside_tells _) Hr Hin)].
  exists x. split; [done|]. apply elem_of_told. rewrite Hown. by apply enqueued_own.
Qed.

(** Of requests of [b], the manager receives at most those which [b] has made. *)
Lemma asked_bounded (b : ActorId) got docs n :
  b ≠ id → tally (mk_ref b) manager (h b) got docs n → (times b (askers (messages (incomings (h id)))) ≤ n)%nat.
Proof.
  intros Hb Ht. assert (length (sends id (h b)) = n) as <-.
  { rewrite sends_told, (ta_told _ _ _ _ _ _ Ht), length_fmap. clear. induction n as [|n IH]; [done|].
    simpl. rewrite filter_cons. simpl. rewrite decide_True by done. simpl. f_equal. exact IH. }
  rewrite <-(sublist_length _ _ (enqueued_sends id b t (h b) (Hown b))), length_fmap.
  destruct (runs_ends _ _ _ _ ids _ _ _ _ Hr) as (Htr & _ & _). destruct Hmanager as (k & (c & Hc & _)%tasks_lookup & _).
  destruct (incomings_dequeued id t (h id) (Hown id)) as [Hsub _].
  rewrite <-(taken_dequeued w t id c), <-with_sources_messages in Hsub by done.
  etrans; [apply times_sublist, askers_sublist; etrans; [exact Hsub|]|].
  { assert (with_sources (taken id t) `sublist_of` with_sources (enqueued id t)) as Hs.
    { rewrite <-(take_drop (length (dequeued id t)) (enqueued id t)). rewrite with_sources_app. by apply sublist_inserts_r. }
    exact (fmap_sublist snd _ _ Hs). }
  assert (∀ x, x ∈ with_sources (enqueued id t) → b ∈ askers [x.2] → x.1 = FromActor b) as Hall.
  { intros [src m] Hin Hask. destruct (enqueued_by _ _ _ Hin) as (x & -> & Htold). simpl in *.
    destruct (decide (x = id)) as [->|Hx]; [by destruct (manager_tells _ _ Htold)|].
    destruct (worker_told _ _ _ Hx Htold) as [_ ->]. simpl in Hask. by apply list_elem_of_singleton in Hask as ->. }
  induction (with_sources (enqueued id t)) as [|x l IH]; [done|].
  change (askers (x :: l).*2) with (askers ([x.2] ++ l.*2)). rewrite askers_app, times_app, filter_cons.
  assert (∀ y, y ∈ l → b ∈ askers [y.2] → y.1 = FromActor b) as Hl by (intros y Hy; apply Hall; by right).
  specialize (IH Hl). assert (b ∈ askers [x.2] → x.1 = FromActor b) as Hx by (apply Hall; left). clear Hall Hl.
  destruct x as [src [r into|n]].
  - change (askers [(src, RequestJob r into).2]) with [actor_id r] in *. rewrite times_cons, times_nil. simpl in *.
    case_decide as Hrb; [|case_decide; simpl; lia]. rewrite decide_True by (apply Hx; by rewrite Hrb; left). simpl. lia.
  - change (askers [(src, NextMsg n).2]) with ([] : list ActorId) in *. rewrite times_nil. case_decide; simpl; lia.
Qed.

(** What is put into a worker's mailbox, and so what it gets, is what the manager tells it, in this order. *)
Lemma enqueued_told (b : ActorId) : b ≠ id → messages (enqueued b t).*2 `sublist_of` sends b (h id).
Proof.
  intros Hb. rewrite <-with_sources_messages, <-(enqueued_sends b id t (h id) (Hown id)).
  assert (∀ x, x ∈ with_sources (enqueued b t) → x.1 = FromActor id) as Hall.
  { intros [src m] Hin. destruct (enqueued_by _ _ _ Hin) as (x & -> & Htold). simpl.
    destruct (decide (x = id)) as [->|Hx]; [done|]. by destruct (worker_told _ _ _ Hx Htold). }
  induction (with_sources (enqueued b t)) as [|x l IH]; [done|]. rewrite filter_cons, decide_True by (apply Hall; left).
  simpl. constructor. apply IH. intros y Hy. apply Hall. by right.
Qed.

Lemma got_told (b : ActorId) got docs n :
  b ≠ id → tally (mk_ref b) manager (h b) got docs n →
  (NextMsg <$> got) `sublist_of` sends b (h id) ∧
  ∀ c, cells w !! b = Some c → (length (messages (mqueue (mailbox c))) + length got ≤ length (sends b (h id)))%nat.
Proof.
  intros Hb Ht. destruct (runs_ends _ _ _ _ ids _ _ _ _ Hr) as (Htr & _ & _).
  destruct (incomings_dequeued b t (h b) (Hown b)) as [Hsub _]. rewrite (ta_got _ _ _ _ _ _ Ht) in Hsub.
  pose proof (enqueued_told b Hb) as Henq.
  assert (∀ c, cells w !! b = Some c → messages (enqueued b t).*2 = messages (dequeued b t) ++ messages (mqueue (mailbox c))) as Hfifo.
  { intros c Hc. by rewrite (tr_fifo _ _ Htr _ _ Hc), messages_app. }
  split.
  - destruct (pulling_worker _ _ _ b Hr Hb) as [[Hnil _]|(k & (c & Hc & _)%tasks_lookup & _)].
    + assert (NextMsg <$> got = []) as ->; [|apply sublist_nil_l]. by rewrite <-(ta_got _ _ _ _ _ _ Ht), Hnil.
    + rewrite (Hfifo c Hc) in Henq. etrans; [exact Hsub|]. etrans; [|exact Henq]. by apply sublist_inserts_r.
  - intros c Hc. rewrite (Hfifo c Hc) in Henq. apply sublist_length in Henq, Hsub. rewrite length_app in Henq.
    rewrite length_fmap in Hsub. lia.
Qed.

(** Workers are children of the manager, and not told to stop while it runs. *)
Lemma worker_spawned (b : ActorId) k :
  tasks w !! b = Some k → b ≠ id →
  EDid (ASpawn (Worker manager) worker_config (mk_ref b)) ∈ h id ∧ ∃ g, t_parent k = ContextKey id g.
Proof.
  intros Hb Hne. destruct (th_spawned _ _ _ _ _ _ Hth _ _ Hb Hne) as (a & g & Hin & Hpar).
  destruct (decide (a = id)) as [->|Ha].
  - destruct Hmanager as (km & _ & _ & Hm). pose proof Hin as Hsp. apply (proj1 (managing_children _ _ _ Hm)) in Hsp as [<- <-]. eauto.
  - destruct (worker_tally _ _ _ a Hr Ha) as (got & docs & n & Ht & _).
    assert (mk_ref b ∈ children (h a)) as Hc by (apply elem_of_children; eauto). rewrite (ta_kids _ _ _ _ _ _ Ht) in Hc.
    by apply elem_of_nil in Hc.
Qed.

Lemma worker_not_told (b : ActorId) k km :
  tasks w !! id = Some km → running (t_phase km) = true → tasks w !! b = Some k → b ≠ id → EStopped ∉ h b.
Proof.
  intros Hkm Hrun Hb Hne. destruct (worker_spawned b k Hb Hne) as (_ & g & Hpar).
  destruct Hmanager as (km' & Hkm' & _ & Hm). simplify_eq.
  eapply (not_told_to_stop _ _ _ _ ids _ _ _ _ Hr id km b k g); [done..| |done|done].
  by apply (managing_children _ _ _ Hm).
Qed.

(** The worker the manager is about to tell its next job runs, and its mailbox has room. *)
Lemma room_for_job km r m :
  tasks w !! id = Some km → telling (t_phase km) r m →
  ∃ c, cells w !! actor_id r = Some c ∧ running (phase c) = true ∧ config c = worker_config ∧
    messages (mqueue (mailbox c)) = [].
Proof.
  intros Hkm Htell. destruct Hmanager as (km' & Hkm' & _ & Hm). simplify_eq.
  assert (running (t_phase km) = true) as Hrun by (by destruct (t_phase km)).
  destruct (managing_telling _ _ _ _ _ Hm Htell) as (n & jobs & Hset).
  set (b := actor_id r). pose proof (se_answers _ _ (se_books _ _ Hset)) as Hans.
  rewrite told_app, incomings_app, messages_app, fmap_app, askers_app in Hans. simpl in Hans. rewrite app_nil_r in Hans. fold b in Hans.
  assert (b ≠ id) as Hb.
  { assert (b ∈ askers (messages (incomings (h id)))) as Hask by (rewrite <-Hans; apply elem_of_app; right; by left).
    apply list_elem_of_omap in Hask as (x & (i & Hi & Hix)%list_elem_of_omap & Hx).
    apply list_elem_of_omap in Hi as (e & He & Hei). destruct x as [r' into|]; simplify_eq/=. destruct i; simplify_eq/=.
    destruct e; simplify_eq/=. apply (pr_received _ _ _ _ _ (pulling_protocol _ _ _ Hr)) in He. unfold gets in He.
    rewrite decide_True in He by done. destruct He. congruence. }
  destruct (worker_tally _ _ _ b Hr Hb) as (got & docs & n' & Ht & Hn').
  pose proof (asked_bounded b got docs n' Hb Ht) as Hask. rewrite <-Hans, times_app, times_cons, times_nil, decide_True in Hask by done.
  destruct (got_told b got docs n' Hb Ht) as [Hsub Hroom].
  apply sublist_length in Hsub. rewrite length_fmap, length_sends in Hsub.
  destruct (pulling_worker _ _ _ b Hr Hb) as [[Hnil _]|(k & Hk & Hconf & Hw)].
  { exfalso. pose proof (ta_told _ _ _ _ _ _ Ht) as Htold. rewrite Hnil in Htold. destruct n'; [lia|done]. }
  pose proof Hk as (c & Hc & Hck)%tasks_lookup. exists c. subst k. split_and!; [done| |done|].
  - destruct (running (phase c)) eqn:Hend; [done|]. exfalso.
    pose proof (worker_not_told b _ _ Hkm Hrun Hk Hb) as Hno.
    destruct (working_ended_itself _ _ _ _ Hw Hend Hno) as (docs' & Ht').
    destruct (tally_unique _ _ _ _ _ _ _ _ _ Ht Ht') as (-> & _ & ->).
    rewrite length_app, length_fmap in *. simpl in *. lia.
  - destruct (messages (mqueue (mailbox c))) as [|m' ms] eqn:Hq; [done|]. specialize (Hroom c Hc). rewrite Hq, length_sends in Hroom. simpl in Hroom. lia.
Qed.

Definition job_of (x : ActorId * Msg) : option Document := match x.2 with NextMsg (Job d) => Some d | _ => None end.

Lemma jobs_told (l : list (ActorId * Msg)) : jobs_of (nexts l.*2) = omap job_of l.
Proof.
  induction l as [|[a [r into|[d|]]] l IH]; [done|exact IH| |exact IH]. unfold jobs_of, nexts in *. simpl. f_equal. exact IH.
Qed.

(** What is told is what each is told. *)
Lemma told_by_target (bs : list ActorId) (l : list (ActorId * Msg)) :
  NoDup bs → (∀ x, x ∈ l → x.1 ∈ bs) → omap job_of l ≡ₚ bs ≫= λ a, omap job_of (filter (λ x, x.1 = a) l).
Proof.
  intros Hnd. revert l. induction Hnd as [|a bs Ha Hnd IH]; intros l Hl.
  - destruct l as [|x l]; [done|]. specialize (Hl x). rewrite elem_of_nil in Hl. destruct Hl. by left.
  - simpl. rewrite <-(filter_app_complement (λ x, x.1 = a) l) at 1. rewrite omap_app. apply Permutation_app_head.
    rewrite IH.
    + erewrite Forall_bind_ext; [done|]. apply Forall_forall. intros b Hb.
      rewrite list_filter_filter_l; [done|]. intros x Hx Hxa. congruence.
    + intros x [Hxa Hx]%list_elem_of_filter. apply Hl in Hx. apply elem_of_cons in Hx as [?|?]; done.
Qed.

(** All documents have been processed once the manager prints so. *)
Lemma documents_processed km :
  tasks w !! id = Some km → running (t_phase km) = true → all_printed (h id) ≠ [] →
  (∀ b, b ∈ children (h id) → ∃ k, tasks w !! actor_id b = Some k ∧ running (t_phase k) = false) ∧
  children (h id) ≫= (λ b, processed (h (actor_id b))) ≡ₚ DOCUMENTS.
Proof.
  intros Hkm Hrun Hp. destruct Hmanager as (km' & Hkm' & _ & Hm). simplify_eq.
  destruct (managing_over _ _ _ Hm Hp) as (jobs & Hh & Hk & Hb & Hg).
  assert (NoDup (actor_id <$> children (h id))) as Hnd by (rewrite <-children_spawned; apply (th_once _ _ _ _ _ _ Hth)).
  pose proof (all_signaled _ _ _ _ ids _ _ _ _ Hr id) as Hall. rewrite (hi_watched _ _ _ Hh), length_fmap in Hall.
  unfold gone in Hg. rewrite Hg, Hk in Hall. specialize (Hall Hnd (le_n _)).
  pose proof Hkm as (cm & Hcm & Hcmk)%tasks_lookup. subst km.
  assert (∀ b, b ∈ children (h id) → ∃ k docs, tasks w !! actor_id b = Some k ∧ running (t_phase k) = false ∧
            processed (h (actor_id b)) = docs ∧ sends (actor_id b) (h id) = NextMsg <$> ((Job <$> docs) ++ [Drained])) as Heach.
  { intros b Hin. pose proof Hin as (act & config & Hsp)%elem_of_children.
    assert (actor_id b ∈ signals (incomings (h id))) as Hsig by (rewrite Hall; apply list_elem_of_fmap; eauto).
    destruct (signaled_child _ _ _ _ ids _ _ _ _ Hr _ _ _ _ _ Hcm Hrun (hi_restarts _ _ _ Hh) Hsp Hsig) as (k & Hkb & Hend & Hno).
    destruct (th_children _ _ _ _ _ _ Hth _ _ _ _ Hsp) as (_ & _ & _ & Hne).
    destruct (pulling_worker _ _ _ _ Hr Hne) as [[_ ?]|(k' & Hk' & _ & Hw)]; [congruence|]. simplify_eq.
    destruct (working_ended_itself _ _ _ _ Hw Hend Hno) as (docs & Ht). exists k, docs. split_and!; [done|done|by apply (ta_docs _ _ _ _ _ _ Ht)|].
    pose proof (asked_bounded _ _ _ _ Hne Ht) as Hask. rewrite <-(se_answers _ _ Hb), <-length_sends in Hask.
    destruct (got_told _ _ _ _ Hne Ht) as [Hsub _]. symmetry. apply sublist_same; [done|].
    rewrite !length_fmap, length_app, length_fmap. simpl. lia. }
  split; [intros b Hin; destruct (Heach b Hin) as (k & docs & ? & ? & _); eauto|].
  assert (jobs = []) as ->.
  { apply (se_drained _ _ Hb). destruct (children (h id)) as [|b bs] eqn:Hc; [done|].
    destruct (Heach b (list_elem_of_here _ _)) as (k & docs & _ & _ & _ & Hsend).
    assert (NextMsg Drained ∈ sends (actor_id b) (h id)) as Hin.
    { rewrite Hsend. apply list_elem_of_fmap. exists Drained. split; [done|]. apply elem_of_app. right. by left. }
    rewrite sends_told in Hin. apply list_elem_of_fmap in Hin as (x & Hx & [_ Hin]%list_elem_of_filter).
    apply list_elem_of_omap. exists x.2. split; [by apply list_elem_of_fmap; eauto|by rewrite <-Hx]. }
  rewrite (se_jobs _ _ Hb). simpl. rewrite reverse_Permutation, jobs_told.
  rewrite (told_by_target _ _ Hnd).
  - erewrite (Forall_bind_ext (λ b, processed (h (actor_id b)))).
    + rewrite list_fmap_bind. reflexivity.
    + apply Forall_forall. intros b Hin. destruct (Heach b Hin) as (k & docs & _ & _ & -> & Hsend). unfold compose. rewrite <-jobs_told, <-sends_told, Hsend.
      clear. unfold nexts, jobs_of. induction docs as [|d docs IH]; [done|]. simpl. f_equal. exact IH.
  - intros [a m] Hin. destruct (manager_tells _ _ Hin) as [Ha _]. simpl.
    assert (a ∈ askers (messages (incomings (h id)))) as Hask.
    { rewrite <-(se_answers _ _ Hb). apply list_elem_of_fmap. by exists (a, m). }
    destruct (worker_tally _ _ _ a Hr Ha) as (got & docs & n & Ht & _).
    pose proof (asked_bounded _ _ _ _ Ha Ht) as Hle. apply times_elem in Hask.
    destruct (pulling_worker _ _ _ a Hr Ha) as [[Hnil _]|(k & Hka & _)].
    + pose proof (ta_told _ _ _ _ _ _ Ht) as Htold. rewrite Hnil in Htold. destruct n; [lia|done].
    + destruct (worker_spawned a k Hka Ha) as [Hsp _]. apply list_elem_of_fmap. exists (mk_ref a). split; [done|].
      apply elem_of_children. eauto.
Qed.
End Accounts.

(** ** Runs *)

Definition done_well w h : Prop :=
  all_printed (h id) ≠ [] →
  (∀ b, b ∈ children (h id) → ∃ k, tasks w !! actor_id b = Some k ∧ running (t_phase k) = false) ∧
  children (h id) ≫= (λ b, processed (h (actor_id b))) ≡ₚ DOCUMENTS.

Definition never_dropped t : Prop := ∀ src a m e, ODeadLetter src a m e ∈ t → a = id ∧ OStopRequested ∈ t.

(** The manager prints while it runs, and does nothing afterwards. *)
Lemma printing_step self p e p' l :
  managing self l p → thread_step Manager self p e p' →
  (all_printed e ≠ [] → running p' = true) ∧ (all_printed l ≠ [] → children e = []).
Proof.
  intros Hm Hs. split; [by destruct Hs|]. intros Hp.
  destruct (managing_over_phase _ _ _ Hm Hp) as [Hend|[up ->]]; [by destruct (ended_step _ _ _ _ _ Hs Hend) as [-> _]|].
  inversion Hs; subst; try done. by match goal with H : acts _ _ _ |- _ => apply acts_inv in H end.
Qed.

Lemma done_well_step w t h a e w' u ev p' :
  runs w t h → inside (M:=Msg) (LTask a e) → step (LTask a e) w = Some (w', u) → advances a w w' u ev p' →
  done_well w h → done_well w' (happened a ev h).
Proof.
  intros Hr Hal Hs Hadv Hdone Hp. pose proof (runs_threads _ _ _ _ ids _ _ _ _ Hr) as Hth.
  pose proof (runs_task _ _ _ _ _ _ _ _ _ _ _ Hr Hal Hs Hadv) as Hr'.
  destruct (advances_tasks _ _ _ _ _ _ Hadv) as (k & Hk & Hstep & _ & _ & Hkeep & Ha & _).
  destruct (run_manager _ _ _ Hr) as (km & Hkm & _ & Hm).
  assert (∀ b, b ∈ children (h id) → actor_id b ≠ id) as Hne.
  { intros b (act & config & Hsp)%elem_of_children. by destruct (th_children _ _ _ _ _ _ Hth _ _ _ _ Hsp) as (_ & _ & _ & Hne). }
  destruct (decide (a = id)) as [->|Hai].
  - simplify_eq. pose proof (pr_good _ _ _ _ _ (pulling_protocol _ _ _ Hr) _ _ Hk) as Hcast. unfold cast in Hcast.
    rewrite decide_True in Hcast by done. destruct Hcast as [Hact _]. rewrite Hact in Hstep.
    destruct (printing_step _ _ _ _ _ Hm Hstep) as [Hnew Hold].
    destruct (decide (all_printed (h id) = [])) as [Hnil|Hbefore].
    + eapply (documents_processed _ _ _ Hr'); [exact Ha| |exact Hp]. apply Hnew.
      rewrite happened_self, all_printed_app, Hnil in Hp. exact Hp.
    + destruct (Hdone Hbefore) as [Hended Hperm]. rewrite happened_self, spawns_app, (Hold Hbefore), app_nil_r. split.
      * intros b Hb. destruct (Hended b Hb) as (kb & Hkb & Hend). exists kb. split; [|done]. apply Hkeep; [by apply Hne|done].
      * rewrite <-Hperm. erewrite Forall_bind_ext; [done|]. apply Forall_forall. intros b Hb. by rewrite happened_other by (by apply Hne).
  - rewrite happened_other in Hp |- * by done. destruct (Hdone Hp) as [Hended Hperm].
    assert (∀ b, b ∈ children (h id) → actor_id b = a → ev = [] ∧ running p' = false) as Hnone.
    { intros b Hb <-. destruct (Hended b Hb) as (kb & Hkb & Hend). simplify_eq. by eapply ended_step. }
    split.
    + intros b Hb. destruct (Hended b Hb) as (kb & Hkb & Hend). destruct (decide (actor_id b = a)) as [Heq|Hba].
      * destruct (Hnone b Hb Heq) as [_ Hend']. rewrite Heq. eauto.
      * eauto.
    + rewrite <-Hperm. erewrite Forall_bind_ext; [done|]. apply Forall_forall. intros b Hb.
      destruct (decide (actor_id b = a)) as [Heq|Hba]; [|by rewrite happened_other].
      destruct (Hnone b Hb Heq) as [-> _]. by rewrite Heq, happened_self, app_nil_r.
Qed.

Lemma never_dropped_step w t h a e w' u ev p' :
  runs w t h → inside (M:=Msg) (LTask a e) → step (LTask a e) w = Some (w', u) → advances a w w' u ev p' →
  done_well w h → never_dropped t → never_dropped (t ++ u).
Proof.
  intros Hr Hal Hs Hadv Hdone Hnd src a' m er [Hin|Hin]%elem_of_app.
  { destruct (Hnd _ _ _ _ Hin). split; [done|]. apply elem_of_app. by left. }
  pose proof (runs_task _ _ _ _ _ _ _ _ _ _ _ Hr Hal Hs Hadv) as Hr'.
  destruct (advances_tasks _ _ _ _ _ _ Hadv) as (k & Hk & _ & _ & _ & Hkeep & _).
  destruct (task_step_dead _ _ _ _ _ _ _ _ _ Hs Hin) as (c & r & Hc & Htelling & <-).
  destruct (run_manager _ _ _ Hr) as (km & Hkm & Hconf & Hm).
  rewrite (lookup_tasks _ _ _ Hc) in Hk. injection Hk as <-.
  destruct (telling_tell _ _ _ _ _ _ _ _ Hc Htelling Hs) as [w1 Ht].
  destruct (decide (a = id)) as [->|Ha].
  - exfalso. destruct (room_for_job _ _ _ Hr _ _ _ (lookup_tasks _ _ _ Hc) Htelling) as (cb & Hcb & Hrun & Hcf & Hq).
    destruct (runs_ends _ _ _ _ ids _ _ _ _ Hr) as (_ & Hcount & _). destruct (runs_invariants _ _ _ _ ids _ _ _ _ Hr) as (_ & Hsys & _).
    rewrite (tell_enqueued id wid w t (FromActor id) r m cb w1 u Hsys Hcount Hcb Hrun) in Hin;
      [by apply list_elem_of_singleton in Hin|by rewrite Hcf|rewrite Hcf, Hq; simpl; lia|exact Ht].
  - destruct (pulling_worker _ _ _ a Hr Ha) as [[_ Hnone]|(k & Hk & _ & Hw)]; [by rewrite (lookup_tasks _ _ _ Hc) in Hnone|].
    pose proof Hk as Hck. rewrite (lookup_tasks _ _ _ Hc) in Hck. injection Hck as <-.
    pose proof (working_telling _ _ _ _ _ _ Hw Htelling) as ->. split; [done|].
    assert (running (t_phase km) = false) as Hend.
    { destruct (runs_ends _ _ _ _ ids _ _ _ _ Hr') as (_ & _ & Hends). apply list_elem_of_lookup in Hin as [i Hi].
      destruct (en_dead _ _ Hends (length t + i)%nat src id m er) as (c' & Hc' & Hfull).
      { rewrite lookup_app_r, Nat.add_comm, Nat.add_sub by lia. exact Hi. }
      pose proof (Hkeep id km ltac:(congruence) Hkm) as Hkm'. rewrite (lookup_tasks _ _ _ Hc') in Hkm'. injection Hkm' as <-.
      simpl in *. destruct (running (phase c')); [|done]. destruct Hfull as (n & Hn & _); [done|by rewrite Hconf|by rewrite Hconf in Hn]. }
    apply elem_of_app. left. destruct (managing_end _ _ _ Hm Hend) as [Hst|Hp].
    + destruct (stop_requested_dec t) as [?|Hno]; [done|].
      by destruct (root_told_to_stop _ _ _ _ ids _ _ _ _ Hr Hno).
    + exfalso. destruct (Hdone Hp) as [Hended _]. destruct (worker_spawned _ _ _ Hr _ _ Hk Ha) as [Hsp _].
      destruct (Hended (mk_ref a)) as (k' & Hk' & Hend'); [apply elem_of_children; eauto|]. simpl in Hk'. rewrite Hk in Hk'. injection Hk' as <-.
      simpl in Hend'. by destruct (phase c).
Qed.

Lemma runs_well w t h : runs w t h → done_well w h ∧ never_dropped t.
Proof.
  induction 1 as [|w t h a e w' u ev p' Hr [IH1 IH2] Hal Hs Hadv|w t h lb w' u Hr [IH1 IH2] Hal Hs Ht Hu].
  - split; [by intros []|by intros ???? ?%elem_of_nil].
  - split; [by eapply done_well_step|by eapply never_dropped_step].
  - split; [intros Hp; rewrite Ht; by apply IH1|]. intros src a m er [Hin|Hin]%elem_of_app.
    + destruct (IH2 _ _ _ _ Hin). split; [done|]. apply elem_of_app. by left.
    + exfalso. destruct src as [x|].
      * assert (SSent a m ∈ own x u) as Hsent; [|rewrite Hu in Hsent; by apply elem_of_nil in Hsent].
        apply list_elem_of_omap. eexists. split; [exact Hin|]. simpl. by rewrite decide_True.
      * destruct (outside_tells _ _ _ _ a m Hs) as (to & -> & _); [right; by exists er|done].
Qed.
End System.

(** C19. [work_pulling] drops no work: in every interleaving no job is ever rejected by the mailbox of capacity one
    of a worker, nor lost because the worker is gone, since the manager only tells a worker whose mailbox has
    room; only a request may become a dead letter, once the system has been stopped. When the manager prints that
    all documents have been processed, every document has been processed by exactly one worker, and
    unless stopped it has printed so once it terminates. No actor panics. *)
Theorem work_pulling_drops_no_work {F : Flume} {FL : FlumeLaws F} {TW : TokioWatch} {TL : TokioWatchLaws TW}
    {TO : TokioOneshot} {TOL : TokioOneshotLaws TO} (id wid : ActorId) ls w t :
  id ≠ wid → exec ls (manager_system id wid) = Some (w, t) → Forall inside ls →
  (∀ src a m e, ODeadLetter src a m e ∈ t → a = id ∧ OStopRequested ∈ t) ∧
  ∃ h : ActorId → list Event,
    (∀ a c, cells w !! a = Some c → thread (actor c) (mk_ref a) (h a) (phase c) ∧ panicked (phase c) = false) ∧
    (∀ a, omap seen (h a) = own a t) ∧
    (all_printed (h id) ≠ [] → children (h id) ≫= (λ b, processed (h (actor_id b))) ≡ₚ DOCUMENTS) ∧
    (∀ c, cells w !! id = Some c → running (phase c) = false → OStopRequested ∉ t → all_printed (h id) ≠ []).
Proof.
  intros ids He Hin. destruct (exec_runs id wid Manager default_config ids inside ls w t He Hin) as [h Hr].
  destruct (runs_well id wid ids w t h Hr) as [Hdone Hnd]. split; [exact Hnd|]. exists h.
  pose proof (runs_threads _ _ _ _ ids _ _ _ _ Hr) as Hth. destruct (run_manager id wid ids w t h Hr) as (km & Hkm & _ & Hm).
  split_and!; [|apply (th_shown _ _ _ _ _ _ Hth)|intros Hp; apply (Hdone Hp)|].
  - intros a c Hc%lookup_tasks. split; [apply (th_runs _ _ _ _ _ _ Hth _ _ Hc)|].
    destruct (decide (a = id)) as [->|Hne].
    + simplify_eq. by apply (managing_sound _ _ _ Hm).
    + destruct (pulling_worker id wid ids _ _ _ _ Hr Hne) as [[_ ?]|(k & Hk & _ & Hw)]; [congruence|]. simplify_eq.
      by apply (pulling_sound _ _ _ _ Hw).
  - intros c Hc%lookup_tasks Hend Hnot. simplify_eq. destruct (managing_end _ _ _ Hm Hend) as [Hst|]; [|done].
    by destruct (root_told_to_stop id wid Manager default_config ids inside w t h Hr Hnot).
Qed.

(** ** A run *)

Import Reference ReferenceTokio.

Definition manager_id : ActorId := mk_actor_id 1.
Definition root_watcher_id : ActorId := mk_actor_id 2.
Definition worker_id (n : N) : ActorId := mk_actor_id (3 + n).
Definition acting (a : ActorId) (made : ActorId) : Label (M:=Msg) (An:=printed_answer) := LTask a (mk_env 0 made true false (λ _, ())).

(** The workers request their first jobs; then manager and workers take turns until all jobs are done. *)
Definition work_pulling_run : list (Label (M:=Msg) (An:=printed_answer)) :=
  LWatchRoot :: (seq 0 3 ≫= λ n, replicate 2 (acting manager_id (worker_id (N.of_nat n)))) ++ [acting manager_id manager_id] ++
  (seq 0 3 ≫= λ n, replicate 2 (acting (worker_id (N.of_nat n)) manager_id)) ++
  concat (replicate 2 (replicate 12 (acting manager_id manager_id) ++
    (seq 0 3 ≫= λ n, replicate 5 (acting (worker_id (N.of_nat n)) manager_id)))) ++
  replicate 12 (acting manager_id manager_id) ++
  (seq 0 3 ≫= λ n, replicate 12 (acting (worker_id (N.of_nat n)) manager_id)) ++
  replicate 19 (acting manager_id manager_id).

Definition work_pulling_result := exec work_pulling_run (manager_system manager_id root_watcher_id).
Definition work_pulling_world := match work_pulling_result with Some (w, _) => w | None => manager_system manager_id root_watcher_id end.
Definition work_pulling_trace := match work_pulling_result with Some (_, t) => t | None => [] end.

Lemma manager_ids : manager_id ≠ root_watcher_id.
Proof. done. Qed.
Lemma work_pulling_exec :
  exec work_pulling_run (manager_system manager_id root_watcher_id) = Some (work_pulling_world, work_pulling_trace).
Proof. vm_compute. reflexivity. Qed.
Lemma work_pulling_inside : Forall inside work_pulling_run.
Proof. by repeat constructor. Qed.
Lemma work_pulling_ends : ∃ c, cells work_pulling_world !! manager_id = Some c ∧ running (phase c) = false.
Proof. eexists. split; [vm_compute; reflexivity|done]. Qed.
Lemma work_pulling_not_stopped : OStopRequested ∉ work_pulling_trace.
Proof.
  assert (Forall (λ o, match o with OStopRequested => False | _ => True end) work_pulling_trace) as Hall.
  { vm_compute. by repeat constructor. }
  intros Hin. exact (proj1 (Forall_forall _ _) Hall _ Hin).
Qed.

Lemma work_pulling_drops_no_work_witness :
  (∀ src a m e, ODeadLetter src a m e ∉ work_pulling_trace) ∧
  ∃ h : ActorId → list Event, children (h manager_id) ≫= (λ b, processed (h (actor_id b))) ≡ₚ DOCUMENTS.
Proof.
  destruct (work_pulling_drops_no_work _ _ _ _ _ manager_ids work_pulling_exec work_pulling_inside)
    as (Hnd & h & _ & _ & Hperm & Hprinted).
  split; [intros src a m e Hin; destruct (Hnd _ _ _ _ Hin) as [_ Hst]; exact (work_pulling_not_stopped Hst)|].
  exists h. destruct work_pulling_ends as (c & Hc & Hend). exact (Hperm (Hprinted c Hc Hend work_pulling_not_stopped)).
Defined.
