(* ===== verification/EventSourced.v ===== *)
(** Event-sourced actors: the trait of [tellus/src/persistence/event_sourced.rs], the decisions of
    [effect.rs] and the wiring of [persistence.rs]. *)
From S2P Require Import Prelude Versioning PersistenceIds Store Actor Runtime Handlers.

Section EventSourced.
Context {M B St Ev Sn E : Type}.

(** ** [Effect]

    The methods of an event-sourced actor and the continuations of its effects act as the methods of an
    [Actor] do, without awaiting anything. *)

(** A continuation cannot fail, it can only panic. *)
Definition Then : Type := St → Code M B Nothing ().

Record Effect := mk_effect { events : list Ev; stop : bool; thens : list Then }.

Definition persist_all (events : list Ev) : Effect := mk_effect events false [].
Definition none : Effect := persist_all [].
Definition persist (event : Ev) : Effect := persist_all [event].
Definition and_stop (e : Effect) : Effect := mk_effect (events e) true (thens e).
Definition stop_effect : Effect := and_stop none.
Definition add_then (e : Effect) (f : Then) : Effect := mk_effect (events e) (stop e) (thens e ++ [f]).
Definition stop_requested (e : Effect) : bool := stop e.

(** ** [EventSourced] *)

Class EventSourced := {
  persistence_id : B → outcome PersistenceId;
  init : B → outcome (result St E);
  init_from_snapshot : B → Sn → outcome (result St E);
  recovered : B → ActorRef → St → Code M B E St;
  handle : B → ActorRef → Incoming M → St → Code M B E Effect;
  apply : B → St → Ev → outcome St;
  snapshot : B → St → outcome (result (option Sn) E);
}.

(** The provided [recovered] and [snapshot]. *)
Definition default_recovered (actor : B) (self : ActorRef) (state : St) : Code M B E St := HReturn (Ok state).
Definition default_snapshot (actor : B) (state : St) : outcome (result (option Sn) E) := Returned (Ok None).

(** [apply_events] of [spawn.rs]: a panic ends the fold. *)
Fixpoint apply_events `{EventSourced} (actor : B) (state : St) (events : list Ev) : outcome St :=
  match events with
  | [] => Returned state
  | event :: events => outcome_bind (apply actor state event) (λ state, apply_events actor state events)
  end.

Lemma apply_events_app `{EventSourced} actor state l1 l2 :
  apply_events actor state (l1 ++ l2) =
  outcome_bind (apply_events actor state l1) (λ state, apply_events actor state l2).
Proof.
  revert state. induction l1 as [|e l1 IH]; intros state; simpl; [done|].
  destruct (apply actor state e); simpl; auto.
Qed.
End EventSourced.
Arguments Effect : clear implicits.
Arguments Then : clear implicits.
Arguments EventSourced : clear implicits.

(** ** [Persistence]: an event store, a snapshot store, a codec

    A store is the state its clones share. *)
Record Persistence (W V C : Type) := mk_persistence { event_store : W; snapshot_store : V; codec : C }.
Arguments mk_persistence {W V C}. Arguments event_store {W V C}. Arguments snapshot_store {W V C}.
Arguments codec {W V C}.

Definition new_persistence {W} (event_store : W) : Persistence W NoSnapshots Cbor :=
  mk_persistence event_store no_snapshots mk_cbor.
Definition with_snapshot_store {W V C V'} (p : Persistence W V C) (snapshot_store : V') : Persistence W V' C :=
  mk_persistence (event_store p) snapshot_store (codec p).
Definition with_codec {W V C C'} (p : Persistence W V C) (codec : C') : Persistence W V C' :=
  mk_persistence (event_store p) (snapshot_store p) codec.

(** ** What an event-sourced actor promises

    States may hold values of the incarnation, such as references to children, which no event restores:
    [same] says when two states are the same but for those. The documented duties of the methods are
    that [apply] depends on nothing else, that [recovered] only reconciles, and that a snapshot stands
    for the state it was taken of. *)
Class EventSourcedLaws {M B St Ev Sn E} (ES : EventSourced M B St Ev Sn E) := {
  same : relation St;
  same_equivalence : Equivalence same;
  apply_same : ∀ actor event s s' t, same s s' → apply actor s event = Returned t →
    ∃ t', apply actor s' event = Returned t' ∧ same t t';
  recovered_same : ∀ actor self s, returns (same s) (recovered actor self s);
  snapshot_same : ∀ actor s sn t, snapshot actor s = Returned (Ok (Some sn)) →
    init_from_snapshot actor sn = Returned (Ok t) → same s t;
}.
#[export] Existing Instance same_equivalence.

Section Laws.
Context `{ESL : EventSourcedLaws}.

(** Events take related states to related states. *)
Lemma apply_events_same actor l s s' t :
  same s s' → apply_events actor s l = Returned t →
  ∃ t', apply_events actor s' l = Returned t' ∧ same t t'.
Proof.
  revert s s'. induction l as [|e l IH]; intros s s' Hs Ht; simpl in *.
  - simplify_eq. by exists s'.
  - destruct (apply actor s e) as [s1|] eqn:Ha; simpl in *; [|done].
    destruct (apply_same actor e s s' s1 Hs Ha) as (s1' & -> & Hs1). simpl. by apply (IH s1).
Qed.
End Laws.
