(* ===== verification/SpawnEventSourced.v ===== *)
(** The task of an event-sourced actor: [tellus/src/persistence/spawn.rs].

    Its run loop is the one of [Runtime.spawn] with a recovery in place of [init] and a settlement after
    [handle], both of which await the stores: the instance [event_sourced_task] of [Runtime.Actor]. *)
From S2P Require Import Prelude Config Flume Tokio Versioning PersistenceIds Store Actor Runtime Handlers EventSourced.

(** ** Requests to the stores *)

Section Requests.
Context {EE SE : Type}.

Inductive Request :=
  | Entered                                  (* the [select!] of the recovery is polled first *)
  | Load (id : PersistenceId)
  | Read (id : PersistenceId) (from_seq_no : SeqNo) (limit : positive)
  | Append (id : PersistenceId) (next_seq_no : SeqNo) (events : list EncodedEvent)
  | Save (id : PersistenceId) (next_seq_no : SeqNo) (snapshot : EncodedSnapshot).

(** A store may panic. *)
Definition Answer (q : Request) : Type :=
  match q with
  | Entered => ()
  | Load _ => outcome (result (option StoredSnapshot) SE)
  | Read _ _ _ => outcome (result (list StoredEvent) EE)
  | Append _ _ _ => outcome (result () (AppendError EE))
  | Save _ _ _ => outcome (result () SE)
  end.
End Requests.
Arguments Answer : clear implicits.

(** Why an incarnation failed; all the code keeps of an error it has logged. [OutOfFuel] is the model's:
    see [recover]. *)
Inductive Failure := NotRecovered | NotHandled | NotSettled | OutOfFuel.

(** ** Code and programs *)

Section Programs.
Context {M B EE SE : Type}.

(** What a task does between its requests and with their answers. *)
Definition Program (R : Type) : Type :=
  Handler (M:=M) (B:=B) (E:=Failure) (Rq:=Request) (An:=Answer EE SE) R.

(** [catch_unwind] around code which does not await. *)
Fixpoint catch {E R1 R2} (h : Code M B E R1) (k : outcome (result R1 E) → Program R2) : Program R2 :=
  match h with
  | HReturn r => k (Returned r)
  | HPanic => k Panicked
  | HTell to m h => HTell to m (catch h k)
  | HTryTell forced to m h => HTryTell forced to m (λ ok, catch (h ok) k)
  | HNow h => HNow (λ now, catch (h now) k)
  | HSpawn a c h => HSpawn a c (λ r, catch (h r) k)
  | HWatch o h => HWatch o (catch h k)
  | HUnwatch o h => HUnwatch o (catch h k)
  | HAwait q _ => match q with end
  end.
End Programs.
Arguments Program : clear implicits.

(** [catch_and_log], and [catch_panic_and_log], also of a future: what is logged is gone. *)
Definition catch_and_log {T E} (o : outcome (result T E)) : option T :=
  match o with
  | Returned (Ok t) => Some t
  | Returned (Err _) | Panicked => None
  end.
Definition catch_panic_and_log {T} (o : outcome T) : option T :=
  match o with
  | Returned t => Some t
  | Panicked => None
  end.
Definition warn_unless_snapshot_saved {T E} (o : outcome (result T E)) : option T := catch_and_log o.

Section SpawnEventSourced.
Context {M B St Ev Sn E C X EE SE : Type}.
Context {ES : EventSourced M B St Ev Sn E} {KE : Codec C Ev X} {KS : Codec C Sn X}.
Context {VE : Versioned C Ev X} {VS : Versioned C Sn X}.
#[local] Abbreviation Effect := (Effect M B St Ev).
#[local] Abbreviation Program := (Program M B EE SE).

Definition REPLAY_PAGE : positive := 512.

Record Recovered := mk_recovered { id : PersistenceId; state : St; next_seq_no : SeqNo }.
Record Settled := mk_settled { settled_state : St; settled_next_seq_no : SeqNo; settled_stop : bool }.

Inductive ReplayError :=
  | ReplayDecode (e : DecodeError X)
  | Gap (seq_no expected : SeqNo).

Inductive SnapshotError :=
  | SnapshotActor (e : E)
  | SnapshotEncode (e : EncodeError X).

(** ** Recovery *)

(** The [try_fold] over a page. *)
Fixpoint replay_page (actor : B) (codec : C) (state : St) (next_seq_no : SeqNo) (page : list StoredEvent)
    : outcome (result (St * SeqNo) ReplayError) :=
  match page with
  | [] => Returned (Ok (state, next_seq_no))
  | stored :: page =>
      if decide (seq_no stored ≠ next_seq_no) then Returned (Err (Gap (seq_no stored) next_seq_no))
      else
        try event :=
          outcome_map (map_err ReplayDecode)
            (decode_versioned (V:=VE) codec (event_manifest (event stored))
               (event_schema_version (event stored)) (event_payload (event stored))) in
        outcome_bind (apply actor state event) (λ state, replay_page actor codec state (succ next_seq_no) page)
  end.

(** A snapshot which cannot be decoded is discarded. *)
Definition decode_snapshot (codec : C) (loaded : option StoredSnapshot) : option (Sn * SeqNo) :=
  stored ← loaded;
  let snapshot := Store.snapshot stored in
  match decode_versioned (V:=VS) codec (snapshot_manifest snapshot) (snapshot_schema_version snapshot)
          (snapshot_payload snapshot) with
  | Returned (Ok snapshot) => Some (snapshot, Store.next_seq_no stored)
  | Returned (Err _) | Panicked => None
  end.

(** The state recovery starts from, and its position. *)
Definition seed (actor : B) (decoded : option (Sn * SeqNo)) : option (St * SeqNo) :=
  match decoded with
  | Some (snapshot, next_seq_no) =>
      state ← catch_and_log (init_from_snapshot actor snapshot); Some (state, next_seq_no)
  | None => state ← catch_and_log (init actor); Some (state, ZERO)
  end.

(** The loop reading and replaying pages, at most [fuel] of them. *)
Fixpoint replay (fuel : nat) (actor : B) (codec : C) (id : PersistenceId) (state : St) (next_seq_no : SeqNo)
    : Program (option Recovered) :=
  match fuel with
  | 0%nat => HReturn (Err OutOfFuel)
  | S fuel =>
      HAwait (Read id next_seq_no REPLAY_PAGE) (λ page,
        match catch_panic_and_log page with
        | Some (Ok page) =>
            let page_len := length page in
            match catch_and_log (replay_page actor codec state next_seq_no page) with
            | Some (state, next_seq_no) =>
                if decide (page_len < Pos.to_nat REPLAY_PAGE)%nat then
                  ret (Some (mk_recovered id state next_seq_no))
                else replay fuel actor codec id state next_seq_no
            | None => ret None
            end
        | Some (Err _) | None => ret None
        end)
  end.

Definition recover (fuel : nat) (actor : B) (codec : C) : Program (option Recovered) :=
  match catch_panic_and_log (persistence_id actor) with
  | None => ret None
  | Some id =>
      HAwait (Load id) (λ loaded,
        match catch_panic_and_log loaded with
        | Some (Ok loaded) =>
            match seed actor (decode_snapshot codec loaded) with
            | Some (state, next_seq_no) => replay fuel actor codec id state next_seq_no
            | None => ret None
            end
        | Some (Err _) | None => ret None
        end)
  end.

(** ** Settlement *)

Fixpoint encode_events (codec : C) (events : list Ev) : outcome (result (list EncodedEvent) (EncodeError X)) :=
  match events with
  | [] => Returned (Ok [])
  | event :: events =>
      try payload := encode codec event in
      try encoded := encode_events codec events in
      Returned (Ok (mk_encoded_event (MANIFEST (Versioned:=VE)) (VERSION (Versioned:=VE)) payload :: encoded))
  end.

Definition encode_snapshot (actor : B) (codec : C) (state : St)
    : outcome (result (option EncodedSnapshot) SnapshotError) :=
  try offered := outcome_map (map_err SnapshotActor) (snapshot actor state) in
  match offered with
  | None => Returned (Ok None)
  | Some snapshot =>
      try payload := outcome_map (map_err SnapshotEncode) (encode codec snapshot) in
      Returned (Ok (Some (mk_encoded_snapshot (MANIFEST (Versioned:=VS)) (VERSION (Versioned:=VS)) payload)))
  end.

(** The events of an effect encoded, appended and applied: the state and position after them. *)
Definition append_and_apply (actor : B) (codec : C) (id : PersistenceId) (state : St) (next_seq_no : SeqNo)
    (events : list Ev) : Program (option (St * SeqNo)) :=
  match catch_and_log (encode_events codec events) with
  | None => ret None
  | Some encoded =>
      HAwait (Append id next_seq_no encoded) (λ appended,
        match catch_panic_and_log appended with
        | Some (Ok _) =>
            match catch_panic_and_log (apply_events actor state events) with
            | Some applied => ret (Some (applied, advanced_by next_seq_no (length events)))
            | None => ret None
            end
        | Some (Err _) | None => ret None
        end)
  end.

(** [for then in thens { then(&state) }]: a panic ends the loop. *)
Fixpoint run_thens (thens : list (Then M B St)) (state : St) (k : outcome () → Program (option Settled))
    : Program (option Settled) :=
  match thens with
  | [] => k (Returned ())
  | f :: thens =>
      catch (f state) (λ ran,
        match ran with
        | Returned _ => run_thens thens state k
        | Panicked => k Panicked
        end)
  end.

(** The snapshot the actor offers, saved; whatever fails is only logged. *)
Definition offer_snapshot (actor : B) (codec : C) (id : PersistenceId) (state : St) (next_seq_no : SeqNo)
    : Program () :=
  match warn_unless_snapshot_saved (encode_snapshot actor codec state) with
  | Some (Some snapshot) => HAwait (Save id next_seq_no snapshot) (λ _, ret ())
  | Some None | None => ret ()
  end.

Definition settle (actor : B) (codec : C) (id : PersistenceId) (state : St) (next_seq_no : SeqNo)
    (effect : Effect) : Program (option Settled) :=
  let appended := negb (bool_decide (events effect = [])) in
  bind (if appended then append_and_apply actor codec id state next_seq_no (events effect)
        else ret (Some (state, next_seq_no))) (λ applied,
    match applied with
    | None => ret None
    | Some (state, next_seq_no) =>
        run_thens (thens effect) state (λ ran,
          match catch_panic_and_log ran with
          | None => ret None
          | Some _ =>
              bind (if appended then offer_snapshot actor codec id state next_seq_no else ret ()) (λ _,
                ret (Some (mk_settled state next_seq_no (stop effect))))
          end)
    end).

(** ** The task *)

(** A codec and the bound on the pages of a recovery are fixed at the spawn. *)
Context (fuel : nat) (codec : C).

#[export] Instance event_sourced_task : Runtime.Actor M B Recovered Failure Request (Answer EE SE) := {
  Runtime.init actor self :=
    HAwait Entered (λ _,
      bind (recover fuel actor codec) (λ recovery,
        match recovery with
        | None => HReturn (Err NotRecovered)
        | Some r =>
            catch (recovered actor self (state r)) (λ o,
              match catch_and_log o with
              | Some state => ret (mk_recovered (id r) state (next_seq_no r))
              | None => HReturn (Err NotRecovered)
              end)
        end));
  receive actor self incoming s :=
    catch (handle actor self incoming (state s)) (λ o,
      match catch_and_log o with
      | None => HReturn (Err NotHandled)
      | Some effect =>
          bind (settle actor codec (id s) (state s) (next_seq_no s) effect) (λ settled,
            match settled with
            | None => HReturn (Err NotSettled)
            | Some settled =>
                if settled_stop settled then ret Actor.Stop
                else ret (Continue (mk_recovered (id s) (settled_state settled) (settled_next_seq_no settled)))
            end)
      end);
}.

(** [spawn_event_sourced] spawns this task, from [ActorContext::spawn_event_sourced_with_config] as a
    child and from [ActorSystem::event_sourced_with_config] as the root. *)
Definition spawn_event_sourced {F : Flume} {TW : TokioWatch} {TO : TokioOneshot}
    (parent : StopKey) (a : B) (config : ActorConfig) (id : ActorId) w :=
  spawn (H:=event_sourced_task) parent a config id w.
Definition event_sourced_with_config {F : Flume} {TW : TokioWatch} {TO : TokioOneshot}
    (id watcher_id : ActorId) (a : B) (config : ActorConfig) :=
  system_new (H:=event_sourced_task) id watcher_id a config.
Definition event_sourced {F : Flume} {TW : TokioWatch} {TO : TokioOneshot}
    (id watcher_id : ActorId) (a : B) :=
  event_sourced_with_config id watcher_id a default_config.
End SpawnEventSourced.
