(* ===== verification/StoreRuns.v ===== *)
(** Runs of the programs of [SpawnEventSourced] against the stores, other incarnations interfering before
    every request, and what each of their parts does in such a run. *)
From S2P Require Import Prelude Config Versioning PersistenceIds Store Actor Runtime Handlers EventSourced SpawnEventSourced.

(** ** What a run does *)

Section StoreRuns.
Context {M B W V EE SE : Type} {EVS : EventStore W EE} {SNS : SnapshotStore V SE}.
#[local] Abbreviation Program := (Program M B EE SE).

(** The state of both stores. *)
Record Stores := mk_stores { events_of : W; snapshots_of : V }.

(** A request answered. *)
Definition serve (q : Request) (p : Stores) : Answer EE SE q * Stores :=
  match q with
  | Entered => ((), p)
  | Load id =>
      let '(r, v) := load id (snapshots_of p) in (r, mk_stores (events_of p) v)
  | Read id from limit =>
      let '(r, w) := read id from limit (events_of p) in (r, mk_stores w (snapshots_of p))
  | Append id next es =>
      let '(r, w) := append id next es (events_of p) in (r, mk_stores w (snapshots_of p))
  | Save id next s =>
      let '(r, v) := save id next s (snapshots_of p) in (r, mk_stores (events_of p) v)
  end.

Inductive Did :=
  | Acted (a : Action M B)
  | Asked (q : Request) (a : Answer EE SE q).

Definition acts (t : list Did) : list (Action M B) :=
  omap (λ d, match d with Acted a => Some a | Asked _ _ => None end) t.

(** What others may do to the stores between two requests. *)
Context (others : relation Stores).

Fixpoint Run {R} (h : Program R) (p : Stores) (t : list Did) (o : outcome (result R Failure)) (p' : Stores)
    : Prop :=
  match h with
  | HReturn r => t = [] ∧ o = Returned r ∧ p' = p
  | HPanic => t = [] ∧ o = Panicked ∧ p' = p
  | HTell to m h => ∃ t', t = Acted (ATell to m) :: t' ∧ Run h p t' o p'
  | HTryTell forced to m h => ∃ ok t', t = Acted (ATryTell forced to m ok) :: t' ∧ Run (h ok) p t' o p'
  | HNow h => ∃ now t', t = Acted (ANow now) :: t' ∧ Run (h now) p t' o p'
  | HSpawn a c h => ∃ child t', t = Acted (ASpawn a c child) :: t' ∧ Run (h child) p t' o p'
  | HWatch other h => ∃ t', t = Acted (AWatch other) :: t' ∧ Run h p t' o p'
  | HUnwatch other h => ∃ t', t = Acted (AUnwatch other) :: t' ∧ Run h p t' o p'
  | HAwait q h =>
      ∃ p1 t', others p p1 ∧ t = Asked q (serve q p1).1 :: t' ∧
        Run (h (serve q p1).1) (serve q p1).2 t' o p'
  end.

(** *** Composition *)

Lemma acts_app t1 t2 : acts (t1 ++ t2) = acts t1 ++ acts t2.
Proof. unfold acts. apply omap_app. Qed.

Lemma acts_acted l : acts (Acted <$> l) = l.
Proof. induction l as [|a l IH]; [done|]. change (a :: acts (Acted <$> l) = a :: l). by rewrite IH. Qed.

Lemma Run_bind {R1 R2} (h : Program R1) (k : R1 → Program R2) p t o p' :
  Run (bind h k) p t o p' →
  (∃ r t1 t2 p1, t = t1 ++ t2 ∧ Run h p t1 (Returned (Ok r)) p1 ∧ Run (k r) p1 t2 o p') ∨
  (∃ e, o = Returned (Err e) ∧ Run h p t (Returned (Err e)) p') ∨
  (o = Panicked ∧ Run h p t Panicked p').
Proof.
  revert p t. induction h as [[r|e]| |to m h IH|f to m h IH|h IH|a c h IH|other h IH|other h IH|q h IH]; intros p t; simpl.
  - intros HR. left. by eexists r, [], t, p.
  - intros (-> & -> & ->). right. left. by eexists.
  - intros (-> & -> & ->). by right; right.
  - intros (t' & -> & [(r & t1 & t2 & p1 & -> & H1 & H2)|[(e & -> & H1)|[-> H1]]]%IH); [left|right; left|right; right].
    + exists r, (Acted (ATell to m) :: t1), t2, p1. naive_solver.
    + eauto.
    + eauto.
  - intros (ok & t' & -> & [(r & t1 & t2 & p1 & -> & H1 & H2)|[(e & -> & H1)|[-> H1]]]%IH); [left|right; left|right; right].
    + exists r, (Acted (ATryTell f to m ok) :: t1), t2, p1. naive_solver.
    + eauto 6.
    + eauto.
  - intros (n & t' & -> & [(r & t1 & t2 & p1 & -> & H1 & H2)|[(e & -> & H1)|[-> H1]]]%IH); [left|right; left|right; right].
    + exists r, (Acted (ANow n) :: t1), t2, p1. naive_solver.
    + eauto 6.
    + eauto.
  - intros (ch & t' & -> & [(r & t1 & t2 & p1 & -> & H1 & H2)|[(e & -> & H1)|[-> H1]]]%IH); [left|right; left|right; right].
    + exists r, (Acted (ASpawn a c ch) :: t1), t2, p1. naive_solver.
    + eauto 6.
    + eauto.
  - intros (t' & -> & [(r & t1 & t2 & p1 & -> & H1 & H2)|[(e & -> & H1)|[-> H1]]]%IH); [left|right; left|right; right].
    + exists r, (Acted (AWatch other) :: t1), t2, p1. naive_solver.
    + eauto.
    + eauto.
  - intros (t' & -> & [(r & t1 & t2 & p1 & -> & H1 & H2)|[(e & -> & H1)|[-> H1]]]%IH); [left|right; left|right; right].
    + exists r, (Acted (AUnwatch other) :: t1), t2, p1. naive_solver.
    + eauto.
    + eauto.
  - intros (p0 & t' & Ho & -> & [(r & t1 & t2 & p1 & -> & H1 & H2)|[(e & -> & H1)|[-> H1]]]%IH);
      [left|right; left|right; right].
    + exists r, (Asked q (serve q p0).1 :: t1), t2, p1. naive_solver.
    + exists e. naive_solver.
    + naive_solver.
Qed.

Lemma Run_bind_intro {R1 R2} (h : Program R1) (k : R1 → Program R2) p t1 t2 r p1 o p' :
  Run h p t1 (Returned (Ok r)) p1 → Run (k r) p1 t2 o p' → Run (bind h k) p (t1 ++ t2) o p'.
Proof.
  revert p t1. induction h as [[x|e]| |to m h IH|f to m h IH|h IH|a c h IH|other h IH|other h IH|q h IH]; intros p t1; simpl.
  all: try by intros (? & ? & ?); simplify_eq.
  - intros (t' & -> & H1) H2. eauto.
  - intros (ok & t' & -> & H1) H2. eexists ok, _. eauto.
  - intros (n & t' & -> & H1) H2. eexists n, _. eauto.
  - intros (ch & t' & -> & H1) H2. eexists ch, _. eauto.
  - intros (t' & -> & H1) H2. eauto.
  - intros (t' & -> & H1) H2. eauto.
  - intros (p0 & t' & Ho & -> & H1) H2. exists p0. eauto.
Qed.

Lemma Run_catch {E R1 R2} (h : Code M B E R1) (k : outcome (result R1 E) → Program R2) p t o p' :
  Run (catch h k) p t o p' ↔
  ∃ l o1 t2, t = (Acted <$> l) ++ t2 ∧ Does h l o1 ∧ Run (k o1) p t2 o p'.
Proof.
  revert t. induction h as [r| |to m h IH|f to m h IH|h IH|a c h IH|other h IH|other h IH|[] h IH]; intros t; simpl.
  - split; [intros HR; by eexists [], _, _|]. by intros (l & o1 & t2 & -> & [-> ->] & HR).
  - split; [intros HR; by eexists [], _, _|]. by intros (l & o1 & t2 & -> & [-> ->] & HR).
  - split.
    + intros (t' & -> & (l & o1 & t2 & -> & Hd & HR)%IH). exists (ATell to m :: l), o1, t2. split_and!; [done|simpl; eauto|done].
    + intros (l & o1 & t2 & -> & (t' & -> & Hd) & HR). eexists; split; [done|]. apply IH. eauto 6.
  - split.
    + intros (ok & t' & -> & (l & o1 & t2 & -> & Hd & HR)%IH). exists (ATryTell f to m ok :: l), o1, t2. split_and!; [done|simpl; eauto|done].
    + intros (l & o1 & t2 & -> & (ok & t' & -> & Hd) & HR). eexists ok, _; split; [done|]. apply IH. eauto 6.
  - split.
    + intros (n & t' & -> & (l & o1 & t2 & -> & Hd & HR)%IH). exists (ANow n :: l), o1, t2. split_and!; [done|simpl; eauto|done].
    + intros (l & o1 & t2 & -> & (n & t' & -> & Hd) & HR). eexists n, _; split; [done|]. apply IH. eauto 6.
  - split.
    + intros (ch & t' & -> & (l & o1 & t2 & -> & Hd & HR)%IH). exists (ASpawn a c ch :: l), o1, t2. split_and!; [done|simpl; eauto|done].
    + intros (l & o1 & t2 & -> & (ch & t' & -> & Hd) & HR). eexists ch, _; split; [done|]. apply IH. eauto 6.
  - split.
    + intros (t' & -> & (l & o1 & t2 & -> & Hd & HR)%IH). exists (AWatch other :: l), o1, t2. split_and!; [done|simpl; eauto|done].
    + intros (l & o1 & t2 & -> & (t' & -> & Hd) & HR). eexists; split; [done|]. apply IH. eauto 6.
  - split.
    + intros (t' & -> & (l & o1 & t2 & -> & Hd & HR)%IH). exists (AUnwatch other :: l), o1, t2. split_and!; [done|simpl; eauto|done].
    + intros (l & o1 & t2 & -> & (t' & -> & Hd) & HR). eexists; split; [done|]. apply IH. eauto 6.
Qed.

(** Every program has a run if others may do nothing. *)
Lemma Run_total {R} (h : Program R) p : (∀ p, others p p) → ∃ t o p', Run h p t o p'.
Proof.
  intros Hrefl. revert p. induction h as [r| |to m h IH|f to m h IH|h IH|a c h IH|other h IH|other h IH|q h IH]; intros p; simpl.
  - by eexists _, _, _.
  - by eexists _, _, _.
  - destruct (IH p) as (t & o & p' & HR). by eexists _, _, _, _.
  - destruct (IH true p) as (t & o & p' & HR). by eexists _, _, _, _, _.
  - destruct (IH 0%N p) as (t & o & p' & HR). by eexists _, _, _, _, _.
  - destruct (IH (mk_ref (mk_actor_id 0)) p) as (t & o & p' & HR). by eexists _, _, _, _, _.
  - destruct (IH p) as (t & o & p' & HR). by eexists _, _, _, _.
  - destruct (IH p) as (t & o & p' & HR). by eexists _, _, _, _.
  - destruct (IH (serve q p).1 (serve q p).2) as (t & o & p' & HR). by eexists _, _, _, _, _.
Qed.

(** What the continuations of an effect do, up to the first panic. *)
Fixpoint DoesThens {St} (thens : list (Then M B St)) (st : St) (l : list (Action M B)) (ran : outcome ()) : Prop :=
  match thens with
  | [] => l = [] ∧ ran = Returned ()
  | f :: thens =>
      ∃ l1 o l2, l = l1 ++ l2 ∧ Does (f st) l1 o ∧
        match o with
        | Returned _ => DoesThens thens st l2 ran
        | Panicked => l2 = [] ∧ ran = Panicked
        end
  end.

Lemma Run_thens {St} (thens : list (Then M B St)) st (k : outcome () → Program (option (Settled (St:=St)))) p t o p' :
  Run (run_thens thens st k) p t o p' ↔
  ∃ l ran t2, t = (Acted <$> l) ++ t2 ∧ DoesThens thens st l ran ∧ Run (k ran) p t2 o p'.
Proof.
  revert t. induction thens as [|f thens IH]; intros t; simpl.
  - split; [intros HR; by eexists [], _, t|]. by intros (l & ran & t2 & -> & [-> ->] & HR).
  - rewrite Run_catch. split.
    + intros (l & o1 & t2 & -> & Hd & HR). destruct o1 as [x|].
      * apply IH in HR as (l2 & ran & t3 & -> & Hd2 & HR). exists (l ++ l2), ran, t3.
        rewrite fmap_app, (assoc_L (++)). split_and!; [done| |done]. by exists l, (Returned x), l2.
      * exists l, Panicked, t2. split_and!; [done| |done]. exists l, Panicked, []. by rewrite app_nil_r.
    + intros (l & ran & t2 & -> & (l1 & o1 & l2 & -> & Hd & Hm) & HR). exists l1, o1, ((Acted <$> l2) ++ t2).
      rewrite fmap_app, (assoc_L (++)). split_and!; [done..|]. destruct o1 as [x|].
      * apply IH. eauto 6.
      * by destruct Hm as [-> ->].
Qed.

(** The run without interference, in which every child is the one given, every attempt to enqueue
    succeeds and the clock stands still. *)
Fixpoint run_alone {R} (child : ActorRef) (h : Program R) (p : Stores)
    : list Did * outcome (result R Failure) * Stores :=
  match h with
  | HReturn r => ([], Returned r, p)
  | HPanic => ([], Panicked, p)
  | HTell to m h => let '(t, o, p') := run_alone child h p in (Acted (ATell to m) :: t, o, p')
  | HTryTell forced to m h =>
      let '(t, o, p') := run_alone child (h true) p in (Acted (ATryTell forced to m true) :: t, o, p')
  | HNow h => let '(t, o, p') := run_alone child (h 0%N) p in (Acted (ANow 0%N) :: t, o, p')
  | HSpawn a c h => let '(t, o, p') := run_alone child (h child) p in (Acted (ASpawn a c child) :: t, o, p')
  | HWatch other h => let '(t, o, p') := run_alone child h p in (Acted (AWatch other) :: t, o, p')
  | HUnwatch other h => let '(t, o, p') := run_alone child h p in (Acted (AUnwatch other) :: t, o, p')
  | HAwait q h =>
      let '(t, o, p') := run_alone child (h (serve q p).1) (serve q p).2 in (Asked q (serve q p).1 :: t, o, p')
  end.

Lemma run_alone_Run {R} child (h : Program R) p t o p' :
  (∀ p, others p p) → run_alone child h p = (t, o, p') → Run h p t o p'.
Proof.
  intros Hrefl. revert p t. induction h as [r| |to m h IH|f to m h IH|h IH|a c h IH|other h IH|other h IH|q h IH]; intros p t; simpl.
  - intros [= <- <- <-]. done.
  - intros [= <- <- <-]. done.
  - destruct (run_alone child h p) as [[t' o'] p1] eqn:Hr. intros [= <- <- <-]. eauto.
  - destruct (run_alone child (h true) p) as [[t' o'] p1] eqn:Hr. intros [= <- <- <-]. eauto.
  - destruct (run_alone child (h 0%N) p) as [[t' o'] p1] eqn:Hr. intros [= <- <- <-]. eauto.
  - destruct (run_alone child (h child) p) as [[t' o'] p1] eqn:Hr. intros [= <- <- <-]. eauto.
  - destruct (run_alone child h p) as [[t' o'] p1] eqn:Hr. intros [= <- <- <-]. eauto.
  - destruct (run_alone child h p) as [[t' o'] p1] eqn:Hr. intros [= <- <- <-]. eauto.
  - destruct (run_alone child (h (serve q p).1) (serve q p).2) as [[t' o'] p1] eqn:Hr. intros [= <- <- <-]. eauto 8.
Qed.
End StoreRuns.
Arguments Stores : clear implicits.
