(* ===== verification/EventSourcing.v ===== *)
(** What the task of an event-sourced actor promises: its state is always the fold of the events of its
    stream, live as well as recovered; it acts outwardly only once its events are durable; of two racing
    incarnations at most one goes on. All of it whatever other incarnations do to the stores in between,
    as long as they keep the same promise ([Rely] below), which every run of this task does. *)
From S2P Require Import Prelude Config Versioning PersistenceIds Store Actor Runtime Handlers EventSourced SpawnEventSourced StoreRuns.

Section EventSourcing.
Context {M B St Ev Sn E C X W V EE SE : Type}.
Context {ES : EventSourced M B St Ev Sn E} {ESL : EventSourcedLaws ES}.
Context {KE : Codec C Ev X} {KS : Codec C Sn X} {VE : Versioned C Ev X} {VS : Versioned C Sn X}.
Context {KEL : CodecLaws KE} {KSL : CodecLaws KS} {VEL : VersionedLaws VE} {VSL : VersionedLaws VS}.
Context {EVS : EventStore W EE} {SNS : SnapshotStore V SE}.
Context {EVL : EventStoreLaws EVS} {SNL : SnapshotStoreLaws SNS}.
Context (actor : B) (codec : C) (pid : PersistenceId).
#[local] Abbreviation Stores := (Stores W V).
#[local] Abbreviation Program := (Program M B EE SE).
#[local] Abbreviation events_in p := (stream (events_of p) pid).
Implicit Types (p : Stores) (st : St) (l : list EncodedEvent) (evs : list Ev).

(** ** The reference: a state is the fold of the events *)

Fixpoint fold_stream (st : St) (l : list EncodedEvent) : option St :=
  match l with
  | [] => Some st
  | e :: l =>
      match decode_versioned (V:=VE) codec (event_manifest e) (event_schema_version e) (event_payload e) with
      | Returned (Ok ev) =>
          match apply actor st ev with
          | Returned st => fold_stream st l
          | Panicked => None
          end
      | _ => None
      end
  end.

Definition state_of (l : list EncodedEvent) : option St :=
  match init actor with
  | Returned (Ok st) => fold_stream st l
  | _ => None
  end.

Lemma fold_stream_app st l1 l2 : fold_stream st (l1 ++ l2) = fold_stream st l1 ≫= λ st, fold_stream st l2.
Proof.
  revert st. induction l1 as [|e l1 IH]; intros st; simpl; [done|].
  destruct (decode_versioned _ _ _ _) as [[ev|]|]; try done. by destruct (apply actor st ev).
Qed.

Lemma state_of_app l1 l2 : state_of (l1 ++ l2) = state_of l1 ≫= λ st, fold_stream st l2.
Proof. unfold state_of. destruct (init actor) as [[st|]|]; try done. apply fold_stream_app. Qed.

Lemma fold_stream_same st1 st2 st1' l :
  same st1 st2 → fold_stream st1 l = Some st1' → ∃ st2', fold_stream st2 l = Some st2' ∧ same st1' st2'.
Proof.
  revert st1 st2. induction l as [|e l IH]; intros st1 st2 Hs Hf; simpl in *.
  - simplify_eq. by exists st2.
  - destruct (decode_versioned _ _ _ _) as [[ev|]|]; [|done..].
    destruct (apply actor st1 ev) as [st|] eqn:Ha; [|done].
    destruct (apply_same actor ev st1 st2 st Hs Ha) as (st2' & -> & Hs'). by apply (IH st).
Qed.

(** What has been encoded is folded as it has been applied. *)
Lemma fold_stream_encoded st evs encoded :
  encode_events codec evs = Returned (Ok encoded) →
  fold_stream st encoded = catch_panic_and_log (apply_events actor st evs).
Proof.
  revert st encoded. induction evs as [|ev evs IH]; intros st encoded He; simpl in *; [by simplify_eq|].
  apply try_bind_Ok in He as (payload & Hp & He). apply try_bind_Ok in He as (rest & Hr & He). simplify_eq/=.
  rewrite (decode_versioned_current _ _ _ Hp). destruct (apply actor st ev); simpl; [by apply IH|done].
Qed.

Lemma length_encode_events evs encoded :
  encode_events codec evs = Returned (Ok encoded) → length encoded = length evs.
Proof.
  revert encoded. induction evs as [|ev evs IH]; intros encoded He; simpl in *; [by simplify_eq|].
  apply try_bind_Ok in He as (payload & Hp & He). apply try_bind_Ok in He as (rest & Hr & He). simplify_eq/=.
  f_equal. by apply IH.
Qed.

(** ** Replay *)

(** A page is replayed if and only if it is numbered gaplessly from the position on and all of its
    events decode. *)
Lemma replay_page_iff st n page st' n' :
  (N.of_nat (n + length page) ≤ U64_MAX)%N →
  replay_page actor codec st (position n) page = Returned (Ok (st', n')) ↔
  page = numbered n (event <$> page) ∧ fold_stream st (event <$> page) = Some st' ∧ n' = position (n + length page).
Proof.
  revert st n. induction page as [|e page IH]; intros st n Hb; simpl in *.
  - rewrite Nat.add_0_r. naive_solver.
  - destruct (decide (seq_no e ≠ position n)) as [Hne|Heq].
    + split; [done|]. intros (Heq & _). destruct Hne. injection Heq as Heq _. by rewrite Heq.
    + apply dec_stable in Heq. rewrite succ_position by lia.
      destruct (decode_versioned _ _ _ _) as [[ev|]|]; simpl;
        [|by split; [|intros (_ & ? & _)]..].
      destruct (apply actor st ev) as [st1|]; simpl; [|by split; [|intros (_ & ? & _)]].
      rewrite IH by lia. destruct e as [s e]. simpl in *. subst s.
      replace (n + S (length page)) with (S n + length page) by lia.
      split; intros (Hp & Hf & Hn); (split_and!; [|done..]); [by f_equal|by injection Hp].
Qed.

(** ** What is relied on *)

(** A snapshot in the store stands for the state after the events it covers. *)
Definition snapshot_ok p : Prop :=
  ∀ n s sn st, saved (snapshots_of p) pid = Some (mk_stored_snapshot n s) →
    decode_snapshot (VS:=VS) codec (Some (mk_stored_snapshot n s)) = Some (sn, n) →
    init_from_snapshot actor sn = Returned (Ok st) →
    ∃ k st', n = position k ∧ (k ≤ length (events_in p))%nat ∧
      state_of (take k (events_in p)) = Some st' ∧ same st' st.

Definition consistent p : Prop := store_wf (events_of p) ∧ snapshot_ok p.

(** Others only ever add to the stream, and keep the stores consistent. *)
Definition Rely p p' : Prop := consistent p' ∧ events_in p `prefix_of` events_in p'.

Context (others : relation Stores) (Hothers : ∀ p p', consistent p → others p p' → Rely p p').
Context (Hpid : persistence_id actor = Returned pid).
#[local] Abbreviation Run := (Run (M:=M) (B:=B) others).

Lemma Rely_refl p : consistent p → Rely p p.
Proof. by split. Qed.

Lemma Rely_trans p1 p2 p3 : Rely p1 p2 → Rely p2 p3 → Rely p1 p3.
Proof. intros [_ H1] [? H2]. split; [done|]. by etrans. Qed.

(** A state at a position of the stream. *)
Definition live (k : nat) (st : St) p : Prop :=
  (k ≤ length (events_in p))%nat ∧ ∃ st', state_of (take k (events_in p)) = Some st' ∧ same st' st.

Lemma live_Rely k st p p' : Rely p p' → live k st p → live k st p'.
Proof.
  intros [_ [l Hl]] (Hk & st' & Hst & Hs). split; [rewrite Hl, length_app; lia|].
  exists st'. by rewrite Hl, take_app_le by lia.
Qed.

(** Prefixes keep what has been folded. *)
Lemma snapshot_ok_prefix p p' :
  saved (snapshots_of p') pid = saved (snapshots_of p) pid → events_in p `prefix_of` events_in p' →
  snapshot_ok p → snapshot_ok p'.
Proof.
  intros Hs [l Hl] Hok n s sn st. rewrite Hs. intros Hsn Hd Hi.
  destruct (Hok n s sn st Hsn Hd Hi) as (k & st' & -> & Hk & Hst & Hsame).
  exists k, st'. rewrite Hl, length_app, take_app_le by lia. split_and!; [done|lia|done..].
Qed.

(** Reading and loading leave both stores as they are. *)
Lemma serve_read p n limit : consistent p → Rely p (serve (Read pid n limit) p).2.
Proof.
  intros [Hwf Hok]. simpl. destruct (read pid n limit (events_of p)) as [r w] eqn:Hr.
  pose proof (read_wf pid n limit (events_of p) Hwf) as Hw.
  pose proof (read_stream pid n limit (events_of p) pid Hwf) as Hs. rewrite Hr in Hw, Hs. simpl in *.
  split; [split; [done|]|]; simpl.
  - by apply (snapshot_ok_prefix p); simpl; [|rewrite Hs|].
  - by rewrite Hs.
Qed.

Lemma serve_load p : consistent p → Rely p (serve (EE:=EE) (Load pid) p).2.
Proof.
  intros [Hwf Hok]. simpl. destruct (load pid (snapshots_of p)) as [r v] eqn:Hr.
  pose proof (load_saved pid (snapshots_of p) pid) as Hs. rewrite Hr in Hs. simpl in *.
  split; [split; [done|]|]; simpl; [|done]. by apply (snapshot_ok_prefix p).
Qed.

Lemma replay_page_fits : (Npos REPLAY_PAGE ≤ I64_MAX)%N.
Proof. unfold REPLAY_PAGE. lia. Qed.

Lemma page_of_stream p n limit pg :
  (Npos limit ≤ I64_MAX)%N → consistent p → (serve (Read pid (position n) limit) p).1 = Returned (Ok pg) →
  pg = numbered n (take (Pos.to_nat limit) (drop n (events_in p))).
Proof.
  intros Hlim [Hwf _] Hpg. simpl in Hpg. destruct (read pid (position n) limit (events_of p)) as [r w] eqn:Hr.
  simpl in Hpg. subst r. rewrite (read_ok _ _ _ _ _ _ Hwf Hlim Hr), page_spec. unfold position. simpl.
  by rewrite Nat2N.id.
Qed.

(** A replay which succeeds has folded the whole stream, as of its last read. *)
Lemma replay_sound fuel st k p t r p' :
  consistent p → (k ≤ length (events_in p))%nat →
  Run (replay fuel actor codec pid st (position k)) p t (Returned (Ok (Some r))) p' →
  Rely p p' ∧ acts t = [] ∧ id r = pid ∧ next_seq_no r = position (length (events_in p')) ∧
  fold_stream st (drop k (events_in p')) = Some (state r).
Proof.
  revert st k p t. induction fuel as [|fuel IH]; intros st k p t Hc Hk HR; cbn [replay] in HR; [by destruct HR as (_ & ? & _)|].
  destruct HR as (p1 & t' & Ho & -> & HR). destruct (Hothers p p1 Hc Ho) as [Hc1 Hpre1].
  pose proof (λ pg, page_of_stream p1 k REPLAY_PAGE pg replay_page_fits) as Hpg. pose proof (serve_read p1 (position k) REPLAY_PAGE Hc1) as [Hc2 Hpre2].
  pose proof (prefix_length _ _ Hpre1) as Hlen1.
  assert (events_in (serve (Read pid (position k) REPLAY_PAGE) p1).2 = events_in p1) as Hs2.
  { simpl. pose proof (read_stream pid (position k) REPLAY_PAGE (events_of p1) pid (proj1 Hc1)) as Hs.
    by destruct (read _ _ _ _). }
  assert (N.of_nat (length (events_in p1)) ≤ U64_MAX)%N as Hfits by apply stream_fits, Hc1.
  set (pg := serve _ p1) in *. clearbody pg. destruct pg as [a p2]. cbn [fst snd] in *.
  destruct a as [[page|e]|]; cbn [catch_panic_and_log] in HR; [|by destruct HR as (_ & ? & _)..].
  specialize (Hpg page Hc1 eq_refl). set (n := Pos.to_nat REPLAY_PAGE) in *. clearbody n.
  assert (length page = min n (length (events_in p1) - k))%nat as Hlp
    by (by rewrite Hpg, length_numbered, length_take, length_drop).
  destruct (replay_page actor codec st (position k) page) as [[[st1 k1]|]|] eqn:Hrp; simpl in HR;
    [|by destruct HR as (_ & ? & _)..].
  apply replay_page_iff in Hrp as (_ & Hf & ->); [|lia].
  rewrite Hpg, event_numbered in Hf.
  destruct (decide (length page < n)%nat) as [Hlt|Hge].
  - destruct HR as (-> & [= ->] & ->). simpl. rewrite Hs2.
    split; [split; [done|by rewrite Hs2]|]. split_and!; try done.
    + f_equal. lia.
    + by rewrite take_ge in Hf by (rewrite length_drop; lia).
  - apply IH in HR as (HRely & Hacts & Hid & Hnext & Hfold); [|done|rewrite Hs2; lia].
    split; [apply (Rely_trans p p1); [done|]; by apply (Rely_trans p1 p2)|]. split_and!; try done.
    destruct HRely as [_ [tail Htail]]. rewrite Hs2 in Htail.
    rewrite <-(take_drop n (drop k (events_in p'))), fold_stream_app, drop_drop.
    rewrite Htail at 1. rewrite drop_app_le, take_app_le by (rewrite ?length_drop; lia).
    rewrite Hf. simpl. by replace (k + n) with (k + length page) by lia.
Qed.

(** The state a recovery starts from is the fold of the events before its position. *)
Lemma seed_sound p loaded st n :
  consistent p → loaded = saved (snapshots_of p) pid →
  seed actor (decode_snapshot (VS:=VS) codec loaded) = Some (st, n) →
  ∃ k st', n = position k ∧ (k ≤ length (events_in p))%nat ∧
    state_of (take k (events_in p)) = Some st' ∧ same st' st.
Proof.
  intros [_ Hok] Hl Hs. unfold seed in Hs.
  destruct (decode_snapshot codec loaded) as [[sn m]|] eqn:Hd.
  - destruct loaded as [[m' s]|]; [|done].
    assert (m = m') as -> by (simpl in Hd; by destruct (decode_versioned _ _ _ _) as [[]|]; simplify_eq).
    destruct (init_from_snapshot actor sn) as [[st0|]|] eqn:Hi; simplify_eq/=. by eapply Hok.
  - destruct (init actor) as [[st0|]|] eqn:Hi; simplify_eq/=.
    exists 0%nat, st. split_and!; [done|lia|by unfold state_of; rewrite Hi|done].
Qed.

(** What a recovery comes to. *)
Lemma recover_sound fuel p t r p' :
  consistent p → Run (recover fuel actor codec) p t (Returned (Ok (Some r))) p' →
  acts t = [] ∧ id r = pid ∧ next_seq_no r = position (length (events_in p')) ∧
  (∃ st, state_of (events_in p') = Some st ∧ same st (state r)) ∧ Rely p p'.
Proof.
  intros Hc HR. unfold recover in HR. rewrite Hpid in HR. simpl in HR.
  destruct HR as (p1 & t' & Ho & -> & HR). pose proof (Hothers p p1 Hc Ho) as HR1.
  pose proof (serve_load p1 (proj1 HR1)) as HR2.
  assert (Rely p (serve (EE:=EE) (Load pid) p1).2) as HR3 by (by eapply Rely_trans).
  pose proof (load_ok pid (snapshots_of p1)) as Hl. pose proof (load_saved pid (snapshots_of p1) pid) as Hsv.
  simpl in *. destruct (load pid (snapshots_of p1)) as [a v]. simpl in *.
  destruct a as [[loaded|e]|]; simpl in HR; [|by destruct HR as (_ & ? & _)..].
  specialize (Hl loaded v eq_refl).
  destruct (seed actor (decode_snapshot codec loaded)) as [[st n]|] eqn:Hs; [|by destruct HR as (_ & ? & _)].
  apply (seed_sound (mk_stores (events_of p1) v)) in Hs as (k & st' & -> & Hk & Hst & Hsame);
    [|apply HR3|by simpl; rewrite Hl, Hsv].
  apply replay_sound in HR as (HR4 & Hacts & Hid & Hnext & Hf); [|apply HR3|done].
  split; [done|]. split; [done|]. split; [done|]. split; [|by eapply Rely_trans].
  destruct HR4 as [_ [tail Htail]]. simpl in *.
  apply (fold_stream_same st st') in Hf as (st2 & Hf & Hst2); [|by symmetry].
  exists st2. split; [|by symmetry].
  rewrite <-(take_drop k (events_in p')), state_of_app, Htail, take_app_le, <-Htail by lia.
  by rewrite Hst.
Qed.

(** A recovery only asks the stores, whatever it comes to. *)
Lemma replay_acts fuel st n p t o p' : Run (replay fuel actor codec pid st n) p t o p' → acts t = [].
Proof.
  revert st n p t. induction fuel as [|fuel IH]; intros st n p t HR; cbn [replay] in HR; [by destruct HR as (-> & _)|].
  destruct HR as (p1 & t' & _ & -> & HR). change (acts t' = []).
  destruct (catch_panic_and_log _) as [[page|]|]; [|by destruct HR as (-> & _)..].
  destruct (catch_and_log _) as [[st' n']|]; [|by destruct HR as (-> & _)].
  destruct (decide _); [by destruct HR as (-> & _)|by eapply IH].
Qed.

Lemma recover_acts fuel p t o p' : Run (recover fuel actor codec) p t o p' → acts t = [].
Proof.
  unfold recover. rewrite Hpid. cbn [catch_panic_and_log]. intros (p1 & t' & _ & -> & HR). change (acts t' = []).
  destruct (catch_panic_and_log _) as [[loaded|]|]; [|by destruct HR as (-> & _)..].
  destruct (seed _ _) as [[st n]|]; [by eapply replay_acts|by destruct HR as (-> & _)].
Qed.

(** C21. Whatever is recovered, from a snapshot or in full, and whatever other incarnations append
    meanwhile: it is the fold of exactly the events in the stream, in order and without a gap, up to
    what an incarnation may keep besides, and the position is the end of the stream. And no recovery, failed or not,
    acts outwardly. *)
Theorem recovery_is_replay fuel p t o p' :
  consistent p → Run (recover fuel actor codec) p t o p' →
  acts t = [] ∧ ∀ r, o = Returned (Ok (Some r)) →
    id r = pid ∧ next_seq_no r = position (length (events_in p')) ∧
    (∃ st, state_of (events_in p') = Some st ∧ same st (state r)) ∧ Rely p p'.
Proof.
  intros Hc HR. split; [by eapply recover_acts|]. intros r ->. by eapply recover_sound.
Qed.

(** ** Settlement *)

(** There is room for [n] more events, whatever others do before. *)
Definition room n p : Prop := ∀ p1, others p p1 → (N.of_nat (length (events_in p1) + n) ≤ U64_MAX)%N.

Lemma serve_append p n es :
  consistent p → (N.of_nat (length (events_in p) + length es) ≤ U64_MAX)%N →
  let '(a, p') := serve (SE:=SE) (Append pid n es) p in
  Rely p p' ∧ (events_in p' = events_in p ∨ events_in p' = events_in p ++ es) ∧
  (a = Returned (Ok ()) → n = position (length (events_in p)) ∧ events_in p' = events_in p ++ es).
Proof.
  intros [Hwf Hok] Hroom. simpl. pose proof (append_wf pid n es (events_of p) Hwf Hroom) as Hw.
  pose proof (append_atomic pid n es (events_of p) Hwf Hroom) as Ha.
  pose proof (λ w', append_ok pid n es (events_of p) w' Hwf Hroom) as Ho.
  destruct (append pid n es (events_of p)) as [r w]. simpl in *.
  assert (events_in p `prefix_of` stream w pid) as Hpre
    by (destruct Ha as [-> | ->]; [done|by apply prefix_app_r]).
  split; [split; [split; [done|by apply (snapshot_ok_prefix p)]|done]|].
  split; [done|]. intros ->. destruct (Ho w eq_refl) as [Hn ->]. split; [|done]. unfold position. rewrite <-Hn. by destruct n.
Qed.

Lemma serve_save p k st s :
  consistent p → live k st p → catch_and_log (encode_snapshot actor codec st) = Some (Some s) →
  Rely p (serve (EE:=EE) (Save pid (position k) s) p).2.
Proof.
  intros [Hwf Hok] (Hk & st' & Hst & Hs) He. simpl.
  pose proof (save_ok pid (position k) s (snapshots_of p)) as Hsave.
  destruct (save pid (position k) s (snapshots_of p)) as [r v]. simpl in *.
  split; [|done]. split; [done|]. destruct Hsave as [Hsame|Hnew]; [by apply (snapshot_ok_prefix p)|].
  intros n s' sn st1. simpl. rewrite Hnew. intros [= <- <-] Hd Hi. exists k, st'. split_and!; [done..|].
  etrans; [done|]. unfold encode_snapshot in He.
  destruct (snapshot actor st) as [[[sn'|]|]|] eqn:Hsn; simplify_eq/=.
  destruct (encode codec sn') as [[payload|]|] eqn:Hpl; simplify_eq/=.
  rewrite (decode_versioned_current _ _ _ Hpl) in Hd. simplify_eq. by eapply snapshot_same.
Qed.

Lemma offer_snapshot_run p k st t o p' :
  consistent p → live k st p → Run (offer_snapshot actor codec pid st (position k)) p t o p' →
  Rely p p' ∧ acts t = [] ∧ o = Returned (Ok ()).
Proof.
  intros Hc Hl HR. unfold offer_snapshot, warn_unless_snapshot_saved in HR.
  destruct (catch_and_log _) as [[s|]|] eqn:He.
  - destruct HR as (p1 & t' & Ho & -> & -> & -> & ->). pose proof (Hothers p p1 Hc Ho) as HR1.
    split; [|done]. apply (Rely_trans p p1); [done|]. eapply serve_save; [apply HR1|by eapply live_Rely|done].
  - destruct HR as (-> & -> & ->). by split; [apply Rely_refl|].
  - destruct HR as (-> & -> & ->). by split; [apply Rely_refl|].
Qed.

(** Appending and applying: nothing if the events cannot be encoded, else one request, and all of the
    events in the stream if it goes on. *)
Lemma append_and_apply_run p k st evs t o p' :
  consistent p → room (length evs) p → Run (append_and_apply actor codec pid st (position k) evs) p t o p' →
  Rely p p' ∧
  ((o = Returned (Ok None) ∧ acts t = []) ∨
   ∃ encoded applied p1, others p p1 ∧ encode_events codec evs = Returned (Ok encoded) ∧
     t = [Asked (Append pid (position k) encoded) (Returned (Ok ()))] ∧
     apply_events actor st evs = Returned applied ∧
     o = Returned (Ok (Some (applied, position (k + length evs)))) ∧
     k = length (events_in p1) ∧ events_in p' = events_in p1 ++ encoded).
Proof.
  intros Hc Hroom HR. unfold append_and_apply in HR.
  destruct (encode_events codec evs) as [[encoded|]|] eqn:He; cbn [catch_and_log] in HR;
    [|by destruct HR as (-> & -> & ->); split; [apply Rely_refl|left]..].
  destruct HR as (p1 & t' & Ho & -> & HR). pose proof (Hothers p p1 Hc Ho) as HR1.
  pose proof (length_encode_events _ _ He) as Hlen. pose proof (Hroom p1 Ho) as Hfits. rewrite <-Hlen in Hfits.
  pose proof (serve_append p1 (position k) encoded (proj1 HR1) Hfits) as Ha.
  destruct (serve _ p1) as [a p2]. cbn [fst snd] in *. destruct Ha as (HR2 & _ & Hok).
  assert (Rely p p2) as HR3 by (by eapply Rely_trans).
  destruct a as [[[]|e]|]; simpl in HR; [|by destruct HR as (-> & -> & ->); split; [|left]..].
  destruct (Hok eq_refl) as [Hk Hs]. assert (k = length (events_in p1)) as Hk' by (injection Hk; lia).
  destruct (apply_events actor st evs) as [applied|] eqn:Hap; simpl in HR; destruct HR as (-> & -> & ->).
  - split; [done|right]. exists encoded, applied, p1. split_and!; try done.
    rewrite advanced_by_position by lia. done.
  - split; [done|by left].
Qed.

(** The state after the events of an effect is the fold of the stream they are in. *)
Lemma live_appended k st p p' evs encoded applied tail :
  live k st p → length (events_in p) = k → encode_events codec evs = Returned (Ok encoded) →
  apply_events actor st evs = Returned applied → events_in p' = (events_in p ++ encoded) ++ tail →
  live (k + length evs) applied p'.
Proof.
  intros (Hk & st' & Hst & Hs) Hlen He Ha Hp'. pose proof (length_encode_events _ _ He) as Hl.
  split; [rewrite Hp', !length_app; lia|]. rewrite take_ge in Hst by lia.
  destruct (apply_events_same actor evs st st' applied) as (applied' & Ha' & Hs'); [by symmetry|done|].
  exists applied'. split; [|by symmetry].
  rewrite Hp', take_app_le by (rewrite length_app; lia). rewrite take_ge by (rewrite length_app; lia).
  rewrite state_of_app, Hst. simpl. by rewrite (fold_stream_encoded _ _ _ He), Ha'.
Qed.

(** The events of a settled effect, if any, are in the stream from position [k] on, appended by the one
    request [pre] consists of. *)
Definition durable (k : nat) (evs : list Ev) (pre : list (Did (M:=M) (B:=B) (EE:=EE) (SE:=SE))) p : Prop :=
  match evs with
  | [] => pre = []
  | _ => ∃ encoded, encode_events codec evs = Returned (Ok encoded) ∧
           pre = [Asked (Append pid (position k) encoded) (Returned (Ok ()))] ∧
           take (length evs) (drop k (events_in p)) = encoded
  end.

(** The first half of a settlement. *)
Lemma settle_durable p k st evs t o p' :
  consistent p → live k st p → room (length evs) p →
  Run (if negb (bool_decide (evs = [])) then append_and_apply actor codec pid st (position k) evs
       else ret (Some (st, position k))) p t o p' →
  Rely p p' ∧
  ((o = Returned (Ok None) ∧ acts t = []) ∨
   ∃ applied, o = Returned (Ok (Some (applied, position (k + length evs)))) ∧ acts t = [] ∧
     apply_events actor st evs = Returned applied ∧ durable k evs t p' ∧ live (k + length evs) applied p').
Proof.
  intros Hc Hl Hroom HR. destruct evs as [|ev evs]; simpl in HR.
  - destruct HR as (-> & -> & ->). split; [by apply Rely_refl|]. right. exists st. simpl.
    rewrite Nat.add_0_r. done.
  - apply append_and_apply_run in HR as (HRely & Hcase); [|done..]. split; [done|].
    destruct Hcase as [?|(encoded & applied & p1 & Ho & He & -> & Ha & -> & Hk & Hp')]; [by left|right].
    exists applied. split_and!; try done.
    + exists encoded. split_and!; [done..|]. rewrite Hp', Hk, drop_app_length, take_ge; [done|].
      by rewrite <-(length_encode_events _ _ He).
    + eapply (live_appended k st p1 p' _ encoded _ []); try done.
      * eapply live_Rely; [by eapply Hothers|done].
      * by rewrite app_nil_r.
Qed.

Lemma durable_Rely k evs pre p p' : Rely p p' → (k + length evs ≤ length (events_in p))%nat →
  durable k evs pre p → durable k evs pre p'.
Proof.
  intros [_ [l Hl]] Hk. destruct evs as [|ev evs]; [done|]. intros (encoded & He & -> & <-).
  eexists. split_and!; [done..|]. rewrite Hl, drop_app_le, take_app_le; [done|rewrite length_drop; lia|lia].
Qed.

(** What a settlement does. *)
Lemma settle_sound p k st eff t o p' :
  consistent p → live k st p → room (length (events eff)) p →
  Run (settle actor codec pid st (position k) eff) p t o p' →
  Rely p p' ∧ ∃ r, o = Returned (Ok r) ∧
  ((r = None ∧ acts t = []) ∨
   ∃ pre st1 did ran post, t = pre ++ (Acted <$> did) ++ post ∧ acts pre = [] ∧ acts post = [] ∧
     apply_events actor st (events eff) = Returned st1 ∧
     durable k (events eff) pre p' ∧ live (k + length (events eff)) st1 p' ∧
     DoesThens (thens eff) st1 did ran ∧
     r = match ran with
         | Returned _ => Some (mk_settled st1 (position (k + length (events eff))) (stop eff))
         | Panicked => None
         end).
Proof.
  intros Hc Hl Hroom HR. unfold settle in HR.
  apply Run_bind in HR as [(r1 & t1 & t2 & p1 & -> & H1 & HR)|[(e & -> & H1)|[-> H1]]];
    apply settle_durable in H1 as (HRely & [[Ho Ha]|(st1 & Ho & Ha & Hap & Hd & Hlive)]); try done;
    simplify_eq.
  - destruct HR as (-> & -> & ->). split; [done|]. exists None. split; [done|left]. by rewrite app_nil_r.
  - apply Run_thens in HR as (did & ran & t3 & -> & Hth & HR).
    assert (Rely p1 p' ∧ acts t3 = [] ∧ o = Returned (Ok match ran with
         | Returned _ => Some (mk_settled st1 (position (k + length (events eff))) (stop eff))
         | Panicked => None end)) as (HRely2 & Hpost & ->).
    { destruct ran as [u|]; simpl in HR; [|by destruct HR as (-> & -> & ->); split; [apply Rely_refl, HRely|]].
      apply Run_bind in HR as [(u2 & t4 & t5 & p2 & -> & H2 & (-> & -> & ->))|[(e & -> & H2)|[-> H2]]];
        destruct (negb _); try (apply offer_snapshot_run in H2 as (? & ? & ?); [|apply HRely|done]);
        try destruct H2 as (-> & ? & ->); simplify_eq; rewrite ?app_nil_r; try done.
      by split; [apply Rely_refl, HRely|]. }
    split; [by eapply Rely_trans|]. eexists. split; [done|right].
    exists t1, st1, did, ran, t3. split_and!; try done.
    + eapply durable_Rely; [done|apply Hlive|done].
    + by eapply live_Rely.
Qed.

(** C20. Settling an effect never lets a failure escape, and acts outwardly only once the events are in
    the stream, at the position the actor was at, and have been applied: then it runs the
    continuations in order on the state after the events, and goes on with that state, at the
    position after them, exactly if none of them panics, whatever becomes of the snapshot offered.
    If the events do not become durable or cannot be applied, it stops without having acted. *)
Theorem settlement_acts_once_durable p k st eff t o p' :
  consistent p → live k st p → room (length (events eff)) p →
  Run (settle actor codec pid st (position k) eff) p t o p' →
  Rely p p' ∧ ∃ r, o = Returned (Ok r) ∧
  ((r = None ∧ acts t = []) ∨
   ∃ pre st1 did ran post, t = pre ++ (Acted <$> did) ++ post ∧ acts pre = [] ∧ acts post = [] ∧
     apply_events actor st (events eff) = Returned st1 ∧
     durable k (events eff) pre p' ∧ live (k + length (events eff)) st1 p' ∧
     DoesThens (thens eff) st1 did ran ∧
     r = match ran with
         | Returned _ => Some (mk_settled st1 (position (k + length (events eff))) (stop eff))
         | Panicked => None
         end).
Proof. apply settle_sound. Qed.

(** *** Fencing *)

Lemma append_and_apply_stale p k st evs t o p' :
  consistent p → (k < length (events_in p))%nat → room (length evs) p →
  Run (append_and_apply actor codec pid st (position k) evs) p t o p' →
  o = Returned (Ok None) ∧ acts t = [] ∧ (p' = p ∨ ∃ p1, others p p1 ∧ events_in p' = events_in p1).
Proof.
  intros Hc Hk Hroom HR. pose proof HR as HR'. apply append_and_apply_run in HR' as (_ & Hcase); [|done..].
  destruct Hcase as [[-> Ha]|(enc & a & p1 & Ho & _ & _ & _ & _ & Hk' & _)].
  2: { destruct (Hothers p p1 Hc Ho) as [_ Hpre]. apply prefix_length in Hpre. lia. }
  split; [done|]. split; [done|]. unfold append_and_apply in HR.
  destruct (encode_events codec evs) as [[encoded|]|] eqn:He; cbn [catch_and_log] in HR;
    [|by destruct HR as (_ & _ & ->); left..].
  destruct HR as (p1 & t' & Ho & -> & HR). right. exists p1. split; [done|].
  destruct (Hothers p p1 Hc Ho) as [[Hwf _] Hpre]. apply prefix_length in Hpre.
  pose proof (append_stale pid (position k) encoded (events_of p1) Hwf) as Hst.
  assert (p' = (serve (SE:=SE) (Append pid (position k) encoded) p1).2) as ->.
  { by destruct (catch_panic_and_log _) as [[]|]; [destruct (catch_panic_and_log _)|..];
      destruct HR as (_ & _ & ->). }
  simpl. destruct (append pid _ _ _) as [r w]. simpl in *. apply Hst. lia.
Qed.

(** C24. Fencing: of two incarnations at the same position which both persist events, once one has gone
    on, the other never does: it appends nothing, acts on nothing, and stops for its recovery to find
    what the first one appended. *)
Theorem racing_incarnations_are_fenced p k st1 st2 eff1 eff2 t1 t2 s1 o2 p1 p2 p3 :
  consistent p → live k st1 p → room (length (events eff1)) p →
  Run (settle actor codec pid st1 (position k) eff1) p t1 (Returned (Ok (Some s1))) p1 →
  events eff1 ≠ [] → others p1 p2 → room (length (events eff2)) p2 → events eff2 ≠ [] →
  Run (settle actor codec pid st2 (position k) eff2) p2 t2 o2 p3 →
  o2 = Returned (Ok None) ∧ acts t2 = [] ∧ (p3 = p2 ∨ ∃ p4, others p2 p4 ∧ events_in p3 = events_in p4).
Proof.
  intros Hc Hl Hroom HR1 Hne1 Ho Hroom2 Hne2 HR2.
  apply settle_sound in HR1 as (HRely & r & [= <-] & [[? _]|Hok]); [done| |done..].
  destruct Hok as (pre & st1' & did & ran & post & _ & _ & _ & _ & _ & Hlive & _).
  destruct (Hothers p1 p2) as [Hc2 Hpre]; [apply HRely|done|]. apply prefix_length in Hpre.
  assert (k < length (events_in p2))%nat as Hlt
    by (destruct Hlive as [Hlen _], (events eff1); simpl in *; [done|lia]).
  unfold settle in HR2. rewrite (bool_decide_eq_false_2 (events eff2 = [])) in HR2 by done. simpl in HR2.
  apply Run_bind in HR2 as [(r1 & t3 & t4 & p4 & -> & H1 & HR)|[(e & -> & H1)|[-> H1]]];
    apply append_and_apply_stale in H1 as (? & Ha & Hp); simplify_eq; try done.
  destruct HR as (-> & -> & ->). by rewrite app_nil_r.
Qed.

(** ** Recoveries come to an end *)

(** A request answered without a failure; a snapshot loaded which can be decoded is restored, too. *)
Definition went_well (d : Did (M:=M) (B:=B) (EE:=EE) (SE:=SE)) : Prop :=
  match d with
  | Asked q a =>
      match q return Answer EE SE q → Prop with
      | Load _ => λ a, ∃ loaded, a = Returned (Ok loaded) ∧
          ∀ sn n, decode_snapshot (VS:=VS) codec loaded = Some (sn, n) → ∃ st, init_from_snapshot actor sn = Returned (Ok st)
      | Read _ _ _ => λ a, ∃ page, a = Returned (Ok page)
      | _ => λ _, True
      end a
  | Acted _ => True
  end.

(** What can be replayed can be up to anywhere. *)
Lemma state_of_prefix l1 l2 : l1 `prefix_of` l2 → is_Some (state_of l2) → is_Some (state_of l1).
Proof. intros [l ->]. rewrite state_of_app. by destruct (state_of l1). Qed.

(** The rest of a stream which can be replayed can be, from wherever a replay has got to. *)
Lemma live_rest st k p : live k st p → is_Some (state_of (events_in p)) → is_Some (fold_stream st (drop k (events_in p))).
Proof.
  intros (Hk & st' & Hst & Hs) [st2 H2].
  rewrite <-(take_drop k (events_in p)), state_of_app, Hst in H2. simpl in H2.
  destruct (fold_stream_same st' st st2 _ Hs H2) as (st3 & ? & _). by eexists.
Qed.

(** A page replayed takes a state at a position to the one at the end of the page. *)
Lemma live_page st st1 k p n page k1 :
  consistent p → live k st p → page = numbered k (take n (drop k (events_in p))) →
  replay_page actor codec st (position k) page = Returned (Ok (st1, k1)) →
  k1 = position (k + length page) ∧ live (k + length page) st1 p.
Proof.
  intros [Hwf _] (Hk & st' & Hst & Hs) Hpg Hrp. pose proof (stream_fits _ pid Hwf) as Hfits.
  assert (length page = min n (length (events_in p) - k))%nat as Hlp
    by (by rewrite Hpg, length_numbered, length_take, length_drop).
  apply replay_page_iff in Hrp as (_ & Hf & ->); [|lia]. split; [done|]. split; [lia|].
  rewrite Hpg, event_numbered in Hf. destruct (fold_stream_same st st' st1 _ (symmetry Hs) Hf) as (st2 & H2 & Hs2).
  exists st2. split; [|by symmetry].
  assert (take (k + length page) (events_in p) = take k (events_in p) ++ take n (drop k (events_in p))) as ->.
  { rewrite take_take_drop. destruct (decide (n ≤ length (events_in p) - k)%nat);
      [f_equal; lia|by rewrite !take_ge by lia]. }
  by rewrite state_of_app, Hst.
Qed.

Lemma replay_page_total st k p n page :
  consistent p → page = numbered k (take n (drop k (events_in p))) → live k st p →
  is_Some (state_of (events_in p)) → is_Some (catch_and_log (replay_page actor codec st (position k) page)).
Proof.
  intros Hc -> Hl Hsome. destruct (live_rest _ _ _ Hl Hsome) as [st' Hf]. destruct Hl as [Hk _].
  pose proof (stream_fits _ pid (proj1 Hc)) as Hfits.
  rewrite <-(take_drop n (drop _ _)), fold_stream_app in Hf. apply bind_Some in Hf as (st1 & Hf & _).
  assert (replay_page actor codec st (position k) (numbered k (take n (drop k (events_in p)))) =
          Returned (Ok (st1, position (k + length (numbered k (take n (drop k (events_in p)))))))) as Hrp.
  { apply replay_page_iff.
    - rewrite length_numbered, length_take, length_drop. lia.
    - by rewrite event_numbered. }
  rewrite Hrp. by eexists.
Qed.

Lemma replay_completes fuel st k p t o p' N :
  consistent p → live k st p → (length (events_in p') ≤ N)%nat →
  (N < k + fuel * Pos.to_nat REPLAY_PAGE)%nat →
  Run (replay fuel actor codec pid st (position k)) p t o p' →
  ∃ r, o = Returned (Ok r) ∧ (Forall went_well t → is_Some (state_of (events_in p')) → is_Some r) ∧ (is_Some r → Forall went_well t).
Proof.
  revert st k p t. induction fuel as [|fuel IH]; intros st k p t Hc Hl HN Hfuel HR.
  { destruct Hl as [Hk _], HR as (_ & _ & ->). lia. }
  cbn [replay] in HR. destruct HR as (p1 & t' & Ho & -> & HR). pose proof (Hothers p p1 Hc Ho) as HR1.
  pose proof (live_Rely _ _ _ _ HR1 Hl) as Hl1.
  pose proof (serve_read p1 (position k) REPLAY_PAGE (proj1 HR1)) as HR2.
  pose proof (λ pg, page_of_stream p1 k REPLAY_PAGE pg replay_page_fits (proj1 HR1)) as Hpg.
  set (pg := serve _ p1) in *. clearbody pg. destruct pg as [a p2]. cbn [fst snd] in *.
  destruct a as [[page|e]|]; cbn [catch_panic_and_log] in HR;
    [|by destruct HR as (-> & -> & _); eexists; split_and!; [done|intros [[? [=]] _]%Forall_cons|intros [? [=]]]..].
  specialize (Hpg page eq_refl).
  destruct (replay_page actor codec st (position k) page) as [[[st1 k1]|]|] eqn:Hrp; simpl in HR;
    [|destruct HR as (-> & -> & ->); eexists; split_and!; [done|intros _ Hsome%(state_of_prefix _ _ (proj2 HR2))|intros [? [=]]];
      destruct (replay_page_total st k p1 _ page (proj1 HR1) Hpg Hl1 Hsome) as [? Htot]; by rewrite Hrp in Htot..].
  destruct (live_page _ _ _ _ _ _ _ (proj1 HR1) Hl1 Hpg Hrp) as [-> Hl2].
  destruct (decide (length page < Pos.to_nat REPLAY_PAGE)%nat) as [Hlt|Hge].
  - destruct HR as (-> & -> & _). eexists. split_and!; [done|by eexists|]. intros _. repeat constructor. by exists page.
  - eapply IH in HR as (r & -> & Hr & Hr'); [|apply HR2|by eapply live_Rely|done|lia]. exists r.
    split_and!; [done|by intros [_ ?]%Forall_cons; auto|]. intros Hs. constructor; [by exists page|by apply Hr'].
Qed.

(** C26. A recovery comes to an end: it has a run, and if the stream has at most [N] events at the end of one, it has read
    at most [N / 512 + 1] pages, so any fuel above is enough and never shows. It catches every failure, and it
    succeeds if and only if everything it asked the stores was answered without a failure, the snapshot it was
    given, if any it can decode, can be restored, and what is in the stream in the end can be replayed. *)
Theorem recovery_completes fuel p :
  consistent p →
  ((∀ q, others q q) → ∃ t o p', Run (recover fuel actor codec) p t o p') ∧
  ∀ t o p' N, (length (events_in p') ≤ N < fuel * Pos.to_nat REPLAY_PAGE)%nat → Run (recover fuel actor codec) p t o p' →
  ∃ r, o = Returned (Ok r) ∧ (is_Some r ↔ Forall went_well t ∧ is_Some (state_of (events_in p'))).
Proof.
  intros Hc. split; [apply Run_total|]. intros t o p' N HN HR. pose proof HR as Hrun. unfold recover in HR. rewrite Hpid in HR. cbn [catch_panic_and_log] in HR.
  destruct HR as (p1 & t' & Ho & -> & HR). pose proof (Hothers p p1 Hc Ho) as HR1.
  pose proof (serve_load p1 (proj1 HR1)) as HR2.
  pose proof (load_ok pid (snapshots_of p1)) as Hl. pose proof (load_saved pid (snapshots_of p1) pid) as Hsv.
  simpl in HR, HR2, Hrun |- *. destruct (load pid (snapshots_of p1)) as [a v]. simpl in *.
  destruct a as [[loaded|e]|]; simpl in HR;
    [|by destruct HR as (-> & -> & _); eexists; (split; [done|]); split; [intros [? [=]]|intros [[(? & [=] & _) _]%Forall_cons _]]..].
  specialize (Hl loaded v eq_refl).
  destruct (seed actor (decode_snapshot codec loaded)) as [[st n]|] eqn:Hs.
  - pose proof (seed_sound (mk_stores (events_of p1) v) loaded st n (proj1 HR2)) as Hseed.
    destruct Hseed as (k & st' & -> & Hk & Hst & Hsame); [by simpl; rewrite Hl, Hsv|done|].
    eapply replay_completes in HR as (r & -> & Hr & Hr'); [|apply HR2|split; [done|by eexists]|apply HN|lia].
    exists r. split; [done|]. split; [|intros [[_ ?]%Forall_cons ?]; auto]. intros [rec ->]. split.
    + constructor; [|by apply Hr']. exists loaded. split; [done|]. intros sn n Hd. unfold seed in Hs. rewrite Hd in Hs.
      destruct (init_from_snapshot actor sn) as [[]|]; by eauto.
    + destruct (recover_sound fuel p _ rec p' Hc Hrun) as (_ & _ & _ & (st2 & -> & _) & _). by eexists.
  - destruct HR as (-> & -> & ->). eexists. split; [done|]. split; [intros [? [=]]|intros [[(l & [= <-] & Hi) _]%Forall_cons Hsome]].
    unfold seed in Hs. destruct (decode_snapshot codec loaded) as [[sn n]|].
    + destruct (Hi sn n eq_refl) as [st Hst]. by rewrite Hst in Hs.
    + unfold state_of in Hsome. destruct (init actor) as [[]|]; by destruct Hsome.
Qed.

(** ** The life of an incarnation *)

(** An incarnation from its start on, with the stores after what it has done last. [has_room] keeps the
    length of the stream a [u64]. *)
Definition has_room (self : ActorRef) (i : Incoming M) (st : St) p : Prop :=
  ∀ did eff, Does (handle actor self i st) did (Returned (Ok eff)) → room (length (events eff)) p.

Context (fuel : nat).
#[local] Existing Instance event_sourced_task.
#[local] Abbreviation task_init := (Runtime.init (Actor:=event_sourced_task fuel codec) actor).
#[local] Abbreviation task_receive := (receive (Actor:=event_sourced_task fuel codec) actor).

Inductive Life (self : ActorRef) (p : Stores) : Recovered → Stores → Prop :=
  | life_started t s p' : Run (task_init self) p t (Returned (Ok s)) p' → Life self p s p'
  | life_served s p1 p2 i t s' p3 :
      Life self p s p1 → others p1 p2 → has_room self i (state s) p2 →
      Run (task_receive self i s) p2 t (Returned (Ok (Continue s'))) p3 → Life self p s' p3.

Lemma task_init_run self p t s p' :
  consistent p → Run (task_init self) p t (Returned (Ok s)) p' →
  Rely p p' ∧ id s = pid ∧ next_seq_no s = position (length (events_in p')) ∧
  live (length (events_in p')) (state s) p'.
Proof.
  intros Hc HR. simpl in HR. destruct HR as (p1 & t' & Ho & -> & HR). pose proof (Hothers p p1 Hc Ho) as HR1.
  apply Run_bind in HR as [(r1 & t1 & t2 & p2 & -> & H1 & HR)|[(e & ? & H1)|[? H1]]]; [|done..].
  destruct r1 as [r|]; [|by destruct HR as (_ & ? & _)].
  apply recover_sound in H1 as (_ & Hid & Hn & (st & Hst & Hs) & HR2); [|apply HR1].
  apply Run_catch in HR as (did & o1 & t3 & -> & Hd & HR).
  destruct o1 as [[st'|e]|]; simpl in HR; destruct HR as (-> & ? & ->); simplify_eq/=.
  split; [by eapply Rely_trans|]. split_and!; [done..|].
  split; [lia|]. exists st. rewrite take_ge by lia. split; [done|].
  etrans; [done|]. eapply Does_returns; [|done]. apply recovered_same.
Qed.

Lemma task_receive_run self i s k p t o p' :
  consistent p → id s = pid → next_seq_no s = position k → live k (state s) p → has_room self i (state s) p →
  Run (task_receive self i s) p t o p' →
  Rely p p' ∧ ∀ s', o = Returned (Ok (Continue s')) →
    id s' = pid ∧ ∃ k', next_seq_no s' = position k' ∧ live k' (state s') p'.
Proof.
  intros Hc Hid Hk Hl Hroom HR. simpl in HR. rewrite Hid, Hk in HR.
  apply Run_catch in HR as (did & o1 & t1 & -> & Hd & HR).
  destruct o1 as [[eff|e]|]; simpl in HR; [|by destruct HR as (_ & -> & ->); split; [apply Rely_refl|]..].
  pose proof (Hroom _ _ Hd) as Hr.
  apply Run_bind in HR as [(r1 & t2 & t3 & p2 & -> & H1 & HR)|[(e & -> & H1)|[-> H1]]];
    apply settle_sound in H1 as (HRely & r & ? & Hcase); try done; simplify_eq/=.
  destruct Hcase as [[-> _]|(pre & st1 & did' & ran & post & _ & _ & _ & _ & _ & Hlive & _ & ->)].
  { by destruct HR as (_ & -> & ->). }
  destruct ran as [u|]; simpl in HR; [|by destruct HR as (_ & -> & ->)].
  destruct (stop eff); destruct HR as (_ & -> & ->); split; try done.
  intros s' [= <-]. simpl. split; [done|]. eauto.
Qed.

(** What a life comes to. *)
Lemma life_sound self p s p' :
  consistent p → Life self p s p' →
  Rely p p' ∧ id s = pid ∧ ∃ k, next_seq_no s = position k ∧ live k (state s) p'.
Proof.
  intros Hc HL. induction HL as [t s p' HR|s p1 p2 i t s' p3 _ IH Ho Hroom HR].
  - apply task_init_run in HR as (? & ? & ? & ?); eauto.
  - destruct IH as (HR1 & Hid & k & Hk & Hl). pose proof (Hothers p1 p2 (proj1 HR1) Ho) as HR2.
    apply (task_receive_run self i s k) in HR as [HR3 Hs'];
      [|apply HR2|done|done|by eapply live_Rely|done].
    split; [eapply Rely_trans; [done|by eapply Rely_trans]|]. by apply Hs'.
Qed.

(** The state of a running event-sourced actor is, whatever it has handled and whatever other
    incarnations have done since it started, the fold of the first events of its stream, up to its
    position; and it has only ever added to the stream and left snapshots which stand for its
    events, so the stores stay as consistent as every other incarnation relies on. *)
Theorem live_state_is_the_fold self p s p' :
  consistent p → Life self p s p' →
  Rely p p' ∧ id s = pid ∧ ∃ k, next_seq_no s = position k ∧ live k (state s) p'.
Proof. apply life_sound. Qed.

(** C25. A crash loses nothing: if an incarnation is lost at any point and the next one recovers, having
    relied on nothing but what every incarnation keeps to, it is at least at the position the lost one
    had reached, and if nothing has been appended since, it has the same state again, up to what
    incarnations may keep besides. *)
Theorem recovery_restores_the_live_state self p s p1 p2 t r p3 :
  consistent p → Life self p s p1 → Rely p1 p2 →
  Run (recover fuel actor codec) p2 t (Returned (Ok (Some r))) p3 →
  (as_u64 (next_seq_no s) ≤ as_u64 (next_seq_no r))%N ∧
  (next_seq_no r = next_seq_no s → same (state s) (state r)).
Proof.
  intros Hc HL Ho HR. apply life_sound in HL as (HR1 & _ & k & Hk & Hl); [|done].
  apply recover_sound in HR as (_ & _ & Hn & (st & Hst & Hs) & HR3); [|apply Ho].
  eapply live_Rely in Hl; [|by eapply Rely_trans]. destruct Hl as (Hle & st' & Hst' & Hs').
  rewrite Hk, Hn. simpl. split; [lia|]. intros Heq.
  assert (k = length (events_in p3)) as -> by (injection Heq; lia).
  rewrite take_ge, Hst in Hst' by lia. simplify_eq. by rewrite <-Hs'.
Qed.
End EventSourcing.
