(* ===== verification/EventSourcedSystem.v ===== *)
(** Systems of event-sourced actors, with the stores they share: whatever the interleaving, however many incarnations
    there are of each actor, racing each other or restarted, and whatever other processes which keep to the
    same do to the stores. The tasks are those of [Runtime]; a request one of them awaits is answered by the stores. *)
From S2P Require Import Prelude Backoff Config Flume Quota Actor Mailbox MailboxSpec Tokio Versioning PersistenceIds Store Runtime RuntimeMoves RuntimeTree RuntimeWatch RuntimeSystem RuntimeTrace RuntimeMailboxes Handlers RuntimeThreads EventSourced SpawnEventSourced StoreRuns EventSourcing.

Section EventSourcedSystem.
Context {M B St Ev Sn E C X W V EE SE : Type}.
Context {ES : EventSourced M B St Ev Sn E} {ESL : EventSourcedLaws ES}.
Context {KE : Codec C Ev X} {KS : Codec C Sn X} {VE : Versioned C Ev X} {VS : Versioned C Sn X}.
Context {KEL : CodecLaws KE} {KSL : CodecLaws KS} {VEL : VersionedLaws VE} {VSL : VersionedLaws VS}.
Context {EVS : EventStore W EE} {SNS : SnapshotStore V SE}.
Context {EVL : EventStoreLaws EVS} {SNL : SnapshotStoreLaws SNS}.
#[local] Abbreviation Stores := (Stores W V).
#[local] Abbreviation Program := (Program M B EE SE).
#[local] Abbreviation Recovered := (Recovered (St:=St)).
Implicit Types (p : Stores).

Context (codec : C) (fuel most : nat).

(** ** One incarnation *)

Section Incarnation.
Context (actor : B) (pid : PersistenceId) (Hpid : persistence_id actor = Returned pid).
Context (Hmost : ∀ self i st did eff, Does (handle actor self i st) did (Returned (Ok eff)) → (length (events eff) ≤ most)%nat).
#[local] Abbreviation events_in p := (stream (events_of p) pid).
#[local] Abbreviation consistent := (consistent actor codec pid).
#[local] Abbreviation Rely := (Rely actor codec pid).
#[local] Abbreviation live := (live actor codec pid).

(** What others do: they keep the stores consistent, and the stream never outgrows its positions. *)
Definition has_space p : Prop := (N.of_nat (length (events_in p) + most) ≤ U64_MAX)%N.
Definition others p p' : Prop := Rely p p' ∧ has_space p'.
Lemma others_Rely p p' : consistent p → others p p' → Rely p p'.
Proof. by intros _ []. Qed.
#[local] Abbreviation Run := (Run (M:=M) (B:=B) others).

(** A request of an incarnation is about its own stream. *)
Definition about (q : Request) : Prop :=
  match q with Entered => True | Load id | Read id _ _ | Append id _ _ | Save id _ _ => id = pid end.

(** A program which whatever others do only asks for what keeps the stores consistent, and returns what satisfies
    [post] then. *)
Fixpoint conforms {R} (post : R → Stores → Prop) (h : Program R) p : Prop :=
  match h with
  | HReturn (Ok r) => post r p
  | HReturn (Err _) | HPanic => True
  | HTell _ _ h | HWatch _ h | HUnwatch _ h => conforms post h p
  | HTryTell _ _ _ h => ∀ ok, conforms post (h ok) p
  | HNow h => ∀ now, conforms post (h now) p
  | HSpawn _ _ h => ∀ child, conforms post (h child) p
  | HAwait q h => about q ∧ ∀ p1, others p p1 → Rely p1 (serve q p1).2 ∧ conforms post (h (serve q p1).1) (serve q p1).2
  end.

Lemma conforms_mono {R} (post post' : R → Stores → Prop) h p :
  (∀ r p', post r p' → post' r p') → conforms post h p → conforms post' h p.
Proof. intros Hpost. revert p. induction h as [[]| | | | | | | |]; intros p; simpl; naive_solver. Qed.

Lemma conforms_bind {R1 R2} (post : R2 → Stores → Prop) (h : Program R1) (k : R1 → Program R2) p :
  conforms (λ r p, conforms post (k r) p) h p → conforms post (bind h k) p.
Proof. revert p. induction h as [[]| | | | | | | |]; intros p; simpl; naive_solver. Qed.

Lemma conforms_catch {E0 R1 R2} (post : R2 → Stores → Prop) (h : Code M B E0 R1) (k : outcome (result R1 E0) → Program R2) p :
  (∀ did o, Does h did o → conforms post (k o) p) → conforms post (catch h k) p.
Proof. induction h as [| |to m h IH|f to m h IH|h IH|a c h IH|o h IH|o h IH|[]]; simpl; intros Hk; eauto 8. Qed.

Lemma conforms_thens post (thens : list (Then M B St)) st (k : outcome () → Program (option (Settled (St:=St)))) p :
  (∀ ran, conforms post (k ran) p) → conforms post (run_thens thens st k) p.
Proof.
  intros Hk. induction thens as [|f thens IH]; simpl; [apply Hk|]. apply conforms_catch. intros did [r|] _; [done|apply Hk].
Qed.

(** What holds at the end of every run holds at the end. *)
Lemma conforms_Run {R} (post : R → Stores → Prop) (h : Program R) p :
  conforms (λ _ _, True) h p → (∀ t r p', Run h p t (Returned (Ok r)) p' → post r p') → conforms post h p.
Proof.
  revert p. induction h as [[r|e]| |to m h IH|f to m h IH|h IH|a c h IH|o h IH|o h IH|q h IH]; intros p; simpl; intros Hg HR; try done.
  - by eapply (HR []).
  - apply IH; [done|]. intros t r p' H. eapply HR. eauto.
  - intros ok. apply IH; [done|]. intros t r p' H. eapply HR. eauto.
  - intros ok. apply IH; [done|]. intros t r p' H. eapply HR. eauto.
  - intros ok. apply IH; [done|]. intros t r p' H. eapply HR. eauto.
  - apply IH; [done|]. intros t r p' H. eapply HR. eauto.
  - apply IH; [done|]. intros t r p' H. eapply HR. eauto.
  - destruct Hg as [Hq Hg]. split; [done|]. intros p1 Ho. destruct (Hg p1 Ho) as [HR1 Hg1]. split; [done|].
    apply IH; [done|]. intros t r p' H. eapply HR. eauto 8.
Qed.

(** Others do not keep it from conforming. *)
Lemma conforms_Rely {R} (post : R → Stores → Prop) (h : Program R) p p' :
  (∀ r p1 p2, post r p1 → Rely p1 p2 → post r p2) → Rely p p' → conforms post h p → conforms post h p'.
Proof.
  intros Hpost HR. induction h as [[r|e]| |to m h IH|f to m h IH|h IH|a c h IH|o h IH|o h IH|q h IH]; simpl; eauto.
  intros [Hq Hg]. split; [done|]. intros p1 [HR1 Hs]. apply Hg. split; [by eapply Rely_trans|done].
Qed.

(** *** Recovery *)

Lemma conforms_replay n st next p : conforms (λ _ _, True) (replay n actor codec pid st next) p.
Proof.
  revert st next p. induction n as [|n IH]; intros st next p; cbn [replay conforms]; [done|].
  split; [done|]. intros p1 [[Hc _] _]. split; [by apply serve_read|].
  destruct (catch_panic_and_log _) as [[page|]|]; try done. destruct (catch_and_log _) as [[st1 next1]|]; [|done].
  case_decide; [done|apply IH].
Qed.

Lemma conforms_recover p : conforms (λ _ _, True) (recover fuel actor codec) p.
Proof.
  unfold recover. rewrite Hpid. split; [done|]. intros p1 [[Hc _] _]. split; [by apply serve_load|].
  destruct (catch_panic_and_log _) as [[loaded|]|]; try done. destruct (seed _ _) as [[st next]|]; [apply conforms_replay|done].
Qed.

(** Between its rounds an incarnation is at the fold of the stream. *)
Definition at_fold (s : Recovered) p : Prop := id s = pid ∧ ∃ k, next_seq_no s = position k ∧ live k (state s) p.

Lemma at_fold_Rely s p p' : at_fold s p → Rely p p' → at_fold s p'.
Proof. intros (Hid & k & Hk & Hl) HR. split; [done|]. exists k. split; [done|by eapply live_Rely]. Qed.

#[local] Abbreviation task_init := (Runtime.init (Actor:=event_sourced_task fuel codec) actor).
#[local] Abbreviation task_receive := (receive (Actor:=event_sourced_task fuel codec) actor).

Lemma conforms_init self p : consistent p → conforms at_fold (task_init self) p.
Proof.
  intros Hc. apply conforms_Run.
  - split; [done|]. intros p1 [HR1 _]. split; [apply Rely_refl; apply HR1|]. simpl. apply conforms_bind.
    eapply conforms_mono; [|apply conforms_recover]. intros [r|] p2 _; [|done]. apply conforms_catch. by intros did [[]|] _.
  - intros t s p' HR. apply (task_init_run actor codec pid others others_Rely Hpid fuel self) in HR as (_ & Hid & Hn & Hl); [|done].
    split; [done|eauto].
Qed.

(** *** A round *)

Lemma conforms_append k st evs p :
  consistent p → live k st p → (length evs ≤ most)%nat →
  conforms (λ applied p, match applied with Some (st, next) => ∃ k, next = position k ∧ live k st p | None => True end)
    (if negb (bool_decide (evs = [])) then append_and_apply actor codec pid st (position k) evs else ret (Some (st, position k))) p.
Proof.
  intros Hc Hl Hle. apply conforms_Run.
  - case_bool_decide; simpl; [done|]. unfold append_and_apply. destruct (catch_and_log _) as [encoded|] eqn:He; [|done].
    split; [done|]. intros p1 [[Hc1 _] Hs].
    assert (encode_events codec evs = Returned (Ok encoded)) as He' by (by destruct (encode_events codec evs) as [[]|]; simplify_eq/=).
    pose proof (serve_append actor codec pid p1 (position k) encoded Hc1) as Ha. rewrite (length_encode_events codec _ _ He') in Ha.
    unfold has_space in Hs. destruct (serve _ p1) as [a p2]. destruct Ha as [HR _]; [lia|]. split; [done|].
    simpl. destruct (catch_panic_and_log a) as [[[]|]|]; simpl; [|done..]. by destruct (catch_panic_and_log _).
  - intros t r p' HR. apply (settle_durable actor codec pid others others_Rely) in HR as [_ [[[= ->] _]|(st1 & [= ->] & _ & _ & _ & Hl1)]]; [done|eauto|done..|].
    intros p1 [_ Hs]. unfold has_space in Hs. lia.
Qed.

Lemma conforms_settle k st eff p :
  consistent p → live k st p → (length (events eff) ≤ most)%nat →
  conforms (λ settled p, match settled with
    | Some s => ∃ k, settled_next_seq_no s = position k ∧ live k (settled_state s) p | None => True end)
    (settle actor codec pid st (position k) eff) p.
Proof.
  intros Hc Hl Hle. unfold settle. apply conforms_bind. eapply conforms_mono; [|by apply conforms_append].
  intros [[st1 next]|] p1; [|done]. intros (k1 & -> & Hl1). apply conforms_thens. intros [[]|]; [|done]. apply conforms_bind.
  assert (∀ p2, live k1 st1 p2 → ∃ k, position k1 = position k ∧ live k st1 p2) as Hpost by eauto.
  destruct (negb _); simpl; [|by apply Hpost]. unfold offer_snapshot, warn_unless_snapshot_saved.
  destruct (catch_and_log _) as [[sn|]|] eqn:Hsn; simpl; [|by apply Hpost..].
  split; [done|]. intros p2 [[Hc2 Hpre] _]. assert (live k1 st1 p2) as Hl2 by (by eapply live_Rely).
  pose proof (serve_save (EE:=EE) actor codec pid p2 k1 st1 sn Hc2 Hl2 Hsn) as HR. split; [done|]. by eapply Hpost, live_Rely.
Qed.

Lemma conforms_receive self i s p :
  consistent p → at_fold s p →
  conforms (λ control p, match control with Continue s => at_fold s p | Actor.Stop => True end) (task_receive self i s) p.
Proof.
  intros Hc (Hid & k & Hk & Hl). simpl. apply conforms_catch. intros did o Hd. rewrite Hid, Hk.
  destruct o as [[eff|e]|]; [|done..]. simpl. apply conforms_bind. eapply conforms_mono; [|by apply conforms_settle, (Hmost _ _ _ _ _ Hd)].
  intros [settled|] p1; [|done]. intros (k1 & Hk1 & Hl1). destruct (settled_stop settled); [done|]. simpl. split; [done|eauto].
Qed.
End Incarnation.

(** ** Clients of the stores

    What a program promises to those it shares the stores with: [state_ok] says what its states are good for, whatever
    others do; its code only asks for what keeps the stores consistent and leads to such states again. *)
Class StoreClient {S} (A : Runtime.Actor M B S Failure Request (Answer EE SE)) (pid_of : B → PersistenceId) := {
  state_ok : B → S → Stores → Prop;
  state_ok_Rely actor s p p' : state_ok actor s p → Rely actor codec (pid_of actor) p p' → state_ok actor s p';
  client_init actor self p :
    consistent actor codec (pid_of actor) p → conforms actor (pid_of actor) (state_ok actor) (Runtime.init actor self) p;
  client_receive actor self i s p :
    consistent actor codec (pid_of actor) p → state_ok actor s p →
    conforms actor (pid_of actor) (λ control p, match control with Continue s => state_ok actor s p | Actor.Stop => True end)
      (receive actor self i s) p;
  client_apart actor actor' p p' :
    pid_of actor = pid_of actor' → Rely actor codec (pid_of actor) p p' → Rely actor' codec (pid_of actor') p p';
}.

(** Event-sourced actors are: between their rounds they are at the fold of their streams. *)
#[export] Program Instance event_sourced_client (pid_of : B → PersistenceId)
    (Hpid : ∀ actor, persistence_id actor = Returned (pid_of actor)) (Hids : ∀ actor actor', pid_of actor = pid_of actor' → actor = actor')
    (Hmost : ∀ actor self i st did eff, Does (handle actor self i st) did (Returned (Ok eff)) → (length (events eff) ≤ most)%nat) :
    StoreClient (event_sourced_task fuel codec) pid_of := {
  state_ok actor := at_fold actor (pid_of actor);
}.
Next Obligation. intros pid_of ??? actor s p p'. apply at_fold_Rely. Qed.
Next Obligation. intros pid_of Hpid ?? actor self p. apply conforms_init, Hpid. Qed.
Next Obligation. intros pid_of ?? Hmost actor self i s p. apply conforms_receive, Hmost. Qed.
Next Obligation. intros pid_of ? Hids ? actor actor' p p' Heq HR. by rewrite <-(Hids _ _ Heq). Qed.

(** ** The system *)

Section System.
Context {F : Flume} {FL : FlumeLaws F} {TW : TokioWatch} {TL : TokioWatchLaws TW}.
Context {TO : TokioOneshot} {TOL : TokioOneshotLaws TO}.
Context {S : Type} {A : Runtime.Actor M B S Failure Request (Answer EE SE)} (pid_of : B → PersistenceId).
#[local] Abbreviation World := (World (M:=M) (B:=B) (S:=S) (E:=Failure) (Rq:=Request) (An:=Answer EE SE)).
#[local] Abbreviation Phase := (Phase (M:=M) (B:=B) (S:=S) (E:=Failure) (Rq:=Request) (An:=Answer EE SE)).
#[local] Abbreviation Label := (Label (M:=M) (An:=Answer EE SE)).
#[local] Abbreviation Env := (Env (An:=Answer EE SE)).
#[local] Abbreviation Obs := (Obs (M:=M)).
Implicit Types (w : World) (ph : Phase) (a : ActorId) (t u : list Obs).

(** The request a task awaits. *)
Definition awaited ph : option Request :=
  match ph with Initializing (HAwait q _) | Receiving (HAwait q _) _ => Some q | _ => None end.
Definition awaiting w a : option Request := c ← cells w !! a; awaited (phase c).

(** A recovery is given up once its actor has been told to stop, when it polls for that. *)
Definition given_up (e : Env) w a : bool :=
  match cells w !! a with
  | Some c => match phase c with Initializing _ => abandons e c w | _ => false end
  | None => false
  end.

(** What the stores answer. *)
Definition answering p (e : Env) : Env := mk_env (now e) (new_id e) (timer_fired e) (at_once e) (λ q, (serve q p).1).

(** What can happen: a step of this system, in which a request given up may still have reached the stores, or one of
    another process. *)
Inductive Happening :=
  | Here (lb : Label) (reached : bool)
  | Elsewhere (f : Stores → Stores).

Definition happens (x : Happening) w p : option (World * list Obs * Stores) :=
  match x with
  | Here (LTask a e) reached =>
      match awaiting w a with
      | Some q =>
          '(w', u) ← step (LTask a (answering p e)) w;
          Some (w', u, if given_up e w a && negb reached then p else (serve q p).2)
      | None => '(w', u) ← step (LTask a e) w; Some (w', u, p)
      end
  | Here lb _ => '(w', u) ← step lb w; Some (w', u, p)
  | Elsewhere f => Some (w, [], f p)
  end.

Fixpoint happen (xs : list Happening) w p : option (World * list Obs * Stores) :=
  match xs with
  | [] => Some (w, [], p)
  | x :: xs =>
      '(w, u, p) ← happens x w p;
      '(w, u', p) ← happen xs w p;
      Some (w, u ++ u', p)
  end.

(** *** The invariant *)

Context {SC : StoreClient A pid_of}.

(** The stores as all actors rely on them, and what others may do to them. *)
Definition all_consistent p : Prop := ∀ actor, consistent actor codec (pid_of actor) p.
Definition all_rely p p' : Prop := ∀ actor, Rely actor codec (pid_of actor) p p'.
Definition spacious p : Prop := ∀ actor, has_space (pid_of actor) p.
Definition well_meant (x : Happening) : Prop :=
  match x with Elsewhere f => ∀ p, all_consistent p → spacious p → all_rely p (f p) | Here _ _ => True end.

Definition phase_ok (actor : B) ph p : Prop :=
  let pid := pid_of actor in
  match ph with
  | Initializing h => conforms actor pid (state_ok actor) h p
  | NextIncoming s _ => state_ok actor s p
  | Receiving h _ => conforms actor pid (λ control p, match control with Continue s => state_ok actor s p | Actor.Stop => True end) h p
  | _ => True
  end.

Lemma phase_ok_Rely actor ph p p' : all_rely p p' → phase_ok actor ph p → phase_ok actor ph p'.
Proof.
  intros HR. specialize (HR actor). destruct ph; simpl; try done.
  - eapply conforms_Rely; [|done]. apply state_ok_Rely.
  - intros Hs. by eapply state_ok_Rely.
  - eapply conforms_Rely; [|done]. intros [s|] p1 p2; [apply state_ok_Rely|done].
Qed.

(** What an actor asks for leaves what others rely on. *)
Lemma serve_others actor q p :
  all_consistent p → about (pid_of actor) q → Rely actor codec (pid_of actor) p (serve (EE:=EE) (SE:=SE) q p).2 →
  all_rely p (serve (EE:=EE) (SE:=SE) q p).2.
Proof.
  intros Hc Hq HR actor'. destruct (decide (pid_of actor' = pid_of actor)) as [Heq|Hne].
  { by apply (client_apart actor). }
  destruct HR as [[Hwf' Hok'] Hpre].
  destruct (Hc actor') as [Hwf Hok].
  assert (stream (events_of (serve (EE:=EE) (SE:=SE) q p).2) (pid_of actor') = stream (events_of p) (pid_of actor') ∧
          saved (snapshots_of (serve (EE:=EE) (SE:=SE) q p).2) (pid_of actor') = saved (snapshots_of p) (pid_of actor')) as [Hst Hsv].
  { destruct q as [|i|i n limit|i n es|i n sn]; simpl in *; [done|subst i..].
    - pose proof (load_saved (pid_of actor) (snapshots_of p) (pid_of actor')) as Hl. by destruct (load _ _).
    - pose proof (read_stream (pid_of actor) n limit (events_of p) (pid_of actor') Hwf) as Hl. by destruct (read _ _ _ _).
    - pose proof (append_other (pid_of actor) n es (events_of p) (pid_of actor') Hwf Hne) as Hl. by destruct (append _ _ _ _).
    - pose proof (save_other (pid_of actor) n sn (snapshots_of p) (pid_of actor') Hne) as Hl. by destruct (save _ _ _ _). }
  split; [split; [done|]|by rewrite Hst]. eapply snapshot_ok_prefix; [done|by rewrite Hst|done].
Qed.


Lemma conforms_acts {R} (actor : B) pid (post : R → Stores → Prop) (h h' : Program R) e p :
  RuntimeThreads.acts h e h' → (∀ q k, h ≠ HAwait q k) → conforms actor pid post h p → conforms actor pid post h' p.
Proof.
  intros Ha Hne Hc. destruct h as [| | | | | | | |q k]; apply acts_inv in Ha; simpl in Ha; try done; try (open_all; subst; simpl in *; by eauto).
  by destruct (Hne q k).
Qed.

(** Between the requests the stores stay as they are. *)
Lemma phase_ok_step actor self ph ev ph' p :
  thread_step actor self ph ev ph' → awaited ph = None → all_consistent p → phase_ok actor ph p → phase_ok actor ph' p.
Proof.
  intros Hstep Haw Hc Hph. destruct Hstep; simpl in *; try done.
  - eapply (conforms_acts actor); [eassumption| |eassumption]. by intros q k ->.
  - apply client_receive; [apply Hc|done].
  - eapply (conforms_acts actor); [eassumption| |eassumption]. by intros q k ->.
  - apply client_init, Hc.
Qed.

(** What a task asks for is its own affair, and keeps what others rely on. *)
Lemma conforms_asks {R} (actor : B) (post : R → Stores → Prop) q k p :
  spacious p → all_consistent p → conforms actor (pid_of actor) post (HAwait q k) p →
  all_rely p (serve (EE:=EE) (SE:=SE) q p).2 ∧ conforms actor (pid_of actor) post (k (serve q p).1) (serve q p).2.
Proof.
  intros Hsp Hc [Hq Hg]. destruct (Hg p) as [HR Hk]; [split; [by apply Rely_refl|apply Hsp]|].
  split; [|done]. by apply (serve_others actor).
Qed.

(** Who awaits an answer gets it, unless it gives up. *)
Lemma awaiting_step (e : Env) a w w' u c q p :
  spacious p → all_consistent p → phase_ok (actor c) (phase c) p →
  cells w !! a = Some c → awaited (phase c) = Some q → answer e q = (serve q p).1 → task_step e a w = Some (w', u) →
  all_rely p (serve (EE:=EE) (SE:=SE) q p).2 ∧
  ∃ ph, tasks w' = <[a := at_phase (task_of c) ph]> (tasks w) ∧
    (given_up e w a = true ∧ ph = Terminating TDrain ∨
     given_up e w a = false ∧ phase_ok (actor c) ph (serve (EE:=EE) (SE:=SE) q p).2).
Proof.
  intros Hsp Hcons Hok Hc Haw Hans Hs. unfold given_up. rewrite Hc. unfold task_step in Hs.
 rewrite Hc in Hs.
  cbn [mbind option_bind] in Hs.
  destruct (phase c) as [[]| |[]| | | | | |] eqn:Hp; try discriminate Haw; injection Haw as ->; cbn [handler_step mbind option_bind] in Hs; rewrite Hans in Hs; cbn [phase_ok] in Hok;
    (destruct (conforms_asks (actor c) _ q _ p Hsp Hcons Hok) as [HR Hk]); (split; [exact HR|]).
  - destruct (abandons e c w); simplify_eq; eexists; (split; [by first [apply tasks_goto|apply tasks_put]|]); [by left|right; split; [done|exact Hk]].
  - simplify_eq. eexists. split; [by apply tasks_goto|]. right. split; [done|exact Hk].
Qed.

Record system_ok w p : Prop := {
  so_consistent : all_consistent p;
  so_phases : ∀ a k, tasks w !! a = Some k → phase_ok (t_actor k) (t_phase k) p;
}.

Lemma all_rely_refl p : all_consistent p → all_rely p p.
Proof. intros Hc actor. by apply Rely_refl. Qed.

Lemma system_ok_rely w w' p p' :
  tasks w' = tasks w → all_rely p p' → system_ok w p → system_ok w' p'.
Proof.
  intros Ht HR [Hc Hph]. split; [intros actor; apply HR|]. rewrite Ht. intros a k Hk. eapply phase_ok_Rely; [done|exact (Hph a k Hk)].
Qed.

(** A task's step which awaits nothing. *)
Lemma quiet_step_ok a w w' u ev ph p :
  advances a w w' u ev ph → awaiting w a = None → system_ok w p → system_ok w' p.
Proof.
  intros (k & Hk & Hstep & _ & Hback & _ & Ha & _)%advances_tasks Haw [Hc Hph]. split; [done|]. intros b kb Hb.
  assert (awaited (t_phase k) = None) as Hnone.
  { apply tasks_lookup in Hk as (c & Hcell & <-). unfold awaiting in Haw. by rewrite Hcell in Haw. }
  destruct (Hback _ _ Hb) as [[-> ->]|[[_ Hb']|(act & config & g & _ & _ & _ & ->)]].
  - eapply phase_ok_step; [exact Hstep|done|done|exact (Hph _ _ Hk)].
  - exact (Hph _ _ Hb').
  - simpl. apply client_init, Hc.
Qed.

Context (root watcher : ActorId) (act0 : B) (config0 : ActorConfig) (ids : root ≠ watcher).
#[local] Abbreviation new := (system_new root watcher act0 config0).

(** Along a run every step of a task advances its thread. *)
Lemma run_advances a e w w' t u h :
  runs (λ _, True) new w t h → task_step e a w = Some (w', u) → ∃ ev ph, advances a w w' u ev ph.
Proof.
  intros Hr. destruct (runs_invariants _ _ _ _ ids _ _ _ _ Hr) as (_ & Hsys & _). apply task_step_advances.
  intros c other ok w1 u1 Ha Hrun. eapply watch_succeeds; [by apply (si_watch _ _ _ _ Hsys)|done|done].
Qed.

Lemma happens_ok x w t h p w' u p' :
  runs (λ _, True) new w t h → system_ok w p → spacious p → well_meant x → happens x w p = Some (w', u, p') →
  (∃ h', runs (λ _, True) new w' (t ++ u) h') ∧ system_ok w' p' ∧ all_rely p p'.
Proof.
  intros Hr Hok Hsp Hx Hs. destruct x as [lb reached|f]; last first.
  { simpl in Hs. simplify_eq. rewrite app_nil_r. specialize (Hx p (so_consistent _ _ Hok) Hsp).
    split; [by exists h|]. split; [by eapply system_ok_rely|done]. }
  pose proof (λ a e w1 u1, run_advances a e w w1 t u1 h Hr) as Hadv.
  assert ((∀ a e, lb ≠ LTask a e) → (∃ h', runs (λ _, True) new w' (t ++ u) h') ∧ system_ok w' p' ∧ all_rely p p') as Hout.
  { intros Hne. assert (step lb w = Some (w', u) ∧ p' = p) as [Hlb ->].
    { destruct lb as [a e| | | |]; [by destruct (Hne a e)|..]; simpl in Hs; by apply bind_Some in Hs as ([w1 u1] & ? & ?); simplify_eq. }
    destruct (outside_step _ _ _ _ Hne Hlb) as [Ht Hu]. split; [exists h; by eapply runs_outside|].
    split; [by eapply system_ok_rely, Hok; [|apply all_rely_refl, Hok]|apply all_rely_refl, Hok]. }
  destruct lb as [a e| | | |]; try by apply Hout. clear Hout. simpl in Hs. destruct (awaiting w a) as [q|] eqn:Haw.
  - apply bind_Some in Hs as ([w1 u1] & Hs & ?). simplify_eq. destruct (Hadv _ _ _ _ Hs) as (ev & ph & Hev).
    split; [exists (happened a ev h); by eapply runs_task|]. unfold awaiting in Haw.
    apply bind_Some in Haw as (c & Hc & Haw).
    destruct (awaiting_step (answering p e) _ _ _ _ _ _ p Hsp (so_consistent _ _ Hok) (so_phases _ _ Hok _ _ (lookup_tasks _ _ _ Hc)) Hc Haw eq_refl Hs)
      as (Hall & ph' & Ht & Hcase).
    assert (∀ p', all_rely p p' → phase_ok (actor c) ph' p' → system_ok w' p') as Hgo.
    { intros p' HR Hph'. split; [intros actor; apply HR|]. rewrite Ht. intros b k [[<- <-]|[_ Hb]]%lookup_insert_Some; [exact Hph'|].
      eapply phase_ok_Rely; [exact HR|exact (so_phases _ _ Hok _ _ Hb)]. }
    change (given_up (answering p e) w a) with (given_up e w a) in Hcase.
    destruct Hcase as [[Hgive ->]|[Hgive Hph']]; rewrite Hgive; cbn [andb negb]; [destruct reached|]; cbn [negb]; (split; [|done || apply all_rely_refl, Hok]).
    + by apply Hgo.
    + apply Hgo; [apply all_rely_refl, Hok|done].
    + by apply Hgo.
  - apply bind_Some in Hs as ([w1 u1] & Hs & ?). simplify_eq. destruct (Hadv _ _ _ _ Hs) as (ev & ph & Hev).
    split; [exists (happened a ev h); by eapply runs_task|]. split; [by eapply quiet_step_ok|apply all_rely_refl, Hok].
Qed.


(** There is space at all times. *)
Definition always_spacious (xs : list Happening) w p : Prop :=
  ∀ xs1 xs2 w1 u1 p1, xs = xs1 ++ xs2 → happen xs1 w p = Some (w1, u1, p1) → spacious p1.

Lemma always_spacious_takes xs w p :
  (∀ n w1 u1 p1, (n ≤ length xs)%nat → happen (take n xs) w p = Some (w1, u1, p1) → spacious p1) → always_spacious xs w p.
Proof. intros H xs1 xs2 w1 u1 p1 -> H1. eapply (H (length xs1)); [rewrite length_app; lia|]. by rewrite take_app_length. Qed.

(** Another process which appends at the end of an actor's stream, what it has read, means well. *)
Definition append_at_end (pid : PersistenceId) (es : list EncodedEvent) p : Stores :=
  (serve (EE:=EE) (SE:=SE) (Append pid (position (length (stream (events_of p) pid))) es) p).2.

Lemma append_at_end_well_meant actor es :
  (length es ≤ most)%nat → well_meant (Elsewhere (append_at_end (pid_of actor) es)).
Proof.
  intros Hle p Hc Hs. apply (serve_others actor); [done|done|]. specialize (Hs actor). unfold has_space in Hs.
  pose proof (serve_append actor codec (pid_of actor) p (position (length (stream (events_of p) (pid_of actor)))) es (Hc actor)) as Ha.
  destruct (serve _ p) as [a p']. destruct Ha as [HR _]; [lia|exact HR].
Qed.

Lemma happen_ok xs w t h p w' u p' :
  runs (λ _, True) new w t h → system_ok w p → always_spacious xs w p → Forall well_meant xs → happen xs w p = Some (w', u, p') →
  (∃ h', runs (λ _, True) new w' (t ++ u) h') ∧ system_ok w' p' ∧ all_rely p p'.
Proof.
  revert w t h p u. induction xs as [|x xs IH]; intros w t h p u Hr Hok Hsp Hx Hs.
  { simpl in Hs. simplify_eq. rewrite app_nil_r. split; [by exists h|]. split; [done|apply all_rely_refl, Hok]. }
  simpl in Hs. apply bind_Some in Hs as ([[w1 u1] p1] & H1 & Hs). apply bind_Some in Hs as ([[w2 u2] p2] & H2 & ?). simplify_eq.
  apply Forall_cons in Hx as [Hx Hxs].
  destruct (happens_ok _ _ _ _ _ _ _ _ Hr Hok (Hsp [] (x :: xs) w [] p eq_refl eq_refl) Hx H1) as ([h1 Hr1] & Hok1 & HR1).
  destruct (IH w1 (t ++ u1) h1 p1 u2 Hr1 Hok1) as (Hr2 & Hok2 & HR2); [|done|done|].
  - intros xs1 xs2 w0 u0 p0 -> H0. eapply (Hsp (x :: xs1) xs2); [done|]. simpl. rewrite H1. simpl. by rewrite H0.
  - rewrite (assoc_L (++)). split; [done|]. split; [done|]. intros actor. by eapply Rely_trans.
Qed.

Lemma system_starts_ok p : all_consistent p → system_ok new p.
Proof.
  intros Hc. split; [done|]. intros a k Hk. unfold tasks in Hk. simpl in Hk. rewrite map_fmap_singleton in Hk.
  apply lookup_singleton_Some in Hk as [_ <-]. simpl. apply client_init, Hc.
Qed.

(** Clients share the stores. *)
Lemma clients_share_the_stores xs w t p p' :
  all_consistent p → always_spacious xs new p → Forall well_meant xs → happen xs new p = Some (w, t, p') →
  (∃ h, runs (λ _, True) new w t h) ∧ all_consistent p' ∧ all_rely p p' ∧
  ∀ a c s up, cells w !! a = Some c → phase c = NextIncoming s up → state_ok (actor c) s p'.
Proof.
  intros Hc Hsp Hx Hs.
  destruct (happen_ok xs new [] no_histories p w t p' (runs_start _ _) (system_starts_ok p Hc) Hsp Hx Hs) as (Hr & [Hc' Hph] & HR).
  split_and!; [done..|]. intros a c s up Ha Hp. pose proof (Hph _ _ (lookup_tasks _ _ _ Ha)) as Hok. simpl in Hok. by rewrite Hp in Hok.
Qed.
End System.

Section EventSourcedClients.
Context {F : Flume} {FL : FlumeLaws F} {TW : TokioWatch} {TL : TokioWatchLaws TW}.
Context {TO : TokioOneshot} {TOL : TokioOneshotLaws TO}.
#[local] Instance task : Runtime.Actor M B Recovered Failure Request (Answer EE SE) := event_sourced_task fuel codec.
Context (pid_of : B → PersistenceId) (Hpid : ∀ actor, persistence_id actor = Returned (pid_of actor)).
Context (Hids : ∀ actor actor', pid_of actor = pid_of actor' → actor = actor').
Context (Hmost : ∀ actor self i st did eff, Does (handle actor self i st) did (Returned (Ok eff)) → (length (events eff) ≤ most)%nat).
Context (root watcher : ActorId) (act0 : B) (config0 : ActorConfig) (ids : root ≠ watcher).
#[local] Abbreviation new := (system_new root watcher act0 config0).

(** C22. Incarnations share the stores safely. In every interleaving of a system of event-sourced actors with each other and
    with other processes, through restarts, recoveries given up half-way and with any number of incarnations of the same
    actor racing each other: the run is one of the runtime; streams only ever grow and the snapshots stay
    those of states of the streams; and every actor between two incomings is in the state which the events of its
    stream up to its position add up to. *)
Theorem incarnations_share_the_stores xs w t p p' :
  all_consistent pid_of p → always_spacious pid_of xs new p → Forall (well_meant pid_of) xs → happen xs new p = Some (w, t, p') →
  (∃ ls, exec ls new = Some (w, t)) ∧
  (∀ actor, stream (events_of p) (pid_of actor) `prefix_of` stream (events_of p') (pid_of actor) ∧
     consistent actor codec (pid_of actor) p') ∧
  (∀ a c s up, cells w !! a = Some c → phase c = NextIncoming s up → id s = pid_of (actor c) ∧
     ∃ k st, next_seq_no s = position k ∧ (k ≤ length (stream (events_of p') (pid_of (actor c))))%nat ∧
       state_of (actor c) codec (take k (stream (events_of p') (pid_of (actor c)))) = Some st ∧ same st (state s)).
Proof.
  intros Hc Hsp Hx Hs. pose (SC := event_sourced_client pid_of Hpid Hids Hmost).
  destruct (clients_share_the_stores pid_of root watcher act0 config0 ids xs w t p p' Hc Hsp Hx Hs) as ([h Hr] & Hc' & HR & Hok).
  split; [destruct (runs_exec _ _ _ _ ids _ _ _ _ Hr) as (ls & _ & He); by exists ls|]. split.
  - intros actor. split; [apply HR|apply Hc'].
  - intros a c s up Ha Hp. destruct (Hok a c s up Ha Hp) as (Hid & k & Hk & Hle & st & Hst & Hsame). split; [done|]. exists k, st. done.
Qed.
End EventSourcedClients.
End EventSourcedSystem.
