(* ===== verification/EventSourcedRequests.v ===== *)
(** What the actors of a system ask the stores for, whatever they are answered, and hence what the streams can hold: an
    event-sourced actor only ever appends events which its [handle] has returned. *)
From S2P Require Import Prelude Backoff Config Flume Quota Actor Mailbox MailboxSpec Tokio Versioning PersistenceIds Store Runtime RuntimeMoves RuntimeTree RuntimeWatch RuntimeSystem RuntimeTrace RuntimeMailboxes Handlers RuntimeThreads EventSourced SpawnEventSourced StoreRuns EventSourcing EventSourcedSystem.

Section EventSourcedRequests.
Context {M B St Ev Sn E C X W V EE SE : Type}.
Context {ES : EventSourced M B St Ev Sn E} {ESL : EventSourcedLaws ES}.
Context {KE : Codec C Ev X} {KS : Codec C Sn X} {VE : Versioned C Ev X} {VS : Versioned C Sn X}.
Context {KEL : CodecLaws KE} {KSL : CodecLaws KS} {VEL : VersionedLaws VE} {VSL : VersionedLaws VS}.
Context {EVS : EventStore W EE} {SNS : SnapshotStore V SE}.
Context {EVL : EventStoreLaws EVS} {SNL : SnapshotStoreLaws SNS}.
#[local] Abbreviation Stores := (Stores W V).
#[local] Abbreviation Program := (Program M B EE SE).
Implicit Types (p : Stores).

Context (codec : C) (fuel most : nat).

(** A program which only asks for what satisfies [Q]. *)
Fixpoint asks {R} (Q : Request → Prop) (h : Program R) : Prop :=
  match h with
  | HReturn _ | HPanic => True
  | HTell _ _ h | HWatch _ h | HUnwatch _ h => asks Q h
  | HTryTell _ _ _ h => ∀ ok, asks Q (h ok)
  | HNow h => ∀ now, asks Q (h now)
  | HSpawn _ _ h => ∀ child, asks Q (h child)
  | HAwait q h => Q q ∧ ∀ answer, asks Q (h answer)
  end.

Lemma asks_mono {R} (Q Q' : Request → Prop) (h : Program R) : (∀ q, Q q → Q' q) → asks Q h → asks Q' h.
Proof. intros HQ. induction h; simpl; naive_solver. Qed.

Lemma asks_bind {R1 R2} Q (h : Program R1) (k : R1 → Program R2) : asks Q h → (∀ r, asks Q (k r)) → asks Q (bind h k).
Proof. intros Hh Hk. induction h as [[]| | | | | | | |]; simpl in *; naive_solver. Qed.

Lemma asks_catch {E0 R1 R2} Q (h : Code M B E0 R1) (k : outcome (result R1 E0) → Program R2) :
  (∀ did o, Does h did o → asks Q (k o)) → asks Q (catch h k).
Proof. induction h as [| |to m h IH|f to m h IH|h IH|a c h IH|o h IH|o h IH|[]]; simpl; intros Hk; eauto 8. Qed.

Lemma asks_acts {R} Q (h h' : Program R) e : RuntimeThreads.acts h e h' → asks Q h → asks Q h'.
Proof. intros Ha Hh. destruct h; apply acts_inv in Ha; simpl in *; try done; open_all; subst; naive_solver. Qed.

(** ** Event-sourced actors *)

(** An event which [handle] has returned, as it is stored. *)
Definition handled (actor : B) (e : EncodedEvent) : Prop :=
  ∃ self i st did eff es, Does (handle actor self i st) did (Returned (Ok eff)) ∧
    encode_events (VE:=VE) codec (events eff) = Returned (Ok es) ∧ e ∈ es.

(** What is appended satisfies [ok]. *)
Definition appends (ok : EncodedEvent → Prop) (q : Request) : Prop :=
  match q with Append _ _ es => Forall ok es ∧ (length es ≤ most)%nat | _ => True end.

Section Incarnation.
Context (actor : B).
Context (Hmost : ∀ self i st did eff, Does (handle actor self i st) did (Returned (Ok eff)) → (length (events eff) ≤ most)%nat).
#[local] Abbreviation Q := (appends (handled actor)).

Lemma asks_replay n id st next : asks Q (replay (SE:=SE) n actor codec id st next).
Proof.
  revert st next. induction n as [|n IH]; intros st next; simpl; [done|]. split; [done|]. intros page.
  destruct (catch_panic_and_log page) as [[l|]|]; try done. destruct (catch_and_log _) as [[st1 next1]|]; [|done].
  case_decide; [done|apply IH].
Qed.

Lemma asks_recover : asks Q (recover (EE:=EE) (SE:=SE) fuel actor codec).
Proof.
  unfold recover. destruct (catch_panic_and_log _) as [id|]; [|done]. split; [done|]. intros loaded.
  destruct (catch_panic_and_log loaded) as [[l|]|]; try done. destruct (seed _ _) as [[st next]|]; [apply asks_replay|done].
Qed.

Lemma asks_thens thens st (k : outcome () → Program (option (Settled (St:=St)))) :
  (∀ ran, asks Q (k ran)) → asks Q (run_thens thens st k).
Proof. intros Hk. induction thens as [|f thens IH]; simpl; [apply Hk|]. apply asks_catch. intros did [r|] _; [done|apply Hk]. Qed.

Lemma asks_settle self i st did eff id next :
  Does (handle actor self i st) did (Returned (Ok eff)) → asks Q (settle (EE:=EE) (SE:=SE) actor codec id st next eff).
Proof.
  intros Hd. unfold settle. apply asks_bind.
  - destruct (negb _); [|done]. unfold append_and_apply. destruct (catch_and_log _) as [es|] eqn:He; [|done].
    assert (encode_events codec (events eff) = Returned (Ok es)) as He' by (by destruct (encode_events codec (events eff)) as [[]|]; simplify_eq/=).
    split.
    + split; [|rewrite (length_encode_events codec _ _ He'); by eapply Hmost].
      apply Forall_forall. intros e Hin. by exists self, i, st, did, eff, es.
    + intros a. by destruct (catch_panic_and_log a) as [[]|]; simpl; [destruct (catch_panic_and_log _)|..].
  - intros [[st1 next1]|]; [|done]. apply asks_thens. intros ran. destruct (catch_panic_and_log ran); [|done].
    apply asks_bind; [|done]. destruct (negb _); [|done]. unfold offer_snapshot.
    by destruct (warn_unless_snapshot_saved _) as [[]|].
Qed.

#[local] Abbreviation task_init := (Runtime.init (Actor:=event_sourced_task (EE:=EE) (SE:=SE) fuel codec) actor).
#[local] Abbreviation task_receive := (receive (Actor:=event_sourced_task (EE:=EE) (SE:=SE) fuel codec) actor).

Lemma asks_init self : asks Q (task_init self).
Proof.
  split; [done|]. intros _. apply asks_bind; [apply asks_recover|]. intros [r|]; [|done].
  apply asks_catch. intros did o _. by destruct (catch_and_log o).
Qed.

Lemma asks_receive self i s : asks Q (task_receive self i s).
Proof.
  simpl. apply asks_catch. intros did o Hd. destruct (catch_and_log o) as [eff|] eqn:Ho; [|done].
  destruct o as [[eff'|]|]; simplify_eq/=. apply asks_bind; [by eapply asks_settle|].
  intros [settled|]; [|done]. by destruct (settled_stop settled).
Qed.
End Incarnation.

(** ** Systems *)

Section System.
Context {F : Flume} {FL : FlumeLaws F} {TW : TokioWatch} {TL : TokioWatchLaws TW}.
Context {TO : TokioOneshot} {TOL : TokioOneshotLaws TO}.
Context {S : Type} {A : Runtime.Actor M B S Failure Request (Answer EE SE)} (pid_of : B → PersistenceId).
Context {SC : StoreClient codec most A pid_of}.
#[local] Abbreviation World := (World (M:=M) (B:=B) (S:=S) (E:=Failure) (Rq:=Request) (An:=Answer EE SE)).
#[local] Abbreviation Phase := (Phase (M:=M) (B:=B) (S:=S) (E:=Failure) (Rq:=Request) (An:=Answer EE SE)).
#[local] Abbreviation Happening := (Happening (M:=M) (EE:=EE) (SE:=SE) (W:=W) (V:=V)).
#[local] Abbreviation all_consistent := (all_consistent codec pid_of).
#[local] Abbreviation spacious := (spacious most pid_of).
Implicit Types (w : World) (ph : Phase) (a : ActorId).

(** What each actor appends. *)
Context (ok : B → EncodedEvent → Prop).
#[local] Abbreviation Q actor := (appends (ok actor)).
Context (Hinit : ∀ actor self, asks (Q actor) (Runtime.init actor self)).
Context (Hreceive : ∀ actor self i s, asks (Q actor) (receive actor self i s)).

Definition phase_asks (actor : B) ph : Prop :=
  match ph with
  | Initializing h => asks (Q actor) h
  | Receiving h _ => asks (Q actor) h
  | _ => True
  end.

Lemma phase_asks_step actor self ph ev ph' : thread_step actor self ph ev ph' → phase_asks actor ph → phase_asks actor ph'.
Proof. intros Hstep Hph. destruct Hstep; simpl in *; first [done|apply Hreceive|apply Hinit|by eapply asks_acts]. Qed.

Definition all_ask w : Prop := ∀ a k, tasks w !! a = Some k → phase_asks (t_actor k) (t_phase k).

Lemma all_ask_advances a w w' u ev ph : advances a w w' u ev ph → all_ask w → all_ask w'.
Proof.
  intros (k & Hk & Hstep & _ & Hback & _)%advances_tasks Hw b kb Hb.
  destruct (Hback _ _ Hb) as [[-> ->]|[[_ Hb']|(act & config & g & _ & _ & _ & ->)]]; simpl; [|by eapply Hw|apply Hinit].
  eapply phase_asks_step; [done|by eapply Hw].
Qed.

(** A stream only has events added which an actor with this stream appends. *)
Definition grown (pid : PersistenceId) p p' : Prop :=
  ∃ added, stream (events_of p') pid = stream (events_of p) pid ++ added ∧ Forall (λ e, ∃ actor, pid_of actor = pid ∧ ok actor e) added.
Definition all_grown p p' : Prop := ∀ pid, grown pid p p'.

#[export] Instance all_grown_preorder : PreOrder all_grown.
Proof.
  split.
  - intros p pid. exists []. by rewrite app_nil_r.
  - intros p1 p2 p3 H1 H2 pid. destruct (H1 pid) as (l1 & E1 & F1), (H2 pid) as (l2 & E2 & F2).
    exists (l1 ++ l2). rewrite E2, E1, (assoc_L (++)). split; [done|]. by apply Forall_app.
Qed.

Lemma same_streams_grown p p' : (∀ pid, stream (events_of p') pid = stream (events_of p) pid) → all_grown p p'.
Proof. intros Heq pid. exists []. by rewrite Heq, app_nil_r. Qed.

Lemma append_grown actor n es p :
  store_wf (events_of p) → has_space most (pid_of actor) p → Forall (ok actor) es → (length es ≤ most)%nat →
  all_grown p (serve (EE:=EE) (SE:=SE) (Append (pid_of actor) n es) p).2.
Proof.
  intros Hwf Hs Hes Hle pid. unfold has_space in Hs. simpl. destruct (append (pid_of actor) n es (events_of p)) as [r w] eqn:Ha. simpl.
  destruct (decide (pid = pid_of actor)) as [->|Hne].
  - pose proof (append_atomic (pid_of actor) n es (events_of p) Hwf ltac:(lia)) as Hat. rewrite Ha in Hat.
    destruct Hat as [Hat|Hat]; simpl in Hat; unfold grown; simpl; rewrite Hat; [exists []; by rewrite app_nil_r|].
    exists es. split; [done|]. eapply Forall_impl; [exact Hes|]. eauto.
  - pose proof (append_other (pid_of actor) n es (events_of p) pid Hwf Hne) as Hat. rewrite Ha in Hat. simpl in Hat.
    exists []. by rewrite app_nil_r.
Qed.

Lemma serve_grown actor q p :
  store_wf (events_of p) → has_space most (pid_of actor) p → about (pid_of actor) q → Q actor q → all_grown p (serve (EE:=EE) (SE:=SE) q p).2.
Proof.
  intros Hwf Hs Hq Hes. destruct q as [|i|i n limit|i n es|i n sn]; simpl in Hq; [done|subst i..].
  - apply same_streams_grown. intros pid. simpl. by destruct (load _ _).
  - apply same_streams_grown. intros pid. simpl. pose proof (read_stream (pid_of actor) n limit (events_of p) pid Hwf) as Hr.
    by destruct (read _ _ _ _).
  - destruct Hes. by apply append_grown.
  - apply same_streams_grown. intros pid. simpl. by destruct (save _ _ _ _).
Qed.

Context (root watcher : ActorId) (act0 : B) (config0 : ActorConfig) (ids : root ≠ watcher).
#[local] Abbreviation new := (system_new root watcher act0 config0).

(** What others add is likewise. *)
Definition writes_alike (x : Happening) : Prop :=
  match x with Elsewhere f => ∀ p, all_consistent p → spacious p → all_grown p (f p) | Here _ _ => True end.

Lemma happens_grown x w t h p w' u p' :
  runs (λ _, True) new w t h → system_ok codec most pid_of w p → all_ask w → spacious p → writes_alike x →
  happens x w p = Some (w', u, p') → all_ask w' ∧ all_grown p p'.
Proof.
  intros Hr Hok Hw Hsp Hx Hs. destruct x as [lb reached|f]; last first.
  { simpl in Hs. simplify_eq. split; [done|]. apply Hx; [apply Hok|done]. }
  assert ((∀ a e, lb ≠ LTask a e) → all_ask w' ∧ all_grown p p') as Hout.
  { intros Hne. assert (step lb w = Some (w', u) ∧ p' = p) as [Hlb ->].
    { destruct lb as [a e| | | |]; [by destruct (Hne a e)|..]; simpl in Hs; by apply bind_Some in Hs as ([w1 u1] & ? & ?); simplify_eq. }
    split; [|done]. intros a. rewrite (proj1 (outside_step _ _ _ _ Hne Hlb)). apply Hw. }
  destruct lb as [a e| | | |]; try by apply Hout. clear Hout. simpl in Hs. destruct (awaiting w a) as [q|] eqn:Haw.
  - apply bind_Some in Hs as ([w1 u1] & Hs & ?). simplify_eq.
    destruct (run_advances root watcher act0 config0 ids _ _ _ _ _ _ _ Hr Hs) as (ev & ph & Hev). split; [by eapply all_ask_advances|].
    destruct (_ && _); [done|]. unfold awaiting in Haw. apply bind_Some in Haw as (c & Hc & Haw).
    pose proof (so_phases _ _ _ _ _ Hok _ _ (lookup_tasks _ _ _ Hc)) as Hph. pose proof (Hw _ _ (lookup_tasks _ _ _ Hc)) as Ha.
    simpl in Hph, Ha. eapply (serve_grown (actor c)); [apply (so_consistent _ _ _ _ _ Hok (actor c))|apply Hsp|..];
      destruct (phase c) as [[]| |[]| | | | | |]; try discriminate Haw; injection Haw as ->; [apply Hph..|apply Ha|apply Ha].
  - apply bind_Some in Hs as ([w1 u1] & Hs & ?). simplify_eq.
    destruct (run_advances root watcher act0 config0 ids _ _ _ _ _ _ _ Hr Hs) as (ev & ph & Hev). split; [by eapply all_ask_advances|done].
Qed.

Lemma append_at_end_writes_alike actor es :
  (length es ≤ most)%nat → Forall (ok actor) es → writes_alike (Elsewhere (append_at_end (EE:=EE) (SE:=SE) (pid_of actor) es)).
Proof. intros Hle Hes p Hc Hs. apply append_grown; [apply (Hc actor)|apply Hs|done|done]. Qed.

Lemma all_ask_new : all_ask new.
Proof.
  intros a k Hk. unfold tasks in Hk. simpl in Hk. rewrite map_fmap_singleton in Hk.
  apply lookup_singleton_Some in Hk as [_ <-]. apply Hinit.
Qed.

Lemma happen_grown xs w t h p w' u p' :
  runs (λ _, True) new w t h → system_ok codec most pid_of w p → all_ask w → always_spacious most pid_of xs w p →
  Forall (well_meant codec most pid_of) xs → Forall writes_alike xs → happen xs w p = Some (w', u, p') → all_grown p p'.
Proof.
  revert w t h p u. induction xs as [|x xs IH]; intros w t h p u Hr Hok Hw Hsp Hwell Hx Hs; simpl in Hs; [by simplify_eq|].
  apply bind_Some in Hs as ([[w1 u1] p1] & H1 & Hs). apply bind_Some in Hs as ([[w2 u2] p2] & H2 & ?). simplify_eq.
  apply Forall_cons in Hx as [Hx Hxs]. apply Forall_cons in Hwell as [Hwl Hwells].
  pose proof (Hsp [] (x :: xs) w [] p eq_refl eq_refl) as Hp.
  destruct (happens_ok codec most pid_of root watcher act0 config0 ids _ _ _ _ _ _ _ _ Hr Hok Hp Hwl H1) as ([h1 Hr1] & Hok1 & _).
  destruct (happens_grown _ _ _ _ _ _ _ _ Hr Hok Hw Hp Hx H1) as [Hw1 Hg1].
  etrans; [exact Hg1|]. eapply IH; [exact Hr1|exact Hok1|exact Hw1| |exact Hwells|exact Hxs|exact H2].
  intros xs1 xs2 w0 u0 p0 -> H0. eapply (Hsp (x :: xs1) xs2); [done|]. simpl. rewrite H1. simpl. by rewrite H0.
Qed.

(** Streams only have events added which an actor appends. *)
Lemma streams_grow xs w t p p' :
  all_consistent p → always_spacious most pid_of xs new p → Forall (well_meant codec most pid_of) xs → Forall writes_alike xs →
  happen xs new p = Some (w, t, p') → all_grown p p'.
Proof. intros Hc. apply (happen_grown xs new [] no_histories); [apply runs_start|by apply system_starts_ok|apply all_ask_new]. Qed.
End System.

(** In a system of event-sourced actors: nothing is in a stream but what was there, what others have written, and
    events which have been handled. *)
Theorem streams_hold_what_was_handled {F : Flume} {FL : FlumeLaws F} {TW : TokioWatch} {TL : TokioWatchLaws TW}
    {TO : TokioOneshot} {TOL : TokioOneshotLaws TO} (pid_of : B → PersistenceId)
    (Hpid : ∀ actor, persistence_id actor = Returned (pid_of actor)) (Hids : ∀ actor actor', pid_of actor = pid_of actor' → actor = actor')
    (Hmost : ∀ actor self i st did eff, Does (handle actor self i st) did (Returned (Ok eff)) → (length (events eff) ≤ most)%nat)
    root watcher act0 config0 xs w t p p' :
  let new := system_new (H:=event_sourced_task (EE:=EE) (SE:=SE) fuel codec) root watcher act0 config0 in
  root ≠ watcher → all_consistent codec pid_of p → always_spacious (A:=event_sourced_task fuel codec) most pid_of xs new p →
  Forall (well_meant codec most pid_of) xs → Forall (writes_alike pid_of handled) xs →
  happen (A:=event_sourced_task fuel codec) xs new p = Some (w, t, p') →
  ∀ pid, ∃ added, stream (events_of p') pid = stream (events_of p) pid ++ added ∧
    Forall (λ e, ∃ actor, pid_of actor = pid ∧ handled actor e) added.
Proof.
  intros new ids Hc Hsp Hwell Hx Hs. pose (SC := event_sourced_client codec fuel most pid_of Hpid Hids Hmost).
  apply (streams_grow (A:=event_sourced_task fuel codec) pid_of handled
    (λ actor, asks_init actor) (λ actor, asks_receive actor (Hmost actor)) root watcher act0 config0 ids xs w t p p'); done.
Qed.
End EventSourcedRequests.
