(* ===== verification/Testing.v ===== *)
(** Testing actors without a running system: [tellus/src/testing.rs]. What a [TestContext] collects is the
    mailbox of its context; [settle] runs an effect without any store, and agrees with how the run loop
    settles it. *)
From S2P Require Import Prelude Config Flume Quota Mailbox MailboxSpec Versioning PersistenceIds Store Actor Runtime Handlers EventSourced SpawnEventSourced StoreRuns.

(** ** [TestContext] *)

Section TestContext.
Context {F : Flume} {Sink M : Type}.

(** A context with a fresh mailbox, unbounded, and the receiving half of it. *)
Record TestContext := mk_test_context { context : ActorId; test_mailbox : MailboxState Sink M }.

Definition new_test_context (id : ActorId) : TestContext :=
  mk_test_context id (handle_clone (make_mailbox (mailbox_capacity (with_mailbox_capacity default_config Unbounded)))).

(** [iter::from_fn(|| self.mailbox.try_recv()).collect()], with fuel for the calls. *)
Fixpoint take_incoming_from (fuel : nat) (b : MailboxState Sink M) : list (Incoming M) * MailboxState Sink M :=
  match fuel with
  | 0%nat => ([], b)
  | S fuel =>
      match mailbox_try_recv b with
      | (Some i, b) => let '(l, b) := take_incoming_from fuel b in (i :: l, b)
      | (None, b) => ([], b)
      end
  end.

Definition take_incoming (fuel : nat) (c : TestContext) : list (Incoming M) * TestContext :=
  let '(l, b) := take_incoming_from fuel (test_mailbox c) in (l, mk_test_context (context c) b).

Context {FL : FlumeLaws F}.

Lemma mailbox_try_recv_effect (b : MailboxState Sink M) :
  match mqueue b with
  | [] => mailbox_try_recv b = (None, b)
  | i :: q => ∃ b', mailbox_try_recv b = (Some i, b') ∧ mqueue b' = q
  end.
Proof.
  unfold mailbox_try_recv, mqueue. destruct (queue (item_tx (incoming_tx b))) as [|i q] eqn:Hq.
  - by rewrite (try_recv_nil _ _ Hq).
  - destruct (try_recv_cons _ _ i q Hq) as (c' & -> & Hq' & _). by eexists.
Qed.

(** Everything enqueued since the last call is taken, in the order it arrived, signals among messages,
    and nothing is left; the loop ends after one call more than there are items. *)
Theorem take_incoming_takes_everything fuel (c : TestContext) :
  (length (mqueue (test_mailbox c)) < fuel)%nat →
  (take_incoming fuel c).1 = mqueue (test_mailbox c) ∧
  mqueue (test_mailbox (take_incoming fuel c).2) = [] ∧
  ∀ more, take_incoming (fuel + more) c = take_incoming fuel c.
Proof.
  intros Hfuel. assert (∃ b', mqueue b' = [] ∧ ∀ more,
    take_incoming_from (fuel + more) (test_mailbox c) = (mqueue (test_mailbox c), b')) as (b' & Hb & Hall).
  { revert Hfuel. generalize (test_mailbox c) as b. clear c. induction fuel as [|fuel IH]; intros b Hfuel; [lia|].
    pose proof (mailbox_try_recv_effect b) as He. simpl. destruct (mqueue b) as [|i q] eqn:Hq.
    - exists b. split; [done|]. intros more. by rewrite He.
    - destruct He as (b1 & -> & Hq1). destruct (IH b1) as (b' & Hb' & Hall); [rewrite Hq1; simpl in *; lia|].
      exists b'. split; [done|]. intros more. by rewrite Hall, Hq1. }
  unfold take_incoming. pose proof (Hall 0%nat) as H0. rewrite Nat.add_0_r in H0. rewrite H0. simpl.
  split_and!; [done..|]. intros more. by rewrite Hall.
Qed.
End TestContext.

Import Reference.

Lemma take_incoming_takes_everything_witness :
  let c := mk_test_context (mk_actor_id 1) (try_send_message 5%N (make_mailbox (Sink:=Sink) Unbounded)).2 in
  (take_incoming 2 c).1 = [Message 5%N].
Proof.
  intros c. refine (eq_trans (proj1 (take_incoming_takes_everything 2 c _)) _).
  - vm_compute. lia.
  - reflexivity.
Defined.

(** ** [settle] *)

Section Settle.
Context {M B St Ev Sn E C X EE SE : Type}.
Context {ES : EventSourced M B St Ev Sn E} {KE : Codec C Ev X} {KS : Codec C Sn X}.
Context {VE : Versioned C Ev X} {VS : Versioned C Sn X}.

Record Settlement := mk_settlement { settlement_state : St; settlement_stop : bool }.

Fixpoint then_all (thens : list (Then M B St)) (state : St) (k : Code M B Nothing Settlement)
    : Code M B Nothing Settlement :=
  match thens with
  | [] => k
  | f :: thens => do u := f state in then_all thens state k
  end.

(** Panics are not caught. *)
Definition settle (actor : B) (state : St) (effect : Effect M B St Ev) : Code M B Nothing Settlement :=
  match apply_events actor state (events effect) with
  | Panicked => HPanic
  | Returned state => then_all (thens effect) state (ret (mk_settlement state (stop effect)))
  end.

Lemma then_all_does thens state s did :
  Does (then_all thens state (ret s)) did (Returned (Ok s)) ↔ DoesThens thens state did (Returned ()).
Proof.
  revert did. induction thens as [|f thens IH]; intros did; simpl; [naive_solver|].
  rewrite Does_bind_Ok. split.
  - intros (u & t1 & t2 & -> & H1 & H2). exists t1, (Returned (Ok u)), t2. by rewrite <-IH.
  - intros (t1 & o & t2 & -> & H1 & H2). destruct o as [[u|[]]|]; [|by destruct H2].
    exists u, t1, t2. by rewrite IH.
Qed.

Context {W V : Type} {EVS : EventStore W EE} {SNS : SnapshotStore V SE}.
Context (others : relation (Stores W V)).

Lemma append_and_apply_applies actor codec id st n evs p t st' n' p' :
  Run (M:=M) (B:=B) others (append_and_apply actor codec id st n evs) p t (Returned (Ok (Some (st', n')))) p' →
  acts t = [] ∧ apply_events actor st evs = Returned st'.
Proof.
  unfold append_and_apply. destruct (catch_and_log _); [|by intros (_ & ? & _)].
  intros (p1 & t' & _ & -> & HR). destruct (catch_panic_and_log _) as [[]|]; try by destruct HR as (_ & ? & _).
  destruct (apply_events actor st evs); simpl in HR; [|by destruct HR as (_ & ? & _)].
  by destruct HR as (-> & [= -> _] & _).
Qed.

Lemma offer_snapshot_acts actor codec id st n p t o p' :
  Run (M:=M) (B:=B) others (offer_snapshot actor codec id st n) p t o p' → acts t = [] ∧ o = Returned (Ok ()).
Proof.
  unfold offer_snapshot. destruct (warn_unless_snapshot_saved _) as [[s|]|].
  - by intros (p1 & t' & _ & -> & -> & -> & _).
  - by intros (-> & -> & _).
  - by intros (-> & -> & _).
Qed.

(** Settling an effect in a test is settling it for real, but for the stores: whenever the run loop of
    an event-sourced actor settles the effect, whatever the stores and whoever interferes, the test
    does the same actions in the same order and ends in the same state with the same decision. *)
Theorem test_settle_agrees actor codec id st n eff p t s p' :
  Run (M:=M) (B:=B) others (SpawnEventSourced.settle actor codec id st n eff) p t (Returned (Ok (Some s))) p' →
  Does (settle actor st eff) (acts t) (Returned (Ok (mk_settlement (settled_state s) (settled_stop s)))).
Proof.
  unfold SpawnEventSourced.settle, settle. intros HR.
  apply Run_bind in HR as [(r & t1 & t2 & p1 & -> & H1 & HR)|[(e & ? & _)|[? _]]]; [|done..].
  destruct r as [[st1 n1]|]; [|by destruct HR as (_ & ? & _)].
  assert (acts t1 = [] ∧ apply_events actor st (events eff) = Returned st1) as [Ha1 ->].
  { case_bool_decide as Hev; simpl in H1; [|by eapply append_and_apply_applies].
    destruct H1 as (-> & [= -> _] & _). by rewrite Hev. }
  apply Run_thens in HR as (did & ran & t3 & -> & Hth & HR).
  destruct ran as [[]|]; simpl in HR; [|by destruct HR as (_ & ? & _)].
  apply Run_bind in HR as [([] & t4 & t5 & p2 & -> & H2 & HR)|[(e & ? & _)|[? _]]]; [|done..].
  assert (acts t4 = []) as Ha4.
  { destruct (negb _); [by apply offer_snapshot_acts in H2 as [? _]|by destruct H2 as (-> & _)]. }
  destruct HR as (-> & [= ->] & _). rewrite !acts_app, Ha1, Ha4, acts_acted, !app_nil_r. simpl.
  by apply then_all_does.
Qed.
End Settle.
