(* ===== verification/EventSourcedCounter.v ===== *)
(** The event-sourced counter of [tellus-persistence-postgres/examples/event_sourced_counter.rs], over the
    in-memory store: the hypotheses of the theorems of [EventSourcing] are met by its runs. *)
From S2P Require Import Prelude Config Actor Versioning PersistenceIds Store InMemoryStore Runtime Handlers EventSourced SpawnEventSourced StoreRuns EventSourcing Testing.
From Stdlib Require Import Strings.Byte.

(** [Command], and the reply its [ReplyTo] sends: the new count, as a message to the asker. *)
Inductive Command :=
  | Increment (reply_to : ActorRef)
  | StopCommand
  | Count (count : N).

Inductive Increased := increased.

#[export] Instance Increased_format : Format Increased () := {
  write _ := Returned (Ok [x80%byte]);
  parse payload := Returned (match payload with [x80%byte] => Ok increased | _ => Err () end);
}.
#[export] Instance Nothing_format : Format Nothing () := nothing_format (λ _, ()).

#[export] Instance Increased_versioned : Versioned Cbor Increased () :=
  versioned_default "increased"%string (mk_schema_version 1).
#[export] Instance Nothing_versioned : Versioned Cbor Nothing () := nothing_versioned (Cbor_codec Nothing_format).

(** The counter has no data. *)
Inductive Counter := counter.

Definition counter_id : PersistenceId := mk_persistence_id "counter"%string "example"%string.

#[export] Instance Counter_event_sourced : EventSourced Command Counter N Increased Nothing Nothing := {
  persistence_id _ := match new_persistence_id "counter"%string "example"%string with Ok id => Returned id | Err _ => Panicked end;
  EventSourced.init _ := Returned (Ok 0%N);
  init_from_snapshot _ snapshot := match snapshot with end;
  recovered := default_recovered;
  handle _ _ incoming _ :=
    match incoming with
    | Message (Increment reply_to) =>
        HReturn (Ok (add_then (persist increased) (λ count, HTell reply_to (Count count) (HReturn (Ok ())))))
    | Message StopCommand => HReturn (Ok stop_effect)
    | Message (Count _) | Terminated _ => HReturn (Ok none)
    end;
  (* An overflow of the [u64] panics, as in a build with debug assertions. *)
  apply _ state _ := if decide (state < U64_MAX)%N then Returned (state + 1)%N else Panicked;
  snapshot := default_snapshot;
}.

#[export, refine] Instance Counter_laws : EventSourcedLaws Counter_event_sourced := { same := eq }.
Proof.
  - intros a e s s' t <- Ht. eauto.
  - done.
  - intros a s [].
Defined.

#[export] Instance Increased_laws : CodecLaws (Cbor_codec Increased_format).
Proof. intros c [] p He. simpl in *. unfold encode_with in He. simpl in He. by injection He as <-. Qed.
#[export] Instance Nothing_laws : CodecLaws (Cbor_codec Nothing_format).
Proof. intros c []. Qed.
#[export] Instance Increased_versioned_laws : VersionedLaws Increased_versioned := _.
#[export] Instance Nothing_versioned_laws : VersionedLaws Nothing_versioned := _.

(** ** Runs, without interference *)

Abbreviation CounterStores := (Stores InMemoryStore NoSnapshots).
Definition counter_stores : CounterStores := mk_stores default_store no_snapshots.
Definition alone : relation CounterStores := λ p p', p' = p.

Definition asker : ActorRef := mk_ref (mk_actor_id 7).
Definition counter_ref : ActorRef := mk_ref (mk_actor_id 8).

Abbreviation counter_run h p :=
  (run_alone (M:=Command) (B:=Counter) (EE:=Infallible) (SE:=Infallible) counter_ref h p).

Definition counter_settle (n : nat) (state : N) (eff : Effect Command Counter N Increased) :=
  SpawnEventSourced.settle (EE:=Infallible) (SE:=Infallible) counter mk_cbor counter_id state (position n) eff.

Definition increment : Effect Command Counter N Increased :=
  add_then (persist increased) (λ count, HTell asker (Count count) (HReturn (Ok ()))).

Lemma alone_refl p : alone p p.
Proof. done. Qed.

Definition encoded_increment : EncodedEvent :=
  mk_encoded_event "increased"%string (mk_schema_version 1) [x80%byte].
Definition store_1 : InMemoryStore := (append counter_id (position 0) [encoded_increment] default_store).2.
Definition store_2 : InMemoryStore := (append counter_id (position 1) [encoded_increment] store_1).2.

Lemma store_1_wf : in_memory_wf store_1.
Proof. apply (append_wf (EventStoreLaws:=InMemory_event_laws)); [apply in_memory_wf_default|]. vm_compute. discriminate. Qed.
Lemma store_2_wf : in_memory_wf store_2.
Proof. apply (append_wf (EventStoreLaws:=InMemory_event_laws)); [apply store_1_wf|]. vm_compute. discriminate. Qed.

Lemma counter_consistent (w : InMemoryStore) :
  in_memory_wf w → consistent counter mk_cbor counter_id (mk_stores w no_snapshots).
Proof. intros Hwf. by split. Qed.

Lemma alone_Rely p p' :
  consistent counter mk_cbor counter_id p → alone p p' → Rely counter mk_cbor counter_id p p'.
Proof. intros Hc ->. by apply Rely_refl. Qed.

(** The stores after no, one and two increments. *)
Definition stores_0 : CounterStores := mk_stores default_store no_snapshots.
Definition stores_1 : CounterStores := mk_stores store_1 no_snapshots.
Definition stores_2 : CounterStores := mk_stores store_2 no_snapshots.

Definition counter_recover := recover (EE:=Infallible) (SE:=Infallible) 1 counter mk_cbor.

Definition settled_trace (n : nat) : list (Did (M:=Command) (B:=Counter) (EE:=Infallible) (SE:=Infallible)) :=
  [Asked (Append counter_id (position n) [encoded_increment]) (Returned (Ok ()));
   Acted (ATell asker (Count (N.of_nat (S n))))].

Lemma run_1 :
  Run alone (counter_settle 0 0 increment) stores_0 (settled_trace 0)
    (Returned (Ok (Some (mk_settled 1%N (position 1) false)))) stores_1.
Proof. eapply (run_alone_Run _ counter_ref); [done|]. vm_compute. reflexivity. Qed.

Lemma run_recovery :
  ∃ t, Run (M:=Command) (B:=Counter) alone counter_recover stores_2 t
    (Returned (Ok (Some (mk_recovered counter_id 2%N (position 2))))) stores_2.
Proof. eexists. eapply (run_alone_Run _ counter_ref); [done|]. vm_compute. reflexivity. Qed.

Lemma counter_live : live counter mk_cbor counter_id 0 0%N stores_0.
Proof. split; [lia|]. by exists 0%N. Qed.

Lemma counter_room n : (n ≤ 1)%nat → room counter_id alone n stores_0.
Proof. intros Hn p ->. assert (stream (events_of stores_0) counter_id = []) as -> by reflexivity. simpl. lia. Qed.

Lemma settlement_acts_once_durable_witness :
  Rely counter mk_cbor counter_id stores_0 stores_1 ∧
  durable mk_cbor counter_id 0 [increased] [Asked (M:=Command) (B:=Counter) (EE:=Infallible) (SE:=Infallible)
    (Append counter_id (position 0) [encoded_increment]) (Returned (Ok ()))] stores_1.
Proof.
  destruct (settlement_acts_once_durable counter mk_cbor counter_id alone alone_Rely stores_0 0 0%N increment _ _ _
              (counter_consistent _ in_memory_wf_default) counter_live (counter_room 1 (le_n 1)) run_1)
    as (HR & _).
  split; [exact HR|]. exists [encoded_increment]. split_and!; reflexivity.
Defined.

Lemma recovery_is_replay_witness :
  ∃ t, acts (M:=Command) (B:=Counter) (EE:=Infallible) (SE:=Infallible) t = [] ∧
    next_seq_no (mk_recovered counter_id 2%N (position 2)) = position (length (in_memory_stream store_2 counter_id)).
Proof.
  destruct run_recovery as [t HR]. exists t.
  destruct (recovery_is_replay counter mk_cbor counter_id alone alone_Rely eq_refl 1 stores_2 _ _ _
              (counter_consistent _ store_2_wf) HR) as (Ha & Hr). destruct (Hr _ eq_refl) as (_ & Hn & _).
  split; [exact Ha|exact Hn].
Defined.

(** A second incarnation, still at position 0, increments after the first one has. *)
Lemma racing_incarnations_are_fenced_witness :
  ∃ t o p, Run alone (counter_settle 0 0 increment) stores_1 t o p ∧
    o = Returned (Ok None) ∧ acts (M:=Command) (B:=Counter) t = [].
Proof.
  eexists _, _, _. split.
  - eapply (run_alone_Run _ counter_ref); [done|]. vm_compute. reflexivity.
  - refine (match racing_incarnations_are_fenced counter mk_cbor counter_id alone alone_Rely
              stores_0 0 0%N 0%N increment increment (settled_trace 0) _ _ _ stores_1 stores_1 _
              (counter_consistent _ in_memory_wf_default) counter_live (counter_room 1 (le_n 1)) run_1
              _ eq_refl _ _ _ with conj H (conj H' _) => conj H H' end).
    + discriminate.
    + intros p ->. assert (length (stream (events_of stores_1) counter_id) = 1%nat) as -> by reflexivity.
      simpl. lia.
    + discriminate.
    + eapply (run_alone_Run _ counter_ref); [done|]. vm_compute. reflexivity.
Defined.

(** A counter started on a stream of one event and incremented once. *)
Lemma counter_life :
  Life counter mk_cbor counter_id alone 1 counter_ref stores_1
    (mk_recovered counter_id 2%N (position 2)) stores_2.
Proof.
  eapply (life_served _ _ _ _ _ _ _ (mk_recovered counter_id 1%N (position 1)) stores_1 stores_1
            (Message (Increment asker))); [|done| |].
  - eapply life_started. eapply (run_alone_Run _ counter_ref); [done|]. vm_compute. reflexivity.
  - intros did eff [_ Heff] p ->. injection Heff as ->.
    assert (length (stream (events_of stores_1) counter_id) = 1%nat) as -> by reflexivity. simpl. lia.
  - eapply (run_alone_Run _ counter_ref); [done|]. vm_compute. reflexivity.
Qed.

Lemma live_state_is_the_fold_witness :
  ∃ k, position 2 = position k ∧ live counter mk_cbor counter_id k 2%N stores_2.
Proof.
  destruct (live_state_is_the_fold counter mk_cbor counter_id alone alone_Rely eq_refl 1 counter_ref
              stores_1 _ stores_2 (counter_consistent _ store_1_wf) counter_life) as (_ & _ & k & Hk & Hl).
  exists k. split; [exact Hk|exact Hl].
Defined.

(** The next incarnation is at the position and in the state of the one which was lost. *)
Lemma recovery_restores_the_live_state_witness : ∃ t r,
  Run (M:=Command) (B:=Counter) alone counter_recover stores_2 t (Returned (Ok (Some r))) stores_2 ∧
  (as_u64 (position 2) ≤ as_u64 (next_seq_no r))%N ∧ state r = 2%N.
Proof.
  destruct run_recovery as [t HR]. exists t, (mk_recovered counter_id 2%N (position 2)). split; [exact HR|].
  destruct (recovery_restores_the_live_state counter mk_cbor counter_id alone alone_Rely eq_refl 1 counter_ref
              stores_1 _ stores_2 stores_2 t _ stores_2 (counter_consistent _ store_1_wf) counter_life
              (Rely_refl _ _ _ _ (counter_consistent _ store_2_wf)) HR) as [Hn Hs].
  split; [exact Hn|exact (eq_sym (Hs eq_refl))].
Defined.

(** Another incarnation increments once while the counter recovers. *)
Definition racing : relation CounterStores := λ p p', p' = p ∨ p = stores_1 ∧ p' = stores_2.

Lemma racing_Rely p p' : consistent counter mk_cbor counter_id p → racing p p' → Rely counter mk_cbor counter_id p p'.
Proof.
  intros Hc [->|[-> ->]]; [by apply Rely_refl|]. split; [apply counter_consistent, store_2_wf|].
  exists [encoded_increment]. vm_compute. reflexivity.
Qed.

Definition racing_trace : list (Did (M:=Command) (B:=Counter) (EE:=Infallible) (SE:=Infallible)) :=
  [Asked (Load counter_id) (Returned (Ok None));
   Asked (Read counter_id (position 0) REPLAY_PAGE) (serve (Read counter_id (position 0) REPLAY_PAGE) stores_2).1].

Lemma run_racing_recovery :
  Run racing counter_recover stores_1 racing_trace (Returned (Ok (Some (mk_recovered counter_id 2%N (position 2))))) stores_2.
Proof.
  exists stores_1, (drop 1 racing_trace). split; [by left|]. split; [reflexivity|].
  exists stores_2, []. split; [by right|]. split; [reflexivity|]. vm_compute. split_and!; reflexivity.
Qed.

(** With fuel for one page: the recovery succeeds, and so it would whatever it came to. *)
Lemma recovery_completes_witness : ∃ o r, Run racing counter_recover stores_1 racing_trace o stores_2 ∧
  o = Returned (Ok r) ∧ is_Some r.
Proof.
  exists (Returned (Ok (Some (mk_recovered counter_id 2%N (position 2))))).
  destruct (recovery_completes counter mk_cbor counter_id racing racing_Rely eq_refl 1 stores_1
              (counter_consistent _ store_1_wf)) as [_ Hall].
  edestruct (Hall racing_trace) as (r & Hr & Hsucceeds); [|exact run_racing_recovery|].
  - instantiate (1 := 2%nat). vm_compute. lia.
  - exists r. split; [exact run_racing_recovery|]. split; [exact Hr|].
    apply Hsucceeds. split; [|vm_compute; by eexists].
    apply Forall_cons. split; [by exists None|]. apply Forall_cons. split; [|by constructor].
    eexists. reflexivity.
Defined.

Lemma test_settle_agrees_witness :
  Does (settle counter 0%N increment) [ATell asker (Count 1)] (Returned (Ok (mk_settlement 1%N false))).
Proof. exact (test_settle_agrees alone counter mk_cbor counter_id 0%N (position 0) increment stores_0 _ _ stores_1 run_1). Defined.
