(* ===== verification/CounterSystem.v ===== *)
(** A system of the event-sourced counter, with another process which increments the same counter: the theorem about
    systems of event-sourced actors holds of its runs. *)
From S2P Require Import Prelude Backoff Config Flume Quota Actor Mailbox MailboxSpec Tokio Versioning PersistenceIds Store InMemoryStore Runtime RuntimeMoves RuntimeTree RuntimeWatch RuntimeSystem RuntimeTrace RuntimeMailboxes Handlers RuntimeThreads EventSourced SpawnEventSourced StoreRuns EventSourcing EventSourcedSystem EventSourcedCounter.
Import Reference ReferenceTokio.

#[local] Abbreviation Happening := (Happening (M:=Command) (EE:=Infallible) (SE:=Infallible) (W:=InMemoryStore) (V:=NoSnapshots)).
#[local] Instance counter_task : Runtime.Actor Command Counter (Recovered (St:=N)) Failure Request (Answer Infallible Infallible) :=
  event_sourced_task 1 mk_cbor.

Definition counter_root : ActorId := mk_actor_id 1.
Definition counter_watcher : ActorId := mk_actor_id 2.
Definition counter_world := system_new counter_root counter_watcher counter default_config.
Definition pid_of (c : Counter) : PersistenceId := counter_id.

Lemma pid_of_counter c : persistence_id c = Returned (pid_of c).
Proof. vm_compute. reflexivity. Qed.
Lemma pid_of_inj c c' : pid_of c = pid_of c' → c = c'.
Proof. by destruct c, c'. Qed.
Lemma counter_effects c self i st did eff : Does (handle c self i st) did (Returned (Ok eff)) → (length (events eff) ≤ 1)%nat.
Proof. destruct i as [[]|]; simpl; intros [_ [= ->]]; simpl; lia. Qed.

(** Another process increments too. *)
Definition other_increment : CounterStores → CounterStores := append_at_end (EE:=Infallible) (SE:=Infallible) counter_id [encoded_increment].

Definition counter_step : Happening := Here (LTask counter_root (mk_env 0 (mk_actor_id 9) true false (λ q, (serve q stores_0).1))) true.
(** After an increment of the other process the counter starts, is incremented and gets its own reply; then the other
    process increments again. *)
Definition counter_happenings : list Happening :=
  [Here LWatchRoot true; Elsewhere other_increment] ++ replicate 4 counter_step ++
  [Here (LTell (mk_ref counter_root) (Increment (mk_ref counter_root))) true] ++ replicate 8 counter_step ++
  [Elsewhere other_increment].

#[local] Abbreviation counter_happen xs := (happen xs counter_world stores_0).
#[local] Abbreviation counted p := (length (stream (events_of p) counter_id)).

(** What holds of the run, evaluated: there is space at all times, and in the end the counter is at 2 of 3. *)
Definition counter_state_ok (c : Cell (M:=Command) (B:=Counter) (S:=Recovered (St:=N)) (E:=Failure) (Rq:=Request) (An:=Answer Infallible Infallible)) : bool :=
  match phase c with NextIncoming s _ => bool_decide (state s = 2%N) | _ => false end.
Definition counter_run_ok : bool :=
  forallb (λ n, match counter_happen (take n counter_happenings) with Some (_, _, p) => bool_decide (counted p ≤ 3)%nat | None => true end)
    (seq 0 (S (length counter_happenings))) &&
  match counter_happen counter_happenings with
  | Some (w, _, p) =>
      bool_decide (counted p = 3)%nat && match cells w !! counter_root with Some c => counter_state_ok c | None => false end
  | None => false
  end.
Lemma counter_run_is_ok : counter_run_ok = true.
Proof. vm_compute. reflexivity. Qed.

Lemma other_increment_well_meant : well_meant mk_cbor 1 pid_of (Elsewhere other_increment).
Proof.
  apply (append_at_end_well_meant (V:=NoSnapshots) mk_cbor 1 pid_of
    (SC:=event_sourced_client mk_cbor 1 1 pid_of pid_of_counter pid_of_inj counter_effects) counter). done.
Qed.

(** The run, with what is needed of it. *)
Lemma counter_run_facts : ∃ w t p c s up, counter_happen counter_happenings = Some (w, t, p) ∧
  always_spacious 1 pid_of counter_happenings counter_world stores_0 ∧
  Forall (well_meant mk_cbor 1 pid_of) counter_happenings ∧ counted p = 3%nat ∧
  cells w !! counter_root = Some c ∧ phase c = NextIncoming s up ∧ state s = 2%N.
Proof.
  pose proof counter_run_is_ok as Hok. unfold counter_run_ok in Hok. apply andb_true_iff in Hok as [Hall Hend].
  destruct (counter_happen counter_happenings) as [[[w t] p]|] eqn:He; [|discriminate Hend].
  apply andb_true_iff in Hend as [Hp Hc]. destruct (cells w !! counter_root) as [c|] eqn:Hcell; [|discriminate Hc].
  unfold counter_state_ok in Hc. destruct (phase c) as [|s up| | | | | | |] eqn:Hph; try discriminate Hc.
  exists w, t, p, c, s, up. split_and!; [reflexivity| | |by apply bool_decide_eq_true in Hp|exact Hcell|exact Hph|by apply bool_decide_eq_true in Hc].
  - apply always_spacious_takes. intros n w1 u1 p1 Hn H1 c1. pose proof (proj1 (forallb_forall _ _) Hall n) as Hok. cbv beta in Hok.
    rewrite H1 in Hok. unfold has_space. assert (counted p1 ≤ 3)%nat as Hle; [|unfold pid_of; lia].
    apply (bool_decide_eq_true_1 _), Hok, in_seq. lia.
  - repeat (constructor; [first [exact I|apply other_increment_well_meant]|]). constructor.
Qed.

Lemma incarnations_share_the_stores_witness : ∃ (p : CounterStores) k st,
  counted p = 3%nat ∧ (k ≤ counted p)%nat ∧ state_of counter mk_cbor (take k (stream (events_of p) counter_id)) = Some st ∧ st = 2%N.
Proof.
  destruct counter_run_facts as (w & t & p & c & s & up & He & Hsp & Hwell & Hp & Hc & Hph & Hs).
  destruct (incarnations_share_the_stores (V:=NoSnapshots) mk_cbor 1 1 pid_of pid_of_counter pid_of_inj counter_effects counter_root counter_watcher counter
    default_config ltac:(discriminate) counter_happenings w t stores_0 p) as (_ & _ & Hall); [|exact Hsp|exact Hwell|exact He|].
  { intros []. apply counter_consistent, in_memory_wf_default. }
  destruct (Hall _ _ _ _ Hc Hph) as (_ & k & st & _ & Hk & Hst & Hsame). destruct (actor c).
  exists p, k, st. split_and!; [exact Hp|exact Hk|exact Hst|]. rewrite <-Hs. exact Hsame.
Defined.
