(* ===== verification/EventSourcedSupervision.v ===== *)
(** The example [tellus-persistence-postgres/examples/event_sourced_supervision.rs]: the loader of the supervision
    example, event-sourced. A toxic value fails it, and the restart recovers its count by replay. It runs next to a
    plain actor, its overseer, in one system: the instance [supervision_task] of the runtime's actors. Printing has no
    effect on either and is left out. *)
From stdpp Require Import strings.
From S2P Require Import Prelude Backoff Config Flume Quota Actor Mailbox MailboxSpec Tokio Versioning PersistenceIds Store Runtime RuntimeMoves RuntimeTree RuntimeWatch RuntimeSystem RuntimeTrace RuntimeMailboxes RuntimeProgress Handlers RuntimeThreads RuntimeProtocols RuntimeRounds RuntimeScheduler EventSourced SpawnEventSourced StoreRuns EventSourcing EventSourcedSystem EventSourcedRequests.

(** ** The program *)

Definition TOXIC : N := 13.
Definition MAX_RESTARTS : positive := 3.
Definition VALUES : list N := [1; 2; TOXIC; 3; TOXIC; 4]%N.

(** The commands of the loader; the messages of the overseer are [Nothing]. *)
Inductive Command := Load (value : N) | Finish.
Inductive Example := Overseer (loader_config : ActorConfig) | Loader.
Inductive Loaded := loaded (value : N).
Inductive ToxicValue := toxic_value (value : N).

Definition loader_backoff : result Backoff InvalidBackoff := Backoff.new 50000000 1000000000.
Definition loader_config (backoff : Backoff) : ActorConfig :=
  with_supervision_strategy default_config (Restart (with_backoff (new_policy MAX_RESTARTS) backoff)).

Definition loader_id : PersistenceId := mk_persistence_id "loader"%string "example"%string.

Definition loader_handle (incoming : Incoming Command) : Code Command Example ToxicValue (Effect Command Example N Loaded) :=
  match incoming with
  | Message (Load value) =>
      if decide (value = TOXIC) then HReturn (Err (toxic_value TOXIC))
      else HReturn (Ok (add_then (persist (loaded value)) (λ _, HReturn (Ok ()))))
  | Message Finish => HReturn (Ok stop_effect)
  | Terminated _ => HPanic                     (* [unreachable!] *)
  end.

(** An overflow of the [u64] panics, as in a build with debug assertions. *)
Definition loader_apply (count : N) (event : Loaded) : outcome N :=
  let '(loaded _) := event in if decide (count < U64_MAX)%N then Returned (count + 1)%N else Panicked.

(** Of the loader: no overseer is event-sourced. *)
#[export] Instance Loader_event_sourced : EventSourced Command Example N Loaded Nothing ToxicValue := {
  persistence_id _ := match new_persistence_id "loader"%string "example"%string with Ok id => Returned id | Err _ => Panicked end;
  EventSourced.init _ := Returned (Ok 0%N);
  init_from_snapshot _ snapshot := match snapshot with end;
  recovered := default_recovered;
  handle _ _ incoming _ := loader_handle incoming;
  apply _ := loader_apply;
  snapshot := default_snapshot;
}.

#[export, refine] Instance Loader_laws : EventSourcedLaws Loader_event_sourced := { same := eq }.
Proof.
  - intros a e s s' t <- Ht. eauto.
  - done.
  - intros a s [].
Defined.

Section Supervision.
(** Any CBOR, any event store, no snapshots. *)
Context {X W EE : Type} {KE : Codec Cbor Loaded X} {KS : Codec Cbor Nothing X} {KEL : CodecLaws KE} {KSL : CodecLaws KS}.
Context {EVS : EventStore W EE} {EVL : EventStoreLaws EVS}.
Context (fuel : nat).

#[export] Instance Loaded_versioned : Versioned Cbor Loaded X := versioned_default "loaded"%string (mk_schema_version 1).
#[export] Instance Nothing_versioned : Versioned Cbor Nothing X := nothing_versioned KS.
#[export] Instance Loaded_versioned_laws : VersionedLaws Loaded_versioned := versioned_default_laws _ _.
#[export] Instance Nothing_versioned_laws : VersionedLaws Nothing_versioned := versioned_default_laws _ _.

Inductive State := Overseeing | Loading (loader : Recovered (St:=N)).

#[local] Abbreviation Answer := (Answer EE Infallible).
#[local] Abbreviation Handler := (Handler (M:=Command) (B:=Example) (E:=Failure) (Rq:=Request) (An:=Answer)).
#[local] Abbreviation loader_task := (event_sourced_task (M:=Command) (B:=Example) (EE:=EE) (SE:=Infallible) fuel mk_cbor).

(** The loop of [Overseer::init] over the values which are left, and what follows it. *)
Fixpoint tell_values (loader : ActorRef) (values : list N) : Handler State :=
  match values with
  | [] => HTell loader Finish (ret Overseeing)
  | value :: values => HTell loader (Load value) (tell_values loader values)
  end.

(** A message or a state of the other actor's type cannot be: it panics here. *)
#[export] Instance supervision_task : Runtime.Actor Command Example State Failure Request Answer := {
  Runtime.init a self :=
    match a with
    | Overseer loader_config => HSpawn Loader loader_config (λ loader, HWatch loader (tell_values loader VALUES))
    | Loader => bind (Runtime.init (Actor:=loader_task) Loader self) (λ r, ret (Loading r))
    end;
  receive a self incoming state :=
    match a, state with
    | Overseer _, Overseeing => match incoming with Terminated _ => ret Actor.Stop | Message _ => HPanic end
    | Loader, Loading r =>
        bind (receive (Actor:=loader_task) Loader self incoming r) (λ control,
          ret match control with Continue r => Continue (Loading r) | Actor.Stop => Actor.Stop end)
    | _, _ => HPanic
    end;
}.

(** ** What the system shares with others

    The overseer has nothing to do with the stores; the loader is at the fold of its stream. *)

Definition pid_of (actor : Example) : PersistenceId := loader_id.

Lemma persistence_id_of actor : persistence_id actor = Returned (pid_of actor).
Proof. vm_compute. reflexivity. Qed.

Lemma loader_effects actor self i st did eff :
  Does (handle actor self i st) did (Returned (Ok eff)) → (length (events eff) ≤ 1)%nat.
Proof.
  destruct i as [[value|]|]; simpl; [case_decide|..]; intros [_ Heq]; try done; injection Heq as ->; simpl; lia.
Qed.

#[local] Abbreviation Stores := (Stores W NoSnapshots).
#[local] Abbreviation consistent actor p := (consistent (ES:=Loader_event_sourced) actor mk_cbor loader_id p).
#[local] Abbreviation Rely actor p p' := (Rely (ES:=Loader_event_sourced) actor mk_cbor loader_id p p').
Implicit Types (p : Stores).

(** Without snapshots it does not matter who is asked. *)
Lemma consistent_apart actor actor' p : consistent actor p → consistent actor' p.
Proof. intros [Hwf _]. split; [done|]. by intros n s sn st. Qed.

Definition loader_at_fold (actor : Example) (s : State) p : Prop :=
  match actor, s with Loader, Loading r => at_fold mk_cbor Loader loader_id r p | _, _ => True end.

Lemma tell_values_conforms actor pid loader values (post : State → Stores → Prop) p :
  post Overseeing p → conforms mk_cbor 1 actor pid post (tell_values loader values) p.
Proof. intros Hp. induction values as [|value values IH]; simpl; done. Qed.

#[export, refine] Instance supervision_client : StoreClient (V:=NoSnapshots) mk_cbor 1 supervision_task pid_of := {
  state_ok := loader_at_fold;
}.
Proof.
  - intros [cfg|] [|r] p p'; simpl; try done. apply at_fold_Rely.
  - intros [cfg|] self p Hc; simpl.
    + intros child. by apply (tell_values_conforms (Overseer cfg) loader_id child VALUES (loader_at_fold (Overseer cfg)) p).
    + change (conforms mk_cbor 1 Loader loader_id (loader_at_fold Loader)
        (bind (Runtime.init (Actor:=loader_task) Loader self) (λ r, ret (Loading r))) p).
      apply conforms_bind. eapply conforms_mono; [|by apply conforms_init]. done.
  - intros [cfg|] self i [|r] p Hc Hs; simpl; try done; [by destruct i|].
    change (conforms mk_cbor 1 Loader loader_id (λ control p, match control with Continue s => loader_at_fold Loader s p | Actor.Stop => True end)
      (bind (receive (Actor:=loader_task) Loader self i r)
         (λ control, ret match control with Continue r => Continue (Loading r) | Actor.Stop => Actor.Stop end)) p).
    apply conforms_bind. eapply conforms_mono; [|apply conforms_receive; [apply loader_effects|done|exact Hs]]. by intros [r'|] p'.
  - intros actor actor' p p' _ [Hc Hpre]. split; [by eapply consistent_apart|done].
Defined.

(** The fold of a stream is its length. *)
Lemma fold_counts actor l n st :
  fold_stream (ES:=Loader_event_sourced) actor mk_cbor n l = Some st → st = (n + N.of_nat (length l))%N.
Proof.
  revert n. induction l as [|e l IH]; intros n Hf; simpl in *; [simplify_eq; lia|].
  destruct (decode_versioned _ _ _ _) as [[[value]|]|]; [|done..]. unfold loader_apply in Hf. case_decide; [|done]. apply IH in Hf. lia.
Qed.

Lemma count_is_length actor l st : state_of (ES:=Loader_event_sourced) actor mk_cbor l = Some st → st = N.of_nat (length l).
Proof. apply fold_counts. Qed.

(** ** What the loader persists

    Only events which load a value that is not toxic. *)

Definition sound (e : EncodedEvent) : Prop :=
  ∃ value, value ≠ TOXIC ∧
    decode_versioned (V:=Loaded_versioned) mk_cbor (event_manifest e) (event_schema_version e) (event_payload e) = Returned (Ok (loaded value)).

Lemma handled_sound actor e : handled (ES:=Loader_event_sourced) mk_cbor actor e → sound e.
Proof.
  intros (self & i & st & did & eff & es & Hd & He & Hin).
  destruct i as [[value|]|]; simpl in Hd; [case_decide as Hv|..]; destruct Hd as [_ Heq]; try done; injection Heq as ->; simpl in He; simplify_eq/=.
  - apply try_bind_Ok in He as (payload & Hp & He). simplify_eq/=. apply list_elem_of_singleton in Hin as ->.
    exists value. split; [done|]. by apply (decode_versioned_current (V:=Loaded_versioned) mk_cbor (loaded value) payload).
  - by apply elem_of_nil in Hin.
Qed.

Lemma appends_sound actor q : appends 1 (handled (ES:=Loader_event_sourced) mk_cbor actor) q → appends 1 sound q.
Proof. destruct q; simpl; try done. intros [Hes ?]. split; [|done]. eapply Forall_impl; [exact Hes|]. apply handled_sound. Qed.

Lemma asks_tell_values Q loader values : asks Q (tell_values loader values).
Proof. induction values; simpl; done. Qed.

Lemma supervision_init_asks actor self : asks (appends 1 sound) (Runtime.init (Actor:=supervision_task) actor self).
Proof.
  destruct actor as [cfg|]; [intros child; apply (asks_tell_values (appends 1 sound) child VALUES)|].
  change (asks (appends 1 sound) (bind (Runtime.init (Actor:=loader_task) Loader self) (λ r, ret (Loading r)))).
  apply asks_bind; [|done]. eapply asks_mono; [apply (appends_sound Loader)|]. apply asks_init.
Qed.

Lemma supervision_receive_asks actor self i s : asks (appends 1 sound) (receive (Actor:=supervision_task) actor self i s).
Proof.
  destruct actor as [cfg|], s as [|r]; try done; [by destruct i|].
  change (asks (appends 1 sound) (bind (receive (Actor:=loader_task) Loader self i r)
    (λ control, ret match control with Continue r => Continue (Loading r) | Actor.Stop => Actor.Stop end))).
  apply asks_bind; [|done]. eapply asks_mono; [apply (appends_sound Loader)|]. apply asks_receive. apply loader_effects.
Qed.

(** ** The system *)

Section System.
Context {F : Flume} {FL : FlumeLaws F} {TW : TokioWatch} {TL : TokioWatchLaws TW}.
Context {TO : TokioOneshot} {TOL : TokioOneshotLaws TO}.
Context (root watcher : ActorId) (config : ActorConfig) (ids : root ≠ watcher).

(** [main]: the overseer alone. *)
Definition supervision_new := system_new root watcher (Overseer config) default_config.

(** C23. A restart recovers the loader exactly, in every interleaving of its system with other processes which append to
    the same stream, however often it fails and is restarted: whenever it waits for its next command its count is the
    number of events of its stream up to its position; the stream it started on is only ever extended, by the system only
    by loads of values which are not toxic. *)
Theorem restarts_recover_the_count xs w t p p' :
  all_consistent mk_cbor pid_of p → always_spacious 1 pid_of xs supervision_new p →
  Forall (well_meant mk_cbor 1 pid_of) xs → happen xs supervision_new p = Some (w, t, p') →
  stream (events_of p) loader_id `prefix_of` stream (events_of p') loader_id ∧
  (Forall (writes_alike mk_cbor 1 pid_of (λ _, sound)) xs →
     ∃ added, stream (events_of p') loader_id = stream (events_of p) loader_id ++ added ∧ Forall sound added) ∧
  ∀ a c r up, cells w !! a = Some c → actor c = Loader → phase c = NextIncoming (Loading r) up →
    id r = loader_id ∧ ∃ k, next_seq_no r = position k ∧ state r = N.of_nat k ∧
      (k ≤ length (stream (events_of p') loader_id))%nat.
Proof.
  intros Hc Hsp Hx Hs.
  destruct (clients_share_the_stores mk_cbor 1 pid_of root watcher (Overseer config) default_config ids xs w t p p' Hc Hsp Hx Hs)
    as (_ & _ & HR & Hok).
  split; [apply (HR Loader)|]. split.
  { intros Ha. destruct (streams_grow mk_cbor 1 pid_of (λ _, sound) supervision_init_asks supervision_receive_asks
      root watcher (Overseer config) default_config ids xs w t p p' Hc Hsp Hx Ha Hs loader_id) as (added & Heq & Hadd).
    exists added. split; [done|]. eapply Forall_impl; [exact Hadd|]. by intros e (_ & _ & ?). }
  intros a c r up Ha Hl Hp. specialize (Hok a c _ up Ha Hp). rewrite Hl in Hok.
  destruct Hok as (Hid & k & Hk & Hle & st & Hst & Hsame). split; [done|]. exists k. split_and!; [done| |done].
  apply count_is_length in Hst. simpl in Hsame. subst st. rewrite <-Hsame, length_take. f_equal. lia.
Qed.
End System.
End Supervision.
