(* ===== verification/SupervisedLoader.v ===== *)
(** A run of the system of [EventSourcedSupervision] over the in-memory store, next to another process which loads a value
    too: the loader fails on both toxic values, and after the second restart it goes on counting where it was. *)
From stdpp Require Import strings.
From S2P Require Import Prelude Backoff Config Flume Quota Actor Mailbox MailboxSpec Tokio Versioning PersistenceIds Store InMemoryStore Runtime RuntimeMoves RuntimeTree RuntimeWatch RuntimeSystem RuntimeTrace RuntimeMailboxes Handlers RuntimeThreads EventSourced SpawnEventSourced StoreRuns EventSourcing EventSourcedSystem EventSourcedRequests EventSourcedSupervision.
From Stdlib Require Import Strings.Byte.
Import Reference ReferenceTokio.

(** Any encoding of the values does; here they are in unary. *)
#[local] Instance Loaded_format : Format Loaded () := {
  write '(loaded value) := Returned (Ok (replicate (N.to_nat value) x00%byte));
  parse payload := Returned (Ok (loaded (N.of_nat (length payload))));
}.
#[local] Instance Loaded_laws : CodecLaws (Cbor_codec Loaded_format).
Proof.
  intros c [value] p He. simpl in *. unfold encode_with in He. simpl in He. injection He as <-.
  unfold decode_with. simpl. by rewrite length_replicate, N2Nat.id.
Qed.
#[local] Instance Nothing_format : Format Nothing () := nothing_format (λ _, ()).
#[local] Instance Nothing_laws : CodecLaws (Cbor_codec Nothing_format).
Proof. intros c []. Qed.

#[local] Abbreviation Answer := (Answer Infallible Infallible).
#[local] Abbreviation Stores := (Stores InMemoryStore NoSnapshots).
#[local] Abbreviation Happening := (Happening (M:=Command) (EE:=Infallible) (SE:=Infallible) (W:=InMemoryStore) (V:=NoSnapshots)).
#[local] Instance loader_and_overseer : Runtime.Actor Command Example State Failure Request Answer := supervision_task 1.

Definition overseer_id : ActorId := mk_actor_id 1.
Definition system_id : ActorId := mk_actor_id 2.
Definition the_loader : ActorId := mk_actor_id 9.
Definition the_config : ActorConfig := match loader_backoff with Ok backoff => loader_config backoff | Err _ => default_config end.
Definition loader_world := supervision_new (EE:=Infallible) 1 overseer_id system_id the_config.
Definition no_stores : Stores := mk_stores default_store no_snapshots.

#[local] Abbreviation counted p := (length (stream (events_of p) loader_id)).

(** Another process loads a value too. *)
Definition other_load : Stores → Stores :=
  append_at_end (EE:=Infallible) (SE:=Infallible) loader_id [mk_encoded_event "loaded"%string (mk_schema_version 1) [x00%byte]].

Definition loader_step (a : ActorId) : Happening :=
  Here (LTask a (mk_env 0 the_loader true false (λ q, (serve q no_stores).1))) true.
(** After a load of the other process the overseer starts; the loader loads 1 and 2, is restarted for the first toxic
    value, loads 3, is restarted for the second one and loads 4; then the other process loads again. *)
Definition loader_happenings : list Happening :=
  [Here LWatchRoot true; Elsewhere other_load] ++ replicate 10 (loader_step overseer_id) ++
  replicate 42 (loader_step the_loader) ++ [Elsewhere other_load].

#[local] Abbreviation loader_happen xs := (happen xs loader_world no_stores).

(** What holds of the run, evaluated: there is space at all times, and in the end the loader has been restarted twice and
    is at 5 of 6. *)
Definition loader_state_ok (c : Cell (M:=Command) (B:=Example) (S:=State) (E:=Failure) (Rq:=Request) (An:=Answer)) : bool :=
  match actor c, phase c with
  | Loader, NextIncoming (Loading r) _ => bool_decide (state r = 5%N) && bool_decide (restarts c = 2%N)
  | _, _ => false
  end.
Definition loader_run_ok : bool :=
  forallb (λ n, match loader_happen (take n loader_happenings) with Some (_, _, p) => bool_decide (counted p ≤ 6)%nat | None => true end)
    (seq 0 (S (length loader_happenings))) &&
  match loader_happen loader_happenings with
  | Some (w, _, p) =>
      bool_decide (counted p = 6)%nat && match cells w !! the_loader with Some c => loader_state_ok c | None => false end
  | None => false
  end.
Lemma loader_run_is_ok : loader_run_ok = true.
Proof. vm_compute. reflexivity. Qed.

(** The run, with what is needed of it. *)
Lemma loader_run_facts : ∃ w t p c r up, loader_happen loader_happenings = Some (w, t, p) ∧
  always_spacious 1 pid_of loader_happenings loader_world no_stores ∧
  Forall (well_meant mk_cbor 1 pid_of) loader_happenings ∧ counted p = 6%nat ∧
  cells w !! the_loader = Some c ∧ actor c = Loader ∧ phase c = NextIncoming (Loading r) up ∧ state r = 5%N ∧ restarts c = 2%N.
Proof.
  pose proof loader_run_is_ok as Hok. unfold loader_run_ok in Hok. apply andb_true_iff in Hok as [Hall Hend].
  destruct (loader_happen loader_happenings) as [[[w t] p]|] eqn:He; [|discriminate Hend].
  apply andb_true_iff in Hend as [Hp Hc]. destruct (cells w !! the_loader) as [c|] eqn:Hcell; [|discriminate Hc].
  unfold loader_state_ok in Hc. destruct (actor c) as [|] eqn:Hact; [discriminate Hc|].
  destruct (phase c) as [|[|r] up| | | | | | |] eqn:Hph; try discriminate Hc. apply andb_true_iff in Hc as [Hs Hr].
  exists w, t, p, c, r, up.
  split_and!; [reflexivity| | |by apply bool_decide_eq_true in Hp|exact Hcell|exact Hact|exact Hph|by apply bool_decide_eq_true in Hs|by apply bool_decide_eq_true in Hr].
  - apply always_spacious_takes. intros n w1 u1 p1 Hn H1 c1. pose proof (proj1 (forallb_forall _ _) Hall n) as Hok. cbv beta in Hok.
    rewrite H1 in Hok. unfold has_space. assert (counted p1 ≤ 6)%nat as Hle; [|unfold pid_of; lia].
    apply (bool_decide_eq_true_1 _), Hok, in_seq. lia.
  - repeat (constructor; [first [exact I|by apply (append_at_end_well_meant (V:=NoSnapshots) mk_cbor 1 pid_of (SC:=supervision_client 1) Loader)]|]).
    constructor.
Qed.

Lemma others_write_alike : Forall (writes_alike mk_cbor 1 pid_of (λ _, sound)) loader_happenings.
Proof.
  repeat (constructor; [first [exact I|apply (append_at_end_writes_alike mk_cbor 1 pid_of (λ _, sound) Loader); [simpl; lia|]]|]);
    repeat constructor; by exists 1%N.
Qed.

(** The run, and what the theorem says of its end. *)
Lemma restarts_recover_the_count_witness : ∃ (p : Stores) r k,
  counted p = 6%nat ∧ Forall sound (stream (events_of p) loader_id) ∧
  next_seq_no r = position k ∧ state r = N.of_nat k ∧ (k ≤ counted p)%nat ∧ k = 5%nat.
Proof.
  destruct loader_run_facts as (w & t & p & c & r & up & He & Hsp & Hwell & Hp & Hc & Hl & Hph & Hs & _).
  destruct (restarts_recover_the_count 1 overseer_id system_id the_config ltac:(discriminate) loader_happenings w t no_stores p)
    as (_ & Hadded & Hall); [|exact Hsp|exact Hwell|exact He|].
  { intros actor. split; [exact in_memory_wf_default|]. by intros n s sn st. }
  destruct (Hadded others_write_alike) as (added & Heq & Hsound). destruct (Hall _ _ _ _ Hc Hl Hph) as (_ & k & Hn & Hk & Hle).
  exists p, r, k. split_and!; [exact Hp| |exact Hn|exact Hk|exact Hle|].
  - rewrite Heq. exact Hsound.
  - rewrite Hs in Hk. lia.
Defined.
