(* ===== verification/Host.v ===== *)
(** The host of entities: [tellus/src/host.rs]. Actors identified by a key, spawned on the first message
    for it, passivated once idle; what arrives while an entity stops is buffered for its next
    incarnation. A host is an ordinary actor: its methods are code acting through the context. *)
From S2P Require Import Prelude Config Actor Runtime Handlers.

(** ** [HostConfig] *)

Record HostConfig := mk_host_config { config_idle_timeout : option Duration; config_buffer : positive }.

Inductive InvalidHostConfig := ZeroIdleTimeout.

Definition new_host_config (buffer : positive) : HostConfig := mk_host_config None buffer.
Definition with_idle_timeout (c : HostConfig) (idle_timeout : Duration) : result HostConfig InvalidHostConfig :=
  if duration_is_zero idle_timeout then Err ZeroIdleTimeout
  else Ok (mk_host_config (Some idle_timeout) (config_buffer c)).
Definition default_host_config : HostConfig := new_host_config 64.

(** ** State *)

Section Host.
(** Keys, what entities are told, and the messages and actors of the system. *)
Context {K : Type} `{Countable K} {M Mr B : Type}.
Context (tell_entity : M → Mr).

Record HostEnvelope := mk_envelope { key : K; message : M }.

Inductive Entry :=
  | Live (actor : ActorRef) (last_message : Instant)
  | Stopping (actor_id : ActorId) (buffered : list M).

Record State := mk_state {
  entries : gmap K Entry;
  keys : gmap ActorId K;
  ticker : option ActorId;
}.

Definition default_state : State := mk_state ∅ ∅ None.

Definition set_entries (s : State) (entries : gmap K Entry) : State := mk_state entries (keys s) (ticker s).
Definition set_keys (s : State) (keys : gmap ActorId K) : State := mk_state (entries s) keys (ticker s).
Definition set_ticker (s : State) (ticker : option ActorId) : State := mk_state (entries s) (keys s) ticker.

#[local] Abbreviation Code R := (Code Mr B Nothing R).

(** The functions the host is made with, and the ticker it spawns. *)
Record Host := mk_host {
  idle_timeout : option Duration;
  buffer : positive;
  spawn : K → Code ActorRef;
  passivate : Code M;
  Ticker : Duration → B;
}.

(** [Host::new] *)
Definition new_host (config : HostConfig) (spawn : K → Code ActorRef) (passivate : Code M) (Ticker : Duration → B) : Host :=
  mk_host (config_idle_timeout config) (config_buffer config) spawn passivate Ticker.

(** Whether debug assertions are enabled, and the order in which a [HashMap] iterates. *)
Context (debug_assertions : bool).
Context (iter : gmap K Entry → list (K * Entry)).

(** ** Operations *)

(** [Entry::live] *)
Definition live (actor : ActorRef) : Code Entry := HNow (λ now, ret (Live actor now)).

(** An id known already fails the debug assertion; without it, the key is replaced. *)
Definition remember (keys : gmap ActorId K) (entity : ActorRef) (key : K) : Code (gmap ActorId K) :=
  if debug_assertions && bool_decide (is_Some (keys !! actor_id entity)) then HPanic else ret (<[actor_id entity := key]> keys).

Definition spawn_entity (h : Host) (key : K) : Code ActorRef :=
  do entity := spawn h key in
  HWatch entity (ret entity).

Definition tick_later (h : Host) (state : State) : Code State :=
  match idle_timeout h with
  | Some idle_timeout =>
      HSpawn (Ticker h idle_timeout) default_config (λ ticker,
        HWatch ticker (ret (set_ticker state (Some (actor_id ticker)))))
  | None => ret (set_ticker state None)
  end.

Definition route (h : Host) (state : State) (key : K) (message : M) : Code State :=
  match entries state !! key with
  | Some (Live actor _) =>
      HTell actor (tell_entity message)
        (HNow (λ now, ret (set_entries state (<[key := Live actor now]> (entries state)))))
  | Some (Stopping id buffered) =>
      (* A full buffer drops the message as a dead letter. *)
      if decide (length buffered < Pos.to_nat (buffer h))%nat then
        ret (set_entries state (<[key := Stopping id (buffered ++ [message])]> (entries state)))
      else ret state
  | None =>
      do actor := spawn_entity h key in
      HTell actor (tell_entity message)
        (do ks := remember (keys state) actor key in
         do entry := live actor in
         ret (mk_state (<[key := entry]> (entries state)) ks (ticker state)))
  end.

(** The buffered messages told past a full mailbox; to a terminated entity they are dead letters. *)
Fixpoint deliver_buffered (buffered : list M) (actor : ActorRef) (k : Code State) : Code State :=
  match buffered with
  | [] => k
  | message :: buffered =>
      HTryTell true actor (tell_entity message) (λ _, deliver_buffered buffered actor k)
  end.

(** The sweep over the entries: an idle entity which can be told to stop is stopping from then on; what it is told is
    made anew for each. *)
Fixpoint sweep (h : Host) (idle_timeout : Duration) (l : list (K * Entry)) (entries : gmap K Entry)
    : Code (gmap K Entry) :=
  match l with
  | [] => ret entries
  | (_, Stopping _ _) :: l => sweep h idle_timeout l entries
  | (key, Live actor last_message) :: l =>
      HNow (λ now,
        if decide (elapsed now last_message < idle_timeout)%N then sweep h idle_timeout l entries
        else
          do message := passivate h in
          HTryTell false actor (tell_entity message) (λ ok,
            sweep h idle_timeout l
              (if ok then <[key := Stopping (actor_id actor) []]> entries else entries)))
  end.

Definition passivate_idle (h : Host) (state : State) : Code State :=
  match idle_timeout h with
  | None => ret state
  | Some idle_timeout =>
      do es := sweep h idle_timeout (iter (entries state)) (entries state) in
      ret (set_entries state es)
  end.

Definition terminated (h : Host) (state : State) (id : ActorId) : Code State :=
  if decide (ticker state = Some id) then
    do state := passivate_idle h state in
    tick_later h state
  else
    match keys state !! id with
    | None => ret state
    | Some key =>
        let ks := delete id (keys state) in
        let es := delete key (entries state) in
        match entries state !! key with
        | Some (Stopping _ (m :: buffered)) =>
            do actor := spawn_entity h key in
            deliver_buffered (m :: buffered) actor
              (do ks := remember ks actor key in
               do entry := live actor in
               ret (mk_state (<[key := entry]> es) ks (ticker state)))
        | _ => ret (mk_state es ks (ticker state))
        end
    end.

(** The [Actor] methods of the host. *)
Definition host_init (h : Host) : Code State := tick_later h default_state.

Definition host_receive (h : Host) (incoming : Incoming HostEnvelope) (state : State) : Code (Control State) :=
  do state :=
    match incoming with
    | Message envelope => route h state (key envelope) (message envelope)
    | Terminated id => terminated h state id
    end in
  ret (Continue state).

(** The [Actor] methods of the ticker: the task it spawns to sleep tells it [Tick] from outside, and the
    state aborts that task when dropped. *)
Inductive AbortSleeping := abort_sleeping.
Definition ticker_init (idle_timeout : Duration) : Code AbortSleeping := ret abort_sleeping.
Definition ticker_receive (incoming : Incoming ()) (state : AbortSleeping) : Code (Control AbortSleeping) :=
  ret Actor.Stop.
End Host.
Arguments HostEnvelope : clear implicits.
Arguments Entry : clear implicits.
Arguments State K {_ _} M : assert.
