(* ===== verification/HostSpec.v ===== *)
(** What the host promises: its two maps stay each other's inverse, there is at most one incarnation per
    key at a time, a passivation only ever stops the idle, and what arrives meanwhile is kept for the next
    incarnation in order, up to the configured buffer. *)
From S2P Require Import Prelude Config Actor Runtime Handlers Host.

Section HostSpec.
Context {K : Type} `{Countable K} {M Mr B : Type}.
Context (tell_entity : M → Mr) (debug_assertions : bool) (iter : gmap K (Entry M) → list (K * Entry M)).
Context (iter_perm : ∀ m, iter m ≡ₚ map_to_list m).
#[local] Abbreviation State := (State K M).
#[local] Abbreviation Host := (Host (K:=K) (M:=M) (Mr:=Mr) (B:=B)).
#[local] Abbreviation Action := (Action Mr B).
#[local] Abbreviation receive := (host_receive tell_entity debug_assertions iter).
Context (h : Host).
Implicit Types (st : State) (t : list Action) (e : Entry M) (a : ActorId).

Definition entry_actor e : ActorId :=
  match e with Live actor _ => actor_id actor | Stopping id _ => id end.

(** ** The invariant *)

Record hosted st : Prop := {
  hosted_keys : ∀ k e, entries st !! k = Some e → keys st !! entry_actor e = Some k;
  hosted_entries : ∀ a k, keys st !! a = Some k → ∃ e, entries st !! k = Some e ∧ entry_actor e = a;
  hosted_buffers : ∀ k a buffered, entries st !! k = Some (Stopping a buffered) →
    (length buffered ≤ Pos.to_nat (buffer h))%nat;
}.

Lemma hosted_default : hosted default_state.
Proof. split; intros *; simpl; rewrite lookup_empty; done. Qed.

(** An entity joins under a free key. *)
Lemma hosted_insert st k e :
  hosted st → entries st !! k = None → keys st !! entry_actor e = None →
  (∀ a buffered, e = Stopping a buffered → length buffered ≤ Pos.to_nat (buffer h))%nat →
  ∀ x, hosted (mk_state (<[k := e]> (entries st)) (<[entry_actor e := k]> (keys st)) x).
Proof.
  intros [Hk He Hb] Hfree Hfresh Hbuf x. split; simpl.
  - intros k' e'. rewrite lookup_insert_Some. intros [[<- <-]|[Hne He']]; [apply lookup_insert_eq|].
    specialize (Hk k' e' He'). rewrite lookup_insert_ne; [done|congruence].
  - intros a k'. rewrite lookup_insert_Some. intros [[<- <-]|[Hne Ha]].
    + exists e. by rewrite lookup_insert_eq.
    + destruct (He a k' Ha) as (e' & He' & <-). exists e'. rewrite lookup_insert_ne; [done|congruence].
  - intros k' a buffered. rewrite lookup_insert_Some. intros [[_ ->]|[_ He']]; eauto.
Qed.

(** The entry of a key is replaced for the same entity. *)
Lemma hosted_update st k e e' :
  hosted st → entries st !! k = Some e → entry_actor e' = entry_actor e →
  (∀ a buffered, e' = Stopping a buffered → length buffered ≤ Pos.to_nat (buffer h))%nat →
  hosted (set_entries st (<[k := e']> (entries st))).
Proof.
  intros [Hk He Hb] Hke Hact Hbuf. split; simpl.
  - intros k2 e2. rewrite lookup_insert_Some. intros [[<- <-]|[Hne He2]]; [rewrite Hact|]; eauto.
  - intros a k2 Ha. destruct (He a k2 Ha) as (e2 & He2 & <-).
    destruct (decide (k = k2)) as [<-|]; [exists e'|exists e2].
    + rewrite lookup_insert_eq. simplify_eq. done.
    + by rewrite lookup_insert_ne.
  - intros k2 a buffered. rewrite lookup_insert_Some. intros [[_ ->]|[_ He']]; eauto.
Qed.

(** An entity leaves. *)
Lemma hosted_delete st k a :
  hosted st → keys st !! a = Some k → ∀ x, hosted (mk_state (delete k (entries st)) (delete a (keys st)) x).
Proof.
  intros [Hk He Hb] Ha x. destruct (He a k Ha) as (e & Hke & Hact). split; simpl.
  - intros k' e'. rewrite lookup_delete_Some. intros [Hne He']. specialize (Hk k' e' He').
    rewrite lookup_delete_ne; [done|congruence].
  - intros a' k'. rewrite lookup_delete_Some. intros [Hne Ha']. destruct (He a' k' Ha') as (e' & He' & <-).
    exists e'. rewrite lookup_delete_ne; [done|congruence].
  - intros k' a' buffered. rewrite lookup_delete_Some. intros [_ He']. eauto.
Qed.

Lemma hosted_ticker st x : hosted st → hosted (set_ticker st x).
Proof. intros [Hk He Hb]. by split. Qed.

(** ** What the operations do *)

(** The spawn function spawns a child on every call and returns it. *)
Definition spawns_a_child : Prop :=
  ∀ k t r, Does (spawn h k) t (Returned (Ok r)) → actor_id r ∈ children t.

Lemma spawn_entity_does k t r :
  Does (spawn_entity h k) t (Returned (Ok r)) ↔ ∃ ts, t = ts ++ [AWatch r] ∧ Does (spawn h k) ts (Returned (Ok r)).
Proof.
  unfold spawn_entity. rewrite Does_bind_Ok. split.
  - intros (r' & t1 & t2 & -> & H1 & t' & -> & -> & [= <-]). eauto.
  - intros (ts & -> & H1). exists r, ts, [AWatch r]. split_and!; [done..|]. by exists [].
Qed.

(** [remember] and [live] at the end of a spawn. *)
Lemma remember_does ks actor k (f : gmap ActorId K → Entry M → State) t st' :
  Does (do ks := remember debug_assertions ks actor k in do entry := live actor in ret (f ks entry)) t (Returned (Ok st')) →
  ∃ now, t = [ANow now] ∧ st' = f (<[actor_id actor := k]> ks) (Live actor now).
Proof.
  unfold remember. rewrite Does_bind_Ok. intros (ks' & t1 & t2 & -> & Hr & H2).
  destruct (_ && _); [by destruct Hr|]. destruct Hr as [-> [= ->]].
  destruct H2 as (now & t' & -> & -> & [= ->]). eauto.
Qed.

(** The messages told past a full mailbox, one after the other. *)
Definition told (actor : ActorRef) (buffered : list M) t : Prop :=
  Forall2 (λ m x, ∃ ok, x = ATryTell true actor (tell_entity m) ok) buffered t.

Lemma deliver_buffered_does buffered actor k t st' :
  Does (deliver_buffered tell_entity buffered actor k) t (Returned (Ok st')) ↔
  ∃ t1 t2, t = t1 ++ t2 ∧ told actor buffered t1 ∧ Does k t2 (Returned (Ok st')).
Proof.
  revert t. induction buffered as [|m buffered IH]; intros t; simpl.
  - split; [intros Hd; exists [], t; split_and!; [done|constructor|done]|].
    intros (t1 & t2 & -> & Ht & Hd). by inversion Ht.
  - setoid_rewrite IH. split.
    + intros (ok & t' & -> & t1 & t2 & -> & Ht & Hd). exists (ATryTell true actor (tell_entity m) ok :: t1), t2.
      split_and!; [done|constructor; eauto|done].
    + intros (t1 & t2 & -> & Ht & Hd). inversion Ht as [|? x ? t3 [ok ->] Ht3]; subst.
      exists ok; eexists; split; [done|]. by exists t3, t2.
Qed.

Lemma told_children actor buffered t : told actor buffered t → children t = [].
Proof. induction 1 as [|m x l t [ok ->] _ IH]; [done|]. by simpl. Qed.

(** ** The sweep *)

(** What the function the host is made with makes to tell an entity to stop. *)
Definition passivates (m : M) : Prop := ∃ t, Does (passivate h) t (Returned (Ok m)).

(** What a sweep makes of an entry. *)
Inductive swept (idle_timeout : Duration) t : Entry M → Entry M → Prop :=
  | swept_stopping a buffered : swept idle_timeout t (Stopping a buffered) (Stopping a buffered)
  | swept_busy actor last now :
      ANow now ∈ t → (elapsed now last < idle_timeout)%N → swept idle_timeout t (Live actor last) (Live actor last)
  | swept_unreachable actor last now m :
      ANow now ∈ t → (idle_timeout ≤ elapsed now last)%N → passivates m →
      ATryTell false actor (tell_entity m) false ∈ t →
      swept idle_timeout t (Live actor last) (Live actor last)
  | swept_passivated actor last now m :
      ANow now ∈ t → (idle_timeout ≤ elapsed now last)%N → passivates m →
      ATryTell false actor (tell_entity m) true ∈ t →
      swept idle_timeout t (Live actor last) (Stopping (actor_id actor) []).

Lemma swept_mono idle t t' e e' : t ⊆ t' → swept idle t e e' → swept idle t' e e'.
Proof.
  intros Ht Hs. destruct Hs; [constructor|eapply swept_busy|eapply swept_unreachable|eapply swept_passivated]; eauto.
Qed.

Lemma swept_actor idle t e e' : swept idle t e e' → entry_actor e' = entry_actor e.
Proof. by destruct 1. Qed.

(** All a sweep over [l] ever does. *)
Definition sweeping (idle_timeout : Duration) (l : list (K * Entry M)) (x : Action) : Prop :=
  (∃ t m, Does (passivate h) t (Returned (Ok m)) ∧ x ∈ t) ∨
  match x with
  | ANow _ => True
  | ATryTell forced actor m _ =>
      forced = false ∧ (∃ m', passivates m' ∧ m = tell_entity m') ∧
      ∃ k last now, (k, Live actor last) ∈ l ∧ (idle_timeout ≤ elapsed now last)%N
  | _ => False
  end.

Lemma sweeping_cons idle (x : K * Entry M) l t : Forall (sweeping idle l) t → Forall (sweeping idle (x :: l)) t.
Proof.
  intros Hf. eapply Forall_impl; [exact Hf|]. intros y [Hp|Hy]; [by left|right].
  destruct y; simpl in *; try done. destruct Hy as (? & ? & k & last & now & ? & ?).
  split_and!; [done..|]. exists k, last, now. split; [by right|done].
Qed.

Lemma sweep_does idle l es t es' :
  NoDup l.*1 → (∀ k e, (k, e) ∈ l → es !! k = Some e) → Does (sweep tell_entity h idle l es) t (Returned (Ok es')) →
  Forall (sweeping idle l) t ∧
  (∀ k, k ∉ l.*1 → es' !! k = es !! k) ∧
  (∀ k e, (k, e) ∈ l → ∃ e', es' !! k = Some e' ∧ swept idle t e e').
Proof.
  revert es t. induction l as [|[k e] l IH]; intros es t Hnd Hall Hd; simpl in *.
  - destruct Hd as [-> [= ->]]. split_and!; [constructor|done|]. by intros k e ?%not_elem_of_nil.
  - apply NoDup_cons in Hnd as [Hk Hnd].
    assert (∀ k' e', (k', e') ∈ l → k' ≠ k) as Hne.
    { intros k' e' Hin ->. destruct Hk. apply list_elem_of_fmap. by exists (k, e'). }
    assert (∀ es2 t2 e2, es2 !! k = Some e2 → (∀ k', k' ≠ k → es2 !! k' = es !! k') →
      Does (sweep tell_entity h idle l es2) t2 (Returned (Ok es')) → t2 ⊆ t → swept idle t e e2 →
      (Forall (sweeping idle l) t2 → Forall (sweeping idle ((k, e) :: l)) t) →
      Forall (sweeping idle ((k, e) :: l)) t ∧
        (∀ k0, k0 ∉ k :: l.*1 → es' !! k0 = es !! k0) ∧
        (∀ k0 e0, (k0, e0) ∈ (k, e) :: l → ∃ e', es' !! k0 = Some e' ∧ swept idle t e0 e')) as Hgo.
    { intros es2 t2 e2 He2 Hother Hd2 Hsub Hsw Hall2.
      destruct (IH es2 t2 Hnd) as (Hf & Hout & Hin); [|done|].
      { intros k' e' Hin. rewrite Hother by eauto. apply Hall. by right. }
      split_and!; [by apply Hall2| |].
      - intros k0 [Hk0 Hl]%not_elem_of_cons. rewrite Hout by done. by apply Hother.
      - intros k0 e0 [[= -> ->]|Hk0]%elem_of_cons.
        + exists e2. by rewrite Hout.
        + destruct (Hin k0 e0 Hk0) as (e' & He' & Hs'). exists e'. split; [done|]. by eapply swept_mono. }
    assert (es !! k = Some e) as Hek by (apply Hall; by left).
    destruct e as [actor last|a buffered].
    + destruct Hd as (now & t' & -> & Hd). case_decide as Hlt.
      * eapply (Hgo es t'); try done; [set_solver|eapply swept_busy; [by left|done]|].
        intros Hf. constructor; [by right|by apply sweeping_cons].
      * apply Does_bind_Ok in Hd as (m & tp & t1 & -> & Hp & ok & t2 & -> & Hd). apply N.nlt_ge in Hlt.
        assert (passivates m) as Hm by by exists tp.
        assert (ATryTell false actor (tell_entity m) ok ∈ ANow now :: tp ++ ATryTell false actor (tell_entity m) ok :: t2) as Hin
          by set_solver.
        assert (Forall (sweeping idle l) t2 → Forall (sweeping idle ((k, Live actor last) :: l))
          (ANow now :: tp ++ ATryTell false actor (tell_entity m) ok :: t2)) as Hf.
        { intros Hf. constructor; [by right|]. apply Forall_app. split.
          - apply Forall_forall. intros x Hx. left. by exists tp, m.
          - constructor; [|by apply sweeping_cons]. right. split_and!; [done|by exists m|].
            exists k, last, now. split; [by left|done]. }
        destruct ok.
        -- eapply (Hgo _ t2 (Stopping (actor_id actor) [])); [apply lookup_insert_eq| |done|set_solver| |done].
           ++ intros k' Hk'. by rewrite lookup_insert_ne.
           ++ eapply swept_passivated; [by left|done..].
        -- eapply (Hgo _ t2); try done; [set_solver|].
           eapply swept_unreachable; [by left|done..].
    + eapply (Hgo es t); try done; [constructor|apply sweeping_cons].
Qed.

(** A sweep over the whole host. *)
Lemma passivate_idle_does st t st' :
  Does (passivate_idle tell_entity iter h st) t (Returned (Ok st')) →
  keys st' = keys st ∧ ticker st' = ticker st ∧
    match idle_timeout h with
    | None => t = [] ∧ st' = st
    | Some idle =>
        Forall (sweeping idle (iter (entries st))) t ∧
        (∀ k, entries st !! k = None → entries st' !! k = None) ∧
        (∀ k e, entries st !! k = Some e → ∃ e', entries st' !! k = Some e' ∧ swept idle t e e')
    end.
Proof.
  unfold passivate_idle. destruct (idle_timeout h) as [idle|]; [|by intros [-> [= ->]]].
  intros Hd. assert (NoDup (iter (entries st)).*1) as Hnd.
  { rewrite iter_perm. apply NoDup_fst_map_to_list. }
  assert (∀ k e, (k, e) ∈ iter (entries st) ↔ entries st !! k = Some e) as Hin.
  { intros k e. rewrite iter_perm. apply elem_of_map_to_list. }
  apply Does_bind_Ok in Hd as (es & t1 & t2 & -> & H1 & [-> [= ->]]).
  apply sweep_does in H1 as (Hf & Hout & Hsw); [|done|by intros k e; apply Hin].
  rewrite app_nil_r. split_and!; try done; simpl.
  - intros k Hk. rewrite Hout; [done|]. intros ([k' e] & -> & Hke)%list_elem_of_fmap.
    apply Hin in Hke. simpl in *. congruence.
  - intros k e Hke%Hin. eauto.
Qed.

Lemma hosted_swept st st' idle t :
  hosted st → keys st' = keys st → (∀ k, entries st !! k = None → entries st' !! k = None) →
  (∀ k e, entries st !! k = Some e → ∃ e', entries st' !! k = Some e' ∧ swept idle t e e') → hosted st'.
Proof.
  intros [Hk He Hb] Hks Hnone Hsw.
  assert (∀ k e', entries st' !! k = Some e' → ∃ e, entries st !! k = Some e ∧ swept idle t e e') as Hback.
  { intros k e' He'. destruct (entries st !! k) as [e|] eqn:Hke; [|by rewrite Hnone in He'].
    destruct (Hsw k e Hke) as (e2 & He2 & ?). simplify_eq. eauto. }
  split; rewrite ?Hks.
  - intros k e' (e & Hke & Hs)%Hback. rewrite (swept_actor _ _ _ _ Hs). eauto.
  - intros a k Ha. destruct (He a k Ha) as (e & Hke & <-). destruct (Hsw k e Hke) as (e' & He' & Hs).
    exists e'. split; [done|]. by eapply swept_actor.
  - intros k a buffered (e & Hke & Hs)%Hback. inversion Hs; subst; [eauto|]. simpl. lia.
Qed.

(** ** One incarnation per key *)

(** The incarnation a key is hosted by stays until its termination is received. *)
Definition continues (i : Incoming (HostEnvelope K M)) st st' : Prop :=
  ∀ k e, entries st !! k = Some e →
    (∃ e', entries st' !! k = Some e' ∧ entry_actor e' = entry_actor e) ∨ i = Terminated (entry_actor e).

Lemma continues_insert i st k e e' ks x :
  entries st !! k = Some e → entry_actor e' = entry_actor e →
  continues i st (mk_state (<[k := e']> (entries st)) ks x).
Proof.
  intros Hk Ha k2 e2 H2. left. simpl. destruct (decide (k = k2)) as [<-|].
  - exists e'. rewrite lookup_insert_eq. by simplify_eq.
  - exists e2. by rewrite lookup_insert_ne.
Qed.

Lemma route_does st k m t st' :
  spawns_a_child → hosted st → (∀ a, a ∈ children t → keys st !! a = None) →
  Does (route tell_entity debug_assertions h st k m) t (Returned (Ok st')) →
  hosted st' ∧ ∀ i, continues i st st'.
Proof.
  intros Hsp Hh Hfresh Hd. unfold route in Hd. destruct (entries st !! k) as [[actor last|a buffered]|] eqn:Hk.
  - destruct Hd as (t1 & -> & now & t2 & -> & -> & [= ->]).
    split; [by eapply hosted_update|]. intros i. by eapply continues_insert.
  - case_decide as Hlt; destruct Hd as [-> [= ->]]; [|by split; [|intros i k2 e2 H2; left; exists e2]].
    split; [|intros i; by eapply continues_insert].
    eapply hosted_update; [done..|]. intros a' b' [= <- <-]. rewrite length_app. simpl. lia.
  - apply Does_bind_Ok in Hd as (actor & t1 & t2 & -> & H1 & t3 & -> & H3).
    apply spawn_entity_does in H1 as (ts & -> & H1).
    eapply (remember_does _ _ _ (λ ks entry, mk_state _ ks _)) in H3 as (now & -> & ->).
    assert (keys st !! actor_id actor = None) as Hnone.
    { apply Hfresh. rewrite !children_app, !elem_of_app. left; left. by eapply Hsp. }
    split; [by eapply (hosted_insert st k (Live actor now))|].
    intros i k2 e2 H2. left. exists e2. simpl. rewrite lookup_insert_ne; [done|congruence].
Qed.

Lemma tick_later_does st t o :
  Does (tick_later h st) t o →
  ∃ x, o = Returned (Ok (set_ticker st x)) ∧
    (x = None ↔ idle_timeout h = None) ∧
    ∀ idle, idle_timeout h = Some idle → ∃ ref, x = Some (actor_id ref) ∧
      t = [ASpawn (Ticker h idle) default_config ref; AWatch ref].
Proof.
  unfold tick_later. destruct (idle_timeout h) as [idle|].
  - intros (ref & t1 & -> & t2 & -> & -> & ->). eexists. split; [done|]. split; [done|].
    intros ? [= <-]. eauto.
  - intros [-> ->]. eexists. split; [done|]. split; [done|]. done.
Qed.

(** What becomes of an entity which has terminated. *)
Lemma entity_terminated_does st a k t st' :
  hosted st → ticker st ≠ Some a → keys st !! a = Some k →
  Does (terminated tell_entity debug_assertions iter h st a) t (Returned (Ok st')) →
  match entries st !! k with
  | Some (Stopping _ (m :: buffered)) =>
      ∃ ts r td now, t = ts ++ [AWatch r] ++ td ++ [ANow now] ∧ Does (spawn h k) ts (Returned (Ok r)) ∧
        told r (m :: buffered) td ∧
        st' = mk_state (<[k := Live r now]> (delete k (entries st))) (<[actor_id r := k]> (delete a (keys st))) (ticker st)
  | _ => t = [] ∧ st' = mk_state (delete k (entries st)) (delete a (keys st)) (ticker st)
  end.
Proof.
  intros Hh Htick Ha Hd. unfold terminated in Hd. rewrite decide_False, Ha in Hd by done.
  destruct (entries st !! k) as [[actor last|a' [|m buffered]]|]; try by destruct Hd as [-> [= ->]].
  apply Does_bind_Ok in Hd as (r & t1 & t2 & -> & H1 & H2). apply spawn_entity_does in H1 as (ts & -> & H1).
  apply deliver_buffered_does in H2 as (td & t3 & -> & Htd & H3).
  eapply (remember_does _ _ _ (λ ks entry, mk_state _ ks _)) in H3 as (now & -> & ->).
  exists ts, r, td, now. split_and!; try done. by rewrite <-!(assoc_L (++)).
Qed.

Lemma terminated_does st a t st' :
  spawns_a_child → hosted st → (∀ b, b ∈ children t → keys st !! b = None) →
  Does (terminated tell_entity debug_assertions iter h st a) t (Returned (Ok st')) →
  hosted st' ∧ continues (Terminated a) st st'.
Proof.
  intros Hsp Hh Hfresh Hd. destruct (decide (ticker st = Some a)) as [Htick|Htick].
  - unfold terminated in Hd. rewrite decide_True in Hd by done.
    apply Does_bind_Ok in Hd as (st1 & t1 & t2 & -> & H1 & H2).
    apply passivate_idle_does in H1 as (Hks & _ & Hsw).
    apply tick_later_does in H2 as (x & [= ->] & _). destruct (idle_timeout h) as [idle|].
    + destruct Hsw as (_ & Hnone & Hsw). split; [by eapply hosted_ticker, hosted_swept|].
      intros k e Hk. left. destruct (Hsw k e Hk) as (e' & ? & Hs). exists e'. split; [done|]. by eapply swept_actor.
    + destruct Hsw as [_ ->]. split; [by apply hosted_ticker|]. intros k e Hk. left. by exists e.
  - destruct (keys st !! a) as [k|] eqn:Ha.
    2: { unfold terminated in Hd. rewrite decide_False, Ha in Hd by done. destruct Hd as [_ [= ->]].
         split; [done|]. intros k e Hk. left. by exists e. }
    pose proof (entity_terminated_does st a k t st' Hh Htick Ha Hd) as Ht.
    destruct (hosted_entries st Hh a k Ha) as (e & Hke & Hact). pose proof (hosted_delete st k a Hh Ha (ticker st)) as Hdel.
    assert (∀ k2 e2, entries st !! k2 = Some e2 → delete k (entries st) !! k2 = Some e2 ∨ Terminated (M:=HostEnvelope K M) a = Terminated (entry_actor e2)) as Hcont.
    { intros k2 e2 H2. destruct (decide (k = k2)) as [<-|]; [right; by simplify_eq|left; by rewrite lookup_delete_ne]. }
    assert (hosted (mk_state (delete k (entries st)) (delete a (keys st)) (ticker st)) ∧
            continues (Terminated a) st (mk_state (delete k (entries st)) (delete a (keys st)) (ticker st))) as Hbase.
    { split; [done|]. intros k2 e2 [H2|H2]%Hcont; [left; by exists e2|by right]. }
    rewrite Hke in Ht. destruct e as [actor last|a' [|m buffered]]; try by destruct Ht as [_ ->].
    destruct Ht as (ts & r & td & now & -> & Hts & _ & ->).
    assert (delete a (keys st) !! actor_id r = None) as Hnone.
    { rewrite lookup_delete_None. right. apply Hfresh. rewrite children_app, elem_of_app. left. by eapply Hsp. }
    split.
    + by eapply (hosted_insert (mk_state (delete k (entries st)) (delete a (keys st)) (ticker st)) k (Live r now) Hdel (lookup_delete_eq _ _)).
    + intros k2 e2 [H2|H2]%Hcont; [|by right]. left. exists e2. simpl.
      rewrite lookup_insert_ne; [done|]. intros ->. by rewrite lookup_delete_eq in H2.
Qed.

Lemma receive_does st i t c :
  spawns_a_child → hosted st → (∀ a, a ∈ children t → keys st !! a = None) →
  Does (receive h i st) t (Returned (Ok c)) →
  ∃ st', c = Continue st' ∧ hosted st' ∧ continues i st st'.
Proof.
  intros Hsp Hh Hfresh Hd. unfold host_receive in Hd.
  apply Does_bind_Ok in Hd as (st' & t1 & t2 & -> & H1 & -> & [= ->]). rewrite app_nil_r in Hfresh.
  exists st'. split; [done|]. destruct i as [env|a].
  - apply route_does in H1 as [? ?]; [|done..]. by split.
  - by eapply terminated_does.
Qed.

(** ** The life of a host *)

(** What it has received so far, with its state after each; every child it spawns is new to it. *)
Inductive Hosting : list (Incoming (HostEnvelope K M) * State) → State → Prop :=
  | hosting_started t st : Does (host_init h) t (Returned (Ok st)) → Hosting [] st
  | hosting_received log st i t st' :
      Hosting log st → (∀ a, a ∈ children t → keys st !! a = None) →
      Does (receive h i st) t (Returned (Ok (Continue st'))) → Hosting (log ++ [(i, st')]) st'.

Definition hosted_by st k a : Prop := ∃ e, entries st !! k = Some e ∧ entry_actor e = a.

Context (Hspawn : spawns_a_child).

Lemma Hosting_hosted log st : Hosting log st → hosted st.
Proof.
  induction 1 as [t st Hd|log st i t st' _ IH Hfresh Hd].
  - apply tick_later_does in Hd as (x & [= ->] & _). apply hosted_ticker, hosted_default.
  - by apply receive_does in Hd as (st2 & [= ->] & ? & _).
Qed.

Lemma Hosting_last log st n x s : Hosting log st → log !! n = Some (x, s) → S n = length log → s = st.
Proof.
  intros Hl Hn Hlen. inversion Hl as [|log' st0 i t st' H0 Hf Hd]; subst; [done|].
  rewrite length_app in Hlen. simpl in Hlen. assert (n = length log') as -> by lia.
  rewrite lookup_app_r, Nat.sub_diag in Hn by lia. by simplify_eq/=.
Qed.

Lemma Hosting_continues log st n x s x' s' :
  Hosting log st → log !! n = Some (x, s) → log !! S n = Some (x', s') → continues x' s s'.
Proof.
  intros Hl. induction Hl as [|log st i t st' Hl IH Hfresh Hd]; [done|]. intros Hn Hn'.
  apply lookup_lt_Some in Hn' as Hlt. rewrite length_app in Hlt. simpl in Hlt.
  rewrite lookup_app_l in Hn by lia. destruct (decide (S n < length log)) as [Hin|Hout].
  - rewrite lookup_app_l in Hn' by lia. eauto.
  - assert (S n = length log) as Heq by lia. rewrite Heq, lookup_app_r, Nat.sub_diag in Hn' by lia.
    simplify_eq/=. rewrite (Hosting_last _ _ _ _ _ Hl Hn Heq).
    apply receive_does in Hd as (st2 & [= ->] & _ & ?); [done..|by eapply Hosting_hosted|done].
Qed.

Lemma hosted_by_stays log st i n x s k a :
  Hosting log st → hosted_by s k a → log !! i = Some (x, s) → i + n < length log →
  (∃ l s', i < l ≤ i + n ∧ log !! l = Some (Terminated a, s')) ∨
  (∃ x' s', log !! (i + n) = Some (x', s') ∧ hosted_by s' k a).
Proof.
  intros Hl Hby Hi. induction n as [|n IH]; intros Hlen.
  - right. rewrite Nat.add_0_r. eauto.
  - destruct IH as [(l & s' & ? & ?)|(x1 & s1 & Hn & e & He & Ha)]; [lia|left; exists l, s'; split; [lia|done]|].
    destruct (lookup_lt_is_Some_2 log (i + S n) Hlen) as [[x2 s2] H2].
    assert (continues x2 s1 s2) as Hc.
    { eapply Hosting_continues; [done..|]. by replace (S (i + n)) with (i + S n) by lia. }
    destruct (Hc k e He) as [(e' & He' & Ha')| ->].
    + right. exists x2, s2. split; [done|]. exists e'. split; [done|congruence].
    + left. exists (i + S n), s2. split; [lia|]. by rewrite Ha in H2.
Qed.

(** C29. An entity has one incarnation at a time: a host only ever replaces the actor a key is hosted by
    after it has received that actor's termination, that is, by the order of termination, once the
    actor and everything below it are gone; every actor hosts at most one key. *)
Theorem one_incarnation_per_key log st i j x1 s1 x2 s2 k a1 a2 :
  Hosting log st → log !! i = Some (x1, s1) → log !! j = Some (x2, s2) → i ≤ j →
  hosted_by s1 k a1 → hosted_by s2 k a2 →
  (a1 ≠ a2 → ∃ l s, i < l ≤ j ∧ log !! l = Some (Terminated a1, s)) ∧
  (∀ k', hosted_by s2 k' a2 → k' = k).
Proof.
  intros Hl Hi Hj Hij Hb1 Hb2. split.
  - intros Hne. apply lookup_lt_Some in Hj as Hlt.
    destruct (hosted_by_stays log st i (j - i) x1 s1 k a1) as [(l & s' & ? & ?)|(x' & s' & Hj' & e & He & Ha)];
      [done..|lia|exists l, s'; split; [lia|done]|].
    replace (i + (j - i)) with j in Hj' by lia. simplify_eq.
    destruct Hb2 as (e2 & He2 & <-). simplify_eq.
  - assert (hosted s2) as [Hk _ _].
    { clear -Hl Hj Hspawn H iter_perm. revert j Hj. induction Hl as [|log st i t st' Hl IH Hfresh Hd]; intros j Hj; [done|].
      apply lookup_app_Some in Hj as [Hj|[_ Hj]]; [by eapply IH|].
      apply list_lookup_singleton_Some in Hj as [_ [= <- <-]].
      apply (Hosting_hosted (log ++ [(i, st')])). by econstructor. }
    intros k' (e' & He' & <-). destruct Hb2 as (e2 & He2 & Heq).
    apply Hk in He', He2. congruence.
Qed.

(** ** Passivation *)

(** A host going on: what it receives, one after the other, whoever it is for, and what it does in return. *)
Inductive Receives : State → list (Incoming (HostEnvelope K M)) → State → Prop :=
  | receives_nothing st : Receives st [] st
  | receives_next st i t st1 js st' :
      (∀ a, a ∈ children t → keys st !! a = None) → Does (receive h i st) t (Returned (Ok (Continue st1))) →
      Receives st1 js st' → Receives st (i :: js) st'.

(** The messages for a key. *)
Definition arrivals (k : K) (js : list (Incoming (HostEnvelope K M))) : list M :=
  omap (λ i, match i with
             | Message envelope => if decide (key envelope = k) then Some (message envelope) else None
             | Terminated _ => None
             end) js.

(** As many as fit into the buffer. *)
Definition kept (l : list M) : list M := take (Pos.to_nat (buffer h)) l.

Lemma kept_fits l : (length l ≤ Pos.to_nat (buffer h))%nat → kept l = l.
Proof. apply take_ge. Qed.
Lemma kept_app l l' : kept (kept l ++ l') = kept (l ++ l').
Proof. unfold kept. rewrite !take_app, take_take, length_take. f_equal; f_equal; lia. Qed.

Lemma arrivals_cons k i js : arrivals k (i :: js) = arrivals k [i] ++ arrivals k js.
Proof. apply (omap_app _ [i] js). Qed.

(** An entity told to stop is stopping until its termination is received, and all which is received for it is kept. *)
Definition stopping st k a buffered : Prop := hosted st ∧ entries st !! k = Some (Stopping a buffered) ∧ ticker st ≠ Some a.

Lemma route_stopping st k a buffered k' m t st' :
  stopping st k a buffered → Does (route tell_entity debug_assertions h st k' m) t (Returned (Ok st')) →
  entries st' !! k = Some (Stopping a (kept (buffered ++ arrivals k [Message (mk_envelope k' m)]))) ∧ ticker st' = ticker st.
Proof.
  intros (Hh & Hk & _) Hd. pose proof (hosted_buffers st Hh k a buffered Hk) as Hlen.
  unfold route in Hd. unfold arrivals. simpl. destruct (decide (k' = k)) as [->|Hne].
  - rewrite Hk in Hd. case_decide as Hlt; destruct Hd as [-> [= ->]]; simpl.
    + rewrite lookup_insert_eq, kept_fits; [done|]. rewrite length_app. simpl. lia.
    + split; [|done]. unfold kept. by rewrite take_app_le, take_ge by lia.
  - rewrite app_nil_r, kept_fits by done. destruct (entries st !! k') as [[actor last|a' buf]|].
    + destruct Hd as (t1 & -> & now & t2 & -> & -> & [= ->]). simpl. by rewrite lookup_insert_ne.
    + case_decide; destruct Hd as [-> [= ->]]; simpl; [by rewrite lookup_insert_ne|done].
    + apply Does_bind_Ok in Hd as (actor & t1 & t2 & -> & _ & t3 & -> & H3).
      eapply (remember_does _ _ _ (λ ks entry, mk_state _ ks _)) in H3 as (now & -> & ->). simpl. by rewrite lookup_insert_ne.
Qed.

Lemma terminated_stopping st k a buffered b t st' :
  stopping st k a buffered → b ≠ a → (∀ c, c ∈ children t → keys st !! c = None) →
  Does (terminated tell_entity debug_assertions iter h st b) t (Returned (Ok st')) →
  entries st' !! k = Some (Stopping a buffered) ∧ ticker st' ≠ Some a.
Proof.
  intros (Hh & Hk & Htick) Hne Hfresh Hd. destruct (decide (ticker st = Some b)) as [Hb|Hb].
  - unfold terminated in Hd. rewrite decide_True in Hd by done. apply Does_bind_Ok in Hd as (st1 & t1 & t2 & -> & H1 & H2).
    apply passivate_idle_does in H1 as (Hks & _ & Hsw). apply tick_later_does in H2 as (x & [= ->] & Hx & Ht).
    destruct (idle_timeout h) as [idle|].
    + destruct Hsw as (_ & _ & Hsw). destruct (Hsw _ _ Hk) as (e' & He' & Hs). inversion Hs; subst. split; [done|].
      destruct (Ht idle eq_refl) as (ref & -> & ->). intros [= Hr]. assert (keys st !! a = None) as Hnone.
      { apply Hfresh. rewrite children_app, elem_of_app. right. rewrite <-Hr. by left. }
      by rewrite (hosted_keys st Hh k _ Hk : keys st !! a = Some k) in Hnone.
    + destruct Hsw as [_ ->]. split; [done|]. by rewrite (proj2 Hx eq_refl).
  - destruct (keys st !! b) as [k'|] eqn:Hk'.
    2: { unfold terminated in Hd. rewrite decide_False, Hk' in Hd by done. by destruct Hd as [_ [= ->]]. }
    assert (k' ≠ k) as Hkk.
    { intros ->. destruct (hosted_entries st Hh b k Hk') as (e & He & Ha). by simplify_eq/=. }
    pose proof (entity_terminated_does st b k' t st' Hh Hb Hk' Hd) as Ht.
    destruct (entries st !! k') as [[actor last|a' [|m buf]]|]; try (destruct Ht as [_ ->]; simpl; by rewrite lookup_delete_ne).
    destruct Ht as (ts & r & td & now & _ & _ & _ & ->). simpl. by rewrite lookup_insert_ne, lookup_delete_ne.
Qed.

Lemma receives_stopping st js st' k a buffered :
  Receives st js st' → stopping st k a buffered → Terminated a ∉ js → stopping st' k a (kept (buffered ++ arrivals k js)).
Proof.
  intros Hr. revert buffered. induction Hr as [st|st i t st1 js st' Hfresh Hd _ IH]; intros buffered Hst Hin.
  { rewrite app_nil_r, kept_fits; [done|]. destruct Hst as (Hh & Hk & _). by eapply hosted_buffers. }
  apply not_elem_of_cons in Hin as [Hi Hin].
  assert (stopping st1 k a (kept (buffered ++ arrivals k [i]))) as Hst1.
  { destruct (receive_does st i t _ Hspawn (proj1 Hst) Hfresh Hd) as (st2 & [= <-] & Hh & _). split; [done|].
    unfold host_receive in Hd. apply Does_bind_Ok in Hd as (st2 & t1 & t2 & -> & H1 & -> & [= ->]). rewrite app_nil_r in Hfresh.
    destruct i as [[k' m]|b].
    - apply (route_stopping st k a buffered) in H1 as [-> ->]; [|done]. by destruct Hst as (_ & _ & ?).
    - pose proof (hosted_buffers st (proj1 Hst) k a buffered (proj1 (proj2 Hst))) as Hlen.
      unfold arrivals. simpl. rewrite app_nil_r, kept_fits by exact Hlen. eapply (terminated_stopping st k a buffered b); [done|intros ->; by destruct Hi|done|done]. }
  specialize (IH _ Hst1 Hin). by rewrite kept_app, <-(assoc_L (++)), <-arrivals_cons in IH.
Qed.

(** C30. A passivation is invisible to senders but in timing: whatever a host receives after it has told an entity to
    stop, for this entity and for others, ticks and terminations included, what arrives for the entity is kept in
    order, up to the buffer's bound, and once it has terminated, told in that order, past any mailbox bound
    and before anything else, to a fresh incarnation, which is spawned exactly if there is something to tell. *)
Theorem passivation_loses_nothing k a buffered js st1 st2 t st3 :
  hosted st1 → entries st1 !! k = Some (Stopping a buffered) → ticker st1 ≠ Some a →
  Receives st1 js st2 → Terminated a ∉ js →
  Does (receive h (Terminated a) st2) t (Returned (Ok (Continue st3))) →
  let l := kept (buffered ++ arrivals k js) in
  entries st2 !! k = Some (Stopping a l) ∧ delete k (entries st3) = delete k (entries st2) ∧
  match l with
  | [] => t = [] ∧ entries st3 !! k = None
  | _ => ∃ ts r td now, t = ts ++ [AWatch r] ++ td ++ [ANow now] ∧ told r l td ∧
      Does (spawn h k) ts (Returned (Ok r)) ∧ entries st3 !! k = Some (Live r now)
  end.
Proof.
  intros Hh Hk Htick Hr Hin Hd l. destruct (receives_stopping _ _ _ k a buffered Hr) as (Hh2 & Hk2 & Htick2); [done..|].
  fold l in Hk2. split; [done|]. unfold host_receive in Hd. apply Does_bind_Ok in Hd as (st3' & t1 & t2 & -> & H1 & -> & [= ->]).
  apply (entity_terminated_does st2 a k) in H1; [|done|done|by apply (hosted_keys st2 Hh2 k _ Hk2)]. rewrite Hk2 in H1.
  rewrite app_nil_r. destruct l as [|m l'].
  - destruct H1 as [-> ->]. simpl. split_and!; [by rewrite delete_delete_eq|done|apply lookup_delete_eq].
  - destruct H1 as (ts & r & td & now & -> & Hts & Htd & ->). simpl.
    split; [by rewrite delete_insert_eq, delete_delete_eq|]. exists ts, r, td, now. by rewrite lookup_insert_eq.
Qed.

(** Only the idle are passivated: on a tick the host tells only those entities to stop which have
    not been told anything for the idle timeout, leaves alone those which cannot be told (their
    mailbox is full) and all others, asks no stopping entity again, and starts the next tick. *)
Theorem only_the_idle_are_passivated st t st' a idle :
  ticker st = Some a → idle_timeout h = Some idle →
  Does (terminated tell_entity debug_assertions iter h st a) t (Returned (Ok st')) →
  keys st' = keys st ∧
  (∀ k, entries st !! k = None → entries st' !! k = None) ∧
  (∀ k e, entries st !! k = Some e → ∃ e', entries st' !! k = Some e' ∧ swept idle t e e') ∧
  ∃ ref t1, ticker st' = Some (actor_id ref) ∧ Forall (sweeping idle (iter (entries st))) t1 ∧
    t = t1 ++ [ASpawn (Ticker h idle) default_config ref; AWatch ref].
Proof.
  clear Hspawn. intros Htick Hidle Hd. unfold terminated in Hd. rewrite decide_True in Hd by done.
  apply Does_bind_Ok in Hd as (st1 & t1 & t2 & -> & H1 & H2).
  apply passivate_idle_does in H1 as (Hks & _ & Hsw). rewrite Hidle in Hsw.
  apply tick_later_does in H2 as (x & [= ->] & _ & Ht). destruct (Ht idle Hidle) as (ref & -> & ->).
  destruct Hsw as (Hf & Hnone & Hsw). split_and!; [done..| |by exists ref, t1].
  intros k e Hk. destruct (Hsw k e Hk) as (e' & He' & Hs). exists e'. split; [done|].
  eapply swept_mono; [|done]. set_solver.
Qed.
End HostSpec.

(** A host's idle timeout is never zero: setting one fails exactly for a zero duration, and changes
    nothing else. *)
Theorem idle_timeouts_are_positive (c : HostConfig) (d : Duration) :
  match with_idle_timeout c d with
  | Ok c' => (0 < d)%N ∧ config_idle_timeout c' = Some d ∧ config_buffer c' = config_buffer c
  | Err ZeroIdleTimeout => d = 0%N
  end.
Proof. unfold with_idle_timeout, duration_is_zero. destruct (N.eqb_spec d 0); simpl; [done|]. split_and!; [lia|done..]. Qed.
