(* ===== verification/HostExample.v ===== *)
(** A host passivating an entity: the hypotheses of the theorems of [HostSpec] are met by this run. *)
From S2P Require Import Prelude Config Actor Runtime Handlers Host HostSpec.

(** Entities, told numbers, under keys which are numbers; passivated by 0 once idle for 5ns. *)
Inductive hosted_actor := HostedEntity (key : N) | HostedTicker (idle_timeout : Duration).

Definition example_spawn (key : N) : Code N hosted_actor Nothing ActorRef :=
  HSpawn (HostedEntity key) default_config (λ r, ret r).
Definition example_config : HostConfig := mk_host_config (Some 5%N) 1.
Definition example_host : Host (K:=N) := new_host example_config example_spawn (ret 0%N) HostedTicker.
Abbreviation iterate := (map_to_list (K:=N) (A:=Entry N)).
Abbreviation example_receive := (host_receive (B:=hosted_actor) id true iterate example_host).

Definition ref (n : N) : ActorRef := mk_ref (mk_actor_id n).
Definition told_1 : Incoming (HostEnvelope N N) := Message (mk_envelope 1%N 7%N).

(** Started with a ticker, told about an entity, ticked when it is idle, told about it again (the second
    message exceeds the buffer), and its termination received. *)
Definition state_0 : State N N := mk_state ∅ ∅ (Some (mk_actor_id 10)).
Definition state_1 : State N N :=
  mk_state {[ 1%N := Live (ref 1) 0%N ]} {[ mk_actor_id 1 := 1%N ]} (Some (mk_actor_id 10)).
Definition state_2 : State N N :=
  mk_state {[ 1%N := Stopping (mk_actor_id 1) [] ]} {[ mk_actor_id 1 := 1%N ]} (Some (mk_actor_id 11)).
Definition state_3 : State N N :=
  mk_state {[ 1%N := Stopping (mk_actor_id 1) [7%N] ]} {[ mk_actor_id 1 := 1%N ]} (Some (mk_actor_id 11)).
Definition state_4 : State N N :=
  mk_state {[ 1%N := Live (ref 2) 20%N ]} {[ mk_actor_id 2 := 1%N ]} (Some (mk_actor_id 11)).

Lemma iterate_perm m : iterate m ≡ₚ map_to_list m.
Proof. done. Qed.

Lemma example_spawns : spawns_a_child example_host.
Proof. intros k t r (child & t' & -> & -> & [= <-]). by left. Qed.

Ltac performed l := eexists; eapply (perform_Does l); vm_compute; reflexivity.

Lemma does_0 : ∃ t, Does (host_init (K:=N) (M:=N) example_host) t (Returned (Ok state_0)).
Proof. performed [(true, 0%N, ref 10)]. Qed.
Lemma does_1 : ∃ t, Does (example_receive told_1 state_0) t (Returned (Ok (Continue state_1))) ∧ children t = [mk_actor_id 1].
Proof. eexists; split; [eapply (perform_Does [(true, 0%N, ref 1); (true, 0%N, ref 0)]); vm_compute; reflexivity|reflexivity]. Qed.
Lemma does_2 : ∃ t, Does (example_receive (Terminated (mk_actor_id 10)) state_1) t (Returned (Ok (Continue state_2))) ∧
  children t = [mk_actor_id 11].
Proof.
  eexists; split; [|shelve]. eapply (perform_Does [(true, 10%N, ref 0); (true, 0%N, ref 0); (true, 0%N, ref 11)]).
  vm_compute. reflexivity. Unshelve. reflexivity.
Qed.
Lemma does_3 : ∃ t, Does (example_receive told_1 state_2) t (Returned (Ok (Continue state_3))) ∧ children t = [].
Proof. eexists; split; [eapply (perform_Does []); vm_compute; reflexivity|reflexivity]. Qed.
Lemma does_4 : ∃ t, Does (example_receive (Terminated (mk_actor_id 1)) state_3) t (Returned (Ok (Continue state_4))) ∧
  children t = [mk_actor_id 2].
Proof.
  eexists; split; [|shelve]. eapply (perform_Does [(true, 0%N, ref 2); (true, 0%N, ref 0); (true, 20%N, ref 0)]).
  vm_compute. reflexivity. Unshelve. reflexivity.
Qed.

Definition example_log : list (Incoming (HostEnvelope N N) * State N N) :=
  [(told_1, state_1); (Terminated (mk_actor_id 10), state_2); (told_1, state_3); (Terminated (mk_actor_id 1), state_4)].

Lemma example_hosting : Hosting id true iterate example_host example_log state_4.
Proof.
  destruct does_0 as [t0 H0], does_1 as (t1 & H1 & C1), does_2 as (t2 & H2 & C2), does_3 as (t3 & H3 & C3),
    does_4 as (t4 & H4 & C4).
  eapply (hosting_received _ _ _ _ [_; _; _]); [|rewrite C4|exact H4].
  eapply (hosting_received _ _ _ _ [_; _]); [|rewrite C3|exact H3].
  eapply (hosting_received _ _ _ _ [_]); [|rewrite C2|exact H2].
  eapply (hosting_received _ _ _ _ []); [|rewrite C1|exact H1].
  - by eapply hosting_started.
  - by intros a ->%list_elem_of_singleton.
  - by intros a ->%list_elem_of_singleton.
  - by intros a ?%not_elem_of_nil.
  - by intros a ->%list_elem_of_singleton.
Qed.

Lemma one_incarnation_per_key_witness :
  ∃ l s, 0 < l ≤ 3 ∧ example_log !! l = Some (Terminated (mk_actor_id 1), s).
Proof.
  apply (one_incarnation_per_key id true iterate iterate_perm example_host example_spawns example_log state_4 0 3
    told_1 state_1 (Terminated (mk_actor_id 1)) state_4 1%N (mk_actor_id 1) (mk_actor_id 2) example_hosting).
  - reflexivity.
  - reflexivity.
  - lia.
  - exists (Live (ref 1) 0%N). split; reflexivity.
  - exists (Live (ref 2) 20%N). split; reflexivity.
  - discriminate.
Defined.

Lemma state_2_hosted : hosted example_host state_2.
Proof.
  split; simpl.
  - intros k e. rewrite lookup_singleton_Some. by intros [<- <-].
  - intros a k. rewrite lookup_singleton_Some. intros [<- <-]. by eexists.
  - intros k a b. rewrite lookup_singleton_Some. intros [_ [= _ <-]]. simpl. lia.
Qed.

(** What goes on while the entity stops: it is told 7, another entity is told 9, there is a tick, and it is told 8. *)
Definition tell_to (k m : N) : Incoming (HostEnvelope N N) := Message (mk_envelope k m).
Definition meanwhile : list (list Learned * Incoming (HostEnvelope N N)) :=
  [([], tell_to 1 7); ([(true, 0%N, ref 3); (true, 12%N, ref 0)], tell_to 2 9);
   ([(true, 15%N, ref 0); (true, 0%N, ref 12)], Terminated (mk_actor_id 11)); ([], tell_to 1 8)].

Definition performed_by (x : list Learned * Incoming (HostEnvelope N N)) (st : State N N) :=
  perform (E:=Nothing) x.1 (example_receive x.2 st).
Fixpoint after (l : list (list Learned * Incoming (HostEnvelope N N))) (st : State N N) : option (State N N) :=
  match l with
  | [] => Some st
  | x :: l =>
      match performed_by x st with
      | (t, Returned (Ok (Continue st'))) =>
          if forallb (λ a, bool_decide (keys st !! a = None)) (children t) then after l st' else None
      | _ => None
      end
  end.

Lemma after_receives l st st' : after l st = Some st' → Receives id true iterate example_host st l.*2 st'.
Proof.
  revert st. induction l as [|[ls i] l IH]; intros st; simpl; [intros [= <-]; constructor|].
  destruct (performed_by (ls, i) st) as [t [[[st1|]|]|]] eqn:Hp; try discriminate.
  destruct (forallb _ _) eqn:Hf; [|discriminate]. intros Ha. eapply receives_next; [|by eapply (perform_Does ls)|by apply IH].
  intros a Hin%list_elem_of_In. apply (bool_decide_eq_true_1 _). exact (proj1 (forallb_forall _ _) Hf a Hin).
Qed.

Definition state_5 : State N N := default state_2 (after meanwhile state_2).
Lemma state_5_after : after meanwhile state_2 = Some state_5.
Proof. vm_compute. reflexivity. Qed.

(** The next incarnation is spawned at 20. *)
Definition next_incarnation := performed_by ([(true, 0%N, ref 2); (true, 0%N, ref 0); (true, 20%N, ref 0)], Terminated (mk_actor_id 1)) state_5.
Definition state_6 : State N N := match next_incarnation.2 with Returned (Ok (Continue st)) => st | _ => state_5 end.

(** Of the two messages one fits the buffer and is told to the next incarnation; the other entity lives on. *)
Lemma passivation_loses_nothing_witness :
  (∃ ts r td now, next_incarnation.1 = ts ++ [AWatch r] ++ td ++ [ANow now] ∧ told id r [7%N] td) ∧
  entries state_6 !! 1%N = Some (Live (ref 2) 20%N) ∧ entries state_6 !! 2%N = Some (Live (ref 3) 12%N).
Proof.
  destruct (passivation_loses_nothing id true iterate iterate_perm example_host example_spawns 1%N (mk_actor_id 1) []
    meanwhile.*2 state_2 state_5 next_incarnation.1 state_6 state_2_hosted) as (_ & _ & Hn).
  - reflexivity.
  - discriminate.
  - exact (after_receives _ _ _ state_5_after).
  - simpl. rewrite !not_elem_of_cons. repeat split; try discriminate. apply not_elem_of_nil.
  - eapply (perform_Does [(true, 0%N, ref 2); (true, 0%N, ref 0); (true, 20%N, ref 0)]). vm_compute. reflexivity.
  - destruct Hn as (ts & r & td & now & Ht & Htd & _). split; [exists ts, r, td, now; split; [exact Ht|exact Htd]|].
    split; vm_compute; reflexivity.
Defined.

Definition ticking :=
  perform [(true, 10%N, ref 0); (true, 0%N, ref 0); (true, 0%N, ref 11)]
    (terminated (B:=hosted_actor) id true iterate example_host state_1 (mk_actor_id 10)).

Lemma only_the_idle_are_passivated_witness :
  keys state_2 = keys state_1 ∧ ∃ e', entries state_2 !! 1%N = Some e' ∧
    swept id example_host 5%N ticking.1 (Live (ref 1) 0%N) e'.
Proof.
  destruct (only_the_idle_are_passivated id true iterate iterate_perm example_host state_1 ticking.1 state_2
    (mk_actor_id 10) 5%N) as (Hk & _ & Hsw & _).
  - reflexivity.
  - reflexivity.
  - eapply (perform_Does [(true, 10%N, ref 0); (true, 0%N, ref 0); (true, 0%N, ref 11)]). vm_compute. reflexivity.
  - split; [exact Hk|]. apply Hsw. reflexivity.
Defined.
