(* ===== verification/Ask.v ===== *)
(** Asking: [ActorRef::ask] of [tellus/src/actor_ref.rs], and [ReplyTo] and [AskError] of [ask.rs]. The asker
    waits for the reply and for the timeout; the responder holds the [ReplyTo] and replies or drops it,
    in any interleaving with the asker's polls: the one of the reply, the one of the timer and the drop of the
    receiver are a step each. *)
From S2P Require Import Prelude Flume Quota Mailbox Tokio.

Inductive AskError :=
  | MailboxFull
  | ActorTerminated
  | NoReply
  | Timeout (within : Duration).

#[export] Instance AskError_eq_dec : EqDecision AskError.
Proof. solve_decision. Defined.

(** [From<SendError>] *)
Definition ask_error_from (e : SendError) : AskError :=
  match e with
  | Mailbox.MailboxFull _ => MailboxFull
  | SendActorTerminated _ => ActorTerminated
  end.

Section Ask.
Context {F : Flume} {TO : TokioOneshot} {Sink M R : Type}.

(** How far the asker has got. *)
Inductive Asker :=
  | Awaiting                          (* about to poll [reply_rx] *)
  | ReplyPolled                       (* nothing was there, about to poll the timer *)
  | Decided (r : result R AskError)   (* [timeout(..)] has resolved, [reply_rx] is still alive *)
  | Resolved (r : result R AskError). (* [ask] has returned and [reply_rx] is dropped *)

(** An ask under way: the channel, whether the [ReplyTo] is still to be used, and the asker. *)
Record Asking := mk_asking {
  reply_channel : Oneshot R;
  reply_to_held : bool;
  asker : Asker;
}.

(** The start of [ask], up to its await; [message] is built around the [ReplyTo]. *)
Definition ask (message : M) (b : MailboxState Sink M) : Asking * MailboxState Sink M :=
  let '(r, b) := try_send_message message b in
  (match r with
   | Ok _ => mk_asking (oneshot_channel R) true Awaiting
   (* The message comes back and is dropped, the [ReplyTo] in it too. *)
   | Err e => mk_asking (oneshot_drop_rx (oneshot_drop_tx (oneshot_channel R))) false (Resolved (Err (ask_error_from e)))
   end, b).

(** [timeout(within, reply_rx)] looks for the reply first. *)
Definition poll_reply (c : Oneshot R) : Asker :=
  match oneshot_poll c with
  | Ready (Ok reply) => Decided (Ok reply)
  | Ready (Err _) => Decided (Err NoReply)
  | Pending => ReplyPolled
  end.

(** Then for the timer; woken by either, it starts over. *)
Definition poll_timer (within : Duration) (elapsed : bool) : Asker :=
  if elapsed then Decided (Err (Timeout within)) else Awaiting.

Inductive AskLabel :=
  | LReply (reply : R)            (* [ReplyTo::reply], by whoever holds it *)
  | LDropReplyTo
  | LPoll                         (* the asker polls [reply_rx] *)
  | LTimer (elapsed : bool)       (* the asker polls the timer *)
  | LReturn.                      (* [ask] returns, [reply_rx] is dropped *)

Inductive AskObs :=
  | OReplied (reply : R)
  | ODeadReply (reply : R)        (* the asker no longer awaits it: a dead letter *)
  | OMissed                       (* polled, and no reply was there *)
  | OElapsed
  | OResolved (r : result R AskError).

Definition set_asker (s : Asking) (a : Asker) : Asking := mk_asking (reply_channel s) (reply_to_held s) a.

(** [ReplyTo::reply] consumes the [ReplyTo]. *)
Definition ask_step (within : Duration) (l : AskLabel) (s : Asking) : option (Asking * list AskObs) :=
  match l, asker s with
  | LReply reply, _ =>
      if reply_to_held s then
        Some match oneshot_send reply (reply_channel s) with
             | Ok c => (mk_asking c false (asker s), [OReplied reply])
             | Err reply => (mk_asking (reply_channel s) false (asker s), [ODeadReply reply])
             end
      else None
  | LDropReplyTo, _ =>
      if reply_to_held s then Some (mk_asking (oneshot_drop_tx (reply_channel s)) false (asker s), [])
      else None
  | LPoll, Awaiting =>
      let a := poll_reply (reply_channel s) in
      Some (set_asker s a, if a is ReplyPolled then [OMissed] else [])
  | LTimer elapsed, ReplyPolled => Some (set_asker s (poll_timer within elapsed), if elapsed then [OElapsed] else [])
  | LReturn, Decided r =>
      Some (mk_asking (oneshot_drop_rx (reply_channel s)) (reply_to_held s) (Resolved r), [OResolved r])
  | _, _ => None
  end.

Fixpoint ask_run (within : Duration) (ls : list AskLabel) (s : Asking) : option (Asking * list AskObs) :=
  match ls with
  | [] => Some (s, [])
  | l :: ls =>
      '(s, o) ← ask_step within l s;
      '(s, o') ← ask_run within ls s;
      Some (s, o ++ o')
  end.

(** What an ask has come to. *)
Definition outcome (s : Asking) : option (result R AskError) :=
  match asker s with Decided r | Resolved r => Some r | _ => None end.

(** ** What an ask comes to *)

Context {TOL : TokioOneshotLaws TO}.

(** The reply delivered so far, if any. *)
Definition replied (t : list AskObs) : option R :=
  head (omap (λ o, match o with OReplied r => Some r | _ => None end) t).

(** No reply had been sent when the asker last looked for one. *)
Definition missed (t : list AskObs) : Prop :=
  ∃ t1 t2, t = t1 ++ OMissed :: t2 ∧ replied t1 = None ∧ OMissed ∉ t2.

Definition justified (within : Duration) (held : bool) (t : list AskObs) (r : result R AskError) : Prop :=
  match r with
  | Ok x => replied t = Some x
  | Err NoReply => replied t = None ∧ held = false
  | Err (Timeout d) => d = within ∧ OElapsed ∈ t ∧ missed t
  | Err _ => False
  end.

(** What the channel says of the [ReplyTo], and the asker of its polls. *)
Record ask_inv (within : Duration) (s : Asking) (t : list AskObs) : Prop := {
  ai_held : reply_to_held s = true → replied t = None ∧ oneshot_poll (reply_channel s) = Pending;
  ai_gone : receiver_gone (reply_channel s) = match asker s with Resolved _ => true | _ => false end;
  ai_used : outcome s = None → reply_to_held s = false →
    oneshot_poll (reply_channel s) = Ready match replied t with Some x => Ok x | None => Err () end;
  ai_polled : asker s = ReplyPolled → missed t;
  ai_outcome : ∀ r, outcome s = Some r → justified within (reply_to_held s) t r;
}.

Lemma replied_app t o : replied (t ++ o) = match replied t with Some r => Some r | None => replied o end.
Proof. unfold replied. rewrite omap_app. by destruct (omap _ t). Qed.

Lemma missed_app t o : OMissed ∉ o → missed t → missed (t ++ o).
Proof.
  intros Ho (t1 & t2 & -> & Ht1 & Ht2). exists t1, (t2 ++ o). rewrite <-(assoc_L (++)). split_and!; [done..|]. by apply not_elem_of_app.
Qed.

(** What was justified stays so, whatever the responder does. *)
Lemma justified_app within held held' t o r :
  (held' = true → held = true) → (held = false → replied o = None) → OMissed ∉ o →
  justified within held t r → justified within held' (t ++ o) r.
Proof.
  intros Hheld Hnone Ho. destruct r as [x|[| | |d]]; simpl; try done.
  - rewrite replied_app. by intros ->.
  - rewrite replied_app. intros [-> ->]. split; [by apply Hnone|]. by destruct held'; [discriminate Hheld|].
  - intros (-> & He & Hm). split_and!; [done|by apply elem_of_app; left|by apply missed_app].
Qed.

(** The responder's steps. *)
Lemma replies_inv within s t c o :
  ask_inv within s t → reply_to_held s = true → OMissed ∉ o → receiver_gone c = receiver_gone (reply_channel s) →
  (outcome s = None → oneshot_poll c = Ready match replied o with Some x => Ok x | None => Err () end) →
  ask_inv within (mk_asking c false (asker s)) (t ++ o).
Proof.
  intros [Hheld Hgone _ Hpolled Hout] Hh Ho Hc Hp. destruct (Hheld Hh) as [Hnone _].
  split; simpl; [done|by rewrite Hc| |by intros ?; apply missed_app; auto|].
  - intros Hn _. by rewrite replied_app, Hnone, Hp.
  - intros r Hr. specialize (Hout _ Hr). rewrite Hh in Hout. by eapply (justified_app _ true).
Qed.

Lemma ask_step_inv within l s s' t o :
  ask_inv within s t → ask_step within l s = Some (s', o) → ask_inv within s' (t ++ o).
Proof.
  intros Hinv. pose proof Hinv as [Hheld Hgone Hused Hpolled Hout]. destruct l as [reply| | |elapsed|]; simpl.
  - destruct (reply_to_held s) eqn:Hh; [|done]. destruct (Hheld eq_refl) as [_ Hp].
    pose proof (oneshot_send_spec R reply _ Hp) as Hsend. destruct (receiver_gone (reply_channel s)) eqn:Hg; [rewrite Hsend|].
    + intros [= <- <-]. eapply replies_inv; [done..|by apply not_elem_of_cons; split; [|apply not_elem_of_nil]|by rewrite Hg|].
      unfold outcome. by destruct (asker s).
    + destruct Hsend as (c & -> & Hc & Hcg). intros [= <- <-].
      eapply replies_inv; [done..|by apply not_elem_of_cons; split; [|apply not_elem_of_nil]|by rewrite Hcg|done].
  - destruct (reply_to_held s) eqn:Hh; [|done]. intros [= <- <-]. destruct (Hheld eq_refl) as [_ Hp].
    destruct (oneshot_drop_tx_spec R (reply_channel s)) as [Hd Hg]. rewrite Hp in Hd.
    eapply replies_inv; [done..|apply not_elem_of_nil|done|done].
  - destruct (asker s) eqn:Ha; try done. intros [= <- <-].
    assert (outcome s = None) as Hn by (unfold outcome; by rewrite Ha).
    unfold poll_reply. destruct (reply_to_held s) eqn:Hh.
    + destruct (Hheld eq_refl) as [Hnone ->]. unfold set_asker.
      split; simpl; [by rewrite replied_app, Hnone; destruct (Hheld eq_refl)|done|by rewrite Hh| |done].
      intros _. exists t, []. split_and!; [done|done|apply not_elem_of_nil].
    + pose proof (Hused Hn eq_refl) as ->. destruct (replied t) as [x|] eqn:Hx; rewrite app_nil_r; split; simpl; rewrite ?Hh; try done;
        by intros ? [= <-].
  - destruct (asker s) eqn:Ha; try done. intros [= <- <-]. destruct elapsed; simpl.
    + split; simpl; try done; [by intros [? ?]%Hheld; rewrite replied_app, H|].
      intros ? [= <-]. split_and!; [done|by apply elem_of_app; right; left|]. apply missed_app; [|by apply Hpolled].
      by apply not_elem_of_cons; split; [|apply not_elem_of_nil].
    + rewrite app_nil_r. split; simpl; try done. intros _. apply Hused. unfold outcome. by rewrite Ha.
  - destruct (asker s) as [| |r|] eqn:Ha; try done. intros [= <- <-].
    destruct (oneshot_drop_rx_spec R (reply_channel s)) as [Hp Hg].
    split; simpl; try done; [by intros [? ?]%Hheld; rewrite replied_app, Hp, H|].
    intros ? [= <-]. eapply (justified_app _ (reply_to_held s)); [done|done|by apply not_elem_of_cons; split; [|apply not_elem_of_nil]|].
    apply Hout. unfold outcome. by rewrite Ha.
Qed.

Lemma ask_run_inv within ls s s' t t' :
  ask_inv within s t → ask_run within ls s = Some (s', t') → ask_inv within s' (t ++ t').
Proof.
  revert s t t'. induction ls as [|l ls IH]; intros s t t' Hinv Hr; simpl in Hr.
  - injection Hr as <- <-. by rewrite app_nil_r.
  - apply bind_Some in Hr as ([s1 o] & Hs & Hr). apply bind_Some in Hr as ([s2 o'] & Hr & [= <- <-]).
    rewrite (assoc_L (++)). eapply IH; [|done]. by eapply ask_step_inv.
Qed.

(** A request which has been sent. *)
Definition ask_sent : Asking := mk_asking (oneshot_channel R) true Awaiting.

Lemma ask_sent_inv within : ask_inv within ask_sent [].
Proof. destruct (oneshot_channel_spec R) as [Hpoll Hgone]. by split. Qed.

(** The outcome stays, and so does a reply which is there before a poll. *)
Lemma outcome_stays within l s s' o r : ask_step within l s = Some (s', o) → outcome s = Some r → outcome s' = Some r.
Proof. unfold outcome. destruct l; simpl; destruct (asker s) eqn:Ha; repeat case_match; intros; simplify_eq/=; try done; by rewrite Ha. Qed.

(** With a reply in the channel the asker does not get past its next poll. *)
Definition replying (x : R) (s : Asking) : Prop :=
  reply_to_held s = false ∧ (asker s = Awaiting ∧ oneshot_poll (reply_channel s) = Ready (Ok x) ∨ outcome s = Some (Ok x)).

Lemma replying_step within l s s' o x : ask_step within l s = Some (s', o) → replying x s → replying x s'.
Proof.
  intros Hs [Hh Hx]. destruct Hx as [[Ha Hp]|Hx].
  - destruct l; simpl in Hs; rewrite ?Ha, ?Hh in Hs; simplify_eq. split; [done|]. right. unfold outcome, set_asker, poll_reply. simpl. by rewrite Hp.
  - split; [|right; by eapply outcome_stays]. destruct l; simpl in Hs; rewrite ?Hh in Hs; try done; destruct (asker s); by simplify_eq/=.
Qed.

Lemma replying_run within ls s s' t x : ask_run within ls s = Some (s', t) → replying x s → replying x s'.
Proof.
  revert s t. induction ls as [|l ls IH]; intros s t Hr Hx; simpl in Hr; [by simplify_eq|].
  apply bind_Some in Hr as ([s1 o] & Hs & Hr). apply bind_Some in Hr as ([s2 o'] & Hr & [= <- <-]).
  eapply IH; [exact Hr|]. by eapply replying_step.
Qed.

(** The asker's own steps, once the timer has elapsed. *)
Definition asks_on (l : AskLabel) : Prop := l = LPoll ∨ l = LTimer true ∨ l = LReturn.

Lemma asker_returns within s : ∃ ls s' t r,
  ask_run within ls s = Some (s', t) ∧ (length ls ≤ 3)%nat ∧ Forall asks_on ls ∧ asker s' = Resolved r.
Proof.
  assert (∀ l, l ∈ [LPoll; LTimer true; LReturn] → asks_on l) as Hon by (unfold asks_on; set_solver).
  assert (∀ ls, ls ⊆ [LPoll; LTimer true; LReturn] → Forall asks_on ls) as Hown by (intros ls Hls; apply Forall_forall; auto).
  destruct s as [c h [| |r|r]].
  - destruct (poll_reply c) as [| |r|] eqn:Hc.
    2: exists [LPoll; LTimer true; LReturn]. 3: exists [LPoll; LReturn].
    all: try (unfold poll_reply in Hc; by destruct (oneshot_poll c) as [|[]]).
    all: simpl; rewrite Hc; eexists _, _, _; split_and!; [done|simpl; lia|apply Hown; set_solver|done].
  - exists [LTimer true; LReturn]. eexists _, _, _. split_and!; [done|simpl; lia|apply Hown; set_solver|done].
  - exists [LReturn]. eexists _, _, _. split_and!; [done|simpl; lia|apply Hown; set_solver|done].
  - exists []. eexists _, _, _. split_and!; [done|simpl; lia|constructor|done].
Qed.

(** C35. An ask resolves to the reply if one was sent before the asker last looked for one, and to a failure only if
    none was: to [NoReply] only once the [ReplyTo] is gone without one, to [Timeout] only for the given duration, once it
    has elapsed. A reply which is there before a poll is what the ask resolves to, whatever happens from there on, and an
    asker whose timer has elapsed returns by itself in at most three steps. The [ReplyTo] replies without a dead letter as
    long as the ask has not returned, and with one afterwards. So a reply between the last poll and the return is
    neither received nor a dead letter. *)
Theorem asks_resolve_to_the_reply within :
  (∀ ls s t, ask_run within ls ask_sent = Some (s, t) →
     (∀ r, outcome s = Some r → justified within (reply_to_held s) t r) ∧
     (∀ x, asker s = Awaiting → replied t = Some x → ∀ ls' s' t' r, ask_run within ls' s = Some (s', t') → outcome s' = Some r → r = Ok x) ∧
     (∃ ls' s' t' r, ask_run within ls' s = Some (s', t') ∧ (length ls' ≤ 3)%nat ∧
        Forall asks_on ls' ∧ asker s' = Resolved r) ∧
     (∀ reply s' o, ask_step within (LReply reply) s = Some (s', o) →
        asker s' = asker s ∧ o = [match asker s with Resolved _ => ODeadReply reply | _ => OReplied reply end])) ∧
  (∀ x, ∃ s, ask_run within [LPoll; LTimer true; LReply x; LReturn] ask_sent =
     Some (s, [OMissed; OElapsed; OReplied x; OResolved (Err (Timeout within))])).
Proof.
  split.
  - intros ls s t Hr. assert (ask_inv within s ([] ++ t)) as Hinv by by eapply ask_run_inv, Hr; apply ask_sent_inv.
    destruct Hinv as [Hheld Hgone Hused Hpolled Hout]. simpl in *. split_and!; [done| | |].
    + intros x Ha Hx ls' s' t' r Hr' Hr''. assert (replying x s) as Hre.
      { assert (reply_to_held s = false) as Hh by (destruct (reply_to_held s); [by destruct Hheld; [|congruence]|done]).
        split; [done|]. left. split; [done|]. rewrite Hused by (unfold outcome; by rewrite ?Ha). by rewrite Hx. }
      destruct (replying_run _ _ _ _ _ _ Hr' Hre) as [_ [[Ha' _]|Hx']]; [unfold outcome in Hr''; by rewrite Ha' in Hr''|congruence].
    + apply asker_returns.
    + intros reply s' o. simpl. destruct (reply_to_held s) eqn:Hh; [|done]. destruct (Hheld eq_refl) as [_ Hp].
      pose proof (oneshot_send_spec R reply _ Hp) as Hsend. rewrite Hgone in Hsend.
      destruct (asker s) eqn:Ha; [| | |by rewrite Hsend; intros [= <- <-]]; destruct Hsend as (c & -> & _); by intros [= <- <-].
  - intros x. destruct (oneshot_channel_spec R) as [Hpoll Hgone]. pose proof (oneshot_send_spec R x _ Hpoll) as Hsend. rewrite Hgone in Hsend.
    destruct Hsend as (c & Hc & _). unfold ask_sent. simpl. unfold poll_reply. simpl. rewrite Hpoll. simpl. rewrite Hc. simpl. by eexists.
Qed.
End Ask.

(** A reply sent after a poll which found nothing, before the next one: the ask resolves to it, though the timer has
    elapsed by then. *)
Import ReferenceTokio.

Lemma asks_resolve_to_the_reply_witness :
  ∃ s t, ask_run (R:=N) 5%N [LPoll; LReply 7%N; LTimer false; LPoll; LReturn] ask_sent = Some (s, t) ∧
    asker s = Resolved (Ok 7%N) ∧ replied t = Some 7%N.
Proof.
  destruct (ask_run (R:=N) 5%N [LPoll; LReply 7%N; LTimer false; LPoll; LReturn] ask_sent) as [[s t]|] eqn:Hr;
    [|vm_compute in Hr; discriminate].
  exists s, t. split; [reflexivity|].
  assert (asker s = Resolved (Ok 7%N)) as Ha by (vm_compute in Hr; injection Hr as <- _; reflexivity).
  split; [exact Ha|]. apply (proj1 (proj1 (asks_resolve_to_the_reply (R:=N) 5%N) _ s t Hr) (Ok 7%N)).
  unfold outcome. rewrite Ha. reflexivity.
Defined.
