(* ===== verification/Postgres.v ===== *)
(** The PostgreSQL store: [tellus-persistence-postgres/src/lib.rs]. The statements it sends are modelled as
    functions on the two tables of the schema; the server which executes them is a parameter, the class
    [Postgres], whose laws say that a statement is atomic and that what it answers is what it does. *)
From S2P Require Import Prelude Versioning PersistenceIds Store.
From stdpp Require Import sorting.

(** ** Tables

    [BIGINT] and [INT] columns are integers within their ranges. *)
Record Row := mk_row { manifest : string; schema_version : Z; payload : Payload }.

Record Tables := mk_tables {
  events_table : gmap (PersistenceId * Z) Row;             (* by [(entity_type, entity_id, seq_no)] *)
  snapshots_table : gmap PersistenceId (Z * Row);          (* by [(entity_type, entity_id)] *)
}.

(** ** Statements *)

Definition seq_nos (t : Tables) (id : PersistenceId) : list Z :=
  omap (λ '((id', n), _), if decide (id' = id) then Some n else None) (map_to_list (events_table t)).

(** [COALESCE(MAX(seq_no) + 1, 0)] *)
Definition select_next (t : Tables) (id : PersistenceId) : Z :=
  match seq_nos t id with
  | [] => 0
  | n :: ns => foldr Z.max n ns + 1
  end%Z.

(** The insertion itself; [None] is a unique violation, of the primary key. *)
Definition insert_rows (id : PersistenceId) (rows : list (Z * Row)) (t : Tables) : option Tables :=
  if decide (NoDup rows.*1 ∧ Forall (λ n, events_table t !! (id, n) = None) rows.*1) then
    Some (mk_tables (foldr (λ '(n, row) m, <[(id, n) := row]> m) (events_table t) rows) (snapshots_table t))
  else None.

(** The [INSERT ... SELECT ... WHERE]: the number of rows inserted; [None] is a unique violation. *)
Definition insert_events (id : PersistenceId) (rows : list (Z * Row)) (next_seq_no : Z) (t : Tables)
    : option (nat * Tables) :=
  if decide (select_next t id = next_seq_no) then
    t ← insert_rows id rows t; Some (length rows, t)
  else Some (0%nat, t).

(** The [SELECT ... ORDER BY seq_no LIMIT]. *)
Definition select_events (id : PersistenceId) (from_seq_no limit : Z) (t : Tables) : list (Z * Row) :=
  omap (λ n, row ← events_table t !! (id, n); Some (n, row))
    (take (Z.to_nat limit) (filter (λ n, from_seq_no ≤ n)%Z (merge_sort Z.le (seq_nos t id)))).

(** The [INSERT ... ON CONFLICT ... DO UPDATE]. *)
Definition upsert_snapshot (id : PersistenceId) (next_seq_no : Z) (row : Row) (t : Tables) : Tables :=
  mk_tables (events_table t) (<[id := (next_seq_no, row)]> (snapshots_table t)).

(** ** The server, and [sqlx] *)

Class Postgres (Db Sqlx : Type) := {
  execute_select_next : PersistenceId → Db → outcome (result Z Sqlx) * Db;
  execute_insert_events : PersistenceId → list (Z * Row) → Z → Db → outcome (result nat Sqlx) * Db;
  execute_select_events : PersistenceId → Z → Z → Db → outcome (result (list (Z * Row)) Sqlx) * Db;
  execute_upsert_snapshot : PersistenceId → Z → Row → Db → outcome (result () Sqlx) * Db;
  execute_select_snapshot : PersistenceId → Db → outcome (result (option (Z * Row)) Sqlx) * Db;
  (** The code of a database error. *)
  error_code : Sqlx → option string;
}.

Definition is_unique_violation `{Postgres Db Sqlx} (e : Sqlx) : bool :=
  bool_decide (error_code e = Some "23505"%string).

(** Statements are atomic: whatever comes back, they have been executed as a whole or not at all (the answer
    to a committed statement may be lost); an answer is that of the execution; a unique violation
    leaves no trace. *)
Class PostgresLaws {Db Sqlx} (PG : Postgres Db Sqlx) := {
  tables : Db → Tables;
  select_next_spec : ∀ id db,
    tables (execute_select_next id db).2 = tables db ∧
    ∀ n, (execute_select_next id db).1 = Returned (Ok n) → n = select_next (tables db) id;
  insert_events_spec : ∀ id rows next db,
    let '(r, db') := execute_insert_events id rows next db in
    (tables db' = tables db ∨ ∃ n, insert_events id rows next (tables db) = Some (n, tables db')) ∧
    (∀ n, r = Returned (Ok n) → insert_events id rows next (tables db) = Some (n, tables db')) ∧
    (∀ e, r = Returned (Err e) → is_unique_violation e = true → tables db' = tables db);
  select_events_spec : ∀ id from limit db,
    tables (execute_select_events id from limit db).2 = tables db ∧
    ∀ l, (execute_select_events id from limit db).1 = Returned (Ok l) → l = select_events id from limit (tables db);
  upsert_snapshot_spec : ∀ id next row db,
    tables (execute_upsert_snapshot id next row db).2 = tables db ∨
    tables (execute_upsert_snapshot id next row db).2 = upsert_snapshot id next row (tables db);
  select_snapshot_spec : ∀ id db,
    tables (execute_select_snapshot id db).2 = tables db ∧
    ∀ r, (execute_select_snapshot id db).1 = Returned (Ok r) → r = snapshots_table (tables db) !! id;
}.

(** ** The store *)

Section Store.
Context {Db Sqlx : Type} `{PG : Postgres Db Sqlx}.

Inductive Error :=
  | SqlxError (e : Sqlx)
  | SeqNoOutOfRange
  | SchemaVersionOutOfRange.

(** [i64::try_from] of an unsigned integer, [i64::checked_add]. *)
Definition i64_try_from (n : N) : option Z := if decide (n ≤ I64_MAX)%N then Some (Z.of_N n) else None.
Definition i64_checked_add (a b : Z) : option Z :=
  if decide (- 9223372036854775808 ≤ a + b ≤ Z.of_N I64_MAX)%Z then Some (a + b)%Z else None.

Definition into_bigint (seq_no : SeqNo) : result Z Error := ok_or SeqNoOutOfRange (i64_try_from (as_u64 seq_no)).

(** The loop over the events: their rows, from the [n]-th on. *)
Fixpoint event_rows (next_seq_no : Z) (n : nat) (events : list EncodedEvent) : result (list (Z * Row)) Error :=
  match events with
  | [] => Ok []
  | event :: events =>
      let? seq_no := ok_or SeqNoOutOfRange (i64_try_from (N.of_nat n) ≫= i64_checked_add next_seq_no) in
      let? rows := event_rows next_seq_no (S n) events in
      Ok ((seq_no, mk_row (event_manifest event) (Z.of_N (as_u16 (event_schema_version event))) (event_payload event)) :: rows)
  end.

Definition postgres_append (id : PersistenceId) (next_seq_no : SeqNo) (events : list EncodedEvent) (db : Db)
    : outcome (result () (AppendError Error)) * Db :=
  match into_bigint next_seq_no with
  | Err e => (Returned (Err (StoreError e)), db)
  | Ok next_seq_no =>
      match events with
      | [] =>
          let '(actual, db) := execute_select_next id db in
          (outcome_map (λ actual,
             match actual with
             | Ok actual => if decide (actual = next_seq_no) then Ok () else Err Conflict
             | Err e => Err (StoreError (SqlxError e))
             end) actual, db)
      | _ =>
          match event_rows next_seq_no 0 events with
          | Err e => (Returned (Err (StoreError e)), db)
          | Ok rows =>
              let '(inserted, db) := execute_insert_events id rows next_seq_no db in
              (outcome_map (λ inserted,
                 match inserted with
                 | Ok rows_affected => if decide (rows_affected = length rows) then Ok () else Err Conflict
                 | Err e => if is_unique_violation e then Err Conflict else Err (StoreError (SqlxError e))
                 end) inserted, db)
          end
      end
  end.

(** [u64::try_from], [u16::try_from] *)
Definition seq_no_of (seq_no : Z) : result SeqNo Error :=
  if decide (0 ≤ seq_no)%Z then Ok (mk_seq_no (Z.to_N seq_no)) else Err SeqNoOutOfRange.
Definition schema_version_of (row : Row) : result SchemaVersion Error :=
  if decide (0 ≤ schema_version row ≤ Z.of_N U16_MAX)%Z then Ok (mk_schema_version (Z.to_N (schema_version row)))
  else Err SchemaVersionOutOfRange.

Definition stored_event (row : Z * Row) : result StoredEvent Error :=
  let? seq_no := seq_no_of row.1 in
  let? version := schema_version_of row.2 in
  Ok (mk_stored_event seq_no (mk_encoded_event (manifest row.2) version (payload row.2))).

Definition stored_snapshot (row : Z * Row) : result StoredSnapshot Error :=
  let? next_seq_no := seq_no_of row.1 in
  let? version := schema_version_of row.2 in
  Ok (mk_stored_snapshot next_seq_no (mk_encoded_snapshot (manifest row.2) version (payload row.2))).

(** [into_iter().map(f).collect()] into a [Result]. *)
Fixpoint collect {A T} (f : A → result T Error) (l : list A) : result (list T) Error :=
  match l with
  | [] => Ok []
  | a :: l => let? t := f a in let? ts := collect f l in Ok (t :: ts)
  end.

Definition postgres_read (id : PersistenceId) (from_seq_no : SeqNo) (limit : positive) (db : Db)
    : outcome (result (list StoredEvent) Error) * Db :=
  match into_bigint from_seq_no with
  | Err e => (Returned (Err e), db)
  | Ok from_seq_no =>
      let limit := default (Z.of_N I64_MAX) (i64_try_from (Npos limit)) in
      let '(rows, db) := execute_select_events id from_seq_no limit db in
      (outcome_map (λ rows, let? rows := map_err SqlxError rows in collect stored_event rows) rows, db)
  end.

Definition postgres_save (id : PersistenceId) (next_seq_no : SeqNo) (snapshot : EncodedSnapshot) (db : Db)
    : outcome (result () Error) * Db :=
  match into_bigint next_seq_no with
  | Err e => (Returned (Err e), db)
  | Ok next_seq_no =>
      let row := mk_row (snapshot_manifest snapshot) (Z.of_N (as_u16 (snapshot_schema_version snapshot)))
                   (snapshot_payload snapshot) in
      let '(r, db) := execute_upsert_snapshot id next_seq_no row db in
      (outcome_map (map_err SqlxError) r, db)
  end.

Definition postgres_load (id : PersistenceId) (db : Db) : outcome (result (option StoredSnapshot) Error) * Db :=
  let '(row, db) := execute_select_snapshot id db in
  (outcome_map (λ row,
     let? row := map_err SqlxError row in
     match row with
     | Some row => let? s := stored_snapshot row in Ok (Some s)
     | None => Ok None
     end) row, db).

#[export] Instance Postgres_events : EventStore Db Error := { append := postgres_append; read := postgres_read }.
#[export] Instance Postgres_snapshots : SnapshotStore Db Error := { save := postgres_save; load := postgres_load }.
End Store.
Arguments Error : clear implicits.

(** ** A server which executes every statement *)

Module ReferencePostgres.
#[export] Instance reference : Postgres Tables string := {
  execute_select_next id t := (Returned (Ok (select_next t id)), t);
  execute_insert_events id rows next t :=
    match insert_events id rows next t with
    | Some (n, t) => (Returned (Ok n), t)
    | None => (Returned (Err "23505"%string), t)
    end;
  execute_select_events id from limit t := (Returned (Ok (select_events id from limit t)), t);
  execute_upsert_snapshot id next row t := (Returned (Ok ()), upsert_snapshot id next row t);
  execute_select_snapshot id t := (Returned (Ok (snapshots_table t !! id)), t);
  error_code e := Some e;
}.

#[export, refine] Instance reference_laws : PostgresLaws reference := { tables t := t }.
Proof.
  - intros id db. simpl. split; [done|]. by intros n [= ->].
  - intros id rows next db. simpl. destruct (insert_events id rows next db) as [[n t]|]; simpl; split_and!; eauto.
    + by intros n' [= ->].
    + done.
    + done.
  - intros id from limit db. simpl. split; [done|]. by intros l [= ->].
  - intros id next row db. by right.
  - intros id db. simpl. split; [done|]. by intros r [= ->].
Defined.
End ReferencePostgres.
