(* ===== verification/PostgresSpec.v ===== *)
(** The PostgreSQL store keeps the contracts of both stores, whatever the server answers: its instances of
    [EventStoreLaws] and [SnapshotStoreLaws]. *)
From S2P Require Import Prelude Versioning PersistenceIds Store Postgres.
From stdpp Require Import sorting.

(** ** Streams in the tables *)

(** The rows of an id are numbered from 0 on without a gap, by [BIGINT]s, with schema versions which were
    [u16]s when they were written. *)
Definition holds (t : Tables) (id : PersistenceId) (rows : list Row) : Prop :=
  (∀ n, events_table t !! (id, n) = if decide (0 ≤ n)%Z then rows !! Z.to_nat n else None) ∧
  (N.of_nat (length rows) ≤ I64_MAX + 1)%N ∧ Forall (λ r, 0 ≤ schema_version r)%Z rows.

Definition tables_wf (t : Tables) : Prop := ∀ id, ∃ rows, holds t id rows.

Definition event_of (r : Row) : EncodedEvent :=
  mk_encoded_event (manifest r) (mk_schema_version (Z.to_N (schema_version r))) (payload r).
Definition row_of (e : EncodedEvent) : Row :=
  mk_row (event_manifest e) (Z.of_N (as_u16 (event_schema_version e))) (event_payload e).

Definition snapshot_of (row : Z * Row) : StoredSnapshot :=
  mk_stored_snapshot (mk_seq_no (Z.to_N row.1))
    (mk_encoded_snapshot (manifest row.2) (mk_schema_version (Z.to_N (schema_version row.2))) (payload row.2)).

Lemma event_of_row_of e : event_of (row_of e) = e.
Proof. destruct e as [m [v] p]. unfold event_of, row_of. simpl. by rewrite N2Z.id. Qed.

Definition rows_in (t : Tables) (id : PersistenceId) : list Row :=
  omap (λ n, events_table t !! (id, n)) (seqZ 0 (Z.of_nat (length (seq_nos t id)))).
Definition stream_in (t : Tables) (id : PersistenceId) : list EncodedEvent := event_of <$> rows_in t id.

Lemma elem_of_seq_nos t id n : n ∈ seq_nos t id ↔ is_Some (events_table t !! (id, n)).
Proof.
  unfold seq_nos. rewrite list_elem_of_omap. split.
  - intros ([[id' n'] row] & Hin & Hs). apply elem_of_map_to_list in Hin. case_decide; simplify_eq. by eexists.
  - intros [row Hr]. exists ((id, n), row). split; [by apply elem_of_map_to_list|]. by rewrite decide_True.
Qed.

Lemma NoDup_seq_nos t id : NoDup (seq_nos t id).
Proof.
  unfold seq_nos. pose proof (NoDup_fst_map_to_list (events_table t)) as Hnd. revert Hnd.
  generalize (map_to_list (events_table t)) as l. induction l as [|[[id' n] row] l IH]; intros Hnd; simpl in *; [constructor|].
  apply NoDup_cons in Hnd as [Hn Hnd]. case_decide as Hid; [|by apply IH]. subst id'. simpl.
  constructor; [|by apply IH]. intros ([[id' n'] row'] & Hin & Hs)%list_elem_of_omap. case_decide; simplify_eq.
  apply Hn. apply list_elem_of_fmap. by exists ((id, n), row').
Qed.

Lemma seq_nos_perm t id rows : holds t id rows → seq_nos t id ≡ₚ seqZ 0 (Z.of_nat (length rows)).
Proof.
  intros (Hr & _). apply NoDup_Permutation; [apply NoDup_seq_nos|apply NoDup_seqZ|]. intros n.
  rewrite elem_of_seq_nos, Hr, elem_of_seqZ. case_decide as Hn.
  - rewrite lookup_lt_is_Some. lia.
  - split; [by intros []|lia].
Qed.

Lemma omap_rows t id rows k n :
  holds t id rows → (k + n ≤ length rows)%nat →
  omap (λ i, row ← events_table t !! (id, i); Some (i, row)) (seqZ (Z.of_nat k) (Z.of_nat n)) =
  imap (λ i row, (Z.of_nat (k + i), row)) (take n (drop k rows)).
Proof.
  intros (Hr & _). revert k. induction n as [|n IH]; intros k Hlen; [done|].
  rewrite seqZ_cons by lia. rewrite Nat2Z.inj_succ, Z.pred_succ. replace (Z.succ (Z.of_nat k)) with (Z.of_nat (S k)) by lia.
  destruct (lookup_lt_is_Some_2 rows k) as [row Hrow]; [lia|].
  simpl. rewrite Hr, decide_True by lia. rewrite Nat2Z.id, Hrow. simpl.
  rewrite (drop_S rows row k Hrow). simpl. rewrite IH by lia. f_equal; [do 2 f_equal; lia|].
  apply imap_ext. intros i r _. simpl. by rewrite Nat.add_succ_r.
Qed.

Lemma rows_in_holds t id rows : holds t id rows → rows_in t id = rows.
Proof.
  intros Hh. unfold rows_in. rewrite (seq_nos_perm t id rows Hh), length_seqZ.
  pose proof (omap_rows t id rows 0 (length rows) Hh (le_n _)) as Ho. rewrite Nat2Z.id.
  simpl in Ho. rewrite drop_0, take_ge in Ho by lia.
  assert (∀ l, (omap (λ i, row ← events_table t !! (id, i); Some (i, row)) l).*2 = omap (λ n, events_table t !! (id, n)) l) as Hsnd.
  { intros l. induction l as [|i l IH]; simpl; [done|]. destruct (events_table t !! (id, i)); [exact (f_equal (cons _) IH)|exact IH]. }
  change 0%Z with (Z.of_nat 0). rewrite <-Hsnd, Ho, fmap_imap.
  etrans; [apply (imap_const (λ r : Row, r))|apply list_fmap_id].
Qed.

Lemma stream_in_holds t id rows : holds t id rows → stream_in t id = event_of <$> rows.
Proof. intros Hh. unfold stream_in. by rewrite (rows_in_holds t id rows Hh). Qed.

Lemma length_stream_in t id rows : holds t id rows → length (stream_in t id) = length rows.
Proof. intros Hh. rewrite (stream_in_holds t id rows Hh). apply length_fmap. Qed.

(** ** What the statements do to streams *)

Lemma foldr_max_ge n l : (n ≤ foldr Z.max n l)%Z ∧ ∀ x, x ∈ l → (x ≤ foldr Z.max n l)%Z.
Proof.
  induction l as [|y l [IH1 IH2]]; simpl; [split; [lia|by intros x ?%not_elem_of_nil]|].
  split; [lia|]. intros x [->|Hx]%elem_of_cons; [lia|]. specialize (IH2 x Hx). lia.
Qed.

Lemma foldr_max_in n l : foldr Z.max n l ∈ n :: l.
Proof.
  induction l as [|y l IH]; simpl; [by left|]. destruct (Z.max_spec y (foldr Z.max n l)) as [[_ ->]|[_ ->]].
  - apply elem_of_cons in IH as [->|IH]; [by left|by right; right].
  - by right; left.
Qed.

Lemma select_next_holds t id rows : holds t id rows → select_next t id = Z.of_nat (length rows).
Proof.
  intros Hh. pose proof (seq_nos_perm t id rows Hh) as Hp. unfold select_next.
  destruct (seq_nos t id) as [|n ns] eqn:Hs.
  - apply Permutation_nil_l in Hp. destruct rows; [done|]. simpl in Hp. rewrite seqZ_cons in Hp by lia. done.
  - pose proof (foldr_max_in n ns) as Hin. destruct (foldr_max_ge n ns) as [Hge1 Hge2].
    rewrite Hp, elem_of_seqZ in Hin.
    assert (Z.of_nat (length rows) - 1 ∈ n :: ns)%Z as Hlast by (rewrite Hp, elem_of_seqZ; lia).
    apply elem_of_cons in Hlast as [Hl|Hl%Hge2]; lia.
Qed.

Lemma Sorted_seqZ k n : Sorted Z.le (seqZ k n).
Proof.
  destruct (decide (0 ≤ n)%Z) as [Hn|]; [|rewrite seqZ_nil by lia; constructor].
  rewrite <-(Z2Nat.id n Hn). generalize (Z.to_nat n) as m. clear Hn n. intros m. revert k. induction m as [|m IH]; intros k; [constructor|].
  rewrite seqZ_cons by lia. rewrite Nat2Z.inj_succ, Z.pred_succ. constructor; [apply IH|].
  destruct m; [constructor|]. rewrite seqZ_cons by lia. constructor. lia.
Qed.

Lemma sorted_seq_nos t id rows : holds t id rows → merge_sort Z.le (seq_nos t id) = seqZ 0 (Z.of_nat (length rows)).
Proof.
  intros Hh. apply (Sorted_unique Z.le); [apply (Sorted_merge_sort Z.le)|apply Sorted_seqZ|].
  rewrite merge_sort_Permutation. by apply seq_nos_perm.
Qed.

Lemma filter_seqZ (k n from : Z) :
  (0 ≤ n)%Z → filter (λ i, from ≤ i)%Z (seqZ k n) = seqZ (Z.max k from) (k + n - Z.max k from).
Proof.
  intros Hn. rewrite <-(Z2Nat.id n Hn). generalize (Z.to_nat n) as m. clear Hn n. intros m. revert k.
  induction m as [|m IH]; intros k; simpl; [by rewrite !seqZ_nil by lia|].
  rewrite (seqZ_cons k (Z.of_nat (S m))) by lia.
  replace (Z.pred (Z.of_nat (S m))) with (Z.of_nat m) by lia. destruct (decide (from ≤ k)%Z) as [Hle|Hgt].
  - rewrite filter_cons_True by done. rewrite IH. rewrite (Z.max_l (Z.succ k)), (Z.max_l k) by lia.
    rewrite (seqZ_cons k) by lia. f_equal. f_equal; lia.
  - rewrite filter_cons_False by done. rewrite IH. f_equal; lia.
Qed.

Lemma take_seqZ (k : Z) (n : nat) (m : nat) : take m (seqZ k (Z.of_nat n)) = seqZ k (Z.of_nat (min m n)).
Proof.
  revert k n. induction m as [|m IH]; intros k [|n]; try done. rewrite seqZ_cons by lia. simpl.
  replace (Z.pred (Z.of_nat (S n))) with (Z.of_nat n) by lia.
  rewrite (seqZ_cons k) by lia. rewrite IH. f_equal. f_equal. lia.
Qed.

Lemma select_events_holds t id rows from limit :
  holds t id rows →
  select_events id (Z.of_nat from) limit t =
  imap (λ i row, (Z.of_nat (from + i), row)) (take (Z.to_nat limit) (drop from rows)).
Proof.
  intros Hh. unfold select_events. rewrite (sorted_seq_nos t id rows Hh), filter_seqZ by lia.
  rewrite Z.max_r by lia. destruct (decide (from ≤ length rows)%nat) as [Hle|Hgt].
  - replace (0 + Z.of_nat (length rows) - Z.of_nat from)%Z with (Z.of_nat (length rows - from)) by lia.
    rewrite take_seqZ, (omap_rows t id rows) by (done || lia). f_equal.
    destruct (decide (Z.to_nat limit ≤ length rows - from)%nat); [f_equal; lia|].
    by rewrite !take_ge by (rewrite ?length_drop; lia).
  - rewrite seqZ_nil by lia. rewrite drop_ge by lia. by rewrite !take_nil.
Qed.

(** Rows with consecutive numbers. *)
Fixpoint rows_from (k : Z) (new : list Row) : list (Z * Row) :=
  match new with
  | [] => []
  | row :: new => (k, row) :: rows_from (Z.succ k) new
  end.

Lemma length_rows_from k new : length (rows_from k new) = length new.
Proof. revert k. induction new as [|r new IH]; intros k; simpl; [done|]. by rewrite IH. Qed.

Lemma fst_rows_from k new : (rows_from k new).*1 = seqZ k (Z.of_nat (length new)).
Proof.
  revert k. induction new as [|r new IH]; intros k; [done|]. rewrite seqZ_cons by (simpl; lia). simpl.
  rewrite IH. f_equal. f_equal. lia.
Qed.

Lemma lookup_inserted (m : gmap (PersistenceId * Z) Row) id k new id' n :
  foldr (λ '(n, row) m, <[(id, n) := row]> m) m (rows_from k new) !! (id', n) =
  if decide (id' = id ∧ (k ≤ n < k + Z.of_nat (length new))%Z) then new !! Z.to_nat (n - k) else m !! (id', n).
Proof.
  revert k. induction new as [|r new IH]; intros k; simpl; [by rewrite decide_False by (intros [_ ?]; lia)|].
  destruct (decide ((id, k) = (id', n))) as [[= -> ->]|Hne].
  - rewrite lookup_insert_eq, decide_True by (split; [done|lia]). by rewrite Z.sub_diag.
  - rewrite lookup_insert_ne, IH by done. destruct (decide (id' = id)) as [->|Hid].
    + assert (n ≠ k) as Hnk by congruence. destruct (decide (k ≤ n < k + Z.of_nat (S (length new)))%Z).
      * rewrite !decide_True by (split; [done|lia]). replace (Z.to_nat (n - k)) with (S (Z.to_nat (n - Z.succ k))) by lia. done.
      * by rewrite !decide_False by (intros [_ ?]; lia).
    + by rewrite !decide_False by (by intros [? ?]).
Qed.

(** Consecutive rows are inserted at the end of a stream, and nowhere before it. *)
Lemma insert_rows_end t id rows new :
  holds t id rows → (N.of_nat (length rows + length new) ≤ I64_MAX + 1)%N → Forall (λ r, 0 ≤ schema_version r)%Z new →
  ∃ t', insert_rows id (rows_from (Z.of_nat (length rows)) new) t = Some t' ∧
    holds t' id (rows ++ new) ∧ (∀ id' rows', id' ≠ id → holds t id' rows' → holds t' id' rows') ∧
    snapshots_table t' = snapshots_table t.
Proof.
  intros (Hr & _ & Hv) Hlen Hnew. unfold insert_rows. rewrite decide_True.
  2: { rewrite fst_rows_from. split; [apply NoDup_seqZ|]. apply Forall_forall. intros n Hn%elem_of_seqZ.
       rewrite Hr, decide_True by lia. apply lookup_ge_None. lia. }
  eexists. split; [done|]. unfold holds. simpl. split_and!.
  - intros n. rewrite lookup_inserted, Hr. destruct (decide (0 ≤ n)%Z); [|by rewrite decide_False by (intros [_ ?]; lia)].
    case_decide as Hn; [destruct Hn as [_ Hn]|assert (¬ (Z.of_nat (length rows) ≤ n < Z.of_nat (length rows) + Z.of_nat (length new))%Z) by tauto].
    + rewrite lookup_app_r by lia. f_equal. lia.
    + destruct (decide (n < Z.of_nat (length rows))%Z); [by rewrite lookup_app_l by lia|].
      rewrite !(proj2 (lookup_ge_None _ _)); [done| |lia]. rewrite length_app. lia.
  - by rewrite length_app.
  - by apply Forall_app.
  - intros id' rows' Hid (Hr' & Hrest). split; [|done]. intros n. rewrite lookup_inserted, Hr'.
    by rewrite (decide_False (P := id' = id ∧ _)) by (by intros [? ?]).
  - done.
Qed.

Lemma insert_rows_before t id rows n new :
  holds t id rows → (n < length rows)%nat → new ≠ [] → insert_rows id (rows_from (Z.of_nat n) new) t = None.
Proof.
  intros (Hr & _) Hn Hnew. unfold insert_rows. apply decide_False. intros [_ Hall].
  destruct new as [|r new]; [done|]. apply Forall_cons in Hall as [Hk _]. simpl in Hk.
  rewrite Hr, decide_True, Nat2Z.id in Hk by lia. apply lookup_ge_None in Hk. lia.
Qed.

(** A stale insertion inserts nothing. *)
Lemma insert_events_stale t id rows l n :
  holds t id rows → n ≠ Z.of_nat (length rows) → insert_events id l n t = Some (0%nat, t).
Proof. intros Hh Hn. unfold insert_events. rewrite (select_next_holds t id rows Hh). by rewrite decide_False. Qed.

(** ** Rows of events *)

Lemma i64_try_from_Some n z : i64_try_from n = Some z ↔ z = Z.of_N n ∧ (n ≤ I64_MAX)%N.
Proof. unfold i64_try_from. case_decide; naive_solver. Qed.

Lemma into_bigint_Ok {Sqlx} n z : into_bigint (Sqlx := Sqlx) n = Ok z → z = Z.of_N (as_u64 n) ∧ (as_u64 n ≤ I64_MAX)%N.
Proof.
  unfold into_bigint, ok_or. destruct (i64_try_from (as_u64 n)) eqn:Hn; [|done].
  intros [= ->]. by apply i64_try_from_Some.
Qed.

Lemma event_rows_spec {Sqlx} next n es :
  (0 ≤ next)%Z →
  event_rows (Sqlx := Sqlx) next n es =
  if decide (es = [] ∨ next + Z.of_nat (n + length es) ≤ Z.of_N I64_MAX + 1)%Z
  then Ok (rows_from (next + Z.of_nat n) (row_of <$> es)) else Err SeqNoOutOfRange.
Proof.
  intros Hnext. revert n. induction es as [|e es IH]; intros n; cbn [event_rows]; [by rewrite decide_True by auto|].
  destruct (decide (next + Z.of_nat n ≤ Z.of_N I64_MAX)%Z) as [Hn|Hn].
  - unfold i64_try_from. rewrite decide_True by lia. simpl. unfold i64_checked_add.
    rewrite decide_True by lia. simpl. rewrite IH, nat_N_Z. simpl.
    replace (next + Z.of_nat (S n))%Z with (Z.succ (next + Z.of_nat n)) by lia.
    destruct es as [|e' es].
    + by rewrite !decide_True by (simpl; first [by left|right; lia]).
    + destruct (decide (next + Z.of_nat (n + S (length (e' :: es))) ≤ Z.of_N I64_MAX + 1)%Z) as [Hb|Hb].
      * by rewrite !decide_True by (right; simpl in *; lia).
      * by rewrite !decide_False by (intros [?|?]; [done|simpl in *; lia]).
  - rewrite decide_False by (intros [?|?]; [done|simpl in *; lia]). unfold i64_try_from. case_decide; [|done]. simpl.
    unfold i64_checked_add. by rewrite decide_False by lia.
Qed.

Lemma stream_in_appended_tables id rows es t t' :
  holds t id rows → holds t' id (rows ++ (row_of <$> es)) → stream_in t' id = stream_in t id ++ es.
Proof.
  intros Hh Hh'. rewrite (stream_in_holds _ _ _ Hh), (stream_in_holds _ _ _ Hh'), fmap_app, <-list_fmap_compose.
  f_equal. rewrite <-(list_fmap_id es) at 2. apply list_fmap_ext. intros i e _. apply event_of_row_of.
Qed.

Lemma row_versions es : Forall (λ r, 0 ≤ schema_version r)%Z (row_of <$> es).
Proof. apply Forall_fmap, Forall_true. intros e. simpl. lia. Qed.

(** ** The contract of the event store *)

Section Contract.
Context {Db Sqlx : Type} {PG : Postgres Db Sqlx} {Laws : PostgresLaws PG}.

(** [db'] is [db] but for the events appended to the stream of an id, which holds [rows] in [db]. *)
Definition appended (id : PersistenceId) (rows : list Row) (es : list EncodedEvent) (db db' : Db) : Prop :=
  holds (tables db') id (rows ++ (row_of <$> es)) ∧
  (∀ id' rows', id' ≠ id → holds (tables db) id' rows' → holds (tables db') id' rows').

Lemma appended_nil id rows db : holds (tables db) id rows → appended id rows [] db db.
Proof. intros Hh. split; [by rewrite app_nil_r|done]. Qed.

Lemma append_cases id n es db rows :
  holds (tables db) id rows →
  let '(r, db') := postgres_append id n es db in
  let at_end := as_u64 n = N.of_nat (length rows) in
  (tables db' = tables db ∨ at_end ∧ appended id rows es db db') ∧
  (r = Returned (Ok ()) → at_end ∧ appended id rows es db db') ∧
  (r = Returned (Err Conflict) → tables db' = tables db).
Proof.
  intros Hh. unfold postgres_append. destruct (into_bigint n) as [z|e] eqn:Hz; [|by split_and!; auto].
  apply into_bigint_Ok in Hz as [-> Hn]. destruct es as [|e0 es'].
  - destruct (select_next_spec id db) as [Ht Hr]. destruct (execute_select_next id db) as [o db']. simpl in *.
    rewrite (select_next_holds _ id rows Hh) in Hr.
    split_and!; [by left| |done]. destruct o as [[z|]|]; try done. simpl. case_decide as Hzn; [|done]. intros _.
    specialize (Hr z eq_refl). split; [lia|]. unfold appended. rewrite Ht. by apply appended_nil.
  - remember (e0 :: es') as es eqn:Hes. destruct (event_rows (Z.of_N (as_u64 n)) 0 es) as [l|e] eqn:Hl; [|by split_and!; auto].
    rewrite event_rows_spec in Hl by lia. case_decide as Hb; [|done]. destruct Hb as [?|Hb]; [by subst|].
    rewrite Z.add_0_r in Hl. injection Hl as <-.
    pose proof (insert_events_spec id (rows_from (Z.of_N (as_u64 n)) (row_of <$> es)) (Z.of_N (as_u64 n)) db) as Hspec.
    destruct (execute_insert_events _ _ _ _) as [o db']. destruct Hspec as (Hdb & Hok & Hviolation).
    assert (∀ k, insert_events id (rows_from (Z.of_N (as_u64 n)) (row_of <$> es)) (Z.of_N (as_u64 n)) (tables db) = Some (k, tables db') →
      tables db' = tables db ∧ k = 0%nat ∨
      as_u64 n = N.of_nat (length rows) ∧ k = length es ∧ appended id rows es db db') as Hins.
    { intros k Hk. destruct (decide (as_u64 n = N.of_nat (length rows))) as [Hat|Hat].
      - right. unfold insert_events in Hk. rewrite (select_next_holds _ id rows Hh) in Hk.
        replace (Z.of_N (as_u64 n)) with (Z.of_nat (length rows)) in Hk by lia. rewrite decide_True in Hk by done.
        destruct (insert_rows_end (tables db) id rows (row_of <$> es) Hh) as (t' & Ht' & Hh' & Hother & _).
        { rewrite length_fmap. lia. }
        { apply row_versions. }
        rewrite Ht' in Hk. simpl in Hk. simplify_eq. rewrite length_rows_from, length_fmap. done.
      - left. rewrite (insert_events_stale _ id rows) in Hk by (done || lia). by simplify_eq. }
    rewrite length_rows_from, length_fmap. split_and!.
    + destruct Hdb as [Hdb|[k [[]|(? & _ & ?)]%Hins]]; auto.
    + destruct o as [[k|]|]; simpl; try done; [|by case_match]. case_decide as Hk; [|done]. intros _.
      destruct (Hins k (Hok k eq_refl)) as [[_ Hk0]|(? & _ & ?)]; [|done]. subst es k. done.
    + destruct o as [[k|e]|]; simpl; try done.
      * case_decide as Hk; [done|]. intros _. by destruct (Hins k (Hok k eq_refl)) as [[? _]|(_ & ? & _)].
      * destruct (is_unique_violation e) eqn:Hv; [|done]. intros _. by apply (Hviolation e).
Qed.

Lemma collect_stored_events k rows l :
  collect (Sqlx := Sqlx) stored_event (imap (λ i row, (Z.of_nat (k + i), row)) rows) = Ok l → l = numbered k (event_of <$> rows).
Proof.
  revert k l. induction rows as [|row rows IH]; intros k l; simpl; [by intros [= <-]|].
  unfold stored_event at 1, seq_no_of. simpl. rewrite decide_True by lia. simpl.
  unfold schema_version_of. case_decide as Hv; [|done]. simpl.
  rewrite (imap_ext _ (λ i row, (Z.of_nat (S k + i), row))) by (intros i ? _; simpl; do 2 f_equal; lia).
  destruct (collect _ _) as [ts|] eqn:Hts; [|done]. apply IH in Hts as ->. simpl. intros [= <-].
  unfold position. by replace (Z.to_N (Z.of_nat (k + 0))) with (N.of_nat k) by lia.
Qed.

Lemma read_cases id n limit db rows :
  holds (tables db) id rows → (Npos limit ≤ I64_MAX)%N →
  tables (postgres_read id n limit db).2 = tables db ∧
  ∀ l, (postgres_read id n limit db).1 = Returned (Ok l) → l = page (event_of <$> rows) (as_u64 n) limit.
Proof.
  intros Hh Hlimit. unfold postgres_read. destruct (into_bigint n) as [z|e] eqn:Hz; [|done].
  apply into_bigint_Ok in Hz as [-> Hn]. unfold i64_try_from. rewrite decide_True by done. simpl.
  destruct (select_events_spec id (Z.of_N (as_u64 n)) (Z.pos limit) db) as [Ht Hr].
  destruct (execute_select_events _ _ _ _) as [o db']. simpl in *. split; [done|]. intros l.
  destruct o as [[l'|]|]; try done. simpl. specialize (Hr l' eq_refl). subst l'.
  replace (Z.of_N (as_u64 n)) with (Z.of_nat (N.to_nat (as_u64 n))) by lia.
  rewrite (select_events_holds _ id rows _ _ Hh). intros [= Hl].
  apply collect_stored_events in Hl as ->. rewrite page_spec, fmap_take, fmap_drop. done.
Qed.

Lemma read_tables id n limit db : tables (postgres_read id n limit db).2 = tables db.
Proof.
  unfold postgres_read. destruct (into_bigint n) as [z|e]; [|done].
  pose proof (select_events_spec id z (default (Z.of_N I64_MAX) (i64_try_from (Npos limit))) db) as [Ht _].
  by destruct (execute_select_events _ _ _ _).
Qed.

Lemma stream_in_appended id rows es db db' :
  holds (tables db) id rows → holds (tables db') id (rows ++ (row_of <$> es)) →
  stream_in (tables db') id = stream_in (tables db) id ++ es.
Proof. apply stream_in_appended_tables. Qed.

Lemma append_wf' id n es db : tables_wf (tables db) → tables_wf (tables (postgres_append id n es db).2).
Proof.
  intros Hwf id'. destruct (Hwf id) as [rows Hh]. pose proof (append_cases id n es db rows Hh) as Ha.
  destruct (postgres_append id n es db) as [r db']; simpl in *. destruct Ha as ([->|(_ & Happ & Hother)] & _); [apply Hwf|].
  destruct (decide (id' = id)) as [->|Hid]; [by eexists|]. destruct (Hwf id') as [rows' Hh']. eauto.
Qed.

Lemma stored_snapshot_Ok {S} (row : Z * Row) s :
  stored_snapshot (Sqlx := S) row = Ok s →
  s = snapshot_of row.
Proof.
  unfold stored_snapshot, seq_no_of, schema_version_of. case_decide; [|done]. simpl. case_decide; [|done].
  simpl. by intros [= <-].
Qed.

#[export, refine] Instance Postgres_event_laws : EventStoreLaws (Postgres_events (PG := PG)) := {
  store_wf db := tables_wf (tables db);
  stream db := stream_in (tables db);
}.
Proof.
  - intros db id Hwf. destruct (Hwf id) as [rows Hh]. rewrite (length_stream_in _ _ _ Hh). destruct Hh. lia.
  - intros id n es db Hwf _. by apply append_wf'.
  - intros id n es db id' Hwf Hid. destruct (Hwf id) as [rows Hh]. destruct (Hwf id') as [rows' Hh'].
    pose proof (append_cases id n es db rows Hh) as Ha. simpl in *. destruct (postgres_append id n es db) as [r db']; simpl in *.
    destruct Ha as ([->|(_ & _ & Hother)] & _); [done|]. simpl.
    by rewrite (stream_in_holds _ _ _ (Hother _ _ Hid Hh')), (stream_in_holds _ _ _ Hh').
  - intros id n es db db' Hwf _ Hr. destruct (Hwf id) as [rows Hh]. pose proof (append_cases id n es db rows Hh) as Ha.
    simpl in *. rewrite Hr in Ha. destruct Ha as (_ & Hok & _). destruct (Hok eq_refl) as (Hat & Happ & _).
    rewrite (length_stream_in _ _ _ Hh). split; [done|]. by apply (stream_in_appended id rows).
  - intros id n es db db' Hwf Hr. destruct (Hwf id) as [rows Hh]. pose proof (append_cases id n es db rows Hh) as Ha.
    simpl in *. rewrite Hr in Ha. destruct Ha as (_ & _ & Hc). by rewrite Hc.
  - intros id n es db Hwf Hne. destruct (Hwf id) as [rows Hh]. pose proof (append_cases id n es db rows Hh) as Ha.
    simpl in *. rewrite (length_stream_in _ _ _ Hh) in Hne. destruct (postgres_append id n es db) as [r db']; simpl in *.
    by destruct Ha as ([->|(Hat & _)] & _).
  - intros id n es db Hwf _. destruct (Hwf id) as [rows Hh]. pose proof (append_cases id n es db rows Hh) as Ha.
    simpl in *. destruct (postgres_append id n es db) as [r db']; simpl in *. destruct Ha as ([->|(_ & Happ & _)] & _); [by left|].
    right. by apply (stream_in_appended id rows).
  - intros id n limit db Hwf. pose proof (read_tables id n limit db) as Ht. simpl in *. by rewrite Ht.
  - intros id n limit db id' Hwf. pose proof (read_tables id n limit db) as Ht. simpl in *. by rewrite Ht.
  - intros id n limit db l db' Hwf Hlimit Hr. destruct (Hwf id) as [rows Hh].
    rewrite (stream_in_holds _ _ _ Hh). simpl in Hr. apply (read_cases id n limit db rows Hh Hlimit). by rewrite Hr.
Defined.

(** ** The contract of the snapshot store *)

#[export, refine] Instance Postgres_snapshot_laws : SnapshotStoreLaws (Postgres_snapshots (PG := PG)) := {
  saved db id := snapshot_of <$> snapshots_table (tables db) !! id;
}.
Proof.
  - intros id n s db id' Hid. simpl. unfold postgres_save. destruct (into_bigint n) as [z|]; [|done].
    pose proof (upsert_snapshot_spec id z (mk_row (snapshot_manifest s) (Z.of_N (as_u16 (snapshot_schema_version s))) (snapshot_payload s)) db) as Hu.
    destruct (execute_upsert_snapshot _ _ _ _) as [r db']. simpl in *. destruct Hu as [->| ->]; [done|].
    simpl. by rewrite lookup_insert_ne.
  - intros id n s db. simpl. unfold postgres_save. destruct (into_bigint n) as [z|] eqn:Hz; [|by left].
    apply into_bigint_Ok in Hz as [-> _].
    pose proof (upsert_snapshot_spec id (Z.of_N (as_u64 n)) (mk_row (snapshot_manifest s) (Z.of_N (as_u16 (snapshot_schema_version s))) (snapshot_payload s)) db) as Hu.
    destruct (execute_upsert_snapshot _ _ _ _) as [r db']. simpl in *. destruct Hu as [->| ->]; [by left|].
    right. simpl. rewrite lookup_insert_eq. simpl. unfold snapshot_of. simpl. rewrite !N2Z.id.
    by destruct n as [n], s as [m [v] p].
  - intros id db id'. simpl. unfold postgres_load. pose proof (select_snapshot_spec id db) as [Ht _].
    destruct (execute_select_snapshot id db) as [r db']. simpl in *. by rewrite Ht.
  - intros id db r db'. simpl. unfold postgres_load. pose proof (select_snapshot_spec id db) as [_ Hr].
    destruct (execute_select_snapshot id db) as [o db'']. simpl in *. intros [= Hl _]. destruct o as [[row|]|]; try done.
    rewrite <-(Hr row eq_refl). simpl in Hl. destruct row as [row|]; [|by simplify_eq]. simpl.
    injection Hl as Hl. destruct (stored_snapshot row) as [s|] eqn:Hs; [|done]. simpl in Hl. simplify_eq. f_equal.
    by apply (stored_snapshot_Ok (S := Sqlx)).
Defined.
End Contract.

(** ** An example: two events appended to an empty database *)

Definition example_id : PersistenceId := mk_persistence_id "counter"%string "example"%string.
Definition example_event : EncodedEvent := mk_encoded_event "increased"%string (mk_schema_version 1) [].
Definition no_tables : Tables := mk_tables ∅ ∅.
Definition example_append (n : nat) (es : list EncodedEvent) (t : Tables) :=
  postgres_append (PG := ReferencePostgres.reference) example_id (position n) es t.
Definition one_event : Tables := (example_append 0 [example_event] no_tables).2.

Lemma no_tables_wf : tables_wf no_tables.
Proof. intros id. exists []. split_and!; [|simpl; lia|done]. intros n. simpl. rewrite lookup_empty. by case_decide. Qed.
Lemma one_event_wf : tables_wf one_event.
Proof. apply (append_wf' (Laws := ReferencePostgres.reference_laws)), no_tables_wf. Qed.

(** ** What the store answers *)

(** C27. Whatever the server answers, and whether or not its answers get lost, an append to a well-formed database
    leaves it well-formed and all streams but its own untouched; its own gets all of the events, at the position
    they were meant for, or none. Success is reported only once they are there, a conflict only when
    nothing was written, and a later read returns exactly a page of the streams as the append left them. *)
Theorem postgres_appends_are_conditional {Db Sqlx} {PG : Postgres Db Sqlx} {Laws : PostgresLaws PG} id next_seq_no es db :
  tables_wf (tables db) →
  let '(r, db') := postgres_append id next_seq_no es db in
  let at_end := as_u64 next_seq_no = N.of_nat (length (stream_in (tables db) id)) in
  tables_wf (tables db') ∧
  (∀ id', id' ≠ id → stream_in (tables db') id' = stream_in (tables db) id') ∧
  (tables db' = tables db ∨ at_end ∧ stream_in (tables db') id = stream_in (tables db) id ++ es) ∧
  (r = Returned (Ok ()) → at_end ∧ stream_in (tables db') id = stream_in (tables db) id ++ es) ∧
  (r = Returned (Err Conflict) → tables db' = tables db) ∧
  (∀ id' from limit l, (Npos limit ≤ I64_MAX)%N → (postgres_read id' from limit db').1 = Returned (Ok l) →
     l = page (stream_in (tables db') id') (as_u64 from) limit).
Proof.
  intros Hwf. destruct (Hwf id) as [rows Hh]. pose proof (append_wf' id next_seq_no es db Hwf) as Hwf'.
  pose proof (λ id', append_other (EventStoreLaws := Postgres_event_laws) id next_seq_no es db id' Hwf) as Hother.
  pose proof (append_cases id next_seq_no es db rows Hh) as Ha. simpl in Hother.
  destruct (postgres_append id next_seq_no es db) as [r db']. simpl in *. destruct Ha as (Hcases & Hok & Hconflict).
  rewrite (length_stream_in _ _ _ Hh). split_and!; [done|done| | |done|].
  - destruct Hcases as [?|(? & ? & _)]; [by left|right]. split; [done|]. by apply (stream_in_appended id rows).
  - intros Hr. destruct (Hok Hr) as (? & ? & _). split; [done|]. by apply (stream_in_appended id rows).
  - intros id' from limit l Hlimit Hl. destruct (Hwf' id') as [rows' Hh'].
    rewrite (stream_in_holds _ _ _ Hh'). by apply (read_cases id' from limit db' rows').
Qed.

Lemma postgres_appends_are_conditional_witness :
  let '(r, t) := example_append 1 [example_event; example_event] one_event in
  r = Returned (Ok ()) ∧ stream_in t example_id = stream_in one_event example_id ++ [example_event; example_event].
Proof.
  pose proof (postgres_appends_are_conditional (Laws := ReferencePostgres.reference_laws) example_id (position 1)
    [example_event; example_event] one_event one_event_wf) as H. unfold example_append.
  assert ((postgres_append (PG := ReferencePostgres.reference) example_id (position 1) [example_event; example_event]
    one_event).1 = Returned (Ok ())) as Hr by (vm_compute; reflexivity).
  destruct (postgres_append _ _ _ _) as [r t]. simpl in *. destruct H as (_ & _ & _ & Hok & _).
  split; [done|]. by apply Hok.
Defined.

(** C28. The check of the position and the insertion of the rows need not see the same tables: when other writers
    extend the stream between the two, the primary key rejects the insertion as a whole, which is reported as a
    conflict, and when they do not the rows are appended. So the conditional insertion is as good as
    atomic, for any two writers racing past the check. *)
Theorem racing_writers_conflict id seen now es :
  tables_wf seen → tables_wf now → (stream_in seen id) `prefix_of` (stream_in now id) → es ≠ [] →
  (N.of_nat (length (stream_in seen id) + length es) ≤ I64_MAX + 1)%N →
  event_rows (Sqlx := string) (select_next seen id) 0 es = Ok (rows_from (select_next seen id) (row_of <$> es)) ∧
  insert_rows id (rows_from (select_next seen id) (row_of <$> es)) now =
    (if decide (length (stream_in now id) = length (stream_in seen id))
     then snd <$> insert_events id (rows_from (select_next seen id) (row_of <$> es)) (select_next seen id) now else None) ∧
  (length (stream_in now id) = length (stream_in seen id) →
   ∃ t, insert_rows id (rows_from (select_next seen id) (row_of <$> es)) now = Some t ∧
     stream_in t id = stream_in now id ++ es).
Proof.
  intros Hseen Hnow Hpre Hes Hfits. destruct (Hseen id) as [rows Hh], (Hnow id) as [rows' Hh'].
  apply prefix_length in Hpre. rewrite (length_stream_in _ _ _ Hh) in *. rewrite (length_stream_in _ _ _ Hh') in *.
  rewrite (select_next_holds _ _ _ Hh). split_and!.
  - rewrite event_rows_spec by lia. rewrite decide_True by (right; lia). by rewrite Z.add_0_r.
  - case_decide as Heq.
    + unfold insert_events. rewrite (select_next_holds _ _ _ Hh'), decide_True by lia.
      by destruct (insert_rows _ _ _).
    + apply (insert_rows_before now id rows'); [done|lia|]. by destruct es.
  - intros Heq. rewrite <-Heq in *. destruct (insert_rows_end now id rows' (row_of <$> es) Hh') as (t & Ht & Ht' & _).
    + rewrite length_fmap. lia.
    + apply row_versions.
    + exists t. split; [done|]. by apply (stream_in_appended_tables id rows').
Qed.

Lemma racing_writers_conflict_witness :
  insert_rows example_id (rows_from (select_next no_tables example_id) (row_of <$> [example_event])) one_event = None.
Proof.
  destruct (racing_writers_conflict example_id no_tables one_event [example_event] no_tables_wf one_event_wf)
    as (_ & Hrow & _); [apply prefix_nil|done|by vm_compute|].
  rewrite Hrow. by vm_compute.
Defined.

(** C38. On a server which executes every statement an append does exactly what it answers: it fails on a
    position, of the append or of one of its events, outside of [BIGINT], it succeeds exactly at the end of the
    stream, an append of no events included, and it conflicts anywhere else. *)
Theorem postgres_append_answers id next_seq_no es (t : Tables) :
  tables_wf t →
  let n := as_u64 next_seq_no in
  let '(r, t') := postgres_append (PG := ReferencePostgres.reference) id next_seq_no es t in
  (I64_MAX < n ∨ es ≠ [] ∧ I64_MAX + 1 < n + N.of_nat (length es) →
     r = Returned (Err (StoreError SeqNoOutOfRange)) ∧ t' = t)%N ∧
  (n ≤ I64_MAX → es = [] ∨ n + N.of_nat (length es) ≤ I64_MAX + 1 →
     if decide (n = N.of_nat (length (stream_in t id)))
     then r = Returned (Ok ()) ∧ stream_in t' id = stream_in t id ++ es
     else r = Returned (Err Conflict) ∧ t' = t)%N.
Proof.
  intros Hwf n. destruct (Hwf id) as [rows Hh]. rewrite (length_stream_in _ _ _ Hh). unfold postgres_append, into_bigint, i64_try_from.
  fold n. destruct (decide (n ≤ I64_MAX)%N) as [Hn|Hn]; simpl; [|by split_and!; [..|lia]].
  destruct es as [|e0 es'].
  { simpl. rewrite (select_next_holds _ _ _ Hh). split; [by intros [?|[? _]]; [lia|]|]. intros _ _. rewrite app_nil_r.
    repeat case_decide; try done; lia. }
  remember (e0 :: es') as es eqn:Hes. assert (es ≠ []) as Hne by (by subst). clear Hes e0 es'.
  rewrite event_rows_spec by lia. case_decide as Hb.
  - destruct Hb as [?|Hb]; [done|]. rewrite Z.add_0_r. simpl.
    destruct (decide (n = N.of_nat (length rows))) as [Hat|Hat].
    + destruct (insert_rows_end t id rows (row_of <$> es) Hh) as (t' & Ht' & Hh' & _).
      { rewrite length_fmap. lia. } { apply row_versions. }
      replace (Z.of_N n) with (Z.of_nat (length rows)) by lia. unfold insert_events.
      rewrite (select_next_holds _ _ _ Hh), decide_True, Ht' by done. simpl. rewrite decide_True by done.
      split; [intros [?|[_ ?]]; lia|]. intros _ _. split; [done|]. by apply (stream_in_appended_tables id rows).
    + rewrite (insert_events_stale t id rows) by (done || lia). simpl.
      rewrite length_rows_from, length_fmap. split; [intros [?|[_ ?]]; lia|]. intros _ _. by destruct es.
  - apply Decidable.not_or in Hb as [_ Hb]. split; [done|]. intros _ [?|?]; [done|lia].
Qed.

Lemma postgres_append_answers_witness :
  let '(r, t) := example_append 0 [example_event] one_event in r = Returned (Err Conflict) ∧ t = one_event.
Proof.
  pose proof (postgres_append_answers example_id (position 0) [example_event] one_event one_event_wf) as H.
  unfold example_append. destruct (postgres_append _ _ _ _) as [r t]. destruct H as [_ H].
  rewrite decide_False in H by (vm_compute; discriminate).
  apply H; [vm_compute; discriminate|right; vm_compute; discriminate].
Defined.
