(* ===== verification/Text.v ===== *)
(** What the standard library does on [str] and on slices, as far as the comparison report uses it: strings are the
    bytes of their UTF-8 encoding. *)
From stdpp Require Import strings sorting pretty.
From Stdlib Require Import Strings.String Strings.Ascii Structures.OrdersEx.
From S2P Require Import Prelude.

#[local] Open Scope string_scope.
#[local] Arguments String.append : simpl nomatch.
Implicit Types (s t : string) (c : ascii).

(** ** Characters and what follows them *)

Definition LF : ascii := "010".
Definition CR : ascii := "013".
Definition QUOTE : ascii := "034".

(** No byte of [s] is one of [cs]. *)
Fixpoint free (cs : list ascii) s : Prop :=
  match s with "" => True | String c s => c ∉ cs ∧ free cs s end.

Lemma free_app cs s t : free cs (s ++ t) ↔ free cs s ∧ free cs t.
Proof. induction s as [|c s IH]; simpl; [|rewrite IH]; tauto. Qed.
Lemma free_mono cs cs' s : (∀ c, c ∈ cs → c ∈ cs') → free cs' s → free cs s.
Proof. intros Hcs. induction s as [|c s IH]; simpl; naive_solver. Qed.
Lemma append_nil_r s : s ++ "" = s.
Proof. induction s as [|c s IH]; simpl; [done|by rewrite IH]. Qed.
Lemma append_assoc s t u : s ++ (t ++ u) = (s ++ t) ++ u.
Proof. induction s as [|c s IH]; simpl; [done|by rewrite IH]. Qed.

(** [collect::<String>()] and [join]. *)
Fixpoint concat_strings (l : list string) : string :=
  match l with [] => "" | s :: l => s ++ concat_strings l end.
Fixpoint join (separator : string) (l : list string) : string :=
  match l with [] => "" | [s] => s | s :: l => s ++ separator ++ join separator l end.

(** [str::replace] of a character. *)
Fixpoint replace (from : ascii) (to : string) s : string :=
  match s with
  | "" => ""
  | String c s => if decide (c = from) then to ++ replace from to s else String c (replace from to s)
  end.

Lemma replace_app from to s t : replace from to (s ++ t) = replace from to s ++ replace from to t.
Proof. induction s as [|c s IH]; simpl; [done|]. rewrite IH. case_decide; [by rewrite append_assoc|done]. Qed.

(** [str::lines]: a line ends with a line feed, or a carriage return and a line feed, or the string. *)
Fixpoint lines s : list string :=
  match s with
  | "" => []
  | String c rest =>
      if decide (c = LF) then "" :: lines rest
      else
        match rest with
        | "" => [String c ""]
        | String d _ =>
            if decide (c = CR ∧ d = LF) then lines rest
            else match lines rest with line :: ls => String c line :: ls | [] => [String c ""] end
        end
  end.

(** A string of lines. *)
Fixpoint unlines (ls : list string) : string :=
  match ls with [] => "" | line :: ls => line ++ String LF (unlines ls) end.

Lemma lines_line line s : free [LF; CR] line → lines (line ++ String LF s) = line :: lines s.
Proof.
  induction line as [|c line IH]; intros Hl; [done|]. destruct Hl as [Hc Hl]. specialize (IH Hl).
  assert (c ≠ LF ∧ c ≠ CR) as [Hn Hr] by (split; intros ->; apply Hc; set_solver).
  change ((String c line ++ String LF s)) with (String c (line ++ String LF s)). cbn [lines]. rewrite decide_False by done.
  rewrite IH. destruct (line ++ String LF s) as [|d r] eqn:Heq; [by destruct line|]. rewrite decide_False by (by intros [? _]). done.
Qed.

Lemma lines_unlines ls : Forall (free [LF; CR]) ls → lines (unlines ls) = ls.
Proof. induction 1 as [|line ls Hl _ IH]; [done|]. simpl. by rewrite lines_line, IH. Qed.

(** [str::strip_prefix], [str::starts_with], [str::split_once] and [str::trim_matches] of a character. *)
Fixpoint strip_prefix (prefix : string) s : option string :=
  match prefix, s with
  | "", _ => Some s
  | String a prefix, String c s => if decide (a = c) then strip_prefix prefix s else None
  | String _ _, "" => None
  end.
Definition starts_with (prefix : string) s : bool := match strip_prefix prefix s with Some _ => true | None => false end.

Lemma strip_prefix_app prefix s : strip_prefix prefix (prefix ++ s) = Some s.
Proof. induction prefix as [|c prefix IH]; simpl; [by destruct s|]. by rewrite decide_True. Qed.

Fixpoint split_once (at_ : ascii) s : option (string * string) :=
  match s with
  | "" => None
  | String c s => if decide (c = at_) then Some ("", s) else '(before, after) ← split_once at_ s; Some (String c before, after)
  end.

Fixpoint trim_start_matches (what : ascii) s : string :=
  match s with "" => "" | String c rest => if decide (c = what) then trim_start_matches what rest else s end.
Fixpoint trim_end_matches (what : ascii) s : string :=
  match s with
  | "" => ""
  | String c s => match trim_end_matches what s with "" => if decide (c = what) then "" else String c "" | t => String c t end
  end.
Definition trim_matches (what : ascii) s : string := trim_end_matches what (trim_start_matches what s).

Lemma trim_start_matches_free what s : free [what] s → trim_start_matches what s = s.
Proof. destruct s as [|c s]; [done|]. intros [Hc _]. simpl. rewrite decide_False; [done|]. intros ->. set_solver. Qed.
Lemma trim_end_matches_free what s : free [what] s → trim_end_matches what s = s.
Proof.
  induction s as [|c s IH]; [done|]. intros [Hc Hs]. simpl. rewrite IH by done. destruct s; [|done].
  rewrite decide_False; [done|]. intros ->. set_solver.
Qed.
Lemma trim_end_matches_last what s : trim_end_matches what (s ++ String what "") = trim_end_matches what s.
Proof. induction s as [|c s IH]; simpl; [by rewrite decide_True|]. by rewrite IH. Qed.

(** What is quoted, without its quotes. *)
Lemma trim_matches_quoted s : free [QUOTE] s → trim_matches QUOTE (String QUOTE s ++ String QUOTE "") = s.
Proof.
  intros Hs. unfold trim_matches. assert (∀ t, trim_start_matches QUOTE (String QUOTE t) = trim_start_matches QUOTE t) as Hq by done.
  change (String QUOTE s ++ String QUOTE "") with (String QUOTE (s ++ String QUOTE "")). rewrite Hq. destruct s as [|c s]; [done|].
  assert (c ≠ QUOTE) as Hc by (destruct Hs as [Hc _]; intros ->; set_solver).
  change (String c s ++ String QUOTE "") with (String c (s ++ String QUOTE "")). cbn [trim_start_matches]. rewrite decide_False by done.
  change (String c (s ++ String QUOTE "")) with (String c s ++ String QUOTE ""). by rewrite trim_end_matches_last, trim_end_matches_free.
Qed.

(** [str::trim]: the characters with the property White_Space of Unicode, in UTF-8. *)
Definition white_space : list string :=
  ["009"; "010"; "011"; "012"; "013"; " "]%char ≫= (λ c, [String c ""]).
Definition white_space_2 : list string := (λ c : ascii, String "194" (String c "")) <$> ["133"; "160"]%char.
Definition white_space_3 : list string :=
  (λ '(a, b, c), String a (String b (String c ""))) <$>
    ([("225", "154", "128")] ++
     ((λ c, ("226", "128", c)) <$>
        ["128"; "129"; "130"; "131"; "132"; "133"; "134"; "135"; "136"; "137"; "138"; "168"; "169"; "175"]) ++
     [("226", "129", "159"); ("227", "128", "128")])%char%list.
Definition strip_white_space s : option string :=
  head (omap (λ w, strip_prefix w s) (white_space ++ white_space_2 ++ white_space_3)%list).

Fixpoint trim_start_from (fuel : nat) s : string :=
  match fuel with
  | 0%nat => s
  | S fuel => match strip_white_space s with Some rest => trim_start_from fuel rest | None => s end
  end.
Definition trim_start s : string := trim_start_from (String.length s) s.
Fixpoint trim_end s : string :=
  if decide (trim_start s = "") then "" else match s with "" => "" | String c s => String c (trim_end s) end.
Definition trim s : string := trim_end (trim_start s).

(** The bytes of [str::to_lowercase] which are ASCII letters; of no other character the lower case begins with one of
    the letters looked for here. *)
Definition to_lower (c : ascii) : ascii :=
  let n := Ascii.N_of_ascii c in if decide (65 ≤ n ∧ n ≤ 90)%N then Ascii.ascii_of_N (n + 32) else c.
Fixpoint to_lowercase s : string := match s with "" => "" | String c s => String (to_lower c) (to_lowercase s) end.

(** ** [str::parse::<u64>] *)

Definition digit_value (c : ascii) : option N :=
  let n := Ascii.N_of_ascii c in if decide (48 ≤ n ∧ n ≤ 57)%N then Some (n - 48)%N else None.

Fixpoint parse_digits (value : N) s : option N :=
  match s with
  | "" => Some value
  | String c s =>
      digit ← digit_value c;
      if decide (value * 10 + digit ≤ U64_MAX)%N then parse_digits (value * 10 + digit) s else None
  end.

Definition parse_u64 s : option N :=
  let digits := match s with String "+" (String c rest) => String c rest | _ => s end in
  match digits with "" => None | String _ _ => parse_digits 0 digits end.

Lemma digit_value_pretty d : (d < 10)%N → digit_value (pretty_N_char d) = Some d.
Proof.
  intros Hd. assert (d ∈ [0; 1; 2; 3; 4; 5; 6; 7; 8; 9]%N) as Hin by (rewrite !elem_of_cons; lia).
  by repeat (apply elem_of_cons in Hin as [->|Hin]; [done|]); apply elem_of_nil in Hin.
Qed.

Lemma parse_pretty_go x : (x ≤ U64_MAX)%N → ∀ s, parse_digits 0 (pretty_N_go x s) = parse_digits x s.
Proof.
  induction (N.lt_wf_0 x) as [x _ IH]. intros Hx s. destruct (decide (x = 0%N)) as [->|Hn]; [by rewrite pretty_N_go_0|].
  rewrite pretty_N_go_step by lia. rewrite IH; [|apply N.div_lt; lia|].
  - simpl. rewrite digit_value_pretty by (apply N.mod_lt; lia). simpl.
    replace (x `div` 10 * 10 + x `mod` 10)%N with x; [by rewrite decide_True|]. pose proof (N.div_mod' x 10). lia.
  - etrans; [apply N.Div0.div_le_upper_bound with (q := x); lia|done].
Qed.

(** A number is parsed back from its digits. *)
Lemma parse_pretty n : (n ≤ U64_MAX)%N → parse_u64 (pretty n) = Some n.
Proof.
  intros Hn. unfold pretty, pretty_N. case_decide as H0; [by subst|].
  pose proof (parse_pretty_go n Hn "") as Hp. unfold parse_u64. destruct (pretty_N_go n "") as [|c s]; [|].
  - simpl in Hp. injection Hp as <-. done.
  - assert (c ≠ "+"%char) as Hc; [by intros ->|]. destruct c as [[] [] [] [] [] [] [] []]; try exact Hp. done.
Qed.
