(* ===== verification/Orderings.v ===== *)
(** [Ord] and what slices do with it: [sort_by] and [chunk_by]. *)
From stdpp Require Import strings sorting.
From Stdlib Require Import Strings.String Strings.Ascii Structures.OrdersEx.
From S2P Require Import Prelude.

(** ** [Ordering] *)

Definition then_with (first second : comparison) : comparison := match first with Eq => second | _ => first end.

(** What the documentation of [Ord] demands of [cmp]: a total preorder. *)
Class Ordering {A} (cmp : A → A → comparison) := {
  ordering_antisym x y : cmp y x = CompOpp (cmp x y);
  ordering_trans x y z : cmp x y ≠ Gt → cmp y z ≠ Gt → cmp x z ≠ Gt;
}.

Section Laws.
Context `{Ordering A cmp}.

Lemma ordering_refl x : cmp x x = Eq.
Proof. pose proof (ordering_antisym x x). by destruct (cmp x x). Qed.
Lemma ordering_total x y : cmp x y = Gt → cmp y x ≠ Gt.
Proof. intros Hg. by rewrite ordering_antisym, Hg. Qed.
Lemma ordering_eq_sym x y : cmp x y = Eq → cmp y x = Eq.
Proof. intros He. by rewrite ordering_antisym, He. Qed.

(** Equal elements compare alike. *)
Lemma ordering_eq_l x y z : cmp x y = Eq → cmp x z = cmp y z.
Proof.
  intros He. pose proof (ordering_eq_sym _ _ He) as He'.
  pose proof (ordering_trans x y z) as H1. pose proof (ordering_trans y x z) as H2.
  pose proof (ordering_trans z x y) as H3. pose proof (ordering_trans z y x) as H4.
  pose proof (ordering_antisym x z) as Hx. pose proof (ordering_antisym y z) as Hy.
  destruct (cmp x z), (cmp y z); simpl in Hx, Hy; try done; exfalso; naive_solver congruence.
Qed.
Lemma ordering_eq_r x y z : cmp x y = Eq → cmp z x = cmp z y.
Proof. intros He. by rewrite (ordering_antisym x z), (ordering_antisym y z), (ordering_eq_l x y z He). Qed.
End Laws.

(** Lexicographically, and by a key. *)
#[export] Instance then_ordering {A} (c1 c2 : A → A → comparison) :
  Ordering c1 → Ordering c2 → Ordering (λ x y, then_with (c1 x y) (c2 x y)).
Proof.
  intros O1 O2. split.
  - intros x y. rewrite (ordering_antisym (cmp:=c1) x y), (ordering_antisym (cmp:=c2) x y). by destruct (c1 x y).
  - intros x y z. destruct (c1 x y) eqn:Hxy; simpl; [|intros _|done].
    + rewrite (ordering_eq_l (cmp:=c1) x y z Hxy). destruct (c1 y z) eqn:Hyz; simpl; [apply ordering_trans|done..].
    + intros Hyz. assert (c1 y z ≠ Gt) as Hyz1 by (by destruct (c1 y z)).
      pose proof (ordering_trans (cmp:=c1) x y z) as Ht. rewrite Hxy in Ht. specialize (Ht ltac:(done) Hyz1).
      destruct (c1 x z) eqn:Hxz; simpl; [|done..]. exfalso.
      pose proof (ordering_eq_l (cmp:=c1) x z y Hxz) as Hzy. rewrite Hxy in Hzy. pose proof (ordering_antisym (cmp:=c1) z y) as Ha. rewrite <-Hzy in Ha. by rewrite Ha in Hyz1.
Qed.
#[export] Instance on_ordering {A B} (f : A → B) (c : B → B → comparison) : Ordering c → Ordering (λ x y, c (f x) (f y)).
Proof. intros O. split; [by intros; apply ordering_antisym|by intros; eapply ordering_trans]. Qed.

#[export] Instance N_ordering : Ordering N.compare.
Proof. split; [intros; apply N.compare_antisym|]. intros x y z. rewrite !N.compare_gt_iff. lia. Qed.

(** The bytes of strings, lexicographically. *)
#[export] Instance string_ordering : Ordering String.compare.
Proof.
  split; [intros; apply String.compare_antisym|]. intros x y z Hxy Hyz.
  assert (∀ a b, String.compare a b ≠ Gt → a = b ∨ String_as_OT.lt a b) as Hle.
  { intros a b Hab. destruct (String.compare a b) eqn:Hc; [left; by apply String.compare_eq_iff|by right|done]. }
  destruct (Hle _ _ Hxy) as [->|H1]; [done|]. destruct (Hle _ _ Hyz) as [<-|H2]; [done|].
  pose proof (StrictOrder_Transitive _ _ _ H1 H2) as Hxz. unfold String_as_OT.lt in Hxz. change (String.compare x z = Lt) in Hxz. by rewrite Hxz.
Qed.
Lemma string_compare_eq x y : String.compare x y = Eq ↔ x = y.
Proof. split; [apply String.compare_eq_iff|intros ->; apply ordering_refl]. Qed.

(** ** [sort_by], which is stable *)

Section Sort.
Context {A : Type} (cmp : A → A → comparison).

Fixpoint sort_insert (x : A) (l : list A) : list A :=
  match l with
  | [] => [x]
  | y :: l' => match cmp x y with Gt => y :: sort_insert x l' | _ => x :: l end
  end.
Definition sort_by (l : list A) : list A := foldr sort_insert [] l.

Definition cmp_le (x y : A) : Prop := cmp x y ≠ Gt.

Lemma sort_insert_perm x l : sort_insert x l ≡ₚ x :: l.
Proof. induction l as [|y l IH]; [done|]. simpl. destruct (cmp x y); [done..|]. rewrite IH. apply Permutation_swap. Qed.
Lemma sort_by_perm l : sort_by l ≡ₚ l.
Proof. induction l as [|x l IH]; [done|]. simpl. by rewrite sort_insert_perm, IH. Qed.

Context {O : Ordering cmp}.

Lemma sort_insert_sorted x l : StronglySorted cmp_le l → StronglySorted cmp_le (sort_insert x l).
Proof.
  induction l as [|y l IH]; simpl; intros Hl; [by repeat constructor|].
  apply StronglySorted_cons in Hl as [Hy Hl]. destruct (cmp x y) eqn:Hc.
  1, 2: apply StronglySorted_cons; split; [|by apply StronglySorted_cons]; constructor; [unfold cmp_le; by rewrite Hc|];
    eapply Forall_impl; [exact Hy|]; intros z Hz; eapply ordering_trans; [|exact Hz]; by rewrite Hc.
  apply StronglySorted_cons. split; [|by apply IH]. rewrite sort_insert_perm. constructor; [|done]. by apply ordering_total.
Qed.
Lemma sort_by_sorted l : StronglySorted cmp_le (sort_by l).
Proof. induction l as [|x l IH]; [constructor|]. by apply sort_insert_sorted. Qed.

(** Elements which compare equal keep their order. *)
Definition equals (x y : A) : bool := match cmp x y with Eq => true | _ => false end.
Lemma equals_trans x y z : equals x y = true → equals x z = true → cmp y z = Eq.
Proof.
  unfold equals. destruct (cmp x y) eqn:Hxy, (cmp x z) eqn:Hxz; try done. intros _ _. by rewrite <-(ordering_eq_l x y z Hxy).
Qed.
Lemma sort_insert_stable x y l :
  filter (λ z, equals x z = true) (sort_insert y l) = filter (λ z, equals x z = true) (y :: l).
Proof.
  induction l as [|z l IH]; [done|]. simpl. destruct (cmp y z) eqn:Hc; [done..|].
  rewrite filter_cons, IH, !filter_cons. case_decide as H1; [|done]. case_decide as H2; [|done].
  by rewrite (equals_trans x y z H2 H1) in Hc.
Qed.
Lemma sort_by_stable x l : filter (λ z, equals x z = true) (sort_by l) = filter (λ z, equals x z = true) l.
Proof. induction l as [|y l IH]; [done|]. simpl. by rewrite sort_insert_stable, !filter_cons, IH. Qed.

(** The order of the input does not matter if no two elements compare equal. *)
Lemma sort_by_unique l l' :
  (∀ x y, x ∈ l → y ∈ l → cmp x y = Eq → x = y) → l ≡ₚ l' → sort_by l = sort_by l'.
Proof.
  intros Hu Hp. apply (StronglySorted_unique_strong cmp_le); [|apply sort_by_sorted..|by rewrite !sort_by_perm].
  intros x y Hx Hy Hxy Hyx. rewrite sort_by_perm in Hx. rewrite sort_by_perm in Hy. apply Hu; [done|by rewrite Hp|].
  unfold cmp_le in *. rewrite (ordering_antisym x y) in Hyx. by destruct (cmp x y).
Qed.
End Sort.

(** ** [chunk_by] *)

Section Chunks.
Context {A : Type} (same : A → A → bool).

Fixpoint chunk_by (l : list A) : list (list A) :=
  match l with
  | [] => []
  | x :: l =>
      match chunk_by l with
      | (y :: chunk) :: chunks => if same x y then (x :: y :: chunk) :: chunks else [x] :: (y :: chunk) :: chunks
      | chunks => [x] :: chunks
      end
  end.

Lemma chunk_by_cons x y l : ∃ chunk chunks, chunk_by (y :: l) = (y :: chunk) :: chunks ∧
  chunk_by (x :: y :: l) = if same x y then (x :: y :: chunk) :: chunks else [x] :: (y :: chunk) :: chunks.
Proof.
  assert (∀ l y, ∃ chunk chunks, chunk_by (y :: l) = (y :: chunk) :: chunks) as Hc.
  { clear. intros l. induction l as [|z l IH]; intros y; [by exists [], []|]. destruct (IH z) as (chunk & chunks & Hz).
    cbn [chunk_by] in *. rewrite Hz. destruct (same y z); [by exists (z :: chunk), chunks|by exists [], ((z :: chunk) :: chunks)]. }
  destruct (Hc l y) as (chunk & chunks & Hy). exists chunk, chunks. split; [done|]. cbn [chunk_by] in *. by rewrite Hy.
Qed.

(** Chunks are the slice cut where neighbours differ. *)
Lemma chunk_by_concat l : concat (chunk_by l) = l.
Proof.
  induction l as [|x [|y l] IH]; [done..|]. destruct (chunk_by_cons x y l) as (chunk & chunks & Hy & ->).
  rewrite Hy in IH. simpl in IH. destruct (same x y); simpl; by rewrite IH.
Qed.
Lemma chunk_by_not_empty l : [] ∉ chunk_by l.
Proof.
  induction l as [|x [|y l] IH]; [by intros ?%elem_of_nil|by intros ?%list_elem_of_singleton|].
  destruct (chunk_by_cons x y l) as (chunk & chunks & Hy & ->). rewrite Hy in IH. destruct (same x y); set_solver.
Qed.
End Chunks.

(** By a key. *)
Section Keys.
Context {A K : Type} `{EqDecision K} (key : A → K).
Definition same_key (x y : A) : bool := bool_decide (key x = key y).
#[local] Abbreviation chunks := (chunk_by same_key).

Lemma elem_of_chunk l chunk x : chunk ∈ chunks l → x ∈ chunk → x ∈ l.
Proof.
  intros Hin Hx. rewrite <-(chunk_by_concat same_key l). apply list_elem_of_In, in_concat. exists chunk.
  by rewrite <-!list_elem_of_In.
Qed.
Lemma filter_key_none k l : (∀ x, x ∈ l → key x ≠ k) → filter (λ y, key y = k) l = [].
Proof.
  induction l as [|x l IH]; intros Hl; [done|]. rewrite filter_cons, decide_False by (apply Hl; by left).
  apply IH. intros y Hy. apply Hl. by right.
Qed.

Lemma chunk_by_keys l chunk x y : chunk ∈ chunks l → x ∈ chunk → y ∈ chunk → key x = key y.
Proof.
  revert chunk x y. induction l as [|a [|b l] IH]; intros chunk x y.
  { by intros ?%elem_of_nil. }
  { by intros ->%list_elem_of_singleton ->%list_elem_of_singleton ->%list_elem_of_singleton. }
  destruct (chunk_by_cons same_key a b l) as (chunk' & chunks' & Hb & ->). rewrite Hb in IH. unfold same_key. case_bool_decide as Hab.
  - intros [->|Hin]%elem_of_cons; [|apply IH; by right].
    assert (∀ z, z ∈ b :: chunk' → key b = key z) as Hall by (intros z Hz; eapply IH; [by left|by left|done]).
    assert (∀ z, z ∈ a :: b :: chunk' → key b = key z) as Hall' by (intros z [->|Hz]%elem_of_cons; [done|by apply Hall]).
    intros Hx Hy. by rewrite <-(Hall' x Hx), <-(Hall' y Hy).
  - intros [->|Hin]%elem_of_cons; [|by apply IH]. by intros ->%list_elem_of_singleton ->%list_elem_of_singleton.
Qed.

(** Where elements of a key are next to each other, there is one chunk for each key: it has them all, in order. *)
Definition grouped (l : list A) : Prop :=
  ∀ l1 x l2 y l3, l = l1 ++ x :: l2 ++ y :: l3 → key x = key y → ∀ z, z ∈ l2 → key z = key x.

Lemma grouped_tail x l : grouped (x :: l) → grouped l.
Proof. intros Hg l1 a l2 b l3 -> Hab. apply (Hg (x :: l1) a l2 b l3); done. Qed.

Lemma grouped_next x y l : grouped (x :: y :: l) → key x ≠ key y → ∀ z, z ∈ y :: l → key z ≠ key x.
Proof.
  intros Hg Hne z [->|Hz]%elem_of_cons Heq; [by symmetry in Heq|]. apply list_elem_of_split in Hz as (l1 & l2 & ->).
  apply Hne. symmetry. apply (Hg [] x (y :: l1) z l2); [done|done|by left].
Qed.

Lemma chunk_by_grouped l : grouped l →
  NoDup (chunks l ≫= λ chunk, take 1 (key <$> chunk)) ∧
  ∀ chunk x, chunk ∈ chunks l → x ∈ chunk → chunk = filter (λ y, key y = key x) l.
Proof.
  induction l as [|a [|b l] IH]; intros Hg.
  - split; [constructor|]. by intros chunk x ?%elem_of_nil.
  - split; [simpl; apply NoDup_singleton|]. intros chunk x ->%list_elem_of_singleton ->%list_elem_of_singleton.
    rewrite filter_cons. by rewrite decide_True.
  - destruct (IH (grouped_tail _ _ Hg)) as [Hnd Hch]. clear IH.
    pose proof (chunk_by_keys (b :: l)) as Hkeys.
    destruct (chunk_by_cons same_key a b l) as (chunk' & chunks' & Hb & ->). rewrite Hb in *. unfold same_key at 1 2. case_bool_decide as Hab.
    + split; [simpl in *; by rewrite Hab|]. intros chunk x Hin Hx. rewrite filter_cons.
      apply elem_of_cons in Hin as [->|Hin].
      * assert (key b = key x) as Hbx.
        { apply elem_of_cons in Hx as [->|Hx]; [done|]. eapply Hkeys; [by left|by left|done]. }
        rewrite decide_True by congruence. f_equal. rewrite (Hch (b :: chunk') b) by (by left). by rewrite Hbx.
      * rewrite (Hch chunk x) by (try done; by right). rewrite decide_False; [done|]. intros Hax.
        assert (key b = key x) as Hbx by congruence. simpl in Hnd. apply NoDup_cons in Hnd as [Hni _]. apply Hni.
        apply list_elem_of_bind. exists chunk. split; [|done].
        assert (∀ z, z ∈ chunk → key z = key x) as Hz by (intros z Hz; eapply Hkeys; [by right|done..]).
        destruct chunk as [|z chunk]; [by apply elem_of_nil in Hx|]. simpl. rewrite take_0.
        apply list_elem_of_singleton. rewrite Hbx. symmetry. apply Hz. by left.
    + pose proof (grouped_next _ _ _ Hg Hab) as Hne. split.
      * simpl. apply NoDup_cons. split; [|done]. intros Hin.
        change (key a ∈ ((b :: chunk') :: chunks') ≫= λ chunk, take 1 (key <$> chunk)) in Hin.
        apply list_elem_of_bind in Hin as (chunk & Hk & Hin). destruct chunk as [|z chunk]; [by apply elem_of_nil in Hk|].
        simpl in Hk. rewrite take_0 in Hk. apply list_elem_of_singleton in Hk. apply (Hne z); [|done].
        apply (elem_of_chunk _ (z :: chunk)); [by rewrite Hb|by left].
      * intros chunk x Hin Hx. rewrite filter_cons. apply elem_of_cons in Hin as [->|Hin].
        -- apply list_elem_of_singleton in Hx as ->. rewrite decide_True by done. f_equal. symmetry. by apply filter_key_none.
        -- rewrite (Hch chunk x) by done. rewrite decide_False; [done|]. intros Hax. apply (Hne x); [|done].
           apply (elem_of_chunk _ chunk); [by rewrite Hb|done].
Qed.
End Keys.
