(* ===== verification/Report.v ===== *)
(** The report of the comparison benchmarks: [tellus-comparison/src/bin/report.rs]. Criterion's results below a
    directory are collected, read, sorted and rendered as a page. Here is the program; [ReportSpec] is about it. *)
From stdpp Require Import strings pretty.
From Stdlib Require Import Strings.String Strings.Ascii.
From S2P Require Import Prelude Floats Text Orderings.

#[local] Open Scope string_scope.

(** ** Errors

    An [anyhow::Error] is the chain of its messages, the outermost one first. *)

Definition Error : Type := list string.
Definition with_context {T} (context : string) (r : result T Error) : result T Error := map_err (cons context) r.
Definition bail {T} (message : string) : result T Error := Err [message].

Fixpoint collect_results {T E} (l : list (result T E)) : result (list T) E :=
  match l with
  | [] => Ok []
  | r :: l => let? x := r in let? xs := collect_results l in Ok (x :: xs)
  end.

(** ** The file system

    A directory has entries, in any order; reading it may fail, in the middle too. A path is kept with what it
    names. *)

Inductive Tree :=
  | File (contents : result string string)
  | Dir (error : option string) (entries : list (result (string * Tree) string)).
Record PathBuf := mk_path { display : string; node : option Tree }.

Definition entry_named (name : string) (entry : result (string * Tree) string) : option Tree :=
  match entry with Ok (name', t) => if decide (name' = name) then Some t else None | Err _ => None end.
Definition path_join (path : PathBuf) (name : string) : PathBuf :=
  mk_path (display path ++ "/" ++ name)
    match node path with Some (Dir _ entries) => head (omap (entry_named name) entries) | _ => None end.
Definition is_dir (t : Tree) : bool := match t with Dir _ _ => true | File _ => false end.
Definition is_file (path : PathBuf) : bool := match node path with Some (File _) => true | _ => false end.
Definition read_to_string (path : PathBuf) : result string Error :=
  match node path with
  | Some (File contents) => map_err (λ e, [e]) contents
  | Some (Dir _ _) => bail "Is a directory (os error 21)"
  | None => bail "No such file or directory (os error 2)"
  end.

(** Whether the code takes a directory for one with a sample. *)
Definition is_sample (name : string) (path : PathBuf) : bool :=
  bool_decide (name = "new") && is_file (path_join path "benchmark.json") && is_file (path_join path "estimates.json").

(** Of a directory; of anything else there are none. *)
Fixpoint collect_below (path : string) (t : Tree) : result (list PathBuf) Error :=
  match t with
  | File _ => Ok []
  | Dir (Some error) _ => Err ["reading directory " ++ path; error]
  | Dir None entries =>
      let? collected :=
        (fix collect entries :=
           match entries with
           | [] => Ok []
           | Err error :: _ => Err ["entry below " ++ path; error]
           | Ok (name, child) :: entries =>
               let? found :=
                 if negb (is_dir child) then Ok []
                 else if is_sample name (mk_path (path ++ "/" ++ name) (Some child)) then Ok [mk_path (path ++ "/" ++ name) (Some child)]
                 else collect_below (path ++ "/" ++ name) child in
               let? rest := collect entries in
               Ok (found :: rest)
           end) entries in
      Ok (concat collected)
  end.
Definition collect_sample_directories (directory : PathBuf) : result (list PathBuf) Error :=
  match node directory with None => Ok [] | Some t => collect_below (display directory) t end.

(** ** Measurements *)

Record Measurement := mk_measurement {
  group : string;
  framework : string;
  parameter : option string;
  elements : N;
  mean_ns : f64;
  lower_ns : f64;
  upper_ns : f64;
  elements_per_second : f64;
}.

Definition key (m : Measurement) : string * option string := (group m, parameter m).

(** What is used of [serde_json]. *)
Class SerdeJson := {
  Value : Type;
  from_str : string → result Value string;
  pointer : Value → string → option Value;
  as_str : Value → option string;
  as_u64 : Value → option N;
  as_f64 : Value → option f64;
}.

Section Reading.
Context {J : SerdeJson}.

Definition read_json (path : PathBuf) : result Value Error :=
  let? contents := with_context ("reading " ++ display path) (read_to_string path) in
  with_context ("parsing " ++ display path) (map_err (λ e, [e]) (from_str contents)).

Definition string_field (value : Value) (at_ : string) : result string Error :=
  ok_or ["string field " ++ at_] (v ← pointer value at_; as_str v).
Definition count_field (value : Value) (at_ : string) : result N Error :=
  ok_or ["integer field " ++ at_] (v ← pointer value at_; as_u64 v).
Definition number_field (value : Value) (at_ : string) : result f64 Error :=
  ok_or ["number field " ++ at_] (v ← pointer value at_; as_f64 v).

Definition read_measurement (directory : PathBuf) : result Measurement Error :=
  let? benchmark := read_json (path_join directory "benchmark.json") in
  let? estimates := read_json (path_join directory "estimates.json") in
  let? group := string_field benchmark "/group_id" in
  let? framework := string_field benchmark "/function_id" in
  let parameter := v ← pointer benchmark "/value_str"; as_str v in
  let? elements :=
    with_context ("element throughput of " ++ group ++ "/" ++ framework) (count_field benchmark "/throughput/Elements") in
  let? mean_ns := number_field estimates "/mean/point_estimate" in
  let? lower_ns := number_field estimates "/mean/confidence_interval/lower_bound" in
  let? upper_ns := number_field estimates "/mean/confidence_interval/upper_bound" in
  Ok (mk_measurement group framework parameter elements mean_ns lower_ns upper_ns
        (f64_div (f64_mul (f64_from_u64 elements) (f64_of 1000000000 0)) mean_ns)).

(** ** Their order *)

Inductive ParameterOrder :=
  | Missing
  | Number (number : N)
  | NotANumber (text : string).

Definition parameter_order (m : Measurement) : ParameterOrder :=
  match parameter m with
  | Some parameter => match parse_u64 parameter with Some number => Number number | None => NotANumber parameter end
  | None => Missing
  end.

(** The derived [Ord]: by variant, then by what the variant holds. *)
Definition variant (o : ParameterOrder) : N := match o with Missing => 0 | Number _ => 1 | NotANumber _ => 2 end.
Definition compare_parameter_order (a b : ParameterOrder) : comparison :=
  match a, b with
  | Number n, Number m => N.compare n m
  | NotANumber s, NotANumber t => String.compare s t
  | _, _ => N.compare (variant a) (variant b)
  end.

Definition compare_measurements (a b : Measurement) : comparison :=
  then_with (then_with (String.compare (group a) (group b))
                       (compare_parameter_order (parameter_order a) (parameter_order b)))
            (String.compare (framework a) (framework b)).

Definition read_measurements (input : PathBuf) : result (list Measurement) Error :=
  let? directories := with_context ("walking " ++ display input) (collect_sample_directories input) in
  let? measurements := collect_results (read_measurement <$> directories) in
  Ok (sort_by compare_measurements measurements).
End Reading.

(** ** Metadata *)

(** A [BTreeMap] of strings: its entries in the order of their keys. *)
Definition BTreeMap := list (string * string).
Fixpoint btree_insert (k v : string) (m : BTreeMap) : BTreeMap :=
  match m with
  | [] => [(k, v)]
  | (k', v') :: m' =>
      match String.compare k k' with
      | Lt => (k, v) :: m
      | Eq => (k', v) :: m'
      | Gt => (k', v') :: btree_insert k v m'
      end
  end.
Fixpoint btree_get (k : string) (m : BTreeMap) : option string :=
  match m with [] => None | (k', v) :: m => if decide (k = k') then Some v else btree_get k m end.

Definition PACKAGES : list string := ["kameo"; "ractor"; "tellus"].

(** The loop over the lines of the lock file: the versions so far, and the name which waits for its version. *)
Definition read_line (st : BTreeMap * option string) (line : string) : BTreeMap * option string :=
  let '(versions, name) := st in
  match strip_prefix "name = " line with
  | Some value => (versions, Some (trim_matches QUOTE value))
  | None =>
      match strip_prefix "version = " line, name with
      | Some value, Some name =>
          (if decide (name ∈ PACKAGES) then btree_insert name (trim_matches QUOTE value) versions else versions, None)
      | _, _ => st
      end
  end.

Definition read_versions (path : PathBuf) : result BTreeMap Error :=
  let? lock := with_context ("reading " ++ display path) (read_to_string path) in
  let versions := (foldl read_line ([] : BTreeMap, None) (lines lock)).1 in
  let missing := filter (λ package, btree_get package versions = None) PACKAGES in
  match missing with
  | [] => Ok versions
  | _ :: _ => bail ("no version in " ++ display path ++ " for " ++ join ", " missing)
  end.

Definition model_name (text : string) : option string :=
  line ← find (λ line, starts_with "model name" (to_lowercase line)) (lines text);
  '(_, model) ← split_once ":" line;
  let model := trim model in
  if decide (model ≠ "" ∧ model ≠ "-") then Some model else None.

(** What a process which has run leaves. *)
Record Output := mk_output { success : bool; status : string; stdout : result string string }.

(** The process around the report: its environment variables, the programs it runs, its processors. *)
Class Process := {
  env_var : string → option string;
  output : string → list string → result Output string;
  available_parallelism : option N;
  proc_cpuinfo : result string string;
}.

Record Metadata := mk_metadata {
  tag : string;
  commit : option string;
  date : option string;
  os : option string;
  cpu : option string;
  cores : option N;
  rustc : option string;
  versions : BTreeMap;
}.

Definition or_none (value : result string Error) : option string := ok value.

Section Process.
Context {P : Process}.

Definition run (program : string) (args : list string) : result string Error :=
  let? output := with_context ("running " ++ program) (map_err (λ e, [e]) (output program args)) in
  if negb (success output) then bail (program ++ " exited with " ++ status output)
  else
    let? stdout := with_context (program ++ " stdout as UTF-8") (map_err (λ e, [e]) (stdout output)) in
    Ok (trim stdout).

Definition read_cpu : option string :=
  match (cpuinfo ← ok proc_cpuinfo; model_name cpuinfo) with
  | Some model => Some model
  | None => or_none (let? lscpu := run "lscpu" [] in ok_or ["model name in lscpu output"] (model_name lscpu))
  end.

Definition read_metadata (lock : PathBuf) (tag : string) : result Metadata Error :=
  let commit :=
    or_none match env_var "GITHUB_SHA" with Some sha => Ok sha | None => run "git" ["rev-parse"; "HEAD"] end in
  let date := or_none (run "date" ["-u"; "+%Y-%m-%dT%H:%M:%SZ"]) in
  let os := or_none (run "uname" ["-sr"]) in
  let cpu := read_cpu in
  let rustc := or_none (run "rustc" ["--version"]) in
  let? versions := read_versions lock in
  Ok (mk_metadata tag commit date os cpu available_parallelism rustc versions).

(** ** Arguments *)

Record Args := mk_args { args_input : string; args_output : string; args_tag : string }.

Fixpoint parse_args (acc : Args) (args : list string) : result Args Error :=
  match args with
  | [] => Ok acc
  | arg :: rest =>
      if decide (arg ∈ ["--input"; "--output"; "--tag"]) then
        match rest with
        | [] => bail ("value for " ++ arg)
        | value :: rest =>
            parse_args
              (if decide (arg = "--input") then mk_args value (args_output acc) (args_tag acc)
               else if decide (arg = "--output") then mk_args (args_input acc) value (args_tag acc)
               else mk_args (args_input acc) (args_output acc) value) rest
        end
      else bail ("unexpected argument " ++ arg)
  end.

Definition from_env (workspace : string) (args : list string) : result Args Error :=
  parse_args
    (mk_args (workspace ++ "/target/criterion-comparison") (workspace ++ "/target/comparison-report")
       (match env_var "GITHUB_REF_NAME" with Some tag => tag | None => "local" end)) args.
End Process.

(** ** The page *)

Record Report := mk_report { metadata : Metadata; measurements : list Measurement }.

Definition or_unknown (value : option string) : string := match value with Some value => value | None => "unknown" end.

Definition escape (value : string) : string :=
  replace ">" "&gt;" (replace "<" "&lt;" (replace "&" "&amp;" value)).

(** Literals with backquotes for the quotes. *)
Definition quoted : string → string := replace "`" (String QUOTE "").

Definition render_row (fastest : f64) (m : Measurement) : string :=
  let relative := if f64_lt (f64_of 0 0) fastest then f64_div (elements_per_second m) fastest else f64_of 0 0 in
  let width := f64_mul relative (f64_of 100 0) in
  quoted "<tr><td>" ++ escape (framework m) ++
  quoted "</td><td class=`num`>" ++ format_fixed 3 (f64_div (mean_ns m) (f64_of 1000000 0)) ++
  quoted " ms</td><td class=`num`>" ++ format_fixed 2 (f64_div (elements_per_second m) (f64_of 1000000 0)) ++
  quoted " M/s</td><td class=`num`>" ++ format_fixed 2 relative ++
  quoted "x</td><td class=`barcell`><span class=`bar` style=`width:" ++ format_fixed 1 width ++
  quoted "%`></span></td></tr>".

Definition fastest (measurements : list Measurement) : f64 :=
  foldl f64_max (f64_of 0 0) (elements_per_second <$> measurements).

Definition render_section (group : string) (parameter : option string) (measurements : list Measurement) : string :=
  let heading := match parameter with Some parameter => group ++ " (" ++ parameter ++ ")" | None => group end in
  let rows := concat_strings (render_row (fastest measurements) <$> measurements) in
  quoted "<h2>" ++ escape heading ++ quoted "</h2>
<div class=`scroll`><table>
<thead><tr><th>Framework</th><th class=`num`>Time</th><th class=`num`>Throughput</th><th class=`num`>vs fastest</th><th></th></tr></thead>
<tbody>" ++ rows ++ quoted "</tbody>
</table></div>
".

(** [measurements[0]] exists: no chunk is empty. *)
Definition render_chunk (measurements : list Measurement) : string :=
  match measurements with
  | first :: _ => render_section (group first) (parameter first) measurements
  | [] => ""
  end.

Definition sections_of (measurements : list Measurement) : list (list Measurement) := chunk_by (same_key key) measurements.

Definition render_page (tag commit date versions cpu cores os rustc sections : string) : string :=
  quoted "<!doctype html>
<html lang=`en`>
<head>
<meta charset=`utf-8`>
<meta name=`viewport` content=`width=device-width, initial-scale=1`>
<title>tellus comparison benchmarks (" ++
  tag ++
  quoted ")</title>
<style>
:root { color-scheme: light dark; --fg: #111; --muted: #555; --bg: #fff; --line: #ddd; --bar: #4f7cff; --warn-bg: #fff8e1; --warn-line: #e6c200; }
@media (prefers-color-scheme: dark) {
  :root { --fg: #e6e6e6; --muted: #a0a0a0; --bg: #14161a; --line: #333; --bar: #6d92ff; --warn-bg: #2a2413; --warn-line: #7a6a1a; }
}
* { box-sizing: border-box; }
body { margin: 0 auto; padding: 2rem 1rem; max-width: 60rem; background: var(--bg); color: var(--fg);
  font: 16px/1.6 system-ui, -apple-system, Segoe UI, Roboto, sans-serif; }
h1 { font-size: 1.6rem; margin: 0 0 .25rem; }
h2 { font-size: 1.15rem; margin: 2.5rem 0 .75rem; }
a { color: inherit; }
.sub { color: var(--muted); margin: 0 0 1.5rem; }
.meta { display: grid; grid-template-columns: max-content 1fr; gap: .25rem 1rem; padding: 1rem;
  border: 1px solid var(--line); border-radius: 8px; font-size: .9rem; }
.meta dt { color: var(--muted); }
.meta dd { margin: 0; overflow-wrap: anywhere; }
.caveats { margin: 1.5rem 0; padding: 1rem 1rem 1rem 1.25rem; background: var(--warn-bg);
  border-left: 4px solid var(--warn-line); border-radius: 4px; font-size: .92rem; }
.caveats h2 { margin: 0 0 .5rem; font-size: 1rem; }
.caveats ol { margin: 0; padding-left: 1.1rem; }
.caveats li { margin: .4rem 0; }
.scroll { overflow-x: auto; }
table { border-collapse: collapse; width: 100%; font-size: .92rem; }
th, td { text-align: left; padding: .45rem .6rem; border-bottom: 1px solid var(--line); white-space: nowrap; }
th { color: var(--muted); font-weight: 600; }
td.num { text-align: right; font-variant-numeric: tabular-nums; }
.bar { display: block; height: .55rem; background: var(--bar); border-radius: 3px; min-width: 2px; }
td.barcell { width: 40%; }
footer { margin-top: 3rem; color: var(--muted); font-size: .85rem; }
</style>
</head>
<body>
<h1>tellus comparison benchmarks</h1>
<p class=`sub`>Messaging throughput of <strong>tellus</strong> against kameo and ractor, higher is better.</p>

<dl class=`meta`>
<dt>Tag</dt><dd>" ++
  tag ++
  quoted "</dd>
<dt>Commit</dt><dd>" ++
  commit ++
  quoted "</dd>
<dt>Date</dt><dd>" ++
  date ++
  quoted "</dd>
<dt>Versions</dt><dd>" ++
  versions ++
  quoted "</dd>
<dt>CPU</dt><dd>" ++
  cpu ++
  quoted " (" ++
  cores ++
  quoted " cores)</dd>
<dt>OS</dt><dd>" ++
  os ++
  quoted "</dd>
<dt>Toolchain</dt><dd>" ++
  rustc ++
  quoted "</dd>
</dl>

<div class=`caveats`>
<h2>Read this before drawing conclusions</h2>
<ol>
<li><strong>tellus's <code>receive</code> is synchronous; kameo's and ractor's handlers are <code>async fn</code>.</strong>
tellus therefore avoids allocating and polling a future per message, but cannot await inside <code>receive</code>.
This is a capability difference, not only a speed difference, and it favours tellus on exactly these microbenchmarks.</li>
<li><strong>tellus's mailbox is statically typed; the others erase message types</strong>, costing an allocation
and a dynamic dispatch per message that tellus does not pay.</li>
<li><strong>Competitors are configured for speed, not defaults.</strong> kameo runs without <code>tracing</code>
and ractor without <code>message_span_propogation</code>, both of which add per-message instrumentation that
tellus has no equivalent of. This biases the setup in the competitors' favour.</li>
<li><strong>Messaging microbenchmarks only.</strong> Nothing here speaks to supervision, distribution,
ergonomics, memory use or production readiness. kameo and ractor are mature, feature-rich frameworks; tellus is
under active development and does far less.</li>
<li><strong>On CI these run on a shared 2-core runner</strong>, so absolute figures are not representative of real
deployments. Only the relative comparison within a single run is meaningful.</li>
<li><strong>Written and run by tellus's maintainer.</strong> The full methodology and benchmark source are in the
repository; corrections are welcome.</li>
</ol>
</div>
" ++
  sections ++
  quoted "
<footer>
Generated from criterion results. See the
<a href=`../../dev/bench/`>tellus regression benchmarks</a> for throughput over time.
</footer>
</body>
</html>
".

Definition render_html (report : Report) : string :=
  let sections := concat_strings (render_chunk <$> sections_of (measurements report)) in
  let metadata := metadata report in
  let versions := join ", " ((λ '(name, version), name ++ " " ++ version) <$> versions metadata) in
  render_page (escape (tag metadata)) (escape (or_unknown (commit metadata))) (escape (or_unknown (date metadata)))
    (escape versions) (escape (or_unknown (cpu metadata)))
    (match cores metadata with Some cores => pretty cores | None => "unknown" end)
    (escape (or_unknown (os metadata))) (escape (or_unknown (rustc metadata))) sections.

(** What [main] renders, and writes as JSON too. *)
Definition make_report `{SerdeJson, Process} (path : string → PathBuf) (lock : PathBuf) (args : Args) : result Report Error :=
  let? measurements := read_measurements (path (args_input args)) in
  match measurements with
  | [] => bail ("no criterion results below " ++ display (path (args_input args)))
  | _ :: _ =>
      let? metadata := read_metadata lock (args_tag args) in
      Ok (mk_report metadata measurements)
  end.
