(* ===== verification/ReportSpec.v ===== *)
(** What the report of the comparison benchmarks shows: the samples below a directory, all of them; one section for each
    benchmark; and a page whose markup no text of the results can change. *)
From stdpp Require Import strings sorting pretty.
From Stdlib Require Import Strings.String Strings.Ascii.
From S2P Require Import Prelude Floats Text Orderings Report.

#[local] Open Scope string_scope.
#[local] Arguments String.append : simpl nomatch.

(** ** Samples *)

(** The directories with a sample below a tree, each at its place, the indices of the entries which lead to it: those
    which are none themselves are searched. *)
Inductive Sample : string → Tree → list nat → PathBuf → Prop :=
  | sample_here path entries i name child :
      entries !! i = Some (Ok (name, child)) → is_dir child = true → is_sample name (mk_path (path ++ "/" ++ name) (Some child)) = true →
      Sample path (Dir None entries) [i] (mk_path (path ++ "/" ++ name) (Some child))
  | sample_below path entries i name child place found :
      entries !! i = Some (Ok (name, child)) → is_dir child = true → is_sample name (mk_path (path ++ "/" ++ name) (Some child)) = false →
      Sample (path ++ "/" ++ name) child place found → Sample path (Dir None entries) (i :: place) found.

(** Whether everything searched can be read. *)
Inductive Readable : string → Tree → Prop :=
  | readable_file path contents : Readable path (File contents)
  | readable_dir path entries :
      (∀ entry, entry ∈ entries → ∃ name child, entry = Ok (name, child) ∧
         (is_dir child = true → is_sample name (mk_path (path ++ "/" ++ name) (Some child)) = false → Readable (path ++ "/" ++ name) child)) →
      Readable path (Dir None entries).

(** The entries of one directory. *)
Definition found_at (path name : string) (child : Tree) : result (list PathBuf) Error :=
  if negb (is_dir child) then Ok []
  else if is_sample name (mk_path (path ++ "/" ++ name) (Some child)) then Ok [mk_path (path ++ "/" ++ name) (Some child)]
  else collect_below (path ++ "/" ++ name) child.
Fixpoint collect_entries (path : string) (entries : list (result (string * Tree) string)) : result (list (list PathBuf)) Error :=
  match entries with
  | [] => Ok []
  | Err error :: _ => Err ["entry below " ++ path; error]
  | Ok (name, child) :: entries =>
      let? found := found_at path name child in let? rest := collect_entries path entries in Ok (found :: rest)
  end.

Lemma collect_below_dir path entries :
  collect_below path (Dir None entries) = let? collected := collect_entries path entries in Ok (concat collected).
Proof.
  simpl. f_equal. induction entries as [|[[name child]|error] entries IH]; [done| |done].
  simpl. unfold found_at. rewrite IH. done.
Qed.

(** Induction over trees. *)
Fixpoint size_of (t : Tree) : nat :=
  match t with
  | File _ => 1
  | Dir _ entries =>
      S ((fix sum entries := match entries with [] => 0%nat | Ok (_, child) :: entries => (size_of child + sum entries)%nat | Err _ :: entries => sum entries end) entries)
  end.
Lemma size_of_child error entries name child : Ok (name, child) ∈ entries → (size_of child < size_of (Dir error entries))%nat.
Proof.
  intros Hin. simpl. induction entries as [|e entries IH]; [by apply elem_of_nil in Hin|].
  apply elem_of_cons in Hin as [<-|Hin]; [lia|]. specialize (IH Hin). destruct e as [[? ?]|]; lia.
Qed.

Lemma collect_entries_ok path entries :
  (∃ collected, collect_entries path entries = Ok collected) ↔
  ∀ entry, entry ∈ entries → ∃ name child l, entry = Ok (name, child) ∧ found_at path name child = Ok l.
Proof.
  induction entries as [|[[name child]|error] entries IH]; simpl.
  - split; [by intros _ ? ?%elem_of_nil|by exists []].
  - split.
    + intros (collected & (l & Hl & (rest & Hrest & _)%result_bind_Ok)%result_bind_Ok) entry [->|Hin]%elem_of_cons; [by exists name, child, l|].
      apply (proj1 IH); [by exists rest|done].
    + intros Hall. destruct (Hall (Ok (name, child))) as (n & c & l & [= <- <-] & ->); [by left|].
      destruct (proj2 IH) as [rest ->]; [|by exists (l :: rest)]. intros entry Hin. apply Hall. by right.
  - split; [by intros (? & ?)|]. intros Hall. destruct (Hall (Err error)) as (? & ? & ? & [=] & _). by left.
Qed.


Lemma tree_nested_ind (P : Tree → Prop) :
  (∀ contents, P (File contents)) →
  (∀ error entries, (∀ name child, Ok (name, child) ∈ entries → P child) → P (Dir error entries)) → ∀ t, P t.
Proof.
  intros Hfile Hdir t. assert (∀ n t, (size_of t < n)%nat → P t) as Hall; [|apply (Hall (S (size_of t))); lia].
  induction n as [|n IH]; intros [contents|error entries] Hn; try lia; [done|]. apply Hdir. intros name child Hin. apply IH.
  pose proof (size_of_child error _ _ _ Hin). lia.
Qed.

(** What is collected are the samples below, all of them, each once. *)
Definition each_once (at_ : list nat → PathBuf → Prop) (ds : list PathBuf) : Prop :=
  ∃ places, NoDup places ∧ (∀ place, place ∈ places ↔ ∃ d, at_ place d) ∧ Forall2 at_ places ds.

(** The samples at one entry. *)
Definition entry_sample path name child place d : Prop := is_dir child = true ∧
  let p := mk_path (path ++ "/" ++ name) (Some child) in
  if is_sample name p then place = [] ∧ d = p else Sample (path ++ "/" ++ name) child place d.

Lemma sample_entry path entries place d :
  Sample path (Dir None entries) place d ↔
  ∃ i rest name child, place = i :: rest ∧ entries !! i = Some (Ok (name, child)) ∧ entry_sample path name child rest d.
Proof.
  unfold entry_sample. split.
  - inversion 1 as [? ? i name child Hi Hdir His|? ? i name child rest ? Hi Hdir His Hs]; subst; eexists _, _, _, _; by rewrite His.
  - intros (i & rest & name & child & -> & Hi & Hdir & Hs). destruct (is_sample name _) eqn:His; [|by eapply sample_below].
    destruct Hs as [-> ->]. by eapply sample_here.
Qed.

Lemma found_each_once path name child l :
  (∀ path ds, collect_below path child = Ok ds → each_once (Sample path child) ds) →
  found_at path name child = Ok l → each_once (entry_sample path name child) l.
Proof.
  unfold found_at, entry_sample. intros IH Hl. destruct (is_dir child); simpl in Hl.
  - destruct (is_sample name _).
    + injection Hl as <-. exists [[]]. split_and!; [apply NoDup_singleton| |by repeat constructor].
      intros place. rewrite list_elem_of_singleton. naive_solver.
    + destruct (IH _ _ Hl) as (places & Hnd & Hall & Hds). exists places. split_and!; [done| |].
      * intros place. rewrite Hall. naive_solver.
      * by eapply Forall2_impl.
  - injection Hl as <-. exists []. split_and!; [constructor| |constructor]. intros place. rewrite elem_of_nil. naive_solver.
Qed.

(** Places of later entries. *)
Definition later (place : list nat) : list nat := match place with i :: rest => S i :: rest | [] => [] end.

Lemma entries_each_once path entries collected :
  (∀ name child, Ok (name, child) ∈ entries → ∀ path ds, collect_below path child = Ok ds → each_once (Sample path child) ds) →
  collect_entries path entries = Ok collected → each_once (Sample path (Dir None entries)) (concat collected).
Proof.
  revert collected. induction entries as [|[[name child]|error] entries IH]; intros collected Hchild Hc; simpl in Hc; [| |done].
  - injection Hc as <-. exists []. split_and!; [constructor| |constructor]. intros place. rewrite elem_of_nil.
    split; [done|]. intros (d & (i & rest & n & c & _ & Hi & _)%sample_entry). by destruct i.
  - apply result_bind_Ok in Hc as (l & Hl & (rest & Hrest & [= <-])%result_bind_Ok). simpl.
    destruct (found_each_once path name child l (Hchild name child (list_elem_of_here _ _)) Hl) as (ps & Hnd & Hall & Hds).
    destruct (IH rest) as (qs & Hnd' & Hall' & Hds'); [intros n c Hin; apply (Hchild n c); by right|done|].
    assert (∀ q, q ∈ qs → ∃ i q', q = i :: q') as Hcons.
    { intros q [d (i & q' & ? & ? & -> & _)%sample_entry]%Hall'. by eexists _, _. }
    exists ((cons 0%nat <$> ps) ++ (later <$> qs))%list. split_and!.
    + apply NoDup_app. split_and!; [by apply NoDup_fmap_2; [intros ? ? [=]|]| |].
      * intros place (p & -> & _)%list_elem_of_fmap (q & Heq & Hq)%list_elem_of_fmap. by destruct (Hcons q Hq) as (i & q' & ->).
      * apply NoDup_fmap_2_strong; [|done]. intros q1 q2 H1 H2 Heq. destruct (Hcons _ H1) as (? & ? & ->), (Hcons _ H2) as (? & ? & ->).
        by injection Heq as -> ->.
    + intros place. rewrite elem_of_app, !list_elem_of_fmap. split.
      * intros [(p & -> & [d Hd]%Hall)|(q & -> & [d (i & q' & n & c & -> & Hi & Hd)%sample_entry]%Hall')]; exists d; apply sample_entry;
          by eexists _, _, _, _.
      * intros (d & ([|i] & p & n & c & -> & Hi & Hd)%sample_entry); simpl in Hi.
        -- left. injection Hi as <- <-. exists p. split; [done|]. apply Hall. by exists d.
        -- right. exists (i :: p). split; [done|]. apply Hall'. exists d. apply sample_entry. by eexists _, _, _, _.
    + apply Forall2_app; rewrite Forall2_fmap_l.
      * eapply Forall2_impl; [exact Hds|]. intros p d Hd. apply sample_entry. by exists 0%nat, p, name, child.
      * eapply Forall2_impl; [exact Hds'|]. intros q d (i & q' & n & c & -> & Hi & Hd)%sample_entry. apply sample_entry.
        by exists (S i), q', n, c.
Qed.

Lemma collect_finds_the_samples t : ∀ path ds, collect_below path t = Ok ds → each_once (Sample path t) ds.
Proof.
  induction t as [contents|error entries IH] using tree_nested_ind; intros path ds Hc.
  - injection Hc as <-. exists []. split_and!; [constructor| |constructor]. intros place. rewrite elem_of_nil.
    split; [done|]. intros [d Hd]. inversion Hd.
  - destruct error as [error|]; [done|]. rewrite collect_below_dir in Hc. apply result_bind_Ok in Hc as (collected & Hc & [= <-]).
    by apply entries_each_once.
Qed.

(** It is collected exactly if everything searched can be read. *)
Lemma collect_reads_everything t : ∀ path, (∃ ds, collect_below path t = Ok ds) ↔ Readable path t.
Proof.
  induction t as [contents|error entries IH] using tree_nested_ind; intros path.
  - split; [constructor|by exists []].
  - destruct error as [error|]; [split; [by intros [? ?]|inversion 1]|]. rewrite collect_below_dir.
    trans (∃ collected, collect_entries path entries = Ok collected).
    { split; [intros (ds & (c & Hc & _)%result_bind_Ok); by exists c|intros [c ->]; by exists (concat c)]. }
    rewrite collect_entries_ok. split.
    + intros Hall. constructor. intros entry Hin. destruct (Hall entry Hin) as (name & child & l & -> & Hl). exists name, child. split; [done|].
      intros Hdir His. unfold found_at in Hl. rewrite Hdir, His in Hl. apply (IH name child Hin). by exists l.
    + intros Hr entry Hin. inversion Hr as [|? ? Hall]; subst. destruct (Hall entry Hin) as (name & child & -> & Hchild). exists name, child.
      unfold found_at. destruct (is_dir child) eqn:Hdir; simpl; [|by eexists]. destruct (is_sample name _) eqn:His; [by eexists|].
      destruct (proj2 (IH name child Hin _) (Hchild eq_refl eq_refl)) as [l Hl]. by exists l.
Qed.

(** ** Sections *)

#[export] Instance parameter_ordering : Ordering compare_parameter_order.
Proof.
  split.
  - intros [|n|s] [|m|t]; try done; [apply N.compare_antisym|apply String.compare_antisym].
  - intros [|n|s] [|m|t] [|k|u]; try done; simpl; [apply (ordering_trans (cmp:=N.compare))|apply (ordering_trans (cmp:=String.compare))].
Qed.
Lemma compare_parameter_order_eq a b : compare_parameter_order a b = Eq ↔ a = b.
Proof.
  destruct a as [|n|s], b as [|m|t]; simpl; try done; [rewrite N.compare_eq_iff|rewrite string_compare_eq]; naive_solver.
Qed.

(** By the group and the order of the parameter, and by the framework within those. *)
Definition compare_keys (a b : Measurement) : comparison :=
  then_with (String.compare (group a) (group b)) (compare_parameter_order (parameter_order a) (parameter_order b)).
#[export] Instance keys_ordering : Ordering compare_keys := _.
#[export] Instance measurements_ordering : Ordering compare_measurements :=
  then_ordering compare_keys (λ a b, String.compare (framework a) (framework b)) _ _.

Lemma compare_keys_eq a b : compare_keys a b = Eq ↔ group a = group b ∧ parameter_order a = parameter_order b.
Proof.
  unfold compare_keys. destruct (String.compare (group a) (group b)) eqn:Hg; simpl.
  - apply string_compare_eq in Hg. rewrite compare_parameter_order_eq. naive_solver.
  - split; [done|]. intros [Hn%string_compare_eq _]. congruence.
  - split; [done|]. intros [Hn%string_compare_eq _]. congruence.
Qed.
Lemma compare_measurements_keys a b : cmp_le compare_measurements a b → cmp_le compare_keys a b.
Proof. unfold cmp_le, compare_measurements. fold (compare_keys a b). by destruct (compare_keys a b). Qed.

(** No two parameters of a group are the same number in different digits. *)
Definition unambiguous (ms : list Measurement) : Prop :=
  ∀ a b, a ∈ ms → b ∈ ms → group a = group b → parameter_order a = parameter_order b → parameter a = parameter b.

Lemma sorted_grouped ms :
  unambiguous ms → StronglySorted (cmp_le compare_measurements) ms → grouped key ms.
Proof.
  intros Hu Hs l1 x l2 y l3 -> Hxy z Hz. apply StronglySorted_app in Hs as (_ & _ & Hs).
  apply StronglySorted_cons in Hs as [Hx Hs]. apply StronglySorted_app in Hs as (Hzy & _ & _).
  rewrite Forall_forall in Hx. assert (cmp_le compare_keys x z) as Hxz by (apply compare_measurements_keys, Hx; set_solver).
  assert (cmp_le compare_keys z y) as Hzy' by (apply compare_measurements_keys, Hzy; set_solver).
  assert (compare_keys x y = Eq) as He.
  { apply compare_keys_eq. injection Hxy as Hg Hp. split; [done|]. unfold parameter_order. by rewrite Hp. }
  unfold cmp_le in *. rewrite <-(ordering_eq_r (cmp:=compare_keys) _ _ z He), (ordering_antisym (cmp:=compare_keys) x z) in Hzy'.
  assert (compare_keys x z = Eq) as [Hg Hp]%compare_keys_eq by (by destruct (compare_keys x z)).
  unfold key. rewrite Hg. f_equal. symmetry. apply Hu; set_solver.
Qed.

Lemma collect_results_all {T E} (f : T → result Measurement E) l read :
  collect_results (f <$> l) = Ok read → Forall2 (λ d m, f d = Ok m) l read.
Proof.
  revert read. induction l as [|d l IH]; intros read Hr; simpl in Hr; [by injection Hr as <-|].
  apply result_bind_Ok in Hr as (m & Hm & (rest & Hrest & [= <-])%result_bind_Ok). constructor; [done|by apply IH].
Qed.

(** Within a section only the framework decides. *)
Lemma section_sorted ms k :
  StronglySorted (cmp_le compare_measurements) ms →
  StronglySorted (λ a b, String.compare (framework a) (framework b) ≠ Gt) (filter (λ m, key m = k) ms).
Proof.
  induction ms as [|m ms IH]; intros Hs; [constructor|]. apply StronglySorted_cons in Hs as [Hm Hs].
  rewrite filter_cons. case_decide as Hk; [|by apply IH]. apply StronglySorted_cons. split; [|by apply IH].
  apply Forall_forall. intros m' [Hk' Hin]%list_elem_of_filter. rewrite Forall_forall in Hm. specialize (Hm m' Hin).
  unfold cmp_le, compare_measurements in Hm. fold (compare_keys m m') in Hm.
  rewrite (proj2 (compare_keys_eq m m')) in Hm; [done|]. rewrite <-Hk in Hk'. injection Hk' as Hg Hp.
  split; [done|]. unfold parameter_order. by rewrite Hp.
Qed.

(** C36. Every benchmark has its section. What has been read is one measurement for each directory with a sample, each of
    them once, and unless two parameters of a group are the same number in different digits, no two sections of the page are about
    the same group and parameter, and each shows all measurements of these, in the order of the frameworks. *)
Theorem every_benchmark_has_its_section `{SerdeJson} input t ms :
  node input = Some t → read_measurements input = Ok ms →
  (∃ places ds read, NoDup places ∧ (∀ place, place ∈ places ↔ ∃ d, Sample (display input) t place d) ∧
     Forall2 (Sample (display input) t) places ds ∧ Forall2 (λ d m, read_measurement d = Ok m) ds read ∧ ms ≡ₚ read) ∧
  concat (sections_of ms) = ms ∧
  (unambiguous ms →
     NoDup (sections_of ms ≫= λ section, take 1 (key <$> section)) ∧
     ∀ section m, section ∈ sections_of ms → m ∈ section →
       section = filter (λ m', key m' = key m) ms ∧
       StronglySorted (λ a b, String.compare (framework a) (framework b) ≠ Gt) section).
Proof.
  intros Ht Hread. unfold read_measurements, collect_sample_directories in Hread. rewrite Ht in Hread.
  destruct (collect_below (display input) t) as [ds|] eqn:Hds; [|done]. simpl in Hread.
  apply result_bind_Ok in Hread as (read & Hread & [= <-]). split_and!.
  - destruct (collect_finds_the_samples _ _ _ Hds) as (places & Hnd & Hall & Hat). exists places, ds, read.
    split_and!; [done..|by apply collect_results_all|apply sort_by_perm].
  - apply chunk_by_concat.
  - intros Hu. pose proof (sort_by_sorted compare_measurements read) as Hs.
    destruct (chunk_by_grouped key _ (sorted_grouped _ Hu Hs)) as [Hnd Hall]. split; [done|].
    intros section m Hin Hm. pose proof (Hall section m Hin Hm) as Hf. split; [done|]. rewrite Hf. clear Hf Hall Hnd Hin Hm.
    by apply section_sorted.
Qed.

(** What else may happen: three measurements make three sections of two parameters. *)
Definition ambiguous_measurements : list Measurement :=
  (λ '(framework, parameter), mk_measurement "ask" framework (Some parameter) 1 (f64_of 1 0) (f64_of 1 0) (f64_of 1 0) (f64_of 1 0)) <$>
    [("kameo", "1"); ("ractor", "01"); ("tellus", "1")].
Example ambiguous_parameters_split_sections :
  sort_by compare_measurements ambiguous_measurements = ambiguous_measurements ∧
  sections_of ambiguous_measurements = (λ m, [m]) <$> ambiguous_measurements.
Proof. split; reflexivity. Qed.

(** Parameters which are the digits of numbers, as those of the benchmarks are, are unambiguous. *)
Lemma numbers_are_unambiguous ms :
  (∀ m, m ∈ ms → ∃ n, (n ≤ U64_MAX)%N ∧ parameter m = Some (pretty n)) → unambiguous ms.
Proof.
  intros Hn a b Ha Hb _. destruct (Hn a Ha) as (n & Hle & Hp), (Hn b Hb) as (k & Hle' & Hp').
  unfold parameter_order. rewrite Hp, Hp', !parse_pretty by done. by intros [= ->].
Qed.

(** ** Escaping *)

Fixpoint unescape (s : string) : string :=
  match s with
  | String "&" (String "a" (String "m" (String "p" (String ";" s)))) => String "&" (unescape s)
  | String "&" (String "l" (String "t" (String ";" s))) => String "<" (unescape s)
  | String "&" (String "g" (String "t" (String ";" s))) => String ">" (unescape s)
  | String c s => String c (unescape s)
  | "" => ""
  end.

Definition escape_char (c : ascii) : string :=
  if decide (c = "&"%char) then "&amp;" else if decide (c = "<"%char) then "&lt;" else if decide (c = ">"%char) then "&gt;" else String c "".

Lemma escape_cons c s : escape (String c s) = escape_char c ++ escape s.
Proof.
  change (String c s) with (String c "" ++ s). unfold escape. rewrite !replace_app. f_equal. unfold escape_char.
  destruct (decide (c = "&"%char)) as [->|H1]; [done|]. simpl. rewrite (decide_False (P:=c = "&"%char)) by done.
  simpl. destruct (decide (c = "<"%char)) as [->|H2]; [done|]. simpl. by destruct (decide (c = ">"%char)) as [->|H3].
Qed.

Lemma unescape_other c s : c ≠ "&"%char → unescape (String c s) = String c (unescape s).
Proof. intros Hc. destruct c as [[] [] [] [] [] [] [] []]; try reflexivity. by destruct Hc. Qed.

Lemma unescape_escape s : unescape (escape s) = s.
Proof.
  induction s as [|c s IH]; [done|]. rewrite escape_cons. unfold escape_char.
  repeat case_decide; subst; [by simpl; rewrite IH..|].
  change (String c "" ++ escape s) with (String c (escape s)). by rewrite unescape_other, IH.
Qed.

(** Text without angle brackets. *)
Definition inert (s : string) : Prop := free ["<"; ">"]%char s.

Lemma escape_inert s : inert (escape s).
Proof.
  unfold inert. induction s as [|c s IH]; [done|]. rewrite escape_cons, free_app. split; [|done]. unfold escape_char.
  repeat case_decide; simpl; split_and?; set_solver.
Qed.

(** ** Markup *)

(** What of a page is in its tags, starting in a tag or not, and whether the end is in one. *)
Fixpoint markup (in_tag : bool) (s : string) : string :=
  match s with
  | "" => ""
  | String c s =>
      if in_tag then String c (markup (negb (bool_decide (c = ">"%char))) s)
      else if decide (c = "<"%char) then String c (markup true s) else markup false s
  end.
Fixpoint ends_in_tag (in_tag : bool) (s : string) : bool :=
  match s with
  | "" => in_tag
  | String c s => ends_in_tag (if in_tag then negb (bool_decide (c = ">"%char)) else bool_decide (c = "<"%char)) s
  end.

Lemma markup_app b s t : markup b (s ++ t) = markup b s ++ markup (ends_in_tag b s) t.
Proof.
  revert b. induction s as [|c s IH]; intros b; [done|]. simpl. destruct b; rewrite ?IH; [done|].
  case_decide; [rewrite bool_decide_eq_true_2 by done|rewrite bool_decide_eq_false_2 by done]; done.
Qed.
Lemma ends_in_tag_app b s t : ends_in_tag b (s ++ t) = ends_in_tag (ends_in_tag b s) t.
Proof. revert b. induction s as [|c s IH]; intros b; [done|]. apply IH. Qed.

Lemma inert_markup s : inert s → markup false s = "" ∧ ends_in_tag false s = false.
Proof.
  induction s as [|c s IH]; [done|]. intros [Hc Hs]. simpl. rewrite decide_False by (intros ->; set_solver).
  rewrite bool_decide_eq_false_2 by (intros ->; set_solver). by apply IH.
Qed.
Lemma inert_ends s b : inert s → ends_in_tag b s = b.
Proof.
  revert b. induction s as [|c s IH]; [done|]. intros b [Hc Hs]. simpl.
  rewrite !bool_decide_eq_false_2 by (intros ->; set_solver). destruct b; by apply IH.
Qed.

Lemma pretty_char_inert d s : (d < 10)%N → inert s → inert (String (pretty_N_char d) s).
Proof.
  intros Hd Hs. split; [|done]. assert (d ∈ [0; 1; 2; 3; 4; 5; 6; 7; 8; 9]%N) as Hin by (rewrite !elem_of_cons; lia).
  repeat (apply elem_of_cons in Hin as [->|Hin]; [set_solver|]). by apply elem_of_nil in Hin.
Qed.
Lemma pretty_inert (n : N) : inert (pretty n).
Proof.
  unfold pretty, pretty_N. case_decide; [by split; [set_solver|]|]. assert (inert "") as Hs by done. revert Hs. generalize "" as s.
  induction (N.lt_wf_0 n) as [n _ IH]. intros s Hs. destruct (decide (n = 0%N)) as [->|Hn]; [by rewrite pretty_N_go_0|].
  rewrite pretty_N_go_step by lia.
  assert (inert (String (pretty_N_char (n `mod` 10)) s)) as Hs' by (apply pretty_char_inert; [apply N.mod_lt; lia|done]).
  destruct (decide (n `div` 10 = 0)%N) as [->|Hd]; [by rewrite pretty_N_go_0|]. apply IH; [apply N.div_lt; lia|done|done].
Qed.
Lemma fixed_digits_inert k n : inert (fixed_digits k n).
Proof. induction k as [|k IH]; [done|]. apply pretty_char_inert; [apply N.mod_lt; lia|done]. Qed.
Lemma format_fixed_inert k x : inert (format_fixed k x).
Proof.
  assert (∀ n, inert (format_decimal k n)) as Hd.
  { intros n. apply free_app. split; [apply pretty_inert|]. apply free_app. split; [by split; [set_solver|]|apply fixed_digits_inert]. }
  assert (∀ b : bool, inert (if b then "-" else "")) as Hsign by (intros []; [by split; [set_solver|]|done]).
  destruct x as [s|s| |s m e]; simpl; [|..|]; try (apply free_app; split; [apply Hsign|apply Hd]).
  - apply free_app. split; [apply Hsign|]. repeat split; set_solver.
  - repeat split; set_solver.
Qed.

(** Pieces of pages with the same markup, each of them whole. *)
Definition alike (s t : string) : Prop :=
  markup false s = markup false t ∧ ends_in_tag false s = false ∧ ends_in_tag false t = false.

Lemma alike_app s s' t t' : alike s t → alike s' t' → alike (s ++ s') (t ++ t').
Proof.
  intros (Hm & Hs & Ht) (Hm' & Hs' & Ht'). unfold alike. by rewrite !markup_app, !ends_in_tag_app, Hs, Ht, Hm, Hm'.
Qed.
Lemma alike_whole s : ends_in_tag false s = false → alike s s.
Proof. by intros Hs. Qed.
Lemma alike_inert s t : inert s → inert t → alike s t.
Proof. intros [H1 H2]%inert_markup [H3 H4]%inert_markup. split; [by rewrite H1, H3|done]. Qed.
Lemma alike_concat l l' : Forall2 alike l l' → alike (concat_strings l) (concat_strings l').
Proof. induction 1 as [|s t l l' Hst _ IH]; [done|]. by apply alike_app. Qed.

Create HintDb markup discriminated.
#[local] Hint Resolve escape_inert pretty_inert format_fixed_inert : markup.
#[local] Hint Extern 1 (alike (quoted ?s) (quoted ?s)) => apply alike_whole; vm_compute; reflexivity : markup.
#[local] Hint Extern 2 (alike _ _) => apply alike_inert : markup.
Ltac alike_pieces := repeat (apply alike_app; [solve [eauto with markup]|]).

Definition same_numbers (m m' : Measurement) : Prop :=
  mean_ns m = mean_ns m' ∧ elements_per_second m = elements_per_second m'.

Lemma rows_alike f m m' : same_numbers m m' → alike (render_row f m) (render_row f m').
Proof.
  intros [Hmean Heps]. unfold render_row. rewrite Hmean, Heps. alike_pieces. apply alike_whole.
  rewrite !ends_in_tag_app. by rewrite (inert_ends (format_fixed 1 _)) by apply format_fixed_inert.
Qed.

Lemma fastest_same ms ms' : Forall2 same_numbers ms ms' → fastest ms = fastest ms'.
Proof.
  intros Hs. unfold fastest. f_equal. induction Hs as [|m m' ms ms' [_ Heps] _ IH]; [done|]. csimpl. by rewrite Heps, IH.
Qed.

Lemma sections_alike ms ms' : Forall2 same_numbers ms ms' → alike (render_chunk ms) (render_chunk ms').
Proof.
  intros Hs. pose proof (fastest_same _ _ Hs) as Hf.
  assert (alike (concat_strings (render_row (fastest ms) <$> ms)) (concat_strings (render_row (fastest ms) <$> ms'))) as Hrows.
  { apply alike_concat, Forall2_fmap. eapply Forall2_impl; [exact Hs|]. intros m m'. apply rows_alike. }
  destruct Hs as [|m m' ms ms' Hm Hs]; [done|]. unfold render_chunk, render_section. rewrite <-Hf.
  alike_pieces. eauto with markup.
Qed.

(** C37. No text of the results changes the markup of the page. Whatever the names of groups, frameworks and parameters,
    the tag, and what the environment says of itself are, angle brackets and all: pages which show the same numbers
    in sections of the same sizes have the same tags, attributes included, and a page never ends within one; what is
    escaped reads as what it was. *)
Theorem pages_are_inert r r' :
  Forall2 (Forall2 same_numbers) (sections_of (measurements r)) (sections_of (measurements r')) →
  markup false (render_html r) = markup false (render_html r') ∧ ends_in_tag false (render_html r) = false ∧
  ∀ s, unescape (escape s) = s ∧ inert (escape s).
Proof.
  intros Hs. assert (alike (render_html r) (render_html r')) as (H1 & H2 & _).
  - unfold render_html, render_page.
    assert (∀ o : option N, inert match o with Some cores => pretty cores | None => "unknown" end) as Hcores.
    { intros []; [apply pretty_inert|]. repeat split; set_solver. }
    assert (alike (concat_strings (render_chunk <$> sections_of (measurements r)))
                  (concat_strings (render_chunk <$> sections_of (measurements r')))) as Hsections.
    { apply alike_concat, Forall2_fmap. eapply Forall2_impl; [exact Hs|]. intros ms ms'. apply sections_alike. }
    alike_pieces. eauto with markup.
  - split_and!; [done..|]. intros s. split; [apply unescape_escape|apply escape_inert].
Qed.

(** ** Versions *)

#[local] Arguments strip_prefix : simpl never.

Lemma btree_get_insert k k' v m : btree_get k (btree_insert k' v m) = if decide (k = k') then Some v else btree_get k m.
Proof.
  induction m as [|[k1 v1] m IH]; [done|]. simpl. destruct (String.compare k' k1) eqn:Hc; simpl.
  - apply string_compare_eq in Hc as ->. by case_decide.
  - done.
  - rewrite IH. repeat case_decide; try done; subst. by rewrite (ordering_refl (cmp:=String.compare)) in Hc.
Qed.

Definition keys_ascend (m : BTreeMap) : Prop := StronglySorted (λ a b, String.compare a b = Lt) m.*1.
Lemma btree_insert_keys k v m x : x ∈ (btree_insert k v m).*1 → x = k ∨ x ∈ m.*1.
Proof.
  induction m as [|[k1 v1] m IH]; simpl; [set_solver|]. destruct (String.compare k k1) eqn:Hc; simpl.
  - apply string_compare_eq in Hc as ->. set_solver.
  - set_solver.
  - intros [->|Hx]%elem_of_cons; [set_solver|]. destruct (IH Hx); set_solver.
Qed.
Lemma btree_insert_ascends k v m : keys_ascend m → keys_ascend (btree_insert k v m).
Proof.
  unfold keys_ascend. induction m as [|[k1 v1] m IH]; simpl; intros Hm; [by repeat constructor|].
  apply StronglySorted_cons in Hm as [H1 Hm]. destruct (String.compare k k1) eqn:Hc; simpl; apply StronglySorted_cons.
  - apply string_compare_eq in Hc as ->. by split.
  - split; [|by apply StronglySorted_cons]. constructor; [done|]. eapply Forall_impl; [exact H1|]. intros x Hx.
    assert (String.compare k x ≠ Gt) as Hle by (apply (ordering_trans (cmp:=String.compare) _ k1); congruence).
    destruct (String.compare k x) eqn:Hkx; [|done..]. apply string_compare_eq in Hkx as ->.
    simpl in Hx. rewrite (ordering_antisym (cmp:=String.compare)), Hc in Hx. done.
  - split; [|by apply IH]. apply Forall_forall. intros x [->|Hx]%btree_insert_keys; [by rewrite (ordering_antisym (cmp:=String.compare)), Hc|].
    by rewrite Forall_forall in H1; apply H1.
Qed.

(** A package of a lock file, as Cargo writes it. *)
Record Package := mk_package { name : string; version : string; others : list string }.

Definition quote (s : string) : string := String QUOTE s ++ String QUOTE "".
Definition package_lines (p : Package) : list string :=
  ["[[package]]"; "name = " ++ quote (name p); "version = " ++ quote (version p)] ++ others p ++ [""].
Definition lock_lines (header : list string) (packages : list Package) : list string :=
  (header ++ (packages ≫= package_lines))%list.

(** Neither a name nor a version. *)
Definition neutral (line : string) : Prop := strip_prefix "name = " line = None ∧ strip_prefix "version = " line = None.
Definition package_ok (p : Package) : Prop :=
  free [QUOTE; LF; CR] (name p) ∧ free [QUOTE; LF; CR] (version p) ∧ Forall (λ line, neutral line ∧ free [LF; CR] line) (others p).

(** The last version of a package. *)
Definition last_version (packages : list Package) (package : string) : option string :=
  last (omap (λ p, if decide (name p = package) then Some (version p) else None) packages).

Lemma read_neutral st l : Forall neutral l → foldl read_line st l = st.
Proof.
  intros Hl. induction Hl as [|line l [H1 H2] _ IH]; [done|]. simpl. rewrite <-IH at 2. f_equal. destruct st as [vs n].
  unfold read_line. by rewrite H1, H2.
Qed.

(** Before the first name a version, that of the format, is none of a package. *)
Lemma read_header header : Forall (λ line, strip_prefix "name = " line = None) header → foldl read_line ([] : BTreeMap, None) header = ([] : BTreeMap, None).
Proof.
  induction 1 as [|line header Hn _ IH]; [done|]. simpl. rewrite Hn. destruct (strip_prefix "version = " line); exact IH.
Qed.

Lemma free_quoted s : free [QUOTE; LF; CR] s → free [QUOTE] s ∧ free [LF; CR] s.
Proof. intros Hs. split; (eapply free_mono; [|exact Hs]); set_solver. Qed.

Definition add_version (vs : BTreeMap) (p : Package) : BTreeMap :=
  if decide (name p ∈ PACKAGES) then btree_insert (name p) (version p) vs else vs.

Lemma read_package vs n p : package_ok p → foldl read_line (vs, n) (package_lines p) = (add_version vs p, None).
Proof.
  intros (Hn & Hv & Ho). apply free_quoted in Hn as [Hn _]. apply free_quoted in Hv as [Hv _].
  change (foldl read_line (read_line (read_line (vs, n) ("name = " ++ quote (name p))) ("version = " ++ quote (version p))) (others p ++ [""])%list
    = (add_version vs p, None)).
  unfold quote. unfold read_line at 3. rewrite (strip_prefix_app "name = "), trim_matches_quoted by done.
  assert (read_line (vs, Some (name p)) ("version = " ++ String QUOTE (version p) ++ String QUOTE "") = (add_version vs p, None)) as ->.
  { unfold read_line. change (strip_prefix "name = " ("version = " ++ String QUOTE (version p) ++ String QUOTE "")) with (@None string).
    by rewrite (strip_prefix_app "version = "), trim_matches_quoted. }
  apply read_neutral, Forall_app. split; [|by repeat constructor]. eapply Forall_impl; [exact Ho|]. by intros ? [? _].
Qed.

Lemma read_packages vs n packages :
  Forall package_ok packages → ∃ n', foldl read_line (vs, n) (packages ≫= package_lines) = (foldl add_version vs packages, n').
Proof.
  intros Hp. revert vs n. induction Hp as [|p packages Hp _ IH]; intros vs n; [by exists n|].
  change (∃ n', foldl read_line (vs, n) (package_lines p ++ (packages ≫= package_lines))%list = (foldl add_version (add_version vs p) packages, n')).
  rewrite foldl_app, read_package by done. apply IH.
Qed.

Lemma add_versions_get packages package : ∀ vs, package ∈ PACKAGES →
  btree_get package (foldl add_version vs packages) =
  match last_version packages package with Some v => Some v | None => btree_get package vs end.
Proof.
  intros vs Hin. induction packages as [|p packages IH] using rev_ind; [done|]. unfold last_version in *.
  rewrite foldl_app, omap_app. simpl. unfold add_version at 1. destruct (decide (name p = package)) as [<-|Hne]; simpl.
  - rewrite last_snoc, decide_True, btree_get_insert by done. by rewrite decide_True.
  - rewrite (right_id_L [] (++)%list), <-IH. case_decide; [|done]. rewrite btree_get_insert. by rewrite decide_False.
Qed.
Lemma add_versions_only packages package : package ∉ PACKAGES → btree_get package (foldl add_version [] packages) = None.
Proof.
  intros Hin. induction packages as [|p packages IH] using rev_ind; [done|]. rewrite foldl_app. simpl. unfold add_version at 1.
  case_decide; [|done]. rewrite btree_get_insert. case_decide; [by subst|done].
Qed.
Lemma add_versions_ascend packages : keys_ascend (foldl add_version [] packages).
Proof.
  induction packages as [|p packages IH] using rev_ind; [constructor|]. rewrite foldl_app. simpl. unfold add_version at 1.
  case_decide; [by apply btree_insert_ascends|done].
Qed.

Lemma lock_lines_free header packages :
  Forall (free [LF; CR]) header → Forall package_ok packages → Forall (free [LF; CR]) (lock_lines header packages).
Proof.
  intros Hh Hp. apply Forall_app. split; [done|]. induction Hp as [|p packages (Hn & Hv & Ho) _ IH]; [done|].
  apply free_quoted in Hn as [_ Hn]. apply free_quoted in Hv as [_ Hv].
  change (Forall (free [LF; CR]) (package_lines p ++ (packages ≫= package_lines))%list). apply Forall_app. split; [|done].
  apply Forall_app. split.
  - assert (∀ v, free [LF; CR] v → free [LF; CR] (quote v)) as Hq.
    { intros v Hv'. apply (free_app _ (String QUOTE v)). split; [split; [set_solver|done]|split; [set_solver|done]]. }
    apply Forall_cons; split; [repeat split; set_solver|].
    apply Forall_cons; split; [apply free_app; split; [repeat split; set_solver|by apply Hq]|].
    apply Forall_singleton, free_app. split; [repeat split; set_solver|by apply Hq].
  - apply Forall_app. split; [|by repeat constructor]. eapply Forall_impl; [exact Ho|]. by intros ? [_ ?].
Qed.

Lemma filter_ext_in {A} (P Q : A → Prop) `{!∀ x, Decision (P x), !∀ x, Decision (Q x)} (l : list A) :
  (∀ x, x ∈ l → P x ↔ Q x) → filter P l = filter Q l.
Proof.
  induction l as [|x l IH]; intros Hl; [done|]. rewrite !filter_cons, IH by (intros y Hy; apply Hl; by right).
  pose proof (Hl x ltac:(by left)) as Hx. by rewrite (decide_ext (P x) (Q x)).
Qed.

(** The versions read from a lock file are those of the packages, the last one of each, in the order of their names; if
    one is missing the report fails and says which. *)
Theorem versions_round_trip path header packages :
  Forall (λ line, strip_prefix "name = " line = None ∧ free [LF; CR] line) header → Forall package_ok packages →
  node path = Some (File (Ok (unlines (lock_lines header packages)))) →
  match filter (λ package, last_version packages package = None) PACKAGES with
  | [] =>
      ∃ vs, read_versions path = Ok vs ∧ keys_ascend vs ∧
        ∀ package, btree_get package vs = if decide (package ∈ PACKAGES) then last_version packages package else None
  | missing => read_versions path = Err ["no version in " ++ display path ++ " for " ++ join ", " missing]
  end.
Proof.
  intros Hh Hp Hnode. set (vs := foldl add_version [] packages).
  assert ((foldl read_line ([] : BTreeMap, None) (lock_lines header packages)).1 = vs) as Hvs.
  { unfold lock_lines. rewrite foldl_app.
    rewrite (read_header header) by (eapply Forall_impl; [exact Hh|]; by intros ? [? _]).
    destruct (read_packages [] None packages Hp) as [n ->]. done. }
  assert (∀ package, package ∈ PACKAGES → btree_get package vs = last_version packages package) as Hget.
  { intros package Hin. unfold vs. rewrite add_versions_get by done. by destruct (last_version packages package). }
  unfold read_versions, read_to_string. rewrite Hnode. simpl. rewrite lines_unlines, Hvs.
  - assert (filter (λ package, btree_get package vs = None) PACKAGES = filter (λ package, last_version packages package = None) PACKAGES) as ->.
    { apply filter_ext_in. intros package Hin. by rewrite Hget. }
    destruct (filter _ _) as [|package missing] eqn:Hm; [|done]. exists vs. split_and!; [done|apply add_versions_ascend|].
    intros package. case_decide; [by apply Hget|by apply add_versions_only].
  - apply lock_lines_free; [|done]. eapply Forall_impl; [exact Hh|]. by intros ? [_ ?].
Qed.
