(* ===== verification/ReportExample.v ===== *)
(** The report of three measurements: the theorems of [ReportSpec] hold of it. *)
From stdpp Require Import strings sorting pretty.
From Stdlib Require Import Strings.String Strings.Ascii.
From S2P Require Import Prelude Floats Text Orderings Report ReportSpec.

#[local] Open Scope string_scope.

(** Documents by name, and what is at the pointers into them. *)
Definition field_of (document at_ : string) : option string :=
  let '(group, framework, parameter) :=
    if decide (document = "ask kameo 10") then ("ask", "kameo", "10")
    else if decide (document = "ask tellus 2") then ("ask", "tellus", "2") else ("ask", "kameo", "2") in
  if decide (at_ = "/group_id") then Some group
  else if decide (at_ = "/function_id") then Some framework
  else if decide (at_ = "/value_str") then Some parameter
  else if decide (at_ = "/throughput/Elements") then Some "1000"
  else Some "250000".

#[local] Instance documents : SerdeJson := {
  Value := string;
  from_str s := Ok s;
  pointer := field_of;
  as_str v := Some v;
  as_u64 := parse_u64;
  as_f64 v := f64_from_u64 <$> parse_u64 v;
}.

Definition sample (document : string) : result (string * Tree) string :=
  Ok ("new", Dir None [Ok ("benchmark.json", File (Ok document)); Ok ("estimates.json", File (Ok "estimates"))]).
Definition results : Tree :=
  Dir None
    [Ok ("ask", Dir None
       [Ok ("kameo", Dir None [Ok ("10", Dir None [sample "ask kameo 10"; Ok ("report", Dir None [])]); Ok ("2", Dir None [sample "ask kameo 2"])]);
        Ok ("tellus", Dir None [Ok ("2", Dir None [sample "ask tellus 2"])])]);
     Ok ("report.html", File (Ok ""))].
Definition results_path : PathBuf := mk_path "target" (Some results).

Definition read : list Measurement := match read_measurements results_path with Ok ms => ms | Err _ => [] end.
Lemma read_is_ok : read_measurements results_path = Ok read ∧ (key <$> read) = [("ask", Some "2"); ("ask", Some "2"); ("ask", Some "10")].
Proof. split; vm_compute; reflexivity. Qed.

Lemma read_is_unambiguous : unambiguous read.
Proof.
  apply numbers_are_unambiguous. intros m Hm. assert (key m ∈ key <$> read) as Hk by (apply list_elem_of_fmap; exists m; split; [reflexivity|exact Hm]).
  rewrite (proj2 read_is_ok) in Hk. rewrite !elem_of_cons in Hk.
  destruct Hk as [Hk|[Hk|[Hk|Hk%elem_of_nil]]]; [exists 2%N|exists 2%N|exists 10%N|destruct Hk]; injection Hk as _ Hp; (split; [vm_compute; discriminate|exact Hp]).
Qed.

(** The two frameworks with parameter 2 share a section. *)
Lemma every_benchmark_has_its_section_witness :
  NoDup (sections_of read ≫= λ section, take 1 (key <$> section)) ∧ length (sections_of read) = 2.
Proof.
  destruct (every_benchmark_has_its_section results_path results read eq_refl (proj1 read_is_ok)) as (_ & _ & Hall).
  destruct (Hall read_is_unambiguous) as [Hnd _]. split; [exact Hnd|]. vm_compute. reflexivity.
Defined.

(** A page about frameworks with tags for names, and one about the same numbers. *)
Definition unknown (tag : string) : Metadata := mk_metadata tag None None None None None None [].
Definition plain : Report := mk_report (unknown "local") read.
Definition hostile : Report :=
  mk_report (unknown "</title><script>")
    ((λ m, mk_measurement (group m) ("<b>" ++ framework m) (parameter m) (elements m) (mean_ns m) (lower_ns m) (upper_ns m) (elements_per_second m)) <$> read).

Lemma pages_are_inert_witness : markup false (render_html hostile) = markup false (render_html plain).
Proof.
  refine (proj1 (pages_are_inert hostile plain _)). vm_compute. repeat constructor.
Defined.

(** What the sections of a page show. *)
Example shown_throughput : (λ m, format_fixed 2 (f64_div (elements_per_second m) (f64_of 1000000 0))) <$> read = ["4.00"; "4.00"; "4.00"].
Proof. vm_compute. reflexivity. Qed.
